(* ===== verification/_CoqProject ===== *)
-Q . S2P
Prelude.v
ContainerUtils.v
IntUtils.v
NetText.v
NetTextRef.v
System.v
IpAddress.v
Ethernet.v
Ip.v
PacketParser.v
Pcap.v
FileDescriptor.v
SpawnProcess.v
Logging.v
ScopeGuard.v
Locks.v
Atomicity.v
Deadlock.v
Socket.v
Wol.v
WolWatcher.v
Session.v
Discipline.v
Lifetimes.v
Settling.v
Breaking.v
Stopping.v
DuplicateAddressWatcher.v
Args.v
SleepProxy.v
Conformance.v
Serving.v
Progress.v
Programs.v
EarlySignal.v
Ledger.v
