(* ===== verification/Prelude.v ===== *)
(** * sleep-proxy: a verification library

    The program keeps up the illusion that a sleeping machine is running.  A
    thread of [watchHost] pings its host; when the host stops to answer, the
    thread adds the host's addresses to its own machine ([emulate_host]), with
    firewall rules which drop the connections to the watched ports, and waits
    for a TCP SYN with libpcap.  When one arrives it gives the addresses and
    rules up, sends a magic packet, pings until the host answers and injects the
    captured SYN again.  Two kinds of watchers can end the waiting early: one for
    magic packets of other machines, one per address for machines which claim
    the address; signals end it too.

    ** The files

    In order of dependency, with the sources (under [src/src/include/*.h] and
    [src/src/sleep-proxy/*.cpp]) each one models:

    - [Prelude]: exceptions and undefined behaviour ([outcome]), byte order,
      iterators into a packet, strings; tactics and lemmas used everywhere.
    - [ContainerUtils]: [container_utils], [to_string]: [split], [join], the
      range check.
    - [IntUtils]: [int_utils]: conversions between strings and integers of a given
      width and signedness, with [errno].
    - [NetText], [NetTextRef]: the interface of the C library's functions for
      network addresses, its laws, and an instance.
    - [System]: the system calls, the monad [M] of computations with effects, and
      four ways to reason about them: [wp] (weakest preconditions), [steps]
      (what is left alone, with [emits] for the kinds of calls made), [steps_post],
      and [ends] (how a computation may end the process).
    - [IpAddress], [Ethernet], [Ip], [PacketParser]: [ip_address], [ethernet], [ip],
      [packet_parser]: addresses and the parsers for captured packets.
    - [Pcap]: [pcap_wrapper] and the signal handling of [libsleep_proxy].
    - [FileDescriptor]: [file_descriptor].
    - [SpawnProcess]: [spawn_process].
    - [Logging]: [log] and the usage messages of the programs.
    - [ScopeGuard]: [scope_guard]: guards for addresses, rules, registrations.
    - [Locks], [Atomicity], [Deadlock]: the accesses to [pcaps] and
      [loop_end_reason] under their mutexes ([Ptr_guard], [break_loop], the end of
      [loop], [signal_handler]), interleaved.
    - [Socket], [Wol]: [socket], [wol]: sending magic packets.
    - [WolWatcher], [DuplicateAddressWatcher]: [wol_watcher],
      [duplicate_address_watcher]: the watcher threads.
    - [Session], [Discipline], [Lifetimes], [Settling], [Breaking], [Stopping]: the threads
      of [wait_and_listen], its guards and its captures, step by step: the machine, a
      typing discipline, who lives how long, that the threads come to rest, when a
      broken capture is not waited for, and what a host can be waiting for at rest.
    - [Args]: [args], [ip_utils]: the configuration.
    - [SleepProxy]: [libsleep_proxy]: [emulate_host] and its parts.
    - [Conformance]: the code of [Session] is what [wait_and_listen] does.
    - [Serving]: what [emulate_host] does for a client, packet by packet.
    - [Progress]: total correctness ([total]) and an environment in which
      [emulate_host] succeeds ([Cooperative]).
    - [Programs]: [watchHost.cpp], [emulateHost.cpp], [waker.cpp], [sniffer.cpp].
    - [EarlySignal]: signals which arrive before the capture is registered.
    - [Ledger]: the account book of addresses and rules which [emulate_host] and the
      threads of [watchHost] refine.

    ** How the code is modelled

    A function without effects is a function into [outcome]: a value, an
    exception, or undefined behaviour where an iterator leaves its vector, a null
    pointer is used or an array is overrun.  Integers are [Z] with the width
    written at every conversion; memory is a list of bytes, and byte order
    ([Host]) is a parameter.

    A function with effects is a computation in [M].  Its state is the [world]:
    the history of all system calls and their results, and the program's
    globals.  The results of system calls are an arbitrary function of the
    history ([System]); a theorem which is quantified over [System] therefore
    holds for every behaviour of the kernel, of libpcap, of the commands which
    are run, and of other threads as far as they are seen through system calls.
    What happens during [pcap_loop] -- packets, signals, calls of [break_loop] by
    other threads -- is a list of happenings in any order ([loop_run]).
    Destructors are [finally], guards which protect a partly constructed object
    are [on_raise], exceptions which leave a destructor or a thread end the
    process ([noexcept]).  An object with identity (a capture, a watcher) is a
    number.

    Which addresses and rules are in effect is read off the history: a command
    [ip addr add|del] or [iptables -I|-D] which ended with status 0 changes the
    [balance] of the thing it names ([ScopeGuard]); entries of the registry the
    signal handler uses are counted in the same way.

    In [M] a function which holds a lock is one step.  [Locks] has the same functions
    as sequences of instructions ([ptr_guard_code], [signal_handler_code],
    [break_loop_code], [get_end_reason_code], [loop_end_code]) and a machine in
    which any number of threads interleave instruction by instruction and signals
    arrive anywhere; an iterator into [pcaps] is an index with the generation of
    the vector it belongs to.  [Atomicity] connects the two views.  [Session] is a
    third view, in which captures and threads come and go: it has the life of every
    [Pcap_wrapper] and every [std::thread], with the accesses to the member
    [loop_thread], and leaves the data out; the mutex of [loop_end_reason], which
    [Locks] has, is one step there.  A thread in [pcap_loop] looks at the flag of
    [pcap_breakloop] before it waits for a packet; while it waits it is not woken by the
    flag, as libpcap documents, but ended by [pthread_cancel], which acts where the thread
    waits (unless something from outside makes it look again).  The checks of the
    neighbours and the [ip6tables] commands of a watcher for an IPv6 address are waited
    for; which addresses are IPv6 addresses is a parameter ([Families]).  [Conformance] compares it with the computation in
    [M], by what both leave on a tape of starts, joins, stores and registrations.

    Loops with a bound in the code are recursive over it ([ping_loop]).  Loops
    which end when the environment says so take fuel ([Fuel]) and end the process
    with [Out_of_fuel] when it is used up: [wait_until_pid_exits], [read], the
    watchers, [thread_main].  [wait_until_pid_exits_result], [fd_read_lines],
    [daw_notices], [emulate_host_completes] and [watch_round] say how much is enough.  Reading a
    configuration file has a bound of its own, the number of lines.

    ** What is shown

    - [SleepProxy], [Progress], [Programs]: whatever fails, addresses, rules and
      registrations are as before when [emulate_host] or a thread of [watchHost]
      is done; nothing is sent before they are given up; setting up, pinging and
      replaying do exactly what is stated; where everything works [emulate_host]
      succeeds, or returns why its capture was broken; when the threads of [watchHost] end;
      [waker] has no undefined behaviour.
    - [Serving]: the rule against ICMP errors is for the address the captured packet
      came from, the pings are for the address it went to, and the packet itself is
      injected, after the magic packet and in this order.
    - [EarlySignal]: a signal which arrives before the capture is registered changes
      nothing until a client connects, and then the host is not waited for.
    - [Discipline], [Lifetimes], [Settling]: however a session of [wait_and_listen] goes,
      no capture and no [std::thread] is used outside its life, nothing is left, no
      threads wait for one another in a circle, and left alone they come to rest;
      [loop_thread] is read while it is written, and a thread can be cancelled which
      has been joined.
    - [Breaking], [Stopping]: as long as no [break_loop] looks at [loop_thread] between the
      start of the thread of [loop] and the assignment to that member, [break_loop] ends the
      loop it is meant for, and a host which takes its guards down waits for nothing but the
      running command of a watcher -- or is held up by a fault or a mutex whose holder waits
      for it.  In that window a [break_loop] is lost, until the next packet.
    - [Conformance]: however a call of [wait_and_listen] goes, the threads it starts and
      joins, the flags it stores, its registrations and its loop are, in their order,
      those of the code of a session.
    - [Ledger]: a refinement of an abstract account book, at every moment and also
      when the process dies; the books of several threads, watchers and listeners
      included, can be merged in any way.
    - [Locks], [Atomicity], [Deadlock]: a typing discipline for locks and iterators
      and its soundness; no interleaving goes wrong; a refinement of atomic steps,
      which are the functions of [Pcap] and [ScopeGuard]; deadlock freedom and
      termination as long as signals arrive outside the critical sections, and a
      deadlock when one arrives inside.
    - [Logging]: what the log sees is one entry per message under the identifier set
      last; a freed identifier is never used.
    - [ScopeGuard]: guards account for what they hold over every sequence of
      moves, frees and destructions; constructing several is all or nothing; both
      commands of a functor name the same resource; the [--u32] rule.
    - [Args]: a file gives one [Args] per section with what the section says; exactly
      which sections make an [Args].  The length of the interface name is not
      checked, and a long one makes [wol_ethernet] write past the end of an array.
    - [IntUtils]: which number, or which exception, [str_to_integral] makes of every
      string; decimal notation is read back, the characters which [to_string] makes
      of types of eight bits are not.
    - [IpAddress], [PacketParser], [Wol], [WolWatcher]: encoding and
      decoding are inverse; errors are exactly the stated ones; where the parsers
      leave the packet.
    - [Pcap], [FileDescriptor], [SpawnProcess], [DuplicateAddressWatcher]: why a
      capture ended; that no descriptor is closed twice; that [spawn] waits for the
      child it has started, and what it makes of its status; when a watcher notices.

    ** What is not modelled

    Calls of [log] in the other components are left out, with the evaluation of the
    messages where it has no effect: nothing reads the log back.  [getopt_long] is
    given as the list of the options it returns.  Starting a thread and allocating
    memory do not fail.  The futures of [ping_ips] are
    run one after the other; a thread of [watchHost] is run by itself, in an
    environment which stands for the others, and [Ledger] puts the commands of
    several together.  [pcap_compile_mutex] only serialises calls of libpcap.  In [M]
    and [Locks] the member [loop_thread] is a call with any result; its race is shown in
    [Session], where an access is one step: what a torn access does is not modelled.  What
    happens when a process ends early (undefined behaviour, [std::terminate]) is
    not pursued further, except that the account book is valid until then.

    ** What could follow

    A refinement from [Session] to [Locks], so that the two machines share the registry. *)

From stdpp Require Export prelude strings pretty list gmap.
From Stdlib Require Export ZArith Lia.
From Stdlib Require Ascii.
Export Stdlib.Strings.Ascii (ascii(..)).
Export (notations) Stdlib.Strings.Ascii.

(** ** Exceptions, undefined behaviour and the outcome of a C++ call *)

(** The exception classes of [<stdexcept>] and [<system_error>] which the
    program throws. *)
Inductive exn_kind :=
  | runtime_error | length_error | invalid_argument
  | out_of_range | domain_error | system_error.

Record exn := Exn { exn_type : exn_kind; what : string }.

(** The kinds of undefined behaviour the program's pointer and iterator
    arithmetic, its locks and its calls of [printf] could run into. *)
Inductive ub :=
  | read_past_end | advance_past_end | null_dereference | write_past_end
  | dangling_pointer | stale_iterator | unlock_not_owner | format_mismatch.

Inductive outcome (A : Type) :=
  | Ret (a : A)
  | Throw (e : exn)
  | Undef (u : ub).
Arguments Ret {A} _.
Arguments Throw {A} _.
Arguments Undef {A} _.

#[export] Instance exn_kind_eq_dec : EqDecision exn_kind.
Proof. solve_decision. Defined.
#[export] Instance exn_eq_dec : EqDecision exn.
Proof. solve_decision. Defined.
#[export] Instance ub_eq_dec : EqDecision ub.
Proof. solve_decision. Defined.
#[export] Instance outcome_eq_dec `{EqDecision A} : EqDecision (outcome A).
Proof. solve_decision. Defined.

#[export] Instance outcome_ret : MRet outcome := @Ret.
#[export] Instance outcome_bind : MBind outcome := λ A B f m,
  match m with
  | Ret a => f a
  | Throw e => Throw e
  | Undef u => Undef u
  end.
#[export] Instance outcome_fmap : FMap outcome := λ A B f m,
  match m with
  | Ret a => Ret (f a)
  | Throw e => Throw e
  | Undef u => Undef u
  end.

Definition throw {A} (k : exn_kind) (msg : string) : outcome A := Throw (Exn k msg).

(** [try { m } catch (std::exception const &e) { h e }] *)
Definition try_catch {A} (m : outcome A) (h : exn → outcome A) : outcome A :=
  match m with
  | Throw e => h e
  | _ => m
  end.

(** [vector::at] *)
Definition vec_at {A} (l : list A) (i : nat) : outcome A :=
  match l !! i with
  | Some x => Ret x
  | None => throw out_of_range "vector::_M_range_check"
  end.

Definition throws {A} (k : exn_kind) (m : outcome A) : Prop :=
  ∃ msg, m = Throw (Exn k msg).

Definition is_defined {A} (m : outcome A) : Prop := ∀ u, m ≠ Undef u.

Definition returns {A} (m : outcome A) : Prop := ∃ a, m = Ret a.

Create HintDb proxy.
Create Rewrite HintDb proxy.

Lemma bind_Ret {A B} (m : outcome A) (f : A → outcome B) b :
  m ≫= f = Ret b ↔ ∃ a, m = Ret a ∧ f a = Ret b.
Proof. destruct m; cbn; (split; [try done; eauto | intros (? & ? & ?); by simplify_eq]). Qed.

Lemma bind_Throw {A B} (m : outcome A) (f : A → outcome B) e :
  m ≫= f = Throw e ↔ m = Throw e ∨ ∃ a, m = Ret a ∧ f a = Throw e.
Proof. destruct m; cbn; (split; [intros; simplify_eq; eauto | intros [?|(? & ? & ?)]; by simplify_eq]). Qed.

Lemma bind_Undef {A B} (m : outcome A) (f : A → outcome B) u :
  m ≫= f = Undef u ↔ m = Undef u ∨ ∃ a, m = Ret a ∧ f a = Undef u.
Proof. destruct m; cbn; (split; [intros; simplify_eq; eauto | intros [?|(? & ? & ?)]; by simplify_eq]). Qed.

Lemma is_defined_bind {A B} (m : outcome A) (f : A → outcome B) :
  is_defined m → (∀ a, m = Ret a → is_defined (f a)) → is_defined (m ≫= f).
Proof. intros Hm Hf u [?|(a & ? & ?)]%bind_Undef; [by eapply Hm|by eapply Hf]. Qed.

Lemma is_defined_Ret {A} (a : A) : is_defined (Ret a).
Proof. by intros u. Qed.
Lemma is_defined_throw {A} k m : is_defined (throw (A:=A) k m).
Proof. by intros u. Qed.
Lemma throws_throw {A} k m : throws (A:=A) k (throw k m).
Proof. by exists m. Qed.
Lemma vec_at_defined {A} (l : list A) i : is_defined (vec_at l i).
Proof. unfold vec_at. by case_match. Qed.
#[export] Hint Resolve is_defined_Ret is_defined_throw throws_throw vec_at_defined
  is_defined_bind : proxy.

(** A loop over a list which threads its state through calls that may fail *)
Lemma foldl_bind_Throw {A B} (f : B → A → outcome A) (l : list B) e :
  foldl (λ m x, m ≫= f x) (Throw e) l = Throw e.
Proof. by induction l. Qed.
Lemma foldl_bind_Undef {A B} (f : B → A → outcome A) (l : list B) u :
  foldl (λ m x, m ≫= f x) (Undef u) l = Undef u.
Proof. by induction l. Qed.

(** Inverts every hypothesis which states the result of a monadic sequence. *)
Ltac outcome_inv :=
  repeat match goal with
  | H : mbind _ _ = Ret _ |- _ => apply bind_Ret in H as (? & ? & ?)
  | H : mbind _ _ = Throw _ |- _ => apply bind_Throw in H as [?|(? & ? & ?)]
  | H : mbind _ _ = Undef _ |- _ => apply bind_Undef in H as [?|(? & ? & ?)]
  | H : Ret _ = Ret _ |- _ => injection H as ?; subst
  | H : throw _ _ = Ret _ |- _ => discriminate H
  | H : throw _ _ = Undef _ |- _ => discriminate H
  | H : Ret _ = Throw _ |- _ => discriminate H
  | H : Ret _ = Undef _ |- _ => discriminate H
  end.

(** ** Machine integers and bytes *)

Definition byte_wf (b : Z) : Prop := (0 ≤ b < 256)%Z.
Abbreviation bytes_wf := (Forall byte_wf).

#[export] Instance byte_wf_dec b : Decision (byte_wf b).
Proof. unfold byte_wf. apply _. Defined.

(** [static_cast] to an unsigned type of [w] bits *)
Definition wrap (w : Z) (x : Z) : Z := (x mod 2 ^ w)%Z.

(** The byte order of the machine which runs the program. *)
Inductive endian := Little | Big.
Class Host := host_endian : endian.

(** Reading two resp. four bytes of memory as one unsigned integer. *)
Definition load_u16 `{Host} (b0 b1 : Z) : Z :=
  match host_endian with
  | Little => b0 + 256 * b1
  | Big => 256 * b0 + b1
  end%Z.

Definition load_u32 `{Host} (b0 b1 b2 b3 : Z) : Z :=
  match host_endian with
  | Little => b0 + 256 * (b1 + 256 * (b2 + 256 * b3))
  | Big => b3 + 256 * (b2 + 256 * (b1 + 256 * b0))
  end%Z.

Definition bswap16 (x : Z) : Z := ((x mod 256) * 256 + (x / 256) mod 256)%Z.
Definition bswap32 (x : Z) : Z :=
  (bswap16 (x mod 65536) * 65536 + bswap16 ((x / 65536) mod 65536))%Z.

(** [ntohs] (and [htons], which is the same function) and [htonl] *)
Definition ntohs `{Host} (x : Z) : Z :=
  match host_endian with Little => bswap16 x | Big => x end.
Definition htonl `{Host} (x : Z) : Z :=
  match host_endian with Little => bswap32 x | Big => x end.

(** Network byte order, independent of the host *)
Definition be_u16 (b0 b1 : Z) : Z := (256 * b0 + b1)%Z.
Definition be_u32 (b0 b1 b2 b3 : Z) : Z := (b3 + 256 * (b2 + 256 * (b1 + 256 * b0)))%Z.

Lemma bswap16_bytes a b :
  byte_wf a → byte_wf b → bswap16 (a + 256 * b) = (256 * a + b)%Z.
Proof.
  unfold byte_wf, bswap16. intros ??.
  rewrite (Z.mul_comm 256 b), Z.mod_add, Z.mod_small, Z.div_add, Z.div_small by lia.
  rewrite Z.mod_small by lia. lia.
Qed.

Lemma ntohs_load `{Host} b0 b1 :
  byte_wf b0 → byte_wf b1 → ntohs (load_u16 b0 b1) = be_u16 b0 b1.
Proof.
  intros. unfold ntohs, load_u16, be_u16. destruct host_endian; [|done].
  by apply bswap16_bytes.
Qed.

Lemma htonl_load `{Host} b0 b1 b2 b3 :
  byte_wf b0 → byte_wf b1 → byte_wf b2 → byte_wf b3 →
  htonl (load_u32 b0 b1 b2 b3) = be_u32 b0 b1 b2 b3.
Proof.
  intros. unfold htonl, load_u32, be_u32, bswap32. destruct host_endian; [|lia].
  unfold byte_wf in *.
  assert ((b0 + 256 * (b1 + 256 * (b2 + 256 * b3)))
    = (b0 + 256 * b1) + (b2 + 256 * b3) * 65536)%Z as -> by lia.
  rewrite Z.mod_add, Z.mod_small, Z.div_add, Z.div_small by lia.
  rewrite Z.add_0_l, (Z.mod_small (b2 + _)) by lia.
  rewrite !bswap16_bytes by done. lia.
Qed.

Lemma wrap_small w x : (0 ≤ x < 2 ^ w)%Z → wrap w x = x.
Proof. apply Z.mod_small. Qed.

(** ** Forward iterators over a vector

    All parsers walk forward over one [std::vector<uint8_t>] and hold a pair
    of iterators [data], [end].  An iterator is modelled by the elements
    between it and [end], so that dereferencing and advancing know when they
    leave the vector. *)

Definition advance {A} (n : nat) (data : list A) : outcome (list A) :=
  if decide (n ≤ length data) then Ret (drop n data) else Undef advance_past_end.

Definition deref {A} (data : list A) : outcome A :=
  match data with
  | x :: _ => Ret x
  | [] => Undef read_past_end
  end.

(** [std::copy(data, data + n, dest)]: the copied elements *)
Definition copy_n {A} (n : nat) (data : list A) : outcome (list A) :=
  if decide (n ≤ length data) then Ret (take n data) else Undef read_past_end.

(** [*reinterpret_cast<uint16_t const *>(&( *data))] *)
Definition deref_u16 `{Host} (data : list Z) : outcome Z :=
  match data with
  | b0 :: b1 :: _ => Ret (load_u16 b0 b1)
  | _ => Undef read_past_end
  end.

Lemma advance_Ret {A} n (data : list A) : n ≤ length data → advance n data = Ret (drop n data).
Proof. intros. unfold advance. by rewrite decide_True. Qed.
Lemma copy_n_Ret {A} n (data : list A) : n ≤ length data → copy_n n data = Ret (take n data).
Proof. intros. unfold copy_n. by rewrite decide_True. Qed.
Lemma advance_app {A} n (l1 l2 : list A) : n = length l1 → advance n (l1 ++ l2) = Ret l2.
Proof. intros ->. rewrite advance_Ret by (rewrite length_app; lia). by rewrite drop_app_length. Qed.
Lemma copy_n_app {A} n (l1 l2 : list A) : n = length l1 → copy_n n (l1 ++ l2) = Ret l1.
Proof. intros ->. rewrite copy_n_Ret by (rewrite length_app; lia). by rewrite take_app_length. Qed.

(** ** Strings *)

Abbreviation chars := String.list_ascii_of_string.
Abbreviation of_chars := String.string_of_list_ascii.

Lemma chars_of_chars l : chars (of_chars l) = l.
Proof. apply String.list_ascii_of_string_of_list_ascii. Qed.
Lemma of_chars_chars s : of_chars (chars s) = s.
Proof. apply String.string_of_list_ascii_of_string. Qed.

Lemma chars_app s1 s2 : chars (s1 +:+ s2) = chars s1 ++ chars s2.
Proof. induction s1 as [|c s1 IH]; [done|]. change (c :: chars (s1 +:+ s2) = c :: chars s1 ++ chars s2). by rewrite IH. Qed.
Lemma of_chars_app l1 l2 : of_chars (l1 ++ l2) = of_chars l1 +:+ of_chars l2.
Proof. induction l1 as [|c l1 IH]; [done|]. cbn. by rewrite IH. Qed.

#[export] Instance chars_inj : Inj (=) (=) chars.
Proof. intros s1 s2 Heq. by rewrite <-(of_chars_chars s1), Heq, of_chars_chars. Qed.
#[export] Instance of_chars_inj : Inj (=) (=) of_chars.
Proof. intros l1 l2 Heq. by rewrite <-(chars_of_chars l1), Heq, chars_of_chars. Qed.

Lemma chars_nil s : chars s = [] ↔ s = "".
Proof. split; [|by intros ->]. intros H. apply chars_inj. by rewrite H. Qed.

Lemma string_app_nil_r s : s +:+ "" = s.
Proof. apply chars_inj. rewrite chars_app. by rewrite app_nil_r. Qed.
Lemma string_app_assoc (s1 s2 s3 : string) : (s1 +:+ s2) +:+ s3 = s1 +:+ s2 +:+ s3.
Proof. apply chars_inj. by rewrite !chars_app, (assoc_L (++)). Qed.

#[export] Hint Rewrite chars_of_chars of_chars_chars chars_app of_chars_app
  string_app_nil_r : proxy.

(** Deciding a boolean property of all characters by evaluation *)
Definition forall_bool (P : bool → bool) : bool := P true && P false.
Definition forall_ascii (P : ascii → bool) : bool :=
  forall_bool (λ b0, forall_bool (λ b1, forall_bool (λ b2, forall_bool (λ b3,
  forall_bool (λ b4, forall_bool (λ b5, forall_bool (λ b6, forall_bool (λ b7,
    P (Ascii b0 b1 b2 b3 b4 b5 b6 b7))))))))).

Lemma forall_bool_spec P : forall_bool P = true → ∀ b, P b = true.
Proof. unfold forall_bool. intros [??]%andb_true_iff [|]; done. Qed.

Lemma forall_ascii_spec P : forall_ascii P = true → ∀ c, P c = true.
Proof.
  intros H [b0 b1 b2 b3 b4 b5 b6 b7]. unfold forall_ascii in H.
  do 8 (eapply forall_bool_spec in H; cbv beta in H). exact H.
Qed.

(** Proves [∀ c, P c = true → Q c] style facts about one character [c] which are
    stated with decidable propositions. *)
Ltac ascii_check c :=
  revert c;
  match goal with
  | |- ∀ c : ascii, @?P c =>
      let H := fresh in
      assert (H : ∀ c, bool_decide (P c) = true)
        by (apply forall_ascii_spec; vm_compute; reflexivity);
      intros c; exact (bool_decide_eq_true_1 _ (H c))
  end.

(** Closed decidable facts, by evaluation *)
Ltac by_decide := refine (bool_decide_eq_true_1 _ _); vm_compute; reflexivity.
