(* ===== verification/ContainerUtils.v ===== *)
(** * Containers and strings

    [src/include/container_utils.h] ([join], [operator+], [check_type_and_range],
    [split]) and [src/include/to_string.h], [src/sleep-proxy/to_string.cpp]
    (printing a vector, character tests, the argument vector of a child
    process).  The theorems say that [split] and [join] are inverse to each
    other up to the one trailing delimiter which [split] drops. *)
From S2P Require Import Prelude.

(** ** [split] *)
Section split.
Context {A : Type} `{EqDecision A}.
Implicit Types (c it tok : list A) (d : A).

(** [std::find]: the elements in front of the first delimiter and the
    iterator to it *)
Fixpoint find_delim d it : list A * list A :=
  match it with
  | [] => ([], [])
  | x :: it' =>
      if decide (x = d) then ([], it)
      else let '(tok, rest) := find_delim d it' in (x :: tok, rest)
  end.

(** The [while (iter != end)] loop.  The fuel bounds the number of
    iterations; [split_unfold] shows that it never runs out. *)
Fixpoint split_loop (fuel : nat) d it : list (list A) :=
  match fuel, it with
  | _, [] => []
  | 0, _ => []
  | S fuel, _ =>
      let '(tok, possible_delim) := find_delim d it in
      tok :: split_loop fuel d (tail possible_delim)
  end.

Definition split c d : list (list A) := split_loop (length c) d c.

(** Reference: the tokens separated by one delimiter each *)
Fixpoint intercalate d (toks : list (list A)) : list A :=
  match toks with
  | [] => []
  | [tok] => tok
  | tok :: toks => tok ++ d :: intercalate d toks
  end.

Lemma find_delim_app d tok c :
  d ∉ tok → find_delim d (tok ++ d :: c) = (tok, d :: c).
Proof.
  induction tok as [|x tok IH]; cbn; intros Hd.
  - by rewrite decide_True.
  - apply not_elem_of_cons in Hd as [? ?]. rewrite decide_False by done. by rewrite IH.
Qed.

Lemma find_delim_nodelim d tok : d ∉ tok → find_delim d tok = (tok, []).
Proof.
  induction tok as [|x tok IH]; cbn; intros Hd; [done|].
  apply not_elem_of_cons in Hd as [? ?]. rewrite decide_False by done. by rewrite IH.
Qed.

Lemma find_delim_spec d it :
  ((d ∉ it) ∧ find_delim d it = (it, []))
  ∨ ∃ tok c, it = tok ++ d :: c ∧ (d ∉ tok) ∧ find_delim d it = (tok, d :: c).
Proof.
  destruct (decide (d ∈ it)) as [Hin|]; [right|left; auto using find_delim_nodelim].
  apply list_elem_of_split_l in Hin as (tok & c & -> & ?).
  exists tok, c. auto using find_delim_app.
Qed.

Lemma split_loop_fuel d n m it :
  length it ≤ n → length it ≤ m → split_loop n d it = split_loop m d it.
Proof.
  revert m it. induction n as [|n IH]; intros [|m] [|x it] Hn Hm; cbn in *; try lia; try done.
  case_decide; cbn; [f_equal; apply IH; lia|].
  destruct (find_delim_spec d it) as [[_ ->]|(tok & c & -> & _ & ->)]; cbn.
  - f_equal. by apply (IH m []); cbn; lia.
  - f_equal. rewrite length_app in *. cbn in *. apply IH; lia.
Qed.

(** The loop as a recursive equation: it only stops at the end. *)
Lemma split_unfold c d :
  split c d =
    match c with
    | [] => []
    | _ => let '(tok, rest) := find_delim d c in tok :: split (tail rest) d
    end.
Proof.
  unfold split. destruct c as [|x c]; [done|].
  change (split_loop (length (x :: c)) d (x :: c)) with
    (let '(tok, rest) := find_delim d (x :: c) in
     tok :: split_loop (length c) d (tail rest)).
  destruct (find_delim_spec d (x :: c)) as [[_ ->]|(tok & c' & Heq & _ & ->)].
  - cbn. f_equal. by destruct (length c).
  - cbn. f_equal. apply split_loop_fuel; [|done].
    apply (f_equal length) in Heq. rewrite length_app in Heq. cbn in Heq. lia.
Qed.

Lemma split_nil d : split [] d = [].
Proof. done. Qed.

Lemma split_nodelim tok d : tok ≠ [] → d ∉ tok → split tok d = [tok].
Proof. intros ??. rewrite split_unfold, find_delim_nodelim by done. by destruct tok. Qed.

Lemma split_delim tok c d : d ∉ tok → split (tok ++ d :: c) d = tok :: split c d.
Proof. intros. rewrite split_unfold, find_delim_app by done. by destruct tok. Qed.

Lemma split_not_nil c d : c ≠ [] → split c d ≠ [].
Proof. intros ?. rewrite split_unfold. destruct c; [done|]. by destruct (find_delim _ _). Qed.

(** Induction over the iterations of the loop. *)
Lemma split_ind d (P : list A → Prop) :
  P [] →
  (∀ tok, tok ≠ [] → d ∉ tok → P tok) →
  (∀ tok c, d ∉ tok → P c → P (tok ++ d :: c)) →
  ∀ c, P c.
Proof.
  intros Hnil Htok Hdelim c. remember (length c) as n eqn:Hn.
  revert c Hn. induction (lt_wf n) as [n _ IH]. intros c ->.
  destruct (find_delim_spec d c) as [[Hd _]|(tok & c' & -> & Hd & _)].
  - destruct c; [done|]. by apply Htok.
  - apply Hdelim; [done|]. eapply (IH (length c')); [|done].
    rewrite length_app. cbn. lia.
Qed.

Lemma split_tokens_nodelim c d : Forall (λ tok, d ∉ tok) (split c d).
Proof.
  induction c as [|tok ??|tok c ? IH] using (split_ind d).
  - constructor.
  - rewrite split_nodelim by done. by repeat constructor.
  - rewrite split_delim by done. by constructor.
Qed.

(** [split] undoes joining tokens which contain no delimiter, unless the last
    one is empty. *)
Lemma split_intercalate d toks :
  Forall (λ tok, d ∉ tok) toks → last toks ≠ Some [] →
  split (intercalate d toks) d = toks.
Proof.
  induction toks as [|tok toks IH]; intros Hall Hlast; [done|].
  apply Forall_cons in Hall as [Hd Hall].
  destruct toks as [|tok' toks].
  - apply split_nodelim; [|done]. by intros ->.
  - change (split (tok ++ d :: intercalate d (tok' :: toks)) d = tok :: tok' :: toks).
    rewrite split_delim by done. f_equal. by apply IH.
Qed.

(** Joining the tokens gives the container back, up to one trailing
    delimiter. *)
Lemma intercalate_split c d :
  c = intercalate d (split c d) ∨ c = intercalate d (split c d) ++ [d].
Proof.
  induction c as [|tok ??|tok c ? IH] using (split_ind d).
  - by left.
  - left. by rewrite split_nodelim.
  - rewrite split_delim by done. destruct (decide (c = [])) as [->|Hc].
    { right. done. }
    destruct (split c d) as [|t ts] eqn:Hs; [by apply split_not_nil in Hs|].
    change (intercalate d (tok :: t :: ts)) with (tok ++ d :: intercalate d (t :: ts)).
    rewrite <-(assoc_L (++)). destruct IH as [IH|IH]; [left|right]; cbn [app]; by rewrite <-IH.
Qed.

End split.

(** [split(std::string, char)] *)
Definition split_string (s : string) (d : ascii) : list string :=
  of_chars <$> split (chars s) d.

Lemma split_string_not_nil s d : s ≠ "" → split_string s d ≠ [].
Proof.
  unfold split_string. intros Hs Hnil. apply fmap_nil_inv in Hnil.
  apply (split_not_nil (chars s) d); [|done]. by rewrite chars_nil.
Qed.

(** ** [join] *)
Section join.
Context {A S : Type}.

(** [join(c, fun, sep)] for a functor with state: the elements are
    transformed front to back; every one but the last is followed by [sep]. *)
Fixpoint join_state (f : A → S → string * S) (sep : string) (c : list A) (st : S) : string :=
  match c with
  | [] => ""
  | [x] => (f x st).1
  | x :: c => let '(s, st') := f x st in s +:+ sep +:+ join_state f sep c st'
  end.
End join.

Definition join {A} (c : list A) (f : A → string) (sep : string) : string :=
  join_state (λ x (_ : unit), (f x, tt)) sep c tt.

Definition identity {A} (x : A) : A := x.

Lemma join_nil {A} (f : A → string) sep : join [] f sep = "".
Proof. done. Qed.
Lemma join_singleton {A} (f : A → string) sep x : join [x] f sep = f x.
Proof. done. Qed.
Lemma join_cons {A} (f : A → string) sep x c :
  c ≠ [] → join (x :: c) f sep = f x +:+ sep +:+ join c f sep.
Proof. by destruct c. Qed.

Lemma chars_join {A} (f : A → string) d c :
  chars (join c f (String d "")) = intercalate d (chars ∘ f <$> c).
Proof.
  induction c as [|x [|y c] IH]; [done..|].
  rewrite join_cons by done. rewrite !chars_app, IH. done.
Qed.

Lemma split_join {A} (f : A → string) d (c : list A) :
  Forall (λ x, d ∉ chars (f x)) c → (∀ x, last c = Some x → f x ≠ "") →
  split_string (join c f (String d "")) d = f <$> c.
Proof.
  intros Hall Hlast. unfold split_string. rewrite chars_join, split_intercalate.
  - rewrite <-list_fmap_compose. apply list_fmap_ext. intros i x _. cbn. by rewrite of_chars_chars.
  - by apply Forall_fmap.
  - rewrite fmap_last. destruct (last c) as [x|]; [|done].
    cbn. intros [= Heq%chars_nil]. by apply (Hlast x).
Qed.

(** [operator+] of two vectors *)
Definition vec_append {A} (lhs rhs : list A) : list A := lhs ++ rhs.

(** [check_type_and_range] *)
Definition check_type_and_range {A} (data : list A) (min_size : nat) : outcome unit :=
  if (length data =? 0) || (length data <? min_size)
  then throw length_error "not enough data"
  else Ret tt.

Lemma check_range_ok {A} (data : list A) n :
  n ≤ length data → data ≠ [] → check_type_and_range data n = Ret tt.
Proof.
  intros Hn Hne. unfold check_type_and_range.
  destruct data; [done|]. cbn [length] in *.
  rewrite (proj2 (Nat.ltb_ge _ _)) by done. done.
Qed.
Lemma check_range_short {A} (data : list A) n :
  length data < n → check_type_and_range data n = throw length_error "not enough data".
Proof.
  intros Hn. unfold check_type_and_range.
  rewrite (proj2 (Nat.ltb_lt _ _)) by done. by rewrite orb_true_r.
Qed.
Lemma check_range_inv {A} (data : list A) n r :
  check_type_and_range data n = Ret r → n ≤ length data.
Proof.
  destruct (decide (n ≤ length data)); [done|]. by rewrite check_range_short by lia.
Qed.
Lemma check_range_defined {A} (data : list A) n : is_defined (check_type_and_range data n).
Proof. unfold check_type_and_range. by case_match. Qed.
#[export] Hint Resolve check_range_defined : proxy.

(** ** [to_string.h] *)

(** [operator<<(std::ostream &, std::vector<T>)] *)
Definition print_vector {A} (f : A → string) (v : list A) : string := join v f ", ".

(** [contains_only_valid_characters] *)
Definition contains_only_valid_characters (input valid_chars : string) : bool :=
  forallb (λ ch, bool_decide (ch ∈ chars valid_chars)) (chars input).

(** [test_characters] *)
Definition test_characters (input valid_chars error_message : string) : outcome string :=
  if contains_only_valid_characters input valid_chars
  then Ret input
  else throw runtime_error error_message.

Lemma contains_only_valid_spec input valid :
  contains_only_valid_characters input valid = true ↔
  Forall (λ ch, ch ∈ chars valid) (chars input).
Proof.
  unfold contains_only_valid_characters.
  induction (chars input) as [|c l IH]; cbn; [by split; constructor|].
  by rewrite andb_true_iff, IH, Forall_cons, bool_decide_eq_true.
Qed.

Lemma contains_only_valid_app s1 s2 valid :
  contains_only_valid_characters (s1 +:+ s2) valid
  = contains_only_valid_characters s1 valid && contains_only_valid_characters s2 valid.
Proof. unfold contains_only_valid_characters. by rewrite chars_app, forallb_app. Qed.

Lemma test_characters_Ret input valid msg r :
  test_characters input valid msg = Ret r ↔
  r = input ∧ contains_only_valid_characters input valid = true.
Proof.
  unfold test_characters. case_match; cbn; split.
  - by intros [= ->].
  - by intros [-> _].
  - done.
  - by intros [_ ?].
Qed.

Lemma test_characters_defined input valid msg : is_defined (test_characters input valid msg).
Proof. unfold test_characters. by case_match. Qed.
#[export] Hint Resolve test_characters_defined : proxy.

(** [to_vector_strings]: NUL terminated copies *)
Definition to_vector_strings (cont : list string) : list (list ascii) :=
  (λ s, chars s ++ ["000"%char]) <$> cont.

(** [get_c_string_array]: pointers to them, terminated by [nullptr] *)
Definition get_c_string_array (cont : list (list ascii)) : list (option (list ascii)) :=
  (Some <$> cont) ++ [None].
