(* ===== verification/IntUtils.v ===== *)
(** * Integers and strings: [src/include/int_utils.h], [src/sleep-proxy/int_utils.cpp]

    [strtoll] and [strtoull] of the C library are modelled after the C
    standard; the one behaviour the standard leaves open, whether [errno] is
    set to [EINVAL] when no digit could be converted (glibc: no, musl: yes),
    is the parameter [Libc].  On top of them: the checked conversions, the
    range check and [str_to_integral] for every width and signedness, and the
    hexadecimal printer used for the [--u32] rules. *)
From S2P Require Import Prelude ContainerUtils.
Local Open Scope Z_scope.

(** ** Integral types *)
Record int_type := IntType { width : Z; is_signed : bool }.

Definition uint8_t := IntType 8 false.
Definition uint16_t := IntType 16 false.
Definition unsigned_int := IntType 32 false.
Definition int_t := IntType 32 true.
Definition int64_t := IntType 64 true.
Definition uint64_t := IntType 64 false.

(** [std::numeric_limits<T>::lowest()] and [max()] *)
Definition lowest (ty : int_type) : Z :=
  if is_signed ty then - 2 ^ (width ty - 1) else 0.
Definition max (ty : int_type) : Z :=
  if is_signed ty then 2 ^ (width ty - 1) - 1 else 2 ^ width ty - 1.

Definition in_range (ty : int_type) (v : Z) : Prop := lowest ty ≤ v ≤ max ty.
#[export] Instance in_range_dec ty v : Decision (in_range ty v).
Proof. unfold in_range. apply _. Defined.

(** [static_cast<T>(v)] *)
Definition static_cast (ty : int_type) (v : Z) : Z :=
  let r := v mod 2 ^ width ty in
  if is_signed ty && (2 ^ (width ty - 1) <=? r) then r - 2 ^ width ty else r.

(** Streaming an integer: types of eight bits are characters. *)
Definition to_string (ty : int_type) (v : Z) : string :=
  if decide (width ty = 8)
  then String (Ascii.ascii_of_N (Z.to_N (v mod 256))) ""
  else pretty v.

#[global] Arguments lowest : simpl never.
#[global] Arguments max : simpl never.
#[global] Arguments static_cast : simpl never.
#[global] Arguments to_string : simpl never.

(** ** [strtoll] and [strtoull] *)

(** Does the C library set [EINVAL] when there is nothing to convert? *)
Class Libc := no_conversion_einval : bool.

Definition EINVAL : Z := 22.
Definition ERANGE : Z := 34.

Definition char_code (c : ascii) : Z := Z.of_N (Ascii.N_of_ascii c).

Definition digit_val (c : ascii) : option Z :=
  let n := char_code c in
  if (48 <=? n) && (n <=? 57) then Some (n - 48)
  else if (97 <=? n) && (n <=? 122) then Some (n - 87)
  else if (65 <=? n) && (n <=? 90) then Some (n - 55)
  else None.

(** The value of [c] as a digit of base [base] *)
Definition base_digit (base : Z) (c : ascii) : option Z :=
  match digit_val c with
  | Some d => if d <? base then Some d else None
  | None => None
  end.

(** The longest prefix of digits: its value, and whether it is not empty *)
Fixpoint scan_digits (base : Z) (l : list ascii) (acc : Z) (found : bool) : Z * bool :=
  match l with
  | [] => (acc, found)
  | c :: l' =>
      match base_digit base c with
      | Some d => scan_digits base l' (base * acc + d) true
      | None => (acc, found)
      end
  end.

Fixpoint skip_space (l : list ascii) : list ascii :=
  match l with
  | c :: l' => if Ascii.is_space c then skip_space l' else l
  | [] => []
  end.

Definition scan_sign (l : list ascii) : bool * list ascii :=
  match l with
  | ("-"%char) :: l' => (true, l')
  | ("+"%char) :: l' => (false, l')
  | _ => (false, l)
  end.

(** A prefix [0x] in front of a hexadecimal digit *)
Definition hex_prefix (l : list ascii) : bool :=
  match l with
  | ("0"%char) :: x :: c :: _ =>
      bool_decide (x ∈ ["x"%char; "X"%char]) && bool_decide (is_Some (base_digit 16 c))
  | _ => false
  end.

(** The base in use and the characters after the prefix *)
Definition scan_prefix (base : Z) (l : list ascii) : Z * list ascii :=
  if ((base =? 16) || (base =? 0)) && hex_prefix l then (16, drop 2 l)
  else if base =? 0
       then (if bool_decide (head l = Some "0"%char) then 8 else 10, l)
       else (base, l).

(** Sign, magnitude and whether a digit was converted *)
Definition scan_number (s : string) (base : Z) : bool * (Z * bool) :=
  let '(neg, l) := scan_sign (skip_space (chars s)) in
  let '(b, l) := scan_prefix base l in
  (neg, scan_digits b l 0 false).

(** Return value and the value assigned to [errno] (0: left alone) *)
Definition strtoll `{Libc} (s : string) (base : Z) : Z * Z :=
  if negb ((base =? 0) || ((2 <=? base) && (base <=? 36))) then (0, EINVAL) else
  let '(neg, (mag, found)) := scan_number s base in
  if negb found then (0, if no_conversion_einval then EINVAL else 0) else
  let v := if neg then - mag else mag in
  if v <? lowest int64_t then (lowest int64_t, ERANGE)
  else if max int64_t <? v then (max int64_t, ERANGE)
  else (v, 0).

Definition strtoull `{Libc} (s : string) (base : Z) : Z * Z :=
  if negb ((base =? 0) || ((2 <=? base) && (base <=? 36))) then (0, EINVAL) else
  let '(neg, (mag, found)) := scan_number s base in
  if negb found then (0, if no_conversion_einval then EINVAL else 0) else
  if max uint64_t <? mag then (max uint64_t, ERANGE)
  else (wrap 64 (if neg then - mag else mag), 0).

(** ** The checked conversions

    Both return the result and the value of [errno] afterwards: the caller's
    value is put back on success only. *)
Definition numbers : string := "-0123456789abcdefABCDEF".

Definition stoll_with_checks `{Libc} (s : string) (base errno : Z) : outcome Z * Z :=
  if bool_decide (s = "") || negb (contains_only_valid_characters s numbers)
  then (throw invalid_argument ("stoll(): cannot convert string: " +:+ s), errno)
  else
    let errno_save := errno in
    let errno := 0 in
    let '(ret_val, e) := strtoll s base in
    let errno := if e =? 0 then errno else e in
    if errno =? 0 then (Ret ret_val, errno_save)
    else if errno =? ERANGE
         then (throw out_of_range ("stoll() failed to convert:" +:+ s), errno)
         else (throw invalid_argument ("stoll() failed to convert: " +:+ s), errno).

Definition stoull_with_checks `{Libc} (s : string) (base errno : Z) : outcome Z * Z :=
  if bool_decide (s = "") || negb (contains_only_valid_characters s numbers)
  then (throw invalid_argument ("stoull(): cannot convert string: " +:+ s), errno)
  else
    let errno_save := errno in
    let errno := 0 in
    let '(ret_val, e) := strtoull s base in
    let errno := if e =? 0 then errno else e in
    let errno := if bool_decide (String.get 0 s = Some "-"%char) then ERANGE else errno in
    if errno =? 0 then (Ret ret_val, errno_save)
    else if errno =? ERANGE
         then (throw out_of_range ("stoull() failed to convert:" +:+ s), errno)
         else (throw invalid_argument ("stoull() failed to convert: " +:+ s), errno).

Definition base_10 : Z := 10.

(** [within_bounds<R>(val)]; the overload is chosen by the signedness of
    [val], which for the conversions below is that of [R]. *)
Definition within_bounds (ty : int_type) (val : Z) : bool :=
  if is_signed ty then (lowest ty <=? val) && (val <=? max ty) else val <=? max ty.

(** [str_to_integral_helper<T>] *)
Definition str_to_integral_helper `{Libc} (ty : int_type) (s : string) (errno : Z) : outcome Z * Z :=
  if is_signed ty then stoll_with_checks s base_10 errno
  else stoull_with_checks s base_10 errno.

Definition helper_type (ty : int_type) : int_type :=
  if is_signed ty then int64_t else uint64_t.

(** [str_to_integral<T>] *)
Definition str_to_integral_errno `{Libc} (ty : int_type) (s : string) (errno : Z) : outcome Z * Z :=
  let '(r, errno) := str_to_integral_helper ty s errno in
  (value ← r;
   if negb (within_bounds ty value)
   then throw out_of_range
          ("value " +:+ to_string (helper_type ty) value +:+ " not in range "
           +:+ to_string ty (lowest ty) +:+ ".." +:+ to_string ty (max ty))
   else Ret (static_cast ty value), errno).

(** The result alone, for callers which do not look at [errno]; it does not
    depend on the value [errno] has before ([str_to_integral_errno_fst]). *)
Definition str_to_integral `{Libc} (ty : int_type) (s : string) : outcome Z :=
  (str_to_integral_errno ty s 0).1.

(** ** Printing eight hexadecimal digits *)
Definition hex_char (d : Z) : ascii :=
  Ascii.ascii_of_N (Z.to_N (if d <? 10 then 48 + d else 87 + d)).

(** [snprintf("%08x")] *)
Fixpoint hex_digits (n : nat) (v : Z) : list ascii :=
  match n with
  | O => []
  | S n => hex_digits n (v / 16) ++ [hex_char (v mod 16)]
  end.

Definition uint32_t_to_eight_hex_chars `{Host} (i : Z) : string :=
  of_chars (hex_digits 8 (htonl i)).

(** ** Lemmas on types *)
Definition type_wf (ty : int_type) : Prop := 0 < width ty ≤ 64.
#[export] Instance type_wf_dec ty : Decision (type_wf ty).
Proof. unfold type_wf. apply _. Defined.

Lemma static_cast_in_range ty v : type_wf ty → in_range ty v → static_cast ty v = v.
Proof.
  intros [Hw _]. unfold in_range, lowest, max, static_cast.
  assert (2 ^ width ty = 2 * 2 ^ (width ty - 1)) as Hpow.
  { rewrite <-Z.pow_succ_r by lia. f_equal. lia. }
  pose proof (Z.pow_pos_nonneg 2 (width ty - 1) ltac:(lia) ltac:(lia)).
  destruct (is_signed ty); cbn [andb]; intros Hr; [|apply Z.mod_small; lia].
  destruct (Z.leb_spec 0 v).
  - rewrite Z.mod_small by lia. rewrite (proj2 (Z.leb_gt _ _)) by lia. done.
  - rewrite <-(Z.mod_add v 1) by lia. rewrite Z.mul_1_l, Z.mod_small by lia.
    rewrite (proj2 (Z.leb_le _ _)) by lia. lia.
Qed.

Lemma max_helper ty : type_wf ty → max ty ≤ max (helper_type ty).
Proof.
  intros [? ?]. unfold max, helper_type. destruct (is_signed ty); cbn.
  - pose proof (Z.pow_le_mono_r 2 (width ty - 1) 63). lia.
  - pose proof (Z.pow_le_mono_r 2 (width ty) 64). lia.
Qed.
Lemma lowest_helper ty : type_wf ty → lowest (helper_type ty) ≤ lowest ty.
Proof.
  intros [? ?]. unfold lowest, helper_type. destruct (is_signed ty); cbn; [|lia].
  pose proof (Z.pow_le_mono_r 2 (width ty - 1) 63). lia.
Qed.

(** ** Reference: the value of a sequence of digits *)
Definition digit_or_0 (base : Z) (c : ascii) : Z := default 0 (base_digit base c).
Definition number_value (base acc : Z) (l : list ascii) : Z :=
  foldl (λ acc c, base * acc + digit_or_0 base c) acc l.
Definition is_digit (base : Z) (c : ascii) : Prop := is_Some (base_digit base c).
Abbreviation all_digits base := (Forall (is_digit base)).

#[export] Instance is_digit_dec base c : Decision (is_digit base c).
Proof. unfold is_digit. apply _. Defined.

Lemma scan_digits_all base ds rest acc found :
  all_digits base ds → (∀ c, head rest = Some c → ¬ is_digit base c) →
  scan_digits base (ds ++ rest) acc found =
    (number_value base acc ds, found || negb (bool_decide (ds = []))).
Proof.
  intros Hds Hrest. revert acc found.
  induction Hds as [|c ds [d Hd] Hds IH]; intros acc found; cbn [app scan_digits].
  - destruct rest as [|c rest]; cbn [scan_digits].
    + by rewrite orb_false_r.
    + specialize (Hrest c eq_refl). unfold is_digit in Hrest.
      destruct (base_digit base c); [by destruct Hrest|]. by rewrite orb_false_r.
  - rewrite Hd, IH. cbn. unfold digit_or_0 at 2. rewrite Hd. cbn. by rewrite !orb_true_r.
Qed.

Lemma number_value_snoc base acc l c :
  number_value base acc (l ++ [c]) = base * number_value base acc l + digit_or_0 base c.
Proof. unfold number_value. by rewrite foldl_app. Qed.

Lemma base_digit_bound base c d : base_digit base c = Some d → 0 ≤ d < base.
Proof.
  unfold base_digit. destruct (digit_val c) as [d'|] eqn:Hd; [|done].
  case_match eqn:E; [|done]. intros [= <-]. apply Z.ltb_lt in E.
  unfold digit_val in Hd. repeat case_match; simplify_eq; lia.
Qed.

Lemma digit_or_0_bound base c : 0 < base → 0 ≤ digit_or_0 base c < base.
Proof.
  intros. unfold digit_or_0. destruct (base_digit base c) as [d|] eqn:E; cbn; [|lia].
  by eapply base_digit_bound.
Qed.

Lemma number_value_nonneg base acc l : 0 < base → 0 ≤ acc → 0 ≤ number_value base acc l.
Proof.
  intros Hb. revert acc. induction l as [|c l IH]; intros acc Hacc; cbn; [done|].
  apply IH. pose proof (digit_or_0_bound base c Hb). nia.
Qed.

(** A decimal digit is neither white space nor a sign, and is accepted by the
    character check. *)
Lemma decimal_digit_plain c :
  is_digit 10 c → Ascii.is_space c = false ∧ c ≠ "-"%char ∧ c ≠ "+"%char ∧ c ∈ chars numbers.
Proof. ascii_check c. Qed.

Lemma hex_char_ok d :
  0 ≤ d < 16 →
  base_digit 16 (hex_char d) = Some d ∧ Ascii.is_space (hex_char d) = false
  ∧ hex_char d ≠ "-"%char ∧ hex_char d ≠ "+"%char
  ∧ (hex_char d ∉ ["x"%char; "X"%char]) ∧ hex_char d ∈ chars numbers.
Proof.
  intros Hd. assert (d ∈ seqZ 0 16) as Hin by (apply elem_of_seqZ; lia).
  clear Hd. revert d Hin. apply Forall_forall.
  refine (bool_decide_eq_true_1 _ _). vm_compute. reflexivity.
Qed.

(** ** Decimal strings *)

Definition sign_chars (neg : bool) : list ascii := if neg then ["-"%char] else [].

(** [rest] does not go on with another digit *)
Definition stops base (rest : list ascii) : Prop :=
  ∀ c, head rest = Some c → ¬ is_digit base c.

Lemma stops_nil base : stops base [].
Proof. done. Qed.
#[export] Hint Resolve stops_nil : proxy.

Lemma scan_number_decimal neg ds rest :
  all_digits 10 ds → ds ≠ [] → stops 10 rest →
  scan_number (of_chars (sign_chars neg ++ ds ++ rest)) 10
  = (neg, (number_value 10 0 ds, true)).
Proof.
  intros Hds Hne Hrest. unfold scan_number. rewrite chars_of_chars.
  assert (scan_sign (skip_space (sign_chars neg ++ ds ++ rest)) = (neg, ds ++ rest)) as ->.
  { destruct neg; [done|]. destruct ds as [|c ds]; [done|].
    apply Forall_cons in Hds as [Hc _].
    destruct (decimal_digit_plain c Hc) as (Hsp & Hm & Hp & _).
    cbn. rewrite Hsp. clear -Hm Hp.
    destruct c as [[] [] [] [] [] [] [] []]; first [done | by destruct Hm | by destruct Hp]. }
  cbn [scan_prefix]. unfold scan_prefix. cbn.
  rewrite scan_digits_all by done. by destruct ds.
Qed.

Lemma sign_digits_valid neg ds rest :
  all_digits 10 ds → Forall (λ c, c ∈ chars numbers) rest →
  contains_only_valid_characters (of_chars (sign_chars neg ++ ds ++ rest)) numbers = true.
Proof.
  intros Hds Hrest. apply contains_only_valid_spec. rewrite chars_of_chars.
  apply Forall_app. split; [destruct neg; repeat constructor|].
  apply Forall_app. split; [|done].
  eapply Forall_impl; [exact Hds|]. intros c Hc. by apply decimal_digit_plain.
Qed.

Lemma of_chars_ne_empty l : l ≠ [] → of_chars l ≠ "".
Proof. by destruct l. Qed.

Lemma get_0_of_chars l : String.get 0 (of_chars l) = head l.
Proof. by destruct l. Qed.

Lemma app_ne_nil_r {A} (l1 l2 l3 : list A) : l2 ≠ [] → l1 ++ l2 ++ l3 ≠ [].
Proof. by destruct l1, l2. Qed.

Section conversions.
Context `{Libc}.

(** What [stoull_with_checks] does with an optionally signed decimal number
    and whatever accepted characters follow it. *)
Lemma stoull_decimal neg ds rest errno :
  all_digits 10 ds → ds ≠ [] → stops 10 rest →
  Forall (λ c, c ∈ chars numbers) rest →
  let s := of_chars (sign_chars neg ++ ds ++ rest) in
  let v := number_value 10 0 ds in
  stoull_with_checks s 10 errno =
    if negb neg && (v <=? max uint64_t) then (Ret v, errno)
    else (throw out_of_range ("stoull() failed to convert:" +:+ s), ERANGE).
Proof.
  intros Hds Hne Hrest Hvalid s v. unfold stoull_with_checks.
  rewrite (bool_decide_eq_false_2 (s = "")) by (by apply of_chars_ne_empty, app_ne_nil_r).
  unfold s at 1. rewrite sign_digits_valid by done. cbn [orb negb].
  unfold strtoull. change (negb ((10 =? 0) || ((2 <=? 10) && (10 <=? 36)))) with false.
  unfold s at 1. rewrite scan_number_decimal by done. cbn [negb]. fold v.
  assert (String.get 0 s = head (sign_chars neg ++ ds ++ rest)) as -> by apply get_0_of_chars.
  assert (0 ≤ v) by (apply number_value_nonneg; lia).
  destruct neg; cbn [negb andb].
  - rewrite bool_decide_eq_true_2 by done. by case_match.
  - rewrite bool_decide_eq_false_2.
    2:{ destruct ds as [|c ds]; [done|]. apply Forall_cons in Hds as [Hc _].
        destruct (decimal_digit_plain c Hc) as (_ & ? & _). cbn. congruence. }
    destruct (Z.leb_spec v (max uint64_t)).
    + rewrite (proj2 (Z.ltb_ge _ _)) by done. cbn.
      rewrite wrap_small; [done|]. unfold max in *. cbn in *. lia.
    + rewrite (proj2 (Z.ltb_lt _ _)) by done. done.
Qed.

Lemma stoll_decimal (neg : bool) ds rest errno :
  all_digits 10 ds → ds ≠ [] → stops 10 rest →
  Forall (λ c, c ∈ chars numbers) rest →
  let s := of_chars (sign_chars neg ++ ds ++ rest) in
  let v := if neg then - number_value 10 0 ds else number_value 10 0 ds in
  stoll_with_checks s 10 errno =
    if decide (in_range int64_t v) then (Ret v, errno)
    else (throw out_of_range ("stoll() failed to convert:" +:+ s), ERANGE).
Proof.
  intros Hds Hne Hrest Hvalid s v. unfold stoll_with_checks.
  rewrite (bool_decide_eq_false_2 (s = "")) by (by apply of_chars_ne_empty, app_ne_nil_r).
  unfold s at 1. rewrite sign_digits_valid by done. cbn [orb negb].
  unfold strtoll. change (negb ((10 =? 0) || ((2 <=? 10) && (10 <=? 36)))) with false.
  unfold s at 1. rewrite scan_number_decimal by done. cbn [negb]. fold v.
  unfold in_range. case_decide as Hr.
  - rewrite !(proj2 (Z.ltb_ge _ _)) by lia. done.
  - destruct (Z.ltb_spec v (lowest int64_t)); [done|].
    rewrite (proj2 (Z.ltb_lt _ _)) by lia. done.
Qed.

(** [str_to_integral] on decimal numbers: the value if it fits the type,
    [out_of_range] otherwise. *)
Lemma str_to_integral_decimal ty (neg : bool) ds rest :
  type_wf ty → (neg = true → is_signed ty = true) →
  all_digits 10 ds → ds ≠ [] → stops 10 rest →
  Forall (λ c, c ∈ chars numbers) rest →
  let v := if neg then - number_value 10 0 ds else number_value 10 0 ds in
  if decide (in_range ty v)
  then str_to_integral ty (of_chars (sign_chars neg ++ ds ++ rest)) = Ret v
  else throws out_of_range (str_to_integral ty (of_chars (sign_chars neg ++ ds ++ rest))).
Proof.
  intros Hty Hneg Hds Hne Hrest Hvalid v.
  pose proof (max_helper ty Hty) as Hmax. pose proof (lowest_helper ty Hty) as Hlow.
  pose proof (number_value_nonneg 10 0 ds ltac:(lia) ltac:(lia)) as Hnn.
  unfold str_to_integral, str_to_integral_errno, str_to_integral_helper, base_10, within_bounds.
  unfold helper_type in Hmax, Hlow. destruct (is_signed ty) eqn:Hsg.
  - rewrite stoll_decimal by done. fold v. destruct (decide (in_range int64_t v)) as [H64|H64].
    + cbn. case_decide as Hr.
      * unfold in_range in Hr. rewrite !(proj2 (Z.leb_le _ _)) by lia. cbn.
        by rewrite static_cast_in_range.
      * case_match eqn:E; [eauto with proxy|].
        apply negb_false_iff, andb_true_iff in E as [?%Z.leb_le ?%Z.leb_le].
        by destruct Hr.
    + rewrite decide_False; [cbn; eauto with proxy|]. unfold in_range in *. lia.
  - destruct neg; [by specialize (Hneg eq_refl)|]. clear Hlow.
    rewrite stoull_decimal by done. fold v. cbn [negb andb].
    destruct (Z.leb_spec v (max uint64_t)).
    + cbn. case_decide as Hr.
      * unfold in_range in Hr. rewrite !(proj2 (Z.leb_le _ _)) by lia. cbn.
        by rewrite static_cast_in_range.
      * destruct (Z.leb_spec v (max ty)) as [E|]; [|cbn; eauto with proxy].
        destruct Hr. unfold in_range, lowest.
        rewrite Hsg. split; [done|lia].
    + rewrite decide_False; [cbn; eauto with proxy|]. unfold in_range. lia.
Qed.
End conversions.

(** ** Decimal printing *)

Lemma pretty_N_char_digit n : (n < 10)%N → base_digit 10 (pretty_N_char n) = Some (Z.of_N n).
Proof.
  intros Hn. assert (Z.of_N n ∈ seqZ 0 10) as Hin by (apply elem_of_seqZ; lia).
  rewrite <-(N2Z.id n) at 1. clear Hn. revert Hin. generalize (Z.of_N n).
  apply Forall_forall. refine (bool_decide_eq_true_1 _ _). vm_compute. reflexivity.
Qed.

Lemma pretty_N_go_digits x s :
  ∃ ds, chars (pretty_N_go x s) = ds ++ chars s ∧ all_digits 10 ds
        ∧ number_value 10 0 ds = Z.of_N x ∧ ((0 < x)%N → ds ≠ []).
Proof.
  revert s. induction (N.lt_wf_0 x) as [x _ IH]; intros s.
  destruct (decide (x = 0%N)) as [->|Hx].
  { exists []. rewrite pretty_N_go_0. split_and!; [done|constructor|done|lia]. }
  rewrite pretty_N_go_step by lia.
  pose proof (N.mod_lt x 10 ltac:(lia)) as Hm.
  pose proof (pretty_N_char_digit _ Hm) as Hc.
  destruct (IH (x `div` 10)%N ltac:(apply N.div_lt; lia) (String (pretty_N_char (x `mod` 10)) s))
    as (ds & -> & Hds & Hv & _).
  exists (ds ++ [pretty_N_char (x `mod` 10)]).
  rewrite <-(assoc_L (++)). split_and!; [done| | |by destruct ds].
  - apply Forall_app. split; [done|]. repeat constructor. by eexists.
  - rewrite number_value_snoc, Hv. unfold digit_or_0. rewrite Hc. cbn [default].
    pose proof (N.div_mod x 10 ltac:(lia)). cbn. lia.
Qed.

Lemma pretty_N_digits (x : N) :
  all_digits 10 (chars (pretty x)) ∧ number_value 10 0 (chars (pretty x)) = Z.of_N x
  ∧ chars (pretty x) ≠ [].
Proof.
  unfold pretty, pretty_N. case_decide as Hx.
  - subst. cbn. split_and!; [|done..]. repeat constructor. by eexists.
  - destruct (pretty_N_go_digits x "") as (ds & -> & ? & ? & Hne).
    cbn. rewrite app_nil_r. split_and!; [done..|]. apply Hne. lia.
Qed.

(** The decimal representation of an integer: an optional sign and digits *)
Lemma pretty_Z_chars v :
  ∃ ds, pretty v = of_chars (sign_chars (bool_decide (v < 0)) ++ ds ++ [])
        ∧ all_digits 10 ds ∧ ds ≠ [] ∧ number_value 10 0 ds = Z.abs v.
Proof.
  destruct v as [|p|p].
  - exists ["0"%char]. split_and!; [done| |done..]. repeat constructor. by eexists.
  - destruct (pretty_N_digits (Npos p)) as (? & ? & ?). exists (chars (pretty (Npos p))).
    rewrite app_nil_r. change (sign_chars _) with (@nil ascii). cbn [app].
    by rewrite of_chars_chars.
  - destruct (pretty_N_digits (Npos p)) as (? & ? & ?). exists (chars (pretty (Npos p))).
    rewrite app_nil_r. change (sign_chars _) with ["-"%char]. rewrite of_chars_app.
    by rewrite of_chars_chars.
Qed.

Lemma pretty_nonneg_digits v : 0 ≤ v → all_digits 10 (chars (pretty v)) ∧ pretty v ≠ "".
Proof.
  intros Hv. destruct (pretty_Z_chars v) as (ds & -> & Hds & Hne & _).
  rewrite bool_decide_eq_false_2 by lia. cbn. rewrite app_nil_r, chars_of_chars.
  split; [done|]. by apply of_chars_ne_empty.
Qed.

Lemma str_to_integral_pretty `{Libc} ty v :
  type_wf ty → in_range ty v → str_to_integral ty (pretty v) = Ret v.
Proof.
  intros Hty Hv. destruct (pretty_Z_chars v) as (ds & -> & Hds & Hne & Hval).
  assert ((if bool_decide (v < 0) then - number_value 10 0 ds else number_value 10 0 ds) = v) as Heq.
  { rewrite Hval. case_bool_decide; lia. }
  pose proof (str_to_integral_decimal ty (bool_decide (v < 0)) ds [] Hty) as Hd.
  cbv zeta in Hd. rewrite Heq, decide_True in Hd by done.
  apply Hd; [|done..|constructor].
  intros Hneg%bool_decide_eq_true_1. unfold in_range, lowest in Hv.
  destruct (is_signed ty); [done|lia].
Qed.

(** ** Results and [errno] *)
Section results.
Context `{Libc}.

Lemma stoll_range s base errno v e :
  stoll_with_checks s base errno = (Ret v, e) → in_range int64_t v ∧ e = errno.
Proof.
  unfold stoll_with_checks. case_match; [done|].
  destruct (strtoll s base) as [r e'] eqn:Hst. intros Heq.
  destruct (Z.eqb_spec e' 0); cbn in Heq.
  - simplify_eq. split; [|done]. unfold strtoll in Hst.
    destruct (negb (_ || _)); [done|]. destruct (scan_number s base) as [neg [mag found]].
    destruct (negb found); [destruct no_conversion_einval; simplify_eq; unfold in_range; vm_compute; by split|].
    revert Hst. generalize (if neg then - mag else mag). intros w Hst.
    destruct (Z.ltb_spec w (lowest int64_t)); [by injection Hst|].
    destruct (Z.ltb_spec (max int64_t) w); [by injection Hst|]. by simplify_eq.
  - repeat case_match; simplify_eq; by rewrite Z.eqb_eq in *.
Qed.

Lemma stoull_range s base errno v e :
  stoull_with_checks s base errno = (Ret v, e) → in_range uint64_t v ∧ e = errno.
Proof.
  unfold stoull_with_checks. case_match; [done|].
  destruct (strtoull s base) as [r e'] eqn:Hst. intros Heq.
  destruct (bool_decide (String.get 0 s = _)); [done|].
  destruct (Z.eqb_spec e' 0); cbn in Heq.
  - simplify_eq. split; [|done]. unfold strtoull in Hst.
    destruct (negb (_ || _)); [done|]. destruct (scan_number s base) as [neg [mag found]].
    destruct (negb found); [destruct no_conversion_einval; simplify_eq; unfold in_range; vm_compute; by split|].
    destruct (max uint64_t <? mag); [by injection Hst|]. simplify_eq.
    unfold in_range, lowest, max, wrap. cbn.
    pose proof (Z.mod_pos_bound (if neg then - mag else mag) (2 ^ 64) ltac:(lia)). lia.
  - repeat case_match; simplify_eq; by rewrite Z.eqb_eq in *.
Qed.

Lemma str_to_integral_range ty s v :
  type_wf ty → str_to_integral ty s = Ret v → in_range ty v.
Proof.
  intros Hty. unfold str_to_integral, str_to_integral_errno.
  destruct (str_to_integral_helper ty s 0) as [r e] eqn:Hh. cbn. intros Hv.
  outcome_inv. destruct (within_bounds ty x) eqn:Hb; cbn in *; [|done].
  outcome_inv. assert (in_range ty x) as Hr.
  { unfold within_bounds in Hb. unfold str_to_integral_helper in Hh. unfold in_range.
    destruct (is_signed ty) eqn:Hsg.
    - by apply andb_true_iff in Hb as [?%Z.leb_le ?%Z.leb_le].
    - apply stoull_range in Hh as [[Hlow _] _]. apply Z.leb_le in Hb.
      unfold lowest in *. rewrite Hsg. by cbn in Hlow. }
  by rewrite static_cast_in_range.
Qed.

Lemma str_to_integral_errno_fst ty s errno :
  (str_to_integral_errno ty s errno).1 = str_to_integral ty s.
Proof.
  unfold str_to_integral, str_to_integral_errno, str_to_integral_helper.
  assert (∀ e1 e2, (stoll_with_checks s base_10 e1).1 = (stoll_with_checks s base_10 e2).1) as Hl.
  { intros. unfold stoll_with_checks. destruct (strtoll s base_10). by repeat case_match. }
  assert (∀ e1 e2, (stoull_with_checks s base_10 e1).1 = (stoull_with_checks s base_10 e2).1) as Hu.
  { intros. unfold stoull_with_checks. destruct (strtoull s base_10). by repeat case_match. }
  destruct (is_signed ty).
  - specialize (Hl errno 0). destruct (stoll_with_checks s base_10 errno), (stoll_with_checks s base_10 0).
    cbn in *. by subst.
  - specialize (Hu errno 0). destruct (stoull_with_checks s base_10 errno), (stoull_with_checks s base_10 0).
    cbn in *. by subst.
Qed.

Lemma str_to_integral_defined ty s : is_defined (str_to_integral ty s).
Proof.
  unfold str_to_integral, str_to_integral_errno, str_to_integral_helper,
    stoll_with_checks, stoull_with_checks.
  destruct (strtoll s base_10), (strtoull s base_10).
  repeat case_match; simplify_eq; cbn; repeat case_match; by intros u.
Qed.

(** Characters outside [numbers], and the empty string, are refused. *)
Lemma str_to_integral_invalid ty s :
  s = "" ∨ contains_only_valid_characters s numbers = false →
  throws invalid_argument (str_to_integral ty s).
Proof.
  intros Hs. unfold str_to_integral, str_to_integral_errno, str_to_integral_helper,
    stoll_with_checks, stoull_with_checks.
  assert (bool_decide (s = "") || negb (contains_only_valid_characters s numbers) = true) as ->.
  { destruct Hs as [-> | ->]; [done|]. by rewrite orb_true_r. }
  destruct (is_signed ty); cbn; eauto with proxy.
Qed.
End results.
#[export] Hint Resolve str_to_integral_defined : proxy.

Lemma str_to_integral_errno_ok `{Libc} ty s errno v :
  str_to_integral ty s = Ret v → str_to_integral_errno ty s errno = (Ret v, errno).
Proof.
  intros Hv. rewrite <-(str_to_integral_errno_fst ty s errno) in Hv. revert Hv.
  unfold str_to_integral_errno, str_to_integral_helper.
  destruct (if is_signed ty then _ else _) as [r e] eqn:Hh. cbn.
  intros Hv. rewrite Hv. f_equal. outcome_inv. subst.
  destruct (is_signed ty); [by eapply stoll_range|by eapply stoull_range].
Qed.

(** ** Hexadecimal digits *)

Lemma length_hex_digits n v : length (hex_digits n v) = n.
Proof.
  revert v. induction n as [|n IH]; intros v; [done|].
  cbn. rewrite length_app, IH. cbn. lia.
Qed.

Lemma hex_digits_digits n v : all_digits 16 (hex_digits n v).
Proof.
  revert v. induction n as [|n IH]; intros v; [constructor|].
  cbn [hex_digits]. apply Forall_app. split; [done|]. repeat constructor.
  eexists. apply hex_char_ok. apply Z.mod_pos_bound. lia.
Qed.

Lemma number_value_hex_digits n v :
  number_value 16 0 (hex_digits n v) = v mod 16 ^ Z.of_nat n.
Proof.
  revert v. induction n as [|n IH]; intros v; [by rewrite Z.mod_1_r|].
  cbn [hex_digits]. rewrite number_value_snoc, IH. unfold digit_or_0.
  pose proof (Z.mod_pos_bound v 16 ltac:(lia)) as Hm.
  destruct (hex_char_ok _ Hm) as (-> & _). cbn [default].
  rewrite Nat2Z.inj_succ, Z.pow_succ_r by lia.
  pose proof (Z.pow_pos_nonneg 16 (Z.of_nat n) ltac:(lia) ltac:(lia)).
  rewrite (Z.rem_mul_r v 16) by done. apply Z.add_comm.
Qed.

Lemma hex_digits_lookup n v i c :
  hex_digits n v !! i = Some c → ∃ d, 0 ≤ d < 16 ∧ c = hex_char d.
Proof.
  revert v i. induction n as [|n IH]; intros v i; cbn [hex_digits]; [done|].
  intros [Hi|[_ Hi]]%lookup_app_Some; [eauto|].
  apply list_lookup_singleton_Some in Hi as [_ <-].
  exists (v mod 16). split; [|done]. apply Z.mod_pos_bound. lia.
Qed.

Lemma stoull_hex `{Libc} v errno :
  0 ≤ v < 2 ^ 32 →
  stoull_with_checks (of_chars (hex_digits 8 v)) 16 errno = (Ret v, errno).
Proof.
  intros Hv. unfold stoull_with_checks.
  pose proof (length_hex_digits 8 v) as Hlen.
  pose proof (hex_digits_digits 8 v) as Hds.
  pose proof (number_value_hex_digits 8 v) as Hval. rewrite Z.mod_small in Hval by (cbn; lia).
  pose proof (hex_digits_lookup 8 v) as Hl.
  set (ds := hex_digits 8 v) in *. clearbody ds.
  rewrite bool_decide_eq_false_2 by (apply of_chars_ne_empty; by destruct ds).
  assert (contains_only_valid_characters (of_chars ds) numbers = true) as ->.
  { apply contains_only_valid_spec. rewrite chars_of_chars. apply Forall_lookup.
    intros i c (d & Hd & ->)%Hl. by apply hex_char_ok. }
  cbn [orb negb]. unfold strtoull.
  change (negb ((16 =? 0) || ((2 <=? 16) && (16 <=? 36)))) with false.
  assert (scan_number (of_chars ds) 16 = (false, (v, true))) as ->.
  { unfold scan_number. rewrite chars_of_chars.
    destruct ds as [|c0 [|c1 ds]]; [done..|].
    destruct (Hl 0%nat c0 eq_refl) as (d0 & Hd0 & ->).
    destruct (Hl 1%nat c1 eq_refl) as (d1 & Hd1 & ->).
    destruct (hex_char_ok d0 Hd0) as (_ & Hsp & Hmin & Hplus & _).
    destruct (hex_char_ok d1 Hd1) as (_ & _ & _ & _ & Hx & _).
    assert (scan_sign (skip_space (hex_char d0 :: hex_char d1 :: ds))
      = (false, hex_char d0 :: hex_char d1 :: ds)) as ->.
    { cbn [skip_space]. rewrite Hsp. clear -Hmin Hplus. revert Hmin Hplus.
      generalize (hex_char d0). intros c Hm Hp.
      destruct c as [[] [] [] [] [] [] [] []]; first [done | by destruct Hm | by destruct Hp]. }
    assert (hex_prefix (hex_char d0 :: hex_char d1 :: ds) = false) as Hpre.
    { clear -Hx. revert Hx. generalize (hex_char d0), (hex_char d1). intros c0 c1 Hx.
      destruct ds as [|c ds]; [by destruct c0 as [[] [] [] [] [] [] [] []]|].
      destruct c0 as [[] [] [] [] [] [] [] []]; try done.
      unfold hex_prefix. by rewrite (bool_decide_eq_false_2 (c1 ∈ _)). }
    unfold scan_prefix. rewrite Hpre. cbn [andb orb Z.eqb Pos.eqb].
    assert (∀ l, scan_digits 16 l 0 false = scan_digits 16 (l ++ []) 0 false) as ->
      by (intros; by rewrite app_nil_r).
    rewrite scan_digits_all by (done || apply stops_nil). by rewrite Hval. }
  rewrite get_0_of_chars, bool_decide_eq_false_2.
  2:{ destruct ds as [|c ds]; [done|]. destruct (Hl 0%nat c eq_refl) as (d & Hd & ->).
      destruct (hex_char_ok d Hd) as (_ & _ & Hm & _). cbn. congruence. }
  unfold max, uint64_t. cbn [is_signed width negb].
  rewrite (proj2 (Z.ltb_ge _ _)) by lia. cbn. by rewrite wrap_small by lia.
Qed.

Lemma htonl_range `{Host} i : 0 ≤ i < 2 ^ 32 → 0 ≤ htonl i < 2 ^ 32.
Proof.
  intros Hi. unfold htonl. destruct host_endian; [|done].
  unfold bswap32, bswap16.
  assert (∀ x, 0 ≤ x mod 256 < 256) as Hb by (intros; apply Z.mod_pos_bound; lia).
  pose proof (Hb (i mod 65536)). pose proof (Hb (i mod 65536 / 256)).
  pose proof (Hb ((i / 65536) mod 65536)). pose proof (Hb ((i / 65536) mod 65536 / 256)).
  lia.
Qed.

(** ** Properties *)

(** Types of eight bits are printed as a character. *)
Lemma to_string_eight_bits `{L : Libc} ty v :
  width ty = 8 → in_range ty v → str_to_integral ty (to_string ty v) ≠ Ret v.
Proof.
  intros Hw Hv. destruct ty as [w sg]. cbn in Hw. subst w.
  assert (v ∈ seqZ (-128) 384) as Hin.
  { apply elem_of_seqZ. revert Hv. unfold in_range, lowest, max. destruct sg; cbn; lia. }
  revert Hv. revert v Hin. refine (proj1 (Forall_forall _ _) _). unfold Libc in L. destruct sg, L;
    refine (bool_decide_eq_true_1 _ _); vm_compute; reflexivity.
Qed.

(** C27: for every C library, integral type of up to 64 bits and value of that type,
    [str_to_integral] reads back the decimal notation of the value and leaves [errno] as
    it was.  That is what [to_string] prints for every type which has not eight bits; for
    the types of eight bits it prints a character, and never one which is read back. *)
Theorem str_to_integral_roundtrip `{Libc} ty v errno :
  type_wf ty → in_range ty v →
  str_to_integral_errno ty (pretty v) errno = (Ret v, errno)
  ∧ if decide (width ty = 8) then (str_to_integral_errno ty (to_string ty v) errno).1 ≠ Ret v
    else str_to_integral_errno ty (to_string ty v) errno = (Ret v, errno).
Proof.
  intros Hty Hv. assert (str_to_integral_errno ty (pretty v) errno = (Ret v, errno)) as Hpretty
    by by apply str_to_integral_errno_ok, str_to_integral_pretty.
  split; [done|]. destruct (decide (width ty = 8)) as [Hw|Hw].
  - rewrite str_to_integral_errno_fst. by apply to_string_eight_bits.
  - unfold to_string. by rewrite decide_False.
Qed.

Definition glibc : Libc := false.
Definition musl : Libc := true.

Lemma str_to_integral_roundtrip_witness :
  type_wf uint16_t ∧ in_range uint16_t 65535
  ∧ @str_to_integral_errno glibc uint16_t (to_string uint16_t 65535) 7 = (Ret 65535, 7)
  ∧ in_range uint8_t 53 ∧ (@str_to_integral_errno glibc uint8_t (to_string uint8_t 53) 7).1 ≠ Ret 53.
Proof.
  assert (type_wf uint16_t ∧ in_range uint16_t 65535) as [H1 H2] by by vm_compute.
  assert (type_wf uint8_t ∧ in_range uint8_t 53) as [H3 H4] by by vm_compute.
  split_and!; [exact H1|exact H2| |exact H4|].
  - exact (proj2 (@str_to_integral_roundtrip glibc uint16_t 65535 7 H1 H2)).
  - exact (proj2 (@str_to_integral_roundtrip glibc uint8_t 53 7 H3 H4)).
Defined.

(** *** What is read of a string

    A sign, the digits which follow it, and their value *)
Definition is_minus (l : list ascii) : bool := bool_decide (head l = Some "-"%char).
Fixpoint leading_digits (l : list ascii) : list ascii :=
  match l with
  | c :: l => if decide (is_digit 10 c) then c :: leading_digits l else []
  | [] => []
  end.
Definition decimal_digits (s : string) : list ascii :=
  leading_digits (if is_minus (chars s) then tail (chars s) else chars s).
Definition decimal_value (s : string) : Z :=
  let v := number_value 10 0 (decimal_digits s) in if is_minus (chars s) then - v else v.

Lemma leading_digits_all l : all_digits 10 (leading_digits l).
Proof. induction l as [|c l IH]; cbn; [done|]. case_decide; by constructor. Qed.
Lemma leading_digits_rest l : ∃ rest, l = leading_digits l ++ rest ∧ stops 10 rest.
Proof.
  induction l as [|c l (rest & Hl & Hrest)]; [by exists []|]. cbn [leading_digits].
  destruct (decide (is_digit 10 c)) as [|Hc]; [|exists (c :: l); split; [done|by intros ? [= <-]]].
  exists rest. split; [|done]. cbn. by rewrite <-Hl.
Qed.
Lemma decimal_parts s :
  ∃ rest, chars s = sign_chars (is_minus (chars s)) ++ decimal_digits s ++ rest ∧ stops 10 rest.
Proof.
  unfold decimal_digits. destruct (is_minus (chars s)) eqn:Hm.
  - apply bool_decide_eq_true in Hm. destruct (chars s) as [|c l]; [done|]. injection Hm as ->.
    destruct (leading_digits_rest l) as (rest & Hl & Hrest). exists rest. cbn. by rewrite <-Hl.
  - destruct (leading_digits_rest (chars s)) as (rest & Hl & Hrest). exists rest. by split.
Qed.

(** Accepted characters are neither white space nor a plus sign. *)
Lemma number_char_plain c : c ∈ chars numbers → Ascii.is_space c = false ∧ c ≠ "+"%char.
Proof. ascii_check c. Qed.

Lemma scan_number_nothing s :
  Forall (λ c, c ∈ chars numbers) (chars s) → decimal_digits s = [] →
  scan_number s 10 = (is_minus (chars s), (0, false)).
Proof.
  intros Hs Hnone. destruct (decimal_parts s) as (rest & Hparts & Hrest). rewrite Hnone in Hparts. cbn [app] in Hparts.
  unfold scan_number.
  assert (scan_sign (skip_space (chars s)) = (is_minus (chars s), rest)) as ->.
  { destruct (is_minus (chars s)) eqn:Hm; cbn [sign_chars app] in Hparts; [by rewrite Hparts|].
    rewrite Hparts in *. destruct rest as [|c l]; [done|]. apply Forall_cons in Hs as [Hc _].
    destruct (number_char_plain c Hc) as [Hsp Hp]. apply bool_decide_eq_false in Hm. cbn [skip_space]. rewrite Hsp.
    cbn in Hm. clear -Hm Hp. destruct c as [[] [] [] [] [] [] [] []]; first [done | by destruct Hm | by destruct Hp]. }
  unfold scan_prefix. cbn [Z.eqb Pos.eqb orb andb].
  pose proof (scan_digits_all 10 [] rest 0 false ltac:(constructor) Hrest) as Hd. cbn [app] in Hd.
  by rewrite Hd.
Qed.

(** Without digits the result depends on the C library. *)
Lemma str_to_integral_nothing `{Libc} ty s :
  type_wf ty → s ≠ "" → contains_only_valid_characters s numbers = true → is_signed ty = true ∨ is_minus (chars s) = false →
  decimal_digits s = [] →
  if no_conversion_einval then throws invalid_argument (str_to_integral ty s) else str_to_integral ty s = Ret 0.
Proof.
  intros Hty Hs Hvalid Hsign Hnone. pose proof Hvalid as Hall%contains_only_valid_spec.
  assert (in_range ty 0) as Hr.
  { destruct Hty as [? ?]. unfold in_range, lowest, max.
    pose proof (Z.pow_pos_nonneg 2 (width ty - 1) ltac:(lia) ltac:(lia)).
    pose proof (Z.pow_pos_nonneg 2 (width ty) ltac:(lia) ltac:(lia)). destruct (is_signed ty); lia. }
  assert (within_bounds ty 0 = true) as Hb.
  { unfold within_bounds. destruct Hr. destruct (is_signed ty); [apply andb_true_iff; split|]; by apply Z.leb_le. }
  pose proof (static_cast_in_range ty 0 Hty Hr) as Hcast.
  unfold str_to_integral, str_to_integral_errno, str_to_integral_helper, stoll_with_checks, stoull_with_checks,
    strtoll, strtoull, base_10.
  rewrite bool_decide_eq_false_2, Hvalid, scan_number_nothing by done. cbn [orb negb].
  change (negb ((10 =? 0) || ((2 <=? 10) && (10 <=? 36)))) with false.
  assert (is_signed ty = false → bool_decide (String.get 0 s = Some "-"%char) = false) as Hget.
  { intros Hsg. destruct Hsign as [?|Hm]; [congruence|]. unfold is_minus in Hm. by destruct s. }
  destruct (is_signed ty); [|rewrite Hget by done];
    (destruct no_conversion_einval; cbn; [eauto with proxy|by rewrite Hb; cbn; rewrite Hcast]).
Qed.
(** A minus sign makes the conversion to an unsigned type fail. *)
Lemma str_to_integral_negative `{Libc} ty s :
  contains_only_valid_characters s numbers = true → is_signed ty = false → is_minus (chars s) = true →
  throws out_of_range (str_to_integral ty s).
Proof.
  intros Hvalid Hsg Hm. unfold str_to_integral, str_to_integral_errno, str_to_integral_helper, stoull_with_checks.
  destruct s as [|c s]; [done|]. assert (String.get 0 (String c s) = Some "-"%char) as Hget
    by (by apply bool_decide_eq_true in Hm).
  rewrite Hsg, Hvalid, bool_decide_eq_false_2 by done. cbn [orb negb].
  destruct (strtoull (String c s) base_10). rewrite Hget, (bool_decide_eq_true_2 (Some _ = _)) by done.
  cbn. eauto with proxy.
Qed.

(** Every string *)
Lemma str_to_integral_cases `{Libc} ty s :
  type_wf ty →
  let r := str_to_integral ty s in
  if decide (s = "" ∨ contains_only_valid_characters s numbers = false) then throws invalid_argument r
  else if decide (is_signed ty = false ∧ is_minus (chars s) = true) then throws out_of_range r
  else if decide (decimal_digits s = [])
  then if no_conversion_einval then throws invalid_argument r else r = Ret 0
  else if decide (in_range ty (decimal_value s)) then r = Ret (decimal_value s) else throws out_of_range r.
Proof.
  intros Hty r. case_decide as Hbad; [by apply str_to_integral_invalid|].
  assert (s ≠ "" ∧ contains_only_valid_characters s numbers = true) as [Hs Hvalid]
    by (destruct (contains_only_valid_characters s numbers); split; tauto).
  case_decide as Hneg; [destruct Hneg; by apply str_to_integral_negative|]. case_decide as Hnone.
  { apply str_to_integral_nothing; try done. destruct (is_signed ty), (is_minus (chars s)); auto; tauto. }
  destruct (decimal_parts s) as (rest & Hparts & Hrest).
  assert (Forall (λ c, c ∈ chars numbers) rest) as Hall.
  { apply contains_only_valid_spec in Hvalid. rewrite Hparts in Hvalid. by apply Forall_app in Hvalid as [_ [_ ?]%Forall_app]. }
  pose proof (str_to_integral_decimal ty (is_minus (chars s)) (decimal_digits s) rest Hty) as Hd.
  rewrite <-Hparts, of_chars_chars in Hd. apply Hd; try done; [|apply leading_digits_all].
  intros Hm. destruct (is_signed ty); [done|]. tauto.
Qed.

(** What has to be written for [v] to be read *)
Definition number_read `{Libc} (ty : int_type) (s : string) (v : Z) : Prop :=
  s ≠ "" ∧ contains_only_valid_characters s numbers = true
  ∧ (is_signed ty = true ∨ is_minus (chars s) = false)
  ∧ (decimal_digits s = [] → no_conversion_einval = false)
  ∧ in_range ty v ∧ v = decimal_value s.

Lemma str_to_integral_Ret `{Libc} ty s v :
  type_wf ty → str_to_integral ty s = Ret v ↔ number_read ty s v.
Proof.
  intros Hty. pose proof (str_to_integral_cases ty s Hty) as Hc. cbv zeta in Hc. unfold number_read.
  assert (∀ k, throws k (str_to_integral ty s) → str_to_integral ty s ≠ Ret v) as Hthrow by (intros k [msg ->]; done).
  case_decide as Hbad; [split; [by intros ?%(Hthrow invalid_argument)|]|].
  { destruct (contains_only_valid_characters s numbers); [|by intros (_ & ? & _)]. destruct Hbad; [tauto|done]. }
  assert (s ≠ "" ∧ contains_only_valid_characters s numbers = true) as [Hs Hvalid]
    by (destruct (contains_only_valid_characters s numbers); split; tauto).
  case_decide as Hneg; [split; [by intros ?%(Hthrow out_of_range)|]|].
  { destruct Hneg as [Hsg Hm]. rewrite Hsg, Hm. by intros (_ & _ & [?|?] & _). }
  assert (is_signed ty = true ∨ is_minus (chars s) = false) as Hsign
    by (destruct (is_signed ty), (is_minus (chars s)); tauto).
  case_decide as Hnone.
  - assert (decimal_value s = 0) as Hv by (unfold decimal_value; rewrite Hnone; by destruct (is_minus (chars s))).
    destruct no_conversion_einval.
    + split; [by intros ?%(Hthrow invalid_argument)|]. intros (_ & _ & _ & Hno & _). by specialize (Hno Hnone).
    + rewrite Hc. split.
      * intros [= <-]. split_and!; try done. by eapply str_to_integral_range.
      * intros (_ & _ & _ & _ & _ & ->). by rewrite Hv.
  - case_decide as Hr.
    + rewrite Hc. split; [intros [= <-]; by split_and!|]. by intros (_ & _ & _ & _ & _ & ->).
    + split; [by intros ?%(Hthrow out_of_range)|]. intros (_ & _ & _ & _ & Hin & ->). done.
Qed.

(** C28: what [str_to_integral] does with every string.  The empty string and strings with
    characters other than [-], digits and [a] to [f] are refused with
    [std::invalid_argument], a minus sign in front of an unsigned number with
    [std::out_of_range].  Otherwise a number is read: an optional sign and the decimal
    digits after it, whatever accepted characters follow them.  It is returned when it
    lies within the bounds of the type and refused with [std::out_of_range] when not:
    nothing is truncated or wrapped around.  Where there are no digits, the C library
    decides between 0 and [std::invalid_argument]. *)
Theorem str_to_integral_exact `{Libc} ty s :
  type_wf ty →
  let r := str_to_integral ty s in
  if decide (s = "" ∨ contains_only_valid_characters s numbers = false) then throws invalid_argument r
  else if decide (is_signed ty = false ∧ is_minus (chars s) = true) then throws out_of_range r
  else if decide (decimal_digits s = [])
  then if no_conversion_einval then throws invalid_argument r else r = Ret 0
  else if decide (in_range ty (decimal_value s)) then r = Ret (decimal_value s) else throws out_of_range r.
Proof. apply str_to_integral_cases. Qed.

Lemma str_to_integral_exact_witness :
  type_wf uint8_t
  ∧ throws out_of_range (@str_to_integral musl uint8_t "256")
  ∧ @str_to_integral musl uint8_t "255" = Ret 255
  ∧ @str_to_integral musl uint8_t "22-80" = Ret 22.
Proof.
  assert (type_wf uint8_t) as Hty by by vm_compute.
  split_and!; [exact Hty|..].
  - exact (@str_to_integral_exact musl uint8_t "256" Hty).
  - exact (@str_to_integral_exact musl uint8_t "255" Hty).
  - exact (@str_to_integral_exact musl uint8_t "22-80" Hty).
Defined.

(** The character check does not make the conversion strict: a number
    followed by accepted characters which are no decimal digit ([a] to [f],
    [A] to [F] or [-]) is converted as if they were not there. *)
Lemma str_to_integral_ignores_suffix `{Libc} ty ds suffix v :
  type_wf ty → all_digits 10 ds → ds ≠ [] →
  stops 10 suffix → Forall (λ c, c ∈ chars numbers) suffix →
  str_to_integral ty (of_chars ds) = Ret v →
  str_to_integral ty (of_chars (ds ++ suffix)) = Ret v.
Proof.
  intros Hty Hds Hne Hst Hval Hv.
  pose proof (str_to_integral_decimal ty false ds [] Hty ltac:(done) Hds Hne
    (stops_nil 10) (Forall_nil_2 _)) as H0.
  pose proof (str_to_integral_decimal ty false ds suffix Hty ltac:(done) Hds Hne Hst Hval) as H1.
  cbv zeta iota in H0, H1. cbn [sign_chars app] in H0, H1. rewrite app_nil_r in H0.
  destruct (decide (in_range ty (number_value 10 0 ds))); [congruence|].
  rewrite Hv in H0. by destruct H0.
Qed.

Lemma str_to_integral_ignores_suffix_witness :
  @str_to_integral glibc uint16_t "22" = Ret 22 ∧ @str_to_integral glibc uint16_t "22-80" = Ret 22.
Proof.
  split; [by vm_compute|].
  apply (@str_to_integral_ignores_suffix glibc uint16_t (chars "22") (chars "-80") 22).
  - by vm_compute.
  - refine (bool_decide_eq_true_1 _ _). by vm_compute.
  - done.
  - intros c [= <-]. by intros [? ?].
  - refine (bool_decide_eq_true_1 _ _). by vm_compute.
  - by vm_compute.
Defined.

(** The eight hexadecimal characters of a 32 bit integer, read back in base
    16, are the integer in network byte order. *)
Lemma eight_hex_chars_roundtrip `{Libc} `{Host} i errno :
  0 ≤ i < 2 ^ 32 →
  String.length (uint32_t_to_eight_hex_chars i) = 8%nat
  ∧ stoull_with_checks (uint32_t_to_eight_hex_chars i) 16 errno = (Ret (htonl i), errno).
Proof.
  intros Hi. unfold uint32_t_to_eight_hex_chars. split.
  - done.
  - apply stoull_hex. by apply htonl_range.
Qed.

Lemma eight_hex_chars_roundtrip_witness :
  0 ≤ 167772160 < 2 ^ 32
  ∧ String.length (@uint32_t_to_eight_hex_chars Little 167772160) = 8%nat
  ∧ @stoull_with_checks glibc (@uint32_t_to_eight_hex_chars Little 167772160) 16 0
    = (Ret (@htonl Little 167772160), 0).
Proof.
  split; [lia|]. apply (@eight_hex_chars_roundtrip glibc Little 167772160 0). lia.
Defined.
