(* ===== verification/NetText.v ===== *)
(** * Textual network addresses: the C library interface

    [inet_pton], [inet_ntop], [ether_aton_r] and [ether_ntoa_r] are functions
    of the C library, which is not part of this repository.  They are
    operations of the class [Net_text]; the class [Net_text_ok] states what
    their manual pages promise and what the components above rely on.
    [NetTextRef] holds a small executable instance. *)
From S2P Require Import Prelude ContainerUtils IntUtils.
Local Open Scope Z_scope.

(** Address families of Linux *)
Definition AF_INET : Z := 2.
Definition AF_INET6 : Z := 10.

(** The six octets of an [ether_addr] *)
Abbreviation ether_addr := (list Z).
Definition mac_wf (mac : ether_addr) : Prop := length mac = 6%nat ∧ bytes_wf mac.
#[export] Instance mac_wf_dec mac : Decision (mac_wf mac).
Proof. unfold mac_wf. apply _. Defined.

Definition ipv4_text_chars : list ascii := chars "0123456789.".
Definition ipv6_text_chars : list ascii := chars "0123456789abcdefABCDEF:.".

Class Net_text := {
  (** the bytes written to the destination buffer, when 1 is returned *)
  inet_pton : Z → string → option (list Z);
  (** the text, when no null pointer is returned *)
  inet_ntop : Z → list Z → option string;
  ether_aton : string → option ether_addr;
  ether_ntoa : ether_addr → string;
}.

(** The number of bytes of an address *)
Definition address_size (af : Z) : nat := if decide (af = AF_INET) then 4 else 16.

Class Net_text_ok (N : Net_text) : Prop := {
  pton_ipv4 s b : inet_pton AF_INET s = Some b →
    length b = 4%nat ∧ bytes_wf b ∧ Forall (λ c, c ∈ ipv4_text_chars) (chars s);
  pton_ipv6 s b : inet_pton AF_INET6 s = Some b →
    length b = 16%nat ∧ bytes_wf b ∧ Forall (λ c, c ∈ ipv6_text_chars) (chars s)
    ∧ ":"%char ∈ chars s;
  pton_other af s : af ≠ AF_INET → af ≠ AF_INET6 → inet_pton af s = None;
  (** only the bytes of the address are read *)
  ntop_reads af b : inet_ntop af (take (address_size af) b) = inet_ntop af b;
  ntop_pton af b : af = AF_INET ∨ af = AF_INET6 →
    length b = address_size af → bytes_wf b →
    ∃ s, inet_ntop af b = Some s ∧ inet_pton af s = Some b;
  ntop_other af b : af ≠ AF_INET → af ≠ AF_INET6 → inet_ntop af b = None;
  aton_wf s mac : ether_aton s = Some mac → mac_wf mac;
  aton_ntoa mac : mac_wf mac → ether_aton (ether_ntoa mac) = Some mac;
}.

Section laws.
Context `{Net_text_ok}.

Lemma pton_ipv4_not_ipv6 s b : inet_pton AF_INET s = Some b → inet_pton AF_INET6 s = None.
Proof.
  intros (_ & _ & Hc)%pton_ipv4. destruct (inet_pton AF_INET6 s) eqn:E; [|done].
  apply pton_ipv6 in E as (_ & _ & _ & Hin). rewrite Forall_forall in Hc.
  specialize (Hc _ Hin). exfalso. revert Hc.
  refine (bool_decide_eq_false_1 _ _). by vm_compute.
Qed.

End laws.
