(* ===== verification/NetTextRef.v ===== *)
(** * An executable instance of [NetText]

    Dotted decimal IPv4 addresses, IPv6 addresses written as eight groups of
    four hexadecimal digits, and colon separated hexadecimal Ethernet
    addresses.  It satisfies every law of [Net_text_ok] and is the instance at
    which the theorems about addresses are evaluated; it makes no claim to
    accept every spelling the C library accepts ([::] in particular). *)
From S2P Require Import Prelude ContainerUtils IntUtils NetText.
Local Open Scope Z_scope.

(** ** Lists of numbers with a separator *)
Section numbers.
Variables (d : ascii) (print : Z → list ascii) (base limit : Z).
Hypothesis print_nodelim : ∀ v, 0 ≤ v < limit → d ∉ print v.
Hypothesis print_not_nil : ∀ v, 0 ≤ v < limit → print v ≠ [].
Hypothesis print_value : ∀ v, 0 ≤ v < limit → number_value base 0 (print v) = v.

Definition print_numbers (vs : list Z) : string := of_chars (intercalate d (print <$> vs)).

Definition parse_numbers (n : nat) (s : string) : option (list Z) :=
  let toks := split (chars s) d in
  let vs := number_value base 0 <$> toks in
  if bool_decide (length vs = n ∧ Forall (λ v, 0 ≤ v < limit) vs
                  ∧ Forall (λ tok, tok ≠ [] ∧ all_digits base tok) toks)
  then Some vs else None.

Lemma parse_numbers_Some n s vs :
  parse_numbers n s = Some vs → length vs = n ∧ Forall (λ v, 0 ≤ v < limit) vs.
Proof. unfold parse_numbers. case_bool_decide as H; [|done]. intros [= <-]. tauto. Qed.

Lemma parse_numbers_chars n s vs :
  parse_numbers n s = Some vs → Forall (λ c, is_digit base c ∨ c = d) (chars s).
Proof.
  unfold parse_numbers. case_bool_decide as H; [|done]. intros _. destruct H as (_ & _ & H).
  apply Forall_forall. intros c Hc.
  destruct (intercalate_split (chars s) d) as [Heq|Heq]; rewrite Heq in Hc.
  all: clear Heq; revert H Hc; generalize (split (chars s) d); intros toks H Hc.
  all: assert (c ∈ intercalate d toks ∨ c = d) as [Hin|?]
    by (try apply elem_of_app in Hc as [?|?%list_elem_of_singleton]; auto); [|by right].
  all: clear Hc; induction toks as [|tok [|tok' toks] IH]; [by apply elem_of_nil in Hin| |].
  all: apply Forall_cons in H as [[_ Htok] H]; rewrite Forall_forall in Htok.
  all: try (left; by apply Htok).
  all: apply elem_of_app in Hin as [Hin|[->|Hin]%elem_of_cons]; [left; by apply Htok|by right|].
  all: by apply IH.
Qed.

Hypothesis print_digits : ∀ v, 0 ≤ v < limit → all_digits base (print v).

Lemma parse_print_numbers n vs :
  length vs = n → Forall (λ v, 0 ≤ v < limit) vs → parse_numbers n (print_numbers vs) = Some vs.
Proof.
  intros Hlen Hvs. unfold parse_numbers, print_numbers. rewrite chars_of_chars.
  rewrite split_intercalate.
  - assert (number_value base 0 <$> (print <$> vs) = vs) as ->.
    { rewrite <-list_fmap_compose. clear Hlen. induction Hvs; csimpl; [done|].
      f_equal; [by apply print_value|done]. }
    rewrite bool_decide_eq_true_2; [done|]. split_and!; [done..|].
    apply Forall_fmap. eapply Forall_impl; [exact Hvs|]. intros v Hv. split; auto.
  - apply Forall_fmap. eapply Forall_impl; [exact Hvs|]. apply print_nodelim.
  - rewrite fmap_last. destruct (last vs) as [v|] eqn:Hl; [|done]. intros [= Heq].
    apply (print_not_nil v); [|done]. rewrite Forall_forall in Hvs.
    apply Hvs. by apply last_Some_elem_of.
Qed.
End numbers.

(** ** The three notations *)
Definition print_dec (v : Z) : list ascii := chars (pretty v).
Definition print_hex4 (v : Z) : list ascii := hex_digits 4 v.
Definition print_hex2 (v : Z) : list ascii :=
  if v <? 16 then hex_digits 1 v else hex_digits 2 v.

Fixpoint groups (b : list Z) : list Z :=
  match b with
  | b0 :: b1 :: b => be_u16 b0 b1 :: groups b
  | _ => []
  end.
Definition ungroup (g : list Z) : list Z := g ≫= λ v, [v / 256; v mod 256].

Definition ref_inet_pton (af : Z) (s : string) : option (list Z) :=
  if decide (af = AF_INET) then parse_numbers "."%char 10 256 4 s
  else if decide (af = AF_INET6) then ungroup <$> parse_numbers ":"%char 16 65536 8 s
  else None.

Definition ref_inet_ntop (af : Z) (b : list Z) : option string :=
  let b := take (address_size af) b in
  if decide (af = AF_INET) then Some (print_numbers "."%char print_dec b)
  else if decide (af = AF_INET6) then Some (print_numbers ":"%char print_hex4 (groups b))
  else None.

#[export] Instance ref_net : Net_text := {|
  inet_pton := ref_inet_pton;
  inet_ntop := ref_inet_ntop;
  ether_aton := parse_numbers ":"%char 16 256 6;
  ether_ntoa := print_numbers ":"%char print_hex2;
|}.

(** ** The laws *)
Lemma digit_char_10 c : is_digit 10 c ∨ c = "."%char → c ∈ ipv4_text_chars.
Proof. ascii_check c. Qed.
Lemma digit_char_16 c : is_digit 16 c ∨ c = ":"%char → c ∈ ipv6_text_chars.
Proof. ascii_check c. Qed.
Lemma dot_no_digit c : is_digit 10 c → c ≠ "."%char.
Proof. ascii_check c. Qed.
Lemma colon_no_digit c : is_digit 16 c → c ≠ ":"%char.
Proof. ascii_check c. Qed.

Lemma print_dec_ok v :
  0 ≤ v → all_digits 10 (print_dec v) ∧ print_dec v ≠ [] ∧ ("."%char ∉ print_dec v)
          ∧ number_value 10 0 (print_dec v) = v.
Proof.
  intros Hv. destruct (pretty_Z_chars v) as (ds & Heq & Hds & Hne & Hval).
  unfold print_dec. rewrite Heq, bool_decide_eq_false_2 by lia.
  cbn [sign_chars app]. rewrite app_nil_r, chars_of_chars. split_and!; [done..| |lia].
  intros Hin. rewrite Forall_forall in Hds. by apply (dot_no_digit "."%char); [apply Hds|].
Qed.

Lemma hex_digits_ok n v :
  (n ≠ 0)%nat → 0 ≤ v < 16 ^ Z.of_nat n →
  all_digits 16 (hex_digits n v) ∧ hex_digits n v ≠ [] ∧ (":"%char ∉ hex_digits n v)
  ∧ number_value 16 0 (hex_digits n v) = v.
Proof.
  intros Hn Hv. pose proof (hex_digits_digits n v) as Hds. split_and!; [done| | |].
  - intros Heq%(f_equal length). by rewrite length_hex_digits in Heq.
  - intros Hin. rewrite Forall_forall in Hds. by apply (colon_no_digit ":"%char); [apply Hds|].
  - rewrite number_value_hex_digits. by apply Z.mod_small.
Qed.

Lemma print_hex2_ok v :
  0 ≤ v < 256 → all_digits 16 (print_hex2 v) ∧ print_hex2 v ≠ [] ∧ (":"%char ∉ print_hex2 v)
  ∧ number_value 16 0 (print_hex2 v) = v.
Proof.
  intros Hv. unfold print_hex2. destruct (Z.ltb_spec v 16); apply hex_digits_ok; cbn; lia.
Qed.

Lemma groups_wf b : bytes_wf b → Forall (λ v, 0 ≤ v < 65536) (groups b).
Proof.
  revert b. fix IH 1. intros [|b0 [|b1 b]] Hb; cbn; [constructor..|].
  apply Forall_cons in Hb as [H0 Hb]. apply Forall_cons in Hb as [H1 Hb].
  constructor; [|by apply IH]. unfold byte_wf, be_u16 in *. lia.
Qed.
Lemma ungroup_groups n b : length b = (2 * n)%nat → bytes_wf b → ungroup (groups b) = b ∧ length (groups b) = n.
Proof.
  revert b. induction n as [|n IH]; intros [|b0 [|b1 b]] Hlen Hb; cbn in Hlen; try lia; [done|].
  apply Forall_cons in Hb as [H0 Hb]. apply Forall_cons in Hb as [H1 Hb].
  destruct (IH b) as [IHu IHl]; [lia|done|]. cbn. rewrite IHl. split; [|done].
  unfold ungroup in IHu. rewrite IHu. unfold byte_wf, be_u16 in *.
  rewrite (Z.mul_comm 256), Z.div_add_l, Z.div_small, Z.add_0_r by lia.
  rewrite (Z.add_comm (b0 * 256)), Z.mod_add, Z.mod_small by lia. done.
Qed.
Lemma ungroup_wf g : Forall (λ v, 0 ≤ v < 65536) g → bytes_wf (ungroup g) ∧ length (ungroup g) = (2 * length g)%nat.
Proof.
  induction 1 as [|v g Hv _ [IHb IHl]]; [done|]. cbn. split; [|cbn in IHl; unfold ungroup in IHl; lia].
  pose proof (Z.mod_pos_bound v 256 ltac:(lia)).
  constructor; [|constructor; [|done]]; unfold byte_wf; [|lia].
  split; [apply Z.div_pos; lia|apply Z.div_lt_upper_bound; lia].
Qed.

#[export] Instance ref_net_ok : Net_text_ok ref_net.
Proof.
  split.
  - intros s b Hp. cbn in Hp. destruct (parse_numbers_Some _ _ _ _ _ _ Hp).
    split_and!; [done..|]. eapply Forall_impl; [eapply parse_numbers_chars, Hp|]. apply digit_char_10.
  - intros s b Hp. cbn in Hp. apply fmap_Some in Hp as (g & Hp & ->).
    destruct (parse_numbers_Some _ _ _ _ _ _ Hp) as [Hlen Hg].
    destruct (ungroup_wf g Hg) as [? ->]. rewrite Hlen. split_and!; [done..| |].
    + eapply Forall_impl; [eapply parse_numbers_chars, Hp|]. apply digit_char_16.
    + destruct (decide (":"%char ∈ chars s)) as [|Hn]; [done|exfalso].
      unfold parse_numbers in Hp. case_bool_decide as Hd; [|done].
      destruct Hd as (Hl & _). rewrite length_fmap in Hl.
      destruct (decide (chars s = [])) as [Heq|]; [by rewrite Heq in Hl|].
      by rewrite split_nodelim in Hl.
  - intros af s ??. change (ref_inet_pton af s = None). unfold ref_inet_pton.
    by rewrite !decide_False by done.
  - intros af b. change (ref_inet_ntop af (take (address_size af) b) = ref_inet_ntop af b).
    unfold ref_inet_ntop. rewrite take_take, Nat.min_id. done.
  - intros af b [-> | ->] Hlen Hb; cbn; unfold ref_inet_ntop, ref_inet_pton; cbn in Hlen |- *.
    + eexists. split; [done|]. rewrite take_ge by lia. apply parse_print_numbers; try done.
      all: intros; apply print_dec_ok; lia.
    + eexists. split; [done|]. rewrite take_ge by lia.
      destruct (ungroup_groups 8 b Hlen Hb) as [Hu Hl].
      rewrite parse_print_numbers; [cbn; by rewrite Hu| | | | |done|by apply groups_wf].
      all: intros; apply hex_digits_ok; [done|cbn; lia].
  - intros af b ??. change (ref_inet_ntop af b = None). unfold ref_inet_ntop.
    by rewrite !decide_False by done.
  - intros s mac. cbn. apply parse_numbers_Some.
  - intros mac [Hlen Hmac]. cbn. apply parse_print_numbers; try done.
    all: intros; by apply print_hex2_ok.
Qed.
