(* ===== verification/System.v ===== *)
(** * The system: what the program asks of its environment

    Calls of the operating system and of libpcap are not code of this
    repository.  They are the constructors of [syscall]; their results come
    from an arbitrary function of everything which has been asked and answered
    before ([System]), so a theorem quantified over [System] holds for every
    behaviour of the environment, including everything other threads and
    processes do in between.  Code with effects is a computation of the monad
    [M], which threads the [world] (the history of calls and the program's own
    global variables) and ends with a value, an exception or the end of the
    process. *)
From S2P Require Import Prelude ContainerUtils IntUtils NetText.
Local Open Scope Z_scope.

(** ** Values which cross the boundary *)

(** [stdin], [stdout] and [stderr] *)
Inductive stream := std_in | std_out | std_err.

(** [struct sockaddr_in] and [struct sockaddr_ll] *)
Inductive sockaddr :=
  | Sockaddr_in (sin_family : Z) (sin_port : Z) (sin_addr : list Z)
  | Sockaddr_ll (sll_family : Z) (sll_protocol : Z) (sll_ifindex : Z)
      (sll_hatype : Z) (sll_pkttype : Z) (sll_halen : Z) (sll_addr : list Z).

(** [struct ifreq]: the name and the union behind it *)
Record ifreq := { ifr_name : list ascii; ifr_ifindex : Z; ifr_hwaddr_sa_data : list Z }.

(** [struct pcap_pkthdr] *)
Record pcap_pkthdr := { ts_sec : Z; ts_usec : Z; caplen : nat; len : nat }.

(** [Pcap_wrapper::Loop_end_reason] *)
Inductive Loop_end_reason := unset | packets_captured | signal | duplicate_address | error.
#[export] Instance Loop_end_reason_eq_dec : EqDecision Loop_end_reason.
Proof. solve_decision. Defined.

(** What happens to a [Pcap_wrapper] from outside while its [loop] runs: a
    signal arrives, or another thread calls [break_loop]. *)
Inductive interruption := By_signal | By_thread (ler : Loop_end_reason).
#[export] Instance interruption_eq_dec : EqDecision interruption.
Proof. solve_decision. Defined.

(** One run of [pcap_loop] on the loop thread: the packets handed to the
    callback and the interruptions, in the order in which they happen, and the
    return value ([None] when the thread is cancelled before [pcap_loop]
    returns). *)
Inductive happening :=
  | Packet (header : option pcap_pkthdr) (packet : option (list Z))
  | Interruption (i : interruption).
Record loop_run := { happenings : list happening; loop_ret : option Z }.

Definition deliveries (run : loop_run) : list (option pcap_pkthdr * option (list Z)) :=
  omap (λ h, match h with Packet header packet => Some (header, packet) | _ => None end)
    (happenings run).
Definition interruptions (run : loop_run) : list interruption :=
  omap (λ h, match h with Interruption i => Some i | _ => None end) (happenings run).

(** ** System calls, indexed by the type of their result *)
Inductive syscall : Type → Type :=
  (* processes *)
  | File_actions_init : syscall Z
  | File_actions_adddup2 (src dest : Z) : syscall Z
  | Posix_spawnp (argv : list string) (in_fd out_fd : Z) : syscall (Z * Z)
  | Waitpid (pid : Z) : syscall (option Z)
  (* signals *)
  | Sigaction (signum : Z) : syscall bool
  | Signal_arrived : syscall bool
  (* files *)
  | Fileno (s : stream) : syscall Z
  | Fflush (s : stream) : syscall bool
  | Stat (filename : string) : syscall bool
  | Pipe : syscall (option (Z * Z))
  | Fcntl_getfd (fd : Z) : syscall Z
  | Fcntl_setfd (fd flags : Z) : syscall bool
  | Poll_in (fd : Z) : syscall Z
  | Read (fd : Z) (n : nat) : syscall (option (list Z))
  | Close (fd : Z) : syscall bool
  | Open_file (filename : string) : syscall (option string)
  (* sockets *)
  | Socket_open (domain type protocol : Z) : syscall Z
  | Setsockopt (fd level optname optval : Z) : syscall bool
  | Sendto (fd : Z) (buf : list Z) (flags : Z) (addr : sockaddr) : syscall (option Z)
  | Ioctl (fd request : Z) (ifr : ifreq) : syscall (option ifreq)
  (* libpcap; a wrapper object is named by its number *)
  | Pcap_create (pc : nat) (iface : string) : syscall (option string)
  | Pcap_set_snaplen (pc : nat) (snaplen : Z) : syscall Z
  | Pcap_set_promisc (pc : nat) (promisc : Z) : syscall Z
  | Pcap_set_timeout (pc : nat) (timeout : Z) : syscall Z
  | Pcap_activate (pc : nat) : syscall Z
  | Pcap_datalink (pc : nat) : syscall Z
  | Pcap_compile (pc : nat) (filter : string) : syscall Z
  | Pcap_setfilter (pc : nat) : syscall Z
  | Pcap_loop (pc : nat) (count : Z) : syscall loop_run
  | Pcap_breakloop (pc : nat) : syscall unit
  | Loop_thread_joinable (pc : nat) : syscall bool
  | Pthread_cancel (pc : nat) : syscall unit
  | Pcap_inject (pc : nat) (data : list Z) : syscall Z
  | Pcap_geterr (pc : nat) : syscall string
  | Pcap_close (pc : nat) : syscall unit
  (* threads and time; a thread and an [std::atomic] belong to the object [owner] *)
  | Thread_start (owner : nat) : syscall unit
  | Thread_join (owner : nat) : syscall unit
  | Atomic_load (owner : nat) : syscall bool
  | Atomic_store (owner : nat) (b : bool) : syscall unit
  | Sleep_ms (ms : Z) : syscall unit.

(** A call and its result *)
Inductive event := Event (A : Type) (c : syscall A) (r : A).
Arguments Event {A} c r.
Abbreviation history := (list event).

(** What a call is about *)
Inductive kind := Processes | Signals | Files | Sockets | Capture | Injection | Threads.
#[export] Instance kind_eq_dec : EqDecision kind.
Proof. solve_decision. Defined.

Definition syscall_kind {A} (c : syscall A) : kind :=
  match c with
  | File_actions_init | File_actions_adddup2 _ _ | Posix_spawnp _ _ _ | Waitpid _ => Processes
  | Sigaction _ | Signal_arrived => Signals
  | Fileno _ | Fflush _ | Stat _ | Pipe | Fcntl_getfd _ | Fcntl_setfd _ _ | Poll_in _
  | Read _ _ | Close _ | Open_file _ => Files
  | Socket_open _ _ _ | Setsockopt _ _ _ _ | Sendto _ _ _ _ | Ioctl _ _ _ => Sockets
  | Pcap_inject _ _ => Injection
  | Thread_start _ | Thread_join _ | Atomic_load _ | Atomic_store _ _ | Sleep_ms _ => Threads
  | _ => Capture
  end.
Definition event_kind (e : event) : kind := let '(Event c _) := e in syscall_kind c.

(** The event is of one of the kinds [ks]. *)
Definition of_kind (ks : kind → bool) (e : event) : Prop := ks (event_kind e) = true.

(** The environment *)
Class System := {
  reply : ∀ {A : Type}, history → syscall A → A;
  (** [strerror(errno)] *)
  strerror_errno : history → string;
}.

(** ** The program's global state *)
Record world := World {
  trace : history;
  (** [signaled] and [pcaps] of [libsleep_proxy.cpp] *)
  signaled : bool;
  pcaps : list nat;
  (** the signals [setup_signals] has installed its handler for *)
  handled : list Z;
  (** the [loop_end_reason] of each wrapper object, and the number of objects *)
  end_reasons : gmap nat Loop_end_reason;
  objects : nat;
  (** [to_syslog] of [args.cpp] *)
  to_syslog : bool;
}.

Definition world_init : world :=
  {| trace := []; signaled := false; pcaps := []; handled := [];
     end_reasons := ∅; objects := 0; to_syslog := false |}.

(** ** Computations *)

(** How a process ends in the middle of a computation: undefined behaviour,
    [std::terminate], [exit] or a signal.  [Out_of_fuel] marks a loop whose
    bound was reached. *)
Inductive ending :=
  | Crash (u : ub) | Terminate | Exit (code : Z) | Killed (sig : Z) | Out_of_fuel.

Inductive res (A : Type) := Val (a : A) | Raised (e : exn) | Ended (how : ending).
Arguments Val {A} _.
Arguments Raised {A} _.
Arguments Ended {A} _.

Definition M (A : Type) : Type := world → res A * world.

#[export] Instance M_ret : MRet M := λ A a w, (Val a, w).
#[export] Instance M_bind : MBind M := λ A B f m w,
  match m w with
  | (Val a, w') => f a w'
  | (Raised e, w') => (Raised e, w')
  | (Ended how, w') => (Ended how, w')
  end.
#[export] Instance M_fmap : FMap M := λ A B f m, m ≫= λ a, mret (f a).

Definition get : M world := λ w, (Val w, w).
Definition modify (f : world → world) : M unit := λ w, (Val tt, f w).
Definition raise_exn {A} (k : exn_kind) (msg : string) : M A := λ w, (Raised (Exn k msg), w).
Definition rethrow {A} (e : exn) : M A := λ w, (Raised e, w).
Definition end_process {A} (how : ending) : M A := λ w, (Ended how, w).

(** Code without effects *)
Definition lift {A} (o : outcome A) : M A := λ w,
  match o with
  | Ret a => (Val a, w)
  | Throw e => (Raised e, w)
  | Undef u => (Ended (Crash u), w)
  end.

Definition add_event (e : event) (w : world) : world :=
  {| trace := trace w ++ [e]; signaled := signaled w; pcaps := pcaps w;
     handled := handled w; end_reasons := end_reasons w; objects := objects w;
     to_syslog := to_syslog w |}.

Definition call `{System} {A} (c : syscall A) : M A := λ w,
  let r := reply (trace w) c in (Val r, add_event (Event c r) w).

(** [std::runtime_error(msg + strerror(errno))] *)
Definition raise_errno `{System} {A} (msg : string) : M A := λ w,
  (Raised (Exn runtime_error (msg +:+ strerror_errno (trace w))), w).

(** [try { m } catch (std::exception const &e) { h e }] *)
Definition catch {A} (m : M A) (h : exn → M A) : M A := λ w,
  match m w with
  | (Raised e, w') => h e w'
  | r => r
  end.

(** A destructor runs [cleanup] on the normal and on the exceptional exit. *)
Definition finally {A} (m : M A) (cleanup : M unit) : M A := λ w,
  match m w with
  | (Val a, w') => (cleanup ≫= λ _, mret a) w'
  | (Raised e, w') => (cleanup ≫= λ _, rethrow e) w'
  | r => r
  end.

(** Runs [cleanup] only when an exception passes. *)
Definition on_raise {A} (m : M A) (cleanup : M unit) : M A := λ w,
  match m w with
  | (Raised e, w') => (cleanup ≫= λ _, rethrow e) w'
  | r => r
  end.

(** Runs [m] to its end and hands an exception on as a value. *)
Definition attempt {A} (m : M A) : M (outcome A) := λ w,
  match m w with
  | (Val a, w') => (Val (Ret a), w')
  | (Raised e, w') => (Val (Throw e), w')
  | (Ended how, w') => (Ended how, w')
  end.

(** An exception which leaves a destructor or a thread ends the process. *)
Definition noexcept {A} (m : M A) : M A := λ w,
  match m w with
  | (Raised _, w') => (Ended Terminate, w')
  | r => r
  end.

Fixpoint mapM_ {A} (f : A → M unit) (l : list A) : M unit :=
  match l with
  | [] => mret tt
  | x :: l => f x ≫= λ _, mapM_ f l
  end.

(** The monad's own computations in front of a continuation *)
Lemma lift_Ret_bind {A B} (a : A) (f : A → M B) : lift (Ret a) ≫= f = f a.
Proof. done. Qed.
Lemma ret_bind {A B} (a : A) (f : A → M B) : mret a ≫= f = f a.
Proof. done. Qed.
Lemma bind_run {A B} (m : M A) (f : A → M B) w :
  (m ≫= f) w = match m w with
               | (Val a, w') => f a w'
               | (Raised e, w') => (Raised e, w')
               | (Ended how, w') => (Ended how, w')
               end.
Proof. done. Qed.

(** ** Threads

    The [std::thread] member of an object is joinable when it has been started
    and not joined since. *)
Definition thread_step (owner : nat) (running : bool) (e : event) : bool :=
  let '(Event c _) := e in
  match c with
  | Thread_start o => if decide (o = owner) then true else running
  | Thread_join o => if decide (o = owner) then false else running
  | _ => running
  end.
Definition thread_joinable (h : history) (owner : nat) : bool :=
  foldl (thread_step owner) false h.

(** [member = std::thread(...)]: a joinable member must not be overwritten. *)
Definition thread_assign `{System} (owner : nat) : M unit :=
  w ← get;
  if thread_joinable (trace w) owner then end_process Terminate else call (Thread_start owner).

(** [if (member.joinable()) { member.join(); }] *)
Definition thread_join_if_joinable `{System} (owner : nat) : M unit :=
  w ← get;
  if thread_joinable (trace w) owner then call (Thread_join owner) else mret tt.

(** ** Reasoning: weakest preconditions

    [wp m Q E w]: running [m] in [w] ends with a value and a world in [Q], with
    an exception in [E], or the process ends. *)
Definition wp {A} (m : M A) (Q : A → world → Prop) (E : exn → world → Prop) (w : world) : Prop :=
  match m w with
  | (Val a, w') => Q a w'
  | (Raised e, w') => E e w'
  | (Ended _, _) => True
  end.

Lemma wp_mono {A} (m : M A) (Q Q' : A → world → Prop) (E E' : exn → world → Prop) w :
  wp m Q E w → (∀ a w', Q a w' → Q' a w') → (∀ e w', E e w' → E' e w') → wp m Q' E' w.
Proof. unfold wp. destruct (m w) as [[|?|?] ?]; auto. Qed.

Lemma wp_ret {A} (a : A) (Q : A → world → Prop) E w : Q a w → wp (mret a) Q E w.
Proof. done. Qed.

Lemma wp_bind {A B} (m : M A) (f : A → M B) Q E w :
  wp m (λ a, wp (f a) Q E) E w → wp (m ≫= f) Q E w.
Proof. unfold wp, mbind, M_bind. by destruct (m w) as [[|?|?] ?]. Qed.

Lemma wp_raise {A} k msg (Q : A → world → Prop) (E : exn → world → Prop) w :
  E (Exn k msg) w → wp (raise_exn k msg) Q E w.
Proof. done. Qed.

Lemma wp_raise_errno `{System} {A} msg (Q : A → world → Prop) (E : exn → world → Prop) w :
  (∀ e, E e w) → wp (raise_errno msg) Q E w.
Proof. intros HE. apply HE. Qed.

Lemma wp_end {A} how (Q : A → world → Prop) E w : wp (end_process how) Q E w.
Proof. done. Qed.

Lemma wp_lift {A} (o : outcome A) (Q : A → world → Prop) (E : exn → world → Prop) w :
  (∀ a, o = Ret a → Q a w) → (∀ e, o = Throw e → E e w) → wp (lift o) Q E w.
Proof. unfold wp, lift. destruct o; auto. Qed.

Lemma wp_call `{System} {A} (c : syscall A) (Q : A → world → Prop) E w :
  (∀ r, Q r (add_event (Event c r) w)) → wp (call c) Q E w.
Proof. intros HQ. apply HQ. Qed.

Lemma wp_finally {A} (m : M A) cleanup (Q : A → world → Prop) E w :
  wp m (λ a, wp cleanup (λ _, Q a) E) (λ e, wp cleanup (λ _, E e) E) w →
  wp (finally m cleanup) Q E w.
Proof.
  unfold wp, finally, rethrow, mbind, M_bind, mret, M_ret.
  destruct (m w) as [[|?|?] w']; try done; by destruct (cleanup w') as [[|?|?] ?].
Qed.

Lemma wp_on_raise {A} (m : M A) cleanup (Q : A → world → Prop) E w :
  wp m Q (λ e, wp cleanup (λ _, E e) E) w → wp (on_raise m cleanup) Q E w.
Proof.
  unfold wp, on_raise, rethrow, mbind, M_bind.
  destruct (m w) as [[|?|?] w']; try done; by destruct (cleanup w') as [[|?|?] ?].
Qed.

Lemma wp_noexcept {A} (m : M A) (Q : A → world → Prop) E w :
  wp m Q (λ _ _, True) w → wp (noexcept m) Q E w.
Proof. unfold wp, noexcept. by destruct (m w) as [[|?|?] w']. Qed.

Lemma wp_attempt {A} (m : M A) (Q : outcome A → world → Prop) E w :
  wp m (λ a, Q (Ret a)) (λ e, Q (Throw e)) w → wp (attempt m) Q E w.
Proof. unfold wp, attempt. by destruct (m w) as [[|?|?] w']. Qed.

Lemma wp_catch {A} (m : M A) h (Q : A → world → Prop) E w :
  wp m Q (λ e, wp (h e) Q E) w → wp (catch m h) Q E w.
Proof. unfold wp, catch. by destruct (m w) as [[|?|?] w']. Qed.

Lemma wp_get (Q : world → world → Prop) E w : Q w w → wp get Q E w.
Proof. done. Qed.
Lemma wp_modify f (Q : unit → world → Prop) E w : Q tt (f w) → wp (modify f) Q E w.
Proof. done. Qed.

(** Uses a specification and weakens its postconditions. *)
Tactic Notation "wp_use" uconstr(H) := eapply wp_mono; [eapply H|cbv beta..].

(** One step of symbolic execution *)
Ltac wp_step :=
  lazymatch goal with
  | |- wp (mbind _ _) _ _ _ => apply wp_bind
  | |- wp (mret _) _ _ _ => apply wp_ret
  | |- wp (call _) _ _ _ => apply wp_call; intros ?
  | |- wp (raise_exn _ _) _ _ _ => apply wp_raise
  | |- wp (raise_errno _) _ _ _ => apply wp_raise_errno; intros ?
  | |- wp (end_process _) _ _ _ => apply wp_end
  | |- wp (lift _) _ _ _ => apply wp_lift; intros ? ?
  | |- wp (finally _ _) _ _ _ => apply wp_finally
  | |- wp (on_raise _ _) _ _ _ => apply wp_on_raise
  | |- wp (noexcept _) _ _ _ => apply wp_noexcept
  | |- wp (catch _ _) _ _ _ => apply wp_catch
  | |- wp (attempt _) _ _ _ => apply wp_attempt
  | |- wp get _ _ _ => apply wp_get
  | |- wp (modify _) _ _ _ => apply wp_modify
  | |- wp (match ?x with _ => _ end) _ _ _ => destruct x eqn:?
  end; cbv beta.
Ltac wp_run := repeat wp_step.

(** ** Reasoning: what a computation leaves alone

    [steps R m]: however [m] ends, the world it leaves is related to the one it
    started in.  For a preorder [R] this is closed under all ways of composing
    computations. *)
Definition steps {A} (R : relation world) (m : M A) : Prop := ∀ w, R w (m w).2.

Section steps.
Context (R : relation world) `{!PreOrder R}.

Lemma steps_pure {A} (m : M A) : (∀ w, (m w).2 = w) → steps R m.
Proof. intros Hm w. by rewrite Hm. Qed.
Lemma steps_ret {A} (a : A) : steps R (mret a).
Proof. by apply steps_pure. Qed.
Lemma steps_raise {A} k msg : steps R (raise_exn (A:=A) k msg).
Proof. by apply steps_pure. Qed.
Lemma steps_raise_errno `{System} {A} msg : steps R (raise_errno (A:=A) msg).
Proof. by apply steps_pure. Qed.
Lemma steps_rethrow {A} e : steps R (rethrow (A:=A) e).
Proof. by apply steps_pure. Qed.
Lemma steps_end {A} how : steps R (end_process (A:=A) how).
Proof. by apply steps_pure. Qed.
Lemma steps_get : steps R get.
Proof. by apply steps_pure. Qed.
Lemma steps_lift {A} (o : outcome A) : steps R (lift o).
Proof. apply steps_pure. intros w. by destruct o. Qed.
Lemma steps_call `{System} {A} (c : syscall A) :
  (∀ w r, R w (add_event (Event c r) w)) → steps R (call c).
Proof. intros Hc w. apply Hc. Qed.
Lemma steps_modify f : (∀ w, R w (f w)) → steps R (modify f).
Proof. intros Hf w. apply Hf. Qed.

Lemma steps_bind {A B} (m : M A) (f : A → M B) :
  steps R m → (∀ a, steps R (f a)) → steps R (m ≫= f).
Proof.
  intros Hm Hf w. specialize (Hm w). unfold mbind, M_bind.
  destruct (m w) as [[a|e|u] w']; [|done..]. cbn in Hm. by etrans; [|apply Hf].
Qed.

Lemma steps_finally {A} (m : M A) cleanup :
  steps R m → steps R cleanup → steps R (finally m cleanup).
Proof.
  intros Hm Hc w. specialize (Hm w). unfold finally.
  destruct (m w) as [[a|e|u] w']; [| |done]; cbn in Hm; (etrans; [exact Hm|]).
  all: apply steps_bind; [done|intros _; auto using steps_ret, steps_rethrow].
Qed.

Lemma steps_on_raise {A} (m : M A) cleanup :
  steps R m → steps R cleanup → steps R (on_raise m cleanup).
Proof.
  intros Hm Hc w. specialize (Hm w). unfold on_raise.
  destruct (m w) as [[a|e|u] w']; [done| |done]; cbn in Hm; (etrans; [exact Hm|]).
  apply steps_bind; [done|intros _; apply steps_rethrow].
Qed.

Lemma steps_catch {A} (m : M A) h :
  steps R m → (∀ e, steps R (h e)) → steps R (catch m h).
Proof.
  intros Hm Hc w. specialize (Hm w). unfold catch.
  destruct (m w) as [[a|e|u] w']; [done| |done]. by etrans; [|apply Hc].
Qed.

Lemma steps_noexcept {A} (m : M A) : steps R m → steps R (noexcept m).
Proof. intros Hm w. specialize (Hm w). unfold noexcept. by destruct (m w) as [[a|e|u] w']. Qed.
Lemma steps_attempt {A} (m : M A) : steps R m → steps R (attempt m).
Proof. intros Hm w. specialize (Hm w). unfold attempt. by destruct (m w) as [[a|e|u] w']. Qed.

Lemma steps_mapM_ {A} (f : A → M unit) l : (∀ x, steps R (f x)) → steps R (mapM_ f l).
Proof.
  intros Hf. induction l as [|x l IH]; cbn; [apply steps_ret|].
  by apply steps_bind; [|intros _].
Qed.

Lemma wp_steps {A} (m : M A) w : steps R m → wp m (λ _, R w) (λ _, R w) w.
Proof. intros Hm. specialize (Hm w). unfold wp. by destruct (m w) as [[|?|?] w']. Qed.
End steps.

Lemma wp_of_steps {A} R (m : M A) (Q : A → world → Prop) (E : exn → world → Prop) w :
  steps R m → (∀ a w', R w w' → Q a w') → (∀ e w', R w w' → E e w') → wp m Q E w.
Proof. intros Hm HQ HE. specialize (Hm w). unfold wp. destruct (m w) as [[|?|?] w']; auto. Qed.

Lemma wp_and_steps {A} R (m : M A) (Q : A → world → Prop) (E : exn → world → Prop) w :
  wp m Q E w → steps R m → wp m (λ a w', Q a w' ∧ R w w') (λ e w', E e w' ∧ R w w') w.
Proof. intros Hm HR. specialize (HR w). unfold wp in *. destruct (m w) as [[|?|?] w']; auto. Qed.

Lemma steps_and {A} (R1 R2 : relation world) (m : M A) :
  steps R1 m → steps R2 m → steps (λ w w', R1 w w' ∧ R2 w w') m.
Proof. intros H1 H2 w. split; auto. Qed.

Lemma steps_mono {A} (R R' : relation world) (m : M A) :
  steps R m → (∀ w w', R w w' → R' w w') → steps R' m.
Proof. intros Hm HR w. apply HR, Hm. Qed.

(** [m] only adds calls for which [P] holds. *)
Definition extends (P : event → Prop) (w w' : world) : Prop :=
  ∃ h, trace w' = trace w ++ h ∧ Forall P h.
Abbreviation emits P := (steps (extends P)).

#[export] Instance extends_preorder P : PreOrder (extends P).
Proof.
  split.
  - intros w. exists []. by rewrite app_nil_r.
  - intros w1 w2 w3 (h1 & Hw2 & ?) (h2 & Hw3 & ?). exists (h1 ++ h2).
    rewrite Hw3, Hw2, <-(assoc_L (++)). split; [done|by apply Forall_app].
Qed.

Lemma extends_event {A} (P : event → Prop) (c : syscall A) r w :
  P (Event c r) → extends P w (add_event (Event c r) w).
Proof. intros. exists [Event c r]. by auto. Qed.

Lemma extends_same P w w' : trace w' = trace w → extends P w w'.
Proof. intros E. exists []. by rewrite E, app_nil_r. Qed.

Lemma extends_mono (P Q : event → Prop) w w' :
  extends P w w' → (∀ e, P e → Q e) → extends Q w w'.
Proof. intros (h & ? & ?) ?. exists h. eauto using Forall_impl. Qed.

(** Whatever is called, the history only grows. *)
Abbreviation anything := (extends (λ _, True)).
Lemma to_anything {A} P (m : M A) : emits P m → steps anything m.
Proof. intros Hm w. destruct (Hm w) as (h & Ht & _). exists h. split; [done|]. by apply Forall_true. Qed.

#[export] Hint Extern 0 (PreOrder _) => apply _ : proxy.

(** The registered objects and the installed handlers stay the same. *)
Definition same_registry (w w' : world) : Prop :=
  pcaps w' = pcaps w ∧ handled w' = handled w.
#[export] Instance same_registry_preorder : PreOrder same_registry.
Proof.
  split; [by intros w|]. intros w1 w2 w3 [Hp1 Hh1] [Hp2 Hh2]. unfold same_registry.
  by rewrite Hp2, Hh2.
Qed.

(** [m] stays in [R], and a value it returns satisfies [Q]. *)
Definition steps_post {A} (R : relation world) (m : M A) (Q : A → Prop) : Prop :=
  steps R m ∧ ∀ w a w', m w = (Val a, w') → Q a.

Section steps_post.
Context (R : relation world) `{!PreOrder R}.

Lemma post_ret {A} (a : A) (Q : A → Prop) : Q a → steps_post R (mret a) Q.
Proof. intros Ha. split; [by apply steps_ret|]. by intros w a' w' [= <-]. Qed.
Lemma post_steps {A} (m : M A) : steps R m → steps_post R m (λ _, True).
Proof. by split. Qed.
Lemma post_bind {A B} (m : M A) (f : A → M B) (P : A → Prop) (Q : B → Prop) :
  steps_post R m P → (∀ a, P a → steps_post R (f a) Q) → steps_post R (m ≫= f) Q.
Proof.
  intros [Hm HP] Hf. split.
  - intros w. specialize (Hm w). unfold mbind, M_bind.
    destruct (m w) as [[a|e|u] w1] eqn:E; [|exact Hm..]. cbn in Hm.
    etrans; [exact Hm|]. by apply (Hf a (HP _ _ _ E)).
  - intros w b w'. unfold mbind, M_bind. destruct (m w) as [[a|e|u] w1] eqn:E; [|done..].
    by apply (Hf a (HP _ _ _ E)).
Qed.
Lemma post_on_raise {A} (m : M A) cleanup (Q : A → Prop) :
  steps_post R m Q → steps R cleanup → steps_post R (on_raise m cleanup) Q.
Proof.
  intros [Hm HQ] Hc. split; [by apply steps_on_raise|]. intros w a w'. unfold on_raise.
  destruct (m w) as [[a'|e|u] w1] eqn:E; [|unfold rethrow, mbind, M_bind; by destruct (cleanup w1) as [[|?|?] ?]|done].
  intros [= <- <-]. by eapply HQ.
Qed.
End steps_post.

(** Closes a goal [steps R m] as far as the structure of [m] goes. *)
Ltac steps_step :=
  lazymatch goal with
  | |- steps _ (mbind _ _) => apply steps_bind; [apply _| |intros ?]
  | |- steps _ (mret _) => apply steps_ret; apply _
  | |- steps _ (raise_exn _ _) => apply steps_raise; apply _
  | |- steps _ (raise_errno _) => apply steps_raise_errno; apply _
  | |- steps _ (rethrow _) => apply steps_rethrow; apply _
  | |- steps _ (end_process _) => apply steps_end; apply _
  | |- steps _ get => apply steps_get; apply _
  | |- steps _ (lift _) => apply steps_lift; apply _
  | |- steps _ (finally _ _) => apply steps_finally; [apply _|..]
  | |- steps _ (on_raise _ _) => apply steps_on_raise; [apply _|..]
  | |- steps _ (catch _ _) => apply steps_catch; [apply _| |intros ?]
  | |- steps _ (noexcept _) => apply steps_noexcept
  | |- steps _ (attempt _) => apply steps_attempt
  | |- steps _ (mapM_ _ _) => apply steps_mapM_; [apply _|intros ?]
  | |- steps _ (match ?x with _ => _ end) => destruct x eqn:?
  | |- steps _ (call _) =>
      apply steps_call; intros ? ?;
      try solve [apply extends_event; solve [assumption | done] | by split]
  | |- steps _ (modify _) =>
      apply steps_modify; intros ?; try solve [by apply extends_same | by split]
  | |- steps _ _ => solve [eauto with proxy]
  end; cbv beta zeta.
Ltac steps_tac := repeat steps_step.

(** ** Reasoning: how a computation may end the process

    [ends P m]: when [m] ends the process, it ends it in a way [P] allows. *)
Definition ends {A} (P : ending → Prop) (m : M A) : Prop :=
  ∀ w how w', m w = (Ended how, w') → P how.

Section ends.
Context (P : ending → Prop).

Lemma ends_ret {A} (a : A) : ends P (mret a).
Proof. by intros w how w'. Qed.
Lemma ends_raise {A} k msg : ends P (raise_exn (A:=A) k msg).
Proof. by intros w how w'. Qed.
Lemma ends_raise_errno `{System} {A} msg : ends P (raise_errno (A:=A) msg).
Proof. by intros w how w'. Qed.
Lemma ends_end {A} how : P how → ends P (end_process (A:=A) how).
Proof. by intros HP w how' w' [= <- <-]. Qed.
Lemma ends_get : ends P get.
Proof. by intros w how w'. Qed.
Lemma ends_call `{System} {A} (c : syscall A) : ends P (call c).
Proof. by intros w how w'. Qed.
Lemma ends_modify f : ends P (modify f).
Proof. by intros w how w'. Qed.
Lemma ends_lift {A} (o : outcome A) : (∀ u, o = Undef u → P (Crash u)) → ends P (lift o).
Proof. intros HP w how w'. destruct o; [done..|]. intros [= <- <-]. by apply HP. Qed.
Lemma ends_bind {A B} (m : M A) (f : A → M B) :
  ends P m → (∀ a, ends P (f a)) → ends P (m ≫= f).
Proof.
  intros Hm Hf w how w'. unfold mbind, M_bind. destruct (m w) as [[a|e|u] w1] eqn:E; [|done|].
  - apply Hf.
  - intros [= <- <-]. by eapply Hm.
Qed.
Lemma ends_finally {A} (m : M A) cleanup : ends P m → ends P cleanup → ends P (finally m cleanup).
Proof.
  intros Hm Hc w how w'. unfold finally. destruct (m w) as [[a|e|u] w1] eqn:E.
  1,2: apply ends_bind; [done|]; by intros _ ? ? ?.
  intros [= <- <-]. by eapply Hm.
Qed.
Lemma ends_on_raise {A} (m : M A) cleanup : ends P m → ends P cleanup → ends P (on_raise m cleanup).
Proof.
  intros Hm Hc w how w'. unfold on_raise. destruct (m w) as [[a|e|u] w1] eqn:E; [done| |].
  - apply ends_bind; [done|]; by intros _ ? ? ?.
  - intros [= <- <-]. by eapply Hm.
Qed.
Lemma ends_noexcept {A} (m : M A) : P Terminate → ends P m → ends P (noexcept m).
Proof.
  intros HP Hm w how w'. unfold noexcept. destruct (m w) as [[a|e|u] w1] eqn:E; [done|by intros [= <- <-]|].
  intros [= <- <-]. by eapply Hm.
Qed.
End ends.

(** Closes a goal [ends P m] as far as the structure of [m] goes. *)
Ltac ends_step :=
  lazymatch goal with
  | |- ends _ (mbind _ _) => apply ends_bind; [|intros ?]
  | |- ends _ (mret _) => apply ends_ret
  | |- ends _ (raise_exn _ _) => apply ends_raise
  | |- ends _ (raise_errno _) => apply ends_raise_errno
  | |- ends _ (end_process _) => apply ends_end; try done
  | |- ends _ get => apply ends_get
  | |- ends _ (call _) => apply ends_call
  | |- ends _ (modify _) => apply ends_modify
  | |- ends _ (lift _) => apply ends_lift; intros ? ?
  | |- ends _ (finally _ _) => apply ends_finally
  | |- ends _ (on_raise _ _) => apply ends_on_raise
  | |- ends _ (noexcept _) => apply ends_noexcept; [try done|]
  | |- ends _ (match ?x with _ => _ end) => destruct x eqn:?
  end; cbv beta zeta.
Ltac ends_tac := repeat ends_step.

(** ** A concrete environment

    Every call succeeds, children exit with status 0, nothing is captured. *)
Definition default_reply {A} (c : syscall A) : A :=
  match c in syscall A return A with
  | File_actions_init | File_actions_adddup2 _ _ => 0
  | Posix_spawnp _ _ _ => (0, 100)
  | Waitpid _ => Some 0
  | Sigaction _ => true
  | Signal_arrived => false
  | Fileno std_in => 0
  | Fileno std_out => 1
  | Fileno std_err => 2
  | Fflush _ | Stat _ => true
  | Pipe => Some (10, 11)
  | Fcntl_getfd _ => 0
  | Fcntl_setfd _ _ => true
  | Poll_in _ => 0
  | Read _ _ => Some []
  | Close _ => true
  | Open_file _ => None
  | Socket_open _ _ _ => 12
  | Setsockopt _ _ _ _ => true
  | Sendto _ buf _ _ => Some (Z.of_nat (length buf))
  | Ioctl _ _ ifr => Some ifr
  | Pcap_create _ _ => None
  | Pcap_set_snaplen _ _ | Pcap_set_promisc _ _ | Pcap_set_timeout _ _ | Pcap_activate _ => 0
  | Pcap_datalink _ => 113
  | Pcap_compile _ _ | Pcap_setfilter _ => 0
  | Pcap_loop _ _ => {| happenings := []; loop_ret := Some 0 |}
  | Pcap_breakloop _ => tt
  | Loop_thread_joinable _ => false
  | Pthread_cancel _ => tt
  | Pcap_inject _ data => Z.of_nat (length data)
  | Pcap_geterr _ => ""
  | Pcap_close _ => tt
  | Atomic_load _ => false
  | Thread_start _ | Thread_join _ | Atomic_store _ _ | Sleep_ms _ => tt
  end.

Definition default_system : System :=
  {| reply := λ A _ c, default_reply c; strerror_errno := λ _, "error" |}.
