(* ===== verification/IpAddress.v ===== *)
(** * IP addresses: [src/include/ip_address.h], [src/sleep-proxy/ip_address.cpp]

    The union of [in_addr] and [in6_addr] is its sixteen bytes of storage; an
    IPv4 address occupies the first four.  The main results: [parse_ip] only
    returns well-formed addresses, it reads back what [with_subnet] prints, and
    [operator==] compares exactly family, prefix length and the significant
    bytes. *)
From S2P Require Import Prelude ContainerUtils IntUtils NetText NetTextRef.
Local Open Scope Z_scope.

Record IP_address := { family : Z; address : list Z; subnet : Z }.

#[export] Instance IP_address_eq_dec : EqDecision IP_address.
Proof. solve_decision. Defined.

(** [IP_address{}]: value initialisation *)
Definition IP_address_default : IP_address :=
  {| family := 0; address := replicate 16 0; subnet := 0 |}.

(** Writing [bytes] to the start of the union *)
Definition union_write (bytes storage : list Z) : list Z :=
  bytes ++ drop (length bytes) storage.

(** [std::string::find] and [rfind] of one character *)
Definition find_char (c : ascii) (s : string) : option nat :=
  fst <$> list_find (c =.) (chars s).
Definition rfind_char (c : ascii) (s : string) : option nat :=
  (λ p, (String.length s - 1 - p.1)%nat) <$> list_find (c =.) (reverse (chars s)).

Definition ip_chars : string := "0123456789.abcdefghijklmnopqrstuvwxyzABCDEF:/%".

Section ip_address.
Context `{Net_text} `{Libc}.

Definition get_af (ip : string) : outcome Z :=
  match inet_pton AF_INET ip with
  | Some _ => Ret AF_INET
  | None =>
      match inet_pton AF_INET6 ip with
      | Some _ => Ret AF_INET6
      | None => throw runtime_error ("ip " +:+ ip +:+ " is not as IPv4 or IPv6 recognizeable")
      end
  end.

Definition get_std_subnet (version : Z) (ip_subnet : list string) : outcome Z :=
  if decide (version = AF_INET6)
  then ip ← vec_at ip_subnet 0;
       Ret (if decide (ip ≠ "::1") then 64 else 128)
  else Ret 24.

Definition get_subnet (version : Z) (ip_subnet : list string) : outcome Z :=
  subnet ← (if decide (1 < length ip_subnet)%nat
            then s ← vec_at ip_subnet 1; str_to_integral uint8_t s
            else get_std_subnet version ip_subnet);
  let maxsubnetlen := if decide (version = AF_INET) then 32 else 128 in
  if decide (maxsubnetlen < subnet)
  then throw invalid_argument
         ("Subnet " +:+ to_string uint8_t subnet +:+ " is not in range 0.."
          +:+ to_string uint8_t maxsubnetlen)
  else Ret subnet.

(** [IP_address::pure] *)
Definition pure (ipa : IP_address) : string :=
  default "" (inet_ntop (family ipa) (address ipa)).

(** [IP_address::with_subnet] and [operator<<] *)
Definition with_subnet (ipa : IP_address) : string :=
  pure ipa +:+ "/" +:+ to_string int_t (subnet ipa).
Definition print_ip (ipa : IP_address) : string := with_subnet ipa.
Definition get_pure_ip (ipa : IP_address) : string := pure ipa.

(** [IP_address::operator==] *)
Definition ip_eqb (lhs rhs : IP_address) : bool :=
  let equal := bool_decide (family lhs = family rhs) in
  let equal := equal && bool_decide (subnet lhs = subnet rhs) in
  equal && bool_decide (pure lhs = pure rhs).

(** [parse_ip] *)
Definition parse_ip (ip : string) : outcome IP_address :=
  if decide (ip = "") then throw invalid_argument "given ip is empty" else
  _ ← test_characters ip ip_chars ("ip contains invalid characters: " +:+ ip);
  if decide (find_char "/" ip ≠ rfind_char "/" ip)
  then throw invalid_argument "Too many / in IP" else
  without_scope ← vec_at (split_string ip "%") 0;
  let ip_subnet := split_string without_scope "/" in
  ip_text ← vec_at ip_subnet 0;
  version ← get_af ip_text;
  subnet ← get_subnet version ip_subnet;
  Ret {| family := version;
         address := match inet_pton version ip_text with
                    | Some bytes => union_write bytes (address IP_address_default)
                    | None => address IP_address_default
                    end;
         subnet := subnet |}.

(** ** Well-formed addresses *)

Definition max_subnet (af : Z) : Z := if decide (af = AF_INET) then 32 else 128.

Record ip_wf (ipa : IP_address) : Prop := {
  ip_wf_family : family ipa = AF_INET ∨ family ipa = AF_INET6;
  ip_wf_length : length (address ipa) = 16%nat;
  ip_wf_bytes : bytes_wf (address ipa);
  ip_wf_subnet : 0 ≤ subnet ipa ≤ max_subnet (family ipa);
}.

(** The bytes which make up the address *)
Definition significant (ipa : IP_address) : list Z :=
  take (address_size (family ipa)) (address ipa).

Lemma significant_wf ipa :
  ip_wf ipa → length (significant ipa) = address_size (family ipa) ∧ bytes_wf (significant ipa).
Proof.
  intros [Hf Hl Hb _]. unfold significant. split.
  - rewrite length_take, Hl. unfold address_size. case_decide; lia.
  - by apply Forall_take.
Qed.

Context `{!Net_text_ok _}.

Lemma get_af_spec ip af :
  get_af ip = Ret af →
  (af = AF_INET ∨ af = AF_INET6) ∧ ∃ b, inet_pton af ip = Some b.
Proof.
  unfold get_af. destruct (inet_pton AF_INET ip) eqn:E4.
  { intros [= <-]. eauto. }
  destruct (inet_pton AF_INET6 ip) eqn:E6; [|done]. intros [= <-]. eauto.
Qed.

Lemma pton_wf af s b :
  inet_pton af s = Some b → length b = address_size af ∧ bytes_wf b ∧ (af = AF_INET ∨ af = AF_INET6).
Proof.
  intros Hp. destruct (decide (af = AF_INET)) as [->|].
  { destruct (pton_ipv4 _ _ Hp) as (? & ? & _). auto. }
  destruct (decide (af = AF_INET6)) as [->|]; [|by rewrite pton_other in Hp].
  destruct (pton_ipv6 _ _ Hp) as (? & ? & _). auto.
Qed.

Lemma get_std_subnet_range af l v :
  af = AF_INET ∨ af = AF_INET6 → get_std_subnet af l = Ret v → 0 ≤ v ≤ max_subnet af.
Proof.
  unfold get_std_subnet, max_subnet. intros Haf Hv.
  destruct (decide (af = AF_INET6)) as [->|].
  - outcome_inv. rewrite (decide_False (P := AF_INET6 = AF_INET)) by done. case_decide; lia.
  - destruct Haf as [-> | ->]; [|done]. outcome_inv. rewrite decide_True by done. lia.
Qed.

Lemma get_subnet_range af l v :
  af = AF_INET ∨ af = AF_INET6 → get_subnet af l = Ret v → 0 ≤ v ≤ max_subnet af.
Proof.
  intros Haf Hv. unfold get_subnet in Hv. outcome_inv.
  fold (max_subnet af) in *. case_decide as Hmax; [done|]. outcome_inv.
  split; [|lia]. case_decide as Hl.
  - outcome_inv. edestruct (str_to_integral_range uint8_t) as [Hr _]; [|done|exact Hr].
    by vm_compute.
  - by edestruct get_std_subnet_range.
Qed.

Lemma union_write_wf b :
  (length b ≤ 16)%nat → bytes_wf b →
  length (union_write b (replicate 16 0)) = 16%nat ∧ bytes_wf (union_write b (replicate 16 0)).
Proof.
  intros Hl Hb. unfold union_write. split.
  - rewrite length_app, length_drop, length_replicate. lia.
  - apply Forall_app. split; [done|]. apply Forall_drop, Forall_replicate. unfold byte_wf. lia.
Qed.

Lemma parse_ip_wf s ipa : parse_ip s = Ret ipa → ip_wf ipa.
Proof.
  unfold parse_ip. intros Hp. case_decide; [done|]. outcome_inv. case_decide; [done|].
  outcome_inv. destruct (get_af_spec _ _ ltac:(eassumption)) as [Haf [b Hb]].
  destruct (pton_wf _ _ _ Hb) as (Hlen & Hbytes & _). rewrite Hb.
  destruct (union_write_wf b) as [? ?]; [|done|].
  { rewrite Hlen. unfold address_size. case_decide; lia. }
  split; cbn; [done..|]. by eapply get_subnet_range.
Qed.

(** ** Reading back what was printed *)

(** The same address with the unused bytes of the union cleared, which is how
    [parse_ip] builds it *)
Definition canonical (ipa : IP_address) : IP_address :=
  {| family := family ipa;
     address := union_write (significant ipa) (replicate 16 0);
     subnet := subnet ipa |}.

Lemma pure_pton ipa :
  ip_wf ipa → inet_pton (family ipa) (pure ipa) = Some (significant ipa).
Proof.
  intros Hwf. destruct (significant_wf ipa Hwf) as [Hl Hb].
  destruct (ntop_pton (family ipa) (significant ipa)) as (s & Hs & Hp); [by apply ip_wf_family|done..|].
  unfold pure, significant in *. by rewrite <-ntop_reads, Hs.
Qed.

Lemma text_chars af s b :
  inet_pton af s = Some b → Forall (λ c, c ∈ ipv6_text_chars) (chars s).
Proof.
  intros Hp. destruct (pton_wf _ _ _ Hp) as (_ & _ & [-> | ->]).
  - destruct (pton_ipv4 _ _ Hp) as (_ & _ & Hc). eapply Forall_impl; [exact Hc|].
    intros c. cbv beta. ascii_check c.
  - by destruct (pton_ipv6 _ _ Hp) as (_ & _ & Hc & _).
Qed.

Lemma text_char_ok c :
  c ∈ ipv6_text_chars → c ∈ chars ip_chars ∧ c ≠ "/"%char ∧ c ≠ "%"%char.
Proof. ascii_check c. Qed.
Lemma digit_char_ok c :
  is_digit 10 c → c ∈ chars ip_chars ∧ c ≠ "/"%char ∧ c ≠ "%"%char.
Proof. ascii_check c. Qed.

Lemma find_rfind_unique c l1 l2 :
  c ∉ l1 → c ∉ l2 →
  find_char c (of_chars (l1 ++ c :: l2)) = rfind_char c (of_chars (l1 ++ c :: l2)).
Proof.
  intros H1 H2. unfold find_char, rfind_char. rewrite !chars_of_chars.
  assert (∀ l1 l2, c ∉ l1 → list_find (c =.) (l1 ++ c :: l2) = Some (length l1, c)) as Hf.
  { intros k1 k2 Hk. apply list_find_Some. split_and!; [by rewrite list_lookup_middle|done|].
    intros j y Hj Hjk ->. rewrite lookup_app_l in Hj by done.
    apply Hk. by eapply list_elem_of_lookup_2. }
  rewrite Hf by done. rewrite reverse_app, reverse_cons, <-(assoc_L (++)). cbn [app].
  rewrite Hf by (by rewrite elem_of_reverse). cbn. f_equal.
  rewrite length_reverse. clear. rewrite <-(chars_of_chars (l1 ++ c :: l2)) at 1.
  assert (∀ s, String.length s = length (chars s)) as -> by (intros s; induction s; cbn; congruence).
  rewrite !chars_of_chars, length_app. cbn. lia.
Qed.

Lemma not_elem_of_Forall (P : ascii → Prop) c l : Forall P l → ¬ P c → c ∉ l.
Proof. intros Hl Hc Hin. rewrite Forall_forall in Hl. by apply Hc, Hl. Qed.

Lemma get_af_pton af s b : inet_pton af s = Some b → get_af s = Ret af.
Proof.
  intros Hp. unfold get_af. destruct (pton_wf _ _ _ Hp) as (_ & _ & [-> | ->]).
  - by rewrite Hp.
  - destruct (inet_pton AF_INET s) eqn:E; [|by rewrite Hp].
    apply pton_ipv4_not_ipv6 in E. congruence.
Qed.

Lemma get_subnet_given af s n :
  0 ≤ n ≤ max_subnet af → get_subnet af [s; pretty n] = Ret n.
Proof.
  intros Hn. unfold get_subnet. rewrite (decide_True (P := (1 < length [s; pretty n])%nat)) by (cbn; lia).
  cbn [vec_at lookup list_lookup mbind outcome_bind].
  change (vec_at [s; pretty n] 1) with (Ret (pretty n)). cbn [mbind outcome_bind].
  rewrite str_to_integral_pretty; [|by vm_compute|].
  - cbn [mbind outcome_bind]. fold (max_subnet af).
    by rewrite (decide_False (P := max_subnet af < n)) by lia.
  - unfold in_range, lowest, max. cbn. unfold max_subnet in Hn. case_decide; lia.
Qed.

Lemma get_subnet_default af s :
  af = AF_INET ∨ af = AF_INET6 →
  get_subnet af [s] =
    Ret (if decide (af = AF_INET6) then (if decide (s = "::1") then 128 else 64) else 24).
Proof.
  intros [-> | ->]; [done|]. unfold get_subnet, get_std_subnet.
  rewrite (decide_False (P := (1 < length [s])%nat)) by (cbn; lia).
  rewrite (decide_True (P := AF_INET6 = AF_INET6)) by done.
  change (vec_at [s] 0) with (Ret s). cbn [mbind outcome_bind].
  destruct (decide (s = "::1")) as [->|Hn]; [done|].
  rewrite (decide_True (P := s ≠ "::1")) by done. done.
Qed.

(** [parse_ip] after the checks: the text in front of the slash and the text
    behind it *)
Lemma parse_ip_slash af s b n :
  inet_pton af s = Some b → 0 ≤ n ≤ max_subnet af →
  parse_ip (s +:+ "/" +:+ pretty n)
  = Ret {| family := af; address := union_write b (replicate 16 0); subnet := n |}.
Proof.
  intros Hp Hn. pose proof (text_chars _ _ _ Hp) as Hs.
  destruct (pretty_nonneg_digits n) as [Hd Hne]; [lia|].
  assert (chars (s +:+ "/" +:+ pretty n) = chars s ++ "/"%char :: chars (pretty n)) as Hc
    by by rewrite !chars_app.
  assert ("/"%char ∉ chars s) as Hslash.
  { eapply not_elem_of_Forall; [exact Hs|]. intros ?%text_char_ok. tauto. }
  assert ("/"%char ∉ chars (pretty n)) as Hslash'.
  { eapply not_elem_of_Forall; [exact Hd|]. intros ?%digit_char_ok. tauto. }
  assert ("%"%char ∉ chars (s +:+ "/" +:+ pretty n)) as Hpct.
  { rewrite Hc. apply not_elem_of_app. split; [|apply not_elem_of_cons; split; [done|]].
    - eapply not_elem_of_Forall; [exact Hs|]. intros ?%text_char_ok. tauto.
    - eapply not_elem_of_Forall; [exact Hd|]. intros ?%digit_char_ok. tauto. }
  assert (chars (s +:+ "/" +:+ pretty n) ≠ []) as Hnil by (rewrite Hc; by destruct (chars s)).
  unfold parse_ip. rewrite decide_False by (intros He; by rewrite He in Hnil).
  unfold test_characters. rewrite (proj2 (contains_only_valid_spec _ _)).
  2:{ rewrite Hc. apply Forall_app. split; [|constructor; [|]].
      - eapply Forall_impl; [exact Hs|]. apply text_char_ok.
      - refine (bool_decide_eq_true_1 _ _). by vm_compute.
      - eapply Forall_impl; [exact Hd|]. apply digit_char_ok. }
  cbn [mbind outcome_bind]. rewrite decide_False.
  2:{ intros Hf. apply Hf. rewrite <-(of_chars_chars (s +:+ _)), Hc. by apply find_rfind_unique. }
  unfold split_string. rewrite split_nodelim by done. cbn. rewrite of_chars_chars, Hc.
  rewrite split_delim, split_nodelim by (by rewrite ?chars_nil). cbn. rewrite !of_chars_chars.
  rewrite (get_af_pton _ _ _ Hp). cbn [mbind outcome_bind].
  rewrite get_subnet_given by done. cbn. by rewrite Hp.
Qed.

Lemma ip_eqb_significant a b :
  ip_wf a → ip_wf b →
  ip_eqb a b = true ↔ family a = family b ∧ subnet a = subnet b ∧ significant a = significant b.
Proof.
  intros Ha Hb. unfold ip_eqb. rewrite !andb_true_iff, !bool_decide_eq_true.
  pose proof (pure_pton a Ha) as Pa. pose proof (pure_pton b Hb) as Pb. split.
  - intros [[Hf Hs] Hp]. split_and!; [done..|]. rewrite Hf, Hp in Pa. congruence.
  - intros (Hf & Hs & Hsig). split_and!; [done..|]. unfold pure.
    rewrite <-(ntop_reads _ (address a)), <-(ntop_reads _ (address b)).
    unfold significant in Hsig. by rewrite Hsig, Hf.
Qed.

Lemma canonical_wf ipa : ip_wf ipa → ip_wf (canonical ipa) ∧ significant (canonical ipa) = significant ipa.
Proof.
  intros Hwf. destruct (significant_wf ipa Hwf) as [Hl Hb].
  destruct (union_write_wf (significant ipa)) as [? ?]; [|done|].
  { rewrite Hl. unfold address_size. case_decide; lia. }
  split; [by split; try apply Hwf|]. unfold significant at 1, canonical, union_write.
  cbn [family address]. by rewrite <-Hl, take_app_length.
Qed.
End ip_address.

(** ** Properties *)
Section properties.
Context `{Net_text} `{Libc} `{!Net_text_ok _}.

(** C29: [parse_ip] reads back every address which [with_subnet] prints: the
    result is equal to the original in the sense of [operator==]. *)
Theorem parse_ip_roundtrip ipa :
  ip_wf ipa →
  parse_ip (with_subnet ipa) = Ret (canonical ipa) ∧ ip_eqb (canonical ipa) ipa = true.
Proof.
  intros Hwf. destruct (canonical_wf ipa Hwf) as [Hcw Hcs]. split.
  - unfold with_subnet. change (to_string int_t (subnet ipa)) with (pretty (subnet ipa)).
    rewrite (parse_ip_slash (family ipa) _ (significant ipa)); [done| |].
    + by apply pure_pton.
    + by apply ip_wf_subnet.
  - by apply ip_eqb_significant.
Qed.

(** Whatever text is given, [parse_ip] returns a well-formed address (one of
    the two families, sixteen bytes, a prefix length which fits the family) or
    throws; it never runs into undefined behaviour. *)
Theorem parse_ip_sound s :
  is_defined (parse_ip s) ∧ ∀ ipa, parse_ip s = Ret ipa → ip_wf ipa.
Proof.
  split; [|apply parse_ip_wf].
  unfold parse_ip, get_subnet, get_std_subnet, get_af.
  repeat first [ apply is_defined_Ret | apply is_defined_throw
    | apply test_characters_defined | apply vec_at_defined | apply str_to_integral_defined
    | apply is_defined_bind; [|intros ? _] | case_match ].
Qed.

(** [operator==] on parsed addresses is equality of family, prefix length
    and the bytes of the address, hence an equivalence; the bytes of the union
    behind an IPv4 address play no role. *)
Lemma ip_eqb_correct a b :
  ip_wf a → ip_wf b →
  ip_eqb a b = true ↔ family a = family b ∧ subnet a = subnet b ∧ significant a = significant b.
Proof. apply ip_eqb_significant. Qed.

(** An address text without a prefix length gets the default one: 24 for
    IPv4, 64 for IPv6, except 128 when the text is [::1]. *)
Lemma parse_ip_default_subnet af s b :
  inet_pton af s = Some b → s ≠ "" →
  parse_ip s = Ret {| family := af; address := union_write b (replicate 16 0);
                      subnet := if decide (af = AF_INET6)
                                then (if decide (s = "::1") then 128 else 64) else 24 |}.
Proof.
  intros Hp Hne. pose proof (text_chars _ _ _ Hp) as Hs.
  assert ("/"%char ∉ chars s) as Hslash.
  { eapply not_elem_of_Forall; [exact Hs|]. intros ?%text_char_ok. tauto. }
  assert ("%"%char ∉ chars s) as Hpct.
  { eapply not_elem_of_Forall; [exact Hs|]. intros ?%text_char_ok. tauto. }
  unfold parse_ip. rewrite decide_False by done.
  unfold test_characters. rewrite (proj2 (contains_only_valid_spec _ _)).
  2:{ eapply Forall_impl; [exact Hs|]. apply text_char_ok. }
  cbn [mbind outcome_bind]. rewrite decide_False.
  2:{ intros Hf. apply Hf. unfold find_char, rfind_char.
      assert (list_find ("/"%char =.) (chars s) = None) as ->.
      { apply list_find_None, Forall_forall. by intros x Hx <-. }
      assert (list_find ("/"%char =.) (reverse (chars s)) = None) as ->; [|done].
      apply list_find_None, Forall_forall. intros x Hx <-. by rewrite elem_of_reverse in Hx. }
  unfold split_string. rewrite split_nodelim by (by rewrite ?chars_nil). cbn. rewrite of_chars_chars.
  rewrite split_nodelim by (by rewrite ?chars_nil). cbn. rewrite of_chars_chars.
  rewrite (get_af_pton _ _ _ Hp). cbn [mbind outcome_bind].
  destruct (pton_wf _ _ _ Hp) as (_ & _ & Haf).
  rewrite get_subnet_default by done. cbn [mbind outcome_bind]. by rewrite Hp.
Qed.
End properties.

(** 192.168.1.1/24 and the same address with other bytes in the rest of the union *)
Definition ip_example : IP_address :=
  {| family := AF_INET; address := [192; 168; 1; 1] ++ replicate 12 7; subnet := 24 |}.

Lemma ip_example_wf : ip_wf ip_example.
Proof.
  split; [by left|done| |by vm_compute].
  refine (bool_decide_eq_true_1 _ _). by vm_compute.
Qed.

Lemma parse_ip_roundtrip_witness :
  ip_wf ip_example ∧ with_subnet ip_example = "192.168.1.1/24"
  ∧ @parse_ip ref_net glibc (with_subnet ip_example) = Ret (canonical ip_example)
  ∧ ip_eqb (canonical ip_example) ip_example = true.
Proof.
  split; [apply ip_example_wf|]. split; [by vm_compute|].
  apply (@parse_ip_roundtrip ref_net glibc ref_net_ok), ip_example_wf.
Defined.

Lemma parse_ip_sound_witness :
  is_defined (@parse_ip ref_net glibc "10.0.0.1/33")
  ∧ ∀ ipa, @parse_ip ref_net glibc "10.0.0.1/33" = Ret ipa → ip_wf ipa.
Proof. apply (@parse_ip_sound ref_net glibc ref_net_ok). Defined.

Lemma ip_eqb_correct_witness :
  ip_eqb ip_example (canonical ip_example) = true ↔
  family ip_example = family (canonical ip_example) ∧ subnet ip_example = subnet (canonical ip_example)
  ∧ significant ip_example = significant (canonical ip_example).
Proof.
  apply (@ip_eqb_correct ref_net ref_net_ok); [apply ip_example_wf|].
  apply canonical_wf, ip_example_wf.
Defined.

Lemma parse_ip_default_subnet_witness :
  inet_pton AF_INET "10.0.0.1" = Some [10; 0; 0; 1]
  ∧ @parse_ip ref_net glibc "10.0.0.1"
    = Ret {| family := AF_INET; address := [10; 0; 0; 1] ++ replicate 12 0; subnet := 24 |}.
Proof.
  split; [by vm_compute|].
  apply (@parse_ip_default_subnet ref_net glibc ref_net_ok AF_INET "10.0.0.1" [10; 0; 0; 1]); by vm_compute.
Defined.
