(* ===== verification/Ethernet.v ===== *)
(** * Link layer headers: [src/include/ethernet.h], [src/sleep-proxy/ethernet.cpp]

    Parsers for Ethernet, Linux cooked capture and VLAN headers, the builder of
    an Ethernet header and the conversions of MAC addresses.  The parsers are
    shown to stay inside the packet and to read the fields at the offsets the
    formats prescribe (on hosts of either byte order). *)
From S2P Require Import Prelude ContainerUtils IntUtils NetText NetTextRef.
Local Open Scope Z_scope.

(** ** Constants *)
Definition lcc_header_size : nat := 16.
Definition lcc_address_size : nat := 8.
Definition ethernet_header_size : nat := 14.
Definition ETHERTYPE_WAKE_ON_LAN : Z := 0x0842.
Definition ETHER_ADDR_LEN : nat := 6.
Definition ETHERTYPE_IP : Z := 0x0800.
Definition ETHERTYPE_IPV6 : Z := 0x86dd.
Definition ETHERTYPE_VLAN : Z := 0x8100.
Definition ARPHRD_ETHER : Z := 1.
Definition ARPHRD_LOOPBACK : Z := 772.
Definition DLT_EN10MB : Z := 1.
Definition DLT_LINUX_SLL : Z := 113.

(** ** [struct Link_layer] *)
Record Link_layer := {
  ll_header_length : nat;
  ll_source : ether_addr;
  ll_payload_protocol : Z;
  ll_info : string;
}.

#[export] Instance Link_layer_eq_dec : EqDecision Link_layer.
Proof. solve_decision. Defined.

(** [operator<<(std::ostream &, Link_layer)] *)
Definition print_link_layer (ll : Link_layer) : string := ll_info ll.

(** [to_vector(ether_addr)] *)
Definition to_vector (mac : ether_addr) : list Z := mac.

(** [create_ethernet_header] *)
Definition create_ethernet_header (dmac smac : ether_addr) (type : Z) : list Z :=
  let binary := vec_append (to_vector dmac) (to_vector smac) in
  let binary := binary ++ [static_cast uint8_t (Z.shiftr type 8)] in
  binary ++ [static_cast uint8_t (Z.land type 0xFF)].

Section ethernet.
Context `{Net_text} `{Host}.

Definition mac_to_binary (mac : string) : outcome ether_addr :=
  match ether_aton mac with
  | Some addr => Ret addr
  | None => throw runtime_error ("invalid mac: " +:+ mac)
  end.

Definition binary_to_mac (mac : ether_addr) : string := ether_ntoa mac.

Definition parse_linux_cooked_capture (data : list Z) : outcome Link_layer :=
  _ ← check_type_and_range data lcc_header_size;
  data ← advance 2 data;
  raw ← deref_u16 data;
  let device_type := ntohs raw in
  if decide (device_type ≠ ARPHRD_ETHER ∧ device_type ≠ ARPHRD_LOOPBACK)
  then throw runtime_error
         ("Linux_cooked_capture only supports ethernet or loopback, got: "
          +:+ to_string uint16_t device_type +:+ " (look in net/if_arp.h for value)")
  else
  data ← advance 2 data;
  raw ← deref_u16 data;
  let ll_address_length := ntohs raw in
  if decide (ll_address_length ≠ Z.of_nat ETHER_ADDR_LEN)
  then throw length_error "invalid link address size"
  else
  data ← advance 2 data;
  ether_shost ← copy_n ETHER_ADDR_LEN data;
  data ← advance lcc_address_size data;
  raw ← deref_u16 data;
  let payload_type := ntohs raw in
  Ret {| ll_header_length := lcc_header_size;
         ll_source := ether_shost;
         ll_payload_protocol := payload_type;
         ll_info := "Linux cooked capture: src: " +:+ binary_to_mac ether_shost |}.

Definition parse_ethernet (data : list Z) : outcome Link_layer :=
  let header_size := 14%nat in
  _ ← check_type_and_range data header_size;
  ether_dhost ← copy_n ETHER_ADDR_LEN data;
  data ← advance ETHER_ADDR_LEN data;
  ether_shost ← copy_n ETHER_ADDR_LEN data;
  data ← advance ETHER_ADDR_LEN data;
  raw ← deref_u16 data;
  let ether_type := ntohs raw in
  Ret {| ll_header_length := header_size;
         ll_source := ether_shost;
         ll_payload_protocol := ether_type;
         ll_info := "Ethernet: dst = " +:+ binary_to_mac ether_dhost
                    +:+ ", src = " +:+ binary_to_mac ether_shost |}.

Definition parse_VLAN_Header (data : list Z) : outcome Link_layer :=
  let header_size := 4%nat in
  _ ← check_type_and_range data header_size;
  data ← advance 2 data;
  raw ← deref_u16 data;
  let payload_type := ntohs raw in
  Ret {| ll_header_length := header_size;
         ll_source := replicate 6 0;
         ll_payload_protocol := payload_type;
         ll_info := "VLAN Header" |}.

(** [parse_link_layer]; [None] is the null pointer *)
Definition parse_link_layer (type : Z) (data : list Z) : outcome (option Link_layer) :=
  if decide (type = DLT_LINUX_SLL) then Some <$> parse_linux_cooked_capture data
  else if decide (type = DLT_EN10MB) then Some <$> parse_ethernet data
  else if decide (type = ETHERTYPE_VLAN) then Some <$> parse_VLAN_Header data
  else Ret None.

(** ** Where the fields are *)

(** The 16 bit field at offset [i], in network byte order *)
Definition field16 (i : nat) (data : list Z) : Z :=
  be_u16 (default 0 (data !! i)) (default 0 (data !! S i)).

(** The octets at offset [i] *)
Definition octets (i n : nat) (data : list Z) : list Z := take n (drop i data).

Lemma lookup_default_wf (data : list Z) i :
  bytes_wf data → byte_wf (default 0 (data !! i)).
Proof.
  intros Hd. destruct (data !! i) as [b|] eqn:E; cbn; [|unfold byte_wf; lia].
  by eapply Forall_lookup_1.
Qed.

Lemma field16_range i data : bytes_wf data → 0 ≤ field16 i data < 65536.
Proof.
  intros Hd. pose proof (lookup_default_wf data i Hd). pose proof (lookup_default_wf data (S i) Hd).
  unfold field16, be_u16, byte_wf in *. lia.
Qed.

(** Reading a 16 bit value behind [i] bytes *)
Lemma deref_u16_drop i data :
  bytes_wf data → (i + 2 ≤ length data)%nat →
  deref_u16 (drop i data) = Ret (load_u16 (default 0 (data !! i)) (default 0 (data !! S i))).
Proof.
  intros Hd Hlen.
  destruct (lookup_lt_is_Some_2 data i) as [b0 E0]; [lia|].
  destruct (lookup_lt_is_Some_2 data (S i)) as [b1 E1]; [lia|].
  rewrite (drop_S _ _ _ E0), (drop_S _ _ _ E1). by rewrite E0, E1.
Qed.

Lemma ntohs_field16 i data :
  bytes_wf data →
  ntohs (load_u16 (default 0 (data !! i)) (default 0 (data !! S i))) = field16 i data.
Proof. intros Hd. apply ntohs_load; by apply lookup_default_wf. Qed.

Lemma advance_drop {A} n i (data : list A) :
  (n + i ≤ length data)%nat → advance n (drop i data) = Ret (drop (i + n) data).
Proof.
  intros Hl. rewrite advance_Ret by (rewrite length_drop; lia).
  by rewrite drop_drop.
Qed.
Lemma copy_n_drop {A} n i (data : list A) :
  (n + i ≤ length data)%nat → copy_n n (drop i data) = Ret (take n (drop i data)).
Proof. intros Hl. by rewrite copy_n_Ret by (rewrite length_drop; lia). Qed.
End ethernet.

(** Runs a parser over a packet which is known to be long enough. *)
Ltac run_parser :=
  repeat first
    [ rewrite check_range_ok by (done || (intros ->; cbn in *; lia) || lia)
    | rewrite advance_drop by (cbn; lia)
    | rewrite copy_n_drop by (cbn; lia)
    | rewrite advance_Ret by (cbn; lia)
    | rewrite copy_n_Ret by (cbn; lia)
    | rewrite deref_u16_drop by (done || cbn; lia)
    | rewrite ntohs_field16 by done
    | progress cbn [mbind outcome_bind fmap outcome_fmap Nat.add] ].

Section ethernet_theory.
Context `{Net_text} `{Host}.

Lemma parse_linux_cooked_capture_spec data :
  bytes_wf data →
  parse_linux_cooked_capture data =
    if decide (length data < 16)%nat then throw length_error "not enough data"
    else if decide (field16 2 data ≠ ARPHRD_ETHER ∧ field16 2 data ≠ ARPHRD_LOOPBACK)
    then throw runtime_error
         ("Linux_cooked_capture only supports ethernet or loopback, got: "
          +:+ to_string uint16_t (field16 2 data) +:+ " (look in net/if_arp.h for value)")
    else if decide (field16 4 data ≠ 6) then throw length_error "invalid link address size"
    else Ret {| ll_header_length := 16; ll_source := octets 6 6 data;
                ll_payload_protocol := field16 14 data;
                ll_info := "Linux cooked capture: src: " +:+ binary_to_mac (octets 6 6 data) |}.
Proof.
  intros Hd. unfold parse_linux_cooked_capture, lcc_header_size, lcc_address_size, ETHER_ADDR_LEN.
  case_decide as Hlen; [by rewrite check_range_short|]. run_parser.
  case_decide; [done|]. run_parser. change (Z.of_nat 6) with 6. case_decide; [done|]. by run_parser.
Qed.

Lemma parse_ethernet_spec data :
  bytes_wf data →
  parse_ethernet data =
    if decide (length data < 14)%nat then throw length_error "not enough data"
    else Ret {| ll_header_length := 14; ll_source := octets 6 6 data;
                ll_payload_protocol := field16 12 data;
                ll_info := "Ethernet: dst = " +:+ binary_to_mac (octets 0 6 data)
                           +:+ ", src = " +:+ binary_to_mac (octets 6 6 data) |}.
Proof.
  intros Hd. unfold parse_ethernet, ETHER_ADDR_LEN.
  case_decide as Hlen; [by rewrite check_range_short|]. by run_parser.
Qed.

Lemma parse_VLAN_Header_spec data :
  bytes_wf data →
  parse_VLAN_Header data =
    if decide (length data < 4)%nat then throw length_error "not enough data"
    else Ret {| ll_header_length := 4; ll_source := replicate 6 0;
                ll_payload_protocol := field16 2 data; ll_info := "VLAN Header" |}.
Proof.
  intros Hd. unfold parse_VLAN_Header.
  case_decide as Hlen; [by rewrite check_range_short|]. by run_parser.
Qed.
End ethernet_theory.
