(* ===== verification/Ip.v ===== *)
(** * IP headers: [src/include/ip.h], [src/sleep-proxy/ip.cpp]

    The check that the Ethernet type and the version nibble agree, and the
    parsers of the IPv4 and the IPv6 header.  The version check reads the first
    byte before any range check, so [parse_ip] is undefined exactly on an empty
    rest of a packet ([parse_ip_header_spec]). *)
From S2P Require Import Prelude ContainerUtils IntUtils NetText NetTextRef IpAddress Ethernet.
Local Open Scope Z_scope.

Definition ipv4_header_size : nat := 20.
Definition ipv6_header_size : nat := 40.
Definition ipv6_address_size_byte : nat := 16.

(** [enum Version { ipv4 = ETHERTYPE_IP, ipv6 = ETHERTYPE_IPV6 }] *)
Inductive Version := ipv4 | ipv6.
Definition version_code (v : Version) : Z :=
  match v with ipv4 => ETHERTYPE_IP | ipv6 => ETHERTYPE_IPV6 end.

(** [enum Payload] *)
Inductive Payload := TCP | UDP.
Definition payload_code (p : Payload) : Z := match p with TCP => 6 | UDP => 17 end.

Record ip := {
  m_version : Version;
  m_header_length : nat;
  m_source : IP_address;
  m_destination : IP_address;
  m_payload_protocol : Z;
}.

#[export] Instance Version_eq_dec : EqDecision Version.
Proof. solve_decision. Defined.
#[export] Instance ip_eq_dec : EqDecision ip.
Proof. solve_decision. Defined.

(** [operator<<(std::ostream &, ip::Version)] *)
Definition print_version (v : Version) : string := match v with ipv4 => "4" | ipv6 => "6" end.

(** [operator<<(std::ostream &, ip)] *)
Definition print_ip_header `{Net_text} (i : ip) : string :=
  "IPv" +:+ print_version (m_version i) +:+ ": "
  +:+ "dst = " +:+ pure (m_destination i) +:+ ", src = " +:+ pure (m_source i).

(** [ethernet_payload_and_ip_version_dont_match] *)
Definition ethernet_payload_and_ip_version_dont_match (type : Z) (data : list Z) : outcome bool :=
  b ← deref data;
  let version := static_cast uint8_t (Z.shiftr b 4) in
  Ret (bool_decide ((type = ETHERTYPE_IP ∧ version ≠ 4) ∨ (type = ETHERTYPE_IPV6 ∧ version ≠ 6))).

(** [get_ipv6_address] *)
Definition get_ipv6_address (addr : list Z) : IP_address :=
  {| family := AF_INET6; address := addr; subnet := 128 |}.

(** [IP_address{AF_INET, {addr}, 32}]: the aggregate sets the [in_addr] member
    of the union; the twelve bytes behind it, which nothing reads, are taken to
    be zero. *)
Definition get_ipv4_address (addr : list Z) : IP_address :=
  {| family := AF_INET; address := union_write addr (replicate 16 0); subnet := 32 |}.

Definition parse_ipv4 (data : list Z) : outcome ip :=
  _ ← check_type_and_range data ipv4_header_size;
  ip_vhl ← deref data;
  let header_length := static_cast uint8_t (Z.land ip_vhl 0x0f * 4) in
  data ← advance 9 data;
  ip_p ← deref data;
  data ← advance 3 data;
  ip_src ← copy_n 4 data;
  data ← advance 4 data;
  ip_dst ← copy_n 4 data;
  Ret {| m_version := ipv4;
         m_header_length := Z.to_nat header_length;
         m_source := get_ipv4_address ip_src;
         m_destination := get_ipv4_address ip_dst;
         m_payload_protocol := ip_p |}.

Definition parse_ipv6 (data : list Z) : outcome ip :=
  _ ← check_type_and_range data ipv6_header_size;
  data ← advance 6 data;
  next_header ← deref data;
  data ← advance 2 data;
  source_address ← copy_n ipv6_address_size_byte data;
  data ← advance ipv6_address_size_byte data;
  dest_address ← copy_n ipv6_address_size_byte data;
  Ret {| m_version := ipv6;
         m_header_length := ipv6_header_size;
         m_source := get_ipv6_address source_address;
         m_destination := get_ipv6_address dest_address;
         m_payload_protocol := next_header |}.

(** [parse_ip(type, data, end)]; [None] is the null pointer *)
Definition parse_ip_header (type : Z) (data : list Z) : outcome (option ip) :=
  mismatch ← ethernet_payload_and_ip_version_dont_match type data;
  if (mismatch : bool) then Ret None
  else if decide (type = ETHERTYPE_IP) then Some <$> parse_ipv4 data
  else if decide (type = ETHERTYPE_IPV6) then Some <$> parse_ipv6 data
  else Ret None.

(** ** Where the fields are *)

Definition field8 (i : nat) (data : list Z) : Z := default 0 (data !! i).

Lemma deref_drop {A} i (data : list A) d :
  (i < length data)%nat → deref (drop i data) = Ret (default d (data !! i)).
Proof.
  intros Hl. destruct (lookup_lt_is_Some_2 data i Hl) as [b Hb].
  by rewrite (drop_S _ _ _ Hb), Hb.
Qed.

Lemma octets_wf i n data :
  bytes_wf data → (i + n ≤ length data)%nat → length (octets i n data) = n ∧ bytes_wf (octets i n data).
Proof.
  intros Hd Hl. unfold octets. split.
  - rewrite length_take, length_drop. lia.
  - by apply Forall_take, Forall_drop.
Qed.

Definition version_nibble (data : list Z) : Z := field8 0 data / 16.

(** The length of the header in bytes which the IHL field of IPv4 states *)
Definition ihl_bytes (data : list Z) : nat := Z.to_nat (field8 0 data mod 16 * 4).

Lemma ihl_static_cast b : byte_wf b → static_cast uint8_t (Z.land b 0x0f * 4) = b mod 16 * 4.
Proof.
  intros Hb. change 0x0f with (Z.ones 4). rewrite Z.land_ones by lia.
  pose proof (Z.mod_pos_bound b 16 ltac:(lia)). change (2 ^ 4) with 16.
  apply static_cast_in_range; [by vm_compute|].
  unfold in_range, lowest, max. cbn. lia.
Qed.

Lemma nibble_static_cast b : byte_wf b → static_cast uint8_t (Z.shiftr b 4) = b / 16.
Proof.
  intros Hb. rewrite Z.shiftr_div_pow2 by lia. change (2 ^ 4) with 16. unfold byte_wf in Hb.
  apply static_cast_in_range; [by vm_compute|]. unfold in_range, lowest, max. cbn.
  assert (0 ≤ b / 16 < 16); [|lia].
  split; [apply Z.div_pos; lia|apply Z.div_lt_upper_bound; lia].
Qed.

Lemma parse_ipv4_spec data :
  bytes_wf data →
  parse_ipv4 data =
    if decide (length data < 20)%nat then throw length_error "not enough data"
    else Ret {| m_version := ipv4; m_header_length := ihl_bytes data;
                m_source := get_ipv4_address (octets 12 4 data);
                m_destination := get_ipv4_address (octets 16 4 data);
                m_payload_protocol := field8 9 data |}.
Proof.
  intros Hd. unfold parse_ipv4, ipv4_header_size.
  case_decide as Hlen; [by rewrite check_range_short|].
  rewrite check_range_ok by (lia || (intros ->; cbn in *; lia)). cbn [mbind outcome_bind].
  change (deref data) with (deref (drop 0 data)) at 1.
  rewrite (deref_drop 0 data 0) by lia. cbn [mbind outcome_bind].
  rewrite advance_Ret by lia. cbn [mbind outcome_bind].
  rewrite (deref_drop 9 data 0) by lia. run_parser.
  rewrite ihl_static_cast by (by apply lookup_default_wf). done.
Qed.

Lemma parse_ipv6_spec data :
  bytes_wf data →
  parse_ipv6 data =
    if decide (length data < 40)%nat then throw length_error "not enough data"
    else Ret {| m_version := ipv6; m_header_length := 40;
                m_source := get_ipv6_address (octets 8 16 data);
                m_destination := get_ipv6_address (octets 24 16 data);
                m_payload_protocol := field8 6 data |}.
Proof.
  intros Hd. unfold parse_ipv6, ipv6_header_size, ipv6_address_size_byte.
  case_decide as Hlen; [by rewrite check_range_short|].
  rewrite check_range_ok by (lia || (intros ->; cbn in *; lia)). cbn [mbind outcome_bind].
  rewrite advance_Ret by lia. cbn [mbind outcome_bind].
  rewrite (deref_drop 6 data 0) by lia. by run_parser.
Qed.

(** Does the version nibble contradict the Ethernet type? *)
Definition version_mismatch (type : Z) (data : list Z) : Prop :=
  (type = ETHERTYPE_IP ∧ version_nibble data ≠ 4) ∨ (type = ETHERTYPE_IPV6 ∧ version_nibble data ≠ 6).
#[export] Instance version_mismatch_dec type data : Decision (version_mismatch type data).
Proof. unfold version_mismatch. apply _. Defined.

Lemma parse_ip_header_spec type data :
  bytes_wf data →
  parse_ip_header type data =
    if decide (data = []) then Undef read_past_end
    else if decide (version_mismatch type data) then Ret None
    else if decide (type = ETHERTYPE_IP) then Some <$> parse_ipv4 data
    else if decide (type = ETHERTYPE_IPV6) then Some <$> parse_ipv6 data
    else Ret None.
Proof.
  intros Hd. unfold parse_ip_header, ethernet_payload_and_ip_version_dont_match.
  destruct data as [|b data]; [done|]. rewrite (decide_False (P := b :: data = [])) by done.
  cbn [deref mbind outcome_bind]. apply Forall_cons in Hd as [Hb _].
  rewrite nibble_static_cast by done.
  destruct (decide (version_mismatch type (b :: data))) as [Hm|Hm].
  - by rewrite bool_decide_eq_true_2 by exact Hm.
  - by rewrite bool_decide_eq_false_2 by exact Hm.
Qed.

Lemma parse_ipv4_wf data i :
  bytes_wf data → parse_ipv4 data = Ret i →
  (20 ≤ length data)%nat ∧ ip_wf (m_source i) ∧ ip_wf (m_destination i) ∧ m_version i = ipv4
  ∧ m_header_length i = ihl_bytes data.
Proof.
  intros Hd. rewrite parse_ipv4_spec by done. case_decide as Hlen; [done|]. intros [= <-].
  destruct (octets_wf 12 4 data Hd) as [L1 W1]; [lia|].
  destruct (octets_wf 16 4 data Hd) as [L2 W2]; [lia|].
  assert (∀ b, length b = 4%nat → bytes_wf b → ip_wf (get_ipv4_address b)) as Hwf.
  { intros b Hl Hb. destruct (union_write_wf b) as [? ?]; [lia|done|].
    split; cbn; [by left|done..|by vm_compute]. }
  split_and!; [lia|by apply Hwf..|done|done].
Qed.

Lemma parse_ipv6_wf data i :
  bytes_wf data → parse_ipv6 data = Ret i →
  (40 ≤ length data)%nat ∧ ip_wf (m_source i) ∧ ip_wf (m_destination i) ∧ m_version i = ipv6
  ∧ m_header_length i = 40%nat.
Proof.
  intros Hd. rewrite parse_ipv6_spec by done. case_decide as Hlen; [done|]. intros [= <-].
  destruct (octets_wf 8 16 data Hd) as [L1 W1]; [lia|].
  destruct (octets_wf 24 16 data Hd) as [L2 W2]; [lia|].
  assert (∀ b, length b = 16%nat → bytes_wf b → ip_wf (get_ipv6_address b)) as Hwf.
  { intros b Hl Hb. split; cbn; [by right|done..|by vm_compute]. }
  split_and!; [lia|by apply Hwf..|done|done].
Qed.
