(* ===== verification/PacketParser.v ===== *)
(** * Packets: [src/include/packet_parser.h], [src/sleep-proxy/packet_parser.cpp]

    [get_headers] walks over link layer header, optional VLAN tag and IP header
    of a captured packet; [Catch_incoming_connection] is the pcap callback which
    keeps the last packet and its headers.  Shown: the parser reads back what a
    sender encodes, the exact set of packets on which it is undefined, and what
    the callback does with [pcap_pkthdr::len]. *)
From S2P Require Import Prelude ContainerUtils IntUtils NetText NetTextRef System IpAddress Ethernet Ip.
Local Open Scope Z_scope.

(** Null pointers are [None]. *)
Abbreviation basic_headers := (option Link_layer * option ip)%type.

Section packet_parser.
Context `{Net_text} `{Host}.

(** [operator<<(std::ostream &, basic_headers)] *)
Definition print_if_not_nullptr {A} (print : A → string) (ptr : option A) : string :=
  match ptr with Some x => print x | None => "" end.
Definition print_headers (headers : basic_headers) : string :=
  print_if_not_nullptr print_link_layer headers.1
  +:+ String "010"%char "" +:+ print_if_not_nullptr print_ip_header headers.2.

Definition get_headers (type : Z) (packet : list Z) : outcome basic_headers :=
  let data := packet in
  (* link layer header *)
  ll ← parse_link_layer type data;
  match ll with
  | None => Ret (None, None)
  | Some ll =>
      data ← advance (ll_header_length ll) data;
      (* possible VLAN header, skip it *)
      let payload_type := ll_payload_protocol ll in
      payload_data ←
        (if decide (payload_type = ETHERTYPE_VLAN)
         then vlan_header ← parse_link_layer payload_type data;
              match vlan_header with
              | None => Undef null_dereference
              | Some vlan_header =>
                  let payload_type := ll_payload_protocol vlan_header in
                  data ← advance (ll_header_length vlan_header) data;
                  Ret (payload_type, data)
              end
         else Ret (payload_type, data));
      let '(payload_type, data) := (payload_data : Z * list Z) in
      (* IP header *)
      ipp ← parse_ip_header payload_type data;
      match ipp with
      | None => Ret (Some ll, None)
      | Some ipp =>
          _ ← advance (m_header_length ipp) data;
          Ret (Some ll, Some ipp)
      end
  end.

Record Catch_incoming_connection := {
  link_layer_type : Z;
  headers : basic_headers;
  data : list Z;
}.

(** The constructor *)
Definition catch_new (link_layer_typee : Z) : Catch_incoming_connection :=
  {| link_layer_type := link_layer_typee; headers := (None, None); data := [] |}.

(** [Catch_incoming_connection::operator()].  [packet] is the buffer libpcap
    hands out; its [caplen] bytes are the memory which may be read. *)
Definition catch_packet (c : Catch_incoming_connection)
    (header : option pcap_pkthdr) (packet : option (list Z)) : outcome Catch_incoming_connection :=
  match header, packet with
  | Some header, Some packet =>
      try_catch
        (data ← copy_n (len header) packet;
         headers ← get_headers (link_layer_type c) data;
         Ret {| link_layer_type := link_layer_type c; headers := headers; data := data |})
        (λ _, Ret {| link_layer_type := link_layer_type c; headers := (None, None); data := [] |})
  | _, _ => Ret c
  end.

(** ** The part of the packet the IP parser sees *)

(** Type and rest of the packet behind the link layer header and the VLAN tag;
    [None] when [get_headers] returns or throws before it gets there. *)
Definition ip_payload (type : Z) (packet : list Z) : option (Z * list Z) :=
  match parse_link_layer type packet with
  | Ret (Some ll) =>
      let n := ll_header_length ll in
      if decide (ll_payload_protocol ll = ETHERTYPE_VLAN)
      then if decide (length packet < n + 4)%nat then None
           else Some (field16 (n + 2) packet, drop (n + 4) packet)
      else Some (ll_payload_protocol ll, drop n packet)
  | _ => None
  end.

Lemma parse_link_layer_length type packet ll :
  bytes_wf packet → parse_link_layer type packet = Ret (Some ll) →
  (ll_header_length ll ≤ length packet)%nat
  ∧ (4 ≤ ll_header_length ll ≤ 16)%nat ∧ mac_wf (ll_source ll)
  ∧ 0 ≤ ll_payload_protocol ll < 65536.
Proof.
  intros Hd. unfold parse_link_layer.
  assert (∀ o, Some <$> o = Ret (Some ll) → o = Ret ll) as Hinj
    by (intros [] E; cbn in E; congruence).
  repeat case_decide; [intros Hl%Hinj..|done].
  - rewrite parse_linux_cooked_capture_spec in Hl by done. repeat case_decide; try done.
    injection Hl as <-. cbn. destruct (octets_wf 6 6 packet); [done|lia|].
    pose proof (field16_range 14 packet Hd). split_and!; [lia|lia|lia|done..|lia|lia].
  - rewrite parse_ethernet_spec in Hl by done. case_decide; [done|].
    injection Hl as <-. cbn. destruct (octets_wf 6 6 packet); [done|lia|].
    pose proof (field16_range 12 packet Hd). split_and!; [lia|lia|lia|done..|lia|lia].
  - rewrite parse_VLAN_Header_spec in Hl by done. case_decide; [done|].
    injection Hl as <-. cbn. pose proof (field16_range 2 packet Hd).
    split_and!; [lia..| |lia|lia].
    refine (bool_decide_eq_true_1 _ _). by vm_compute.
Qed.

Lemma field16_drop n i (data : list Z) : field16 i (drop n data) = field16 (n + i) data.
Proof. unfold field16. by rewrite !lookup_drop, Nat.add_succ_r. Qed.

(** [get_headers] in terms of [ip_payload] *)
Lemma get_headers_spec type packet :
  bytes_wf packet →
  get_headers type packet =
    ll ← parse_link_layer type packet;
    match ll with
    | None => Ret (None, None)
    | Some ll =>
        match ip_payload type packet with
        | None => throw length_error "not enough data"
        | Some (payload_type, data) =>
            ipp ← parse_ip_header payload_type data;
            match ipp with
            | None => Ret (Some ll, None)
            | Some ipp => if decide (m_header_length ipp ≤ length data)%nat
                          then Ret (Some ll, Some ipp) else Undef advance_past_end
            end
        end
    end.
Proof.
  intros Hd. unfold get_headers, ip_payload.
  destruct (parse_link_layer type packet) as [[ll|]|e|u] eqn:Hll; [|done..].
  destruct (parse_link_layer_length _ _ _ Hd Hll) as (Hlen & _). cbn [mbind outcome_bind].
  rewrite advance_Ret by done. cbn [mbind outcome_bind].
  assert (∀ (i : ip) (rest : list Z),
    (_ ← advance (m_header_length i) rest; Ret (Some ll, Some i)) =
    if decide (m_header_length i ≤ length rest)%nat then Ret (Some ll, Some i) else Undef advance_past_end)
    as Hadv by (intros i rest; unfold advance; by case_decide).
  case_decide as Hv.
  - rewrite Hv. unfold parse_link_layer at 1. cbn [decide].
    rewrite (decide_False (P := ETHERTYPE_VLAN = DLT_LINUX_SLL)) by done.
    rewrite (decide_False (P := ETHERTYPE_VLAN = DLT_EN10MB)) by done.
    rewrite (decide_True (P := ETHERTYPE_VLAN = ETHERTYPE_VLAN)) by done.
    rewrite parse_VLAN_Header_spec by (by apply Forall_drop). rewrite length_drop.
    case_decide as H4.
    { by rewrite (decide_True (P := (length packet < ll_header_length ll + 4)%nat)) by lia. }
    rewrite (decide_False (P := (length packet < ll_header_length ll + 4)%nat)) by lia.
    cbn [mbind outcome_bind fmap outcome_fmap ll_header_length ll_payload_protocol].
    rewrite advance_drop by lia. cbn [mbind outcome_bind]. rewrite field16_drop.
    by destruct (parse_ip_header _ _) as [[]| |]; cbn.
  - cbn [mbind outcome_bind].
    by destruct (parse_ip_header _ _) as [[]| |]; cbn.
Qed.
End packet_parser.

(** ** Reference encoding of frames

    What a sender (or the capturing kernel) puts in front of the payload,
    after the formats' own descriptions. *)
Definition be16 (v : Z) : list Z := [v / 256; v mod 256].

Inductive link :=
  | Ether_link (dst src : ether_addr)
  | Sll_link (packet_type : list Z) (arphrd : Z) (src : ether_addr) (padding : list Z).

Definition link_dlt (l : link) : Z :=
  match l with Ether_link _ _ => DLT_EN10MB | Sll_link _ _ _ _ => DLT_LINUX_SLL end.
Definition link_src (l : link) : ether_addr :=
  match l with Ether_link _ src => src | Sll_link _ _ src _ => src end.
Definition link_size (l : link) : nat :=
  match l with Ether_link _ _ => 14 | Sll_link _ _ _ _ => 16 end.

Definition encode_link (l : link) (proto : Z) : list Z :=
  match l with
  | Ether_link dst src => dst ++ src ++ be16 proto
  | Sll_link packet_type arphrd src padding =>
      packet_type ++ be16 arphrd ++ be16 6 ++ src ++ padding ++ be16 proto
  end.

Definition link_wf (l : link) : Prop :=
  match l with
  | Ether_link dst src => mac_wf dst ∧ mac_wf src
  | Sll_link packet_type arphrd src padding =>
      (length packet_type = 2%nat ∧ bytes_wf packet_type)
      ∧ (arphrd = ARPHRD_ETHER ∨ arphrd = ARPHRD_LOOPBACK)
      ∧ mac_wf src ∧ (length padding = 2%nat ∧ bytes_wf padding)
  end.

(** The network layer header: IPv4 with [ihl] words (options included), or IPv6 *)
Inductive network :=
  | Ipv4_packet (ihl : Z) (before : list Z) (protocol : Z) (checksum src dst options : list Z)
  | Ipv6_packet (traffic : Z) (before : list Z) (next_header hop_limit : Z) (src dst : list Z).

Definition network_type (n : network) : Z :=
  match n with Ipv4_packet _ _ _ _ _ _ _ => ETHERTYPE_IP | _ => ETHERTYPE_IPV6 end.

Definition encode_network (n : network) : list Z :=
  match n with
  | Ipv4_packet ihl before protocol checksum src dst options =>
      [4 * 16 + ihl] ++ before ++ [protocol] ++ checksum ++ src ++ dst ++ options
  | Ipv6_packet traffic before next_header hop_limit src dst =>
      [6 * 16 + traffic] ++ before ++ [next_header; hop_limit] ++ src ++ dst
  end.

Definition bytes_of (n : nat) (l : list Z) : Prop := length l = n ∧ bytes_wf l.

Definition network_wf (n : network) : Prop :=
  match n with
  | Ipv4_packet ihl before protocol checksum src dst options =>
      5 ≤ ihl < 16 ∧ bytes_of 8 before ∧ byte_wf protocol ∧ bytes_of 2 checksum
      ∧ bytes_of 4 src ∧ bytes_of 4 dst ∧ bytes_of (Z.to_nat (ihl * 4 - 20)) options
  | Ipv6_packet traffic before next_header hop_limit src dst =>
      0 ≤ traffic < 16 ∧ bytes_of 5 before ∧ byte_wf next_header ∧ byte_wf hop_limit
      ∧ bytes_of 16 src ∧ bytes_of 16 dst
  end.

Definition network_header (n : network) : ip :=
  match n with
  | Ipv4_packet ihl before protocol checksum src dst options =>
      {| m_version := ipv4; m_header_length := Z.to_nat (ihl * 4);
         m_source := get_ipv4_address src; m_destination := get_ipv4_address dst;
         m_payload_protocol := protocol |}
  | Ipv6_packet traffic before next_header hop_limit src dst =>
      {| m_version := ipv6; m_header_length := 40;
         m_source := get_ipv6_address src; m_destination := get_ipv6_address dst;
         m_payload_protocol := next_header |}
  end.

(** A frame with an optional VLAN tag *)
Definition encode_frame (l : link) (vlan : option (list Z)) (n : network) : list Z :=
  match vlan with
  | None => encode_link l (network_type n)
  | Some tci => encode_link l ETHERTYPE_VLAN ++ tci ++ be16 (network_type n)
  end ++ encode_network n.

Definition vlan_wf (vlan : option (list Z)) : Prop :=
  match vlan with None => True | Some tci => bytes_of 2 tci end.

(** Spells out lists of known length. *)
Ltac explode_lists :=
  repeat match goal with
  | H : bytes_of _ _ |- _ => destruct H
  | H : mac_wf _ |- _ => destruct H
  | H : length ?l = S _ |- _ =>
      is_var l; destruct l; [discriminate H|]; cbn [length] in H; apply Nat.succ_inj in H
  | H : length ?l = 0%nat |- _ => is_var l; apply nil_length_inv in H; subst l
  end.

Lemma be16_be_u16 v : 0 ≤ v < 65536 → be_u16 (v / 256) (v mod 256) = v.
Proof. intros Hv. unfold be_u16. pose proof (Z.div_mod v 256 ltac:(lia)). lia. Qed.
Lemma be16_wf v : 0 ≤ v < 65536 → bytes_wf (be16 v).
Proof.
  intros Hv. pose proof (Z.mod_pos_bound v 256 ltac:(lia)).
  repeat constructor; unfold byte_wf; try lia; [apply Z.div_pos|apply Z.div_lt_upper_bound]; lia.
Qed.

Lemma create_ethernet_header_spec dmac smac type :
  0 ≤ type < 65536 → create_ethernet_header dmac smac type = encode_link (Ether_link dmac smac) type.
Proof.
  intros Ht. unfold create_ethernet_header, vec_append, to_vector. cbn.
  rewrite <-!(assoc_L (++)). unfold be16.
  assert (static_cast uint8_t (Z.shiftr type 8) = type / 256) as ->.
  { rewrite Z.shiftr_div_pow2 by lia. apply static_cast_in_range; [by vm_compute|].
    unfold in_range, lowest, max. cbn.
    split; [apply Z.div_pos; lia|]. assert (type / 256 < 256); [|lia]. apply Z.div_lt_upper_bound; lia. }
  change 255 with (Z.ones 8). rewrite Z.land_ones by lia.
  assert (static_cast uint8_t (type mod 2 ^ 8) = type mod 256) as ->; [|done].
  pose proof (Z.mod_pos_bound type 256 ltac:(lia)).
  apply static_cast_in_range; [by vm_compute|]. unfold in_range, lowest, max. cbn. lia.
Qed.

Lemma encode_link_wf l proto :
  link_wf l → 0 ≤ proto < 65536 → bytes_wf (encode_link l proto) ∧ length (encode_link l proto) = link_size l.
Proof.
  intros Hl Hp. pose proof (be16_wf proto Hp).
  destruct l as [dst src|pt arp src pad]; cbn [encode_link link_size link_wf] in *.
  - destruct Hl as [[L1 W1] [L2 W2]]. rewrite !length_app, L1, L2. split; [|done].
    by repeat (apply Forall_app; split).
  - destruct Hl as ([L1 W1] & Ha & [L2 W2] & [L3 W3]). rewrite !length_app, L1, L2, L3. split; [|done].
    assert (0 ≤ arp < 65536) by (destruct Ha as [-> | ->]; by vm_compute).
    repeat (apply Forall_app; split); try done; by apply be16_wf.
Qed.

Section frames.
Context `{Net_text} `{Host}.

Lemma parse_link_encode l proto rest :
  link_wf l → 0 ≤ proto < 65536 → bytes_wf rest →
  ∃ info, parse_link_layer (link_dlt l) (encode_link l proto ++ rest)
    = Ret (Some {| ll_header_length := link_size l; ll_source := link_src l;
                   ll_payload_protocol := proto; ll_info := info |}).
Proof.
  intros Hl Hp Hrest. destruct (encode_link_wf l proto Hl Hp) as [Hwf Hlen].
  assert (bytes_wf (encode_link l proto ++ rest)) as Hd by by apply Forall_app.
  destruct l as [dst src|pt arp src pad]; unfold parse_link_layer; cbn [link_dlt link_size link_src] in *.
  - rewrite decide_False, decide_True by done. rewrite parse_ethernet_spec by done.
    rewrite decide_False by (rewrite length_app, Hlen; lia).
    destruct Hl as [? ?]. explode_lists. eexists. cbn. unfold field16. cbn.
    by rewrite be16_be_u16.
  - rewrite decide_True by done. rewrite parse_linux_cooked_capture_spec by done.
    rewrite decide_False by (rewrite length_app, Hlen; lia).
    destruct Hl as ([? ?] & Ha & ? & [? ?]). explode_lists. eexists. unfold field16, octets. cbn.
    rewrite (be16_be_u16 proto) by done.
    destruct Ha as [-> | ->]; done.
Qed.

Lemma encode_network_wf n : network_wf n → bytes_wf (encode_network n).
Proof.
  destruct n; cbn; unfold bytes_of; intros; destruct_and?.
  all: repeat first [done | apply Forall_nil; exact I | apply Forall_cons; split | apply Forall_app; split].
  all: unfold byte_wf in *; lia.
Qed.

Lemma parse_ip_encode n rest :
  network_wf n → bytes_wf rest →
  parse_ip_header (network_type n) (encode_network n ++ rest) = Ret (Some (network_header n)).
Proof.
  intros Hn Hrest. pose proof (encode_network_wf n Hn) as Hwf.
  assert (bytes_wf (encode_network n ++ rest)) as Hd by by apply Forall_app.
  rewrite parse_ip_header_spec by done. clear Hwf.
  destruct n as [ihl before protocol checksum src dst options|traffic before nh hop src dst].
  - cbn [network_type network_wf encode_network network_header] in *. unfold bytes_of in Hn.
    destruct Hn as (Hihl & Hb & Hp & Hc & Hs & Hdst & Ho). destruct_and!.
    assert ((4 * 16 + ihl) / 16 = 4) as Hnib by (symmetry; apply (Z.div_unique _ _ _ ihl); lia).
    assert ((4 * 16 + ihl) mod 16 = ihl) as Hmod by (symmetry; apply (Z.mod_unique _ _ 4); lia).
    rewrite (decide_False (P := _ = [])) by done.
    rewrite decide_False.
    2:{ unfold version_mismatch. change (version_nibble _) with ((4 * 16 + ihl) / 16). rewrite Hnib.
        intros [[_ Hx]|[Hx _]]; done. }
    rewrite decide_True by done. rewrite parse_ipv4_spec by done.
    rewrite decide_False by (rewrite !length_app; cbn; lia).
    cbn [fmap outcome_fmap]. change (ihl_bytes _) with (Z.to_nat ((4 * 16 + ihl) mod 16 * 4)).
    rewrite Hmod. clear Hd Hnib Hmod. by explode_lists.
  - cbn [network_type network_wf encode_network network_header] in *. unfold bytes_of in Hn.
    destruct Hn as (Ht & Hb & Hnh & Hh & Hs & Hdst). destruct_and!.
    assert ((6 * 16 + traffic) / 16 = 6) as Hnib by (symmetry; apply (Z.div_unique _ _ _ traffic); lia).
    rewrite (decide_False (P := _ = [])) by done.
    rewrite decide_False.
    2:{ unfold version_mismatch. change (version_nibble _) with ((6 * 16 + traffic) / 16). rewrite Hnib.
        intros [[Hx _]|[_ Hx]]; done. }
    rewrite decide_False, decide_True by done. rewrite parse_ipv6_spec by done.
    rewrite decide_False by (rewrite !length_app; cbn; lia).
    cbn [fmap outcome_fmap]. clear Hd Hnib. by explode_lists.
Qed.

Lemma network_type_range n : 0 ≤ network_type n < 65536.
Proof. by destruct n. Qed.

Lemma network_header_length n :
  network_wf n → (m_header_length (network_header n) = length (encode_network n))%nat.
Proof.
  destruct n; cbn; unfold bytes_of; intros; destruct_and?; repeat (rewrite length_app; cbn); lia.
Qed.

(** The headers [get_headers] finds in an encoded frame *)
Lemma get_headers_encode l vlan n payload :
  link_wf l → vlan_wf vlan → network_wf n → bytes_wf payload →
  ∃ info, get_headers (link_dlt l) (encode_frame l vlan n ++ payload)
    = Ret (Some {| ll_header_length := link_size l; ll_source := link_src l;
                   ll_payload_protocol := match vlan with
                                          | None => network_type n
                                          | Some _ => ETHERTYPE_VLAN
                                          end;
                   ll_info := info |},
           Some (network_header n)).
Proof.
  intros Hl Hv Hn Hp. pose proof (network_type_range n) as Ht.
  pose proof (network_header_length n Hn) as Hhl.
  assert (bytes_wf (encode_network n ++ payload)) as Hrest
    by (apply Forall_app; split; [by apply encode_network_wf|done]).
  unfold get_headers, encode_frame. destruct vlan as [tci|]; rewrite <-!(assoc_L (++)).
  - destruct Hv as [Ltci Wtci].
    assert (bytes_wf (tci ++ be16 (network_type n) ++ encode_network n ++ payload)) as Hv.
    { apply Forall_app; split; [done|]. apply Forall_app; split; [by apply be16_wf|done]. }
    destruct (parse_link_encode l ETHERTYPE_VLAN _ Hl ltac:(by vm_compute) Hv) as [info ->].
    exists info. cbn [mbind outcome_bind ll_header_length ll_payload_protocol].
    rewrite advance_app by (symmetry; by apply encode_link_wf). cbn [mbind outcome_bind].
    rewrite decide_True by done. unfold parse_link_layer.
    rewrite (decide_False (P := ETHERTYPE_VLAN = DLT_LINUX_SLL)) by done.
    rewrite (decide_False (P := ETHERTYPE_VLAN = DLT_EN10MB)) by done.
    rewrite (decide_True (P := ETHERTYPE_VLAN = ETHERTYPE_VLAN)) by done.
    rewrite parse_VLAN_Header_spec, decide_False by (done || rewrite !length_app, Ltci; cbn; lia).
    cbn [mbind outcome_bind fmap outcome_fmap ll_header_length ll_payload_protocol].
    rewrite (assoc_L (++) tci), advance_app by (by rewrite length_app, Ltci).
    rewrite <-(assoc_L (++) tci). cbn [mbind outcome_bind].
    assert (field16 2 (tci ++ be16 (network_type n) ++ encode_network n ++ payload) = network_type n) as ->.
    { clear Hv Wtci. explode_lists. unfold field16. cbn. by apply be16_be_u16. }
    rewrite parse_ip_encode by done. cbn [mbind outcome_bind]. by rewrite advance_app.
  - destruct (parse_link_encode l (network_type n) _ Hl Ht Hrest) as [info ->].
    exists info. cbn [mbind outcome_bind ll_header_length ll_payload_protocol].
    rewrite advance_app by (symmetry; by apply encode_link_wf). cbn [mbind outcome_bind].
    rewrite decide_False by (by destruct n). cbn [mbind outcome_bind].
    rewrite parse_ip_encode by done. cbn [mbind outcome_bind]. by rewrite advance_app.
Qed.

(** C30: [get_headers] reads back the headers of every well-formed frame, sent as
    Ethernet or captured in cooked mode, with or without a VLAN tag, carrying
    IPv4 (with any number of options) or IPv6, and followed by any payload. *)
Theorem get_headers_decodes l vlan n payload :
  link_wf l → vlan_wf vlan → network_wf n → bytes_wf payload →
  ∃ info, get_headers (link_dlt l) (encode_frame l vlan n ++ payload)
    = Ret (Some {| ll_header_length := link_size l; ll_source := link_src l;
                   ll_payload_protocol := match vlan with
                                          | None => network_type n
                                          | Some _ => ETHERTYPE_VLAN
                                          end;
                   ll_info := info |},
           Some (network_header n)).
Proof. apply get_headers_encode. Qed.
End frames.

Section safety.
Context `{Net_text} `{Host}.

Lemma parse_link_layer_defined type packet :
  bytes_wf packet → is_defined (parse_link_layer type packet).
Proof.
  intros Hd u. unfold parse_link_layer.
  rewrite parse_linux_cooked_capture_spec, parse_ethernet_spec, parse_VLAN_Header_spec by done.
  by repeat case_decide.
Qed.

Lemma ip_payload_wf type packet pt d :
  bytes_wf packet → ip_payload type packet = Some (pt, d) → bytes_wf d.
Proof.
  intros Hd. unfold ip_payload. repeat case_match; try done; intros [= _ <-]; by apply Forall_drop.
Qed.

Lemma fmap_Some_Ret {A} (m : outcome A) r : Some <$> m = Ret (Some r) ↔ m = Ret r.
Proof. destruct m; cbn; split; congruence. Qed.
Lemma fmap_Some_Undef {A} (m : outcome A) u : Some <$> m = Undef u ↔ m = Undef u.
Proof. destruct m; cbn; split; congruence. Qed.

(** Undefined behaviour of [get_headers]: nothing behind the link layer, or an
    IPv4 header whose IHL field promises more bytes than there are. *)
Definition overruns (pt : Z) (d : list Z) : Prop :=
  d = [] ∨ (pt = ETHERTYPE_IP ∧ version_nibble d = 4 ∧ (20 ≤ length d < ihl_bytes d)%nat).

Lemma get_headers_undefined type packet :
  bytes_wf packet →
  (∃ u, get_headers type packet = Undef u) ↔
  ∃ pt d, ip_payload type packet = Some (pt, d) ∧ overruns pt d.
Proof.
  intros Hd. rewrite get_headers_spec by done.
  pose proof (parse_link_layer_defined type packet Hd) as Hdef.
  pose proof (ip_payload_wf type packet) as Hwf. unfold ip_payload in *.
  destruct (parse_link_layer type packet) as [[ll|]|e|u]; cbn [mbind outcome_bind].
  2,3: split; [by intros [u ?]|by intros (? & ? & ? & _)].
  2: by destruct (Hdef u).
  destruct (if decide (ll_payload_protocol ll = ETHERTYPE_VLAN) then _ else _) as [[pt d]|].
  2: split; [by intros [u ?]|by intros (? & ? & ? & _)].
  specialize (Hwf _ _ Hd eq_refl). rewrite parse_ip_header_spec by done. unfold overruns. split.
  - intros [u Hu]. exists pt, d. split; [done|].
    case_decide as Hnil; [by left|]. case_decide as Hm; [done|].
    assert (version_mismatch pt d ∨ True) as _ by by right.
    case_decide as Hip; [|case_decide as Hip6; [|done]].
    + right. split; [done|]. rewrite parse_ipv4_spec in Hu by done.
      case_decide as Hl; [done|]. cbn in Hu. case_decide; [done|]. split; [|lia].
      destruct (decide (version_nibble d = 4)); [done|]. destruct Hm. left. done.
    + rewrite parse_ipv6_spec in Hu by done. case_decide as Hl; [done|]. cbn in Hu.
      case_decide; [done|lia].
  - intros (pt' & d' & [= <- <-] & [->|(-> & Hn & Hl1 & Hl2)]); [by exists read_past_end|].
    exists advance_past_end. rewrite decide_False by (intros ->; cbn in Hl1; lia).
    rewrite decide_False.
    2:{ intros [[_ ?]|[? _]]; done. }
    rewrite decide_True by done. rewrite parse_ipv4_spec by done.
    rewrite decide_False by lia. cbn. by rewrite decide_False by lia.
Qed.

(** ** The pcap callback *)

(** The stored headers are those of the stored packet, or there are none. *)
Definition catch_wf (c : Catch_incoming_connection) : Prop :=
  bytes_wf (data c)
  ∧ (headers c = (None, None) ∨ get_headers (link_layer_type c) (data c) = Ret (headers c)).

Lemma catch_packet_spec c header packet :
  catch_packet c (Some header) (Some packet) =
    if decide (length packet < len header)%nat then Undef read_past_end
    else match get_headers (link_layer_type c) (take (len header) packet) with
         | Ret h => Ret {| link_layer_type := link_layer_type c; headers := h;
                           data := take (len header) packet |}
         | Throw _ => Ret (catch_new (link_layer_type c))
         | Undef u => Undef u
         end.
Proof.
  unfold catch_packet, catch_new, copy_n. case_decide.
  - rewrite (decide_False (P := (length packet < len header)%nat)) by lia.
    cbn [mbind outcome_bind]. by destruct (get_headers _ _).
  - by rewrite (decide_True (P := (length packet < len header)%nat)) by lia.
Qed.

Lemma catch_new_wf t : catch_wf (catch_new t).
Proof. split; [constructor|by left]. Qed.

Lemma catch_packet_wf c header packet c' :
  catch_wf c → (∀ p, packet = Some p → bytes_wf p) →
  catch_packet c header packet = Ret c' → catch_wf c' ∧ link_layer_type c' = link_layer_type c.
Proof.
  intros Hc Hp. destruct header as [header|]; [|by intros [= <-]].
  destruct packet as [packet|]; [|by intros [= <-]].
  rewrite catch_packet_spec. case_decide; [done|].
  destruct (get_headers _ _) as [h|e|u] eqn:Hg; [| |done]; intros [= <-]; (split; [|done]).
  - split; cbn; [by apply Forall_take, Hp|by right].
  - apply catch_new_wf.
Qed.

(** C31: [get_headers] is undefined on exactly two kinds of packets: those with
    no byte behind the link layer header (and VLAN tag), whose version nibble is
    read past the end, and IPv4 packets which end before the header length they
    state, where the iterator is advanced past the end.  Everywhere else it
    returns or throws. *)
Theorem get_headers_undefined_iff type packet :
  bytes_wf packet →
  (∃ u, get_headers type packet = Undef u) ↔
  ∃ pt d, ip_payload type packet = Some (pt, d) ∧ overruns pt d.
Proof. apply get_headers_undefined. Qed.

(** Every sequence of packets the callback survives leaves it consistent: it
    holds either no headers, or a packet together with exactly the headers
    [get_headers] finds in it. *)
Lemma catch_packets_consistent t (packets : list (option pcap_pkthdr * option (list Z))) c :
  Forall (λ hp, ∀ p, hp.2 = Some p → bytes_wf p) packets →
  foldl (λ c hp, c ≫= λ c, catch_packet c hp.1 hp.2) (Ret (catch_new t)) packets = Ret c →
  link_layer_type c = t ∧ catch_wf c.
Proof.
  assert (∀ c0, foldl (λ c hp, c ≫= λ c, catch_packet c hp.1 hp.2) (Ret c0) packets = Ret c →
    Forall (λ hp, ∀ p, hp.2 = Some p → bytes_wf p) packets → catch_wf c0 →
    link_layer_type c = link_layer_type c0 ∧ catch_wf c) as Hgen.
  { induction packets as [|[h p] packets IH]; intros c0 Hf Hall Hwf; cbn in Hf; [by simplify_eq|].
    apply Forall_cons in Hall as [Hp Hall]. cbn in Hp.
    destruct (catch_packet c0 h p) as [c1|e|u] eqn:Hc.
    - destruct (catch_packet_wf _ _ _ _ Hwf Hp Hc) as [? <-]. by apply IH.
    - by rewrite foldl_bind_Throw in Hf.
    - by rewrite foldl_bind_Undef in Hf. }
  intros Hall Hf. destruct (Hgen _ Hf Hall (catch_new_wf t)) as [-> ?]. done.
Qed.

(** The callback copies [header->len] bytes (the length on the wire) out of
    a buffer of [header->caplen] bytes (the length captured): a packet longer
    than the snapshot length is read past its end. *)
Lemma catch_packet_reads_len c header packet :
  caplen header = length packet → (caplen header < len header)%nat →
  catch_packet c (Some header) (Some packet) = Undef read_past_end.
Proof. intros Hc Hl. rewrite catch_packet_spec. by rewrite decide_True by lia. Qed.
End safety.

(** ** Concrete packets *)

(** 127.0.0.1 to 127.0.0.1, a bare IPv4 header *)
Definition ipv4_localhost : network :=
  Ipv4_packet 5 [0; 0; 60; 0x88; 0xd0; 0x40; 0; 0x40] 6 [0xb3; 0xe9]
    [127; 0; 0; 1] [127; 0; 0; 1] [].
Definition sll_link : link := Sll_link [0; 0] ARPHRD_ETHER [0xe8; 0xde; 0x27; 0x55; 0xa1; 0x71] [0; 0].

Lemma get_headers_decodes_witness :
  link_wf sll_link ∧ network_wf ipv4_localhost ∧
  ∃ info, @get_headers ref_net Little DLT_LINUX_SLL
      (encode_frame sll_link (Some [0; 1]) ipv4_localhost ++ [1; 2; 3])
    = Ret (Some {| ll_header_length := 16; ll_source := link_src sll_link;
                   ll_payload_protocol := ETHERTYPE_VLAN; ll_info := info |},
           Some (network_header ipv4_localhost)).
Proof.
  assert (link_wf sll_link ∧ network_wf ipv4_localhost) as [Hl Hn].
  { unfold link_wf, network_wf, bytes_of, mac_wf. cbn.
    refine (bool_decide_eq_true_1 _ _). by vm_compute. }
  split_and!; [done..|].
  apply (@get_headers_decodes ref_net Little sll_link (Some [0; 1]) ipv4_localhost [1; 2; 3] Hl); [|done|].
  - split; [done|]. refine (bool_decide_eq_true_1 _ _). by vm_compute.
  - refine (bool_decide_eq_true_1 _ _). by vm_compute.
Defined.

(** An Ethernet header without any payload *)
Lemma get_headers_undefined_iff_witness :
  let packet := encode_link (Ether_link (replicate 6 0) (replicate 6 0)) ETHERTYPE_IP in
  bytes_wf packet ∧
  ((∃ u, @get_headers ref_net Big DLT_EN10MB packet = Undef u) ↔
   ∃ pt d, @ip_payload ref_net Big DLT_EN10MB packet = Some (pt, d) ∧ overruns pt d).
Proof.
  intros packet.
  assert (bytes_wf packet) as Hwf by (refine (bool_decide_eq_true_1 _ _); by vm_compute).
  split; [done|]. by apply (@get_headers_undefined_iff ref_net Big DLT_EN10MB packet).
Defined.

Lemma catch_packets_consistent_witness :
  let packet := encode_frame sll_link None ipv4_localhost in
  let h := {| ts_sec := 0; ts_usec := 0; caplen := length packet; len := length packet |} in
  ∃ c, foldl (λ c hp, c ≫= λ c, @catch_packet ref_net Little c hp.1 hp.2)
         (Ret (catch_new DLT_LINUX_SLL)) [(None, None); (Some h, Some packet)] = Ret c
       ∧ is_Some (headers c).2 ∧ link_layer_type c = DLT_LINUX_SLL ∧ @catch_wf ref_net Little c.
Proof.
  intros packet h. eexists. split; [by vm_compute|]. split; [by eexists|].
  apply (@catch_packets_consistent ref_net Little DLT_LINUX_SLL [(None, None); (Some h, Some packet)]).
  - repeat constructor; intros p [= <-]. refine (bool_decide_eq_true_1 _ _). by vm_compute.
  - by vm_compute.
Defined.

Lemma catch_packet_reads_len_witness :
  let h := {| ts_sec := 0; ts_usec := 0; caplen := 2; len := 3 |} in
  caplen h = length [1; 2] ∧ (caplen h < len h)%nat
  ∧ @catch_packet ref_net Little (catch_new DLT_LINUX_SLL) (Some h) (Some [1; 2]) = Undef read_past_end.
Proof.
  intros h. split; [done|]. split; [cbn; lia|].
  apply (@catch_packet_reads_len ref_net Little); [done|cbn; lia].
Defined.
