(* ===== verification/Pcap.v ===== *)
(** * Capturing packets: [pcap_wrapper.h], [pcap_wrapper.cpp], and the signal
    handler of [libsleep_proxy.cpp]

    A [Pcap_wrapper] object is a number; its [loop_end_reason] is kept in the
    world, since [break_loop] writes it from other threads and from the signal
    handler.  [loop] is shown to report exactly why it ended: packets were
    captured, or the reason of the last [break_loop], however signals and other
    threads interleave with it. *)
From S2P Require Import Prelude ContainerUtils IntUtils NetText System Ethernet.
Local Open Scope Z_scope.

(** ** Constants of [pcap.h] and of the class *)
Definition PCAP_ERROR : Z := -1.
Definition PCAP_ERROR_BREAK : Z := -2.
Definition PCAP_ERROR_NOT_ACTIVATED : Z := -3.
Definition PCAP_ERROR_ACTIVATED : Z := -4.
Definition default_snaplen : Z := 65000.
Definition default_timeout : Z := 1000.
Definition SIGINT : Z := 2.
Definition SIGTERM : Z := 15.

(** ** The fields of the objects *)
Definition with_reason (id : nat) (ler : Loop_end_reason) (w : world) : world :=
  {| trace := trace w; signaled := signaled w; pcaps := pcaps w; handled := handled w;
     end_reasons := <[id := ler]> (end_reasons w); objects := objects w;
     to_syslog := to_syslog w |}.
Definition with_object (w : world) : world :=
  {| trace := trace w; signaled := signaled w; pcaps := pcaps w; handled := handled w;
     end_reasons := <[objects w := unset]> (end_reasons w); objects := S (objects w);
     to_syslog := to_syslog w |}.
Definition with_signaled (b : bool) (w : world) : world :=
  {| trace := trace w; signaled := b; pcaps := pcaps w; handled := handled w;
     end_reasons := end_reasons w; objects := objects w; to_syslog := to_syslog w |}.
Definition with_handled (l : list Z) (w : world) : world :=
  {| trace := trace w; signaled := signaled w; pcaps := pcaps w; handled := l;
     end_reasons := end_reasons w; objects := objects w; to_syslog := to_syslog w |}.
Definition with_pcaps (l : list nat) (w : world) : world :=
  {| trace := trace w; signaled := signaled w; pcaps := l; handled := handled w;
     end_reasons := end_reasons w; objects := objects w; to_syslog := to_syslog w |}.

Definition reason_of (w : world) (id : nat) : Loop_end_reason :=
  default unset (end_reasons w !! id).

(** [get_end_reason] *)
Definition get_end_reason (id : nat) : M Loop_end_reason :=
  w ← get; mret (reason_of w id).

Section pcap.
Context `{System}.

(** ** Opening a capture *)

Definition get_datalink (id : nat) : M Z :=
  datalink ← call (Pcap_datalink id);
  if decide (datalink = PCAP_ERROR_NOT_ACTIVATED)
  then raise_exn runtime_error "can't get datalink type"
  else mret datalink.

Definition get_verbose_datalink (id : nat) : M string :=
  datalink ← get_datalink id;
  mret (if decide (datalink = DLT_LINUX_SLL) then "Linux cooked socket"
        else if decide (datalink = DLT_EN10MB) then "ethernet"
        else "unknown").

(** The constructor behind [pcap_create] *)
Definition pcap_configure (id : nat) (iface : string) (snaplen : Z) (promisc : bool)
    (timeout : Z) : M unit :=
  r ← call (Pcap_set_snaplen id snaplen);
  if decide (r = PCAP_ERROR_ACTIVATED)
  then raise_exn runtime_error
         ("interface: " +:+ iface +:+ " can't set snaphot length: " +:+ to_string int_t snaplen)
  else
  r ← call (Pcap_set_promisc id (if promisc then 1 else 0));
  if decide (r ≠ 0)
  then raise_exn runtime_error ("interface: " +:+ iface +:+ " can't deactivate promiscuous mode")
  else
  r ← call (Pcap_set_timeout id timeout);
  if decide (r ≠ 0)
  then raise_exn runtime_error ("interface: " +:+ iface +:+ " can't deactivate timeout")
  else
  r ← call (Pcap_activate id);
  if decide (r = -1)
  then raise_exn runtime_error
         ("interface: " +:+ iface +:+ " can't activate selected interface: " +:+ iface)
  else _ ← get_verbose_datalink id; mret tt.

(** The destructor closes the handle. *)
Definition pcap_destroy (id : nat) : M unit := call (Pcap_close id).

Definition pcap_new (iface : string) (snaplen : Z) (promisc : bool) (timeout : Z) : M nat :=
  w ← get;
  let id := objects w in
  _ ← modify with_object;
  err ← call (Pcap_create id iface);
  match err with
  | Some errbuf => raise_exn runtime_error errbuf
  | None => _ ← on_raise (pcap_configure id iface snaplen promisc timeout) (pcap_destroy id);
            mret id
  end.

(** [Pcap_wrapper(iface)] with the default arguments *)
Definition pcap_open (iface : string) : M nat :=
  pcap_new iface default_snaplen false default_timeout.

(** The constructor of [struct BPF] and [set_filter] *)
Definition bpf_new (id : nat) (filter : string) : M unit :=
  r ← call (Pcap_compile id filter);
  if decide (r = -1)
  then raise_exn runtime_error ("Can't compile bpf filter " +:+ filter)
  else mret tt.

Definition set_filter (id : nat) (filter : string) : M unit :=
  _ ← bpf_new id filter;
  r ← call (Pcap_setfilter id);
  if decide (r = -1)
  then err ← call (Pcap_geterr id);
       raise_exn runtime_error ("Couldn't install filter " +:+ filter +:+ ": " +:+ err)
  else mret tt.

Definition inject (id : nat) (data : list Z) : M Z :=
  bytes ← call (Pcap_inject id data);
  if decide (bytes = -1)
  then err ← call (Pcap_geterr id);
       raise_exn runtime_error ("pcap_inject() failed: " +:+ err)
  else mret bytes.

(** ** Breaking the loop, and signals *)

Definition break_loop (id : nat) (ler : Loop_end_reason) : M unit :=
  _ ← modify (with_reason id ler);
  _ ← call (Pcap_breakloop id);
  joinable ← call (Loop_thread_joinable id);
  if (joinable : bool) then call (Pthread_cancel id) else mret tt.

(** [signal_handler] of [libsleep_proxy.cpp] *)
Definition signal_handler : M unit :=
  _ ← modify (with_signaled true);
  w ← get;
  mapM_ (λ pc, break_loop pc signal) (pcaps w).

Definition set_signal (signum : Z) : M unit :=
  ok ← call (Sigaction signum);
  if (ok : bool)
  then w ← get; modify (with_handled (signum :: handled w))
  else raise_errno "sigaction() failed: ".

Definition setup_signals : M unit :=
  _ ← set_signal SIGTERM; set_signal SIGINT.

(** Reading [signaled]: signals which have arrived since the last call have
    been handled by then. *)
Definition is_signaled : M bool :=
  arrived ← call Signal_arrived;
  _ ← (if (arrived : bool) then signal_handler else mret tt);
  w ← get;
  mret (signaled w).

Definition reset_signaled : M unit := modify (with_signaled false).

(** [raise(signum)]: the installed handler runs, or the process ends. *)
Definition raise_signal (signum : Z) : M unit :=
  w ← get;
  if decide (signum ∈ handled w) then signal_handler else end_process (Killed signum).

(** ** The loop *)

Definition interrupted (id : nat) (i : interruption) : M unit :=
  match i with
  | By_signal => signal_handler
  | By_thread ler => break_loop id ler
  end.

(** What happens during [pcap_loop].  The callback runs on the loop thread: an
    exception which leaves it ends the process. *)
Fixpoint during {S} (id : nat) (cb : S → option pcap_pkthdr → option (list Z) → M S) (s : S)
    (hs : list happening) : M S :=
  match hs with
  | [] => mret s
  | Packet header packet :: hs => s ← noexcept (cb s header packet); during id cb s hs
  | Interruption i :: hs => _ ← interrupted id i; during id cb s hs
  end.

(** The end of [loop], when its thread has been joined; an error is thrown under the lock
    of [loop_end_reason]. *)
Definition loop_end (id : nat) (ret_val : Z) : M Loop_end_reason :=
  if decide (ret_val = 0)
  then _ ← modify (with_reason id packets_captured); mret packets_captured
  else if decide (ret_val = PCAP_ERROR)
  then _ ← modify (with_reason id error);
       err ← call (Pcap_geterr id);
       raise_exn runtime_error ("error while captching data: " +:+ err)
  else get_end_reason id.

(** [loop]; [s] is what the callback holds by reference. *)
Definition loop {S} (id : nat) (count : Z)
    (cb : S → option pcap_pkthdr → option (list Z) → M S) (s : S) : M (Loop_end_reason * S) :=
  run ← call (Pcap_loop id count);
  s ← during id cb s (happenings run);
  ler ← loop_end id (default 1 (loop_ret run));
  mret (ler, s).
End pcap.

(** ** The wrapper only talks to libpcap *)

Definition captures (k : kind) : bool := match k with Capture => true | _ => false end.
Definition captures_or_signals (k : kind) : bool :=
  match k with Capture | Signals => true | _ => false end.

Section frames.
Context `{System}.
Context (ks : kind → bool) (Hks : ks Capture = true).

Lemma break_loop_emits id ler : emits (of_kind ks) (break_loop id ler).
Proof using Hks. unfold break_loop. steps_tac. Qed.
Hint Resolve break_loop_emits : proxy.
Lemma signal_handler_emits : emits (of_kind ks) signal_handler.
Proof using Hks. unfold signal_handler. steps_tac. Qed.
Hint Resolve signal_handler_emits : proxy.
Lemma raise_signal_emits sig : emits (of_kind ks) (raise_signal sig).
Proof using Hks. unfold raise_signal. steps_tac. Qed.
Lemma interrupted_emits id i : emits (of_kind ks) (interrupted id i).
Proof using Hks. destruct i; cbn; steps_tac. Qed.
Hint Resolve interrupted_emits : proxy.
Lemma get_datalink_emits id : emits (of_kind ks) (get_datalink id).
Proof using Hks. unfold get_datalink. steps_tac. Qed.
Hint Resolve get_datalink_emits : proxy.
Lemma pcap_destroy_emits id : emits (of_kind ks) (pcap_destroy id).
Proof using Hks. unfold pcap_destroy. steps_tac. Qed.
Hint Resolve pcap_destroy_emits : proxy.
Lemma pcap_configure_emits id iface snaplen promisc timeout :
  emits (of_kind ks) (pcap_configure id iface snaplen promisc timeout).
Proof using Hks. unfold pcap_configure, get_verbose_datalink. steps_tac. Qed.
Hint Resolve pcap_configure_emits : proxy.
Lemma pcap_open_emits iface : emits (of_kind ks) (pcap_open iface).
Proof using Hks. unfold pcap_open, pcap_new. steps_tac. Qed.
Lemma set_filter_emits id filter : emits (of_kind ks) (set_filter id filter).
Proof using Hks. unfold set_filter, bpf_new. steps_tac. Qed.

Lemma during_emits {S} id (cb : S → _ → _ → M S) s hs :
  (∀ s h p, emits (of_kind ks) (cb s h p)) → emits (of_kind ks) (during id cb s hs).
Proof using Hks.
  intros Hcb. revert s. induction hs as [|[h p|i] hs IH]; intros s; cbn [during]; steps_tac.
Qed.
Lemma loop_emits {S} id count (cb : S → _ → _ → M S) s :
  (∀ s h p, emits (of_kind ks) (cb s h p)) → emits (of_kind ks) (loop id count cb s).
Proof using Hks. intros Hcb. unfold loop, loop_end, get_end_reason. steps_tac. by apply during_emits. Qed.
Lemma is_signaled_emits : ks Signals = true → emits (of_kind ks) is_signaled.
Proof using Hks. intros Hs. unfold is_signaled. steps_tac. Qed.
End frames.

(** The registry is only read. *)
Section registry.
Context `{System}.
Lemma break_loop_registry id ler : steps same_registry (break_loop id ler).
Proof. unfold break_loop. steps_tac. Qed.
Hint Resolve break_loop_registry : proxy.
Lemma signal_handler_registry : steps same_registry signal_handler.
Proof. unfold signal_handler. steps_tac. Qed.
Hint Resolve signal_handler_registry : proxy.
Lemma raise_signal_registry sig : steps same_registry (raise_signal sig).
Proof. unfold raise_signal. steps_tac. Qed.
Lemma interrupted_registry id i : steps same_registry (interrupted id i).
Proof. destruct i; cbn; steps_tac. Qed.
Hint Resolve interrupted_registry : proxy.
Lemma get_datalink_registry id : steps same_registry (get_datalink id).
Proof. unfold get_datalink. steps_tac. Qed.
Hint Resolve get_datalink_registry : proxy.
Lemma pcap_destroy_registry id : steps same_registry (pcap_destroy id).
Proof. unfold pcap_destroy. steps_tac. Qed.
Hint Resolve pcap_destroy_registry : proxy.
Lemma pcap_open_registry iface : steps same_registry (pcap_open iface).
Proof. unfold pcap_open, pcap_new, pcap_configure, get_verbose_datalink. steps_tac. Qed.
Lemma set_filter_registry id filter : steps same_registry (set_filter id filter).
Proof. unfold set_filter, bpf_new. steps_tac. Qed.
Lemma during_registry {S} id (cb : S → _ → _ → M S) s hs :
  (∀ s h p, steps same_registry (cb s h p)) → steps same_registry (during id cb s hs).
Proof.
  intros Hcb. revert s. induction hs as [|[h p|i] hs IH]; intros s; cbn [during]; steps_tac.
Qed.
Lemma loop_registry {S} id count (cb : S → _ → _ → M S) s :
  (∀ s h p, steps same_registry (cb s h p)) → steps same_registry (loop id count cb s).
Proof. intros Hcb. unfold loop, loop_end, get_end_reason. steps_tac. by apply during_registry. Qed.
Lemma is_signaled_registry : steps same_registry is_signaled.
Proof. unfold is_signaled. steps_tac. Qed.
End registry.

(** ** Why the loop ended *)

(** The reason an interruption gives to the object [id], when [pcs] are the
    objects the signal handler knows *)
Definition requested (pcs : list nat) (id : nat) (i : interruption) : option Loop_end_reason :=
  match i with
  | By_signal => if bool_decide (id ∈ pcs) then Some signal else None
  | By_thread ler => Some ler
  end.

Definition last_request (pcs : list nat) (id : nat) (ints : list interruption)
    (before : Loop_end_reason) : Loop_end_reason :=
  default before (last (omap (requested pcs id) ints)).

Section reasons.
Context `{System}.

(** [break_loop], the handler and an interruption always return. *)
Lemma break_loop_run id ler w :
  ∃ w', break_loop id ler w = (Val tt, w') ∧ end_reasons w' = <[id := ler]> (end_reasons w)
    ∧ pcaps w' = pcaps w ∧ signaled w' = signaled w ∧ handled w' = handled w.
Proof.
  unfold break_loop, mbind, M_bind, modify, call.
  destruct (reply _ (Loop_thread_joinable id)); [destruct (reply _ (Pthread_cancel id))|];
    (eexists; split_and!; reflexivity).
Qed.

Lemma break_all_run l ler w :
  ∃ w', mapM_ (λ pc, break_loop pc ler) l w = (Val tt, w')
    ∧ (∀ id, reason_of w' id = if bool_decide (id ∈ l) then ler else reason_of w id)
    ∧ pcaps w' = pcaps w ∧ signaled w' = signaled w ∧ handled w' = handled w.
Proof.
  revert w. induction l as [|pc l IH]; intros w; cbn [mapM_].
  { exists w. split_and!; try done. }
  unfold mbind, M_bind.
  destruct (break_loop_run pc ler w) as (w1 & -> & Hr & Hp & Hs & Hh).
  destruct (IH w1) as (w2 & -> & Hr2 & Hp2 & Hs2 & Hh2).
  exists w2. split_and!; [done| |congruence..]. intros id. rewrite Hr2. unfold reason_of.
  rewrite Hr. destruct (decide (id = pc)) as [->|].
  - rewrite lookup_insert_eq, (bool_decide_true (pc ∈ pc :: l)) by constructor.
    by case_bool_decide.
  - rewrite lookup_insert_ne by done.
    by rewrite (bool_decide_ext (id ∈ pc :: l) (id ∈ l)) by (rewrite elem_of_cons; tauto).
Qed.

Lemma signal_handler_run w :
  ∃ w', signal_handler w = (Val tt, w') ∧ signaled w' = true
    ∧ (∀ id, reason_of w' id = if bool_decide (id ∈ pcaps w) then signal else reason_of w id)
    ∧ pcaps w' = pcaps w ∧ handled w' = handled w.
Proof.
  unfold signal_handler, mbind, M_bind, modify, get.
  destruct (break_all_run (pcaps w) signal (with_signaled true w)) as (w' & Hw & ?).
  exists w'. cbn. rewrite Hw. tauto.
Qed.

Lemma wp_signal_handler R Q E w :
  steps R signal_handler → (∀ w', R w w' → Q tt w') → wp signal_handler Q E w.
Proof.
  intros HR HQ. specialize (HR w). unfold wp.
  destruct (signal_handler_run w) as (w' & Hw & _). rewrite Hw in *. by apply HQ.
Qed.

Lemma interrupted_run id i w :
  ∃ w', interrupted id i w = (Val tt, w') ∧ pcaps w' = pcaps w
    ∧ reason_of w' id = default (reason_of w id) (requested (pcaps w) id i)
    ∧ signaled w' = (signaled w || bool_decide (i = By_signal)).
Proof.
  destruct i as [|ler]; cbn [interrupted requested].
  - destruct (signal_handler_run w) as (w' & -> & ? & Hr & ? & ?). exists w'.
    rewrite Hr. split_and!; try done; [by case_bool_decide|]. by rewrite orb_true_r.
  - destruct (break_loop_run id ler w) as (w' & -> & Hr & ? & ? & ?). exists w'.
    unfold reason_of. rewrite Hr, lookup_insert_eq. split_and!; try done. by rewrite orb_false_r.
Qed.

(** During the loop the callback changes its own state [s], the interruptions the
    reason. *)
Lemma during_run {S} id (f : S → _ → _ → outcome S) s s' hs lr w :
  let run := {| happenings := hs; loop_ret := lr |} in
  foldl (λ m hp, m ≫= λ s, f s hp.1 hp.2) (Ret s) (deliveries run) = Ret s' →
  ∃ w', during id (λ s h p, lift (f s h p)) s hs w = (Val s', w') ∧ pcaps w' = pcaps w
    ∧ reason_of w' id = last_request (pcaps w) id (interruptions run) (reason_of w id)
    ∧ signaled w' = (signaled w || bool_decide (By_signal ∈ interruptions run)).
Proof.
  revert s w. unfold deliveries, interruptions. cbn [happenings].
  induction hs as [|[h p|i] hs IH]; intros s w; cbn [omap list_omap foldl during].
  - intros [= ->]. exists w. split_and!; try done.
    by rewrite bool_decide_false, orb_false_r by apply not_elem_of_nil.
  - cbn [mbind outcome_bind fst snd]. intros Hf. unfold mbind, M_bind, noexcept, lift.
    destruct (f s h p) as [s1|e|u] eqn:Hfs; [by apply IH| |].
    + by rewrite foldl_bind_Throw in Hf.
    + by rewrite foldl_bind_Undef in Hf.
  - intros Hf. unfold mbind, M_bind. destruct (interrupted_run id i w) as (w1 & -> & Hp & Hr & Hs).
    destruct (IH s w1 Hf) as (w2 & -> & Hp2 & Hr2 & Hs2). exists w2.
    split_and!; [done|congruence|..].
    + rewrite Hr2, Hp, Hr. unfold last_request. cbn [omap list_omap].
      destruct (requested (pcaps w) id i) as [r|]; cbn [default]; [|done].
      rewrite last_cons. by destruct (last _).
    + rewrite Hs2, Hs, <-orb_assoc. f_equal.
      destruct i as [|ler]; [by rewrite (bool_decide_true (By_signal ∈ _ :: _)) by constructor|].
      rewrite (bool_decide_ext (By_signal ∈ By_thread ler :: _) (By_signal ∈
        omap (λ h, match h with Interruption i => Some i | _ => None end) hs)); [done|].
      rewrite elem_of_cons. intuition congruence.
Qed.
End reasons.

Section reason_theorem.
Context `{System}.

(** The result of [loop]: [pcap_loop]'s return value decides, and where it says
    nothing the last request to break the loop. *)
Definition loop_result {S} (w : world) (id : nat) (run : loop_run) (s : S)
    (r : res (Loop_end_reason * S)) : Prop :=
  match default 1 (loop_ret run) with
  | 0 => r = Val (packets_captured, s)
  | -1 => ∃ msg, r = Raised (Exn runtime_error msg)
  | _ => r = Val (last_request (pcaps w) id (interruptions run) (reason_of w id), s)
  end.

Lemma loop_run_result {S} id count (f : S → _ → _ → outcome S) s s' w :
  let run := reply (trace w) (Pcap_loop id count) in
  foldl (λ m hp, m ≫= λ s, f s hp.1 hp.2) (Ret s) (deliveries run) = Ret s' →
  ∃ r w', loop id count (λ s h p, lift (f s h p)) s w = (r, w') ∧ loop_result w id run s' r
    ∧ pcaps w' = pcaps w
    ∧ signaled w' = (signaled w || bool_decide (By_signal ∈ interruptions run)).
Proof.
  intros run Hf. unfold loop, loop_result. unfold mbind at 1, M_bind, call at 1. fold run.
  unfold mbind at 1, M_bind.
  destruct (during_run id f s s' (happenings run) (loop_ret run) (add_event (Event (Pcap_loop id count) run) w))
    as (w1 & -> & Hp & Hr & Hs); [by destruct run|].
  change (interruptions {| happenings := happenings run; loop_ret := loop_ret run |})
    with (interruptions run) in Hr, Hs.
  cbn [add_event pcaps signaled] in Hp, Hs.
  unfold loop_end. destruct (decide (default 1 (loop_ret run) = 0)) as [E|].
  { rewrite E. eexists _, _. split_and!; [done..| |]; cbn; congruence. }
  destruct (decide (default 1 (loop_ret run) = PCAP_ERROR)) as [E|].
  { rewrite E. eexists _, _. split_and!; [done|by eexists| |]; cbn; congruence. }
  eexists _, w1. split_and!; [done| |congruence..].
  cbn. rewrite Hr. destruct (default 1 _) as [|q|[q|q|]]; try done.
Qed.
End reason_theorem.

(** C32: the value [loop] returns says exactly why it ended.  With return value 0
    of [pcap_loop] it is [packets_captured], whatever was requested before; an
    error is an exception; in every other case it is the reason of the last
    [break_loop] on this object -- by another thread, or by a signal if the object
    is registered in [pcaps] -- and without any the one from before.  A signal
    during the loop also sets [signaled]. *)
Theorem loop_end_reason_exact `{System} {S} id count (f : S → _ → _ → outcome S) s s' w :
  let run := reply (trace w) (Pcap_loop id count) in
  foldl (λ m hp, m ≫= λ s, f s hp.1 hp.2) (Ret s) (deliveries run) = Ret s' →
  ∃ r w', loop id count (λ s h p, lift (f s h p)) s w = (r, w') ∧ loop_result w id run s' r
    ∧ signaled w' = (signaled w || bool_decide (By_signal ∈ interruptions run)).
Proof.
  intros run Hf. destruct (loop_run_result id count f s s' w Hf) as (r & w' & ? & ? & _ & ?).
  by exists r, w'.
Qed.

(** A loop which a watcher breaks and which a signal breaks afterwards *)
Definition broken_run : loop_run :=
  {| happenings := [Interruption (By_thread duplicate_address); Interruption By_signal];
     loop_ret := Some PCAP_ERROR_BREAK |}.
Definition broken_system : System :=
  {| reply := λ A _ c, match c in syscall A return A with
                       | Pcap_loop _ _ => broken_run
                       | c => default_reply c
                       end;
     strerror_errno := λ _, "error" |}.

Lemma loop_end_reason_exact_witness :
  let w := with_pcaps [3%nat] world_init in
  let f := λ (n : nat) (_ : option pcap_pkthdr) (_ : option (list Z)), Ret (S n) in
  foldl (λ m hp, m ≫= λ s, f s hp.1 hp.2) (Ret O) (deliveries broken_run) = Ret O
  ∧ ∃ r w', @loop broken_system _ 3 1 (λ s h p, lift (f s h p)) O w = (r, w')
    ∧ loop_result w 3 broken_run O r
    ∧ signaled w' = (signaled w || bool_decide (By_signal ∈ interruptions broken_run))
    ∧ r = Val (signal, O).
Proof.
  intros w f. split; [done|].
  destruct (@loop_end_reason_exact broken_system _ 3 1 f O O w eq_refl) as (r & w' & Hl & Hr & Hs).
  exists r, w'. split; [exact Hl|]. split; [exact Hr|]. split; [exact Hs|exact Hr].
Defined.
