(* ===== verification/FileDescriptor.v ===== *)
(** * File descriptors: [file_descriptor.h], [file_descriptor.cpp]

    [File_descriptor] owns a descriptor, moves swap, and [close] leaves the
    standard streams alone.  Shown: whatever sequence of moves, closes and
    destructions is run over a set of objects, no descriptor is closed twice and
    none which a standard stream uses; and [read] returns exactly the lines
    which are waiting in a pipe. *)
From S2P Require Import Prelude ContainerUtils IntUtils NetText System.
Local Open Scope Z_scope.

Record File_descriptor := mkfd { fd : Z }.
#[export] Instance File_descriptor_eq_dec : EqDecision File_descriptor.
Proof. solve_decision. Defined.

(** The default constructor *)
Definition fd_default : File_descriptor := mkfd (-1).

Definition FD_CLOEXEC : Z := 1.
Definition buffer_size : nat := 100.
Definition newline : Z := 10.

(** [byte_vector_to_string] and [byte_vector_to_strings] *)
Definition byte_vector_to_string (v : list Z) : string :=
  of_chars ((λ b, Ascii.ascii_of_N (Z.to_N b)) <$> v).
Definition byte_vector_to_strings (data : list Z) : list string :=
  byte_vector_to_string <$> split data newline.

(** The move constructor and the move assignment: the new contents of both
    objects *)
Definition fd_move_assign (lhs rhs : File_descriptor) : File_descriptor * File_descriptor :=
  (rhs, lhs).
Definition fd_move (rhs : File_descriptor) : File_descriptor * File_descriptor :=
  fd_move_assign fd_default rhs.

Section file_descriptor.
Context `{System}.

Definition fd_new (fdd : Z) : M File_descriptor :=
  if decide (fdd < 0) then raise_errno "file descriptor is negative: " else mret (mkfd fdd).

(** [get_fd_from_stream]; [None] is the null pointer *)
Definition get_fd_from_stream (s : option stream) : M Z :=
  match s with
  | None => raise_exn domain_error "input FILE is nullptr"
  | Some s =>
      fd ← call (Fileno s);
      if decide (fd = -1) then raise_errno "could not get file descriptor of file: " else mret fd
  end.

(** The condition of [close], evaluated from left to right *)
Definition keeps_open (f : File_descriptor) : M bool :=
  if decide (fd f < 0) then mret true else
  i ← get_fd_from_stream (Some std_in);
  if decide (i = fd f) then mret true else
  o ← get_fd_from_stream (Some std_out);
  if decide (o = fd f) then mret true else
  e ← get_fd_from_stream (Some std_err);
  mret (bool_decide (e = fd f)).

(** [close]: the object afterwards, and whether an exception was thrown *)
Definition fd_close (f : File_descriptor) : M (File_descriptor * outcome unit) :=
  keep ← attempt (keeps_open f);
  match keep with
  | Ret true => mret (f, Ret tt)
  | Ret false =>
      ok ← call (Close (fd f));
      if (ok : bool) then mret (fd_default, Ret tt)
      else thrown ← attempt (raise_errno "File_descriptor::close() failed: ");
           mret (fd_default, thrown)
  | Throw e => mret (f, Throw e)
  | Undef u => end_process (Crash u)
  end.

(** The destructor reports exceptions to [std::cerr]. *)
Definition fd_destroy (f : File_descriptor) : M unit :=
  _ ← fd_close f; mret tt.

Definition is_data_ready_to_read (fd : Z) : M bool :=
  retval ← call (Poll_in fd);
  if decide (retval = -1) then raise_errno "File_descriptor::poll() failed: "
  else mret (bool_decide (retval ≠ 0)).

(** The loop of [read]; [read_bytes] and [complete_data] are its variables. *)
Fixpoint read_loop (fuel : nat) (fd : Z) (read_bytes : Z) (complete_data : list Z) : M (list Z) :=
  match fuel with
  | O => end_process Out_of_fuel
  | S fuel =>
      ready ← is_data_ready_to_read fd;
      if ready && bool_decide (read_bytes ≠ 0) then
        data ← call (Read fd buffer_size);
        match data with
        | None => raise_errno "File_descriptor::read() failed: "
        | Some data =>
            if decide (buffer_size < length data)%nat then end_process (Crash write_past_end)
            else read_loop fuel fd (Z.of_nat (length data)) (complete_data ++ data)
        end
      else mret complete_data
  end.

Definition fd_read (fuel : nat) (f : File_descriptor) : M (list string) :=
  data ← read_loop fuel (fd f) (-1) [];
  mret (byte_vector_to_strings data).

Definition flush_file (s : option stream) : M unit :=
  match s with
  | None => raise_exn domain_error "given FILE input is nullptr"
  | Some s =>
      ok ← call (Fflush s);
      if (ok : bool) then mret tt else raise_errno "could not flush file: "
  end.

Definition file_exists (filename : string) : M bool := call (Stat filename).

Definition get_self_pipes (close_on_exec : bool) : M (File_descriptor * File_descriptor) :=
  pipefds ← call Pipe;
  match pipefds with
  | None => raise_errno "pipe() failed: "
  | Some (r, w) =>
      p0 ← fd_new r;
      p1 ← on_raise (fd_new w) (fd_destroy p0);
      if close_on_exec
      then on_raise
             (on_raise
                (flags ← call (Fcntl_getfd (fd p1));
                 ok ← call (Fcntl_setfd (fd p1) (Z.lor flags FD_CLOEXEC));
                 if (ok : bool) then mret (p0, p1) else raise_errno "fcntl() failed: ")
                (fd_destroy p1))
             (fd_destroy p0)
      else mret (p0, p1)
  end.
End file_descriptor.

(** ** Only files are touched *)
Section frames.
Context `{System}.
Context (ks : kind → bool) (Hks : ks Files = true).

Lemma get_fd_from_stream_emits s : emits (of_kind ks) (get_fd_from_stream s).
Proof using Hks. unfold get_fd_from_stream. steps_tac. Qed.
Hint Resolve get_fd_from_stream_emits : proxy.
Lemma fd_close_emits f : emits (of_kind ks) (fd_close f).
Proof using Hks. unfold fd_close, keeps_open. steps_tac. Qed.
Hint Resolve fd_close_emits : proxy.
Lemma fd_destroy_emits f : emits (of_kind ks) (fd_destroy f).
Proof using Hks. unfold fd_destroy. steps_tac. Qed.
Hint Resolve fd_destroy_emits : proxy.
Lemma fd_new_emits n : emits (of_kind ks) (fd_new n).
Proof using Hks. unfold fd_new. steps_tac. Qed.
Hint Resolve fd_new_emits : proxy.
Lemma read_loop_emits fuel n r d : emits (of_kind ks) (read_loop fuel n r d).
Proof using Hks.
  revert r d. induction fuel as [|fuel IH]; intros r d; cbn; unfold is_data_ready_to_read; steps_tac.
Qed.
Hint Resolve read_loop_emits : proxy.
Lemma fd_read_emits fuel f : emits (of_kind ks) (fd_read fuel f).
Proof using Hks. unfold fd_read. steps_tac. Qed.
Lemma get_self_pipes_emits b : emits (of_kind ks) (get_self_pipes b).
Proof using Hks. unfold get_self_pipes. steps_tac. Qed.
End frames.

Section registry.
Context `{System}.
Lemma get_fd_from_stream_registry s : steps same_registry (get_fd_from_stream s).
Proof. unfold get_fd_from_stream. steps_tac. Qed.
Hint Resolve get_fd_from_stream_registry : proxy.
Lemma fd_close_registry f : steps same_registry (fd_close f).
Proof. unfold fd_close, keeps_open. steps_tac. Qed.
Hint Resolve fd_close_registry : proxy.
Lemma fd_destroy_registry f : steps same_registry (fd_destroy f).
Proof. unfold fd_destroy. steps_tac. Qed.
Hint Resolve fd_destroy_registry : proxy.
Lemma read_loop_registry fuel n r d : steps same_registry (read_loop fuel n r d).
Proof.
  revert r d. induction fuel as [|fuel IH]; intros r d; cbn; unfold is_data_ready_to_read; steps_tac.
Qed.
Hint Resolve read_loop_registry : proxy.
Lemma fd_read_registry fuel f : steps same_registry (fd_read fuel f).
Proof. unfold fd_read. steps_tac. Qed.
Lemma get_self_pipes_registry b : steps same_registry (get_self_pipes b).
Proof. unfold get_self_pipes, fd_new. steps_tac. Qed.
End registry.

(** ** Ownership *)

(** What a program can do with the objects it has; an object which has been
    destroyed is gone. *)
Inductive fd_op := Move_construct (i : nat) | Move_assign (i j : nat) | Close_fd (i : nat) | Destroy (i : nat).

Section ownership.
Context `{System}.
Implicit Types pool : list File_descriptor.

Definition run_op (op : fd_op) (pool : list File_descriptor) : M (list File_descriptor) :=
  match op with
  | Move_construct i =>
      mret (match pool !! i with
            | Some rhs => let '(new, rhs') := fd_move rhs in <[i := rhs']> pool ++ [new]
            | None => pool
            end)
  | Move_assign i j =>
      mret (match pool !! i, pool !! j with
            | Some lhs, Some rhs =>
                let '(lhs', rhs') := fd_move_assign lhs rhs in <[i := lhs']> (<[j := rhs']> pool)
            | _, _ => pool
            end)
  | Close_fd i =>
      match pool !! i with
      | Some f => r ← fd_close f; mret (<[i := r.1]> pool)
      | None => mret pool
      end
  | Destroy i =>
      match pool !! i with
      | Some f => _ ← fd_destroy f; mret (delete i pool)
      | None => mret pool
      end
  end.

Fixpoint run_ops (ops : list fd_op) (pool : list File_descriptor) : M (list File_descriptor) :=
  match ops with
  | [] => mret pool
  | op :: ops => pool ← run_op op pool; run_ops ops pool
  end.

(** The descriptors the objects hold, and those which have been closed *)
Definition open_fd (f : File_descriptor) : option Z := if decide (0 ≤ fd f) then Some (fd f) else None.
Definition held pool : list Z := omap open_fd pool.
Definition closed_fd (e : event) : option Z :=
  let '(Event c _) := e in match c with Close fd => Some fd | _ => None end.
Definition closed (h : history) : list Z := omap closed_fd h.

Lemma held_app pool1 pool2 : held (pool1 ++ pool2) = held pool1 ++ held pool2.
Proof. apply omap_app. Qed.

Lemma pool_split pool i f : pool !! i = Some f →
  pool = take i pool ++ f :: drop (S i) pool ∧ length (take i pool) = i.
Proof.
  intros Hi. split; [by rewrite take_drop_middle|].
  rewrite length_take. apply lookup_lt_Some in Hi. lia.
Qed.

(** The standard streams have fixed descriptors. *)
Context (std : stream → Z) (Hstd : ∀ h s, reply h (Fileno s) = std s).

Lemma keeps_open_run f w : ∃ o w' h,
  attempt (keeps_open f) w = (Val o, w') ∧ trace w' = trace w ++ h ∧ closed h = []
  ∧ (∀ u, o ≠ Undef u) ∧ (o = Ret false → 0 ≤ fd f ∧ ∀ s, std s ≠ fd f).
Proof using Hstd.
  assert (∀ s w, ∃ e, get_fd_from_stream (Some s) w =
    (if decide (std s = -1) then Raised e else Val (std s),
     add_event (Event (Fileno s) (std s)) w)) as Hget.
  { intros s w'. unfold get_fd_from_stream, mbind, M_bind, call, raise_errno, mret, M_ret.
    rewrite Hstd. exists (Exn runtime_error ("could not get file descriptor of file: " +:+
      strerror_errno (trace (add_event (Event (Fileno s) (std s)) w')))). by case_decide. }
  unfold attempt, keeps_open.
  destruct (decide (fd f < 0)).
  { exists (Ret true), w, []. by rewrite app_nil_r. }
  unfold mbind at 1, M_bind at 1. destruct (Hget std_in w) as [e1 ->].
  destruct (decide (std std_in = -1)); [by eexists (Throw _), _, [_]|].
  destruct (decide (std std_in = fd f)); [by eexists (Ret true), _, [_]|].
  unfold mbind at 1, M_bind at 1. destruct (Hget std_out (add_event (Event (Fileno std_in) (std std_in)) w)) as [e2 ->].
  destruct (decide (std std_out = -1)).
  { eexists (Throw _), _, [_; _]. split_and!; [reflexivity|cbn; by rewrite <-(assoc_L (++))|done..]. }
  destruct (decide (std std_out = fd f)).
  { eexists (Ret true), _, [_; _]. split_and!; [reflexivity|cbn; by rewrite <-(assoc_L (++))|done..]. }
  unfold mbind, M_bind. destruct (Hget std_err (add_event (Event (Fileno std_out) (std std_out))
    (add_event (Event (Fileno std_in) (std std_in)) w))) as [e3 ->].
  destruct (decide (std std_err = -1)).
  { eexists (Throw _), _, [_; _; _]. split_and!; [reflexivity|cbn; by rewrite <-!(assoc_L (++))|done..]. }
  eexists (Ret _), _, [_; _; _]. split_and!; [reflexivity|cbn; by rewrite <-!(assoc_L (++))|done..|].
  intros [= Hne%bool_decide_eq_false]. split; [lia|]. by intros [].
Qed.

Lemma fd_close_run f w : ∃ f' o w' h,
  fd_close f w = (Val (f', o), w') ∧ trace w' = trace w ++ h ∧
  ((f' = f ∧ closed h = []) ∨
   (0 ≤ fd f ∧ (∀ s, std s ≠ fd f) ∧ f' = fd_default ∧ closed h = [fd f])).
Proof using Hstd.
  unfold fd_close, mbind at 1, M_bind at 1.
  destruct (keeps_open_run f w) as (o & w1 & h & -> & Ht & Hc & Hu & Hk).
  destruct o as [[|]|e|u].
  - exists f, (Ret tt), w1, h. auto.
  - destruct Hk as [? Hs]; [done|]. unfold mbind, M_bind, call.
    destruct (reply _ (Close (fd f))).
    all: eexists _, _, _, (h ++ [_]); split; [done|].
    all: split; [cbn; by rewrite Ht, (assoc_L (++))|].
    all: right; unfold closed in *; by rewrite omap_app, Hc.
  - exists f, (Throw e), w1, h. auto.
  - by destruct (Hu u).
Qed.

Lemma held_insert pool i f f' : pool !! i = Some f → open_fd f = open_fd f' →
  held (<[i := f']> pool) = held pool.
Proof.
  intros Hi Heq. destruct (pool_split pool i f Hi) as [Hp Hl].
  rewrite Hp at 2. rewrite insert_take_drop by by eapply lookup_lt_Some.
  rewrite !held_app. cbn. by rewrite Heq.
Qed.

(** The object [i] without the rest *)
Lemma held_split pool i f : pool !! i = Some f →
  held pool ≡ₚ option_list (open_fd f) ++ held (delete i pool).
Proof.
  intros Hi. destruct (pool_split pool i f Hi) as [Hp _]. rewrite Hp at 1.
  rewrite delete_take_drop, !held_app. cbn.
  destruct (open_fd f); cbn; [|done]. by rewrite Permutation_middle.
Qed.

Lemma held_replace pool i f f' : pool !! i = Some f →
  held (<[i := f']> pool) ≡ₚ option_list (open_fd f') ++ held (delete i pool).
Proof.
  intros Hi. rewrite insert_take_drop, delete_take_drop, !held_app by by eapply lookup_lt_Some.
  cbn. destruct (open_fd f'); cbn; [|done]. by rewrite Permutation_middle.
Qed.

(** One operation: what is closed and what is held afterwards was held before,
    and what is closed belongs to no standard stream. *)
Lemma run_op_run op pool w : ∃ pool' w' h,
  run_op op pool w = (Val pool', w') ∧ trace w' = trace w ++ h
  ∧ closed h ++ held pool' ⊆+ held pool ∧ (∀ s, std s ∉ closed h).
Proof using Hstd.
  destruct op as [i|i j|i|i]; cbn [run_op].
  - eexists _, w, []. split; [done|]. split; [by rewrite app_nil_r|]. split; [|by intros s ?%elem_of_nil].
    destruct (pool !! i) as [rhs|] eqn:Hi; [|done]. cbn.
    rewrite held_app, (held_replace _ _ _ _ Hi), (held_split _ _ _ Hi). cbn.
    by rewrite Permutation_app_comm.
  - eexists _, w, []. split; [done|]. split; [by rewrite app_nil_r|]. split; [|by intros s ?%elem_of_nil].
    destruct (pool !! i) as [lhs|] eqn:Hi; [|done]. destruct (pool !! j) as [rhs|] eqn:Hj; [|done].
    cbn. destruct (decide (i = j)) as [->|Hne].
    { rewrite list_insert_insert_eq. rewrite (list_insert_id pool) by congruence. done. }
    assert (<[j:=lhs]> pool !! i = Some lhs) as Hi' by by rewrite list_lookup_insert_ne.
    assert (held (delete i (<[j:=lhs]> pool)) ≡ₚ held (delete j pool)) as Hd.
    { apply (Permutation_app_inv_l (option_list (open_fd lhs))).
      by rewrite <-(held_split _ _ _ Hi'), <-(held_replace _ _ _ lhs Hj). }
    by rewrite (held_replace _ _ _ _ Hi'), (held_split _ _ _ Hj), Hd.
  - destruct (pool !! i) as [f|] eqn:Hi; [|by eexists _, w, []; rewrite app_nil_r; split_and!; try done; intros s ?%elem_of_nil].
    unfold mbind, M_bind. destruct (fd_close_run f w) as (f' & o & w' & h & -> & Ht & Hc).
    eexists _, w', h. split; [done|]. split; [done|]. cbn. rewrite (held_replace _ _ _ _ Hi), (held_split _ _ _ Hi).
    destruct Hc as [[-> ->]|(Hp & Hs & -> & ->)].
    + split; [done|by intros s ?%elem_of_nil].
    + unfold open_fd at 2. rewrite decide_True by done. cbn. split; [done|].
      intros s Hin%list_elem_of_singleton. by apply (Hs s).
  - destruct (pool !! i) as [f|] eqn:Hi; [|by eexists _, w, []; rewrite app_nil_r; split_and!; try done; intros s ?%elem_of_nil].
    unfold fd_destroy, mbind, M_bind. destruct (fd_close_run f w) as (f' & o & w' & h & -> & Ht & Hc).
    eexists _, w', h. split; [done|]. split; [done|]. rewrite (held_split _ _ _ Hi).
    destruct Hc as [[-> ->]|(Hp & Hs & -> & ->)].
    + split; [by apply submseteq_inserts_l|by intros s ?%elem_of_nil].
    + unfold open_fd. rewrite decide_True by done. cbn. split; [done|].
      intros s Hin%list_elem_of_singleton. by apply (Hs s).
Qed.

Lemma run_ops_run ops pool w : ∃ pool' w' h,
  run_ops ops pool w = (Val pool', w') ∧ trace w' = trace w ++ h
  ∧ closed h ++ held pool' ⊆+ held pool ∧ (∀ s, std s ∉ closed h).
Proof using Hstd.
  revert pool w. induction ops as [|op ops IH]; intros pool w; cbn [run_ops].
  { exists pool, w, []. rewrite app_nil_r. split_and!; try done. by intros s ?%elem_of_nil. }
  destruct (run_op_run op pool w) as (p1 & w1 & h1 & Hr & Ht & Hc & Hs).
  unfold mbind, M_bind. rewrite Hr.
  destruct (IH p1 w1) as (p2 & w2 & h2 & -> & Ht2 & Hc2 & Hs2).
  exists p2, w2, (h1 ++ h2). unfold closed in *. rewrite omap_app. split_and!; [done|..].
  - by rewrite Ht2, Ht, <-(assoc_L (++)).
  - etrans; [|exact Hc]. rewrite <-(assoc_L (++)). by apply submseteq_skips_l.
  - intros s [?|?]%elem_of_app; [by apply (Hs s)|by apply (Hs2 s)].
Qed.
End ownership.

(** ** Reading lines out of a pipe *)
Section reading.
Context `{System}.

(** What the kernel does for a pipe (or file) with descriptor [fd]:
    [remaining h] are the bytes nobody has read yet.  [poll] reports whether
    there are any, and [read] hands out the first ones. *)
Record pipe_reader (fd : Z) (remaining : history → list Z) : Prop := {
  poll_pipe h : reply h (Poll_in fd) = if bool_decide (remaining h = []) then 0 else 1;
  read_pipe h n : reply h (Read fd n) = Some (take n (remaining h));
  after_poll h r : remaining (h ++ [Event (Poll_in fd) r]) = remaining h;
  after_read h n r : remaining (h ++ [Event (Read fd n) r]) = drop n (remaining h);
}.

Context (fd : Z) (remaining : history → list Z) (Hpipe : pipe_reader fd remaining).

Lemma ready_run w : ∃ r,
  is_data_ready_to_read fd w
  = (Val (negb (bool_decide (remaining (trace w) = []))), add_event (Event (Poll_in fd) r) w).
Proof using Hpipe.
  unfold is_data_ready_to_read, mbind, M_bind, call. rewrite (poll_pipe _ _ Hpipe).
  by case_bool_decide; eexists.
Qed.

Lemma read_loop_pipe fuel r acc w :
  r ≠ 0 → (length (remaining (trace w)) + buffer_size ≤ fuel * buffer_size)%nat →
  ∃ w', read_loop fuel fd r acc w = (Val (acc ++ remaining (trace w)), w')
        ∧ remaining (trace w') = [].
Proof using Hpipe.
  revert r acc w. induction fuel as [|fuel IH]; intros r acc w Hr Hf; [unfold buffer_size in *; lia|].
  cbn [read_loop]. unfold mbind at 1, M_bind at 1. destruct (ready_run w) as [p ->].
  case_bool_decide as Hnil.
  { rewrite Hnil, app_nil_r. eexists. split; [done|]. cbn. by rewrite (after_poll _ _ Hpipe). }
  rewrite (bool_decide_true (r ≠ 0)) by done. cbn [andb negb].
  unfold mbind, M_bind, call. cbn [trace add_event].
  rewrite (read_pipe _ _ Hpipe), (after_poll _ _ Hpipe).
  rewrite (decide_False (P := (buffer_size < _)%nat)) by (rewrite length_take; lia).
  edestruct (IH (Z.of_nat (length (take buffer_size (remaining (trace w))))))
    as (w' & Hw' & Hd); [| |].
  3: { rewrite Hw'. exists w'. split; [|exact Hd]. cbn.
       rewrite (after_read _ _ Hpipe), (after_poll _ _ Hpipe).
       by rewrite <-(assoc_L (++)), take_drop. }
  - rewrite length_take. unfold buffer_size. destruct (remaining (trace w)); [done|cbn; lia].
  - cbn. rewrite (after_read _ _ Hpipe), (after_poll _ _ Hpipe), length_drop.
    destruct (remaining (trace w)); [done|]. cbn in *. unfold buffer_size in *. lia.
Qed.
End reading.

(** ** Lines *)
Definition string_bytes (s : string) : list Z := char_code <$> chars s.

#[local] Arguments split : simpl never.
#[local] Arguments byte_vector_to_string : simpl never.
#[local] Arguments string_bytes : simpl never.

Lemma byte_vector_to_string_bytes s : byte_vector_to_string (string_bytes s) = s.
Proof.
  unfold byte_vector_to_string, string_bytes. rewrite <-list_fmap_compose.
  rewrite (list_fmap_ext _ id) by (intros i c _; cbn; unfold char_code;
    by rewrite N2Z.id, Ascii.ascii_N_embedding).
  by rewrite list_fmap_id, of_chars_chars.
Qed.

Lemma split_lines lines rest :
  Forall (λ l, newline ∉ string_bytes l) (lines ++ [rest]) →
  byte_vector_to_strings ((lines ≫= λ l, string_bytes l ++ [newline]) ++ string_bytes rest)
  = lines ++ if decide (rest = "") then [] else [rest].
Proof.
  unfold byte_vector_to_strings. induction lines as [|l lines IH]; cbn [app].
  - intros [Hr _]%Forall_cons. case_decide as E; [by rewrite E|].
    rewrite split_nodelim; [cbn; by rewrite byte_vector_to_string_bytes| |done].
    intros Hnil%fmap_nil_inv. by apply E, chars_nil.
  - intros [Hl Hall]%Forall_cons. cbn. rewrite <-!(assoc_L (++)). cbn.
    rewrite split_delim by done. cbn. by rewrite byte_vector_to_string_bytes, IH.
Qed.

(** ** Properties *)

(** C33: whatever moves, closes and destructors run over a set of objects which
    hold different descriptors, every descriptor is closed at most once, no
    closed descriptor is still held, nothing foreign is closed, and the
    descriptors of the standard streams stay open. *)
Theorem fd_closed_once `{System} (std : stream → Z) ops pool w :
  (∀ h s, reply h (Fileno s) = std s) → NoDup (held pool) →
  ∃ pool' w' h, run_ops ops pool w = (Val pool', w') ∧ trace w' = trace w ++ h
    ∧ NoDup (closed h ++ held pool') ∧ closed h ++ held pool' ⊆ held pool
    ∧ ∀ s, std s ∉ closed h.
Proof.
  intros Hstd Hnd. destruct (run_ops_run std Hstd ops pool w) as (p & w' & h & ? & ? & Hc & ?).
  exists p, w', h. split_and!; try done.
  - apply submseteq_Permutation in Hc as [k Hk]. rewrite Hk in Hnd.
    by apply NoDup_app in Hnd as [? _].
  - intros x ?. by eapply elem_of_submseteq.
Qed.

(** C34: [read] on a pipe returns every line which has been written to it,
    without the line ends, and empties it; a loop over chunks of 100 bytes
    which ends after one pass more than there are (begun) chunks. *)
Theorem fd_read_lines `{System} n remaining fuel w lines rest :
  pipe_reader n remaining →
  remaining (trace w) = (lines ≫= λ l, string_bytes l ++ [newline]) ++ string_bytes rest →
  Forall (λ l, newline ∉ string_bytes l) (lines ++ [rest]) →
  (length (remaining (trace w)) + buffer_size ≤ fuel * buffer_size)%nat →
  ∃ w', fd_read fuel (mkfd n) w = (Val (lines ++ if decide (rest = "") then [] else [rest]), w')
        ∧ remaining (trace w') = [].
Proof.
  intros Hpipe Hrem Hlines Hfuel. unfold fd_read, mbind, M_bind. cbn [fd].
  destruct (read_loop_pipe n remaining Hpipe fuel (-1) [] w) as (w' & -> & ?); [done..|].
  exists w'. split; [|done]. cbn [app]. by rewrite Hrem, split_lines.
Qed.

(** ** Witnesses *)
Lemma fd_closed_once_witness :
  let std := λ s, match s with std_in => 0 | std_out => 1 | std_err => 2 end in
  let pool := [mkfd 1; mkfd 5; fd_default] in
  NoDup (held pool) ∧
  ∃ pool' w' h, @run_ops default_system
      [Move_construct 1; Close_fd 3; Close_fd 3; Move_assign 2 3; Destroy 2; Destroy 0] pool world_init
      = (Val pool', w') ∧ trace w' = trace world_init ++ h
    ∧ NoDup (closed h ++ held pool') ∧ closed h ++ held pool' ⊆ held pool
    ∧ (∀ s, std s ∉ closed h).
Proof.
  intros std pool.
  assert (NoDup (held pool)) as Hnd by (refine (bool_decide_eq_true_1 _ _); by vm_compute).
  split; [done|]. apply (@fd_closed_once default_system std); [by intros h []|done].
Defined.

(** A pipe with the given contents *)
Definition bytes_read (h : history) : nat :=
  list_sum ((λ e, let '(Event c _) := e in match c with Read _ n => n | _ => O end) <$> h).
Definition pipe_remaining (contents : list Z) (h : history) : list Z :=
  drop (bytes_read h) contents.
Definition pipe_system (contents : list Z) : System :=
  {| reply := λ A h c,
       match c in syscall A return A with
       | Poll_in _ => if bool_decide (pipe_remaining contents h = []) then 0 else 1
       | Read _ n => Some (take n (pipe_remaining contents h))
       | c => default_reply c
       end;
     strerror_errno := λ _, "error" |}.

Lemma pipe_system_reader contents n :
  @pipe_reader (pipe_system contents) n (pipe_remaining contents).
Proof.
  split; try done; intros h; intros; unfold pipe_remaining, bytes_read;
    rewrite fmap_app, list_sum_app; cbn; rewrite ?Nat.add_0_r; [done|].
  by rewrite drop_drop.
Qed.

Lemma fd_read_lines_witness :
  let lines := ["2: wlan0: mtu 1500"; "    link/ether e8:de:27:55:a1:71 brd"] in
  let contents := (lines ≫= λ l, string_bytes l ++ [newline]) ++ string_bytes "x" in
  pipe_remaining contents (trace world_init) = contents ∧
  Forall (λ l, newline ∉ string_bytes l) (lines ++ ["x"]) ∧
  ∃ w', @fd_read (pipe_system contents) 3 (mkfd 10) world_init = (Val (lines ++ ["x"]), w')
        ∧ pipe_remaining contents (trace w') = [].
Proof.
  intros lines contents.
  assert (Forall (λ l, newline ∉ string_bytes l) (lines ++ ["x"])) as Hl
    by (refine (bool_decide_eq_true_1 _ _); by vm_compute).
  split; [done|]. split; [done|].
  apply (@fd_read_lines (pipe_system contents) 10 (pipe_remaining contents) 3 world_init lines "x");
    [apply pipe_system_reader|done|done|].
  refine (bool_decide_eq_true_1 _ _). by vm_compute.
Defined.
