(* ===== verification/SpawnProcess.v ===== *)
(** * Child processes: [spawn_process.h], [spawn_process.cpp]

    [spawn] starts a command, waits for it and returns its exit status.  The
    history is read back as the list of [commands] which ran to their end, with
    their statuses; every call of [spawn] adds at most its own command to it,
    and returns only after adding it: it waits for the child it has started, and for
    no other.  [wait_until_pid_exits] needs fuel for its loop; it is shown to return as
    soon as the child has ended. *)
From S2P Require Import Prelude ContainerUtils IntUtils NetText System Pcap FileDescriptor.
Local Open Scope Z_scope.

(** ** Wait statuses: the macros of [sys/wait.h] *)
Definition WTERMSIG (status : Z) : Z := Z.land status 0x7f.
Definition WIFEXITED (status : Z) : bool := bool_decide (WTERMSIG status = 0).
Definition WIFSIGNALED (status : Z) : bool :=
  bool_decide (0 < static_cast (IntType 8 true) (WTERMSIG status + 1) `div` 2).
Definition WEXITSTATUS (status : Z) : Z := Z.shiftr (Z.land status 0xff00) 8.

(** What [wait_until_pid_exits] returns *)
Definition exit_code (status : Z) : Z := static_cast uint8_t (WEXITSTATUS status).
Definition has_ended (status : Z) : bool := WIFEXITED status || WIFSIGNALED status.

Definition spawn_failure : Z := 127.

(** Reading a C string *)
Definition NUL : ascii := "000"%char.
Fixpoint c_string (p : list ascii) : outcome string :=
  match p with
  | [] => Undef read_past_end
  | c :: p => if decide (c = NUL) then Ret "" else String c <$> c_string p
  end.
Definition c_argument (p : option (list ascii)) : outcome string :=
  match p with Some p => c_string p | None => Undef null_dereference end.

(** The arguments up to the null pointer *)
Fixpoint c_arguments (params : list (option (list ascii))) : outcome (list string) :=
  match params with
  | [] => Undef read_past_end
  | None :: _ => Ret []
  | Some p :: params => s ← c_string p; (s ::.) <$> c_arguments params
  end.

(** How often the loops of the components ask the system *)
Class Fuel := fuel : nat.

Section spawn.
Context `{System} `{Fuel}.

(** [std::system_error{rc, std::system_category(), msg}] *)
Definition raise_system_error {A} (msg : string) : M A := λ w,
  (Raised (Exn system_error (msg +:+ ": " +:+ strerror_errno (trace w))), w).

(** The loop of [wait_until_pid_exits] *)
Fixpoint wait_loop (fuel : nat) (pid : Z) : M Z :=
  match fuel with
  | O => end_process Out_of_fuel
  | S fuel =>
      wpid ← call (Waitpid pid);
      match wpid with
      | None => raise_errno "waitpid() failed: "
      | Some status => if has_ended status then mret status else wait_loop fuel pid
      end
  end.

Definition wait_until_pid_exits (pid : Z) : M Z :=
  status ← wait_loop fuel pid;
  _ ← (if WIFSIGNALED status then raise_signal (WTERMSIG status) else mret tt);
  mret (exit_code status).

(** [File_actions] *)
Definition file_actions_new : M unit :=
  rc ← call File_actions_init;
  if decide (rc ≠ 0) then raise_system_error "posix_spawn_file_actions_init()" else mret tt.

Definition add_dup2 (src : File_descriptor) (dest : stream) : M unit :=
  if decide (fd src < 0) then mret tt else
  old_fd ← get_fd_from_stream (Some dest);
  rc ← call (File_actions_adddup2 (fd src) old_fd);
  if decide (rc ≠ 0) then raise_system_error "posix_spawn_file_actions_adddup2()" else mret tt.

Definition spawn_wrapper (params : list (option (list ascii))) (inp out : File_descriptor) : M Z :=
  p ← lift (vec_at params 0);
  command ← lift (c_argument p);
  _ ← file_actions_new;
  _ ← add_dup2 inp std_in;
  _ ← add_dup2 out std_out;
  argv ← lift (c_arguments params);
  rc_pid ← call (Posix_spawnp argv (fd inp) (fd out));
  let '(rc, pid) := (rc_pid : Z * Z) in
  if decide (rc ≠ 0) then raise_system_error ("posix_spawn(" +:+ command +:+ ")") else
  exit_status ← wait_until_pid_exits pid;
  if decide (spawn_failure = exit_status)
  then raise_exn runtime_error ("failed to spawn process: " +:+ command)
  else mret exit_status.

(** [spawn(cmd, in, out)] *)
Definition spawn_io (cmd : list string) (inp out : File_descriptor) : M Z :=
  let cmd_vectors := to_vector_strings cmd in
  let ch_ptr2 := get_c_string_array cmd_vectors in
  spawn_wrapper ch_ptr2 inp out.

(** [spawn(cmd)] *)
Definition spawn (cmd : list string) : M Z := spawn_io cmd fd_default fd_default.
End spawn.

(** ** Which commands have run *)

(** The child which is running, with its command, and the commands which have ended,
    with the value [wait_until_pid_exits] makes of their status: the exit status of a child
    which exited, 0 for one which was killed *)
Definition command_state : Type := option (Z * list string) * list (list string * Z).

Definition command_step (st : command_state) (e : event) : command_state :=
  let '(Event c r) := e in
  match c in syscall A return A → command_state with
  | Posix_spawnp argv _ _ => λ r, if decide (r.1 = 0) then (Some (r.2, argv), st.2) else st
  | Waitpid pid => λ r,
      match r, st.1 with
      | Some status, Some (child, argv) =>
          if decide (pid = child) then
            if has_ended status then (None, st.2 ++ [(argv, exit_code status)]) else st
          else st
      | _, _ => st
      end
  | _ => λ _, st
  end r.

Definition command_states (h : history) : command_state := foldl command_step (None, []) h.
Definition commands (w : world) : list (list string * Z) := (command_states (trace w)).2.

(** Everything but starting and waiting for processes *)
Definition not_processes (k : kind) : bool := match k with Processes => false | _ => true end.

Lemma command_step_other st e : of_kind not_processes e → command_step st e = st.
Proof. destruct e as [A c r]. destruct c; done. Qed.

Lemma command_states_extend w w' :
  extends (of_kind not_processes) w w' → command_states (trace w') = command_states (trace w).
Proof.
  intros (h & -> & Hh). unfold command_states. rewrite foldl_app.
  generalize (foldl command_step (None, []) (trace w)) as st.
  induction Hh as [|e h He _ IH]; intros st; [done|]. cbn. by rewrite command_step_other.
Qed.

(** ** C strings *)

(** What is left of a string when it is passed on as a C string *)
Fixpoint until_nul (l : list ascii) : list ascii :=
  match l with
  | [] => []
  | c :: l => if decide (c = NUL) then [] else c :: until_nul l
  end.
Definition c_cut (s : string) : string := of_chars (until_nul (chars s)).

Lemma c_string_terminated s : c_string (chars s ++ [NUL]) = Ret (c_cut s).
Proof.
  unfold c_cut. induction s as [|c s IH]; cbn; [by rewrite decide_True|].
  case_decide; [done|]. cbn. by rewrite IH.
Qed.

Lemma c_cut_id s : NUL ∉ chars s → c_cut s = s.
Proof.
  unfold c_cut. intros Hn. rewrite <-(of_chars_chars s) at 2. f_equal.
  induction (chars s) as [|c l IH]; [done|]. apply not_elem_of_cons in Hn as [? ?]. cbn.
  rewrite decide_False by done. by rewrite IH.
Qed.

Lemma c_arguments_array cmd :
  c_arguments (get_c_string_array (to_vector_strings cmd)) = Ret (c_cut <$> cmd).
Proof.
  induction cmd as [|s cmd IH]; [done|].
  unfold get_c_string_array, to_vector_strings in *. cbn. by rewrite c_string_terminated, IH.
Qed.

(** ** The effect of [spawn] *)

(** The list of commands which have ended, and the running one *)
Abbreviation cstate w := (command_states (trace w)).

Definition same_commands (w w' : world) : Prop := cstate w' = cstate w.
#[export] Instance same_commands_preorder : PreOrder same_commands.
Proof. split; [by intros w|]. unfold same_commands. intros w1 w2 w3 ??. congruence. Qed.

Section spawn_spec.
Context `{System} `{Fuel}.

(** Kinds of calls [spawn] makes *)
Definition spawns (k : kind) : bool :=
  match k with Processes | Files | Capture => true | _ => false end.

Lemma raise_system_error_steps {A} R `{!PreOrder R} msg :
  steps R (raise_system_error (A:=A) msg).
Proof. by apply (steps_pure _). Qed.
Hint Resolve raise_system_error_steps : proxy.

Section kinds.
Context (ks : kind → bool) (Hp : ks Processes = true) (Hf : ks Files = true) (Hc : ks Capture = true).
Lemma wait_loop_emits n pid : emits (of_kind ks) (wait_loop n pid).
Proof using Hp. induction n as [|n IH]; cbn; steps_tac. Qed.
Hint Resolve wait_loop_emits : proxy.
Lemma add_dup2_emits src dest : emits (of_kind ks) (add_dup2 src dest).
Proof using Hp Hf. unfold add_dup2. steps_tac. by apply get_fd_from_stream_emits. Qed.
Hint Resolve add_dup2_emits : proxy.
Lemma spawn_io_emits cmd inp out : emits (of_kind ks) (spawn_io cmd inp out).
Proof using Hp Hf Hc.
  unfold spawn_io, spawn_wrapper, file_actions_new, wait_until_pid_exits.
  steps_tac. by apply raise_signal_emits.
Qed.
End kinds.

Lemma wait_loop_registry n pid : steps same_registry (wait_loop n pid).
Proof. induction n as [|n IH]; cbn; steps_tac. Qed.
Hint Resolve wait_loop_registry : proxy.
Lemma spawn_io_registry cmd inp out : steps same_registry (spawn_io cmd inp out).
Proof.
  unfold spawn_io, spawn_wrapper, file_actions_new, wait_until_pid_exits, add_dup2.
  steps_tac; auto using get_fd_from_stream_registry, raise_signal_registry.
Qed.

Lemma not_processes_same {A} (m : M A) : emits (of_kind not_processes) m → steps same_commands m.
Proof. intros Hm. eapply steps_mono; [exact Hm|]. intros w w'. apply command_states_extend. Qed.

Lemma command_states_snoc h e : command_states (h ++ [e]) = command_step (command_states h) e.
Proof. unfold command_states. by rewrite foldl_app. Qed.

(** Waiting for the running child ends its command. *)
Lemma wait_step h pid argv cs r :
  command_states h = (Some (pid, argv), cs) →
  command_states (h ++ [Event (Waitpid pid) r])
  = match r with
    | Some status => if has_ended status then (None, cs ++ [(argv, exit_code status)]) else (Some (pid, argv), cs)
    | None => (Some (pid, argv), cs)
    end.
Proof. intros Hh. rewrite command_states_snoc, Hh. destruct r; [|done]. cbn. by rewrite decide_True. Qed.

Lemma wait_loop_commands n pid argv cs w :
  cstate w = (Some (pid, argv), cs) →
  wp (wait_loop n pid)
    (λ status w', cstate w' = (None, cs ++ [(argv, exit_code status)]))
    (λ _ w', (cstate w').2 = cs) w.
Proof.
  revert w. induction n as [|n IH]; intros w Hw; cbn; wp_run; try done.
  - cbn. by rewrite (wait_step _ _ _ _ _ Hw), Heqb.
  - apply IH. cbn. by rewrite (wait_step _ _ _ _ _ Hw), Heqb.
  - cbn. by rewrite (wait_step _ _ _ _ _ Hw).
Qed.

Lemma wait_commands pid argv cs w :
  cstate w = (Some (pid, argv), cs) →
  wp (wait_until_pid_exits pid)
    (λ code w', commands w' = cs ++ [(argv, code)])
    (λ _ w', commands w' = cs) w.
Proof.
  intros Hw. unfold wait_until_pid_exits. wp_step.
  eapply wp_mono; [by apply wait_loop_commands| |by intros ??].
  intros status w' Hw'. cbv beta. wp_step.
  assert (∀ w'', same_commands w' w'' → commands w'' = cs ++ [(argv, exit_code status)]) as Hs.
  { unfold same_commands, commands. intros w'' ->. by rewrite Hw'. }
  destruct (WIFSIGNALED status); [|by wp_run; apply Hs].
  unfold raise_signal. wp_run.
  apply (wp_signal_handler same_commands); [by apply not_processes_same, signal_handler_emits|].
  intros w'' Hs''. wp_run. by apply Hs.
Qed.

Lemma file_actions_same : steps same_commands file_actions_new.
Proof.
  unfold file_actions_new. steps_tac. unfold same_commands. cbn. by rewrite command_states_snoc.
Qed.

Lemma add_dup2_same src dest : steps same_commands (add_dup2 src dest).
Proof.
  unfold add_dup2. steps_tac.
  - by apply not_processes_same, get_fd_from_stream_emits.
  - unfold same_commands. cbn. by rewrite command_states_snoc.
Qed.

(** A call of [spawn] returns only after its command has ended with the status
    it returns; if it throws, the command did not run or failed. *)
Lemma spawn_io_commands cmd inp out w :
  wp (spawn_io cmd inp out)
    (λ code w', commands w' = commands w ++ [(c_cut <$> cmd, code)] ∧ code ≠ spawn_failure)
    (λ _ w', commands w' = commands w
           ∨ commands w' = commands w ++ [(c_cut <$> cmd, spawn_failure)]) w.
Proof.
  assert (∀ w', same_commands w w' → commands w' = commands w) as Hsame.
  { unfold same_commands, commands. by intros w' ->. }
  unfold spawn_io, spawn_wrapper.
  wp_step. wp_step; [|by left]. wp_step. wp_step; [|by left].
  wp_step. apply (wp_of_steps same_commands); [apply file_actions_same| |by left; apply Hsame].
  intros _ w1 Hs1. wp_step.
  apply (wp_of_steps same_commands); [apply add_dup2_same| |intros ? ? ?; left; apply Hsame; by (etrans; [exact Hs1|])].
  intros _ w2 Hs2. wp_step.
  apply (wp_of_steps same_commands); [apply add_dup2_same| |intros ? ? ?; left; apply Hsame; by (etrans; [exact Hs1|]; etrans; [exact Hs2|])].
  intros _ w3 Hs3. assert (same_commands w w3) as Hw3 by by (etrans; [exact Hs1|]; etrans; [exact Hs2|]).
  clear Hs1 Hs2 Hs3. rewrite c_arguments_array. wp_step.
  apply wp_lift; [intros argv [= <-]|done]. do 2 wp_step. destruct r as [rc pid].
  assert (∀ inp out, command_states (trace w3 ++ [Event (Posix_spawnp (c_cut <$> cmd) inp out) (rc, pid)])
    = if decide (rc = 0) then (Some (pid, c_cut <$> cmd), (cstate w3).2) else cstate w3) as Hcs
    by (intros; by rewrite command_states_snoc).
  destruct (decide (rc ≠ 0)) as [Hrc|Hrc].
  { left. unfold commands. cbn. rewrite Hcs, decide_False by done. by rewrite Hw3. }
  wp_step. eapply wp_mono; [eapply wait_commands|..].
  - cbn. rewrite Hcs, decide_True by lia. done.
  - intros code w' Hw'. cbv beta. wp_run.
    + right. rewrite Hw'. by rewrite Hw3, e.
    + split; [|done]. by rewrite Hw', Hw3.
  - intros ? w' Hw'. left. by rewrite Hw', Hw3.
Qed.
End spawn_spec.

(** ** The child of a call of [spawn] *)

(** What [waitpid] has reported of the child [pid] *)
Definition waited (pid : Z) (statuses : list Z) : history :=
  (λ s, Event (Waitpid pid) (Some s)) <$> statuses.

(** Anything but starting a process and waiting for one *)
Definition no_child (e : event) : Prop :=
  let '(Event c _) := e in match c with Posix_spawnp _ _ _ | Waitpid _ => False | _ => True end.

(** [w'] comes after [w] with the child [pid] started for [argv], which has not ended by
    what [waitpid] has reported of it in [statuses], and then [last]. *)
Definition child_ran (w w' : world) (argv : list string) (pid : Z) (statuses : list Z) (last : history) : Prop :=
  ∃ before i o after,
    trace w' = trace w ++ before ++ [Event (Posix_spawnp argv i o) (0, pid)] ++ waited pid statuses ++ last ++ after
    ∧ Forall no_child before ∧ Forall no_child after ∧ Forall (λ s, has_ended s = false) statuses.
(** It has ended with [status]. *)
Definition child_ended (w w' : world) (argv : list string) (pid status : Z) : Prop :=
  has_ended status = true ∧ ∃ statuses, child_ran w w' argv pid statuses (waited pid [status]).
(** No child has been started. *)
Definition no_child_started (w w' : world) (argv : list string) : Prop :=
  ∃ before refused, trace w' = trace w ++ before ++ refused ∧ Forall no_child before
    ∧ (refused = [] ∨ ∃ i o rc pid, rc ≠ 0 ∧ refused = [Event (Posix_spawnp argv i o) (rc, pid)]).

(** What this says of the commands which have ended *)
Lemma command_states_no_child h h' : Forall no_child h' → command_states (h ++ h') = command_states h.
Proof.
  intros Hh. unfold command_states. rewrite foldl_app. generalize (foldl command_step (None, []) h) as st.
  induction Hh as [|e h' He _ IH]; intros st; [done|]. cbn [foldl]. rewrite <-IH. f_equal. by destruct e as [A []].
Qed.
Lemma command_states_waited h pid argv cs statuses :
  command_states h = (Some (pid, argv), cs) → Forall (λ s, has_ended s = false) statuses →
  command_states (h ++ waited pid statuses) = (Some (pid, argv), cs).
Proof.
  intros Hh Hs. revert h Hh. induction Hs as [|s statuses Hs _ IH]; intros h Hh; [by rewrite app_nil_r|].
  change (waited pid (s :: statuses)) with ([Event (Waitpid pid) (Some s)] ++ waited pid statuses).
  rewrite (assoc_L (++)). apply IH. by rewrite (wait_step _ _ _ _ _ Hh), Hs.
Qed.
Lemma child_ran_commands w w' argv pid statuses r :
  child_ran w w' argv pid statuses [Event (Waitpid pid) r] →
  commands w' = match r with
                | Some status => if has_ended status then commands w ++ [(argv, exit_code status)] else commands w
                | None => commands w
                end.
Proof.
  intros (before & i & o & after & Ht & Hb & Ha & Hs). unfold commands. rewrite Ht, !(assoc_L (++)).
  rewrite command_states_no_child by done. set (h := (trace w ++ before) ++ [Event (Posix_spawnp argv i o) (0, pid)]).
  assert (command_states h = (Some (pid, argv), commands w)) as Hh.
  { unfold h. rewrite command_states_snoc, command_states_no_child by done. cbn. by rewrite decide_True. }
  rewrite (wait_step _ pid argv (commands w)) by (by apply command_states_waited).
  destruct r as [status|]; [|done]. by destruct (has_ended status).
Qed.
Lemma child_ended_commands w w' argv pid status :
  child_ended w w' argv pid status → commands w' = commands w ++ [(argv, exit_code status)].
Proof. intros [Hend (statuses & Hran)]. rewrite (child_ran_commands _ _ _ _ _ (Some status) Hran). by rewrite Hend. Qed.
Lemma no_child_commands w w' argv : no_child_started w w' argv → commands w' = commands w.
Proof.
  intros (before & refused & Ht & Hb & Hr). unfold commands. rewrite Ht, (assoc_L (++)).
  destruct Hr as [->|(i & o & rc & pid & Hrc & ->)]; [by rewrite app_nil_r, command_states_no_child|].
  rewrite command_states_snoc, command_states_no_child by done. cbn. by rewrite decide_False.
Qed.

Section child.
Context `{System} `{Fuel}.
Hint Resolve raise_system_error_steps : proxy.

Lemma kind_no_child e : of_kind not_processes e → no_child e.
Proof. destruct e as [A c r]. by destruct c. Qed.

Lemma wait_loop_child n pid w :
  wp (wait_loop n pid)
    (λ status w', ∃ statuses, trace w' = trace w ++ waited pid statuses ++ waited pid [status]
       ∧ Forall (λ s, has_ended s = false) statuses ∧ has_ended status = true ∧ handled w' = handled w)
    (λ _ w', ∃ statuses, trace w' = trace w ++ waited pid statuses ++ [Event (Waitpid pid) None]
       ∧ Forall (λ s, has_ended s = false) statuses) w.
Proof.
  revert w. induction n as [|n IH]; intros w; cbn [wait_loop]; [done|]. do 2 wp_step.
  destruct r as [status|]; [|wp_step; by exists []]. wp_step; [wp_step; by exists []|].
  set (w1 := add_event (Event (Waitpid pid) (Some status)) w).
  assert (∀ statuses k, trace w1 ++ waited pid statuses ++ k = trace w ++ waited pid (status :: statuses) ++ k) as Hcons
    by (intros; unfold w1; cbn; by rewrite <-(assoc_L (++))).
  wp_use (IH w1).
  - intros status' w' (statuses & Ht & Hs & Hend & Hh). exists (status :: statuses).
    rewrite Ht, Hcons. split_and!; [done|by constructor|done|done].
  - intros _ w' (statuses & Ht & Hs). exists (status :: statuses). rewrite Ht, Hcons. split; [done|by constructor].
Qed.

Lemma file_actions_no_child : emits no_child file_actions_new.
Proof. unfold file_actions_new. steps_tac. Qed.
Lemma add_dup2_no_child src dest : emits no_child (add_dup2 src dest).
Proof.
  unfold add_dup2. steps_tac.
  eapply steps_mono; [by apply (get_fd_from_stream_emits not_processes)|].
  intros w w' Hw. eapply extends_mono; [exact Hw|apply kind_no_child].
Qed.

(** From the start of the child on *)
Lemma wait_child argv pid i o before w w0 :
  trace w0 = trace w ++ before ++ [Event (Posix_spawnp argv i o) (0, pid)] → Forall no_child before →
  wp (wait_until_pid_exits pid)
    (λ code w', ∃ status, child_ended w w' argv pid status ∧ code = exit_code status
       ∧ (WIFSIGNALED status = true → WTERMSIG status ∈ handled w0))
    (λ _ w', ∃ statuses, child_ran w w' argv pid statuses [Event (Waitpid pid) None]) w0.
Proof.
  intros Hw0 Hbefore. unfold wait_until_pid_exits. wp_step. wp_use (wait_loop_child fuel pid w0).
  - intros status w1 (statuses & Ht & Hs & Hend & Hh).
    assert (∀ w' , extends no_child w1 w' → child_ended w w' argv pid status) as Hended.
    { intros w' (after & Ht' & Hafter). split; [done|]. exists statuses, before, i, o, after.
      split; [|done]. rewrite Ht', Ht, Hw0. by rewrite !(assoc_L (++)). }
    assert (child_ended w w1 argv pid status) as Hended1 by by apply Hended.
    wp_step. destruct (WIFSIGNALED status) eqn:Hsig; [|wp_step; wp_step; exists status; split_and!; [done|done|congruence]].
    unfold raise_signal. wp_step. wp_step. wp_step; [|by wp_run].
    apply (wp_signal_handler (extends no_child)).
    { eapply steps_mono; [by apply (signal_handler_emits not_processes)|].
      intros w2 w3 Hw. eapply extends_mono; [exact Hw|apply kind_no_child]. }
    intros w' Hw'. wp_step. exists status. split_and!; [by apply Hended|done|]. intros _. by rewrite <-Hh.
  - intros _ w' (statuses & Ht & Hs). exists statuses, before, i, o, []. split; [|done].
    rewrite Ht, Hw0. by rewrite app_nil_r, !(assoc_L (++)).
Qed.

Lemma spawn_io_child cmd inp out w :
  wp (spawn_io cmd inp out)
    (λ code w', code ≠ spawn_failure ∧ ∃ pid status, child_ended w w' (c_cut <$> cmd) pid status
       ∧ code = exit_code status ∧ (WIFSIGNALED status = true → WTERMSIG status ∈ handled w))
    (λ _ w', no_child_started w w' (c_cut <$> cmd)
       ∨ ∃ pid, (∃ statuses, child_ran w w' (c_cut <$> cmd) pid statuses [Event (Waitpid pid) None])
         ∨ ∃ status, child_ended w w' (c_cut <$> cmd) pid status ∧ exit_code status = spawn_failure) w.
Proof.
  set (R := λ w w' : world, extends no_child w w' ∧ same_registry w w').
  assert (PreOrder R) as HR.
  { split; [by intros w'|]. intros w1 w2 w3 [] []. split; by etrans. }
  assert (∀ w' , R w w' → no_child_started w w' (c_cut <$> cmd)) as Hnone.
  { intros w' [(before & Ht & Hb) _]. exists before, []. rewrite app_nil_r. auto. }
  assert (steps R file_actions_new) as Hfa
    by (apply steps_and; [apply file_actions_no_child|unfold file_actions_new; steps_tac]).
  assert (∀ src dest, steps R (add_dup2 src dest)) as Hdup.
  { intros src dest. apply steps_and; [apply add_dup2_no_child|]. unfold add_dup2. steps_tac.
    auto using get_fd_from_stream_registry. }
  unfold spawn_io, spawn_wrapper. wp_step. wp_step; [|by left; apply Hnone]. wp_step. wp_step; [|by left; apply Hnone].
  wp_step. apply (wp_of_steps R); [done| |intros ? w' Hw; left; by apply Hnone]. intros _ w1 Hw1. wp_step.
  apply (wp_of_steps R); [done| |intros ? w' Hw; left; apply Hnone; by etrans]. intros _ w2 Hw2. wp_step.
  apply (wp_of_steps R); [done| |intros ? w' Hw; left; apply Hnone; by (etrans; [exact Hw1|]; etrans)]. intros _ w3 Hw3.
  assert (R w w3) as [(before & Ht & Hb) [_ Hh]] by by (etrans; [exact Hw1|]; etrans; [exact Hw2|]).
  rewrite c_arguments_array. wp_step. apply wp_lift; [intros argv [= <-]|done]. do 2 wp_step. destruct r as [rc pid].
  set (w4 := add_event _ w3). destruct (decide (rc ≠ 0)) as [Hrc|Hrc].
  { left. exists before, [Event (Posix_spawnp (c_cut <$> cmd) (fd inp) (fd out)) (rc, pid)].
    unfold w4. cbn. rewrite Ht, <-(assoc_L (++)). split_and!; [done|done|]. right. by exists (fd inp), (fd out), rc, pid. }
  assert (rc = 0) as -> by lia. wp_step.
  wp_use (wait_child (c_cut <$> cmd) pid (fd inp) (fd out) before w w4); [unfold w4; cbn; by rewrite Ht, <-(assoc_L (++))|done| |].
  - intros code w' (status & Hchild & -> & Hsig). unfold w4 in Hsig. cbn in Hsig. rewrite Hh in Hsig. wp_step.
    + wp_step. right. exists pid. right. by exists status.
    + wp_step. split; [done|]. by exists pid, status.
  - intros e w' Hchild. right. exists pid. by left.
Qed.
End child.

(** ** Statuses *)

(** The status words of Linux: exited with [code], and killed by [sig] with or
    without a core dump *)
Definition exited_status (code : Z) : Z := Z.shiftl code 8.
Definition killed_status (sig : Z) (core : bool) : Z := sig + if core then 128 else 0.

Lemma forall_byte (P : Z → Prop) `{∀ c, Decision (P c)} :
  forallb (λ c, bool_decide (P c)) (Z.of_nat <$> seq 0 256) = true → ∀ c, byte_wf c → P c.
Proof.
  intros Hall c Hc. rewrite forallb_forall in Hall.
  apply (bool_decide_eq_true_1 _), Hall, list_elem_of_In, list_elem_of_fmap.
  unfold byte_wf in Hc. exists (Z.to_nat c). rewrite elem_of_seq. lia.
Qed.

Lemma exited_status_decode code : byte_wf code →
  WIFEXITED (exited_status code) = true ∧ WIFSIGNALED (exited_status code) = false
  ∧ exit_code (exited_status code) = code.
Proof. revert code. apply (forall_byte _). by vm_compute. Qed.

Lemma killed_status_decode sig core : 1 ≤ sig ≤ 126 →
  WIFSIGNALED (killed_status sig core) = true ∧ WTERMSIG (killed_status sig core) = sig
  ∧ exit_code (killed_status sig core) = 0.
Proof.
  intros Hsig. assert (byte_wf sig) as Hb by (unfold byte_wf; lia). revert Hsig.
  revert sig Hb.
  refine (forall_byte (λ sig, 1 ≤ sig ≤ 126 → _) _). destruct core; by vm_compute.
Qed.

Section waiting.
Context `{System} `{Fuel}.

(** The system reports [statuses] to the next calls of [waitpid]. *)
Definition will_report (w : world) (pid : Z) (statuses : list Z) : Prop :=
  ∀ i s, statuses !! i = Some s →
    reply (trace w ++ waited pid (take i statuses)) (Waitpid pid) = Some s.

Lemma will_report_tail w pid s statuses :
  will_report w pid (s :: statuses) →
  will_report (add_event (Event (Waitpid pid) (Some s)) w) pid statuses.
Proof.
  intros Hr i s' Hi. cbn. rewrite <-(assoc_L (++)). exact (Hr (S i) s' Hi).
Qed.

Lemma wait_loop_run n pid statuses status w :
  will_report w pid (statuses ++ [status]) →
  Forall (λ s, has_ended s = false) statuses → has_ended status = true →
  (length statuses < n)%nat →
  ∃ w', wait_loop n pid w = (Val status, w') ∧ handled w' = handled w.
Proof.
  revert n w. induction statuses as [|s statuses IH]; intros [|n] w Hr Hall Hend Hn; cbn in Hn; try lia.
  all: cbn; unfold mbind, M_bind, call.
  - pose proof (Hr O status eq_refl) as Hr0. cbn in Hr0. rewrite app_nil_r in Hr0.
    rewrite Hr0, Hend. by eexists.
  - apply Forall_cons in Hall as [Hs Hall].
    pose proof (Hr O s eq_refl) as Hr0. cbn in Hr0. rewrite app_nil_r in Hr0.
    rewrite Hr0, Hs. apply (IH n (add_event _ w)); [|done..|lia]. by apply will_report_tail.
Qed.

Lemma wait_run pid statuses status w :
  will_report w pid (statuses ++ [status]) →
  Forall (λ s, has_ended s = false) statuses → has_ended status = true →
  (length statuses < fuel)%nat →
  ∃ w', wait_until_pid_exits pid w =
    (if WIFSIGNALED status && negb (bool_decide (WTERMSIG status ∈ handled w))
     then Ended (Killed (WTERMSIG status)) else Val (exit_code status), w')
    ∧ handled w' = handled w.
Proof.
  intros Hr Hall Hend Hn. destruct (wait_loop_run _ _ _ _ _ Hr Hall Hend Hn) as (w1 & Hw1 & Hh).
  unfold wait_until_pid_exits, mbind, M_bind. rewrite Hw1.
  destruct (WIFSIGNALED status); cbn [andb]; [|by exists w1].
  unfold raise_signal, mbind, M_bind, get. rewrite Hh. case_bool_decide.
  - rewrite decide_True by done. destruct (signal_handler_run w1) as (w2 & -> & _ & _ & _ & ?).
    exists w2. split; [done|congruence].
  - rewrite decide_False by done. by exists w1.
Qed.
End waiting.

(** ** Properties *)

(** C35: [wait_until_pid_exits] returns as soon as the child has ended, however
    many other state changes [waitpid] reports before: with the exit status of
    a child which exited; when the child was killed, the program raises the same
    signal, which ends it unless its handler for that signal is installed. *)
Theorem wait_until_pid_exits_result `{System} `{Fuel} pid statuses status w :
  will_report w pid (statuses ++ [status]) →
  Forall (λ s, has_ended s = false) statuses → has_ended status = true →
  (length statuses < fuel)%nat →
  (wait_until_pid_exits pid w).1 =
    if WIFSIGNALED status && negb (bool_decide (WTERMSIG status ∈ handled w))
    then Ended (Killed (WTERMSIG status)) else Val (exit_code status).
Proof.
  intros Hr Hall Hend Hn. by destruct (wait_run _ _ _ _ Hr Hall Hend Hn) as (w' & -> & _).
Qed.

(** A child which is killed by a signal the program handles (SIGTERM, SIGINT)
    is reported with exit status 0, as if it had succeeded; a child which exits
    is reported with its status. *)
Lemma wait_until_pid_exits_killed `{System} `{Fuel} pid sig core w :
  will_report w pid [killed_status sig core] → 1 ≤ sig ≤ 126 → sig ∈ handled w →
  (0 < fuel)%nat → (wait_until_pid_exits pid w).1 = Val 0.
Proof.
  intros Hr Hsig Hh Hn. destruct (killed_status_decode sig core Hsig) as (Hs & Ht & He).
  destruct (wait_run pid [] (killed_status sig core) w) as (w' & -> & _); [done|done| |done|].
  - unfold has_ended. by rewrite Hs, orb_true_r.
  - rewrite Hs, Ht, He. by rewrite bool_decide_true.
Qed.

(** C36: [spawn] returns a status only after exactly its own command has run: it has
    started one child, has waited for that child and no other, and the last status
    [waitpid] reported of it, and no earlier one, says that it has ended.  What it returns is the
    exit status of the child, which is not 127; it is 0 when a signal killed the child,
    and then the program handles that signal.  When it throws, no child has been started, or
    [waitpid] failed for its child, or the child has exited with status 127.  Either way
    the commands which have ended are those of before, with at most this one. *)
Theorem spawn_runs_command `{System} `{Fuel} cmd inp out w :
  match spawn_io cmd inp out w with
  | (Val code, w') =>
      commands w' = commands w ++ [(c_cut <$> cmd, code)] ∧ code ≠ spawn_failure
      ∧ ∃ pid status, child_ended w w' (c_cut <$> cmd) pid status ∧ code = exit_code status
          ∧ (WIFSIGNALED status = true → WTERMSIG status ∈ handled w)
  | (Raised _, w') =>
      (commands w' = commands w
       ∧ (no_child_started w w' (c_cut <$> cmd)
          ∨ ∃ pid statuses, child_ran w w' (c_cut <$> cmd) pid statuses [Event (Waitpid pid) None]))
      ∨ (commands w' = commands w ++ [(c_cut <$> cmd, spawn_failure)]
         ∧ ∃ pid status, child_ended w w' (c_cut <$> cmd) pid status ∧ exit_code status = spawn_failure)
  | (Ended _, _) => True
  end.
Proof.
  pose proof (spawn_io_child cmd inp out w) as Hch. unfold wp in Hch.
  destruct (spawn_io cmd inp out w) as [[code|e|how] w']; [| |done].
  - destruct Hch as (Hcode & pid & status & Hend & -> & Hsig). split; [by eapply child_ended_commands|].
    split; [done|]. by exists pid, status.
  - destruct Hch as [Hnone|(pid & [(statuses & Hran)|(status & Hend & Hst)])].
    + left. split; [by eapply no_child_commands|by left].
    + left. split; [exact (child_ran_commands _ _ _ _ _ None Hran)|right; by exists pid, statuses].
    + right. split; [rewrite <-Hst; by eapply child_ended_commands|by exists pid, status].
Qed.

(** ** Witnesses *)

(** [waitpid] reports these statuses one after the other. *)
Definition waiting_system (statuses : list Z) : System :=
  {| reply := λ A h c,
       match c in syscall A return A with
       | Waitpid _ => statuses !! length h
       | c => default_reply c
       end;
     strerror_errno := λ _, "error" |}.

Lemma waiting_system_reports statuses pid :
  @will_report (waiting_system statuses) world_init pid statuses.
Proof.
  intros i s Hi. cbn. unfold waited. rewrite length_fmap, length_take.
  rewrite Nat.min_l; [done|]. apply lookup_lt_Some in Hi. lia.
Qed.

(** A stopped child (status 0x137f) which then exits with status 1 *)
Lemma wait_until_pid_exits_result_witness :
  @will_report (waiting_system [0x137f; 256]) world_init 100 ([0x137f] ++ [256])
  ∧ (@wait_until_pid_exits (waiting_system [0x137f; 256]) 2%nat 100 world_init).1 = Val 1.
Proof.
  pose proof (waiting_system_reports [0x137f; 256] 100) as Hr. split; [exact Hr|].
  apply (@wait_until_pid_exits_result (waiting_system [0x137f; 256]) 2%nat 100 [0x137f] 256 world_init Hr).
  - by repeat constructor.
  - done.
  - cbn. unfold fuel. lia.
Defined.

Lemma wait_until_pid_exits_killed_witness :
  let w := with_handled [SIGTERM] world_init in
  SIGTERM ∈ handled w ∧
  (@wait_until_pid_exits (waiting_system [killed_status SIGTERM false]) 1%nat 100 w).1 = Val 0.
Proof.
  intros w. assert (SIGTERM ∈ handled w) as Hin by (cbn; constructor). split; [done|].
  apply (@wait_until_pid_exits_killed (waiting_system [killed_status SIGTERM false]) 1%nat 100 SIGTERM false w).
  - exact (waiting_system_reports [killed_status SIGTERM false] 100).
  - unfold SIGTERM. lia.
  - done.
  - unfold fuel. lia.
Defined.
