(* ===== verification/Logging.v ===== *)
(** * Logging: [log.h], [log.cpp] and the messages of [print_help]

    Messages go to the standard output until [setup_log] is called and to the
    system log from then on.  [openlog] keeps the pointer it is given, so the
    identifier lives in an object of its own; what the C library does with the
    calls is read off their list.  Shown: whatever is logged and however often
    [setup_log] is called, the log sees exactly the messages, each under the
    identifier set last, and never a freed identifier. *)
From S2P Require Import Prelude ContainerUtils IntUtils NetText System FileDescriptor SpawnProcess.
Local Open Scope Z_scope.

(** ** The calls of the C library, and allocations of identifiers *)
Inductive log_call :=
  | Alloc (p : nat) (identifier : string)
  | Free (p : nat)
  | Openlog (p : nat) (option facility : Z)
  | Closelog
  | Vsyslog (priority : Z) (text : string)
  | Write_stdout (text : string).

(** [logger], the number of [Syslog] objects made so far, and what has been called *)
Record log_state := Log_state { logger : option nat; made : nat; log_calls : list log_call }.
Definition log_init : log_state := Log_state None 0 [].

Definition log_call_do (c : log_call) (s : log_state) : log_state :=
  Log_state (logger s) (made s) (log_calls s ++ [c]).

(** The constructor and the destructor of [struct Syslog] *)
Definition Syslog_new (ident : string) (option facility : Z) (s : log_state) : nat * log_state :=
  let p := made s in
  let s := Log_state (logger s) (S (made s)) (log_calls s) in
  (p, log_call_do (Openlog p option facility) (log_call_do (Alloc p ident) s)).
Definition Syslog_delete (p : nat) (s : log_state) : log_state :=
  log_call_do (Free p) (log_call_do Closelog s).

(** Assigning to a [std::unique_ptr]: it has the new pointer before the old object
    is destroyed. *)
Definition logger_assign (p : option nat) (s : log_state) : log_state :=
  let old := logger s in
  let s := Log_state p (made s) (log_calls s) in
  match old with Some q => Syslog_delete q s | None => s end.

Definition setup_log (ident : string) (option facility : Z) (s : log_state) : log_state :=
  let s := logger_assign None s in
  let '(p, s) := Syslog_new ident option facility s in
  logger_assign (Some p) s.

(** ** [printf]: the conversions the program uses *)

(** An argument after the default promotions: a C string, or a word of 32 bits *)
Inductive vararg := Arg_string (s : string) | Arg_word (v : Z).

Definition convert (spec : ascii) (arg : vararg) : outcome string :=
  match arg with
  | Arg_string s => if decide (spec = "s"%char) then Ret (c_cut s) else Undef format_mismatch
  | Arg_word v =>
      if decide (spec = "d"%char ∨ spec = "i"%char)
      then Ret (to_string int_t (static_cast int_t v))
      else if decide (spec = "u"%char)
      then Ret (to_string (IntType 32 false) (static_cast (IntType 32 false) v))
      else if decide (spec = "c"%char)
      then Ret (to_string uint8_t v)
      else Undef format_mismatch
  end.

Fixpoint format_chars (format : list ascii) (args : list vararg) : outcome string :=
  match format with
  | [] => Ret ""
  | c :: format =>
      if decide (c = "%"%char) then
        match format, args with
        | spec :: format, arg :: args =>
            t ← convert spec arg; (λ r, t +:+ r) <$> format_chars format args
        | _, _ => Undef format_mismatch
        end
      else String c <$> format_chars format args
  end.
Definition vformat (format : string) (args : list vararg) : outcome string :=
  format_chars (chars (c_cut format)) args.

(** [log].  It holds [log_mutex] from its first to its last line. *)
Definition log (priority : Z) (format : string) (args : list vararg) (s : log_state)
    : outcome log_state :=
  text ← vformat format args;
  match logger s with
  | None => Ret (log_call_do (Write_stdout (String "010" "")) (log_call_do (Write_stdout text) s))
  | Some _ => Ret (log_call_do (Vsyslog priority text) s)
  end.

(** [log_string]: for C strings, for [std::string], and for what [to_string] prints *)
Definition log_string_chars (priority : Z) (t : string) : log_state → outcome log_state :=
  log priority "%s" [Arg_string t].
Definition log_string (priority : Z) (t : string) : log_state → outcome log_state :=
  log priority "%s" [Arg_string t].
Definition log_string_any {T} (to_string : T → string) (priority : Z) (t : T)
    : log_state → outcome log_state :=
  log_string priority (to_string t).

(** ** The messages of [args.cpp], [waker.cpp] and [sniffer.cpp] about their usage *)
Definition LOG_ERR : Z := 3.
Definition LOG_NOTICE : Z := 5.
Definition LOG_INFO : Z := 6.

Fixpoint log_strings (priority : Z) (ts : list string) (s : log_state) : outcome log_state :=
  match ts with
  | [] => Ret s
  | t :: ts => s ← log_string_chars priority t s; log_strings priority ts s
  end.

Definition print_help : log_state → outcome log_state :=
  log_strings LOG_INFO
    ["usage: emulateHost [-h] [-s] [-c CONFIG]";
     "emulates a host, which went standby and wakes it upon an incoming connection";
     "optional arguments:";
     "  -h, --help            show this help message and exit";
     "  -c CONFIG, --config CONFIG";
     "                        read config file, should be the last argument";
     "  -s, --syslog";
     "                        print messages to syslog"].
Definition waker_print_help : log_state → outcome log_state :=
  log_string_chars LOG_NOTICE "usage: [-i iface] mac".
Definition sniffer_print_help : log_state → outcome log_state :=
  log_string_chars LOG_NOTICE "usage: iface bpf_filter".

(** The message of [ping_and_wait] *)
Definition log_ping_failed (ip : string) (tries : Z) : log_state → outcome log_state :=
  log LOG_ERR "failed to ping ip %s after %d ping attempts" [Arg_string ip; Arg_word tries].

(** ** What a reader of the log sees

    [openlog] keeps the pointer to the identifier and [closelog] forgets it; a
    message is written under the identifier behind the pointer, if there is one. *)
Inductive line := To_syslog (identifier : option string) (priority : Z) (text : string) | To_stdout (text : string).

Record c_library := C_library { heap : gmap nat string; tag : option nat; lines : list line }.
Definition c_library_init : c_library := C_library ∅ None [].

Definition c_call (l : c_library) (c : log_call) : outcome c_library :=
  match c with
  | Alloc p ident => Ret (C_library (<[p := ident]> (heap l)) (tag l) (lines l))
  | Free p => Ret (C_library (delete p (heap l)) (tag l) (lines l))
  | Openlog p _ _ => Ret (C_library (heap l) (Some p) (lines l))
  | Closelog => Ret (C_library (heap l) None (lines l))
  | Vsyslog priority text =>
      match tag l with
      | None => Ret (C_library (heap l) (tag l) (lines l ++ [To_syslog None priority text]))
      | Some p =>
          match heap l !! p with
          | Some ident =>
              Ret (C_library (heap l) (tag l) (lines l ++ [To_syslog (Some (c_cut ident)) priority text]))
          | None => Undef dangling_pointer
          end
      end
  | Write_stdout text => Ret (C_library (heap l) (tag l) (lines l ++ [To_stdout text]))
  end.
Definition c_calls (cs : list log_call) (l : c_library) : outcome c_library :=
  foldl (λ m c, m ≫= λ l, c_call l c) (Ret l) cs.

(** ** Uses of the module, and what they should do *)
Inductive use :=
  | Setup (ident : string) (option facility : Z)
  | Log (priority : Z) (format : string) (args : list vararg).

Definition use_do (s : log_state) (u : use) : outcome log_state :=
  match u with
  | Setup ident option facility => Ret (setup_log ident option facility s)
  | Log priority format args => log priority format args s
  end.
Definition use_all (us : list use) (s : log_state) : outcome log_state :=
  foldl (λ m u, m ≫= λ s, use_do s u) (Ret s) us.

(** The specification: an identifier or none, and one entry per message *)
Definition intended (cur : option string) (priority : Z) (text : string) : list line :=
  match cur with
  | None => [To_stdout text; To_stdout (String "010" "")]
  | Some ident => [To_syslog (Some (c_cut ident)) priority text]
  end.
Fixpoint intended_lines (cur : option string) (us : list use) : outcome (list line) :=
  match us with
  | [] => Ret []
  | Setup ident _ _ :: us => intended_lines (Some ident) us
  | Log priority format args :: us =>
      text ← vformat format args; (λ ls, intended cur priority text ++ ls) <$> intended_lines cur us
  end.

(** ** The refinement *)

(** The C library after the calls of [s], when [cur] is the current identifier:
    its pointer is that of the object [logger] owns, the only one alive. *)
Definition represents (s : log_state) (cur : option string) (ls : list line) : Prop :=
  ∃ l, c_calls (log_calls s) c_library_init = Ret l ∧ lines l = ls ∧ tag l = logger s
  ∧ match logger s, cur with
    | None, None => heap l = ∅
    | Some p, Some ident => heap l = {[p := ident]} ∧ (p < made s)%nat
    | _, _ => False
    end.

Lemma c_calls_app cs1 cs2 l l' : c_calls cs1 l = Ret l' → c_calls (cs1 ++ cs2) l = c_calls cs2 l'.
Proof. unfold c_calls. rewrite foldl_app. by intros ->. Qed.

(** The calls of [setup_log]: the old log is closed before the new one is opened. *)
Lemma setup_log_calls ident option facility s :
  setup_log ident option facility s
  = Log_state (Some (made s)) (S (made s))
      (log_calls s ++ match logger s with Some p => [Closelog; Free p] | None => [] end
       ++ [Alloc (made s) ident; Openlog (made s) option facility]).
Proof. destruct s as [[p|] n cs]; unfold setup_log; cbn; by rewrite <-!(assoc_L (++)). Qed.

Lemma represents_setup s cur ls ident option facility :
  represents s cur ls → represents (setup_log ident option facility s) (Some ident) ls.
Proof.
  intros (l & Hl & <- & Htag & Hheap). rewrite setup_log_calls.
  exists (C_library {[made s := ident]} (Some (made s)) (lines l)).
  split_and!; [cbn [log_calls]|done|done|cbn; split; [done|lia]]. rewrite (c_calls_app _ _ _ _ Hl). unfold c_calls.
  destruct (logger s) as [p|], cur as [old|]; try done; cbn.
  - destruct Hheap as [-> Hp]. by rewrite delete_singleton_eq, insert_empty.
  - by rewrite Hheap, insert_empty.
Qed.

Lemma represents_log s cur ls priority text :
  represents s cur ls →
  represents (match logger s with
              | None => log_call_do (Write_stdout (String "010" "")) (log_call_do (Write_stdout text) s)
              | Some _ => log_call_do (Vsyslog priority text) s
              end) cur (ls ++ intended cur priority text).
Proof.
  intros (l & Hl & <- & Htag & Hheap).
  exists (C_library (heap l) (tag l) (lines l ++ intended cur priority text)).
  destruct s as [lg n cs]. cbn [logger log_calls made] in *.
  destruct lg as [p|], cur as [ident|]; try done; unfold log_call_do; cbn [logger log_calls made].
  - destruct Hheap as [Hh ?]. split_and!; [|done..]. rewrite (c_calls_app _ _ _ _ Hl). cbn.
    by rewrite Htag, Hh, lookup_singleton_eq.
  - split_and!; [|done..]. rewrite <-(assoc_L (++)), (c_calls_app _ _ _ _ Hl). cbn.
    by rewrite <-(assoc_L (++)).
Qed.

Lemma use_all_represents us s cur ls ls' :
  represents s cur ls → intended_lines cur us = Ret ls' →
  ∃ s' cur', use_all us s = Ret s' ∧ represents s' cur' (ls ++ ls').
Proof.
  revert s cur ls ls'. induction us as [|[ident o f|pr fmt args] us IH]; intros s cur ls ls' Hs; cbn.
  - intros [= <-]. exists s, cur. by rewrite app_nil_r.
  - intros Hu. by apply (IH _ _ _ _ (represents_setup _ _ _ ident o f Hs)).
  - unfold log. destruct (vformat fmt args) as [text| |]; [|done..]. cbn.
    destruct (intended_lines cur us) as [ls1| |] eqn:Hu; [|done..]. intros [= <-].
    destruct (IH _ _ _ _ (represents_log s cur ls pr text Hs) Hu) as (s' & cur' & Hr & Hs').
    exists s', cur'. split; [|by rewrite (assoc_L (++))]. rewrite <-Hr. by destruct (logger s).
Qed.

Lemma vformat_string t : vformat "%s" [Arg_string t] = Ret (c_cut t).
Proof. change (Ret (c_cut t +:+ "") = Ret (c_cut t)). by rewrite string_app_nil_r. Qed.

(** C40: the module implements its specification.  For every sequence of messages
    and calls of [setup_log] -- the formats matching their arguments -- what the C
    library makes of the calls is exactly one entry per message, in order, under
    the identifier set last or on the standard output before the first
    [setup_log]; a freed identifier is never used, and only the current one is
    alive.  [log_string] writes its text as it is, up to a NUL. *)
Theorem logging_as_intended us ls :
  intended_lines None us = Ret ls →
  (∃ s l, use_all us log_init = Ret s
    ∧ c_calls (log_calls s) c_library_init = Ret l ∧ lines l = ls
    ∧ dom (heap l) = match logger s with Some p => {[p]} | None => ∅ end)
  ∧ ∀ priority t s, log_string priority t s = use_do s (Log priority "%s" [Arg_string t])
      ∧ vformat "%s" [Arg_string t] = Ret (c_cut t).
Proof.
  intros Hu. split; [|intros; split; [done|apply vformat_string]].
  assert (represents log_init None []) as Hi by by exists c_library_init.
  destruct (use_all_represents us _ _ _ _ Hi Hu) as (s & cur & Hs & l & Hl & Hls & _ & Hheap).
  exists s, l. split_and!; [done..|]. destruct (logger s), cur; try done; [|by rewrite Hheap, dom_empty_L].
  destruct Hheap as [-> _]. by rewrite dom_singleton_L.
Qed.

(** Messages before, between and after two calls of [setup_log] *)
Definition logging_uses : list use :=
  [Log LOG_INFO "%s" [Arg_string "50% done"]; Setup "watchHost" 0 24;
   Log LOG_ERR "what: %s" [Arg_string "broken"]; Setup "emulateHost" 0 24;
   Log LOG_ERR "failed to ping ip %s after %d ping attempts" [Arg_string "10.0.0.1"; Arg_word 5]].

Lemma logging_as_intended_witness :
  ∃ ls, intended_lines None logging_uses = Ret ls
  ∧ ls = [To_stdout "50% done"; To_stdout (String "010" "");
          To_syslog (Some "watchHost") LOG_ERR "what: broken";
          To_syslog (Some "emulateHost") LOG_ERR "failed to ping ip 10.0.0.1 after 5 ping attempts"]
  ∧ ∃ s l, use_all logging_uses log_init = Ret s
    ∧ c_calls (log_calls s) c_library_init = Ret l ∧ lines l = ls.
Proof.
  destruct (intended_lines None logging_uses) as [ls|e|u] eqn:Hu; [|by vm_compute in Hu..].
  exists ls. split; [done|]. split; [vm_compute in Hu; by injection Hu as <-|].
  destruct (logging_as_intended _ _ Hu) as [(s & l & Hs & Hl & Hls & _) _]. by exists s, l.
Defined.

(** [%d] prints an [unsigned int] as a signed number. *)
Lemma log_ping_failed_text ip tries s :
  logger s = None → in_range (IntType 32 false) tries →
  log_ping_failed ip tries s
  = Ret (log_call_do (Write_stdout (String "010" ""))
      (log_call_do (Write_stdout ("failed to ping ip " +:+ c_cut ip +:+ " after "
        +:+ pretty (if decide (tries < 2 ^ 31) then tries else tries - 2 ^ 32)
        +:+ " ping attempts")) s)).
Proof.
  intros Hl Hr. unfold log_ping_failed, log. rewrite Hl. unfold in_range in Hr.
  change (lowest (IntType 32 false)) with 0 in Hr. change (max (IntType 32 false)) with (2 ^ 32 - 1) in Hr.
  assert (static_cast (IntType 32 true) tries = if decide (tries < 2 ^ 31) then tries else tries - 2 ^ 32) as Hc.
  { unfold static_cast. cbn [width is_signed]. rewrite Z.mod_small by lia.
    change (2 ^ (32 - 1)) with (2 ^ 31). case_decide; destruct (Z.leb_spec (2 ^ 31) tries); cbn; lia. }
  assert (vformat "failed to ping ip %s after %d ping attempts" [Arg_string ip; Arg_word tries]
    = Ret ("failed to ping ip " +:+ c_cut ip +:+ " after "
           +:+ to_string int_t (static_cast (IntType 32 true) tries) +:+ " ping attempts")) as -> by done.
  by rewrite Hc.
Qed.
