(* ===== verification/ScopeGuard.v ===== *)
(** * Scope guards: [scope_guard.h], [scope_guard.cpp]

    A [Scope_guard] takes a resource when it is constructed and gives it back
    when it is destroyed.  Each functor turns an [Action] into the command which
    adds resp. deletes an address or a firewall rule.  Shown: both commands of a
    functor name the same address or rule, and over every sequence of moves,
    frees and destructions the rules and addresses in effect are those of the
    guards which are not freed. *)
From S2P Require Import Prelude ContainerUtils IntUtils NetText NetTextRef System IpAddress Pcap FileDescriptor SpawnProcess.
Local Open Scope Z_scope.

Inductive Action := add | del.
#[export] Instance Action_eq_dec : EqDecision Action.
Proof. solve_decision. Defined.

(** [Reject_tp::TP] *)
Inductive TP := TP_TCP | TP_UDP.
#[export] Instance TP_eq_dec : EqDecision TP.
Proof. solve_decision. Defined.

(** ** The functors which make commands *)
Definition get_iptables_cmd (ip : IP_address) : string :=
  if decide (family ip = AF_INET) then "iptables" else "ip6tables".
Definition iptables_action (action : Action) : string :=
  if decide (action = add) then "I" else "D".
Definition get_icmp_version (ip : IP_address) : string :=
  if decide (family ip = AF_INET) then "icmp" else "icmpv6".

Section functors.
Context `{Net_text} `{Host}.

(** [s6_addr32] of the union *)
Fixpoint s6_addr32 (bytes : list Z) : list Z :=
  match bytes with
  | b0 :: b1 :: b2 :: b3 :: bytes => load_u32 b0 b1 b2 b3 :: s6_addr32 bytes
  | _ => []
  end.

Definition ipv6_to_u32_rule (ip : IP_address) : outcome string :=
  if decide (family ip ≠ AF_INET6)
  then throw runtime_error "cannot convert ipv4 address into u32 ip6tables rule" else
  let base := 48 in
  let step := 4 in
  let address_int_to_rule ipv6_int pos :=
    (to_string (IntType 32 false) (static_cast (IntType 32 false) (base + step * pos)) +:+ "=0x"
     +:+ uint32_t_to_eight_hex_chars ipv6_int, pos + 1) in
  let ipv6_address := s6_addr32 (address ip) in
  let rule := join_state address_int_to_rule "&&" ipv6_address 0 in
  Ret (" -m u32 --u32 " +:+ rule).

Definition Temp_ip (iface : string) (ip : IP_address) (action : Action) : outcome string :=
  let saction := if decide (action = add) then "add" else "del" in
  Ret ("ip" +:+ " addr " +:+ saction +:+ " " +:+ with_subnet ip +:+ " dev " +:+ iface).

Definition Drop_port (ip : IP_address) (port : Z) (action : Action) : outcome string :=
  let saction := iptables_action action in
  let iptcmd := get_iptables_cmd ip in
  let pip := pure ip in
  Ret (iptcmd +:+ " -w -" +:+ saction +:+ " INPUT -d " +:+ pip
       +:+ " -p tcp --syn --dport " +:+ to_string uint16_t port +:+ " -j DROP").

Definition Reject_tp (ip : IP_address) (tcp_udp : TP) (action : Action) : outcome string :=
  let saction := iptables_action action in
  let stp := if decide (tcp_udp = TP_TCP) then "tcp" else "udp" in
  let iptcmd := get_iptables_cmd ip in
  let pip := pure ip in
  Ret (iptcmd +:+ " -w -" +:+ saction +:+ " INPUT -d " +:+ pip +:+ " -p " +:+ stp +:+ " -j REJECT").

Definition Block_icmp (ip : IP_address) (action : Action) : outcome string :=
  let saction := iptables_action action in
  let iptcmd := get_iptables_cmd ip in
  let icmpv := get_icmp_version ip in
  Ret (iptcmd +:+ " -w -" +:+ saction +:+ " OUTPUT -d " +:+ pure ip +:+ " -p "
       +:+ icmpv +:+ " --" +:+ icmpv +:+ "-type destination-unreachable -j DROP").

Definition Block_ipv6_neighbor_solicitation (ip : IP_address) (action : Action) : outcome string :=
  let saction := iptables_action action in
  let iptcmd := get_iptables_cmd ip in
  ip_rule ← ipv6_to_u32_rule ip;
  Ret (iptcmd +:+ " -w -" +:+ saction
       +:+ " INPUT -s :: -p icmpv6 --icmpv6-type neighbour-solicitation" +:+ ip_rule
       +:+ " -j DROP").
End functors.

(** ** [Ptr_guard]: registers a pointer in a container *)
Definition erase_first (ref : nat) (l : list nat) : option (list nat) :=
  i ← fst <$> list_find (ref =.) l; Some (delete i l).

Definition ptr_guard_apply (ref : nat) (action : Action) : M string :=
  w ← get;
  match action with
  | add => _ ← modify (with_pcaps (pcaps w ++ [ref])); mret ""
  | del =>
      match erase_first ref (pcaps w) with
      | Some l => _ ← modify (with_pcaps l); mret ""
      | None => raise_exn runtime_error
                  "element supposed to be managed by ptr_guard is gone missing from container"
      end
  end.

(** ** [Scope_guard] *)

(** A functor as a [std::function] holds it: calling it, and destroying what it
    owns when the last copy goes *)
Record Aquire_release := { apply : Action → M string; dispose : M unit }.

Record Scope_guard := { freed : bool; aquire_release : Aquire_release }.

(** A functor without effects of its own and without a destructor *)
Definition command (f : Action → outcome string) : Aquire_release :=
  {| apply := λ a, lift (f a); dispose := mret tt |}.

Definition ptr_guard (ref : nat) : Aquire_release :=
  {| apply := ptr_guard_apply ref; dispose := mret tt |}.

Section scope_guard.
Context `{System} `{Fuel}.

Definition take_action (f : Aquire_release) (a : Action) : M unit :=
  cmd ← apply f a;
  if decide (cmd = "") then mret tt else
  status ← spawn (split_string cmd " ");
  if decide (status ≠ 0) then raise_exn runtime_error ("command failed: " +:+ cmd) else mret tt.

(** The constructors; when [take_action] throws, the functor is destroyed. *)
Definition guard_default : Scope_guard := 
  {| freed := true; aquire_release := {| apply := λ _, mret ""; dispose := mret tt |} |}.
Definition guard_new (f : Aquire_release) : M Scope_guard :=
  _ ← on_raise (take_action f add) (noexcept (dispose f));
  mret {| freed := false; aquire_release := f |}.
(** The move constructor: the new object and [rhs] afterwards.  The functor is
    copied; what it owns is shared and stays alive with the new object. *)
Definition guard_move (rhs : Scope_guard) : Scope_guard * Scope_guard :=
  (rhs, {| freed := true;
           aquire_release := {| apply := apply (aquire_release rhs); dispose := mret tt |} |}).

Definition guard_free (g : Scope_guard) : M Scope_guard :=
  if freed g then mret g
  else _ ← take_action (aquire_release g) del;
       mret {| freed := true; aquire_release := aquire_release g |}.

(** The destructor and, after it, that of the functor; like every destructor
    they must not throw. *)
Definition guard_destroy (g : Scope_guard) : M unit :=
  _ ← noexcept (guard_free g); noexcept (dispose (aquire_release g)).

(** Destroying the elements of a vector, front to back *)
Definition guards_destroy (guards : list Scope_guard) : M unit := mapM_ guard_destroy guards.

(** [guards.emplace_back(f)] for each [f] in turn, which is constructed first.
    When one throws, the vector is destroyed on the way out. *)
Fixpoint emplace_all (fs : list (M Aquire_release)) (guards : list Scope_guard) : M (list Scope_guard) :=
  match fs with
  | [] => mret guards
  | f :: fs =>
      g ← on_raise (f ≫= guard_new) (guards_destroy guards);
      emplace_all fs (guards ++ [g])
  end.
End scope_guard.

(** ** Accounts: which addresses and rules are in effect, what is registered

    A command [ip addr add|del ...] or [ip[6]tables -w -I|-D ...] changes how
    often an address or rule is in effect; its key is the command without the
    action.  The other resource is an entry of the registry [pcaps].  [balance]
    counts how often each resource is there. *)
Inductive key := Command_key (argv : list string) | Pointer_key (ref : nat).

Definition sign (a : Action) : Z := match a with add => 1 | del => -1 end.

Definition polarity (argv : list string) : option (list string * Z) :=
  match argv with
  | cmd :: x :: a :: rest =>
      if decide (cmd = "ip") then
        if decide (a = "add") then Some (cmd :: x :: rest, 1)
        else if decide (a = "del") then Some (cmd :: x :: rest, -1) else None
      else if decide (cmd = "iptables" ∨ cmd = "ip6tables") then
        if decide (a = "-I") then Some (cmd :: x :: rest, 1)
        else if decide (a = "-D") then Some (cmd :: x :: rest, -1) else None
      else None
  | _ => None
  end.

(** Only commands which succeed count. *)
Definition change (c : list string * Z) (k : list string) : Z :=
  if decide (c.2 = 0)
  then match polarity c.1 with
       | Some (k', s) => if decide (k' = k) then s else 0
       | None => 0
       end
  else 0.

Definition command_balance (cs : list (list string * Z)) (k : list string) : Z :=
  foldr (λ c n, change c k + n) 0 cs.
Definition occurrences (ref : nat) (l : list nat) : Z :=
  Z.of_nat (length (filter (ref =.) l)).
Definition balance (w : world) (k : key) : Z :=
  match k with
  | Command_key k => command_balance (commands w) k
  | Pointer_key ref => occurrences ref (pcaps w)
  end.

#[export] Instance key_eq_dec : EqDecision key.
Proof. solve_decision. Defined.

(** What holding a resource contributes; [None] when it issues no commands *)
Definition contribution (ok : option key) (k : key) : Z :=
  match ok with Some k' => if decide (k' = k) then 1 else 0 | None => 0 end.

(** Neither commands nor the registry *)
Definition same_accounts (w w' : world) : Prop := same_commands w w' ∧ same_registry w w'.
#[export] Instance same_accounts_preorder : PreOrder same_accounts.
Proof.
  split; [by intros w|]. intros w1 w2 w3 [??] [??]. split; by etrans.
Qed.

Lemma command_balance_app cs1 cs2 k :
  command_balance (cs1 ++ cs2) k = command_balance cs1 k + command_balance cs2 k.
Proof. unfold command_balance. induction cs1 as [|c cs1 IH]; cbn; lia. Qed.

Lemma balance_snoc w w' c k :
  commands w' = commands w ++ [c] → same_registry w w' →
  balance w' k = balance w k + match k with Command_key k => change c k | Pointer_key _ => 0 end.
Proof.
  unfold balance. intros -> [-> _]. destruct k; [|lia]. rewrite command_balance_app. cbn. lia.
Qed.
Lemma balance_same w w' k : commands w' = commands w → same_registry w w' → balance w' k = balance w k.
Proof. unfold balance. by intros -> [-> _]. Qed.
Lemma balance_accounts w w' k : same_accounts w w' → balance w' k = balance w k.
Proof. intros [Hc ?]. apply balance_same; [|done]. unfold commands. by rewrite Hc. Qed.
Lemma balance_failed w w' argv st k :
  st ≠ 0 → commands w' = commands w ++ [(argv, st)] → same_registry w w' →
  balance w' k = balance w k.
Proof.
  intros Hst Hc Hr. rewrite (balance_snoc _ _ _ _ Hc Hr). destruct k; [|lia].
  unfold change. cbn. rewrite decide_False by done. lia.
Qed.

(** ** Splitting commands *)
Lemma split_app_delim {A} `{EqDecision A} (a b : list A) d :
  split (a ++ d :: b) d = split (a ++ [d]) d ++ split b d.
Proof.
  induction a as [|tok ? Hd|tok c Hd IH] using (split_ind d).
  - change (split ([] ++ d :: b) d = split ([] ++ d :: []) d ++ split b d).
    rewrite !split_delim by apply not_elem_of_nil. done.
  - by rewrite !split_delim.
  - rewrite <-!(assoc_L (++)). cbn [app]. rewrite !(split_delim tok) by done. by rewrite IH.
Qed.

Lemma split_string_prefix pre rest :
  split_string (pre +:+ String " " rest) " "
  = split_string (pre +:+ " ") " " ++ split_string rest " ".
Proof.
  unfold split_string. rewrite !chars_app, <-fmap_app.
  change (chars (String " " rest)) with (" "%char :: chars rest).
  by rewrite split_app_delim.
Qed.

(** ** Every functor names one resource *)

(** The command without the action *)
Definition command_key (f : Action → outcome string) : option (list string) :=
  match f add with
  | Ret cmd => fst <$> polarity (c_cut <$> split_string cmd " ")
  | _ => None
  end.

(** Both commands of the functor are about the same resource; it fails to make
    the one exactly when it fails to make the other. *)
Definition names_resource (f : Action → outcome string) (k : list string) : Prop :=
  ∀ a, (∃ cmd, f a = Ret cmd ∧ cmd ≠ ""
          ∧ polarity (c_cut <$> split_string cmd " ") = Some (k, sign a)).

Section names.
Context `{Net_text} `{Host}.

Lemma Temp_ip_names iface ip :
  names_resource (Temp_ip iface ip)
    ("ip" :: "addr" :: (c_cut <$> split_string (with_subnet ip +:+ " dev " +:+ iface) " ")).
Proof.
  intros [|]; (eexists; split_and!; [done|done|]).
  - change ("ip" +:+ _) with ("ip addr add" +:+ String " " (with_subnet ip +:+ " dev " +:+ iface)).
    by rewrite split_string_prefix, fmap_app.
  - change ("ip" +:+ _) with ("ip addr del" +:+ String " " (with_subnet ip +:+ " dev " +:+ iface)).
    by rewrite split_string_prefix, fmap_app.
Qed.

(** A functor for [iptables]: only the letter of the action differs. *)
Lemma iptables_names (f : Action → outcome string) ip rest :
  (∀ a, f a = Ret (get_iptables_cmd ip +:+ " -w -" +:+ iptables_action a +:+ String " " rest)) →
  names_resource f (get_iptables_cmd ip :: "-w" :: (c_cut <$> split_string rest " ")).
Proof.
  intros Hf a. rewrite Hf. unfold get_iptables_cmd, iptables_action.
  eexists; split_and!; [done|by case_decide|].
  assert (∀ pre, split_string (pre +:+ " ") " " = split_string (pre +:+ " ") " ") as _ by done.
  case_decide; destruct a; cbn [decide].
  - change ("iptables" +:+ _) with ("iptables -w -I" +:+ String " " rest).
    by rewrite split_string_prefix, fmap_app.
  - change ("iptables" +:+ _) with ("iptables -w -D" +:+ String " " rest).
    by rewrite split_string_prefix, fmap_app.
  - change ("ip6tables" +:+ _) with ("ip6tables -w -I" +:+ String " " rest).
    by rewrite split_string_prefix, fmap_app.
  - change ("ip6tables" +:+ _) with ("ip6tables -w -D" +:+ String " " rest).
    by rewrite split_string_prefix, fmap_app.
Qed.

Lemma Drop_port_names ip port : ∃ k, names_resource (Drop_port ip port) k.
Proof. eexists. eapply (iptables_names _ ip). done. Qed.
Lemma Reject_tp_names ip tp : ∃ k, names_resource (Reject_tp ip tp) k.
Proof. eexists. eapply (iptables_names _ ip). done. Qed.
Lemma Block_icmp_names ip : ∃ k, names_resource (Block_icmp ip) k.
Proof. eexists. eapply (iptables_names _ ip). done. Qed.
Lemma Block_ns_names ip :
  family ip = AF_INET6 → ∃ k, names_resource (Block_ipv6_neighbor_solicitation ip) k.
Proof.
  intros Hf. eexists. eapply (iptables_names _ ip). intros a.
  unfold Block_ipv6_neighbor_solicitation, ipv6_to_u32_rule. rewrite decide_False by tauto. done.
Qed.
End names.

Lemma names_resource_key f k : names_resource f k → command_key f = Some k.
Proof. intros Hf. unfold command_key. destruct (Hf add) as (cmd & -> & _ & ->). done. Qed.

(** ** What guards do to the accounts *)
Section accounts.
Context `{System} `{Fuel}.

(** The functor takes and gives back the resource [k]. *)
Definition accounted (f : Aquire_release) (ok : option key) : Prop :=
  (∀ a w, wp (take_action f a)
    (λ _ w', ∀ k, balance w' k = balance w k + sign a * contribution ok k)
    (λ _ w', ∀ k, balance w' k = balance w k) w)
  ∧ steps same_accounts (dispose f).

(** Computations which start no firewall or address commands *)
Definition keeps_balance {A} (m : M A) : Prop := ∀ w,
  wp m (λ _ w', ∀ k, balance w' k = balance w k) (λ _ w', ∀ k, balance w' k = balance w k) w.

Lemma keeps_balance_same {A} (m : M A) : steps same_accounts m → keeps_balance m.
Proof.
  intros Hm w. by apply (wp_of_steps same_accounts); [done|..]; intros x w' Hw' k;
    apply balance_accounts.
Qed.

Lemma steps_same_accounts {A} (m : M A) :
  emits (of_kind not_processes) m → steps same_registry m → steps same_accounts m.
Proof. intros Hm Hr. apply steps_and; [by apply not_processes_same|done]. Qed.

Lemma keeps_balance_emits {A} (m : M A) :
  emits (of_kind not_processes) m → steps same_registry m → keeps_balance m.
Proof. intros. by apply keeps_balance_same, steps_same_accounts. Qed.

Lemma keeps_bind {A B} (m : M A) (f : A → M B) :
  keeps_balance m → (∀ a, keeps_balance (f a)) → keeps_balance (m ≫= f).
Proof.
  intros Hm Hf w. wp_step. eapply wp_mono; [apply Hm|..]; [|done].
  intros a w1 Hb. eapply wp_mono; [apply Hf|..]; intros ? w2 Hb2 k; cbn; by rewrite Hb2, Hb.
Qed.
Lemma keeps_finally {A} (m : M A) cleanup :
  keeps_balance m → keeps_balance cleanup → keeps_balance (finally m cleanup).
Proof.
  intros Hm Hf w. wp_step. eapply wp_mono; [apply Hm|..]; intros a w1 Hb;
    (eapply wp_mono; [apply Hf|..]; intros ? w2 Hb2 k; cbn; by rewrite Hb2, Hb).
Qed.
Lemma keeps_on_raise {A} (m : M A) cleanup :
  keeps_balance m → keeps_balance cleanup → keeps_balance (on_raise m cleanup).
Proof.
  intros Hm Hf w. wp_step. eapply wp_mono; [apply Hm|..]; [done|]; intros a w1 Hb.
  eapply wp_mono; [apply Hf|..]; intros ? w2 Hb2 k; cbn; by rewrite Hb2, Hb.
Qed.
Lemma keeps_catch {A} (m : M A) h :
  keeps_balance m → (∀ e, keeps_balance (h e)) → keeps_balance (catch m h).
Proof.
  intros Hm Hf w. wp_step. eapply wp_mono; [apply Hm|..]; [done|]; intros a w1 Hb.
  eapply wp_mono; [apply Hf|..]; intros ? w2 Hb2 k; cbn; by rewrite Hb2, Hb.
Qed.
Lemma keeps_noexcept {A} (m : M A) : keeps_balance m → keeps_balance (noexcept m).
Proof. intros Hm w. wp_step. eapply wp_mono; [apply Hm|done|done]. Qed.

(** Commands which are not about addresses or rules *)
Lemma keeps_spawn_io cmd inp out :
  polarity (c_cut <$> cmd) = None → keeps_balance (spawn_io cmd inp out).
Proof.
  intros Hpol w. eapply wp_mono; [apply (wp_and_steps same_registry), spawn_io_registry;
    apply spawn_io_commands|..].
  - intros st w' [[Hc _] Hr] k. rewrite (balance_snoc _ _ _ _ Hc Hr). unfold change. cbn [fst snd].
    rewrite Hpol. destruct k as [k|]; [case_decide; lia|lia].
  - intros e w' [[Hc|Hc] Hr] k; [by apply balance_same|].
    by apply (balance_failed _ _ _ spawn_failure k ltac:(done) Hc).
Qed.

Lemma dispose_balance f ok : accounted f ok → keeps_balance (dispose f).
Proof. intros [_ ?]. by apply keeps_balance_same. Qed.

(** A [take_action] whose functor adds no commands and returns "" *)
Lemma accounted_silent f :
  (∀ a, steps same_accounts (apply f a)) →
  (∀ a w, wp (apply f a) (λ cmd _, cmd = "") (λ _ _, True) w) →
  steps same_accounts (dispose f) → accounted f None.
Proof.
  intros Hs He Hd. split; [|done]. intros a w. unfold take_action. wp_step.
  specialize (Hs a w). specialize (He a w). unfold wp in *.
  destruct (apply f a w) as [[cmd|e|u] w']; cbn in *; [|by intros k; apply balance_accounts|done].
  subst cmd. rewrite decide_True by done. cbn. intros k.
  rewrite (balance_accounts w w') by done. lia.
Qed.

Lemma take_command_balance f k :
  names_resource f k → accounted (command f) (Some (Command_key k)).
Proof.
  intros Hf. split; [|by apply steps_ret; apply _]. intros a w.
  destruct (Hf a) as (cmd & Hcmd & Hne & Hpol).
  unfold take_action, command. cbn [apply]. rewrite Hcmd. wp_step. apply wp_lift; [intros ? [= <-]|done].
  rewrite decide_False by done. wp_step. unfold spawn.
  eapply wp_mono; [apply (wp_and_steps same_registry), spawn_io_registry; apply spawn_io_commands|..].
  - intros status w' [[Hc _] Hr]. cbv beta. case_decide as Hst; wp_run; intros k'.
    + by apply (balance_failed _ _ _ status k' Hst Hc).
    + rewrite (balance_snoc _ _ _ _ Hc Hr). unfold change, contribution. cbn.
      destruct k' as [k'|ref]; [|rewrite decide_False by done; destruct a; cbn; lia].
      rewrite decide_True by lia. rewrite Hpol.
      rewrite (decide_ext (Command_key k = Command_key k') (k = k')) by (split; congruence).
      case_decide; destruct a; cbn; lia.
  - intros e w' [[Hc|Hc] Hr] k'; [by apply balance_same|].
    by apply (balance_failed _ _ _ spawn_failure k' ltac:(done) Hc).
Qed.

(** The resources a list of guards holds *)
Inductive guards_hold : list Scope_guard → (key → Z) → Prop :=
  | hold_nil δ : (∀ k, δ k = 0) → guards_hold [] δ
  | hold_cons g ok gs δ δ' :
      accounted (aquire_release g) ok → guards_hold gs δ →
      (∀ k, δ' k = (if freed g then 0 else contribution ok k) + δ k) →
      guards_hold (g :: gs) δ'.

Lemma guards_hold_app gs1 gs2 δ1 δ2 δ :
  guards_hold gs1 δ1 → guards_hold gs2 δ2 → (∀ k, δ k = δ1 k + δ2 k) →
  guards_hold (gs1 ++ gs2) δ.
Proof.
  intros H1. revert δ. induction H1 as [δ1 Hz|g ok gs δ1 δ1' Hg _ IH Hd]; intros δ H2 Hsum; cbn.
  - destruct H2 as [δ2 Hz2|g ok gs δ2 δ2' Hg H2 Hd]; [constructor|econstructor]; try done.
    + intros k. rewrite Hsum, Hz, Hz2. lia.
    + intros k. rewrite Hsum, Hz, Hd. lia.
  - eapply (hold_cons _ ok _ (λ k, δ1 k + δ2 k)); [done|by apply IH|].
    intros k. rewrite Hsum, Hd. lia.
Qed.

Lemma guards_hold_app_inv gs1 gs2 δ :
  guards_hold (gs1 ++ gs2) δ →
  ∃ δ1 δ2, guards_hold gs1 δ1 ∧ guards_hold gs2 δ2 ∧ ∀ k, δ k = δ1 k + δ2 k.
Proof.
  revert δ. induction gs1 as [|g gs1 IH]; intros δ Hh.
  - exists (λ _, 0), δ. split_and!; [by apply hold_nil|done|]. intros k. lia.
  - inversion Hh as [|? ok ? δ0 ? Hg Hgs Hd]; subst.
    destruct (IH _ Hgs) as (δ1 & δ2 & H1 & H2 & Hsum).
    exists (λ k, (if freed g then 0 else contribution ok k) + δ1 k), δ2.
    split_and!; [by eapply hold_cons|done|]. intros k. rewrite Hd, Hsum. lia.
Qed.

Lemma guard_new_balance f ok w :
  accounted f ok →
  wp (guard_new f)
    (λ g w', aquire_release g = f ∧ freed g = false
             ∧ ∀ k, balance w' k = balance w k + contribution ok k)
    (λ _ w', ∀ k, balance w' k = balance w k) w.
Proof.
  intros Hf. unfold guard_new. do 2 wp_step. eapply wp_mono; [apply (proj1 Hf add)|..].
  - intros ? w' Hb. wp_run. split_and!; [done..|]. intros k. rewrite Hb. cbn. lia.
  - intros e w' Hb. wp_step. eapply wp_mono; [apply (dispose_balance _ _ Hf)|..]; [|done].
    intros ? w2 Hb2 k. cbn. by rewrite Hb2, Hb.
Qed.

Lemma guard_free_balance g ok w :
  accounted (aquire_release g) ok →
  wp (guard_free g)
    (λ g' w', aquire_release g' = aquire_release g ∧ freed g' = true
      ∧ ∀ k, balance w' k = balance w k - if freed g then 0 else contribution ok k)
    (λ _ w', ∀ k, balance w' k = balance w k) w.
Proof.
  intros Hf. unfold guard_free. destruct (freed g) eqn:Hg; [wp_run|wp_step].
  - split_and!; [done..|]. lia.
  - eapply wp_mono; [apply (proj1 Hf del)|..]; [|done].
    intros ? w' Hb. wp_run. split_and!; [done..|]. intros k. rewrite Hb. cbn. lia.
Qed.

Lemma guard_destroy_balance g ok w :
  accounted (aquire_release g) ok →
  wp (guard_destroy g)
    (λ _ w', ∀ k, balance w' k = balance w k - if freed g then 0 else contribution ok k)
    (λ _ _, False) w.
Proof.
  intros Hf. unfold guard_destroy. do 2 wp_step.
  eapply wp_mono; [by apply guard_free_balance|..]; [|done].
  intros g' w1 (_ & _ & Hb). wp_step. eapply wp_mono; [apply (dispose_balance _ _ Hf)|..]; [|done].
  intros ? w2 Hb2 k. cbn. by rewrite Hb2, Hb.
Qed.

Lemma guards_destroy_balance gs δ w :
  guards_hold gs δ →
  wp (guards_destroy gs) (λ _ w', ∀ k, balance w' k = balance w k - δ k) (λ _ _, False) w.
Proof.
  intros Hh. unfold guards_destroy. revert w.
  induction Hh as [δ Hz|g ok gs δ δ' Hg _ IH Hd]; intros w; cbn; wp_run.
  { intros k. rewrite Hz. lia. }
  eapply wp_mono; [by apply (guard_destroy_balance g ok)|..]; [|done].
  intros ? w1 Hb. wp_run. eapply wp_mono; [apply IH|..]; [|done].
  intros ? w2 Hb2 k. rewrite Hb2, Hb, Hd. lia.
Qed.

(** The resources a list of functors is about *)
Definition makes (f : M Aquire_release) (ok : option key) : Prop := ∀ w,
  wp f (λ f w', accounted f ok ∧ ∀ k, balance w' k = balance w k)
       (λ _ w', ∀ k, balance w' k = balance w k) w.

Lemma makes_ret f ok : accounted f ok → makes (mret f) ok.
Proof. intros Hf w. by wp_run. Qed.

Inductive functors_take : list (M Aquire_release) → (key → Z) → Prop :=
  | take_nil δ : (∀ k, δ k = 0) → functors_take [] δ
  | take_cons f ok fs δ δ' :
      makes f ok → functors_take fs δ → (∀ k, δ' k = contribution ok k + δ k) →
      functors_take (f :: fs) δ'.

Lemma emplace_all_balance fs δ gs γ w :
  functors_take fs δ → guards_hold gs γ →
  wp (emplace_all fs gs)
    (λ gs' w', guards_hold gs' (λ k, γ k + δ k) ∧ ∀ k, balance w' k = balance w k + δ k)
    (λ _ w', ∀ k, balance w' k = balance w k - γ k) w.
Proof.
  intros Hf. revert gs γ w. induction Hf as [δ Hz|f ok fs δ δ' Hf _ IH Hd]; intros gs γ w Hg; cbn.
  - wp_run. split; [|intros k; rewrite Hz; lia].
    rewrite <-(app_nil_r gs). apply (guards_hold_app _ _ γ δ); [done|by apply hold_nil|done].
  - do 3 wp_step. eapply wp_mono; [apply Hf|..].
    2:{ intros e w1 Hb. eapply wp_mono; [by apply guards_destroy_balance|..]; [|done].
        intros ? w2 Hb2 k. cbn. by rewrite Hb2, Hb. }
    intros fn w0 [Hfn Hb0]. eapply wp_mono; [by eapply guard_new_balance|..].
    + intros g w1 (Hgf & Hgfr & Hb). eapply wp_mono.
      * apply (IH (gs ++ [g]) (λ k, γ k + contribution ok k)).
        apply (guards_hold_app _ _ γ (contribution ok)); [done| |done].
        eapply (hold_cons _ ok _ (λ _, 0)); [by rewrite Hgf|by apply hold_nil|].
        intros k. rewrite Hgfr. lia.
      * intros gs' w2 [Hh Hb2]. split; [|intros k; rewrite Hb2, Hb, Hb0, Hd; lia].
        rewrite <-(app_nil_r gs'). eapply guards_hold_app; [done|by apply hold_nil with (δ := λ _, 0)|].
        intros k. rewrite Hd. lia.
      * intros e w2 Hb2 k. rewrite Hb2, Hb, Hb0. lia.
    + intros e w1 Hb. eapply wp_mono; [by apply guards_destroy_balance|..]; [|done].
      intros ? w2 Hb2 k. cbn. by rewrite Hb2, Hb, Hb0.
Qed.
End accounts.

(** ** What guards do to a preorder on worlds *)
Section guard_steps.
Context `{System} `{Fuel}.
Context (R : relation world) `{!PreOrder R} (Hspawn : ∀ cmd, steps R (spawn cmd)).

Definition functor_steps (f : Aquire_release) : Prop :=
  (∀ a, steps R (apply f a)) ∧ steps R (dispose f).

Lemma take_action_steps f a : functor_steps f → steps R (take_action f a).
Proof using Hspawn PreOrder0. intros [Hf _]. unfold take_action. steps_tac; auto. Qed.

Lemma guard_new_steps f :
  functor_steps f → steps_post R (guard_new f) (λ g, functor_steps (aquire_release g)).
Proof using Hspawn PreOrder0.
  intros Hf. unfold guard_new. eapply post_bind; [done| |].
  - apply post_steps. pose proof (proj2 Hf). steps_tac; by apply take_action_steps.
  - intros _ _. by apply post_ret.
Qed.

Lemma guard_destroy_steps g : functor_steps (aquire_release g) → steps R (guard_destroy g).
Proof using Hspawn PreOrder0.
  intros Hg. unfold guard_destroy, guard_free. pose proof (proj2 Hg).
  steps_tac; by apply take_action_steps.
Qed.

Lemma guards_destroy_steps gs :
  Forall (λ g, functor_steps (aquire_release g)) gs → steps R (guards_destroy gs).
Proof using Hspawn PreOrder0.
  unfold guards_destroy. induction 1 as [|g gs Hg _ IH]; cbn [mapM_]; [by apply steps_ret|].
  apply steps_bind; [done|by apply guard_destroy_steps|intros _; exact IH].
Qed.

Lemma emplace_all_steps fs gs :
  Forall (λ f, steps_post R f functor_steps) fs →
  Forall (λ g, functor_steps (aquire_release g)) gs →
  steps_post R (emplace_all fs gs) (Forall (λ g, functor_steps (aquire_release g))).
Proof using Hspawn PreOrder0.
  intros Hfs. revert gs. induction Hfs as [|f fs Hf _ IH]; intros gs Hgs; cbn [emplace_all].
  - by apply post_ret.
  - eapply post_bind; [done| |].
    + apply post_on_raise; [done| |by apply guards_destroy_steps].
      eapply post_bind; [done|exact Hf|]. intros fn Hfn. by apply guard_new_steps.
    + intros g Hg. apply IH, Forall_app. split; [done|]. by apply Forall_singleton.
Qed.

Lemma command_steps f : functor_steps (command f).
Proof using PreOrder0. split; [intros a; by apply steps_lift|by apply steps_ret]. Qed.
End guard_steps.

(** Functors whose actions stay in a preorder, though not every command does *)
Section guard_takes.
Context `{System} `{Fuel}.
Context (R : relation world) `{!PreOrder R}.

Definition takes (f : Aquire_release) : Prop :=
  (∀ a, steps R (take_action f a)) ∧ steps R (dispose f).
Abbreviation all_take gs := (Forall (λ g, takes (aquire_release g)) gs).

(** A functor which makes no command *)
Lemma silent_takes f :
  (∀ a, steps R (apply f a)) → (∀ a w, wp (apply f a) (λ cmd _, cmd = "") (λ _ _, True) w) →
  steps R (dispose f) → takes f.
Proof using PreOrder0.
  intros Hs He Hd. split; [|done]. intros a w. unfold take_action. rewrite bind_run.
  specialize (Hs a w). specialize (He a w). unfold wp in He.
  destruct (apply f a w) as [[cmd|e|u] w']; [|done..]. subst cmd. by rewrite decide_True.
Qed.

Lemma guard_new_takes f :
  takes f → steps_post R (guard_new f) (λ g, takes (aquire_release g)).
Proof using PreOrder0.
  intros Hf. unfold guard_new. eapply post_bind; [apply _| |].
  - apply post_steps, steps_on_raise; [apply _|apply Hf|]. apply steps_noexcept, Hf.
  - intros _ _. by apply post_ret; [apply _|].
Qed.
Lemma guard_destroy_takes g : takes (aquire_release g) → steps R (guard_destroy g).
Proof using PreOrder0. intros [Ha Hd]. unfold guard_destroy, guard_free. steps_tac; auto. Qed.
Lemma guards_destroy_takes gs : all_take gs → steps R (guards_destroy gs).
Proof using PreOrder0.
  unfold guards_destroy. induction 1 as [|g gs Hg _ IH]; cbn [mapM_]; [apply steps_ret; apply _|].
  apply steps_bind; [apply _|by apply guard_destroy_takes|intros _; exact IH].
Qed.
Lemma emplace_all_takes fs gs :
  Forall (λ f, steps_post R f takes) fs → all_take gs →
  steps_post R (emplace_all fs gs) (λ gs, all_take gs).
Proof using PreOrder0.
  intros Hfs. revert gs. induction Hfs as [|f fs Hf _ IH]; intros gs Hgs; cbn [emplace_all].
  - by apply post_ret; [apply _|].
  - eapply post_bind; [apply _| |].
    + apply post_on_raise; [apply _| |by apply guards_destroy_takes].
      eapply post_bind; [apply _|exact Hf|]. intros fn Hfn. by apply guard_new_takes.
    + intros g Hg. apply IH, Forall_app. split; [done|]. by apply Forall_singleton.
Qed.
End guard_takes.

(** Proves [keeps_balance] of code which starts no processes and leaves the
    registry alone. *)
Ltac keeps_io := apply keeps_balance_emits; steps_tac;
  eauto using fd_read_emits, fd_read_registry, fd_destroy_emits, fd_destroy_registry,
    get_self_pipes_emits, get_self_pipes_registry, break_loop_emits, break_loop_registry,
    set_filter_emits, set_filter_registry, get_datalink_emits, get_datalink_registry,
    pcap_open_emits, pcap_open_registry, pcap_destroy_emits, pcap_destroy_registry.

(** [Ptr_guard] is accounted for in the registry. *)
Section ptr_guard.
Context `{System} `{Fuel}.

Lemma erase_first_cons ref x l :
  erase_first ref (x :: l) = if decide (ref = x) then Some l else (x ::.) <$> erase_first ref l.
Proof.
  unfold erase_first. cbn. case_decide; [done|].
  destruct (list_find (ref =.) l) as [[i y]|]; done.
Qed.

Lemma erase_first_app ref l1 l2 : ref ∉ l1 → erase_first ref (l1 ++ ref :: l2) = Some (l1 ++ l2).
Proof.
  induction l1 as [|x l1 IH]; cbn [app]; intros Hl; rewrite erase_first_cons.
  - by rewrite decide_True.
  - apply not_elem_of_cons in Hl as [? ?]. by rewrite decide_False, IH.
Qed.

Lemma occurrences_app ref l1 l2 :
  occurrences ref (l1 ++ l2) = occurrences ref l1 + occurrences ref l2.
Proof. unfold occurrences. rewrite filter_app, length_app. lia. Qed.

Lemma occurrences_singleton ref x : occurrences ref [x] = if decide (x = ref) then 1 else 0.
Proof. unfold occurrences. rewrite filter_cons. by repeat case_decide; subst. Qed.

Lemma erase_first_occurrences ref l l' x :
  erase_first ref l = Some l' → occurrences x l = occurrences x l' + occurrences x [ref].
Proof.
  revert l'. induction l as [|y l IH]; intros l'; [done|]. rewrite erase_first_cons.
  change (y :: l) with ([y] ++ l). rewrite occurrences_app. case_decide as E.
  - intros [= <-]. subst y. lia.
  - intros (l1 & He & ->)%fmap_Some. rewrite (IH _ He).
    change (y :: l1) with ([y] ++ l1). rewrite (occurrences_app x [y] l1). lia.
Qed.

Lemma ptr_guard_accounted ref : accounted (ptr_guard ref) (Some (Pointer_key ref)).
Proof.
  split; [|apply steps_ret; apply _]. intros a w.
  assert (∀ l k, balance (with_pcaps l w) k = match k with
    | Command_key _ => balance w k | Pointer_key x => occurrences x l end) as Hb by by intros ? [].
  unfold take_action, ptr_guard. cbn [apply]. unfold ptr_guard_apply, contribution.
  do 3 wp_step. destruct a.
  - wp_step. wp_step. wp_step. rewrite decide_True by done. wp_step. intros k. rewrite Hb.
    destruct k as [k|x]; [rewrite decide_False by done; cbn; lia|]; cbn.
    rewrite occurrences_app, occurrences_singleton.
    rewrite (decide_ext (Pointer_key ref = Pointer_key x) (ref = x)) by (split; congruence).
    case_decide; lia.
  - destruct (erase_first ref (pcaps w)) as [l|] eqn:He; [|by wp_step].
    wp_step. wp_step. wp_step. rewrite decide_True by done. wp_step. intros k. rewrite Hb.
    destruct k as [k|x]; [rewrite decide_False by done; cbn; lia|]; cbn.
    rewrite (erase_first_occurrences _ _ _ x He), occurrences_singleton.
    rewrite (decide_ext (Pointer_key ref = Pointer_key x) (ref = x)) by (split; congruence).
    case_decide; lia.
Qed.
End ptr_guard.

(** ** Moving, freeing and destroying guards *)
Inductive guard_op := Guard_move (i : nat) | Guard_free (i : nat) | Guard_destroy (i : nat).

Section guard_ops.
Context `{System} `{Fuel}.

(** An exception which leaves [free] leaves the guard as it was. *)
Definition run_guard_op (op : guard_op) (pool : list Scope_guard) : M (list Scope_guard) :=
  match op with
  | Guard_move i =>
      mret (match pool !! i with
            | Some rhs => let '(g, rhs') := guard_move rhs in <[i := rhs']> pool ++ [g]
            | None => pool
            end)
  | Guard_free i =>
      match pool !! i with
      | Some g => r ← attempt (guard_free g);
                  mret (match r with Ret g' => <[i := g']> pool | _ => pool end)
      | None => mret pool
      end
  | Guard_destroy i =>
      match pool !! i with
      | Some g => _ ← guard_destroy g; mret (delete i pool)
      | None => mret pool
      end
  end.

Fixpoint run_guard_ops (ops : list guard_op) (pool : list Scope_guard) : M (list Scope_guard) :=
  match ops with
  | [] => mret pool
  | op :: ops => pool ← run_guard_op op pool; run_guard_ops ops pool
  end.

Lemma guards_hold_split gs i g δ :
  guards_hold gs δ → gs !! i = Some g →
  ∃ ok δ', accounted (aquire_release g) ok ∧ guards_hold (delete i gs) δ'
    ∧ (∀ k, δ k = (if freed g then 0 else contribution ok k) + δ' k)
    ∧ ∀ g', accounted (aquire_release g') ok →
        guards_hold (<[i := g']> gs) (λ k, (if freed g' then 0 else contribution ok k) + δ' k).
Proof.
  intros Hh Hi. pose proof (lookup_lt_Some _ _ _ Hi).
  rewrite <-(take_drop_middle _ _ _ Hi) in Hh.
  apply guards_hold_app_inv in Hh as (δ1 & δ2 & Hd1 & Hd2 & Hsum).
  inversion Hd2 as [|? ok ? δ3 ? Hg Hgs Hd]; subst.
  exists ok, (λ k, δ1 k + δ3 k). split_and!; [done|..].
  - rewrite delete_take_drop. by eapply guards_hold_app.
  - intros k. rewrite Hsum, Hd. lia.
  - intros g' Hg'. rewrite insert_take_drop by done. eapply guards_hold_app; [done|..].
    + eapply hold_cons; [exact Hg'|done|]. by intros k.
    + intros k. cbn. lia.
Qed.

Lemma run_guard_op_balance op pool δ w :
  guards_hold pool δ →
  wp (run_guard_op op pool)
    (λ pool' w', ∃ δ', guards_hold pool' δ' ∧ ∀ k, balance w' k - δ' k = balance w k - δ k)
    (λ _ _, False) w.
Proof.
  intros Hh. destruct op as [i|i|i]; cbn [run_guard_op].
  - wp_run. destruct (pool !! i) as [g|] eqn:Hi; [|by exists δ].
    destruct (guards_hold_split _ _ _ _ Hh Hi) as (ok & δ' & Hg & Hdel & Hd & Hins).
    exists δ. split; [|done]. cbn.
    assert (∀ f, accounted f ok → accounted {| apply := apply f; dispose := mret tt |} ok) as Hmoved.
    { intros f [? _]. split; [done|apply steps_ret; apply _]. }
    eapply guards_hold_app; [by apply Hins, Hmoved| |].
    + eapply hold_cons; [exact Hg|by apply (hold_nil (λ _, 0))|]. by intros k.
    + intros k. rewrite Hd. cbn. lia.
  - destruct (pool !! i) as [g|] eqn:Hi; [|wp_run; by exists δ].
    destruct (guards_hold_split _ _ _ _ Hh Hi) as (ok & δ' & Hg & Hdel & Hd & Hins).
    wp_step. wp_step. eapply wp_mono; [by apply guard_free_balance|..].
    + intros g' w' (Hag & Hfr & Hb). wp_run. eexists. split; [apply Hins; by rewrite Hag|].
      intros k. rewrite Hb, Hd, Hfr. lia.
    + intros ? w' Hb. wp_run. exists δ. split; [done|]. intros k. by rewrite Hb.
  - destruct (pool !! i) as [g|] eqn:Hi; [|wp_run; by exists δ].
    destruct (guards_hold_split _ _ _ _ Hh Hi) as (ok & δ' & Hg & Hdel & Hd & Hins).
    wp_step. eapply wp_mono; [by apply (guard_destroy_balance g ok)|..]; [|done].
    intros ? w' Hb. wp_run. exists δ'. split; [done|]. intros k. rewrite Hb, Hd. lia.
Qed.

Lemma run_guard_ops_balance ops pool δ w :
  guards_hold pool δ →
  wp (run_guard_ops ops pool)
    (λ pool' w', ∃ δ', guards_hold pool' δ' ∧ ∀ k, balance w' k - δ' k = balance w k - δ k)
    (λ _ _, False) w.
Proof.
  revert pool δ w. induction ops as [|op ops IH]; intros pool δ w Hh; cbn [run_guard_ops].
  { wp_step. by exists δ. }
  wp_step.
  eapply wp_mono; [by apply run_guard_op_balance|..]; [|done].
  intros pool' w' (δ' & Hh' & Hb). eapply wp_mono; [by apply IH|..]; [|done].
  intros pool2 w2 (δ2 & Hh2 & Hb2). exists δ2. split; [done|]. intros k. by rewrite Hb2.
Qed.
End guard_ops.

(** ** The [--u32] rule *)
Definition hex_word (v : Z) : string := of_chars (hex_digits 8 v).

Section u32.
Context `{Host}.

Lemma ipv6_to_u32_rule_spec ip b0 b1 b2 b3 b4 b5 b6 b7 b8 b9 b10 b11 b12 b13 b14 b15 :
  family ip = AF_INET6 →
  address ip = [b0; b1; b2; b3; b4; b5; b6; b7; b8; b9; b10; b11; b12; b13; b14; b15] →
  bytes_wf (address ip) →
  ipv6_to_u32_rule ip = Ret (" -m u32 --u32 48=0x" +:+ hex_word (be_u32 b0 b1 b2 b3)
    +:+ "&&52=0x" +:+ hex_word (be_u32 b4 b5 b6 b7)
    +:+ "&&56=0x" +:+ hex_word (be_u32 b8 b9 b10 b11)
    +:+ "&&60=0x" +:+ hex_word (be_u32 b12 b13 b14 b15)).
Proof.
  intros Hf Ha Hwf. rewrite Ha in Hwf.
  repeat match goal with H : Forall _ (_ :: _) |- _ => apply Forall_cons in H as [? H] end.
  unfold ipv6_to_u32_rule. rewrite decide_False by tauto. rewrite Ha.
  cbn [s6_addr32 join_state fst]. unfold uint32_t_to_eight_hex_chars, hex_word.
  rewrite !htonl_load by done. rewrite !string_app_assoc. reflexivity.
Qed.
End u32.

(** ** Properties *)

(** Every functor makes, for [add] and for [del], a command which is not empty
    and differs only in the action: the two name the same address or the same
    firewall rule. *)
Lemma functors_name_one_resource `{Net_text} `{Host} iface ip port tp :
  (∃ k, names_resource (Temp_ip iface ip) k)
  ∧ (∃ k, names_resource (Drop_port ip port) k)
  ∧ (∃ k, names_resource (Reject_tp ip tp) k)
  ∧ (∃ k, names_resource (Block_icmp ip) k)
  ∧ (family ip = AF_INET6 → ∃ k, names_resource (Block_ipv6_neighbor_solicitation ip) k).
Proof.
  split_and!; [eexists; apply Temp_ip_names|apply Drop_port_names|apply Reject_tp_names
    |apply Block_icmp_names|apply Block_ns_names].
Qed.

(** C37: the [--u32] match compares the target address of a neighbour solicitation
    (at offset 48) with the sixteen bytes of the address, in network byte order,
    on machines of either byte order. *)
Theorem u32_rule_matches_address `{Host} ip
    b0 b1 b2 b3 b4 b5 b6 b7 b8 b9 b10 b11 b12 b13 b14 b15 :
  family ip = AF_INET6 →
  address ip = [b0; b1; b2; b3; b4; b5; b6; b7; b8; b9; b10; b11; b12; b13; b14; b15] →
  bytes_wf (address ip) →
  ipv6_to_u32_rule ip = Ret (" -m u32 --u32 48=0x" +:+ hex_word (be_u32 b0 b1 b2 b3)
    +:+ "&&52=0x" +:+ hex_word (be_u32 b4 b5 b6 b7)
    +:+ "&&56=0x" +:+ hex_word (be_u32 b8 b9 b10 b11)
    +:+ "&&60=0x" +:+ hex_word (be_u32 b12 b13 b14 b15)).
Proof. apply ipv6_to_u32_rule_spec. Qed.

(** C26: over every sequence of moves, calls of [free] and destructions, the
    addresses and rules in effect change exactly as the resources held by the
    guards which are not freed: nothing is given back twice, and what a moved-from
    guard held is held by the new one. *)
Theorem guards_account `{System} `{Fuel} ops pool δ w :
  guards_hold pool δ →
  match run_guard_ops ops pool w with
  | (Val pool', w') => ∃ δ', guards_hold pool' δ' ∧ ∀ k, balance w' k - δ' k = balance w k - δ k
  | (Raised _, _) => False
  | (Ended _, _) => True
  end.
Proof. intros Hh. exact (run_guard_ops_balance ops pool δ w Hh). Qed.

(** Constructing guards one after the other is all or nothing: when one
    constructor throws, the destructors of the others have given everything back. *)
Lemma emplace_all_or_nothing `{System} `{Fuel} fs δ w :
  functors_take fs δ →
  match emplace_all fs [] w with
  | (Val gs, w') => guards_hold gs δ ∧ ∀ k, balance w' k = balance w k + δ k
  | (Raised _, w') => ∀ k, balance w' k = balance w k
  | (Ended _, _) => True
  end.
Proof.
  intros Hf. pose proof (emplace_all_balance fs δ [] (λ _, 0) w Hf (hold_nil (λ _, 0) ltac:(done))) as Hw.
  unfold wp in Hw. destruct (emplace_all fs [] w) as [[gs|e|u] w']; [|intros k; rewrite Hw; lia|done].
  destruct Hw as [Hh Hb]. split; [|done].
  rewrite <-(app_nil_r gs).
  apply (guards_hold_app gs [] (λ k, 0 + δ k) (λ _, 0)); [done|by apply hold_nil|].
  intros k. cbn. lia.
Qed.

(** ** Witnesses *)
Definition guard_ip : IP_address :=
  {| family := AF_INET6;
     address := [0xfe; 0x80; 0; 0; 0; 0; 0; 0; 0; 0; 0; 0; 0; 0; 0x01; 0x23]; subnet := 64 |}.

Lemma functors_name_one_resource_witness :
  family guard_ip = AF_INET6 ∧
  ∃ k, names_resource (@Block_ipv6_neighbor_solicitation Little guard_ip) k.
Proof.
  split; [done|]. pose proof (@functors_name_one_resource ref_net Little "wlan0" guard_ip 22 TP_TCP) as Hw.
  destruct Hw as (_ & _ & _ & _ & Hw). by apply Hw.
Defined.

Lemma u32_rule_matches_address_witness :
  bytes_wf (address guard_ip) ∧
  @ipv6_to_u32_rule Little guard_ip
  = Ret " -m u32 --u32 48=0xfe800000&&52=0x00000000&&56=0x00000000&&60=0x00000123".
Proof.
  assert (bytes_wf (address guard_ip)) as Hwf by (refine (bool_decide_eq_true_1 _ _); by vm_compute).
  split; [done|].
  apply (@u32_rule_matches_address Little guard_ip
    0xfe 0x80 0 0 0 0 0 0 0 0 0 0 0 0 0x01 0x23); done.
Defined.

(** The child number [n] (from 1) exits with status 1, the others with 0. *)
Definition is_spawn (e : event) : bool :=
  let '(Event c _) := e in match c with Posix_spawnp _ _ _ => true | _ => false end.
Definition failing_system (n : nat) : System :=
  {| reply := λ A h c,
       match c in syscall A return A with
       | Waitpid _ => Some (if decide (length (List.filter is_spawn h) = n) then 256 else 0)
       | c => default_reply c
       end;
     strerror_errno := λ _, "error" |}.

Definition guard_functors : list (M Aquire_release) :=
  [mret (command (@Reject_tp ref_net guard_ip TP_TCP)); mret (command (@Drop_port ref_net guard_ip 22));
   mret (command (@Temp_ip ref_net "wlan0" guard_ip))].

Lemma guard_functors_take `{System} `{Fuel} : ∃ δ, functors_take guard_functors δ.
Proof.
  destruct (@Reject_tp_names ref_net guard_ip TP_TCP) as [k1 H1].
  destruct (@Drop_port_names ref_net guard_ip 22) as [k2 H2].
  eexists. repeat (eapply take_cons; [apply makes_ret, take_command_balance; eauto using Temp_ip_names| |by intros k]).
  by apply (take_nil (λ _, 0)).
Qed.

(** The third command fails: the two rules are deleted again. *)
Lemma emplace_all_or_nothing_witness :
  (∃ δ, @functors_take (failing_system 3) 1%nat guard_functors δ) ∧
  ∃ e w', @emplace_all (failing_system 3) 1%nat guard_functors [] world_init = (Raised e, w')
          ∧ (length (commands w') = 5)%nat ∧ ∀ k, balance w' k = balance world_init k.
Proof.
  pose proof (@guard_functors_take (failing_system 3) 1%nat) as [δ Hδ].
  split; [by exists δ|].
  pose proof (@emplace_all_or_nothing (failing_system 3) 1%nat guard_functors δ world_init Hδ) as Hw.
  destruct (@emplace_all (failing_system 3) 1%nat guard_functors [] world_init) as [r w'] eqn:E.
  vm_compute in E. injection E as <- <-. by eexists _, _.
Defined.

(** A guard is moved, freed and destroyed. *)
Lemma guards_account_witness :
  let f := command (@Temp_ip ref_net "wlan0" guard_ip) in
  let pool := [{| freed := false; aquire_release := f |}] in
  ∃ δ, @guards_hold default_system 1%nat pool δ ∧
  ∃ pool' w', @run_guard_ops default_system 1%nat [Guard_move 0; Guard_free 1; Guard_destroy 0; Guard_destroy 0]
                pool world_init = (Val pool', w')
    ∧ (length (commands w') = 1)%nat
    ∧ ∃ δ', @guards_hold default_system 1%nat pool' δ'
       ∧ ∀ k, balance w' k - δ' k = balance world_init k - δ k.
Proof.
  intros f pool.
  assert (∃ δ, @guards_hold default_system 1%nat pool δ) as [δ Hδ].
  { eexists. eapply hold_cons; [apply take_command_balance, Temp_ip_names|by apply (hold_nil (λ _, 0))|by intros k]. }
  exists δ. split; [done|].
  pose proof (@guards_account default_system 1%nat
    [Guard_move 0; Guard_free 1; Guard_destroy 0; Guard_destroy 0] pool δ world_init Hδ) as Hw.
  destruct (run_guard_ops _ _ _) as [r w'] eqn:E. vm_compute in E. injection E as <- <-.
  eexists _, _. split; [done|]. split; [by vm_compute|exact Hw].
Defined.
