(* ===== verification/Locks.v ===== *)
(** * Locks: the threads which share [pcaps] and [loop_end_reason]

    The registry [pcaps] is shared by the threads of [watchHost] and the signal
    handler; it is protected by [pcaps_mutex].  The [loop_end_reason] of a capture
    is shared by its owner, by watchers and by the handler; it is protected by a
    mutex of its own.  Here the functions which take these locks are sequences of
    instructions, and a machine interleaves the instructions of any number of
    threads and lets signals arrive at any time.  Shown: a typing discipline for
    locks and iterators is kept by every step and rules faults out; the machine
    refines one in which each access to the shared state is a single step, which
    is the view all other files take; without a signal inside a critical section
    the threads cannot get stuck, and with one they can. *)
From S2P Require Import Prelude ContainerUtils IntUtils NetText System Pcap FileDescriptor SpawnProcess ScopeGuard.

(** ** Instructions *)

(** [pcaps_mutex] of [libsleep_proxy.cpp] and the member [loop_end_reson_mutex]
    of each [Pcap_wrapper] *)
Inductive mutex := pcaps_mutex | loop_end_reson_mutex (pc : nat).
#[export] Instance mutex_eq_dec : EqDecision mutex.
Proof. solve_decision. Defined.
#[export] Instance mutex_countable : Countable mutex.
Proof.
  refine (inj_countable' (λ m, match m with pcaps_mutex => None | loop_end_reson_mutex pc => Some pc end)
    (λ o, match o with None => pcaps_mutex | Some pc => loop_end_reson_mutex pc end) _).
  by intros [].
Defined.

(** One access to the shared state.  An iterator into [pcaps] is an index and
    the generation of the vector it was made for: changing the vector invalidates
    it. *)
Inductive act :=
  | Set_signaled
  | Emplace_back (ref : nat)
  | Find (ref : nat)
  | Erase (gen i ref : nat)
  | Begin
  | Next (gen i : nat)
  | Set_reason (pc : nat) (ler : Loop_end_reason)
  | Get_reason (pc : nat)
  | Breakloop (pc : nat)
  | Joinable (pc : nat)
  | Cancel (pc : nat).

Inductive instr := Acquire (m : mutex) | Release (m : mutex) | Do (a : act).
Abbreviation code := (list instr).

(** The scope of a [std::lock_guard] *)
Definition locked (m : mutex) (body : code) : code := Acquire m :: body ++ [Release m].

(** ** The functions which lock *)

(** [Pcap_wrapper::get_end_reason] *)
Definition get_end_reason_code (pc : nat) : code :=
  locked (loop_end_reson_mutex pc) [Do (Get_reason pc)].

(** [Pcap_wrapper::break_loop] *)
Definition break_loop_code (pc : nat) (ler : Loop_end_reason) : code :=
  locked (loop_end_reson_mutex pc) [Do (Set_reason pc ler)] ++ [Do (Breakloop pc); Do (Joinable pc)].

(** The end of [Pcap_wrapper::loop], after [loop_thread.join()].  On an error it
    throws, without reading the reason. *)
Definition loop_end_code (pc : nat) (ret_val : Z) : code :=
  locked (loop_end_reson_mutex pc)
    (if decide (ret_val = 0%Z) then [Do (Set_reason pc packets_captured); Do (Get_reason pc)]
     else if decide (ret_val = PCAP_ERROR) then [Do (Set_reason pc error)]
     else [Do (Get_reason pc)]).

(** [signal_handler] *)
Definition signal_handler_code : code :=
  Do Set_signaled :: locked pcaps_mutex [Do Begin].

(** [Ptr_guard::operator()] *)
Definition ptr_guard_code (ref : nat) (action : Action) : code :=
  locked pcaps_mutex (match action with add => [Do (Emplace_back ref)] | del => [Do (Find ref)] end).

(** ** The machine *)

Record shared := Shared { state : world; generation : nat }.
Record config := Config { sh : shared; owners : gmap mutex nat; threads : list code }.

Section machine.
Context `{System}.

(** A system call on the way *)
Definition observe {A} (c : syscall A) (s : shared) : A * shared :=
  let r := reply (trace (state s)) c in
  (r, Shared (add_event (Event c r) (state s)) (generation s)).

(** An access: the new shared state, and what the thread does before it goes on *)
Definition exec (a : act) (s : shared) : outcome (shared * code) :=
  let w := state s in
  let gen := generation s in
  match a with
  | Set_signaled => Ret (Shared (with_signaled true w) gen, [])
  | Emplace_back ref => Ret (Shared (with_pcaps (pcaps w ++ [ref]) w) (S gen), [])
  | Find ref =>
      match list_find (ref =.) (pcaps w) with
      | Some (i, _) => Ret (s, [Do (Erase gen i ref)])
      | None => throw runtime_error
                  "element supposed to be managed by ptr_guard is gone missing from container"
      end
  | Erase gen' i ref =>
      if decide (gen' = gen) then Ret (Shared (with_pcaps (delete i (pcaps w)) w) (S gen), [])
      else Undef stale_iterator
  | Begin => Ret (s, [Do (Next gen 0)])
  | Next gen' i =>
      if decide (gen' = gen) then
        match pcaps w !! i with
        | Some pc => Ret (s, break_loop_code pc signal ++ [Do (Next gen' (S i))])
        | None => Ret (s, [])
        end
      else Undef stale_iterator
  | Set_reason pc ler => Ret (Shared (with_reason pc ler w) gen, [])
  | Get_reason pc => Ret (s, [])
  | Breakloop pc => let '(_, s') := observe (Pcap_breakloop pc) s in Ret (s', [])
  | Joinable pc =>
      let '(joinable, s') := observe (Loop_thread_joinable pc) s in
      Ret (s', if (joinable : bool) then [Do (Cancel pc)] else [])
  | Cancel pc => let '(_, s') := observe (Pthread_cancel pc) s in Ret (s', [])
  end.

(** One step of one thread, or the arrival of a signal at a thread, which runs
    the handler before it goes on.  The step is labelled with the thread and
    whether it is an arrival. *)
Inductive step : nat * bool → config → config → Prop :=
  | step_acquire s o ts i m k :
      ts !! i = Some (Acquire m :: k) → o !! m = None →
      step (i, false) (Config s o ts) (Config s (<[m := i]> o) (<[i := k]> ts))
  | step_release s o ts i m k :
      ts !! i = Some (Release m :: k) → o !! m = Some i →
      step (i, false) (Config s o ts) (Config s (delete m o) (<[i := k]> ts))
  | step_do s o ts i a k s' k' :
      ts !! i = Some (Do a :: k) → exec a s = Ret (s', k') →
      step (i, false) (Config s o ts) (Config s' o (<[i := k' ++ k]> ts))
  | step_signal s o ts i k :
      ts !! i = Some k →
      step (i, true) (Config s o ts) (Config s o (<[i := signal_handler_code ++ k]> ts)).

Definition any_step (c c' : config) : Prop := ∃ l, step l c c'.

(** No thread is about to do something undefined or to throw. *)
Definition faultless (c : config) : Prop :=
  ∀ i k, threads c !! i = Some k →
  match k with
  | Do a :: _ => ∃ r, exec a (sh c) = Ret r
  | Release m :: _ => owners c !! m = Some i
  | _ => True
  end.
End machine.

Definition held_by (o : gmap mutex nat) (i : nat) : gset mutex :=
  dom (filter (λ mi, mi.2 = i) o).
Definition initial (w : world) (ts : list code) : config := Config (Shared w 0) ∅ ts.

(** ** A typing discipline for locks and iterators

    [ok gen reg held k]: from here on the thread, which holds [held], uses
    [pcaps] only with its mutex held, [loop_end_reason] likewise, releases what it
    has acquired and nothing else, and its iterators are valid for the registry
    [reg] of generation [gen].  A thread which is about to acquire what it holds
    will not go on; nothing more is asked of it. *)
Definition iterator_free (x : instr) : Prop :=
  match x with Do (Erase _ _ _) | Do (Next _ _) => False | _ => True end.
Abbreviation static := (Forall iterator_free).

Definition act_ok (gen : nat) (reg : list nat) (held : gset mutex) (a : act) (k : code) : Prop :=
  match a with
  | Emplace_back _ | Find _ | Begin => pcaps_mutex ∈ held ∧ static k
  | Erase gen' i ref =>
      pcaps_mutex ∈ held ∧ static k ∧ gen' = gen ∧ list_find (ref =.) reg = Some (i, ref)
  | Next gen' _ => pcaps_mutex ∈ held ∧ static k ∧ gen' = gen
  | Set_reason pc _ | Get_reason pc => loop_end_reson_mutex pc ∈ held
  | Set_signaled | Breakloop _ | Joinable _ | Cancel _ => True
  end.

Fixpoint ok (gen : nat) (reg : list nat) (held : gset mutex) (k : code) : Prop :=
  match k with
  | [] => held = ∅
  | Acquire m :: k =>
      (m ∈ held ∧ (pcaps_mutex ∈ held ∨ static k))
      ∨ ((m ∉ held) ∧ (m = pcaps_mutex → static k) ∧ ok gen reg ({[m]} ∪ held) k)
  | Release m :: k => m ∈ held ∧ ok gen reg (held ∖ {[m]}) k
  | Do a :: k => act_ok gen reg held a k ∧ ok gen reg held k
  end.

(** Every thread follows the discipline. *)
Definition well_locked (c : config) : Prop :=
  ∀ i k, threads c !! i = Some k →
  ok (generation (sh c)) (pcaps (state (sh c))) (held_by (owners c) i) k.

(** *** Which locks a thread holds *)
Lemma elem_of_held_by o i m : m ∈ held_by o i ↔ o !! m = Some i.
Proof.
  unfold held_by. rewrite elem_of_dom. split.
  - intros [j Hj]. apply map_lookup_filter_Some in Hj as [Hm Hj]. cbn in Hj. by subst j.
  - intros Hm. exists i. by apply map_lookup_filter_Some.
Qed.

Lemma held_by_empty i : held_by ∅ i = ∅.
Proof. apply set_eq. intros m. rewrite elem_of_held_by. set_solver. Qed.

Lemma held_by_acquire o i m : o !! m = None → held_by (<[m := i]> o) i = {[m]} ∪ held_by o i.
Proof.
  intros Ho. apply set_eq. intros m'. rewrite elem_of_union, elem_of_singleton, !elem_of_held_by.
  destruct (decide (m' = m)) as [->|]; [rewrite lookup_insert_eq|rewrite lookup_insert_ne by done]; naive_solver.
Qed.
Lemma held_by_acquire_ne o i j m : j ≠ i → o !! m = None → held_by (<[m := i]> o) j = held_by o j.
Proof.
  intros Hj Ho. apply set_eq. intros m'. rewrite !elem_of_held_by.
  destruct (decide (m' = m)) as [->|]; [rewrite lookup_insert_eq|rewrite lookup_insert_ne by done]; naive_solver.
Qed.
Lemma held_by_release o i m : held_by (delete m o) i = held_by o i ∖ {[m]}.
Proof.
  apply set_eq. intros m'. rewrite elem_of_difference, elem_of_singleton, !elem_of_held_by.
  rewrite lookup_delete_Some. naive_solver.
Qed.
Lemma held_by_release_ne o i j m : j ≠ i → o !! m = Some i → held_by (delete m o) j = held_by o j.
Proof.
  intros Hj Ho. rewrite held_by_release. apply set_eq. intros m'.
  rewrite elem_of_difference, elem_of_singleton, !elem_of_held_by. naive_solver.
Qed.

(** *** The discipline and the registry *)
Lemma ok_static gen reg gen' reg' held k : static k → ok gen reg held k → ok gen' reg' held k.
Proof.
  intros Hk. revert held. induction Hk as [|x k Hx Hk IH]; intros held; [done|].
  destruct x as [m|m|a]; cbn [ok].
  - intros [?|(?&?&?)]; [by left|right; auto].
  - intros [??]. auto.
  - intros [Ha ?]. split; [|auto]. by destruct a.
Qed.

(** A thread which does not hold the registry has no iterators into it. *)
Lemma ok_without gen reg held k : pcaps_mutex ∉ held → ok gen reg held k → static k.
Proof.
  revert held. induction k as [|x k IH]; intros held Hp; cbn [ok]; [constructor|].
  destruct x as [m|m|a].
  - intros [[_ [?|?]]|(Hm & Hs & Hok)]; [done|by constructor|].
    constructor; [done|]. destruct (decide (m = pcaps_mutex)) as [->|]; [auto|].
    eapply IH; [|done]. set_solver.
  - intros [? ?]. constructor; [done|]. eapply IH; [|done]. set_solver.
  - intros [Ha Hok]. constructor; [|by eapply IH]. destruct a; cbn in *; naive_solver.
Qed.

Lemma ok_others gen reg gen' reg' held k :
  pcaps_mutex ∉ held → ok gen reg held k → ok gen' reg' held k.
Proof. intros Hp Hk. eapply ok_static; [by eapply ok_without|done]. Qed.

(** A piece of code which acquires and releases in turn fits everywhere. *)
Lemma ok_break_loop gen reg held pc ler k :
  pcaps_mutex ∈ held → ok gen reg held k → ok gen reg held (break_loop_code pc ler ++ k).
Proof.
  intros Hp Hk. cbn. destruct (decide (loop_end_reson_mutex pc ∈ held)) as [Hpc|Hpc]; [auto|right].
  split_and!; [done|done|set_solver|set_solver|done|done|].
  by replace (({[loop_end_reson_mutex pc]} ∪ held) ∖ {[loop_end_reson_mutex pc]}) with held by set_solver.
Qed.

Lemma ok_signal_handler gen reg held k :
  ok gen reg held k → ok gen reg held (signal_handler_code ++ k).
Proof.
  intros Hk. split; [done|]. cbn. destruct (decide (pcaps_mutex ∈ held)) as [Hp|Hp]; [auto|right].
  assert (static k) by by eapply ok_without.
  split_and!; [done|by repeat constructor|set_solver|by repeat constructor|set_solver|].
  by replace (({[pcaps_mutex]} ∪ held) ∖ {[pcaps_mutex]}) with held by set_solver.
Qed.

(** *** Preservation *)
Section preservation.
Context `{System}.

(** Code which was fine and is replaced by code which is fine; the registry may
    change when the thread holds its mutex. *)
Lemma well_locked_insert s o ts i k s' o' k' :
  well_locked (Config s o ts) → ts !! i = Some k →
  ok (generation s') (pcaps (state s')) (held_by o' i) k' →
  (∀ j, j ≠ i → held_by o' j = held_by o j) →
  ((generation s' = generation s ∧ pcaps (state s') = pcaps (state s))
   ∨ o !! pcaps_mutex = Some i) →
  well_locked (Config s' o' (<[i := k']> ts)).
Proof.
  intros Hw Hi Hk' Hothers Hreg j kj. cbn.
  intros [(<- & <- & _)|[Hij Hj]]%list_lookup_insert_Some; [done|].
  specialize (Hw j kj Hj). cbn in Hw. rewrite Hothers by done.
  destruct Hreg as [[-> ->]|Hp]; [done|].
  eapply ok_others; [|done]. rewrite elem_of_held_by. congruence.
Qed.

Lemma exec_ok held a s s' k k' :
  ok (generation s) (pcaps (state s)) held (Do a :: k) → exec a s = Ret (s', k') →
  ok (generation s') (pcaps (state s')) held (k' ++ k)
  ∧ ((generation s' = generation s ∧ pcaps (state s') = pcaps (state s))
     ∨ pcaps_mutex ∈ held).
Proof.
  intros [Ha Hk] He. destruct a; cbn in *; simplify_eq/=; auto.
  - destruct Ha as [Hp Hs]. split; [|by right]. by eapply ok_static.
  - destruct Ha as [Hp Hs]. destruct (list_find _ _) as [[i ?]|] eqn:Hf; simplify_eq/=.
    split; [|by left]. split_and!; [done|done|done| |done].
    rewrite Hf. by apply list_find_Some in Hf as (_ & <- & _).
  - destruct Ha as (Hp & Hs & -> & _). rewrite decide_True in He by done. simplify_eq/=.
    split; [|by right]. by eapply ok_static.
  - destruct Ha as [Hp Hs]. split; [by split_and!|by left].
  - destruct Ha as (Hp & Hs & ->). rewrite decide_True in He by done.
    destruct (_ !! _) as [pc|]; simplify_eq/=; [|by auto]. split; [|by left].
    apply (ok_break_loop _ _ _ pc signal (Do (Next _ _) :: k)); [done|by split_and!].
  - split; [|by left]. by case_match.
Qed.

Lemma well_locked_step l c c' : well_locked c → step l c c' → well_locked c'.
Proof.
  intros Hw Hstep. destruct Hstep as [s o ts i m k Hi Ho|s o ts i m k Hi Ho|s o ts i a k s' k' Hi He|s o ts i k Hi].
  - pose proof (Hw i _ Hi) as Hk. cbn in Hk. eapply well_locked_insert; [done..| | |by left].
    + rewrite held_by_acquire by done. destruct Hk as [[Hm _]|(_ & _ & ?)]; [|done].
      apply elem_of_held_by in Hm. congruence.
    + intros. by apply held_by_acquire_ne.
  - pose proof (Hw i _ Hi) as [_ Hk]. eapply well_locked_insert; [done..| | |by left].
    + by rewrite held_by_release.
    + intros. by eapply held_by_release_ne.
  - pose proof (Hw i _ Hi) as Hk. eapply exec_ok in Hk as [Hk Hreg]; [|done].
    eapply well_locked_insert; [done..|]. destruct Hreg as [?|Hp]; [by left|right].
    by apply elem_of_held_by.
  - eapply well_locked_insert; [done..| |done|by left]. apply ok_signal_handler. by apply Hw.
Qed.

Lemma well_locked_steps c c' : well_locked c → rtc any_step c c' → well_locked c'.
Proof. intros Hw. induction 1 as [|c c1 c' [l ?] _ IH]; eauto using well_locked_step. Qed.
End preservation.

#[local] Arguments occurrences : simpl never.

(** ** Who will unregister what

    [need ref k]: how many registrations of [ref] the code [k] takes back beyond
    those it makes itself. *)
Definition instr_need (ref : nat) (x : instr) : Z :=
  match x with
  | Do (Find r) | Do (Erase _ _ r) => if decide (r = ref) then 1 else 0
  | Do (Emplace_back r) => if decide (r = ref) then -1 else 0
  | _ => 0
  end%Z.
Definition need (ref : nat) (k : code) : Z := foldr (λ x n, instr_need ref x + n)%Z 0%Z k.
Definition needs (ref : nat) (ts : list code) : Z := foldr (λ k n, need ref k + n)%Z 0%Z ts.

(** At no point does the code make more registrations than it takes back. *)
Fixpoint bracketed (ref : nat) (k : code) : Prop :=
  (0 ≤ need ref k)%Z ∧ match k with [] => True | _ :: k => bracketed ref k end.

(** The threads of the program before they start *)
Definition thread_ok (k : code) : Prop :=
  ok 0 [] ∅ k ∧ (∀ ref, bracketed ref k) ∧ ∀ ref, need ref k = 0%Z.

Lemma need_cons ref x k : need ref (x :: k) = (instr_need ref x + need ref k)%Z.
Proof. done. Qed.
Lemma need_app ref k1 k2 : need ref (k1 ++ k2) = (need ref k1 + need ref k2)%Z.
Proof. unfold need. induction k1 as [|x k1 IH]; cbn; lia. Qed.
Lemma bracketed_need ref k : bracketed ref k → (0 ≤ need ref k)%Z.
Proof. by destruct k; intros [? _]. Qed.
Lemma bracketed_app ref k1 k2 : bracketed ref k1 → bracketed ref k2 → bracketed ref (k1 ++ k2).
Proof.
  intros H1 H2. pose proof (bracketed_need _ _ H2). induction k1 as [|x k1 IH]; [done|].
  destruct H1 as [Hn H1]. split; [|by apply IH].
  change (0 ≤ need ref ((x :: k1) ++ k2))%Z. rewrite need_app. lia.
Qed.

(** Code which leaves the registry alone *)
Definition neutral (x : instr) : Prop := ∀ ref, instr_need ref x = 0%Z.
Lemma neutral_need ref k : Forall neutral k → need ref k = 0%Z.
Proof. unfold need. induction 1 as [|x k Hx _ IH]; cbn; [done|]. rewrite Hx. lia. Qed.
Lemma neutral_bracketed ref k : Forall neutral k → bracketed ref k.
Proof.
  induction 1 as [|x k Hx Hk IH]; [done|]. split; [|done].
  change (0 ≤ instr_need ref x + need ref k)%Z. rewrite Hx, neutral_need by done. lia.
Qed.

Lemma needs_insert ref ts i k k' :
  ts !! i = Some k → needs ref (<[i := k']> ts) = (needs ref ts - need ref k + need ref k')%Z.
Proof.
  revert i. induction ts as [|t ts IH]; intros [|i]; cbn [lookup list_lookup]; [done..| |].
  - intros [= ->]. cbn. lia.
  - intros Hi. change (need ref t + needs ref (<[i := k']> ts)
                       = need ref t + needs ref ts - need ref k + need ref k')%Z.
    rewrite (IH _ Hi). lia.
Qed.
Lemma needs_lookup ref ts i k :
  Forall (bracketed ref) ts → ts !! i = Some k → (need ref k ≤ needs ref ts)%Z.
Proof.
  intros Hts. revert i. induction Hts as [|t ts Ht Hts IH]; intros [|i]; cbn; [done..| |].
  - intros [= ->]. enough (0 ≤ needs ref ts)%Z by (unfold needs in *; lia).
    clear -Hts. unfold needs. induction Hts as [|t ts ?%bracketed_need _ IH]; cbn; lia.
  - intros Hi. specialize (IH _ Hi). apply bracketed_need in Ht. unfold needs in *. lia.
Qed.

Lemma find_erases ref l i r :
  list_find (ref =.) l = Some (i, r) → r = ref ∧ erase_first ref l = Some (delete i l).
Proof.
  intros Hf. split; [by apply list_find_Some in Hf as (_ & <- & _)|].
  unfold erase_first. by rewrite Hf.
Qed.
Lemma occurrences_delete ref r l i r' :
  list_find (r =.) l = Some (i, r') →
  occurrences ref (delete i l) = (occurrences ref l - if decide (r = ref) then 1 else 0)%Z.
Proof.
  intros [_ He]%find_erases. rewrite (erase_first_occurrences _ _ _ ref He), occurrences_singleton. lia.
Qed.
Lemma occurrences_found ref l : (0 < occurrences ref l)%Z → ∃ i, list_find (ref =.) l = Some (i, ref).
Proof.
  intros Hl. destruct (list_find (ref =.) l) as [[i r]|] eqn:Hf.
  - exists i. by destruct (find_erases _ _ _ _ Hf) as [-> _].
  - apply list_find_None in Hf. exfalso. revert Hl.
    induction Hf as [|x l Hx _ IH]; [done|]. unfold occurrences in *. by rewrite filter_cons_False.
Qed.

#[local] Arguments needs : simpl never.

(** *** The registry is the sum of what the threads will take back *)
Section accounts.
Context `{System}.

Lemma exec_need ref a s s' k k' held :
  ok (generation s) (pcaps (state s)) held (Do a :: k) → exec a s = Ret (s', k') →
  (occurrences ref (pcaps (state s')) - need ref (k' ++ k)
   = occurrences ref (pcaps (state s)) - need ref (Do a :: k))%Z.
Proof.
  intros [Ha _] He. rewrite need_app.
  rewrite need_cons.
  destruct a; cbn in *; simplify_eq/=; try lia.
  - rewrite occurrences_app, occurrences_singleton. repeat case_decide; lia.
  - destruct (list_find _ _) as [[i r]|] eqn:Hf; simplify_eq/=. lia.
  - destruct Ha as (_ & _ & -> & Hf). rewrite decide_True in He by done. simplify_eq/=.
    rewrite (occurrences_delete _ _ _ _ _ Hf). lia.
  - case_decide; [|done]. case_match; simplify_eq/=; lia.
  - case_match; cbn; lia.
Qed.

Lemma exec_bracketed ref a s s' k k' :
  bracketed ref (Do a :: k) → exec a s = Ret (s', k') → bracketed ref (k' ++ k).
Proof.
  intros [Hn Hk] He.
  destruct a; cbn in He; simplify_eq/=; try done.
  - destruct (list_find _ _) as [[i r]|]; simplify_eq/=. done.
  - case_decide; simplify_eq/=. done.
  - case_decide; [|done]. case_match; simplify_eq/=; [|done].
    split_and!; try lia. done.
  - by case_match.
Qed.

(** The invariant of all threads together *)
Definition disciplined (extra : nat → Z) (c : config) : Prop :=
  well_locked c
  ∧ (∀ ref, Forall (bracketed ref) (threads c))
  ∧ ∀ ref, occurrences ref (pcaps (state (sh c))) = (extra ref + needs ref (threads c))%Z.

Lemma disciplined_step extra l c c' : disciplined extra c → step l c c' → disciplined extra c'.
Proof.
  intros (Hw & Hb & Hn) Hstep.
  assert (well_locked c') as Hw' by by eapply well_locked_step.
  split_and!; [done|..]; intros ref; specialize (Hb ref); specialize (Hn ref); clear Hw'.
  all: destruct Hstep as [s o ts i m k Hi Ho|s o ts i m k Hi Ho|s o ts i a k s' k' Hi He|s o ts i k Hi]; cbn in *.
  1-4: pose proof (Forall_lookup_1 _ _ _ _ Hb Hi) as Hk; apply Forall_insert; [done|].
  1,2: by destruct Hk as [_ ?].
  1: by eapply exec_bracketed.
  1: by apply (bracketed_app _ signal_handler_code); [apply neutral_bracketed; by repeat constructor|].
  all: rewrite (needs_insert _ _ _ _ _ Hi), ?Hn.
  3: pose proof (exec_need ref _ _ _ _ _ _ (Hw _ _ Hi) He) as Hex; cbn [sh] in Hex; lia.
  all: rewrite ?need_cons; cbn [instr_need]; lia.
Qed.

Lemma disciplined_steps extra c c' :
  disciplined extra c → rtc any_step c c' → disciplined extra c'.
Proof. intros Hc. induction 1 as [|c c1 c' [l ?] _ IH]; eauto using disciplined_step. Qed.

Lemma disciplined_faultless extra c :
  (∀ ref, 0 ≤ extra ref)%Z → disciplined extra c → faultless c.
Proof.
  intros Hx (Hw & Hb & Hn) i k Hi. pose proof (Hw _ _ Hi) as Hok.
  destruct k as [|[m|m|a] k]; [done|done| |].
  - destruct Hok as [Hm _]. by apply elem_of_held_by in Hm.
  - destruct Hok as [Ha _]. destruct a; cbn in *; try by eexists.
    + pose proof (needs_lookup ref _ _ _ (Hb ref) Hi) as Hle. cbn in Hle. rewrite decide_True in Hle by done.
      pose proof (Forall_lookup_1 _ _ _ _ (Hb ref) Hi) as [_ ?%bracketed_need].
      destruct (occurrences_found ref (pcaps (state (sh c)))) as [j ->]; [|by eexists].
      rewrite Hn. specialize (Hx ref). fold (need ref k) in Hle. lia.
    + destruct Ha as (_ & _ & -> & _). rewrite decide_True by done. by eexists.
    + destruct Ha as (_ & _ & ->). rewrite decide_True by done. case_match; by eexists.
Qed.
End accounts.

Lemma sum_list_insert (f : code → nat) ts i k k' :
  ts !! i = Some k →
  sum_list (f <$> <[i := k']> ts) + f k = sum_list (f <$> ts) + f k'.
Proof.
  revert i. induction ts as [|t ts IH]; intros [|i]; cbn; [done..| |].
  - intros [= ->]. lia.
  - intros Hi%IH.
    change (f t + sum_list (f <$> <[i := k']> ts) + f k = f t + sum_list (f <$> ts) + f k'). lia.
Qed.

(** ** The programs of the threads

    What the code does with the shared state: a capture is registered, looped on
    and unregistered again, whatever else happens in between; watchers break
    loops. *)
Inductive program : code → Prop :=
  | program_nil : program []
  | program_break_loop pc ler k : program k → program (break_loop_code pc ler ++ k)
  | program_get_end_reason pc k : program k → program (get_end_reason_code pc ++ k)
  | program_loop_end pc ret_val k : program k → program (loop_end_code pc ret_val ++ k)
  | program_registered pc k k' :
      program k → program k' →
      program (ptr_guard_code pc add ++ k ++ ptr_guard_code pc del ++ k').

Lemma static_locked m body : static body → static (locked m body).
Proof. intros. constructor; [done|]. apply Forall_app. split; [done|by repeat constructor]. Qed.
Lemma static_loop_end pc r : static (loop_end_code pc r).
Proof. apply static_locked. repeat case_decide; by repeat constructor. Qed.
Lemma static_ptr_guard pc a : static (ptr_guard_code pc a).
Proof. apply static_locked. by destruct a; repeat constructor. Qed.

Lemma program_static k : program k → static k.
Proof.
  induction 1 as [|pc ler k _ IH|pc k _ IH|pc r k _ IH|pc k k' _ IH _ IH']; rewrite ?Forall_app;
    split_and?; eauto using static_loop_end, static_ptr_guard; by repeat constructor.
Qed.

(** Code which ends without locks can be followed by other code. *)
Lemma ok_app held k1 k2 : ok 0 [] held k1 → static k2 → ok 0 [] ∅ k2 → ok 0 [] held (k1 ++ k2).
Proof.
  intros H1 Hs H2. revert held H1. induction k1 as [|[m|m|a] k1 IH]; intros held; cbn [ok app].
  - by intros ->.
  - intros [[? [?|?]]|(?&?&?)]; [by auto|left; split; [done|right; by apply Forall_app]|right].
    split_and!; [done| |auto]. intros. apply Forall_app. auto.
  - intros [? ?]. auto.
  - intros [Ha ?]. split; [|auto]. destruct a; cbn in *; rewrite ?Forall_app; naive_solver.
Qed.

Lemma thread_ok_app k1 k2 : thread_ok k1 → static k2 → thread_ok k2 → thread_ok (k1 ++ k2).
Proof.
  intros (H1 & Hb1 & Hn1) Hs (H2 & Hb2 & Hn2). split_and!.
  - by apply ok_app.
  - intros ref. by apply bracketed_app.
  - intros ref. rewrite need_app, Hn1, Hn2. done.
Qed.

(** A short critical section around accesses which need the mutex [m] *)
Definition accesses_reason (pc : nat) (x : instr) : Prop :=
  match x with Do (Set_reason pc' _) | Do (Get_reason pc') => pc' = pc | _ => False end.

Lemma thread_ok_locked pc body :
  Forall (accesses_reason pc) body → thread_ok (locked (loop_end_reson_mutex pc) body).
Proof.
  intros Hb. assert (Forall neutral (locked (loop_end_reson_mutex pc) body)) as Hn.
  { constructor; [done|]. apply Forall_app. split; [|by repeat constructor].
    eapply Forall_impl; [exact Hb|]. by intros [|?|[]]. }
  split_and!; [|intros ref; by apply neutral_bracketed|intros ref; by apply neutral_need].
  right. split_and!; [set_solver|done|]. rewrite union_empty_r_L. clear Hn.
  induction Hb as [|[m|m|a] body Ha _ IH]; [split; set_solver|done..|].
  split; [|done]. by destruct a; cbn in *; subst; try set_solver.
Qed.

Lemma ok_ptr_guard pc a : ok 0 [] ∅ (ptr_guard_code pc a).
Proof.
  right. split_and!; [set_solver|intros; by destruct a; repeat constructor|].
  destruct a; (split; [split; [set_solver|by repeat constructor]|]); split; set_solver.
Qed.

Lemma program_ok k : program k → thread_ok k.
Proof.
  induction 1 as [|pc ler k Hk IH|pc k Hk IH|pc r k Hk IH|pc k k' Hk IH Hk' IH'].
  - split_and!; [done|by intros|by intros].
  - apply thread_ok_app; [|by apply program_static|done].
    apply (thread_ok_app (locked _ _) [_; _]); [|by repeat constructor|].
    + apply thread_ok_locked. by repeat constructor.
    + split_and!; [done|intros; by apply neutral_bracketed; repeat constructor|done].
  - apply thread_ok_app; [|by apply program_static|done]. apply thread_ok_locked. by repeat constructor.
  - apply thread_ok_app; [|by apply program_static|done]. apply thread_ok_locked.
    repeat case_decide; by repeat constructor.
  - assert (static k') by by apply program_static. assert (static k) by by apply program_static.
    destruct IH as (Hok & Hb & Hn), IH' as (Hok' & Hb' & Hn'). split_and!.
    + repeat apply ok_app; rewrite ?Forall_app; auto using static_ptr_guard, ok_ptr_guard.
    + intros ref. assert (bracketed ref (k ++ ptr_guard_code pc del ++ k')) as Hr.
      { repeat apply bracketed_app; auto. split_and!; cbn; case_decide; lia. }
      assert (need ref (k ++ ptr_guard_code pc del ++ k') = if decide (pc = ref) then 1 else 0)%Z as Hnr.
      { rewrite !need_app, Hn, Hn'. cbn. lia. }
      revert Hr Hnr. generalize (k ++ ptr_guard_code pc del ++ k'). intros rest Hr Hnr.
      cbn [ptr_guard_code locked app bracketed]. rewrite !need_cons, Hnr. cbn [instr_need].
      split_and!; try done; case_decide; lia.
    + intros ref. rewrite !need_app, Hn, Hn'. cbn. case_decide; lia.
Qed.

Section safety.
Context `{System}.

Lemma initial_disciplined w ts :
  Forall thread_ok ts → disciplined (λ ref, occurrences ref (pcaps w)) (initial w ts).
Proof.
  intros Hts. split_and!.
  - intros i k Hi. cbn. rewrite held_by_empty.
    apply (Forall_lookup_1 _ _ _ _ Hts) in Hi as [Hi _]. eapply ok_others; [|done]. set_solver.
  - intros ref. eapply Forall_impl; [exact Hts|]. by intros k (_ & Hb & _).
  - intros ref. cbn. assert (needs ref ts = 0%Z) as ->; [|lia].
    induction Hts as [|k ts (_ & _ & Hn) _ IH]; [done|].
    change (need ref k + needs ref ts = 0)%Z. rewrite Hn, IH. done.
Qed.

Lemma finished_needs ref ts : Forall (λ k, k = []) ts → needs ref ts = 0%Z.
Proof. induction 1 as [|k ts -> _ IH]; [done|]. change (0 + needs ref ts = 0)%Z. by rewrite IH. Qed.

Lemma programs_disciplined w ts c :
  Forall program ts → rtc any_step (initial w ts) c →
  disciplined (λ ref, occurrences ref (pcaps w)) c.
Proof.
  intros Hts Hsteps. eapply disciplined_steps; [|done]. apply initial_disciplined.
  eapply Forall_impl; [done|]. apply program_ok.
Qed.

Lemma threads_faultless w ts c :
  Forall program ts → rtc any_step (initial w ts) c → faultless c.
Proof.
  intros Hts Hsteps. eapply disciplined_faultless; [|by eapply programs_disciplined].
  intros. unfold occurrences. lia.
Qed.

(** The mutex which protects what an access touches *)
Definition protected_by (a : act) : option mutex :=
  match a with
  | Emplace_back _ | Find _ | Erase _ _ _ | Begin | Next _ _ => Some pcaps_mutex
  | Set_reason pc _ | Get_reason pc => Some (loop_end_reson_mutex pc)
  | Set_signaled | Breakloop _ | Joinable _ | Cancel _ => None
  end.

(** C16: the programs follow the locking discipline, every step of every thread and
    every arriving signal keeps it, and who follows it holds the mutex of whatever
    it is about to access: no two threads are ever about to access the registry,
    or the same [loop_end_reason]. *)
Theorem lock_discipline_sound :
  (∀ w ts, Forall program ts → well_locked (initial w ts))
  ∧ (∀ l c c', well_locked c → step l c c' → well_locked c')
  ∧ (∀ c i a k m, well_locked c → threads c !! i = Some (Do a :: k) → protected_by a = Some m →
       owners c !! m = Some i)
  ∧ (∀ c i j a b ki kj m, well_locked c →
       threads c !! i = Some (Do a :: ki) → threads c !! j = Some (Do b :: kj) →
       protected_by a = Some m → protected_by b = Some m → i = j).
Proof.
  assert (∀ c i a k m, well_locked c → threads c !! i = Some (Do a :: k) → protected_by a = Some m →
    owners c !! m = Some i) as Hheld.
  { intros c i a k m Hw Hi Hm. apply elem_of_held_by. destruct (Hw _ _ Hi) as [Ha _].
    destruct a; cbn in *; simplify_eq; naive_solver. }
  split_and!; [|apply well_locked_step|done|].
  - intros w ts Hts. by apply (programs_disciplined w ts (initial w ts) Hts).
  - intros c i j a b ki kj m Hw Hi Hj Ha Hb.
    pose proof (Hheld _ _ _ _ _ Hw Hi Ha). pose proof (Hheld _ _ _ _ _ Hw Hj Hb). congruence.
Qed.

(** C15: whatever the interleaving of the threads and whenever signals arrive, no
    thread ever uses a stale iterator, releases a mutex it does not hold, or finds
    its registration gone; and when all threads are done every capture is
    registered as often as before. *)
Theorem threads_safe w ts c :
  Forall program ts → rtc any_step (initial w ts) c →
  faultless c
  ∧ (Forall (λ k, k = []) (threads c) →
     ∀ ref, occurrences ref (pcaps (state (sh c))) = occurrences ref (pcaps w)).
Proof.
  intros Hts Hsteps. split; [by eapply threads_faultless|].
  intros Hd ref. destruct (programs_disciplined _ _ _ Hts Hsteps) as (_ & _ & ->).
  rewrite finished_needs by done. lia.
Qed.
End safety.

(** ** Running a schedule

    A list of labels, each the thread which moves next and whether a signal
    arrives there. *)
Definition perform `{System} (l : nat * bool) (c : config) : option config :=
  let '(i, arrival) := l in
  k ← threads c !! i;
  if (arrival : bool) then Some (Config (sh c) (owners c) (<[i := signal_handler_code ++ k]> (threads c)))
  else match k with
       | [] => None
       | Acquire m :: k =>
           match owners c !! m with
           | None => Some (Config (sh c) (<[m := i]> (owners c)) (<[i := k]> (threads c)))
           | Some _ => None
           end
       | Release m :: k =>
           if decide (owners c !! m = Some i)
           then Some (Config (sh c) (delete m (owners c)) (<[i := k]> (threads c))) else None
       | Do a :: k =>
           match exec a (sh c) with
           | Ret (s', k') => Some (Config s' (owners c) (<[i := k' ++ k]> (threads c)))
           | _ => None
           end
       end.

Fixpoint run_schedule `{System} (ls : list (nat * bool)) (c : config) : option config :=
  match ls with [] => Some c | l :: ls => c' ← perform l c; run_schedule ls c' end.

Lemma perform_step `{System} l c c' : perform l c = Some c' ↔ step l c c'.
Proof.
  split.
  - destruct l as [i a], c as [s o ts]. unfold perform. cbn. intros Hp.
    destruct (ts !! i) as [k|] eqn:Hi; [|done]. cbn in Hp. destruct a; simplify_eq/=; [by constructor|].
    destruct k as [|[m|m|a] k]; [done|..].
    + destruct (o !! m) eqn:Ho; simplify_eq/=. by constructor.
    + case_decide; simplify_eq/=. by constructor.
    + destruct (exec a s) as [[s' k']|?|?] eqn:He; simplify_eq/=. by econstructor.
  - destruct 1 as [s o ts i m k Hi Ho|s o ts i m k Hi Ho|s o ts i a k s' k' Hi He|s o ts i k Hi];
      cbn; rewrite Hi; cbn; rewrite ?Ho, ?He; try done. by rewrite decide_True.
Qed.

Lemma run_schedule_steps `{System} ls c c' : run_schedule ls c = Some c' → rtc any_step c c'.
Proof.
  revert c. induction ls as [|l ls IH]; intros c; cbn; [by intros [= ->]|].
  destruct (perform l c) as [c1|] eqn:Hp; [|done]. intros Hr.
  eapply rtc_l; [|by apply IH]. exists l. by apply perform_step.
Qed.

(** Two captures, a watcher of the second, and a signal in the middle *)
Definition capture_code (pc : nat) (ret_val : Z) : code :=
  ptr_guard_code pc add ++ loop_end_code pc ret_val ++ ptr_guard_code pc del.

Lemma break_loop_program pc ler : program (break_loop_code pc ler).
Proof. rewrite <-(right_id_L [] (++) (break_loop_code _ _)). repeat constructor. Qed.
Lemma capture_program pc ret_val : program (capture_code pc ret_val).
Proof.
  unfold capture_code. rewrite <-(right_id_L [] (++) (ptr_guard_code pc del)).
  apply program_registered; [|constructor].
  rewrite <-(right_id_L [] (++) (loop_end_code pc ret_val)). repeat constructor.
Qed.

Definition two_captures : list code := [capture_code 0 0; capture_code 1 PCAP_ERROR_BREAK; break_loop_code 1 duplicate_address].
Definition two_captures_schedule : list (nat * bool) :=
  ((λ i, (i, false)) <$> [0; 0; 0; 1; 1; 1; 2; 2; 2; 2]) ++ [(2, true)]
  ++ ((λ i, (i, false)) <$> replicate 18 2 ++ replicate 8 0 ++ replicate 7 1).
Definition two_captures_run `{System} : option (list code * list nat * gmap nat Loop_end_reason) :=
  c ← run_schedule two_captures_schedule (initial world_init two_captures);
  Some (threads c, pcaps (state (sh c)), end_reasons (state (sh c))).

Lemma two_captures_program : Forall program two_captures.
Proof.
  constructor; [|constructor; [|constructor; [|constructor]]];
    auto using capture_program, break_loop_program.
Qed.

Lemma threads_safe_witness :
  Forall program two_captures
  ∧ ∃ c, rtc (@any_step default_system) (initial world_init two_captures) c
    ∧ @faultless default_system c ∧ Forall (λ k, k = []) (threads c)
    ∧ end_reasons (state (sh c)) !! 1%nat = Some signal
    ∧ ∀ ref, occurrences ref (pcaps (state (sh c))) = occurrences ref [].
Proof.
  pose proof two_captures_program as Hp. split; [done|].
  destruct (@run_schedule default_system two_captures_schedule (initial world_init two_captures))
    as [c|] eqn:Hr; [|by vm_compute in Hr].
  pose proof (run_schedule_steps _ _ _ Hr) as Hs. exists c. split; [done|].
  destruct (@threads_safe default_system world_init two_captures c Hp Hs) as [Hf Hd].
  split; [done|].
  assert (threads c = [[]; []; []] ∧ end_reasons (state (sh c)) !! 1%nat = Some signal) as [Ht He]
    by by (vm_compute in Hr; injection Hr as <-).
  assert (Forall (λ k, k = []) (threads c)) as Hd' by by (rewrite Ht; repeat constructor).
  split; [done|]. split; [done|]. by apply Hd.
Defined.

(** *** Without the mutex

    The same operations without taking the lock: a registration in between
    invalidates the iterator of one who unregisters. *)
Definition unlocked (k : code) : code :=
  omap (λ x, match x with Do a => Some (Do a) | _ => None end) k.
Definition unlocked_threads : list code := unlocked <$> [capture_code 0 0; capture_code 1 0].

Lemma unlocked_faults `{System} :
  ∃ c, rtc any_step (initial world_init unlocked_threads) c ∧ ¬ faultless c.
Proof.
  destruct (run_schedule ((λ i, (i, false)) <$> [0; 0; 0; 0; 1]) (initial world_init unlocked_threads))
    as [c|] eqn:Hr; [|by vm_compute in Hr].
  exists c. split; [by eapply run_schedule_steps|]. vm_compute in Hr. injection Hr as <-.
  intros Hf. destruct (Hf 0%nat [Do (Erase 1 0 0)]) as [r Hr]; [done|]. by vm_compute in Hr.
Qed.
