(* ===== verification/Atomicity.v ===== *)
(** * Atomicity: operations under a lock are single steps

    A second machine for the threads of [Locks], without mutexes and iterators: an
    access to the registry or to a [loop_end_reason] is one step, and the steps
    are the computations of [Pcap] and [ScopeGuard] themselves.  The machine of
    [Locks] refines it; running alone, the atomic operations of a function are
    exactly the function. *)
From S2P Require Import Prelude ContainerUtils IntUtils NetText System Pcap FileDescriptor SpawnProcess ScopeGuard Locks.

(** ** The atomic machine *)
Inductive operation :=
  | Op_signaled
  | Op_guard (ref : nat) (action : Action)
  | Op_snapshot
  | Op_each (pcs : list nat)
  | Op_set_reason (pc : nat) (ler : Loop_end_reason)
  | Op_get_reason (pc : nat)
  | Op_breakloop (pc : nat)
  | Op_joinable (pc : nat)
  | Op_cancel (pc : nat).

Section atomic.
Context `{System}.

Definition perform_op (op : operation) : M (list operation) :=
  match op with
  | Op_signaled => _ ← modify (with_signaled true); mret []
  | Op_guard ref action => _ ← ptr_guard_apply ref action; mret []
  | Op_snapshot => w ← get; mret [Op_each (pcaps w)]
  | Op_each [] => mret []
  | Op_each (pc :: pcs) =>
      mret [Op_set_reason pc signal; Op_breakloop pc; Op_joinable pc; Op_each pcs]
  | Op_set_reason pc ler => _ ← modify (with_reason pc ler); mret []
  | Op_get_reason pc => _ ← get_end_reason pc; mret []
  | Op_breakloop pc => _ ← call (Pcap_breakloop pc); mret []
  | Op_joinable pc =>
      joinable ← call (Loop_thread_joinable pc);
      mret (if (joinable : bool) then [Op_cancel pc] else [])
  | Op_cancel pc => _ ← call (Pthread_cancel pc); mret []
  end.

(** ** What the instructions are in the atomic machine

    Locking is nothing; who unregisters does so when it erases; an iterator
    stands for the elements it has not reached. *)
Definition operations (reg : list nat) (x : instr) : list operation :=
  match x with
  | Acquire _ | Release _ => []
  | Do Set_signaled => [Op_signaled]
  | Do (Emplace_back ref) => [Op_guard ref add]
  | Do (Find ref) | Do (Erase _ _ ref) => [Op_guard ref del]
  | Do Begin => [Op_snapshot]
  | Do (Next _ i) => [Op_each (drop i reg)]
  | Do (Set_reason pc ler) => [Op_set_reason pc ler]
  | Do (Get_reason pc) => [Op_get_reason pc]
  | Do (Breakloop pc) => [Op_breakloop pc]
  | Do (Joinable pc) => [Op_joinable pc]
  | Do (Cancel pc) => [Op_cancel pc]
  end.
Definition atomically (reg : list nat) (k : code) : list operation := k ≫= operations reg.

Abbreviation handler_operations := (atomically [] signal_handler_code).

Inductive atomic_step : world * list (list operation) → world * list (list operation) → Prop :=
  | atomic_do w ts i op ops w' ops' :
      ts !! i = Some (op :: ops) → perform_op op w = (Val ops', w') →
      atomic_step (w, ts) (w', <[i := ops' ++ ops]> ts)
  | atomic_signal w ts i ops :
      ts !! i = Some ops →
      atomic_step (w, ts) (w, <[i := handler_operations ++ ops]> ts).

Definition abstraction (c : config) : world * list (list operation) :=
  (state (sh c), atomically (pcaps (state (sh c))) <$> threads c).

(** What the locking machine does in between *)
Definition instr_work (x : instr) : nat :=
  match x with Acquire _ | Release _ | Do (Find _) => 1 | _ => 0 end.
Definition code_work (k : code) : nat := sum_list (instr_work <$> k).
Definition lock_work (c : config) : nat := sum_list (code_work <$> threads c).

(** *** The simulation *)
Lemma atomically_app reg k1 k2 : atomically reg (k1 ++ k2) = atomically reg k1 ++ atomically reg k2.
Proof. apply bind_app. Qed.

Lemma atomically_static reg reg' k : static k → atomically reg k = atomically reg' k.
Proof.
  unfold atomically. induction 1 as [|x k Hx _ IH]; [done|]. rewrite !bind_cons, IH.
  by destruct x as [| |[]].
Qed.

Lemma code_work_app k1 k2 : code_work (k1 ++ k2) = code_work k1 + code_work k2.
Proof. unfold code_work. induction k1 as [|x k1 IH]; cbn in *; lia. Qed.

(** One thread goes on; the others are what they were, since none of them holds
    iterators when the registry changes. *)
Lemma abstraction_insert s o ts i k s' o' k' :
  well_locked (Config s o ts) → ts !! i = Some k →
  (pcaps (state s') = pcaps (state s) ∨ o !! pcaps_mutex = Some i) →
  abstraction (Config s' o' (<[i := k']> ts))
  = (state s', <[i := atomically (pcaps (state s')) k']> (abstraction (Config s o ts)).2).
Proof.
  intros Hw Hi Hreg. unfold abstraction. cbn. f_equal. apply list_eq. intros j.
  assert (i < length ts) by (by eapply lookup_lt_Some).
  destruct (decide (j = i)) as [->|Hj].
  - rewrite list_lookup_fmap, !list_lookup_insert_eq; rewrite ?length_fmap; done.
  - rewrite list_lookup_fmap, !list_lookup_insert_ne, list_lookup_fmap by done.
    destruct (ts !! j) as [kj|] eqn:Hkj; [|done]. cbn. f_equal.
    destruct Hreg as [->|Hp]; [done|]. apply atomically_static.
    eapply ok_without; [|apply (Hw j kj Hkj)]. rewrite elem_of_held_by. cbn. congruence.
Qed.

Lemma unregister_run ref w l :
  erase_first ref (pcaps w) = Some l → ptr_guard_apply ref del w = (Val "", with_pcaps l w).
Proof. intros He. unfold ptr_guard_apply. rewrite bind_run. unfold get. by rewrite He. Qed.

(** Every access is one atomic step; the only other steps work towards it. *)
Lemma exec_simulated held a s s' k k' :
  ok (generation s) (pcaps (state s)) held (Do a :: k) → exec a s = Ret (s', k') →
  (s' = s ∧ operations (pcaps (state s)) (Do a) = atomically (pcaps (state s)) k'
   ∧ code_work k' < instr_work (Do a))
  ∨ ∃ op, operations (pcaps (state s)) (Do a) = [op]
          ∧ perform_op op (state s) = (Val (atomically (pcaps (state s')) k'), state s').
Proof.
  intros [Ha _] He. destruct a; cbn in He; simplify_eq/=; try (right; by eexists).
  - destruct Ha as [_ Hs]. destruct (list_find _ _) as [[i r]|]; simplify_eq/=. left. split_and!; [done..|].
    cbn. lia.
  - right. destruct Ha as (_ & _ & -> & Hf). rewrite decide_True in He by done. simplify_eq/=.
    eexists; split; [done|]. cbn [perform_op].
    destruct (find_erases _ _ _ _ Hf) as [_ Hera]. by rewrite bind_run, (unregister_run _ _ _ Hera).
  - right. destruct Ha as (_ & _ & ->). rewrite decide_True in He by done.
    eexists; split; [done|]. destruct (_ !! i) as [pc|] eqn:Hi; simplify_eq/=.
    + by rewrite (drop_S _ _ _ Hi).
    + by rewrite drop_ge by by apply lookup_ge_None.
  - right. eexists; split; [done|]. cbn. unfold mbind, M_bind. cbn. by destruct (reply _ _).
Qed.

Lemma exec_rest held a s s' k k' :
  ok (generation s) (pcaps (state s)) held (Do a :: k) → exec a s = Ret (s', k') →
  atomically (pcaps (state s')) k = atomically (pcaps (state s)) k.
Proof.
  intros [Ha _] He. destruct a; cbn in *; simplify_eq/=; try done.
  - apply atomically_static. naive_solver.
  - destruct (list_find _ _) as [[??]|]; by simplify_eq/=.
  - case_decide; simplify_eq/=. apply atomically_static. naive_solver.
  - case_decide; [|done]. case_match; by simplify_eq/=.
Qed.

Lemma step_simulated l c c' :
  well_locked c → step l c c' →
  atomic_step (abstraction c) (abstraction c')
  ∨ (abstraction c' = abstraction c ∧ lock_work c' < lock_work c).
Proof.
  intros Hw Hstep. destruct Hstep as [s o ts i m k Hi Ho|s o ts i m k Hi Ho|s o ts i a k s' k' Hi He|s o ts i k Hi].
  all: assert ((abstraction (Config s o ts)).2 !! i
               = Some (atomically (pcaps (state s)) (match ts !! i with Some k => k | None => [] end)))
    as Habs by (cbn; by rewrite list_lookup_fmap, Hi).
  all: rewrite Hi in Habs.
  - right. split.
    + erewrite abstraction_insert by eauto. cbn. f_equal. rewrite list_insert_id; done.
    + pose proof (sum_list_insert code_work ts i _ k Hi) as Hs.
      unfold lock_work. cbn [threads]. change (code_work (Acquire m :: k)) with (S (code_work k)) in Hs. lia.
  - right. split.
    + erewrite abstraction_insert by eauto. cbn. f_equal. rewrite list_insert_id; done.
    + pose proof (sum_list_insert code_work ts i _ k Hi) as Hs.
      unfold lock_work. cbn [threads]. change (code_work (Release m :: k)) with (S (code_work k)) in Hs. lia.
  - pose proof (Hw _ _ Hi) as Hok. cbn in Hok.
    pose proof (exec_ok _ _ _ _ _ _ Hok He) as [_ Hreg].
    erewrite abstraction_insert; [|done..|destruct Hreg as [[_ ?]|?%elem_of_held_by]; [by left|by right]].
    destruct (exec_simulated _ _ _ _ _ _ Hok He) as [(-> & Hops & Hwork)|(op & Hops & Hrun)].
    + right. split.
      * rewrite atomically_app, <-Hops. change (operations ?r ?x ++ atomically ?r ?k) with (atomically r (x :: k)).
        rewrite list_insert_id by done. done.
      * pose proof (sum_list_insert code_work ts i _ (k' ++ k) Hi) as Hs.
        unfold lock_work. cbn [threads].
        rewrite code_work_app in Hs.
        change (code_work (Do a :: k)) with (instr_work (Do a) + code_work k) in Hs. lia.
    + left. rewrite atomically_app.
      change (atomically ?r (Do a :: k)) with (operations r (Do a) ++ atomically r k) in Habs.
      rewrite Hops in Habs.
      rewrite (exec_rest _ _ _ _ _ _ Hok He). by econstructor.
  - left. erewrite abstraction_insert by eauto. rewrite atomically_app.
    rewrite (atomically_static _ [] signal_handler_code) by by repeat constructor. by constructor.
Qed.

(** ** The refinement *)
Lemma abstraction_initial w ts :
  Forall program ts → abstraction (initial w ts) = (w, atomically [] <$> ts).
Proof.
  intros Hts. unfold abstraction. cbn. f_equal.
  induction Hts as [|k ts Hk _ IH]; [done|]. rewrite !fmap_cons, IH. f_equal.
  by apply atomically_static, program_static.
Qed.

Lemma programs_well_locked w ts c :
  Forall program ts → rtc any_step (initial w ts) c → well_locked c.
Proof.
  intros Hts Hsteps. by apply (programs_disciplined _ _ _ Hts Hsteps).
Qed.

(** C14: the threads with their locks and iterators refine the atomic machine.
    Whatever they reach, the atomic machine reaches with the same registry,
    reasons, flag and history of system calls; each step is one atomic step or only
    takes locks, releases them or looks for an element, of which there are finitely
    many in a row. *)
Theorem locks_refine_atomic w ts c :
  Forall program ts → rtc any_step (initial w ts) c →
  rtc atomic_step (w, atomically [] <$> ts) (abstraction c)
  ∧ ∀ l c', step l c c' →
    atomic_step (abstraction c) (abstraction c')
    ∨ (abstraction c' = abstraction c ∧ lock_work c' < lock_work c).
Proof.
  intros Hts Hsteps. split.
  - rewrite <-abstraction_initial by done.
    assert (well_locked (initial w ts)) as Hw by by eapply programs_well_locked.
    clear Hts. induction Hsteps as [|c1 c2 c3 [l Hl] _ IH]; [done|].
    specialize (IH (well_locked_step _ _ _ Hw Hl)).
    destruct (step_simulated _ _ _ Hw Hl) as [Ha|[<- _]]; [by eapply rtc_l|done].
  - intros l c' Hl. eapply step_simulated; [|done]. by eapply programs_well_locked.
Qed.

(** ** Running alone *)
Inductive alone : list operation → world → world → Prop :=
  | alone_nil w : alone [] w w
  | alone_cons op ops ops' w w1 w' :
      perform_op op w = (Val ops', w1) → alone (ops' ++ ops) w1 w' → alone (op :: ops) w w'.

Lemma alone_deterministic ops w w1 w2 : alone ops w w1 → alone ops w w2 → w1 = w2.
Proof.
  intros H1. revert w2. induction H1 as [|op ops ops' w w1 w' Hp _ IH]; intros w2; inversion 1; subst; [done|].
  apply IH. congruence.
Qed.

Lemma alone_app ops1 ops2 w w1 w2 : alone ops1 w w1 → alone ops2 w1 w2 → alone (ops1 ++ ops2) w w2.
Proof.
  induction 1 as [|op ops ops' w w1 w' Hp _ IH]; intros H2; [done|].
  cbn. econstructor; [done|]. rewrite (assoc_L (++)). auto.
Qed.

(** A computation which the operations run through and which always returns *)
Lemma alone_iff {A} ops (m : M A) :
  (∀ w, ∃ a w', m w = (Val a, w') ∧ alone ops w w') →
  ∀ w w', alone ops w w' ↔ ∃ a, m w = (Val a, w').
Proof.
  intros Hm w w'. destruct (Hm w) as (a & w1 & Hw1 & H1). split.
  - intros H2. exists a. by rewrite Hw1, (alone_deterministic _ _ _ _ H1 H2).
  - intros [a' Ha']. rewrite Ha' in Hw1. by injection Hw1 as _ ->.
Qed.

Lemma break_loop_alone pc ler w :
  ∃ a w', break_loop pc ler w = (Val a, w')
    ∧ alone [Op_set_reason pc ler; Op_breakloop pc; Op_joinable pc] w w'.
Proof.
  set (w1 := add_event (Event (Pcap_breakloop pc) (reply (trace w) (Pcap_breakloop pc))) (with_reason pc ler w)).
  set (joinable := reply (trace w1) (Loop_thread_joinable pc)).
  set (w2 := add_event (Event (Loop_thread_joinable pc) joinable) w1).
  assert (break_loop pc ler w = (if joinable then call (Pthread_cancel pc) else mret tt) w2) as -> by done.
  assert (∀ w', alone (if joinable then [Op_cancel pc] else []) w2 w' →
    alone [Op_set_reason pc ler; Op_breakloop pc; Op_joinable pc] w w') as Hw'.
  { intros w' Ha. do 3 (econstructor; [done|]). rewrite <-(right_id_L [] (++) (if joinable then _ else _)) in Ha. exact Ha. }
  destruct joinable; eexists _, _; (split; [done|]); apply Hw'; repeat econstructor.
Qed.

Lemma each_alone pcs w :
  ∃ w', mapM_ (λ pc, break_loop pc signal) pcs w = (Val tt, w') ∧ alone [Op_each pcs] w w'.
Proof.
  revert w. induction pcs as [|pc pcs IH]; intros w.
  - exists w. split; [done|]. econstructor; [done|]. constructor.
  - destruct (break_loop_alone pc signal w) as ([] & w1 & Hb & Ha). destruct (IH w1) as (w' & Hm & He).
    exists w'. split; [cbn [mapM_]; by rewrite bind_run, Hb|].
    econstructor; [done|]. exact (alone_app _ _ _ _ _ Ha He).
Qed.

Lemma signal_handler_alone w :
  ∃ a w', signal_handler w = (Val a, w') ∧ alone handler_operations w w'.
Proof.
  destruct (each_alone (pcaps w) (with_signaled true w)) as (w' & Hm & He).
  exists tt, w'. split; [done|]. econstructor; [done|]. by econstructor.
Qed.

Lemma ptr_guard_apply_empty ref a w s w' : ptr_guard_apply ref a w = (Val s, w') → s = "".
Proof.
  unfold ptr_guard_apply. rewrite bind_run. cbn. destruct a; [by intros [= <- _]|].
  destruct (erase_first _ _); [by intros [= <- _]|done].
Qed.

(** Running operations which neither fail nor push others is determined. *)
Lemma alone_once op ops w w1 w' : perform_op op w = (Val [], w1) → alone (op :: ops) w w' ↔ alone ops w1 w'.
Proof.
  intros Hop. split; [|by intros; econstructor].
  inversion 1 as [|? ? ops' ? w2 ? Hp Hk]; subst. rewrite Hop in Hp. by injection Hp as <- <-.
Qed.
Lemma alone_done w w' : alone [] w w' ↔ w' = w.
Proof. split; [by inversion 1|intros ->; constructor]. Qed.

Lemma reason_with_reason pc ler w : reason_of (with_reason pc ler w) pc = ler.
Proof. unfold reason_of. cbn. by rewrite lookup_insert_eq. Qed.

Lemma add_event_inj e e' w w' : add_event e w = add_event e' w' → w = w'.
Proof. destruct w, w'. intros [= [Ht _]%app_inj_2]; [by subst|done]. Qed.

Lemma loop_end_alone w w' pc ret_val :
  alone (atomically [] (loop_end_code pc ret_val)) w w'
  ↔ if decide (ret_val = PCAP_ERROR)
    then let err := reply (trace w') (Pcap_geterr pc) in
         loop_end pc ret_val w
         = (Raised (Exn runtime_error ("error while captching data: " +:+ err)),
            add_event (Event (Pcap_geterr pc) err) w')
    else loop_end pc ret_val w = (Val (reason_of w' pc), w').
Proof.
  unfold loop_end_code, loop_end. destruct (decide (ret_val = 0)%Z) as [->|H0]; [|destruct (decide (ret_val = PCAP_ERROR))].
  - rewrite decide_False by done. cbn.
    rewrite (alone_once _ _ _ (with_reason pc packets_captured w)), (alone_once _ _ _ (with_reason pc packets_captured w)), alone_done by done.
    split; [intros ->; by rewrite reason_with_reason|by intros [= _ <-]].
  - cbn. rewrite (alone_once _ _ _ (with_reason pc error w)), alone_done by done.
    split; [by intros ->|]. intros Heq. symmetry. exact (add_event_inj _ _ _ _ (f_equal snd Heq)).
  - cbn. unfold get_end_reason. rewrite (alone_once _ _ _ w), alone_done by done.
    split; [by intros ->|]. intros Heq. exact (eq_sym (f_equal snd Heq)).
Qed.

(** C19: the atomic operations of each function which locks, run by one thread
    alone, do exactly what the function does: registering and unregistering, breaking a
    loop, the signal handler, reading the reason, and the end of [loop], which throws
    after its operations when the capture has failed. *)
Theorem functions_are_atomic_operations w w' :
  (alone handler_operations w w' ↔ signal_handler w = (Val tt, w'))
  ∧ (∀ pc ler, alone (atomically [] (break_loop_code pc ler)) w w'
       ↔ break_loop pc ler w = (Val tt, w'))
  ∧ (∀ ref a, alone (atomically [] (ptr_guard_code ref a)) w w'
       ↔ ptr_guard_apply ref a w = (Val "", w'))
  ∧ (∀ pc, alone (atomically [] (get_end_reason_code pc)) w w'
       ↔ get_end_reason pc w = (Val (reason_of w pc), w'))
  ∧ (∀ pc ret_val, alone (atomically [] (loop_end_code pc ret_val)) w w'
       ↔ if decide (ret_val = PCAP_ERROR)
         then let err := reply (trace w') (Pcap_geterr pc) in
              loop_end pc ret_val w
              = (Raised (Exn runtime_error ("error while captching data: " +:+ err)),
                 add_event (Event (Pcap_geterr pc) err) w')
         else loop_end pc ret_val w = (Val (reason_of w' pc), w')).
Proof.
  assert (∀ (m : M unit) ops, (∀ w, ∃ a w', m w = (Val a, w') ∧ alone ops w w') →
    alone ops w w' ↔ m w = (Val tt, w')) as Hunit.
  { intros m ops Hm. rewrite (alone_iff _ _ Hm). split; [by intros [[] ?]|by exists tt]. }
  split_and!.
  - apply Hunit, signal_handler_alone.
  - intros pc ler. apply Hunit, break_loop_alone.
  - intros ref a. assert (atomically [] (ptr_guard_code ref a) = [Op_guard ref a]) as -> by by destruct a.
    split.
    + inversion 1 as [|? ? ops' ? w1 ? Hp Hk]; subst. cbn [perform_op] in Hp. rewrite bind_run in Hp.
      destruct (ptr_guard_apply ref a w) as [[s| |] w2] eqn:Hg; [|done..].
      injection Hp as <- <-. cbn in Hk. inversion Hk; subst. 
      by rewrite (ptr_guard_apply_empty _ _ _ _ _ Hg) in *.
    + intros Hg. econstructor; [cbn [perform_op]; by rewrite bind_run, Hg|constructor].
  - intros pc. split.
    + inversion 1 as [|? ? ops' ? w1 ? Hp Hk]; subst. injection Hp as <- <-. by inversion Hk; subst.
    + intros [= <-]. econstructor; [done|constructor].
  - apply loop_end_alone.
Qed.
End atomic.

(** The run of [Locks.two_captures] in the atomic machine *)
Lemma locks_refine_atomic_witness :
  Forall program two_captures
  ∧ ∃ c, rtc (@any_step default_system) (initial world_init two_captures) c
    ∧ rtc (@atomic_step default_system) (world_init, atomically [] <$> two_captures) (abstraction c)
    ∧ (abstraction c).2 = [[]; []; []] ∧ signaled (abstraction c).1 = true.
Proof.
  pose proof two_captures_program as Hp. split; [done|].
  destruct (@run_schedule default_system two_captures_schedule (initial world_init two_captures))
    as [c|] eqn:Hr; [|by vm_compute in Hr].
  pose proof (run_schedule_steps _ _ _ Hr) as Hs. exists c. split; [done|].
  destruct (@locks_refine_atomic default_system world_init two_captures c Hp Hs) as [Ha _].
  split; [exact Ha|]. vm_compute in Hr. injection Hr as <-. done.
Defined.
