(* ===== verification/Deadlock.v ===== *)
(** * Deadlock: when the threads of [Locks] can get stuck

    Locks are taken in one order: [pcaps_mutex] before a [loop_end_reson_mutex],
    and nothing inside the latter.  As long as signals arrive outside the critical
    sections some thread can always go on, and all threads finish.  A signal
    inside the critical section of the registry blocks its thread for ever, and
    with it everyone who needs the registry. *)
From S2P Require Import Prelude ContainerUtils IntUtils NetText System Pcap FileDescriptor SpawnProcess ScopeGuard Locks.

(** ** The order of locks *)
Definition no_reason (held : gset mutex) : Prop := ∀ pc, loop_end_reson_mutex pc ∉ held.

Fixpoint ordered (held : gset mutex) (k : code) : Prop :=
  match k with
  | [] => held = ∅
  | Acquire m :: k => (m ∉ held) ∧ no_reason held ∧ ordered ({[m]} ∪ held) k
  | Release m :: k => m ∈ held ∧ ordered (held ∖ {[m]}) k
  | Do a :: k =>
      match a with Begin | Next _ _ => no_reason held | _ => True end ∧ ordered held k
  end.

Section deadlock.
Context `{System}.

(** Signals arrive only at threads which hold no lock. *)
Definition polite (c c' : config) : Prop :=
  ∃ i arrival, step (i, arrival) c c' ∧ (arrival = true → held_by (owners c) i = ∅).
(** The threads go on without signals. *)
Definition quiet_step (c c' : config) : Prop := ∃ i, step (i, false) c c'.

Definition all_ordered (c : config) : Prop :=
  ∀ i k, threads c !! i = Some k → ordered (held_by (owners c) i) k.

Lemma ordered_break_loop held pc ler k :
  no_reason held → ordered held k → ordered held (break_loop_code pc ler ++ k).
Proof.
  intros Hr Hk. cbn. split_and!; [done|done|done|set_solver|done|done|].
  replace (({[loop_end_reson_mutex pc]} ∪ held) ∖ {[loop_end_reson_mutex pc]}) with held; [done|].
  specialize (Hr pc). set_solver.
Qed.

Lemma exec_ordered a s s' k k' held :
  ordered held (Do a :: k) → exec a s = Ret (s', k') → ordered held (k' ++ k).
Proof.
  intros [Ha Hk] He. destruct a; cbn in He; simplify_eq/=; try done.
  - destruct (list_find _ _) as [[??]|]; by simplify_eq/=.
  - by case_decide; simplify_eq/=.
  - case_decide; [|done]. destruct (_ !! _) as [pc|]; simplify_eq/=; [|done].
    by apply (ordered_break_loop _ pc signal (Do (Next (generation s') (S i)) :: k)).
  - by case_match.
Qed.

Lemma all_ordered_insert s o ts i k s' o' k' :
  all_ordered (Config s o ts) → ts !! i = Some k → ordered (held_by o' i) k' →
  (∀ j, j ≠ i → held_by o' j = held_by o j) →
  all_ordered (Config s' o' (<[i := k']> ts)).
Proof.
  intros Ha Hi Hk' Ho j kj. cbn. intros [(<- & <- & _)|[? Hj]]%list_lookup_insert_Some; [done|].
  rewrite Ho by done. by apply (Ha j kj).
Qed.

Lemma all_ordered_step c c' : all_ordered c → polite c c' → all_ordered c'.
Proof.
  intros Ha (i & arr & Hstep & Hpol). remember (i, arr) as l eqn:Hl.
  destruct Hstep as [s o ts i' m k Hi Ho|s o ts i' m k Hi Ho|s o ts i' a k s' k' Hi He|s o ts i' k Hi];
    injection Hl as -> <-; pose proof (Ha i _ Hi) as Hk; cbn in Hk;
    (eapply all_ordered_insert; [exact Ha|exact Hi| |]); try done.
  - rewrite held_by_acquire by done. by destruct Hk as (_ & _ & ?).
  - intros. by apply held_by_acquire_ne.
  - rewrite held_by_release. by destruct Hk as [_ ?].
  - intros. by eapply held_by_release_ne.
  - by eapply exec_ordered.
  - cbn in Hpol. rewrite (Hpol eq_refl) in *. cbn.
    split_and!; [done|set_solver|unfold no_reason; set_solver..|set_solver|].
    by replace (({[pcaps_mutex]} ∪ ∅) ∖ {[pcaps_mutex]} : gset mutex) with (∅ : gset mutex) by set_solver.
Qed.

Lemma all_ordered_steps c c' : all_ordered c → rtc polite c c' → all_ordered c'.
Proof. intros Hc. induction 1; eauto using all_ordered_step. Qed.
Lemma polite_any c c' : polite c c' → any_step c c'.
Proof. intros (i & arr & ? & _). by eexists. Qed.
Lemma quiet_polite c c' : quiet_step c c' → polite c c'.
Proof. intros [i ?]. by exists i, false. Qed.

(** *** Somebody can go on *)
Lemma head_goes_on c i x k :
  faultless c → threads c !! i = Some (x :: k) →
  (∃ c', quiet_step c c') ∨ ∃ m j, x = Acquire m ∧ owners c !! m = Some j.
Proof.
  intros Hf Hi. specialize (Hf _ _ Hi). destruct c as [s o ts]. cbn in *.
  destruct x as [m|m|a].
  - destruct (o !! m) as [j|] eqn:Hm; [right; by eauto|left]. eexists _, i. by apply step_acquire.
  - left. eexists _, i. by apply step_release.
  - left. destruct Hf as [[s' k'] He]. eexists _, i. by eapply step_do.
Qed.

(** Who holds a lock still has something to do. *)
Lemma holder_goes_on c m i :
  all_ordered c → owners c !! m = Some i → i < length (threads c) →
  ∃ x k, threads c !! i = Some (x :: k)
    ∧ (∀ m', x = Acquire m' → m = pcaps_mutex ∧ ∃ pc, m' = loop_end_reson_mutex pc).
Proof.
  intros Ho Hm [k Hk]%lookup_lt_is_Some. pose proof (Ho _ _ Hk) as Hok.
  apply elem_of_held_by in Hm. destruct k as [|x k]; [cbn in Hok; set_solver|].
  exists x, k. split; [done|]. intros m' ->. destruct Hok as (Hm' & Hr & _).
  assert (m = pcaps_mutex) as -> by by (destruct m as [|pc]; [|destruct (Hr pc)]).
  split; [done|]. destruct m' as [|pc]; [by destruct Hm'|by exists pc].
Qed.

Lemma somebody_goes_on c :
  faultless c → all_ordered c → (∀ m i, owners c !! m = Some i → i < length (threads c)) →
  ¬ Forall (λ k, k = []) (threads c) → ∃ c', quiet_step c c'.
Proof.
  intros Hf Ho Hl Hn. apply not_Forall_Exists, Exists_exists in Hn as (k & [i Hi]%list_elem_of_lookup & Hk);
    [|intros [|??]; [by left|by right]].
  destruct k as [|x k]; [by destruct Hk|]. clear Hk.
  assert (∀ pc j, owners c !! loop_end_reson_mutex pc = Some j → ∃ c', quiet_step c c') as Hreason.
  { intros pc j Hpc. destruct (holder_goes_on c _ j Ho Hpc) as (y & kj & Hj & Hy); [by eapply Hl|].
    destruct (head_goes_on _ _ _ _ Hf Hj) as [?|(m' & l & Hm' & _)]; [done|]. by destruct (Hy m' Hm'). }
  destruct (head_goes_on _ _ _ _ Hf Hi) as [?|([|pc] & j & _ & Hm)]; [done| |by eapply Hreason].
  destruct (holder_goes_on c _ j Ho Hm) as (y & kj & Hj & Hy); [by eapply Hl|].
  destruct (head_goes_on _ _ _ _ Hf Hj) as [?|(m & l & Hm' & Hl')]; [done|].
  destruct (Hy m Hm') as [_ [pc ->]]. by eapply Hreason.
Qed.

Definition owners_exist (c : config) : Prop :=
  ∀ m i, owners c !! m = Some i → i < length (threads c).
Lemma owners_exist_step l c c' : owners_exist c → step l c c' → owners_exist c'.
Proof.
  intros Hc Hstep m j. destruct Hstep as [s o ts i m' k Hi Ho|s o ts i m' k Hi Ho|s o ts i a k s' k' Hi He|s o ts i k Hi];
    cbn; rewrite length_insert.
  - intros [[<- <-]|[_ ?]]%lookup_insert_Some; [by eapply lookup_lt_Some|by eapply Hc].
  - intros [_ ?]%lookup_delete_Some. by eapply Hc.
  - apply Hc.
  - apply Hc.
Qed.

(** *** How much there is to do

    [bound] is at least the number of captures which can be registered at once. *)
Definition instr_weight (bound : nat) (x : instr) : nat :=
  match x with
  | Do Begin => 2 + 7 * bound
  | Do (Next _ i) => 1 + 7 * (bound - i)
  | Do (Find _) | Do (Joinable _) => 2
  | _ => 1
  end.
Definition weight (bound : nat) (k : code) : nat := sum_list (instr_weight bound <$> k).
Definition registrations (k : code) : nat :=
  sum_list ((λ x, match x with Do (Emplace_back _) => 1 | _ => 0 end) <$> k).
Definition total_weight (bound : nat) (c : config) : nat := sum_list (weight bound <$> threads c).
Definition total_registrations (c : config) : nat :=
  length (pcaps (state (sh c))) + sum_list (registrations <$> threads c).

Lemma weight_app bound k1 k2 : weight bound (k1 ++ k2) = weight bound k1 + weight bound k2.
Proof. unfold weight. induction k1 as [|x k1 IH]; cbn in *; lia. Qed.
Lemma registrations_app k1 k2 : registrations (k1 ++ k2) = registrations k1 + registrations k2.
Proof. unfold registrations. induction k1 as [|x k1 IH]; cbn in *; lia. Qed.

Lemma exec_weight bound a s s' k' :
  length (pcaps (state s)) ≤ bound → exec a s = Ret (s', k') →
  weight bound k' < instr_weight bound (Do a)
  ∧ length (pcaps (state s')) + registrations k' ≤ length (pcaps (state s)) + registrations [Do a].
Proof.
  intros Hb He. destruct a; cbn in He; simplify_eq/=; try (split; cbn; lia).
  - rewrite length_app. split; cbn; lia.
  - destruct (list_find _ _) as [[??]|]; simplify_eq/=. split; cbn; lia.
  - case_decide; simplify_eq/=. pose proof (sublist_length _ _ (sublist_delete (pcaps (state s)) i)). split; cbn; lia.
  - case_decide; [|done]. destruct (_ !! i) as [pc|] eqn:Hi; simplify_eq/=; [|split; cbn; lia].
    apply lookup_lt_Some in Hi. split; cbn; lia.
  - case_match; split; cbn; lia.
Qed.

Lemma quiet_step_weight bound c c' :
  total_registrations c ≤ bound → quiet_step c c' →
  total_weight bound c' < total_weight bound c ∧ total_registrations c' ≤ bound.
Proof.
  intros Hb [i Hstep]. remember (i, false) as l eqn:Hl. unfold total_weight, total_registrations in *.
  destruct Hstep as [s o ts i' m k Hi Ho|s o ts i' m k Hi Ho|s o ts i' a k s' k' Hi He|s o ts i' k Hi];
    injection Hl as ->; [..|done]; cbn [threads sh] in *.
  1,2: pose proof (sum_list_insert (weight bound) ts i _ k Hi) as Hw;
       pose proof (sum_list_insert registrations ts i _ k Hi) as Hr; cbn in Hw, Hr;
       fold (weight bound k) (registrations k) in *; lia.
  pose proof (sum_list_insert (weight bound) ts i _ (k' ++ k) Hi) as Hw.
  pose proof (sum_list_insert registrations ts i _ (k' ++ k) Hi) as Hr.
  destruct (exec_weight bound a s s' k') as [??]; [lia|done|].
  rewrite (weight_app bound [Do a] k : weight bound (Do a :: k) = _), weight_app in Hw.
  rewrite (registrations_app [Do a] k : registrations (Do a :: k) = _), registrations_app in Hr.
  change (weight bound [Do a]) with (instr_weight bound (Do a) + 0) in Hw. lia.
Qed.

Lemma quiet_terminates c : sn quiet_step c.
Proof.
  pose (bound := total_registrations c). assert (total_registrations c ≤ bound) as Hb by done.
  clearbody bound. remember (total_weight bound c) as n eqn:Hn. revert c Hb Hn.
  induction (lt_wf n) as [n _ IH]; intros c Hb ->. constructor. intros c' Hc'.
  destruct (quiet_step_weight _ _ _ Hb Hc') as [? ?]. by eapply IH.
Qed.

(** *** The programs keep the order *)
Lemma ordered_app held k1 k2 : ordered held k1 → ordered ∅ k2 → ordered held (k1 ++ k2).
Proof.
  intros H1 H2. revert held H1. induction k1 as [|[m|m|a] k1 IH]; intros held; cbn [ordered app].
  - by intros ->.
  - intros (?&?&?). auto.
  - intros [??]. auto.
  - intros [??]. auto.
Qed.
Lemma ordered_locked m body :
  Forall (λ x, match x with Do Begin | Do (Next _ _) => False | Do _ => True | _ => False end) body →
  ordered ∅ (locked m body).
Proof.
  intros Hb. split_and!; [set_solver|unfold no_reason; set_solver|]. rewrite union_empty_r_L.
  induction Hb as [|[m'|m'|a] body Ha _ IH]; [split; set_solver|done..|]. split; [|done]. by destruct a.
Qed.
Lemma program_ordered k : program k → ordered ∅ k.
Proof.
  induction 1 as [|pc ler k _ IH|pc k _ IH|pc r k _ IH|pc k k' _ IH _ IH']; [done|..];
    repeat apply ordered_app; try done; try (apply ordered_locked; by repeat constructor).
  - apply ordered_locked. repeat case_decide; by repeat constructor.
Qed.

Lemma polite_invariants w ts c :
  Forall program ts → rtc polite (initial w ts) c → faultless c ∧ all_ordered c ∧ owners_exist c.
Proof.
  intros Hts Hsteps. split_and!.
  - eapply threads_faultless; [done|]. eapply rtc_subrel, Hsteps. apply polite_any.
  - eapply all_ordered_steps; [|done]. intros i k Hi. cbn. rewrite held_by_empty.
    apply program_ordered. by eapply Forall_lookup_1.
  - assert (owners_exist (initial w ts)) as Ho by done. clear Hts.
    induction Hsteps as [|c1 c2 c3 (i & arr & Hl & _) _ IH]; [done|]. apply IH. by eapply owners_exist_step.
Qed.

(** C17: as long as signals arrive only at threads outside their critical sections
    the threads cannot get stuck: some unfinished thread can always go on, and
    when no more signals come all of them finish after finitely many steps,
    whoever moves when. *)
Theorem threads_finish w ts c :
  Forall program ts → rtc polite (initial w ts) c →
  (¬ Forall (λ k, k = []) (threads c) → ∃ c', quiet_step c c')
  ∧ sn quiet_step c
  ∧ ∀ c', rtc quiet_step c c' → nf quiet_step c' → Forall (λ k, k = []) (threads c').
Proof.
  intros Hts Hsteps. split_and!.
  - destruct (polite_invariants _ _ _ Hts Hsteps) as (? & ? & ?). by apply somebody_goes_on.
  - apply quiet_terminates.
  - intros c' Hc' Hnf. assert (rtc polite (initial w ts) c') as Hp.
    { etrans; [done|]. eapply rtc_subrel, Hc'. apply quiet_polite. }
    destruct (polite_invariants _ _ _ Hts Hp) as (? & ? & ?).
    destruct (decide (Forall (λ k, k = []) (threads c'))) as [|Hn]; [done|].
    destruct Hnf. by apply somebody_goes_on.
Qed.

(** ** A signal at the wrong moment *)
Definition blocked (i : nat) (c : config) : Prop :=
  owners c !! pcaps_mutex = Some i
  ∧ ∃ k, threads c !! i = Some (Acquire pcaps_mutex :: k)
         ∨ threads c !! i = Some (Do Set_signaled :: Acquire pcaps_mutex :: k).

Lemma blocked_step i l c c' : blocked i c → step l c c' → blocked i c'.
Proof.
  intros [Ho (k & Hk)] Hstep.
  destruct Hstep as [s o ts j m kj Hj Hm|s o ts j m kj Hj Hm|s o ts j a kj s' k' Hj He|s o ts j kj Hj];
    unfold blocked; cbn [owners threads sh] in *; (destruct (decide (j = i)) as [->|Hji];
      [|split; [|exists k; by rewrite list_lookup_insert_ne]]).
  - exfalso. destruct Hk; simplify_eq.
  - rewrite lookup_insert_ne; [done|]. congruence.
  - exfalso. destruct Hk; simplify_eq.
  - rewrite lookup_delete_ne; [done|]. congruence.
  - split; [done|]. exists k. left. destruct Hk; simplify_eq. cbn in He. simplify_eq.
    apply list_lookup_insert_eq. by eapply lookup_lt_Some.
  - done.
  - split; [done|]. cbn. eexists. right. apply list_lookup_insert_eq. by eapply lookup_lt_Some.
  - done.
Qed.

(** C18: a signal which arrives at a thread while it holds [pcaps_mutex] -- while it
    registers or unregisters its capture, or in the signal handler for the other
    signal -- ends in a deadlock: whatever happens afterwards that thread never
    finishes, the mutex is never released, and no thread which needs the registry
    can go on. *)
Theorem signal_deadlocks i c :
  owners c !! pcaps_mutex = Some i → i < length (threads c) →
  ∃ c1, step (i, true) c c1
  ∧ ∀ c', rtc any_step c1 c' →
    owners c' !! pcaps_mutex = Some i
    ∧ threads c' !! i ≠ Some []
    ∧ ∀ j k, threads c' !! j = Some (Acquire pcaps_mutex :: k) → ∀ c'', ¬ step (j, false) c' c''.
Proof.
  destruct c as [s o ts]. cbn. intros Ho [k Hi]%lookup_lt_is_Some.
  eexists. split; [by apply step_signal|]. intros c' Hsteps.
  assert (blocked i c') as [Ho' (k' & Hk')].
  { assert (blocked i (Config s o (<[i := signal_handler_code ++ k]> ts))) as Hb.
    { split; [done|]. eexists. right. apply list_lookup_insert_eq. by eapply lookup_lt_Some. }
    clear Hi Ho. induction Hsteps as [|c1 c2 c3 [l Hl] _ IH]; [done|]. apply IH. by eapply blocked_step. }
  split_and!; [done|destruct Hk'; congruence|].
  intros j kj Hj c'' Hstep%perform_step. cbn in Hstep. rewrite Hj in Hstep. cbn in Hstep. by rewrite Ho' in Hstep.
Qed.
End deadlock.

(** A signal before the first step *)
Lemma threads_finish_witness :
  let c := Config (Shared world_init 0) ∅ (<[2 := signal_handler_code ++ break_loop_code 1 duplicate_address]> two_captures) in
  Forall program two_captures
  ∧ rtc (@polite default_system) (initial world_init two_captures) c
  ∧ (∃ c', @quiet_step default_system c c') ∧ sn (@quiet_step default_system) c.
Proof.
  intros c. pose proof two_captures_program as Hp. split; [done|].
  assert (rtc (@polite default_system) (initial world_init two_captures) c) as Hc.
  { apply rtc_once. exists 2, true. split; [by apply step_signal|done]. }
  split; [done|].
  destruct (@threads_finish default_system world_init two_captures c Hp Hc) as (Hgo & Hsn & _).
  split; [apply Hgo|exact Hsn]. intros Hall. inversion Hall as [|k ts Hk _]. by vm_compute in Hk.
Defined.

(** Thread 0 registers its capture when the signal arrives; thread 1 wants to. *)
Lemma signal_deadlocks_witness :
  ∃ c c1, rtc (@any_step default_system)
            (initial world_init [ptr_guard_code 0 add; ptr_guard_code 1 add]) c
  ∧ owners c !! pcaps_mutex = Some 0 ∧ 0 < length (threads c)
  ∧ @step default_system (0, true) c c1
  ∧ ∀ c', rtc (@any_step default_system) c1 c' →
    owners c' !! pcaps_mutex = Some 0
    ∧ threads c' !! 0 ≠ Some []
    ∧ ∀ j k, threads c' !! j = Some (Acquire pcaps_mutex :: k) →
      ∀ c'', ¬ @step default_system (j, false) c' c''.
Proof.
  destruct (@run_schedule default_system [(0, false)]
    (initial world_init [ptr_guard_code 0 add; ptr_guard_code 1 add])) as [c|] eqn:Hr; [|by vm_compute in Hr].
  pose proof (run_schedule_steps _ _ _ Hr) as Hs.
  assert (owners c !! pcaps_mutex = Some 0 ∧ 0 < length (threads c)) as [Ho Hl].
  { vm_compute in Hr. injection Hr as <-. split; [done|]. cbn. lia. }
  destruct (@signal_deadlocks default_system 0 c Ho Hl) as (c1 & Hc1 & Hd).
  exists c, c1. split_and!; try done.
Defined.
