(* ===== verification/Socket.v ===== *)
(** * Sockets: [socket.h], [socket.cpp]

    A socket object is its descriptor; [with_socket] is the scope of a local
    [Socket], which closes it on every way out.  [get_ifreq] copies an interface
    name into sixteen bytes without looking at its length. *)
From S2P Require Import Prelude ContainerUtils IntUtils NetText System.
Local Open Scope Z_scope.

Definition IFNAMSIZ : nat := 16.
Definition SIOCGIFINDEX : Z := 0x8933.
Definition SIOCGIFHWADDR : Z := 0x8927.

(** [std::copy] of the name into the zeroed array [ifr_name] *)
Definition get_ifreq (iface : string) : outcome ifreq :=
  if decide (IFNAMSIZ < String.length iface)%nat then Undef write_past_end
  else Ret {| ifr_name := chars iface ++ replicate (IFNAMSIZ - String.length iface) "000"%char;
              ifr_ifindex := 0; ifr_hwaddr_sa_data := replicate 14 0 |}.

Section socket.
Context `{System}.

(** The constructor and the destructor, which only logs failures *)
Definition socket_new (domain type protocol : Z) : M Z :=
  sock ← call (Socket_open domain type protocol);
  if decide (sock < 0) then raise_errno "sock() failed with errno: " else mret sock.
Definition socket_destroy (sock : Z) : M unit :=
  _ ← call (Close sock); mret tt.

Definition set_sock_opt (sock level optname optval : Z) : M unit :=
  ok ← call (Setsockopt sock level optname optval);
  if (ok : bool) then mret tt else raise_errno "setsockopt() failed: ".

Definition send_to (sock : Z) (buf : list Z) (flags : Z) (addr : sockaddr) : M Z :=
  sent_bytes ← call (Sendto sock buf flags addr);
  match sent_bytes with
  | None => raise_errno "sendto() failed: "
  | Some n => mret n
  end.

Definition socket_ioctl (sock req_number : Z) (ifr : ifreq) : M ifreq :=
  r ← call (Ioctl sock req_number ifr);
  match r with
  | None => raise_errno ("ioctl() failed with request " +:+ to_string (IntType 64 false) req_number +:+ ": ")
  | Some ifr => mret ifr
  end.

Definition get_ifindex (sock : Z) (iface : string) : M Z :=
  ifr ← lift (get_ifreq iface);
  ifr ← socket_ioctl sock SIOCGIFINDEX ifr;
  mret (ifr_ifindex ifr).

Definition get_hwaddr (sock : Z) (iface : string) : M ether_addr :=
  ifr ← lift (get_ifreq iface);
  ifr ← socket_ioctl sock SIOCGIFHWADDR ifr;
  lift (copy_n 6 (ifr_hwaddr_sa_data ifr)).

(** A block with a local [Socket] *)
Definition with_socket {A} (domain type protocol : Z) (body : Z → M A) : M A :=
  sock ← socket_new domain type protocol;
  finally (body sock) (socket_destroy sock).
End socket.

(** ** Lemmas *)
Lemma get_ifreq_name iface : (String.length iface ≤ IFNAMSIZ)%nat →
  ∃ ifr, get_ifreq iface = Ret ifr ∧ length (ifr_name ifr) = IFNAMSIZ
    ∧ take (String.length iface) (ifr_name ifr) = chars iface.
Proof.
  intros Hl. unfold get_ifreq. rewrite decide_False by lia. eexists. split; [done|]. cbn [ifr_name].
  assert (length (chars iface) = String.length iface) as Hlen 
    by (clear; induction iface as [|c s IH]; cbn; [done|by rewrite IH]).
  rewrite length_app, length_replicate, Hlen. split; [lia|]. by rewrite <-Hlen, take_app_length.
Qed.

Lemma get_ifreq_overflow iface : (IFNAMSIZ < String.length iface)%nat →
  get_ifreq iface = Undef write_past_end.
Proof. intros. unfold get_ifreq. by rewrite decide_True. Qed.

Section frames.
Context `{System}.
Definition sockets_only (k : kind) : bool := match k with Sockets | Files => true | _ => false end.
Lemma with_socket_emits {A} d t p (body : Z → M A) :
  (∀ s, emits (of_kind sockets_only) (body s)) → emits (of_kind sockets_only) (with_socket d t p body).
Proof. intros Hb. unfold with_socket, socket_new, socket_destroy. steps_tac. Qed.
Lemma with_socket_registry {A} d t p (body : Z → M A) :
  (∀ s, steps same_registry (body s)) → steps same_registry (with_socket d t p body).
Proof. intros Hb. unfold with_socket, socket_new, socket_destroy. steps_tac. Qed.
End frames.

(** However a block with a socket ends (short of ending the process), the socket
    was not opened at all or the last thing done is to close it. *)
Section closing.
Context `{System}.

Definition closed_at_end (domain type protocol : Z) (w w' : world) : Prop :=
  (∃ r, r < 0 ∧ trace w' = trace w ++ [Event (Socket_open domain type protocol) r])
  ∨ ∃ sock h b, 0 ≤ sock ∧ trace w' =
      trace w ++ [Event (Socket_open domain type protocol) sock] ++ h ++ [Event (Close sock) b].

Lemma with_socket_closed {A} d t p (body : Z → M A) w :
  (∀ s, emits (λ _, True) (body s)) →
  wp (with_socket d t p body) (λ _, closed_at_end d t p w) (λ _, closed_at_end d t p w) w.
Proof.
  intros Hb. unfold with_socket, socket_new. do 2 wp_step. wp_step.
  case_decide as Hs; wp_run.
  { left. by eexists. }
  assert (∀ w', extends (λ _, True) (add_event (Event (Socket_open d t p) r) w) w' →
    wp (socket_destroy r) (λ _, closed_at_end d t p w) (λ _ _, False) w') as Hd.
  { intros w' (h & Ht & _). unfold socket_destroy. wp_run. right.
    eexists r, h, _. split; [lia|]. cbn in Ht |- *. rewrite Ht, <-!(assoc_L (++)). reflexivity. }
  apply (wp_of_steps _ _ _ _ _ (Hb r)); intros x w' Hw'; (eapply wp_mono; [by apply Hd|done..]).
Qed.
End closing.
