(* ===== verification/Wol.v ===== *)
(** * Wake on LAN: [wol.h], [wol.cpp]

    The magic packet, the two ways of sending it, and the names of the methods.
    Shown: the bytes which go onto the wire, that the socket is closed on every
    way out, and that an interface name longer than [IFNAMSIZ] makes the Ethernet
    method write past [ifr_name]. *)
From S2P Require Import Prelude ContainerUtils IntUtils NetText NetTextRef System Ethernet Socket.
Local Open Scope Z_scope.

Inductive Wol_method := wol_method_ethernet | wol_method_udp.
#[export] Instance Wol_method_eq_dec : EqDecision Wol_method.
Proof. solve_decision. Defined.

Definition AF_PACKET : Z := 17.
Definition SOCK_DGRAM : Z := 2.
Definition SOCK_RAW : Z := 3.
Definition SOL_SOCKET : Z := 1.
Definition SO_BROADCAST : Z := 6.
Definition ETH_ALEN : Z := 6.

Definition mac_repititions : nat := 16.

(** The loop appends the address [mac_repititions] times. *)
Definition create_wol_payload (mac : ether_addr) : list Z :=
  let binary_mac := to_vector mac in
  let mb := 0xff in
  let magic_bytes := [mb; mb; mb; mb; mb; mb] in
  Nat.iter mac_repititions (λ magic_bytes, magic_bytes ++ binary_mac) magic_bytes.

Definition parse_wol_method (readable_wol_method : string) : outcome Wol_method :=
  if decide (readable_wol_method = "ethernet") then Ret wol_method_ethernet
  else if decide (readable_wol_method = "udp") then Ret wol_method_udp
  else throw invalid_argument ("invalid wol method: " +:+ readable_wol_method).

(** [operator<<] *)
Definition print_wol_method (m : Wol_method) : string :=
  match m with wol_method_ethernet => "ethernet" | wol_method_udp => "udp" end.

Section wol.
Context `{System} `{Host}.

Definition wol_udp (mac : ether_addr) : M unit :=
  let binary_data := create_wol_payload mac in
  with_socket AF_INET SOCK_DGRAM 0 (λ sock,
    _ ← set_sock_opt sock SOL_SOCKET SO_BROADCAST 1;
    let broadcast_port9 := Sockaddr_in AF_INET (ntohs 9) (replicate 4 255) in
    _ ← send_to sock binary_data 0 broadcast_port9;
    mret tt).

Definition wol_ethernet (iface : string) (mac : ether_addr) : M unit :=
  with_socket AF_PACKET SOCK_RAW 0 (λ sock,
    _ ← set_sock_opt sock SOL_SOCKET SO_BROADCAST 1;
    ifindex ← get_ifindex sock iface;
    hw_addr ← get_hwaddr sock iface;
    let broadcast_ll := Sockaddr_ll AF_PACKET 0 ifindex 0 0 ETH_ALEN (hw_addr ++ [0; 0]) in
    let binary_data := vec_append (create_ethernet_header mac hw_addr 0x0842) (create_wol_payload mac) in
    _ ← send_to sock binary_data 0 broadcast_ll;
    mret tt).
End wol.

(** ** The payload *)
Lemma wol_iter n (mac acc : list Z) :
  Nat.iter n (λ m, m ++ mac) acc = acc ++ mjoin (replicate n mac).
Proof.
  revert acc. induction n as [|n IH]; intros acc; [by rewrite app_nil_r|].
  rewrite Nat.iter_succ_r, IH. by rewrite <-(assoc_L (++)).
Qed.

Lemma create_wol_payload_spec mac :
  create_wol_payload mac = replicate 6 0xff ++ mjoin (replicate 16 mac).
Proof. apply wol_iter. Qed.

Lemma create_wol_payload_length mac : mac_wf mac → length (create_wol_payload mac) = 102%nat.
Proof.
  intros [Hl _]. rewrite create_wol_payload_spec.
  destruct mac as [|? [|? [|? [|? [|? [|? [|]]]]]]]; done.
Qed.

(** ** What is sent *)
Section sending.
Context `{System} `{Host}.

Lemma wol_udp_emits mac : emits (of_kind sockets_only) (wol_udp mac).
Proof. apply with_socket_emits. intros s. unfold set_sock_opt, send_to. steps_tac. Qed.
Lemma wol_ethernet_emits iface mac : emits (of_kind sockets_only) (wol_ethernet iface mac).
Proof.
  apply with_socket_emits. intros s.
  unfold set_sock_opt, send_to, get_ifindex, get_hwaddr, socket_ioctl. steps_tac.
Qed.
Lemma wol_udp_registry mac : steps same_registry (wol_udp mac).
Proof. apply with_socket_registry. intros s. unfold set_sock_opt, send_to. steps_tac. Qed.
Lemma wol_ethernet_registry iface mac : steps same_registry (wol_ethernet iface mac).
Proof.
  apply with_socket_registry. intros s.
  unfold set_sock_opt, send_to, get_ifindex, get_hwaddr, socket_ioctl. steps_tac.
Qed.

(** The frame [wol_ethernet] sends *)
Definition wol_frame (hw_addr mac : ether_addr) : list Z :=
  mac ++ hw_addr ++ [0x08; 0x42] ++ replicate 6 0xff ++ mjoin (replicate 16 mac).

Lemma wol_frame_eq hw_addr mac :
  vec_append (create_ethernet_header mac hw_addr 0x0842) (create_wol_payload mac)
  = wol_frame hw_addr mac.
Proof.
  rewrite create_wol_payload_spec. unfold vec_append, create_ethernet_header, vec_append, to_vector, wol_frame.
  rewrite <-!(assoc_L (++)). reflexivity.
Qed.
End sending.

(** ** Properties *)

(** Parsing and printing a wake on lan method are inverse to each other, and
    every other string is refused. *)
Lemma wol_method_roundtrip m s :
  parse_wol_method (print_wol_method m) = Ret m
  ∧ (parse_wol_method s = Ret m ↔ s = print_wol_method m)
  ∧ (s ≠ "ethernet" → s ≠ "udp" → throws invalid_argument (parse_wol_method s)).
Proof.
  unfold parse_wol_method, print_wol_method. split_and!.
  - by destruct m.
  - repeat case_decide; destruct m; naive_solver.
  - intros. repeat case_decide; try done. apply throws_throw.
Qed.

(** One frame went out through a socket which is closed again. *)
Definition wol_sent (iface : string) (mac : ether_addr) (w w' : world) : Prop :=
  ∃ sock ifr ifr1 ifr2 hw n b,
    get_ifreq iface = Ret ifr ∧ length hw = 6%nat ∧ hw = take 6 (ifr_hwaddr_sa_data ifr2) ∧
    trace w' = trace w ++
      [Event (Socket_open AF_PACKET SOCK_RAW 0) sock;
       Event (Setsockopt sock SOL_SOCKET SO_BROADCAST 1) true;
       Event (Ioctl sock SIOCGIFINDEX ifr) (Some ifr1);
       Event (Ioctl sock SIOCGIFHWADDR ifr) (Some ifr2);
       Event (Sendto sock (wol_frame hw mac) 0
                (Sockaddr_ll AF_PACKET 0 (ifr_ifindex ifr1) 0 0 ETH_ALEN (hw ++ [0; 0]))) (Some n);
       Event (Close sock) b].

Lemma wol_ethernet_spec `{System} iface mac w :
  wp (wol_ethernet iface mac) (λ _ w', wol_sent iface mac w w')
    (λ _ w', closed_at_end AF_PACKET SOCK_RAW 0 w w') w.
Proof.
  assert (wp (wol_ethernet iface mac) (λ _ w', wol_sent iface mac w w') (λ _ _, True) w) as Hval.
  { unfold wol_ethernet, with_socket, socket_new, set_sock_opt, get_ifindex, get_hwaddr,
      socket_ioctl, send_to, socket_destroy.
    wp_run; try done. simplify_eq.
    match goal with
    | H1 : get_ifreq iface = Ret ?a, H2 : get_ifreq iface = Ret ?a' |- _ =>
        assert (a' = a) as -> by congruence; clear H2
    end.
    match goal with H : copy_n 6 _ = Ret ?hw |- _ => rename H into Hc end.
    unfold copy_n in Hc. case_decide; [|done]. injection Hc as <-.
    lazymatch goal with
    | |- context [add_event (Event (Close ?r) ?b) (add_event (Event _ (Some ?n))
           (add_event (Event (Ioctl _ _ ?f) (Some ?i2)) (add_event (Event _ (Some ?i1)) _)))] =>
        exists r, f, i1, i2, (take 6 (ifr_hwaddr_sa_data i2)), n, b
    end.
    split_and!; [done|rewrite length_take; lia|done|].
    cbn [trace add_event]. rewrite wol_frame_eq, <-!(assoc_L (++)). reflexivity. }
  assert (wp (wol_ethernet iface mac) (λ _ w', closed_at_end AF_PACKET SOCK_RAW 0 w w')
    (λ _ w', closed_at_end AF_PACKET SOCK_RAW 0 w w') w) as Hexn.
  { apply with_socket_closed. intros s.
    unfold set_sock_opt, get_ifindex, get_hwaddr, socket_ioctl, send_to. steps_tac. }
  unfold wp in *. by destruct (wol_ethernet iface mac w) as [[|?|?] ?].
Qed.

(** When [wol_ethernet] returns it has sent exactly one frame, to the index of
    the interface and from its own address: the Ethernet header with type 0x0842,
    six bytes 0xff and sixteen times the address to wake.  When it throws, no
    socket stays open. *)
Theorem wol_ethernet_sends `{System} iface mac w :
  match wol_ethernet iface mac w with
  | (Val _, w') => wol_sent iface mac w w'
  | (Raised _, w') => closed_at_end AF_PACKET SOCK_RAW 0 w w'
  | (Ended _, _) => True
  end.
Proof. exact (wol_ethernet_spec iface mac w). Qed.

(** An interface name of more than sixteen characters makes [wol_ethernet]
    write past the end of [ifr_name] as soon as the socket is set up; up to
    sixteen the copy stays inside. *)
Lemma wol_ethernet_overflow `{System} iface mac w w1 sock :
  (IFNAMSIZ < String.length iface)%nat →
  w1 = add_event (Event (Socket_open AF_PACKET SOCK_RAW 0) sock) w →
  reply (trace w) (Socket_open AF_PACKET SOCK_RAW 0) = sock → 0 ≤ sock →
  reply (trace w1) (Setsockopt sock SOL_SOCKET SO_BROADCAST 1) = true →
  (wol_ethernet iface mac w).1 = Ended (Crash write_past_end).
Proof.
  intros Hl -> Hsock Hpos Hopt.
  unfold wol_ethernet, with_socket, socket_new, finally, set_sock_opt, get_ifindex, mbind, M_bind, call.
  rewrite Hsock, decide_False by lia. cbn. cbn in Hopt. rewrite Hopt. cbn.
  by rewrite get_ifreq_overflow.
Qed.

(** ** Witnesses *)
Definition wol_system : System :=
  {| reply := λ A h c,
       match c in syscall A return A with
       | Ioctl _ _ ifr => Some {| ifr_name := ifr_name ifr; ifr_ifindex := 3;
           ifr_hwaddr_sa_data := [0xe8; 0xde; 0x27; 0x55; 0xa1; 0x71; 0; 0; 0; 0; 0; 0; 0; 0] |}
       | c => default_reply c
       end;
     strerror_errno := λ _, "error" |}.

Lemma wol_ethernet_overflow_witness :
  (IFNAMSIZ < String.length "enx00155d5b8d2c.100")%nat ∧
  (@wol_ethernet wol_system "enx00155d5b8d2c.100" [1; 2; 3; 4; 5; 6] world_init).1
  = Ended (Crash write_past_end).
Proof.
  assert (IFNAMSIZ < String.length "enx00155d5b8d2c.100")%nat as Hl by (unfold IFNAMSIZ; cbn; lia).
  split; [done|].
  by apply (@wol_ethernet_overflow wol_system "enx00155d5b8d2c.100" [1; 2; 3; 4; 5; 6] world_init _ 12 Hl eq_refl).
Defined.

(** The frame is sent, and [parse_ethernet] reads it back. *)
Example wol_ethernet_example :
  let w' := (@wol_ethernet wol_system "eth0" [1; 2; 3; 4; 5; 6] world_init).2 in
  (length (trace w') = 6)%nat
  ∧ (ll_source <$> @parse_ethernet ref_net Little
       (wol_frame [0xe8; 0xde; 0x27; 0x55; 0xa1; 0x71] [1; 2; 3; 4; 5; 6]))
    = Ret [0xe8; 0xde; 0x27; 0x55; 0xa1; 0x71].
Proof. by vm_compute. Qed.
