(* ===== verification/WolWatcher.v ===== *)
(** * Watching for wake on lan packets: [wol_watcher.h], [wol_watcher.cpp]

    [Wol_watcher] listens on a capture of its own for a magic packet for the
    sleeping machine, sent by somebody else, and then breaks the capture which
    waits for a connection.  Shown: [is_magic_packet] recognises exactly the data
    which contain the payload [create_wol_payload] makes, and the listener passes
    on exactly the reason [duplicate_address]. *)
From S2P Require Import Prelude ContainerUtils IntUtils NetText System Ethernet Pcap SpawnProcess ScopeGuard Wol.
Local Open Scope Z_scope.

(** [std::string::find] of a string; bytes and characters correspond one to one. *)
Fixpoint is_prefix (needle hay : list Z) : bool :=
  match needle, hay with
  | [], _ => true
  | x :: needle, y :: hay => bool_decide (x = y) && is_prefix needle hay
  | _, [] => false
  end.
Fixpoint find_bytes (needle hay : list Z) : option nat :=
  if is_prefix needle hay then Some O
  else match hay with
       | [] => None
       | _ :: hay => S <$> find_bytes needle hay
       end.

Definition is_magic_packet (data : list Z) (mac : ether_addr) : bool :=
  let packet := create_wol_payload mac in
  bool_decide (is_Some (find_bytes packet data)).

Section wol_watcher.
Context `{System}.

Definition break_on_magic_packet (header : option pcap_pkthdr) (packet : option (list Z))
    (mac : ether_addr) (waiting_for_wol : nat) : M unit :=
  match header, packet with
  | Some header, Some packet =>
      data ← lift (copy_n (len header) packet);
      if is_magic_packet data mac then break_loop waiting_for_wol duplicate_address else mret tt
  | _, _ => mret tt
  end.

Definition wol_watcher_thread_main (mac : ether_addr) (waiting_for_wol waiting_for_syn : nat) : M unit :=
  r ← loop waiting_for_wol 0
        (λ (_ : unit) header packet, break_on_magic_packet header packet mac waiting_for_wol) tt;
  let ler := r.1 in
  if decide (duplicate_address = ler) then break_loop waiting_for_syn duplicate_address else mret tt.

(** The thread runs [wol_watcher_thread_main]. *)
Definition wol_listener (mac : ether_addr) (waiting_for_wol waiting_for_syn : nat) : M unit :=
  noexcept (wol_watcher_thread_main mac waiting_for_wol waiting_for_syn).

(** [waiting_for_wol] is the capture, which also names the object. *)
Record Wol_watcher := { wol_mac : ether_addr; waiting_for_syn : nat; waiting_for_wol : nat }.

Definition wol_filter : string :=
  "udp port 0 or udp port 7 or udp port 9 or ether proto 0x0842 ".

Definition wol_watcher_new (iface : string) (macc : ether_addr) (waiting_for_synn : nat) : M Wol_watcher :=
  pc ← pcap_open iface;
  _ ← on_raise (set_filter pc wol_filter) (pcap_destroy pc);
  mret {| wol_mac := macc; waiting_for_syn := waiting_for_synn; waiting_for_wol := pc |}.

Definition wol_watcher_stop (s : Wol_watcher) : M unit :=
  _ ← break_loop (waiting_for_wol s) unset;
  thread_join_if_joinable (waiting_for_wol s).

Definition wol_watcher_apply (s : Wol_watcher) (action : Action) : M string :=
  _ ← (if decide (action = add) then thread_assign (waiting_for_wol s) else mret tt);
  _ ← (if decide (action = del) then wol_watcher_stop s else mret tt);
  mret "".

(** [stop], then the members are destroyed. *)
Definition wol_watcher_destroy (s : Wol_watcher) : M unit :=
  _ ← wol_watcher_stop s; pcap_destroy (waiting_for_wol s).

(** [make_copyable<Wol_watcher>(iface, mac, pc)] *)
Definition make_wol_watcher (iface : string) (mac : ether_addr) (pc : nat) : M Aquire_release :=
  s ← wol_watcher_new iface mac pc;
  mret {| apply := wol_watcher_apply s; dispose := wol_watcher_destroy s |}.
End wol_watcher.

(** ** Searching *)
Lemma is_prefix_spec needle hay : is_prefix needle hay = true ↔ ∃ rest, hay = needle ++ rest.
Proof.
  revert hay. induction needle as [|x needle IH]; intros hay; cbn.
  { split; [by exists hay|done]. }
  destruct hay as [|y hay]; [by split; [|intros [? ?]]|].
  rewrite andb_true_iff, bool_decide_eq_true, IH. split.
  - intros [-> [rest ->]]. by exists rest.
  - intros [rest [= -> ->]]. split; [done|by exists rest].
Qed.

Lemma find_bytes_spec needle hay :
  is_Some (find_bytes needle hay) ↔ ∃ before after, hay = before ++ needle ++ after.
Proof.
  induction hay as [|y hay IH]; cbn.
  - destruct (is_prefix needle []) eqn:E; (split; [|]).
    + intros _. apply is_prefix_spec in E as [rest E]. by exists [], rest.
    + intros _. by eexists.
    + by intros [? ?].
    + intros (b & a & Hn). destruct b, needle; done.
  - destruct (is_prefix needle (y :: hay)) eqn:E; (split; [|]).
    + intros _. apply is_prefix_spec in E as [rest E]. by exists [], rest.
    + intros _. by eexists.
    + rewrite fmap_is_Some, IH. intros (b & a & ->). by exists (y :: b), a.
    + intros (b & a & Hn). rewrite fmap_is_Some, IH. destruct b as [|y' b].
      * cbn in Hn. assert (is_prefix needle (y :: hay) = true) as E'; [|congruence].
        apply is_prefix_spec. by exists a.
      * injection Hn as <- ->. by exists b, a.
Qed.

Lemma is_magic_packet_spec data mac :
  is_magic_packet data mac = true ↔
  ∃ before after, data = before ++ create_wol_payload mac ++ after.
Proof. unfold is_magic_packet. by rewrite bool_decide_eq_true, find_bytes_spec. Qed.

(** ** What the listener passes on *)

(** A packet which was captured completely *)
Definition complete (h : happening) : Prop :=
  match h with
  | Packet (Some header) (Some packet) => (len header ≤ length packet)%nat
  | _ => True
  end.

(** The reason of the listener's capture after one happening *)
Definition listen_step (mac : ether_addr) (pcs : list nat) (id : nat)
    (r : Loop_end_reason) (h : happening) : Loop_end_reason :=
  match h with
  | Packet (Some header) (Some packet) =>
      if is_magic_packet (take (len header) packet) mac then duplicate_address else r
  | Packet _ _ => r
  | Interruption i => default r (requested pcs id i)
  end.

(** A signal breaks the other capture as well. *)
Definition after_signals (pcs : list nat) (id : nat) (ints : list interruption)
    (r : Loop_end_reason) : Loop_end_reason :=
  if bool_decide (By_signal ∈ ints) && bool_decide (id ∈ pcs) then signal else r.

Section listener.
Context `{System}.
Context (mac : ether_addr) (wol syn : nat) (Hne : wol ≠ syn).

Abbreviation pass_on := (λ (_ : unit) header packet, break_on_magic_packet header packet mac wol).

Lemma break_on_magic_packet_run header packet w :
  complete (Packet header packet) →
  ∃ w', break_on_magic_packet header packet mac wol w = (Val tt, w')
    ∧ pcaps w' = pcaps w ∧ reason_of w' syn = reason_of w syn
    ∧ reason_of w' wol = listen_step mac (pcaps w) wol (reason_of w wol) (Packet header packet).
Proof using Hne.
  intros Hc. unfold break_on_magic_packet, listen_step.
  destruct header as [header|], packet as [packet|]; [|by exists w..].
  rewrite copy_n_Ret by done. unfold mbind, M_bind, lift.
  destruct (is_magic_packet _ mac); [|by exists w].
  destruct (break_loop_run wol duplicate_address w) as (w' & -> & Hr & Hp & _).
  exists w'. unfold reason_of. rewrite Hr, lookup_insert_eq, lookup_insert_ne by done. done.
Qed.

Lemma interrupted_other_run i w :
  ∃ w', interrupted wol i w = (Val tt, w') ∧ pcaps w' = pcaps w
    ∧ reason_of w' wol = listen_step mac (pcaps w) wol (reason_of w wol) (Interruption i)
    ∧ reason_of w' syn = after_signals (pcaps w) syn [i] (reason_of w syn).
Proof using Hne.
  unfold after_signals. destruct i as [|ler]; cbn [interrupted listen_step requested].
  - destruct (signal_handler_run w) as (w' & -> & _ & Hr & Hp & _). exists w'.
    rewrite !Hr. split_and!; [done..|by case_bool_decide|by case_bool_decide].
  - destruct (break_loop_run wol ler w) as (w' & -> & Hr & Hp & _). exists w'.
    unfold reason_of. rewrite Hr, lookup_insert_eq, lookup_insert_ne by done. done.
Qed.

Lemma listen_during hs w :
  Forall complete hs →
  ∃ w', during wol pass_on tt hs w = (Val tt, w') ∧ pcaps w' = pcaps w
    ∧ reason_of w' wol = foldl (listen_step mac (pcaps w) wol) (reason_of w wol) hs
    ∧ reason_of w' syn = after_signals (pcaps w) syn
        (interruptions {| happenings := hs; loop_ret := None |}) (reason_of w syn).
Proof using Hne.
  intros Hall. revert w.
  induction Hall as [|h hs Hh _ IH]; intros w; [by exists w|].
  destruct h as [header packet|i]; cbn [during foldl]; unfold mbind, M_bind.
  - unfold noexcept. destruct (break_on_magic_packet_run header packet w Hh) as (w1 & -> & Hp & Hs & Hr).
    destruct (IH w1) as (w2 & -> & Hp2 & Hr2 & Hs2). exists w2.
    split_and!; [done|congruence|by rewrite Hr2, Hp, Hr|by rewrite Hs2, Hp, Hs].
  - destruct (interrupted_other_run i w) as (w1 & -> & Hp & Hr & Hs).
    destruct (IH w1) as (w2 & -> & Hp2 & Hr2 & Hs2). exists w2.
    split_and!; [done|congruence|by rewrite Hr2, Hp, Hr|]. rewrite Hs2, Hp, Hs.
    unfold after_signals, interruptions. cbn [happenings omap list_omap].
    set (ints := omap _ hs).
    rewrite (bool_decide_ext (By_signal ∈ i :: ints) (By_signal ∈ [i] ∨ By_signal ∈ ints))
      by by rewrite <-elem_of_app.
    rewrite bool_decide_or. by repeat case_bool_decide.
Qed.

(** The loop of the listener *)
Lemma listen_loop_run w :
  let run := reply (trace w) (Pcap_loop wol 0) in
  Forall complete (happenings run) → default 1 (loop_ret run) ≠ PCAP_ERROR →
  ∃ w', loop wol 0 pass_on tt w =
    (Val (if decide (default 1 (loop_ret run) = 0) then packets_captured
          else foldl (listen_step mac (pcaps w) wol) (reason_of w wol) (happenings run), tt), w')
    ∧ reason_of w' syn = after_signals (pcaps w) syn (interruptions run) (reason_of w syn).
Proof using Hne.
  intros run Hall Hret. unfold loop. unfold mbind at 1, M_bind, call at 1. fold run.
  destruct (listen_during (happenings run) (add_event (Event (Pcap_loop wol 0) run) w) Hall)
    as (w1 & Hd & Hp & Hr & Hs).
  change (pcaps (add_event _ w)) with (pcaps w) in *.
  change (reason_of (add_event _ w)) with (reason_of w) in *.
  unfold mbind at 1, M_bind. rewrite Hd. unfold loop_end. case_decide.
  - eexists. split; [done|]. unfold reason_of in *. cbn. by rewrite lookup_insert_ne.
  - rewrite decide_False by done. exists w1. split; [|exact Hs].
    unfold get_end_reason, mbind, M_bind, get, mret, M_ret. by rewrite Hr.
Qed.

(** The whole listener *)
Lemma wol_listener_run w :
  let run := reply (trace w) (Pcap_loop wol 0) in
  let pass := bool_decide (default 1 (loop_ret run) ≠ 0 ∧
    foldl (listen_step mac (pcaps w) wol) (reason_of w wol) (happenings run) = duplicate_address) in
  Forall complete (happenings run) → default 1 (loop_ret run) ≠ PCAP_ERROR →
  ∃ w', wol_listener mac wol syn w = (Val tt, w')
    ∧ reason_of w' syn = if pass then duplicate_address
        else after_signals (pcaps w) syn (interruptions run) (reason_of w syn).
Proof using Hne.
  intros run pass Hall Hret. destruct (listen_loop_run w Hall Hret) as (w1 & Hl & Hs).
  fold run in Hl, Hs. unfold wol_listener, noexcept, wol_watcher_thread_main, mbind, M_bind.
  rewrite Hl. subst pass. cbn [fst].
  destruct (decide (default 1 (loop_ret run) = 0)) as [E|E].
  { rewrite bool_decide_false by tauto. rewrite decide_False by done. by exists w1. }
  cbv beta iota zeta.
  case_decide as Hd.
  - rewrite bool_decide_true by by rewrite <-Hd.
    destruct (break_loop_run syn duplicate_address w1) as (w2 & -> & Hr2 & _). exists w2.
    unfold reason_of. by rewrite Hr2, lookup_insert_eq.
  - rewrite bool_decide_false by (intros [_ Heq]; by apply Hd). by exists w1.
Qed.
End listener.

(** ** Properties *)

(** C38: [is_magic_packet] finds exactly the data which contain the payload for the
    address, anywhere; in particular what [wol_ethernet] and [wol_udp] send, with
    whatever headers in front and padding behind. *)
Theorem is_magic_packet_correct data mac hw_addr padding :
  (is_magic_packet data mac = true ↔
   ∃ before after, data = before ++ create_wol_payload mac ++ after)
  ∧ is_magic_packet (wol_frame hw_addr mac ++ padding) mac = true.
Proof.
  split; [apply is_magic_packet_spec|]. apply is_magic_packet_spec.
  exists (mac ++ hw_addr ++ [0x08; 0x42]), padding. rewrite create_wol_payload_spec.
  unfold wol_frame. by rewrite <-!(assoc_L (++)).
Qed.

(** C39: the listener breaks the capture which waits for a connection, with the
    reason [duplicate_address], exactly when the last thing to break its own
    capture was a magic packet for the machine (or somebody else with that
    reason); stopping it or a signal passes nothing on. *)
Theorem wol_listener_passes_on `{System} mac wol syn w :
  let run := reply (trace w) (Pcap_loop wol 0) in
  let pass := bool_decide (default 1 (loop_ret run) ≠ 0 ∧
    foldl (listen_step mac (pcaps w) wol) (reason_of w wol) (happenings run) = duplicate_address) in
  wol ≠ syn → Forall complete (happenings run) → default 1 (loop_ret run) ≠ PCAP_ERROR →
  ∃ w', wol_listener mac wol syn w = (Val tt, w')
    ∧ reason_of w' syn = if pass then duplicate_address
        else after_signals (pcaps w) syn (interruptions run) (reason_of w syn).
Proof. intros run pass Hne. by apply wol_listener_run. Qed.

(** ** Witnesses *)
Definition listening_system (hs : list happening) : System :=
  {| reply := λ A h c,
       match c in syscall A return A with
       | Pcap_loop _ _ => {| happenings := hs; loop_ret := Some PCAP_ERROR_BREAK |}
       | c => default_reply c
       end;
     strerror_errno := λ _, "error" |}.

Definition someone_wakes (mac : ether_addr) : happening :=
  let data := wol_frame [2; 0; 0; 0; 0; 1] mac in
  Packet (Some {| ts_sec := 0; ts_usec := 0; caplen := length data; len := length data |}) (Some data).

Lemma wol_listener_passes_on_witness :
  let mac := [0xe8; 0xde; 0x27; 0x55; 0xa1; 0x71] in
  ∃ w', @wol_listener (listening_system [someone_wakes mac]) mac 1 0 world_init = (Val tt, w')
        ∧ reason_of w' 0 = duplicate_address.
Proof.
  intros mac.
  destruct (@wol_listener_passes_on (listening_system [someone_wakes mac]) mac 1 0 world_init)
    as (w' & Hl & Hr).
  - done.
  - repeat constructor.
  - done.
  - exists w'. split; [exact Hl|]. rewrite Hr. by vm_compute.
Defined.
