(* ===== verification/Session.v ===== *)
(** * The threads of a capture

    While [wait_and_listen] waits it has several threads: [Pcap_wrapper::loop] runs
    [pcap_loop] on a thread of its own, [Wol_watcher] has a listener which runs a
    [loop] itself, and each [Duplicate_address_watcher] has a thread; all of them,
    and the signal handler on any thread, call [break_loop] on captures which are
    local variables of [wait_and_listen].  Here is a machine in which these threads
    run step by step, for any number of hosts at the same time: the functions as
    sequences of instructions, what each instruction does to the captures, the
    [std::thread] members and the registry, and what can go wrong.  [Discipline],
    [Lifetimes], [Settling], [Breaking] and [Stopping] are about it. *)
From S2P Require Import Prelude ContainerUtils IntUtils NetText System Pcap WolWatcher.

(** ** Threads and captures *)

(** The captures of [wait_and_listen] and of its [Wol_watcher], for each host *)
Inductive capture := Syn (h : nat) | Wol (h : nat).
#[export] Instance capture_eq_dec : EqDecision capture.
Proof. solve_decision. Defined.
#[export] Instance capture_countable : Countable capture.
Proof.
  refine (inj_countable' (λ c, match c with Syn h => inl h | Wol h => inr h end)
    (λ x, match x with inl h => Syn h | inr h => Wol h end) _).
  by intros [].
Defined.
Definition host_of (c : capture) : nat := match c with Syn h | Wol h => h end.

(** A thread, and the [std::thread] member it belongs to: [thread_main] of a host,
    [wol_listener], the [watcher] of the [i]-th address, [loop_thread] *)
Inductive thread := Main (h : nat) | Listener (h : nat) | Watcher (h i : nat) | Loop_of (c : capture).
#[export] Instance thread_eq_dec : EqDecision thread.
Proof. solve_decision. Defined.
#[export] Instance thread_countable : Countable thread.
Proof.
  refine (inj_countable'
    (λ t, match t with Main h => inl h | Listener h => inr (inl h)
                     | Watcher h i => inr (inr (inl (h, i))) | Loop_of c => inr (inr (inr c)) end)
    (λ x, match x with inl h => Main h | inr (inl h) => Listener h
                     | inr (inr (inl (h, i))) => Watcher h i | inr (inr (inr c)) => Loop_of c end) _).
  by intros [].
Defined.

(** ** Instructions *)
Inductive instr :=
  (* the constructor and the destructor of a [Pcap_wrapper] *)
  | Construct (c : capture)
  | Destroy (c : capture)
  (* a [std::thread]: started, moved into its member, asked, joined, and the
     member destroyed or overwritten with an empty one *)
  | Start (t : thread)
  | Assign (t : thread)
  | Join_if_joinable (t : thread)
  | Wait (t : thread)
  | Clear (t : thread)
  | Drop (t : thread)
  (* [break_loop] *)
  | Set_reason (c : capture) (ler : Loop_end_reason)
  | Breakloop (c : capture)
  | Joinable (c : capture)
  | Cancel (c : capture)
  (* [pcap_loop] as it looks at the flag of [pcap_breakloop], the wait for a packet
     in it, its return, and the end of [loop] *)
  | Pcap_loop (c : capture) (count : nat)
  | Capturing (c : capture) (count : nat)
  | Return (c : capture) (ret_val : Z)
  | End_loop (c : capture)
  (* [pcaps] and its mutex *)
  | Lock
  | Unlock
  | Register (c : capture)
  | Unregister (c : capture)
  | Each_registered
  | Each (cs : list capture)
  (* the flag of a [Duplicate_address_watcher] and [is_ip_occupied] *)
  | Store (h i : nat) (b : bool)
  | Load (h i : nat)
  | Is_ip_occupied (h i : nat)
  (* the commands of the guard of a watcher for an IPv6 address *)
  | Block_solicitation (h i : nat)
  | Unblock_solicitation (h i : nat).
Abbreviation code := (list instr).

(** ** The functions *)

(** [Pcap_wrapper::break_loop] *)
Definition break_loop_steps (c : capture) (ler : Loop_end_reason) : code :=
  [Set_reason c ler; Breakloop c; Joinable c].

(** [Pcap_wrapper::loop] *)
Definition loop_steps (c : capture) : code :=
  [Start (Loop_of c); Assign (Loop_of c); Wait (Loop_of c); Clear (Loop_of c); End_loop c].

(** [signal_handler]; the flag it sets is not looked at here. *)
Definition handler_steps : code := [Lock; Each_registered; Unlock].

(** The family of the [i]-th address of each host *)
Class Families := is_ipv6 : nat → nat → bool.

(** What each thread runs: [pcap_loop] with the [count] of its caller,
    [wol_watcher_thread_main] (what it does with the result of [loop] is in
    [after_loop]), [daw_thread_main_ipv6] and [daw_thread_main_non_root] *)
Definition thread_body `{Families} (t : thread) : code :=
  match t with
  | Loop_of (Syn h) => [Pcap_loop (Syn h) 1]
  | Loop_of (Wol h) => [Pcap_loop (Wol h) 0]
  | Listener h => loop_steps (Wol h)
  | Watcher h i => if is_ipv6 h i then [Block_solicitation h i; Load h i; Unblock_solicitation h i] else [Load h i]
  | Main h => []
  end.
Definition after_loop (c : capture) (ler : Loop_end_reason) : code :=
  match c with
  | Wol h => if decide (duplicate_address = ler) then break_loop_steps (Syn h) duplicate_address else []
  | Syn _ => []
  end.

(** [Wol_watcher::stop] and [Duplicate_address_watcher::stop_watcher] *)
Definition wol_stop_steps (h : nat) : code :=
  break_loop_steps (Wol h) unset ++ [Join_if_joinable (Listener h)].
Definition stop_watcher_steps (h i : nat) : code :=
  [Store h i false; Join_if_joinable (Watcher h i); Drop (Watcher h i)].

(** The guards of [wait_and_listen]: what constructing and what destroying one does.
    The functor is asked to stop when the guard is destroyed and once more when it
    is destroyed itself. *)
Inductive guard := Guard_wol | Guard_registered | Guard_address (i : nat).
Definition guard_take (h : nat) (g : guard) : code :=
  match g with
  | Guard_wol => [Construct (Wol h); Start (Listener h); Assign (Listener h)]
  | Guard_registered => [Lock; Register (Syn h); Unlock]
  | Guard_address i => [Store h i false; Store h i true; Start (Watcher h i); Assign (Watcher h i)]
  end.
Definition guard_release (h : nat) (g : guard) : code :=
  match g with
  | Guard_wol => wol_stop_steps h ++ wol_stop_steps h ++ [Drop (Listener h); Destroy (Wol h)]
  | Guard_registered => [Lock; Unregister (Syn h); Unlock]
  | Guard_address i => stop_watcher_steps h i ++ stop_watcher_steps h i ++ [Drop (Watcher h i)]
  end.
Definition session_guards (addresses : nat) : list guard :=
  [Guard_wol; Guard_registered] ++ (Guard_address <$> seq 0 addresses).

(** How a call of [wait_and_listen] goes: the guards up to the [m]-th are constructed
    and the next one throws, or [loop] is reached or not, and returns or throws. *)
Inductive way := Guard_throws (m : nat) | Filter_throws | Loops.
Definition taken (addresses : nat) (how : way) : list guard :=
  match how with Guard_throws m => take m (session_guards addresses) | _ => session_guards addresses end.
(** A [Wol_watcher] whose filter is refused has opened its capture. *)
Definition throwing (h : nat) (how : way) : code :=
  match how with Guard_throws 0 => [Construct (Wol h); Destroy (Wol h)] | _ => [] end.
Definition looping (h : nat) (how : way) : code :=
  match how with Loops => loop_steps (Syn h) | _ => [] end.

(** [wait_and_listen] *)
Definition session (h addresses : nat) (how : way) : code :=
  [Construct (Syn h)] ++ (taken addresses how ≫= guard_take h) ++ throwing h how
  ++ looping h how ++ (taken addresses how ≫= guard_release h) ++ [Destroy (Syn h)].
(** [thread_main] of a host: one session after the other *)
Definition host_code (h : nat) (sessions : list (nat * way)) : code :=
  sessions ≫= λ s, session h s.1 s.2.

(** ** The machine *)

(** What there is of a [Pcap_wrapper], the flag [pcap_breakloop] sets, and the
    variable [ret_val] of the call of [loop] which uses it *)
Record wrapper := Wrapper { loop_end_reason : Loop_end_reason; break_flag : bool; ret_val : Z }.
Definition new_wrapper : wrapper := Wrapper unset false 1.

Record state := State {
  wrappers : gmap capture wrapper;
  registry : list capture;
  lock_owner : option thread;
  (** the threads which have been started and not joined, with what is left of them *)
  running : gmap thread code;
  (** the members which are joinable *)
  members : gset thread;
  cancelled : gset thread;
  watching : gset (nat * nat)
}.

Definition with_wrapper (c : capture) (p : wrapper) (s : state) : state :=
  State (<[c := p]> (wrappers s)) (registry s) (lock_owner s) (running s) (members s) (cancelled s) (watching s).
Definition without_wrapper (c : capture) (s : state) : state :=
  State (delete c (wrappers s)) (registry s) (lock_owner s) (running s) (members s) (cancelled s) (watching s).
Definition with_registry (l : list capture) (s : state) : state :=
  State (wrappers s) l (lock_owner s) (running s) (members s) (cancelled s) (watching s).
Definition with_lock (o : option thread) (s : state) : state :=
  State (wrappers s) (registry s) o (running s) (members s) (cancelled s) (watching s).
Definition with_running (r : gmap thread code) (s : state) : state :=
  State (wrappers s) (registry s) (lock_owner s) r (members s) (cancelled s) (watching s).
Definition with_members (m : gset thread) (s : state) : state :=
  State (wrappers s) (registry s) (lock_owner s) (running s) m (cancelled s) (watching s).
Definition with_cancelled (ts : gset thread) (s : state) : state :=
  State (wrappers s) (registry s) (lock_owner s) (running s) (members s) ts (watching s).
Definition with_watching (ws : gset (nat * nat)) (s : state) : state :=
  State (wrappers s) (registry s) (lock_owner s) (running s) (members s) (cancelled s) ws.

(** Thread [t] goes on with [k]. *)
Definition continue (t : thread) (k : code) (s : state) : state := with_running (<[t := k]> (running s)) s.

(** What can go wrong: a capture or member is used which is not there, [std::terminate]
    is called for a joinable thread, a thread is cancelled which has been joined, the
    registry is not locked or lacks an entry, an exception leaves a thread *)
Inductive fault := Dangling | Joinable_destroyed | Cancel_of_joined | Bad_registry | Uncaught_exception.

(** The state and what the thread does before it goes on *)
Inductive result := Next (s : state) (k : code) | Blocked | Faulty (f : fault).

Definition access (s : state) (c : capture) (f : wrapper → result) : result :=
  match wrappers s !! c with Some p => f p | None => Faulty Dangling end.
(** The [std::thread] member of [t] belongs to an object which must be there. *)
Definition access_member (s : state) (t : thread) (r : result) : result :=
  match t with Loop_of c => access s c (λ _, r) | _ => r end.

(** [loop] has its result under the lock of [loop_end_reason]; an exception of the
    listener's [loop] leaves the thread. *)
Definition end_loop (s : state) (c : capture) (p : wrapper) : result :=
  let done ler := with_wrapper c (Wrapper ler (break_flag p) (ret_val p)) s in
  if decide (ret_val p = 0%Z) then Next (done packets_captured) (after_loop c packets_captured)
  else if decide (ret_val p = PCAP_ERROR)
  then match c with Syn _ => Next (done error) [] | Wol _ => Faulty Uncaught_exception end
  else Next s (after_loop c (loop_end_reason p)).

(** One instruction of thread [t].  [pcap_loop] returns when it finds the flag of
    [pcap_breakloop] set, and uses it up; a thread which waits for a packet in it is
    not woken by the flag.  It ends there when it has been cancelled: nothing comes after
    [Capturing] in the code of a thread. *)
Definition exec `{Families} (t : thread) (x : instr) (s : state) : result :=
  match x with
  | Construct c => Next (with_wrapper c new_wrapper s) []
  | Destroy c =>
      access s c (λ _, if decide (Loop_of c ∈ members s) then Faulty Joinable_destroyed
                       else Next (without_wrapper c s) [])
  | Start t' =>
      match running s !! t' with
      | Some _ => Faulty Joinable_destroyed
      | None =>
          let started s := Next (with_cancelled (cancelled s ∖ {[t']}) (continue t' (thread_body t') s)) [] in
          match t' with
          | Loop_of c => access s c (λ p, started (with_wrapper c (Wrapper (loop_end_reason p) (break_flag p) 1) s))
          | _ => started s
          end
      end
  | Assign t' =>
      access_member s t' (if decide (t' ∈ members s) then Faulty Joinable_destroyed
                          else Next (with_members ({[t']} ∪ members s) s) [])
  | Join_if_joinable t' => Next s (if decide (t' ∈ members s) then [Wait t'; Clear t'] else [])
  | Wait t' =>
      match running s !! t' with
      | Some [] => Next (with_running (delete t' (running s)) s) []
      | Some _ => Blocked
      | None => Faulty Dangling
      end
  | Clear t' => access_member s t' (Next (with_members (members s ∖ {[t']}) s) [])
  | Drop t' => if decide (t' ∈ members s) then Faulty Joinable_destroyed else Next s []
  | Set_reason c ler => access s c (λ p, Next (with_wrapper c (Wrapper ler (break_flag p) (ret_val p)) s) [])
  | Breakloop c => access s c (λ p, Next (with_wrapper c (Wrapper (loop_end_reason p) true (ret_val p)) s) [])
  | Joinable c => access s c (λ _, Next s (if decide (Loop_of c ∈ members s) then [Cancel c] else []))
  | Cancel c =>
      access s c (λ _, match running s !! Loop_of c with
                       | Some _ => Next (with_cancelled ({[Loop_of c]} ∪ cancelled s) s) []
                       | None => Faulty Cancel_of_joined
                       end)
  | Pcap_loop c n =>
      access s c (λ p, if break_flag p
                       then Next (with_wrapper c (Wrapper (loop_end_reason p) false PCAP_ERROR_BREAK) s) []
                       else Next s [Capturing c n])
  | Capturing c _ => access s c (λ _, if decide (t ∈ cancelled s) then Next s [] else Blocked)
  | Return c r => access s c (λ p, Next (with_wrapper c (Wrapper (loop_end_reason p) (break_flag p) r) s) [])
  | End_loop c => access s c (end_loop s c)
  | Lock => match lock_owner s with None => Next (with_lock (Some t) s) [] | Some _ => Blocked end
  | Unlock => if decide (lock_owner s = Some t) then Next (with_lock None s) [] else Faulty Bad_registry
  | Register c =>
      if decide (lock_owner s = Some t) then Next (with_registry (registry s ++ [c]) s) [] else Faulty Bad_registry
  | Unregister c =>
      if decide (lock_owner s = Some t ∧ c ∈ registry s)
      then match list_find (c =.) (registry s) with
           | Some (i, _) => Next (with_registry (delete i (registry s)) s) []
           | None => Faulty Bad_registry
           end
      else Faulty Bad_registry
  | Each_registered =>
      if decide (lock_owner s = Some t) then Next s [Each (registry s)] else Faulty Bad_registry
  | Each [] => Next s []
  | Each (c :: cs) => Next s (break_loop_steps c signal ++ [Each cs])
  | Store h i b =>
      Next (with_watching (if b : bool then {[(h, i)]} ∪ watching s else watching s ∖ {[(h, i)]}) s) []
  | Load h i => Next s (if decide ((h, i) ∈ watching s) then [Is_ip_occupied h i] else [])
  | Is_ip_occupied _ _ | Block_solicitation _ _ | Unblock_solicitation _ _ => Blocked
  end.

(** What comes from outside: a packet or an error for a thread which waits in
    [pcap_loop], or a look at the flag again (a timeout, or the wait was interrupted);
    an answer of [is_ip_occupied] (with the pause which follows it) or its exception; the
    end of a command of the guard of an IPv6 address, which succeeds or not; a signal *)
Inductive happening := Packet (data : list Z) | Capture_error | Woken
  | Answer (occupied : option bool) | Commanded (ok : bool) | Signal.
#[export] Instance happening_eq_dec : EqDecision happening.
Proof. solve_decision. Defined.

Section machine.
Context `{Families} (mac_of : nat → list Z).

(** The callback of each capture; [Catch_incoming_connection] shares nothing. *)
Definition callback (c : capture) (data : list Z) : code :=
  match c with
  | Wol h => if is_magic_packet data (mac_of h) then break_loop_steps (Wol h) duplicate_address else []
  | Syn _ => []
  end.

(** Where the guard of an IPv6 address cannot be constructed, [daw_thread_main_ipv6]
    stops the host; where it cannot be destroyed, its destructor throws. *)
Definition happen (e : happening) (k : code) (s : state) : option (result * code) :=
  match e, k with
  | Packet data, Capturing c n :: k =>
      Some (access s c (λ _, Next s (callback c data ++ (if decide (n = 1) then [Return c 0] else [Pcap_loop c (n - 1)]))), k)
  | Capture_error, Capturing c _ :: k => Some (access s c (λ _, Next s [Return c PCAP_ERROR]), k)
  | Woken, Capturing c n :: k => Some (Next s [Pcap_loop c n], k)
  | Answer (Some true), Is_ip_occupied h i :: k =>
      Some (Next s (Store h i false :: break_loop_steps (Syn h) duplicate_address ++ [Load h i]), k)
  | Answer (Some false), Is_ip_occupied h i :: k => Some (Next s [Load h i], k)
  | Answer None, Is_ip_occupied h i :: k => Some (Next s (Store h i false :: break_loop_steps (Syn h) signal), k)
  | Commanded true, (Block_solicitation _ _ | Unblock_solicitation _ _) :: k => Some (Next s [], k)
  | Commanded false, Block_solicitation h i :: Load _ _ :: Unblock_solicitation _ _ :: k =>
      Some (Next s (Store h i false :: break_loop_steps (Syn h) signal), k)
  | Commanded false, Unblock_solicitation _ _ :: k => Some (Faulty Uncaught_exception, k)
  | Signal, _ :: _ => Some (Next s handler_steps, k)
  | _, _ => None
  end.

(** One step of thread [t]: an instruction of its own, or what happens to it *)
Definition perform (t : thread) (e : option happening) (s : state) : option result :=
  k ← running s !! t;
  '(r, k) ← (match e with
             | None => match k with x :: k => Some (exec t x s, k) | [] => None end
             | Some e => happen e k s
             end);
  Some (match r with Next s' k' => Next (continue t (k' ++ k) s') [] | r => r end).

Definition step (s s' : state) : Prop := ∃ t e k, perform t e s = Some (Next s' k).

(** The steps of a schedule *)
Fixpoint run (schedule : list (thread * option happening)) (s : state) : option state :=
  match schedule with
  | [] => Some s
  | (t, e) :: schedule =>
      match perform t e s with Some (Next s' _) => run schedule s' | _ => None end
  end.

(** The hosts are about to start; each has a list of sessions. *)
Definition initial (hosts : gmap nat (list (nat * way))) : state :=
  State ∅ [] None (kmap Main (map_imap (λ h l, Some (host_code h l)) hosts)) ∅ ∅ ∅.
End machine.

Lemma run_steps `{Families} mac_of schedule s s' : run mac_of schedule s = Some s' → rtc (step mac_of) s s'.
Proof.
  revert s. induction schedule as [|[t e] schedule IH]; intros s; cbn; [by intros [= ->]|].
  destruct (perform mac_of t e s) as [[s1 k| |]|] eqn:Hp; try done.
  intros Hrun. eapply rtc_l; [by exists t, e, k|by apply IH].
Qed.
