(* ===== verification/Discipline.v ===== *)
(** * A typing discipline for the threads of a capture

    What a thread of [Session.v] may do with captures, with the threads it has
    started and with the registry, given what it knows, and the invariant that every
    thread follows the discipline.  Every instruction keeps it: a thread which follows
    it meets no capture which is not there and no joinable thread which must not be. *)
From S2P Require Import Prelude ContainerUtils IntUtils NetText System Pcap WolWatcher Session.

(** ** A typing discipline for threads and captures

    A [view] is what a thread knows: the captures it may use, those it has
    registered, the threads it has started and not joined, its members which are
    joinable, and whether it holds the mutex of the registry.  A thread may start
    threads which use no more captures than itself, and it may destroy a capture only
    when none of its threads uses it.  Holding the mutex it may use what is
    registered, and it must not wait for anyone. *)
Record view := View {
  may_use : gset capture;
  registered : gset capture;
  children : gset thread;
  joinable : gset thread;
  locking : bool
}.

(** Who starts and joins a thread, and which captures a thread may use *)
Definition owner (t : thread) : option thread :=
  match t with
  | Main _ => None
  | Listener h | Watcher h _ | Loop_of (Syn h) => Some (Main h)
  | Loop_of (Wol h) => Some (Listener h)
  end.
Definition uses (t : thread) : gset capture :=
  match t with
  | Main _ => ∅
  | Listener h => {[Syn h; Wol h]}
  | Watcher h _ => {[Syn h]}
  | Loop_of c => {[c]}
  end.

(** The object a member belongs to is there. *)
Definition member_there (v : view) (t : thread) : Prop :=
  match t with Loop_of c => c ∈ may_use v | _ => True end.

Definition allowed (t : thread) (R : gset capture) (v : view) (x : instr) : Prop :=
  match x with
  | Construct c => t = Main (host_of c) ∧ c ∉ may_use v
  | Destroy c =>
      t = Main (host_of c) ∧ c ∈ may_use v ∧ (c ∉ registered v) ∧ (Loop_of c ∉ joinable v)
      ∧ ∀ t', t' ∈ children v → c ∉ uses t'
  | Start t' => owner t' = Some t ∧ (t' ∉ children v) ∧ uses t' ⊆ may_use v ∧ member_there v t'
  | Assign t' => owner t' = Some t ∧ (t' ∉ joinable v) ∧ member_there v t'
  | Join_if_joinable t' =>
      owner t' = Some t ∧ (t' ∈ joinable v → t' ∈ children v) ∧ locking v = false ∧ member_there v t'
  | Wait t' => owner t' = Some t ∧ t' ∈ children v ∧ locking v = false
  | Clear t' => owner t' = Some t ∧ member_there v t'
  | Drop t' => owner t' = Some t ∧ t' ∉ joinable v
  | Set_reason c _ | Breakloop c | Joinable c | Cancel c =>
      c ∈ may_use v ∨ (locking v = true ∧ c ∈ R)
  | Pcap_loop c _ | Capturing c _ => t = Loop_of c ∧ c ∈ may_use v ∧ locking v = false
  | Return c _ => t = Loop_of c ∧ c ∈ may_use v
  | End_loop c => c ∈ may_use v ∧ ∀ h, c = Wol h → Syn h ∈ may_use v
  | Lock => True
  | Unlock | Each_registered => locking v = true
  | Register c => t = Main (host_of c) ∧ locking v = true ∧ c ∈ may_use v ∧ c ∉ registered v
  | Unregister c => t = Main (host_of c) ∧ locking v = true ∧ c ∈ registered v
  | Each cs => locking v = true ∧ ∀ c, c ∈ cs → c ∈ R
  | Store h i b => t = Main h ∨ (t = Watcher h i ∧ b = false)
  | Load h i | Is_ip_occupied h i | Block_solicitation h i | Unblock_solicitation h i =>
      t = Watcher h i ∧ Syn h ∈ may_use v ∧ locking v = false
  end.

(** The view afterwards *)
Definition advance (v : view) (x : instr) : view :=
  let 'View u r ch j l := v in
  match x with
  | Construct c => View ({[c]} ∪ u) r ch j l
  | Destroy c => View (u ∖ {[c]}) r ch j l
  | Start t => View u r ({[t]} ∪ ch) j l
  | Assign t => View u r ch ({[t]} ∪ j) l
  | Join_if_joinable t => if decide (t ∈ j) then View u r (ch ∖ {[t]}) (j ∖ {[t]}) l else v
  | Wait t => View u r (ch ∖ {[t]}) j l
  | Clear t => View u r ch (j ∖ {[t]}) l
  | Lock => View u r ch j true
  | Unlock => View u r ch j false
  | Register c => View u ({[c]} ∪ r) ch j l
  | Unregister c => View u (r ∖ {[c]}) ch j l
  | _ => v
  end.

(** Thread [t] with the view [v] may run [k] and has a view in [F] then; [R] is the
    registry, as long as [t] holds its mutex.  A thread which is about to take a
    mutex it holds will not go on. *)
Fixpoint fits (F : view → Prop) (t : thread) (R : gset capture) (v : view) (k : code) : Prop :=
  match k with
  | [] => F v
  | Lock :: k => locking v = true ∨ ∀ R', fits F t R' (advance v Lock) k
  | (Register _ | Unregister _) as x :: k => allowed t R v x ∧ ∀ R', fits F t R' (advance v x) k
  | x :: k => allowed t R v x ∧ fits F t R (advance v x) k
  end.

(** At the end everything is given back. *)
Definition final (t : thread) (v : view) : Prop :=
  children v = ∅ ∧ joinable v = ∅ ∧ locking v = false
  ∧ match t with Main _ => may_use v = ∅ ∧ registered v = ∅ | _ => True end.

(** The view of a thread in a state *)
Definition view_of (s : state) (t : thread) : view := {|
  may_use := match t with Main h => filter (λ c, host_of c = h) (dom (wrappers s)) | _ => uses t end;
  registered := match t with Main h => filter (λ c, host_of c = h) (list_to_set (registry s)) | _ => ∅ end;
  children := filter (λ t', owner t' = Some t) (dom (running s));
  joinable := filter (λ t', owner t' = Some t) (members s);
  locking := bool_decide (lock_owner s = Some t)
|}.

(** *** Lemmas on the discipline *)
Lemma fits_mono F F' t R v k : fits F t R v k → (∀ v, F v → F' v) → fits F' t R v k.
Proof.
  intros Hk HF. revert R v Hk. induction k as [|x k IH]; intros R v; cbn [fits]; [apply HF|].
  destruct x; naive_solver.
Qed.

Lemma fits_app F t R v k1 k2 :
  fits (λ v', ∀ R', fits F t R' v' k2) t R v k1 → fits F t R v (k1 ++ k2).
Proof.
  revert R v. induction k1 as [|x k IH]; intros R v; cbn [fits app]; [auto|].
  destruct x; naive_solver.
Qed.

(** Without the mutex the registry does not matter. *)
Lemma fits_unlocked F t R R' v k : locking v = false → fits F t R v k → fits F t R' v k.
Proof.
  revert v. induction k as [|x k IH]; intros v Hl; cbn [fits]; [done|].
  destruct v as [u r ch j l]. cbn in Hl. subst l.
  destruct x; cbn [allowed locking may_use];
    lazymatch goal with |- _ ∨ _ → _ => tauto | _ => intros [Ha Hk] end.
  all: split; [intuition congruence|]; try exact Hk; (apply IH; [|exact Hk]); cbn; try done.
  all: by case_decide.
Qed.

(** The accesses of [break_loop] fit everywhere. *)
Lemma fits_break_loop F t R v c ler k :
  (c ∈ may_use v ∨ (locking v = true ∧ c ∈ R)) → fits F t R v k → fits F t R v (break_loop_steps c ler ++ k).
Proof. intros Hc Hk. destruct v. by split_and!. Qed.

Lemma fits_handler F t R v k : fits F t R v k → fits F t R v (handler_steps ++ k).
Proof.
  intros Hk. cbn [handler_steps app fits]. destruct (locking v) eqn:Hl; [by left|right].
  intros R'. destruct v as [u r ch j l]. cbn in Hl. subst l. split; [done|]. split; [done|].
  by eapply fits_unlocked.
Qed.

(** [loop] starts and joins its thread. *)
Lemma fits_loop F t R v c k :
  owner (Loop_of c) = Some t → c ∈ may_use v → (∀ h, c = Wol h → Syn h ∈ may_use v) →
  (Loop_of c ∉ children v) → (Loop_of c ∉ joinable v) → locking v = false →
  fits F t R v k → fits F t R v (loop_steps c ++ k).
Proof.
  intros Ho Hc Hsyn Hch Hj Hl Hk. destruct v as [u r ch j l]. cbn in *.
  assert (({[Loop_of c]} ∪ ch) ∖ {[Loop_of c]} = ch) as -> by set_solver.
  assert (({[Loop_of c]} ∪ j) ∖ {[Loop_of c]} = j) as -> by set_solver.
  assert (uses (Loop_of c) ⊆ u) by set_solver. by split_and!; try set_solver.
Qed.

(** What a thread knows when it starts, and that it follows the discipline *)
Definition fresh_view (t : thread) : view := View (uses t) ∅ ∅ ∅ false.
Lemma fits_body `{Families} t p R : owner t = Some p → fits (final t) t R (fresh_view t) (thread_body t).
Proof.
  intros Ho. destruct t as [h|h|h i|[h|h]]; [done| | | |]; cbn [thread_body].
  - apply (fits_loop _ _ _ _ _ []); try done; set_solver.
  - assert (Syn h ∈ uses (Watcher h i)) by (cbn; set_solver). destruct (is_ipv6 h i); by split_and!.
  - split_and!; try done; set_solver.
  - split_and!; try done; set_solver.
Qed.

(** ** The invariant *)

(** Whoever runs has its captures and the thread which will join it; so has every
    joinable member; what is registered is there, once. *)
Record well_formed (s : state) : Prop := {
  wf_uses t : t ∈ dom (running s) → uses t ⊆ dom (wrappers s);
  wf_owner t p : t ∈ dom (running s) → owner t = Some p → p ∈ dom (running s);
  wf_members t : t ∈ members s → ∃ p, owner t = Some p ∧ p ∈ dom (running s);
  wf_registry c : c ∈ registry s → c ∈ dom (wrappers s);
  wf_host c : c ∈ dom (wrappers s) → Main (host_of c) ∈ dom (running s);
  wf_lock t : lock_owner s = Some t → t ∈ dom (running s);
  wf_nodup : NoDup (registry s)
}.

Definition typed (s : state) (t : thread) (k : code) : Prop :=
  fits (final t) t (list_to_set (registry s)) (view_of s t) k.

(** Thread [t], which is running, is about to run [k]; everyone else follows the
    discipline. *)
Definition orderly_with (t : thread) (k : code) (s : state) : Prop :=
  well_formed s ∧ t ∈ dom (running s) ∧ typed s t k
  ∧ ∀ t' k', t' ≠ t → running s !! t' = Some k' → typed s t' k'.
Definition orderly (s : state) : Prop :=
  well_formed s ∧ ∀ t k, running s !! t = Some k → typed s t k.

Lemma orderly_orderly_with s t k : orderly s → running s !! t = Some k → orderly_with t k s.
Proof. intros [Hwf Hs] Ht. split_and!; auto. by eapply elem_of_dom_2. Qed.

(** *** Views *)
Lemma view_eq u r ch j l u' r' ch' j' l' :
  (∀ c, c ∈ u ↔ c ∈ u') → (∀ c, c ∈ r ↔ c ∈ r') → (∀ t, t ∈ ch ↔ t ∈ ch') → (∀ t, t ∈ j ↔ t ∈ j') →
  l = l' → View u r ch j l = View u' r' ch' j' l'.
Proof. intros. f_equal; [by apply set_eq..|done]. Qed.

(** Two states in which everyone sees the same *)
Definition same_shape (s s' : state) : Prop :=
  dom (wrappers s') = dom (wrappers s) ∧ registry s' = registry s ∧ lock_owner s' = lock_owner s
  ∧ running s' = running s ∧ members s' = members s.

Lemma view_of_shape s s' t : same_shape s s' → view_of s' t = view_of s t.
Proof. intros (Hw & Hr & Hl & Hk & Hm). unfold view_of. by rewrite Hw, Hr, Hl, Hk, Hm. Qed.
Lemma orderly_with_shape t k s s' : same_shape s s' → orderly_with t k s → orderly_with t k s'.
Proof.
  intros Hs (Hwf & Ht & Hk & Hothers). unfold orderly_with, typed in *.
  setoid_rewrite (view_of_shape _ _ _ Hs). destruct Hs as (Hw & Hr & Hl & Hk' & Hm).
  rewrite Hr, Hk'. split_and!; [|done..]. destruct Hwf.
  split; rewrite ?Hw, ?Hr, ?Hl, ?Hk', ?Hm; done.
Qed.

Lemma with_wrapper_shape c p s : c ∈ dom (wrappers s) → same_shape s (with_wrapper c p s).
Proof.
  intros Hc. split_and!; try done. cbn. rewrite dom_insert_L. set_solver.
Qed.

(** A thread which goes on is not a new thread. *)
Lemma view_of_continue s t k t' : t ∈ dom (running s) → view_of (continue t k s) t' = view_of s t'.
Proof.
  intros Ht. unfold view_of, continue. cbn. rewrite dom_insert_L. f_equal.
  f_equal. set_solver.
Qed.
Lemma orderly_continue t k s : orderly_with t k s → orderly (continue t k s).
Proof.
  intros (Hwf & Ht & Hk & Hothers). split.
  - destruct Hwf.
    assert (dom (running (continue t k s)) = dom (running s)) as Hd by (cbn; rewrite dom_insert_L; set_solver).
    split; rewrite ?Hd; done.
  - intros t' k'. unfold typed. rewrite view_of_continue by done. cbn.
    intros [[<- <-]|[Hne Ht']]%lookup_insert_Some; [done|]. by apply Hothers.
Qed.

(** What [t] needs to go on with [k']: its own view has moved on, nobody else's has,
    and the registry has not changed under those who may look at it. *)
Lemma orderly_with_change t k0 k s s' v :
  orderly_with t k0 s → well_formed s' → t ∈ dom (running s') →
  view_of s' t = v → fits (final t) t (list_to_set (registry s')) v k →
  (∀ t' k', t' ≠ t → running s' !! t' = Some k' →
     (running s !! t' = Some k' ∧ view_of s' t' = view_of s t'
      ∧ (registry s' = registry s ∨ lock_owner s = Some t)) ∨ typed s' t' k') →
  orderly_with t k s'.
Proof.
  intros (_ & _ & _ & Hothers) Hwf Ht <- Hk Hnew. split_and!; [done..|].
  intros t' k' Hne Ht'. destruct (Hnew t' k' Hne Ht') as [(Hold & Hv & Hr)|?]; [|done].
  specialize (Hothers t' k' Hne Hold). unfold typed in *. rewrite Hv.
  destruct Hr as [->|Hl]; [done|]. eapply fits_unlocked; [|exact Hothers].
  cbn. apply bool_decide_false. congruence.
Qed.

(** *** What is there *)
Lemma may_use_there s t : well_formed s → t ∈ dom (running s) → may_use (view_of s t) ⊆ dom (wrappers s).
Proof. intros Hwf Ht. destruct t; [cbn; set_solver|by apply (wf_uses s Hwf)..]. Qed.

(** A capture which a thread may access is there. *)
Lemma accessible s t c :
  well_formed s → t ∈ dom (running s) →
  c ∈ may_use (view_of s t) ∨ (locking (view_of s t) = true ∧ c ∈@{gset capture} list_to_set (registry s)) →
  c ∈ dom (wrappers s).
Proof.
  intros Hwf Ht [Hc|[_ Hc]]; [by eapply may_use_there|].
  by apply (wf_registry s Hwf), (elem_of_list_to_set (C := gset capture)).
Qed.

(** Who uses a capture which is there is a thread of its host or has been started by one. *)
Lemma user_child s t c :
  well_formed s → t ∈ dom (running s) → c ∈ uses t →
  ∃ t', t' ∈ dom (running s) ∧ owner t' = Some (Main (host_of c)) ∧ c ∈ uses t'.
Proof.
  intros Hwf Ht Hc.
  destruct t as [h|h|h i|[h|h]]; [by apply elem_of_empty in Hc| | | |].
  - exists (Listener h). cbn in *. assert (host_of c = h) as -> by (destruct c; set_solver). done.
  - exists (Watcher h i). cbn in *. assert (host_of c = h) as -> by (destruct c; set_solver). done.
  - exists (Loop_of (Syn h)). cbn in *. assert (host_of c = h) as -> by (destruct c; set_solver). done.
  - exists (Listener h). cbn in *. assert (c = Wol h) as -> by set_solver.
    split_and!; [|done|set_solver]. by eapply (wf_owner s Hwf (Loop_of (Wol h))).
Qed.

Lemma owner_irrefl t : owner t ≠ Some t.
Proof. destruct t as [| | |[]]; cbn; congruence. Qed.

(** ** Every instruction keeps the discipline *)

(** A thread which is about to run [k] has done an instruction: everything is in
    order, or the fault is not one of lifetimes. *)
Definition fine (t : thread) (k : code) (r : result) : Prop :=
  match r with
  | Next s' k' => orderly_with t (k' ++ k) s'
  | Blocked => True
  | Faulty f => f = Cancel_of_joined ∨ f = Uncaught_exception
  end.

Lemma access_fine t k s c f :
  c ∈ dom (wrappers s) → (∀ p, fine t k (f p)) → fine t k (access s c f).
Proof. intros [p Hp]%elem_of_dom Hf. unfold access. by rewrite Hp. Qed.

(** The next code fits the view of now. *)
Lemma orderly_with_typed t k k' s : orderly_with t k s → typed s t k' → orderly_with t k' s.
Proof. intros (Hwf & Ht & _ & Hothers) Hk. done. Qed.

(** An instruction which changes at most what is in a capture *)
Lemma fine_in_place t k k0 k' s c p :
  orderly_with t k0 s → c ∈ dom (wrappers s) → typed s t (k' ++ k) → fine t k (Next (with_wrapper c p s) k').
Proof.
  intros Hs Hc Hk. apply (orderly_with_shape _ _ s); [by apply with_wrapper_shape|]. by eapply orderly_with_typed.
Qed.
Lemma fine_stays t k k0 k' s : orderly_with t k0 s → typed s t (k' ++ k) → fine t k (Next s k').
Proof. intros Hs Hk. by eapply orderly_with_typed. Qed.

(** The view is made of sets. *)
Ltac view_tac := unfold view_of; cbn; apply view_eq; try reflexivity; set_solver.

(** Joining what is joinable is waiting and clearing. *)
Lemma advance_join v t :
  advance v (Join_if_joinable t) =
  if decide (t ∈ joinable v) then advance (advance v (Wait t)) (Clear t) else v.
Proof. by destruct v. Qed.

(** A thread which is done has nothing left. *)
Lemma finished s t :
  final t (view_of s t) →
  (∀ t', owner t' = Some t → (t' ∉ dom (running s)) ∧ (t' ∉ members s)) ∧ lock_owner s ≠ Some t.
Proof.
  intros (Hch & Hj & Hl & _). cbn in *. apply bool_decide_eq_false in Hl. split; [|done].
  intros t' Ho. set_solver.
Qed.

Section instructions.
Context `{Families} (t : thread) (k : code) (s : state).
Abbreviation R := (list_to_set (registry s) : gset capture).
Abbreviation v := (view_of s t).

(** What is known of the thread before one of its instructions *)
Lemma orderly_head x :
  match x with Lock | Register _ | Unregister _ => False | _ => True end →
  orderly_with t (x :: k) s → allowed t R v x ∧ fits (final t) t R (advance v x) k.
Proof. intros Hx (_ & _ & Hk & _). by destruct x. Qed.

Lemma exec_access_fine x :
  match x with
  | Set_reason _ _ | Breakloop _ | Joinable _ | Cancel _ | Pcap_loop _ _ | Capturing _ _ | Return _ _ | End_loop _ => True
  | _ => False
  end → orderly_with t (x :: k) s → fine t k (exec t x s).
Proof.
  intros Hx Hs. pose proof Hs as (Hwf & Ht & _ & _).
  destruct (orderly_head x) as [Ha Hk]; [by destruct x|done|].
  assert (typed s t k) as Hk' by by destruct x.
  assert (orderly_with t k s) as Hs' by by eapply orderly_with_typed.
  destruct x; try done; cbn [exec allowed] in *.
  all: match goal with |- fine _ _ (access _ ?c _) =>
    assert (c ∈ dom (wrappers s)) as Hc by (apply (accessible s t); [done..|tauto]) end.
  all: apply access_fine; [done|]; intros p; try by eapply fine_in_place.
  - eapply fine_stays; [done|]. case_decide; [by split|done].
  - destruct (running s !! Loop_of c); [|by left]. by apply (orderly_with_shape _ _ s).
  - destruct (break_flag p); [by eapply fine_in_place|]. eapply fine_stays; [done|]. by split.
  - case_decide; [by eapply fine_stays|done].
  - destruct Ha as [Hv Hsyn]. unfold end_loop.
    assert (∀ ler, typed s t (after_loop c ler ++ k)) as Hafter.
    { intros ler. destruct c as [h|h]; [done|]. cbn [after_loop]. case_decide; [|done].
      apply fits_break_loop; [left|done]. by apply Hsyn. }
    repeat case_decide; [by eapply fine_in_place| |by eapply fine_stays].
    destruct c; [by eapply fine_in_place|by right].
Qed.

(** What is said of threads in a view *)
Lemma in_children t' : owner t' = Some t → t' ∈ children v ↔ t' ∈ dom (running s).
Proof. intros Ho. cbn. set_solver. Qed.
Lemma in_joinable t' : owner t' = Some t → t' ∈ joinable v ↔ t' ∈ members s.
Proof. intros Ho. cbn. set_solver. Qed.

(** Instructions which change nothing that anyone knows *)
Lemma exec_local_fine x :
  match x with
  | Join_if_joinable _ | Drop _ | Each_registered | Each _ | Store _ _ _ | Load _ _ | Is_ip_occupied _ _
  | Block_solicitation _ _ | Unblock_solicitation _ _ => True
  | _ => False
  end → orderly_with t (x :: k) s → fine t k (exec t x s).
Proof.
  intros Hx Hs. destruct (orderly_head x) as [Ha Hk]; [by destruct x|done|].
  destruct x as [| | | |t'| | |t'| | | | | | | | | | | | | |cs|h i b|h i| | |]; try done; cbn [exec allowed] in *.
  - eapply fine_stays; [done|]. destruct Ha as (Ho & Hch & Hl & Hm). rewrite advance_join in Hk.
    pose proof (in_joinable t' Ho) as Hj. destruct (decide (t' ∈ members s)) as [Hin|Hin].
    + rewrite decide_True in Hk by tauto. cbn [app]. split; [split_and!; tauto|]. split; [|done].
      split; [done|]. by destruct t'.
    + by rewrite decide_False in Hk by tauto.
  - destruct Ha as [Ho Hj]. rewrite (in_joinable t') in Hj by done.
    case_decide; [done|]. by eapply fine_stays.
  - cbn in Ha. apply bool_decide_eq_true in Ha as Hl. rewrite decide_True by done.
    eapply fine_stays; [done|]. split; [|done]. split; [done|]. intros c. by rewrite elem_of_list_to_set.
  - destruct cs as [|c cs]; (eapply fine_stays; [done|]); [done|]. destruct Ha as [Hl Hcs].
    rewrite <- app_assoc. apply fits_break_loop; [right; split; [done|]; apply Hcs; set_solver|].
    split; [|done]. split; [done|]. set_solver.
  - by apply (orderly_with_shape _ _ s), (orderly_with_typed _ (Store h i b :: k)).
  - eapply fine_stays; [done|]. case_decide; [by split|done].
Qed.

(** Instructions which change what someone knows: [t] knows it, and nobody else *)
Ltac change_tac x :=
  apply (orderly_with_change t (x :: k) k s _ (advance v x)); [done| | | |done|].

Lemma exec_construct_fine c : orderly_with t (Construct c :: k) s → fine t k (exec t (Construct c) s).
Proof.
  intros Hs. destruct (orderly_head (Construct c)) as [[Hmain Hnot] Hk]; [done..|].
  pose proof Hs as (Hwf & Ht & _ & _). cbn [exec fine app]. change_tac (Construct c).
  - destruct Hwf. split; cbn; rewrite ?dom_insert_L; try done; set_solver.
  - done.
  - rewrite Hmain. unfold view_of; cbn. rewrite dom_insert_L. apply view_eq; set_solver.
  - intros t' k' Hne Ht'. left. split_and!; [done| |by left].
    destruct t' as [h| | |]; try done. unfold view_of; cbn. rewrite dom_insert_L. apply view_eq; try done.
    assert (host_of c ≠ h) by congruence. set_solver.
Qed.

(** Nobody is left who uses a capture which is destroyed. *)
Lemma unused c :
  well_formed s → t = Main (host_of c) → (∀ t', t' ∈ children v → c ∉ uses t') →
  ∀ t', t' ∈ dom (running s) → c ∉ uses t'.
Proof.
  intros Hwf Hmain Hfree t' Ht' Hc. destruct (user_child s t' c) as (t'' & Hrun & Ho & Hc''); [done..|].
  apply (Hfree t''); [|done]. apply in_children; [congruence|done].
Qed.

Lemma exec_destroy_fine c : orderly_with t (Destroy c :: k) s → fine t k (exec t (Destroy c) s).
Proof.
  intros Hs. destruct (orderly_head (Destroy c)) as [(Hmain & Hc & Hreg & Hj & Hfree) Hk]; [done..|].
  pose proof Hs as (Hwf & Ht & _ & _). pose proof (unused c Hwf Hmain Hfree) as Hunused.
  cbn [exec]. apply access_fine; [by eapply may_use_there|]. intros _.
  rewrite decide_False; cycle 1.
  { intros Hin. destruct (wf_members s Hwf (Loop_of c) Hin) as (p & Ho & Hp).
    destruct c as [h|h]; cbn in Ho; injection Ho as <-.
    - apply Hj. apply in_joinable; [by rewrite Hmain|done].
    - apply (Hunused _ Hp). set_solver. }
  cbn [fine app]. change_tac (Destroy c).
  - rewrite Hmain in Hreg. destruct Hwf. split; cbn; rewrite ?dom_delete_L; try done; set_solver.
  - done.
  - rewrite Hmain. unfold view_of; cbn. rewrite dom_delete_L. apply view_eq; set_solver.
  - intros t' k' Hne Ht'. left. split_and!; [done| |by left].
    destruct t' as [h| | |]; try done. unfold view_of; cbn. rewrite dom_delete_L. apply view_eq; try done.
    assert (host_of c ≠ h) by congruence. set_solver.
Qed.

Lemma exec_assign_fine t' : orderly_with t (Assign t' :: k) s → fine t k (exec t (Assign t') s).
Proof.
  intros Hs. destruct (orderly_head (Assign t')) as [(Ho & Hj & Hm) Hk]; [done..|].
  pose proof Hs as (Hwf & Ht & _ & _). rewrite (in_joinable t' Ho) in Hj. cbn [exec].
  assert (fine t k (Next (with_members ({[t']} ∪ members s) s) [])) as Hfine; cycle 1.
  { rewrite decide_False by done. destruct t'; try done. apply access_fine; [|done]. by eapply may_use_there. }
  cbn [fine app]. change_tac (Assign t').
  - destruct Hwf. split; cbn; try done. set_solver.
  - done.
  - view_tac.
  - intros t'' k' Hne Ht'. left. split_and!; [done|view_tac|by left].
Qed.

Lemma exec_clear_fine t' : orderly_with t (Clear t' :: k) s → fine t k (exec t (Clear t') s).
Proof.
  intros Hs. destruct (orderly_head (Clear t')) as [(Ho & Hm) Hk]; [done..|].
  pose proof Hs as (Hwf & Ht & _ & _). cbn [exec].
  assert (fine t k (Next (with_members (members s ∖ {[t']}) s) [])) as Hfine; cycle 1.
  { destruct t'; try done. apply access_fine; [|done]. by eapply may_use_there. }
  cbn [fine app]. change_tac (Clear t').
  - destruct Hwf. split; cbn; try done. set_solver.
  - done.
  - view_tac.
  - intros t'' k' Hne Ht'. left. split_and!; [done|view_tac|by left].
Qed.

Lemma exec_wait_fine t' : orderly_with t (Wait t' :: k) s → fine t k (exec t (Wait t') s).
Proof.
  intros Hs. destruct (orderly_head (Wait t')) as [(Ho & Hch & _) Hk]; [done..|].
  pose proof Hs as (Hwf & Ht & _ & Hothers). cbn [exec].
  assert (t' ≠ t) as Hne by (intros ->; by eapply owner_irrefl).
  rewrite (in_children t' Ho) in Hch. destruct (running s !! t') as [[|x k']|] eqn:Ht'; [|done|].
  2: { by apply not_elem_of_dom_2 in Ht'. }
  destruct (finished s t' (Hothers t' [] Hne Ht')) as [Hfin Hlock].
  cbn [fine app]. change_tac (Wait t').
  - destruct Hwf. split; cbn; rewrite ?dom_delete_L; try done; [set_solver| | | |].
    + intros t'' p Hin Hp. assert (p ≠ t') by (intros ->; set_solver). set_solver.
    + intros t'' Hin. destruct (wf_members0 t'' Hin) as (p & Hp & Hrun).
      assert (p ≠ t') by (intros ->; set_solver). set_solver.
    + intros c Hc. assert (Main (host_of c) ≠ t') by (intros <-; done). set_solver.
    + intros t'' Hl. assert (t'' ≠ t') by (intros ->; done). set_solver.
  - cbn. rewrite dom_delete_L. set_solver.
  - unfold view_of; cbn. rewrite dom_delete_L. apply view_eq; try done; set_solver.
  - cbn. intros t'' k' Hne' [_ Hrun]%lookup_delete_Some. left. split_and!; [done| |by left].
    unfold view_of; cbn. rewrite dom_delete_L. apply view_eq; try done. set_solver.
Qed.

Lemma exec_lock_fine : orderly_with t (Lock :: k) s → fine t k (exec t Lock s).
Proof.
  intros Hs. pose proof Hs as (Hwf & Ht & Hk & _). cbn [exec].
  destruct (lock_owner s) as [o|] eqn:Hl; [done|]. destruct Hk as [Hk|Hk].
  { cbn in Hk. apply bool_decide_eq_true in Hk. congruence. }
  cbn [fine app]. change_tac Lock.
  - destruct Hwf. split; cbn; try done. by intros ? [= <-].
  - done.
  - unfold view_of; cbn. by rewrite bool_decide_true.
  - intros t' k' Hne Ht'. left. split_and!; [done| |by left].
    unfold view_of; cbn. rewrite Hl. f_equal. rewrite !bool_decide_false; congruence.
Qed.

Lemma exec_unlock_fine : orderly_with t (Unlock :: k) s → fine t k (exec t Unlock s).
Proof.
  intros Hs. destruct (orderly_head Unlock) as [Hl Hk]; [done..|].
  cbn in Hl. apply bool_decide_eq_true in Hl.
  pose proof Hs as (Hwf & Ht & _ & _). cbn [exec]. rewrite decide_True by done. cbn [fine app]. change_tac Unlock.
  - destruct Hwf. by split.
  - done.
  - unfold view_of; cbn. by rewrite bool_decide_false.
  - intros t' k' Hne Ht'. left. split_and!; [done| |by left].
    unfold view_of; cbn. rewrite Hl. f_equal. rewrite !bool_decide_false; congruence.
Qed.

Lemma fine_start t' :
  orderly_with t (Start t' :: k) s →
  fine t k (Next (with_cancelled (cancelled s ∖ {[t']}) (continue t' (thread_body t') s)) []).
Proof.
  intros Hs. destruct (orderly_head (Start t')) as [(Ho & Hch & Hu & Hm) Hk]; [done..|].
  pose proof Hs as (Hwf & Ht & _ & _). rewrite (in_children t' Ho) in Hch.
  pose proof (may_use_there s t Hwf Ht) as Hthere.
  cbn [fine app]. change_tac (Start t').
  - destruct Hwf. split; cbn; rewrite ?dom_insert_L; try done; try set_solver.
  - cbn. rewrite dom_insert_L. set_solver.
  - unfold view_of; cbn. rewrite dom_insert_L. apply view_eq; try done; set_solver.
  - cbn. intros t'' k' Hne [[<- <-]|[Hne' Hrun]]%lookup_insert_Some; [right|left].
    + unfold typed. enough (view_of (continue t' (thread_body t') s) t' = fresh_view t') as Hv.
      { erewrite view_of_shape; [rewrite Hv; by eapply fits_body|done]. }
      destruct Hwf. unfold view_of; cbn. rewrite dom_insert_L. apply view_eq.
      * by destruct t'.
      * by destruct t'.
      * intros t''. set_unfold. split; [|done]. intros [Ho' [->|Hr]]; [by eapply owner_irrefl|naive_solver].
      * intros t''. set_unfold. split; [|done]. intros [Ho' Hr]. destruct (wf_members0 _ Hr) as (p & Hp & Hin).
        congruence.
      * apply bool_decide_false. intros Hl%wf_lock0. done.
    + split_and!; [done| |by left]. unfold view_of; cbn. rewrite dom_insert_L. apply view_eq; try done.
      assert (owner t' ≠ Some t'') by congruence. set_solver.
Qed.

Lemma exec_start_fine t' : orderly_with t (Start t' :: k) s → fine t k (exec t (Start t') s).
Proof.
  intros Hs. destruct (orderly_head (Start t')) as [(Ho & Hch & Hu & Hm) _]; [done..|].
  pose proof Hs as (Hwf & Ht & _ & _). rewrite (in_children t' Ho) in Hch. cbn [exec].
  apply not_elem_of_dom_1 in Hch. rewrite Hch.
  pose proof (fine_start t' Hs) as Hfine. destruct t' as [| | |c]; try done.
  apply access_fine; [by eapply may_use_there|]. intros p.
  eapply orderly_with_shape; [|exact Hfine]. split_and!; try done. cbn. rewrite dom_insert_L.
  assert (c ∈ dom (wrappers s)) by by eapply may_use_there. set_solver.
Qed.

Lemma exec_register_fine c : orderly_with t (Register c :: k) s → fine t k (exec t (Register c) s).
Proof.
  intros Hs. pose proof Hs as (Hwf & Ht & [(Hmain & Hl & Hc & Hreg) Hk] & _).
  pose proof (may_use_there s t Hwf Ht c Hc) as Hthere.
  cbn in Hl. apply bool_decide_eq_true in Hl. cbn [exec]. rewrite decide_True by done. cbn [fine app].
  assert (c ∉ registry s) as Hnot by (rewrite Hmain in Hreg; set_solver).
  change_tac (Register c).
  - destruct Hwf. split; cbn; try done; [set_solver|].
    apply NoDup_app. split_and!; [done|set_solver|apply NoDup_singleton].
  - done.
  - rewrite Hmain. unfold view_of; cbn. rewrite <- Hmain. apply view_eq; try done; set_solver.
  - intros t' k' Hne Ht'. left. split_and!; [done| |by right].
    destruct t' as [h| | |]; try done. unfold view_of; cbn. apply view_eq; try done.
    assert (host_of c ≠ h) by congruence. set_solver.
Qed.

(** What is left of the registry is what was there, without the capture. *)
Lemma unregistered (l : list capture) c :
  NoDup l → c ∈ l →
  match list_find (c =.) l with
  | Some (i, _) => NoDup (delete i l) ∧ ∀ c', c' ∈ delete i l ↔ c' ∈ l ∧ c' ≠ c
  | None => False
  end.
Proof.
  intros Hnd Hc. destruct (list_find (c =.) l) as [[i c']|] eqn:Hfind; cycle 1.
  { apply list_find_None in Hfind. rewrite Forall_forall in Hfind. by apply (Hfind c Hc). }
  apply list_find_Some in Hfind as (Hi & <- & _).
  rewrite delete_take_drop. pose proof (take_drop_middle _ _ _ Hi) as Hl. rewrite <- Hl in Hnd.
  apply NoDup_app in Hnd as (H1 & H2 & [H3 H4]%NoDup_cons).
  split; [apply NoDup_app; set_solver|]. intros c'. rewrite <- Hl at 3. set_solver.
Qed.

Lemma exec_unregister_fine c : orderly_with t (Unregister c :: k) s → fine t k (exec t (Unregister c) s).
Proof.
  intros Hs. pose proof Hs as (Hwf & Ht & [(Hmain & Hl & Hreg) Hk] & _).
  cbn in Hl. apply bool_decide_eq_true in Hl. cbn [exec].
  assert (c ∈ registry s) as Hin by (rewrite Hmain in Hreg; set_solver).
  rewrite decide_True by done. pose proof (unregistered (registry s) c (wf_nodup s Hwf) Hin) as Hdel.
  destruct (list_find _ _) as [[i ?]|]; [|done]. destruct Hdel as [Hnd Hdel]. cbn [fine app].
  change_tac (Unregister c).
  - destruct Hwf. split; cbn; try done. set_solver.
  - done.
  - rewrite Hmain. unfold view_of; cbn. rewrite <- Hmain. apply view_eq; try done; set_solver.
  - intros t' k' Hne Ht'. left. split_and!; [done| |by right].
    destruct t' as [h| | |]; try done. unfold view_of; cbn. apply view_eq; try done.
    assert (host_of c ≠ h) by congruence. set_solver.
Qed.

Lemma exec_fine x : orderly_with t (x :: k) s → fine t k (exec t x s).
Proof.
  intros Hs. destruct x;
    first [ by apply exec_access_fine | by apply exec_local_fine | by apply exec_construct_fine
          | by apply exec_destroy_fine | by apply exec_start_fine | by apply exec_assign_fine
          | by apply exec_wait_fine | by apply exec_clear_fine | by apply exec_lock_fine
          | by apply exec_unlock_fine | by apply exec_register_fine | by apply exec_unregister_fine ].
Qed.
End instructions.
