(* ===== verification/Lifetimes.v ===== *)
(** * Who lives how long

    [wait_and_listen] and its threads follow the discipline of [Discipline.v], from
    the start and whatever happens.  So no capture is used before it is constructed or
    after it is destroyed and nothing is left when the hosts are done; no threads wait
    for one another in a circle.  What is left are the races for [loop_thread]. *)
From S2P Require Import Prelude ContainerUtils IntUtils NetText System Pcap WolWatcher Session Discipline.

(** ** What happens from outside *)
Lemma not_owned_by_loop c t' : owner t' ≠ Some (Loop_of c).
Proof. by destruct t' as [| | |[]]. Qed.

Section outside.
Context `{Families} (mac_of : nat → list Z) (t : thread) (s : state).
Abbreviation R := (list_to_set (registry s) : gset capture).
Abbreviation v := (view_of s t).

Lemma fits_callback F c data k : c ∈ may_use v → fits F t R v k → fits F t R v (callback mac_of c data ++ k).
Proof.
  intros Hc Hk. destruct c as [h|h]; cbn [callback]; [done|]. destruct (is_magic_packet _ _); [|done].
  apply fits_break_loop; [by left|done].
Qed.

Lemma capturing_fine e c n k r k' :
  orderly_with t (Capturing c n :: k) s → e ≠ Signal →
  happen mac_of e (Capturing c n :: k) s = Some (r, k') → fine t k' r.
Proof.
  intros Hs Hns He. pose proof Hs as (Hwf & Ht & _ & _).
  destruct (orderly_head t k s (Capturing c n) I Hs) as [(Hloop & Hc & Hl) Hk].
  pose proof (may_use_there s t Hwf Ht c Hc) as Hthere.
  destruct e as [data| | |[[]|]|[]|]; cbn [happen] in He; try done; injection He as <- <-.
  - apply access_fine; [done|]. intros _. eapply fine_stays; [done|].
    rewrite <- app_assoc. apply fits_callback; [done|]. case_decide; by split.
  - apply access_fine; [done|]. intros _. eapply fine_stays; [done|]. by split.
  - eapply fine_stays; [done|]. by split.
Qed.

Lemma answer_fine e h i k r k' :
  orderly_with t (Is_ip_occupied h i :: k) s → e ≠ Signal →
  happen mac_of e (Is_ip_occupied h i :: k) s = Some (r, k') → fine t k' r.
Proof.
  intros Hs Hns He. destruct (orderly_head t k s (Is_ip_occupied h i) I Hs) as [(Hme & Hc & Hl) Hk].
  destruct e as [data| | |[[]|]|[]|]; cbn [happen] in He; try done; injection He as <- <-; (eapply fine_stays; [done|]).
  - split; [by right|].
    apply (fits_break_loop _ _ _ _ (Syn h) duplicate_address (Load h i :: k)); [by left|]. by split.
  - by split.
  - split; [by right|]. apply fits_break_loop; [by left|done].
Qed.

Lemma command_fine e x k r k' :
  match x with Block_solicitation _ _ | Unblock_solicitation _ _ => True | _ => False end →
  orderly_with t (x :: k) s → e ≠ Signal → happen mac_of e (x :: k) s = Some (r, k') → fine t k' r.
Proof.
  intros Hx Hs Hns He. destruct (orderly_head t k s x) as [Ha Hk]; [by destruct x|done|].
  destruct x as [| | | | | | | | | | | | | | | | | | | | | | | | |h i|h i]; try done;
    destruct e as [data| | |[[]|]|[]|]; cbn [happen] in He; try done.
  - injection He as <- <-. by eapply fine_stays.
  - destruct k as [|[] [|[] k]]; try done. injection He as <- <-. destruct Ha as (Hme & Hc & _).
    destruct Hk as [_ [_ Hk]]. eapply fine_stays; [done|]. split; [by right|].
    apply fits_break_loop; [by left|done].
  - injection He as <- <-. by eapply fine_stays.
  - injection He as <- <-. by right.
Qed.

(** A happening other than a signal concerns a thread which waits for it. *)
Definition takes_happening (x : instr) : bool :=
  match x with
  | Capturing _ _ | Is_ip_occupied _ _ | Block_solicitation _ _ | Unblock_solicitation _ _ => true
  | _ => false
  end.
Lemma happen_head e k r : e ≠ Signal → happen mac_of e k s = Some r → ∃ x k', k = x :: k' ∧ takes_happening x = true.
Proof.
  intros Hns He. destruct k as [|x k]; [by destruct e as [| | |[[]|]|[]|]|]. exists x, k. split; [done|].
  by destruct x, e as [| | |[[]|]|[]|].
Qed.

Lemma happen_fine e k r k' : orderly_with t k s → happen mac_of e k s = Some (r, k') → fine t k' r.
Proof.
  intros Hs He. destruct (decide (e = Signal)) as [->|Hns].
  - destruct k as [|x k]; [done|]. injection He as <- <-. eapply fine_stays; [done|].
    apply fits_handler. by destruct Hs as (_ & _ & Hk & _).
  - destruct (happen_head e k _ Hns He) as (x & k0 & -> & Hx). destruct x; try done.
    + by eapply capturing_fine.
    + by eapply answer_fine.
    + by eapply (command_fine e (Block_solicitation h i)).
    + by eapply (command_fine e (Unblock_solicitation h i)).
Qed.
End outside.

(** ** Every step *)
Lemma perform_fine `{Families} mac_of t e s r :
  orderly s → perform mac_of t e s = Some r →
  match r with
  | Next s' _ => orderly s'
  | Blocked => True
  | Faulty f => f = Cancel_of_joined ∨ f = Uncaught_exception
  end.
Proof.
  intros Hs Hp. unfold perform in Hp. destruct (running s !! t) as [k|] eqn:Hk; [|done]. cbn in Hp.
  pose proof (orderly_orderly_with _ _ _ Hs Hk) as Hwith.
  assert (∃ r' k', r = (match r' with Next s' k'' => Next (continue t (k'' ++ k') s') [] | r' => r' end)
                   ∧ fine t k' r') as (r' & k' & -> & Hfine).
  { destruct e as [e|].
    - destruct (happen mac_of e k s) as [[r' k']|] eqn:He; [|done]. injection Hp as <-.
      exists r', k'. split; [done|]. by eapply happen_fine.
    - destruct k as [|x k]; [done|]. injection Hp as <-. exists (exec t x s), k.
      split; [done|]. by apply exec_fine. }
  destruct r'; [by apply orderly_continue|done|done].
Qed.

Lemma step_orderly `{Families} mac_of s s' : orderly s → step mac_of s s' → orderly s'.
Proof. intros Hs (t & e & k & Hp). by apply (perform_fine _ _ _ _ _ Hs Hp). Qed.

(** ** [wait_and_listen] follows the discipline *)

(** What a session knows of while it has the guards [gs] *)
Definition guard_captures (h : nat) (g : guard) : gset capture :=
  match g with Guard_wol => {[Wol h]} | _ => ∅ end.
Definition guard_registers (h : nat) (g : guard) : gset capture :=
  match g with Guard_registered => {[Syn h]} | _ => ∅ end.
Definition guard_threads (h : nat) (g : guard) : gset thread :=
  match g with Guard_wol => {[Listener h]} | Guard_registered => ∅ | Guard_address i => {[Watcher h i]} end.
Definition holding (h : nat) (gs : list guard) : view :=
  View ({[Syn h]} ∪ ⋃ (guard_captures h <$> gs)) (⋃ (guard_registers h <$> gs))
    (⋃ (guard_threads h <$> gs)) (⋃ (guard_threads h <$> gs)) false.

Section session.
Context (F : view → Prop) (h : nat).
Abbreviation t := (Main h).

Lemma elem_of_union_guards {A} `{Countable A} (f : guard → gset A) gs x :
  x ∈ ⋃ (f <$> gs) ↔ ∃ g, g ∈ gs ∧ x ∈ f g.
Proof. rewrite elem_of_union_list. set_solver. Qed.

(** Different guards have different things. *)
Lemma guard_apart g gs :
  g ∉ gs → guard_captures h g ## ⋃ (guard_captures h <$> gs) ∧ guard_registers h g ## ⋃ (guard_registers h <$> gs)
    ∧ guard_threads h g ## ⋃ (guard_threads h <$> gs).
Proof.
  intros Hg. split_and!; intros x Hx (g' & Hg' & Hx')%elem_of_union_guards;
    destruct g, g'; cbn in *; set_solver.
Qed.

(** What guards have *)
Lemma guards_have gs :
  (∀ c, c ∈ ⋃ (guard_registers h <$> gs) → c = Syn h)
  ∧ (∀ t', t' ∈ ⋃ (guard_threads h <$> gs) → t' = Listener h ∨ ∃ i, t' = Watcher h i).
Proof.
  split; intros x (g & _ & Hx)%elem_of_union_guards; destruct g; cbn in Hx; set_solver.
Qed.

Lemma fits_at R v v' k : v = v' → fits F t R v k → fits F t R v' k.
Proof. by intros ->. Qed.

(** [stop] leaves neither the thread nor the member. *)
Lemma fits_join R u r ch j t' k :
  owner t' = Some t → member_there (View u r ch j false) t' → (t' ∈ ch ↔ t' ∈ j) →
  fits F t R (View u r (ch ∖ {[t']}) (j ∖ {[t']}) false) k →
  fits F t R (View u r ch j false) (Join_if_joinable t' :: k).
Proof.
  intros Ho Hm Hsame Hk. split; [by split_and!; [|tauto| |]|]. cbn [advance]. case_decide as Hj; [done|].
  eapply fits_at; [|done]. apply view_eq; set_solver.
Qed.

(** Constructing a guard and destroying it *)
Lemma fits_take R g gs k :
  g ∉ gs → (∀ R', fits F t R' (holding h (g :: gs)) k) → fits F t R (holding h gs) (guard_take h g ++ k).
Proof.
  intros Hg Hk. destruct (guard_apart g gs Hg) as (Hc & Hr & Hth).
  unfold holding in *. cbn [fmap list_fmap union_list foldr] in Hk. revert Hk Hc Hr Hth.
  generalize (⋃ (guard_captures h <$> gs)) (⋃ (guard_registers h <$> gs)) (⋃ (guard_threads h <$> gs)).
  intros C Rg T Hk Hc Hr Hth. destruct g as [| |i]; cbn [guard_take guard_captures guard_registers guard_threads app] in *.
  - split; [split; [done|set_solver]|]. cbn [advance].
    split; [split_and!; try done; set_solver|]. cbn [advance].
    split; [split_and!; try done; set_solver|]. eapply fits_at; [|apply Hk]. apply view_eq; set_solver.
  - right. intros R'. split; [split_and!; try done; set_solver|]. intros R''. cbn [advance].
    split; [done|]. eapply fits_at; [|apply Hk]. apply view_eq; set_solver.
  - do 2 (split; [by left|]). split; [split_and!; try done; set_solver|]. cbn [advance].
    split; [split_and!; try done; set_solver|]. eapply fits_at; [|apply Hk]. apply view_eq; set_solver.
Qed.

Lemma fits_release R g gs k :
  g ∉ gs → (∀ R', fits F t R' (holding h gs) k) → fits F t R (holding h (g :: gs)) (guard_release h g ++ k).
Proof.
  intros Hg Hk. destruct (guard_apart g gs Hg) as (Hc & Hr & Hth), (guards_have gs) as [Hreg Hthr].
  unfold holding in *. cbn [fmap list_fmap union_list foldr]. revert Hk Hc Hr Hth Hreg Hthr.
  generalize (⋃ (guard_captures h <$> gs)) (⋃ (guard_registers h <$> gs)) (⋃ (guard_threads h <$> gs)).
  intros C Rg T Hk Hc Hr Hth Hreg Hthr. destruct g as [| |i];
    cbn [guard_release guard_captures guard_registers guard_threads] in *.
  - unfold wol_stop_steps. rewrite <- !app_assoc.
    apply fits_break_loop; [left; set_solver|]. apply fits_join; [done..|].
    apply fits_break_loop; [left; set_solver|]. apply fits_join; [done|done|set_solver|].
    split; [split; [done|set_solver]|].
    split; [split_and!; [done|set_solver| | |]; cbn [registered joinable children]|].
    { intros [Hin|Hin%Hreg]%elem_of_union; set_solver. } { set_solver. } { set_solver. }
    eapply fits_at; [|apply Hk]. apply view_eq; set_solver.
  - right. intros R'. split; [split_and!; try done; set_solver|]. intros R''. cbn [advance].
    split; [done|]. eapply fits_at; [|apply Hk]. apply view_eq; set_solver.
  - unfold stop_watcher_steps. cbn [app].
    split; [by left|]. apply fits_join; [done..|]. split; [split; [done|set_solver]|].
    split; [by left|]. apply fits_join; [done|done|set_solver|]. do 2 (split; [split; [done|set_solver]|]).
    eapply fits_at; [|apply Hk]. apply view_eq; set_solver.
Qed.

Lemma holding_same gs gs' : (∀ g, g ∈ gs ↔ g ∈ gs') → holding h gs = holding h gs'.
Proof.
  intros Hsame. unfold holding. apply view_eq; try done; intros x; rewrite ?elem_of_union, !elem_of_union_guards;
    setoid_rewrite Hsame; done.
Qed.

Lemma fits_takes gs : ∀ R held k,
  NoDup gs → (∀ g, g ∈ gs → g ∉ held) → (∀ R', fits F t R' (holding h (gs ++ held)) k) →
  fits F t R (holding h held) ((gs ≫= guard_take h) ++ k).
Proof.
  induction gs as [|g gs IH]; intros R held k Hnd Hheld Hk; [apply Hk|].
  apply NoDup_cons in Hnd as [Hg Hnd]. cbn [mbind list_bind]. rewrite <- app_assoc.
  apply fits_take; [apply Hheld; set_solver|]. intros R'. apply IH; [done|set_solver|].
  intros R''. erewrite holding_same; [apply Hk|]. intros g'. set_solver.
Qed.
Lemma fits_releases gs : ∀ R k,
  NoDup gs → (∀ R', fits F t R' (holding h []) k) →
  fits F t R (holding h gs) ((gs ≫= guard_release h) ++ k).
Proof.
  induction gs as [|g gs IH]; intros R k Hnd Hk; [apply Hk|].
  apply NoDup_cons in Hnd as [Hg Hnd]. cbn [mbind list_bind]. rewrite <- app_assoc.
  apply fits_release; [done|]. intros R'. by apply IH.
Qed.

Lemma taken_nodup addresses how : NoDup (taken addresses how).
Proof.
  assert (NoDup (session_guards addresses)) as Hnd.
  { unfold session_guards. repeat (apply NoDup_cons; split; [set_solver|]). cbn [app].
    apply NoDup_fmap_2; [by intros ?? [=]|apply NoDup_seq]. }
  destruct how as [m| |]; [|done..]. cbn. by eapply sublist_NoDup, sublist_take.
Qed.

(** A session leaves nothing, however it goes. *)
Definition empty_view : view := View ∅ ∅ ∅ ∅ false.
Lemma fits_session R addresses how k :
  (∀ R', fits F t R' empty_view k) → fits F t R empty_view (session h addresses how ++ k).
Proof.
  intros Hk. unfold session. rewrite <- !app_assoc. split; [split; [done|set_solver]|]. cbn [advance app empty_view].
  eapply (fits_at _ (holding h [])); [apply view_eq; set_solver|].
  apply fits_takes; [apply taken_nodup|set_solver|]. intros R'. rewrite app_nil_r.
  assert (∀ R', fits F t R' (holding h (taken addresses how)) ((taken addresses how ≫= guard_release h) ++ [Destroy (Syn h)] ++ k)) as Hrelease.
  { intros R''. apply fits_releases; [apply taken_nodup|]. intros R'''.
    split; [split_and!; [done|set_solver..]|]. eapply fits_at; [|apply Hk]. apply view_eq; set_solver. }
  destruct how as [[|m]| |]; cbn [throwing looping app]; try by apply Hrelease.
  - split; [split; [done|set_solver]|]. cbn [advance].
    split; [split_and!; [done|set_solver..]|]. eapply fits_at; [|apply (Hrelease R')]. apply view_eq; set_solver.
  - destruct (guards_have (taken addresses Loops)) as [_ Hthr].
    apply fits_loop; [done|by apply elem_of_union_l, elem_of_singleton|by intros ? [=]| | |done|apply Hrelease];
      intros [?|[? ?]]%Hthr; congruence.
Qed.

Lemma fits_host sessions : ∀ R, F empty_view → fits F t R empty_view (host_code h sessions).
Proof.
  induction sessions as [|[addresses how] sessions IH]; intros R HF; [done|].
  apply fits_session. intros R'. by apply IH.
Qed.
End session.

(** ** The start *)
Lemma running_initial hosts t k :
  running (initial hosts) !! t = Some k ↔ ∃ h l, t = Main h ∧ hosts !! h = Some l ∧ k = host_code h l.
Proof.
  cbn. rewrite lookup_kmap_Some by by intros ?? [=]. setoid_rewrite map_lookup_imap.
  split; [intros (h & -> & Hl)|intros (h & l & -> & Hl & ->)].
  - destruct (hosts !! h) eqn:?; [|done]. injection Hl as <-. eauto.
  - exists h. split; [done|]. by rewrite Hl.
Qed.
Lemma initial_main hosts t : t ∈ dom (running (initial hosts)) → ∃ h, t = Main h.
Proof. intros [k (h & ? & -> & _)%running_initial]%elem_of_dom. eauto. Qed.

Lemma initial_orderly hosts : orderly (initial hosts).
Proof.
  split.
  - split; try done.
    + intros t [h ->]%initial_main. done.
    + intros t p [h ->]%initial_main. done.
    + by intros c ?%elem_of_nil.
    + constructor.
  - intros t k Ht. pose proof Ht as (h & l & -> & _ & ->)%running_initial. unfold typed.
    enough (view_of (initial hosts) (Main h) = empty_view) as -> by (apply fits_host; by split_and!).
    unfold view_of. apply view_eq; try done.
    intros t'. rewrite elem_of_filter. split; [|done]. by intros [Ho [h' ->]%initial_main].
Qed.

Lemma reachable_orderly `{Families} mac_of hosts s : rtc (step mac_of) (initial hosts) s → orderly s.
Proof.
  revert s. apply (rtc_ind_r orderly (initial hosts)); [apply initial_orderly|].
  intros s s' _ Hstep Hs. by eapply step_orderly.
Qed.

(** ** Nothing is left *)

(** The hosts are done. *)
Definition all_done (s : state) : Prop := ∀ h k, running s !! Main h = Some k → k = [].
(** There is no capture, nothing is registered, only the threads of the hosts have not
    been joined, and nobody holds the mutex. *)
Definition given_back (s : state) : Prop :=
  wrappers s = ∅ ∧ registry s = [] ∧ members s = ∅ ∧ lock_owner s = None
  ∧ ∀ t, t ∈ dom (running s) → ∃ h, t = Main h.

Section done.
Context (s : state) (Hs : orderly s) (Hdone : all_done s).

Lemma done_final h : Main h ∈ dom (running s) → final (Main h) (view_of s (Main h)).
Proof. intros [k Hk]%elem_of_dom. rewrite (Hdone h k Hk) in Hk. by apply Hs in Hk. Qed.

Lemma done_threads t : t ∈ dom (running s) → ∃ h, t = Main h.
Proof.
  assert (∀ t h, owner t = Some (Main h) → t ∉ dom (running s)) as Hnone.
  { intros t' h Ho Hin. pose proof (wf_owner s (proj1 Hs) t' _ Hin Ho) as Hmain.
    by destruct (finished _ _ (done_final h Hmain)) as [[]%(λ f, f t' Ho) _]. }
  intros Ht. destruct t as [h|h|h i|[h|h]]; [eauto|..].
  1-3: by apply (Hnone _ h) in Ht.
  pose proof (wf_owner s (proj1 Hs) (Loop_of (Wol h)) _ Ht eq_refl) as Hl. by apply (Hnone _ h) in Hl.
Qed.

Lemma done_given_back : given_back s.
Proof.
  assert (wrappers s = ∅) as Hw.
  { apply dom_empty_inv_L, set_eq. intros c. split; [|set_solver]. intros Hc.
    destruct (done_final _ (wf_host s (proj1 Hs) c Hc)) as (_ & _ & _ & Hu & _). cbn in Hu. set_solver. }
  split_and!; [done| | | |apply done_threads].
  - destruct (registry s) as [|c l] eqn:Hr; [done|].
    pose proof (wf_registry s (proj1 Hs) c) as Hc. rewrite Hr, Hw, dom_empty_L in Hc. set_solver.
  - apply set_eq. intros t. split; [|set_solver]. intros Ht.
    destruct (wf_members s (proj1 Hs) t Ht) as (p & Ho & [h ->]%done_threads).
    destruct (wf_members s (proj1 Hs) t Ht) as (p & Ho' & Hp). rewrite Ho in Ho'. injection Ho' as <-.
    by destruct (finished _ _ (done_final h Hp)) as [[]%(λ f, f t Ho) _].
  - destruct (lock_owner s) as [t|] eqn:Hl; [|done].
    pose proof (wf_lock s (proj1 Hs) t Hl) as Ht. destruct (done_threads t Ht) as [h ->].
    by destruct (finished _ _ (done_final h Ht)) as [_ []].
Qed.
End done.

(** ** Who waits for whom

    Nobody waits in a circle: the thread which another waits for in the end (for its
    end, or for the mutex of the registry) can go on, or waits for something from
    outside, or waits for a mutex which it holds itself. *)

(** Thread [t] waits for the end of a thread which is not at its end, or for a mutex
    someone has. *)
Definition waits_for (s : state) (t t' : thread) : Prop :=
  ∃ x k, running s !! t = Some (x :: k) ∧
    ((x = Wait t' ∧ ∃ y k', running s !! t' = Some (y :: k')) ∨ (x = Lock ∧ lock_owner s = Some t')).
(** It waits for a packet, for an answer of the neighbours or for a command. *)
Definition waits_outside (s : state) (t : thread) : Prop :=
  ∃ x k, running s !! t = Some (x :: k) ∧ takes_happening x = true.
Definition moves `{Families} (mac_of : nat → list Z) (s : state) (t : thread) : Prop :=
  ∃ r, perform mac_of t None s = Some r ∧ r ≠ Blocked.

Definition depth (t : thread) : nat :=
  match t with Main _ => 2 | Loop_of (Wol _) => 0 | _ => 1 end.
Lemma owner_depth t p : owner t = Some p → (depth t < depth p)%nat.
Proof. destruct t as [| | |[]]; cbn; intros [= <-]; cbn; lia. Qed.

Section waiting.
Context `{Families} (mac_of : nat → list Z) (s : state) (Hs : orderly s).

Lemma exec_blocked t x :
  exec t x s = Blocked →
  match x with
  | Wait t' => ∃ y k, running s !! t' = Some (y :: k)
  | Lock => ∃ o, lock_owner s = Some o
  | x => takes_happening x = true
  end.
Proof.
  destruct x as [| |t'|t'| |t'|t'| | | | | | | | |c| | | | | |[]| | | | |];
    cbn [exec]; unfold access_member, access, end_loop; intros Hb; try done;
    repeat (case_match; simplify_eq; try done); eauto.
Qed.

(** A thread which has something to do does it or waits. *)
Lemma moves_or_waits t x k :
  running s !! t = Some (x :: k) → moves mac_of s t ∨ waits_outside s t ∨ ∃ t', waits_for s t t'.
Proof.
  intros Hk. pose proof (exec_blocked t x) as Hb.
  destruct (exec t x s) as [s' k'| |f] eqn:He; [left| |left].
  - eexists. unfold perform. rewrite Hk. cbn. by rewrite He.
  - right. specialize (Hb eq_refl). destruct x; try done; try by (left; eexists _, _).
    + destruct Hb as (y & k' & Ht'). right. eexists _, _, _. split; [done|]. left. eauto.
    + destruct Hb as (o & Ho). right. exists o, Lock, k. auto.
  - eexists. unfold perform. rewrite Hk. cbn. by rewrite He.
Qed.

(** Who has the mutex waits for nobody but itself. *)
Lemma owner_moves o :
  lock_owner s = Some o → moves mac_of s o ∨ waits_for s o o.
Proof.
  intros Ho. pose proof (wf_lock s (proj1 Hs) o Ho) as [[|x k] Hk]%elem_of_dom; pose proof (proj2 Hs _ _ Hk) as Ht.
  - by destruct (finished s o Ht) as [_ []].
  - assert (locking (view_of s o) = true) as Hl by by apply bool_decide_true.
    destruct (moves_or_waits o x k Hk) as [?|[(y & k' & Hk' & Hy)|(t' & y & k' & Hk' & Hy)]]; [by left|..];
      rewrite Hk in Hk'; injection Hk' as <- <-.
    + destruct x; try done; destruct Ht as [Ha _]; cbn [allowed] in Ha; intuition congruence.
    + destruct Hy as [[-> _]|[-> Ho']].
      * destruct Ht as [Ha _]; cbn [allowed] in Ha; intuition congruence.
      * right. exists Lock, k. auto.
Qed.

Lemma waiting_ends n t x k :
  (depth t < n)%nat → running s !! t = Some (x :: k) →
  ∃ t', rtc (waits_for s) t t' ∧ (moves mac_of s t' ∨ waits_outside s t' ∨ waits_for s t' t').
Proof.
  revert t x k. induction n as [|n IH]; intros t x k Hn Hk; [lia|].
  destruct (moves_or_waits t x k Hk) as [?|[?|(t' & Hw)]]; [exists t; by split; [|auto]..|].
  pose proof Hw as (y & k' & Hk' & Hy). rewrite Hk in Hk'. injection Hk' as <- <-.
  destruct Hy as [[-> (y & k' & Ht')]|[_ Ho]].
  - destruct (proj2 Hs _ _ Hk) as [(Hown & _) _]. apply owner_depth in Hown.
    destruct (IH t' y k') as (t'' & Hrtc & Hend); [lia|done|].
    exists t''. split; [by eapply rtc_l|done].
  - exists t'. split; [by apply rtc_once|]. destruct (owner_moves t' Ho); auto.
Qed.
End waiting.

(** ** The theorems *)

(** C8: in every run of any number of hosts, with any number of addresses, however
    each call of [wait_and_listen] goes and whatever packets, answers, errors and
    signals come: no thread uses a capture (or the [std::thread] in it) before it is
    constructed or after it is destroyed, no joinable [std::thread] is overwritten or
    destroyed, and the registry is changed under its mutex and only for captures which
    are there.  What can go wrong is that a thread is cancelled which has just been
    joined, and that an exception leaves a thread: that of the listener's [loop], or that
    of the destructor of an IPv6 watcher's guard.  When the hosts are done there is no
    capture, no thread and nothing in the registry. *)
Theorem lifetimes_safe `{Families} mac_of hosts s :
  rtc (step mac_of) (initial hosts) s →
  (∀ t e f, perform mac_of t e s = Some (Faulty f) → f = Cancel_of_joined ∨ f = Uncaught_exception)
  ∧ (all_done s → given_back s).
Proof.
  intros Hs%reachable_orderly. split; [|by apply done_given_back].
  intros t e f Hp. apply (perform_fine _ _ _ _ _ Hs Hp).
Qed.

(** Two threads are about to access the member [loop_thread] of a capture, and one of
    them writes it. *)
Definition writes_loop_thread (c : capture) (x : instr) : Prop := x = Assign (Loop_of c) ∨ x = Clear (Loop_of c).
Definition reads_loop_thread (c : capture) (x : instr) : Prop := x = Joinable c ∨ x = Cancel c.
Definition races (s : state) (c : capture) : Prop :=
  ∃ t t' x y, t ≠ t' ∧ running s !! t ≫= head = Some x ∧ running s !! t' ≫= head = Some y
    ∧ writes_loop_thread c x ∧ reads_loop_thread c y.

(** *** Runs of one host with one address, an IPv6 address *)
#[local] Instance some_families : Families := λ _ _, true.
Definition one_host : state := initial {[ 0 := [(1, Loops)] ]}.
Definition some_mac (_ : nat) : list Z := [1; 2; 3; 4; 5; 6]%Z.
Definition goes (n : nat) (t : thread) : list (thread * option happening) := repeat (t, None) n.
(** The watcher blocks neighbour solicitations and goes on to ask the neighbours. *)
Definition watcher_asks : list (thread * option happening) :=
  (Watcher 0 0, Some (Commanded true)) :: goes 1 (Watcher 0 0).

(** A SYN arrives while the neighbours are asked and the listener waits for a packet;
    the host waits for the answer. *)
Definition stopping_run : list (thread * option happening) :=
  goes 11 (Main 0) ++ watcher_asks ++ goes 2 (Listener 0) ++ goes 1 (Loop_of (Wol 0)) ++ goes 2 (Main 0)
  ++ goes 1 (Loop_of (Syn 0)) ++ [(Loop_of (Syn 0), Some (Packet []))] ++ goes 1 (Loop_of (Syn 0)) ++ goes 7 (Main 0)
  ++ goes 1 (Loop_of (Wol 0)) ++ goes 3 (Listener 0) ++ goes 14 (Main 0).
(** The answer comes, and everything is given back. *)
Definition syn_run : list (thread * option happening) :=
  stopping_run ++ [(Watcher 0 0, Some (Answer (Some false)))] ++ goes 1 (Watcher 0 0)
  ++ [(Watcher 0 0, Some (Commanded true))] ++ goes 8 (Main 0).
(** The address is found occupied while [loop] starts its thread. *)
Definition starting_run : list (thread * option happening) :=
  goes 12 (Main 0) ++ watcher_asks ++ [(Watcher 0 0, Some (Answer (Some true)))] ++ goes 3 (Watcher 0 0).
(** [break_loop] has seen the thread, which ends and is joined. *)
Definition joined_run : list (thread * option happening) :=
  starting_run ++ goes 1 (Main 0) ++ goes 1 (Watcher 0 0) ++ goes 1 (Loop_of (Syn 0)) ++ goes 1 (Main 0).
(** The capture of the listener fails. *)
Definition failing_run : list (thread * option happening) :=
  goes 3 (Main 0) ++ goes 2 (Listener 0) ++ goes 1 (Loop_of (Wol 0)) ++ [(Loop_of (Wol 0), Some Capture_error)]
  ++ goes 1 (Loop_of (Wol 0)) ++ goes 2 (Listener 0).

(** The state after a run, when the run is one *)
Definition after (schedule : list (thread * option happening)) : state :=
  default one_host (run some_mac schedule one_host).
Lemma after_reachable schedule :
  bool_decide (is_Some (run some_mac schedule one_host)) = true →
  rtc (step some_mac) one_host (after schedule).
Proof. intros [s Hs]%bool_decide_eq_true. unfold after. rewrite Hs. by eapply run_steps. Qed.

(** C12: the member [loop_thread] is not protected: one host with one address reaches a
    state in which [loop] is about to assign the member while [break_loop] of the
    address watcher is about to read it, and a state in which [join] is about to clear
    it while [break_loop] is about to cancel the thread, which has been joined already.
    And an error of the listener's capture ends the program. *)
Theorem loop_thread_race :
  (∃ s, rtc (step some_mac) one_host s ∧ races s (Syn 0)
        ∧ running s !! Main 0 ≫= head = Some (Assign (Loop_of (Syn 0))))
  ∧ (∃ s, rtc (step some_mac) one_host s ∧ races s (Syn 0)
          ∧ perform some_mac (Watcher 0 0) None s = Some (Faulty Cancel_of_joined))
  ∧ (∃ s, rtc (step some_mac) one_host s
          ∧ perform some_mac (Listener 0) None s = Some (Faulty Uncaught_exception)).
Proof.
  split_and!; [exists (after starting_run)|exists (after joined_run)|exists (after failing_run)]; split_and!;
    try (by apply after_reachable; vm_compute); try by vm_compute.
  - exists (Main 0), (Watcher 0 0), (Assign (Loop_of (Syn 0))), (Joinable (Syn 0)).
    split_and!; [done|by vm_compute|by vm_compute|by left|by left].
  - exists (Main 0), (Watcher 0 0), (Clear (Loop_of (Syn 0))), (Cancel (Syn 0)).
    split_and!; [done|by vm_compute|by vm_compute|by right|by right].
Qed.

Theorem lifetimes_safe_witness :
  all_done (after syn_run) ∧ given_back (after syn_run)
  ∧ ∀ t e f, perform some_mac t e (after syn_run) = Some (Faulty f) → f = Cancel_of_joined ∨ f = Uncaught_exception.
Proof.
  destruct (lifetimes_safe some_mac {[ 0 := [(1, Loops)] ]} (after syn_run)) as [Hsafe Hback].
  { apply after_reachable. by vm_compute. }
  assert (all_done (after syn_run)) as Hdone.
  { intros h k. destruct h as [|h]; [by vm_compute; intros [= <-]|].
    intros Hk. assert (Main (S h) ∈ dom (running (after syn_run))) as Hin by by eapply elem_of_dom_2.
    assert (dom (running (after syn_run)) = {[ Main 0 ]}) as Hd by (clear; vm_compute; reflexivity). rewrite Hd in Hin. apply elem_of_singleton in Hin. discriminate Hin. }
  split; [done|]. split; [by apply Hback|done].
Defined.
