(* ===== verification/Settling.v ===== *)
(** * The threads come to rest

    What the threads of [Session.v] do on their own ends: without packets, answers and
    signals there is no endless run.  Where it ends every thread is done, waits for
    something from outside (or for a thread which does), or for a mutex it holds
    itself. *)
From Stdlib Require Import Relation_Operators Inverse_Image Lexicographic_Product.
From S2P Require Import Prelude ContainerUtils IntUtils NetText System Pcap WolWatcher Session Discipline Lifetimes.

(** Thread by thread, without anything from outside *)
Definition internal `{Families} (mac_of : nat → list Z) (s s' : state) : Prop :=
  ∃ t k, perform mac_of t None s = Some (Next s' k).

(** ** A measure

    First what the code still has to do apart from [break_loop], then what is left of
    the calls of [break_loop]. *)
Definition start_cost (t : thread) : nat :=
  match t with Main _ => 1 | Listener _ => 8 | Watcher _ _ => 5 | Loop_of _ => 3 end.
Definition cost (x : instr) : nat :=
  match x with
  | Start t => start_cost t
  | Join_if_joinable _ => 3
  | Load _ _ | Pcap_loop _ _ => 2
  | Set_reason _ _ | Breakloop _ | Joinable _ | Cancel _ | Each _ => 0
  | _ => 1
  end.
Definition break_cost (x : instr) : nat :=
  match x with
  | Set_reason _ _ | Breakloop _ | Cancel _ => 1
  | Joinable _ => 2
  | Each cs => 1 + 5 * length cs
  | _ => 0
  end.
Definition sum_running (f : instr → nat) (r : gmap thread code) : nat :=
  map_fold (λ _ k n, sum_list_with f k + n) 0 r.
Definition measure (s : state) : nat * nat := (sum_running cost (running s), sum_running break_cost (running s)).
Definition less : relation (nat * nat) := slexprod nat nat lt lt.

Section sums.
Context (f : instr → nat).
Lemma sum_insert t k r : r !! t = None → sum_running f (<[t := k]> r) = (sum_list_with f k + sum_running f r)%nat.
Proof. intros Ht. apply (map_fold_insert_L (λ _ k n, sum_list_with f k + n)%nat); [intros; lia|done]. Qed.
Lemma sum_delete t k r : r !! t = Some k → sum_running f r = (sum_list_with f k + sum_running f (delete t r))%nat.
Proof. intros Ht. apply (map_fold_delete_L (λ _ k n, sum_list_with f k + n)%nat); [intros; lia|done]. Qed.
Lemma sum_continue t k k' r :
  r !! t = Some k → (sum_running f (<[t := k']> r) + sum_list_with f k = sum_running f r + sum_list_with f k')%nat.
Proof.
  intros Ht. rewrite <- insert_delete_eq, sum_insert by apply lookup_delete_eq. rewrite (sum_delete t k r Ht). lia.
Qed.
End sums.

(** Starting a thread costs more than what the thread does. *)
Lemma body_cost `{Families} t : (sum_list_with cost (thread_body t) < start_cost t)%nat ∧ sum_list_with break_cost (thread_body t) = 0%nat.
Proof. destruct t as [| |h i|[]]; cbn; [lia..|destruct (is_ipv6 h i); cbn; lia|lia|lia]. Qed.

(** What an instruction of [t] makes of the threads *)
Lemma exec_running `{Families} t x k s s' k' :
  running s !! t = Some (x :: k) → exec t x s = Next s' k' →
  (running s' = running s ∧ (∀ t', x ≠ Start t'))
  ∨ (∃ t', x = Start t' ∧ running s !! t' = None ∧ running s' = <[t' := thread_body t']> (running s) ∧ k' = [])
  ∨ (∃ t', x = Wait t' ∧ running s !! t' = Some [] ∧ running s' = delete t' (running s) ∧ k' = []).
Proof.
  intros Ht. destruct x as [| |t'|t'| |t'|t'| | | | | | | | |c| | | | | |[]| |h i| | |];
    cbn [exec]; unfold access_member, access, end_loop; intros He;
    repeat (case_match; simplify_eq); try done; simplify_eq/=.
  all: first [left; by split | right; left; eexists; split_and!; [done|done|try done; unfold thread_body; match goal with E : is_ipv6 _ _ = _ |- _ => rewrite E end; done|done]
    | right; right; eexists; by split_and!].
Qed.

Lemma less_intro a b a' b' : (a < a' ∨ a = a' ∧ b < b')%nat → less (a, b) (a', b').
Proof. intros [?|[-> ?]]; [by constructor 1|by constructor 2]. Qed.
Lemma less_elim a b a' b' : less (a, b) (a', b') → (a < a' ∨ a = a' ∧ b < b')%nat.
Proof. inversion 1; auto. Qed.

(** What an instruction leaves to be done is less than itself. *)
Lemma after_loop_cost c ler : sum_list_with cost (after_loop c ler) = 0%nat.
Proof. unfold after_loop. destruct c; [done|]. by case_decide. Qed.
Lemma exec_cost `{Families} t x s s' k' :
  (∀ t', x ≠ Start t') → exec t x s = Next s' k' →
  less (sum_list_with cost k', sum_list_with break_cost k') (cost x, break_cost x).
Proof.
  intros Hx. destruct x as [| |t'|t'| |t'|t'| | | | | | | | |c| | | | | |[]| |h i| | |];
    cbn [exec]; unfold access_member, access, end_loop; intros He;
    repeat (case_match; simplify_eq); simplify_eq; try (exfalso; by eapply Hx).
  all: apply less_intro; rewrite ?after_loop_cost; cbn; rewrite ?sum_list_with_app; cbn; lia.
Qed.

Lemma internal_less `{Families} mac_of s s' : internal mac_of s s' → less (measure s') (measure s).
Proof.
  intros (t & k0 & Hp). unfold perform in Hp. destruct (running s !! t) as [[|x k]|] eqn:Ht; try done.
  cbn in Hp. destruct (exec t x s) as [s1 k'| |f] eqn:He; try done. injection Hp as <- _.
  unfold measure, continue. cbn [running with_running].
  assert (∀ f, sum_list_with f (x :: k) = f x + sum_list_with f k)%nat as Hcons by done.
  pose proof (λ f, sum_continue f t (x :: k) (k' ++ k)) as Hcont.
  pose proof (λ f, sum_list_with_app f k' k) as Happ.
  destruct (exec_running t x k s s1 k' Ht He) as [[Hr Hx]|[(t' & -> & Hnone & Hr & ->)|(t' & -> & Hnil & Hr & ->)]].
  - pose proof (less_elim _ _ _ _ (exec_cost t x s s1 k' Hx He)) as Hless. rewrite Hr. apply less_intro.
    pose proof (Hcont cost _ Ht). pose proof (Hcont break_cost _ Ht). pose proof (Hcons cost). pose proof (Hcons break_cost).
    pose proof (Happ cost). pose proof (Happ break_cost). lia.
  - assert (running s1 !! t = Some (Start t' :: k)) as Ht1.
    { rewrite Hr, lookup_insert_ne; [done|]. intros ->. congruence. }
    apply less_intro. pose proof (Hcont cost _ Ht1). pose proof (Hcons cost). destruct (body_cost t') as [Hc _].
    assert (sum_running cost (running s1) = sum_list_with cost (thread_body t') + sum_running cost (running s))%nat
      by (rewrite Hr; by apply sum_insert). cbn in *. lia.
  - assert (running s1 !! t = Some (Wait t' :: k)) as Ht1.
    { rewrite Hr, lookup_delete_ne; [done|]. intros ->. congruence. }
    apply less_intro. pose proof (Hcont cost _ Ht1). pose proof (Hcons cost).
    pose proof (sum_delete cost t' [] (running s) Hnil) as Hsum. rewrite <- Hr in Hsum. cbn in *. lia.
Qed.

(** ** Rest *)
Lemma less_wf : well_founded less.
Proof. apply wf_slexprod; apply Nat.lt_wf_0. Qed.
Lemma internal_ends `{Families} mac_of s : Acc (flip (internal mac_of)) s.
Proof.
  induction (wf_inverse_image _ _ _ measure less_wf s) as [s _ IH]. constructor. intros s' Hs'.
  by apply IH, (internal_less mac_of).
Qed.

(** The threads which can do a step *)
Definition goes_on `{Families} (mac_of : nat → list Z) (s : state) (t : thread) : bool :=
  match perform mac_of t None s with Some (Next _ _) => true | _ => false end.
Lemma internal_or_not `{Families} mac_of s :
  (∃ s', internal mac_of s s') ∨ ∀ t, goes_on mac_of s t = false.
Proof.
  destruct (decide (Exists (λ t, goes_on mac_of s t = true) (elements (dom (running s))))) as [Hex|Hnone].
  - left. apply Exists_exists in Hex as (t & _ & Ht). unfold goes_on in Ht.
    destruct (perform mac_of t None s) as [[s' k| |]|] eqn:Hp; try done. by exists s', t, k.
  - right. intros t. destruct (goes_on mac_of s t) eqn:Ht; [|done]. destruct Hnone. apply Exists_exists.
    exists t. split; [|done]. apply elem_of_elements. unfold goes_on, perform in Ht.
    destruct (running s !! t) eqn:Hk; [by eapply elem_of_dom_2|done].
Qed.

Lemma rest `{Families} mac_of s : ∃ s', rtc (internal mac_of) s s' ∧ ∀ t, goes_on mac_of s' t = false.
Proof.
  induction (internal_ends mac_of s) as [s _ IH].
  destruct (internal_or_not mac_of s) as [[s' Hs']|Hnone]; [|by exists s].
  destruct (IH s' Hs') as (s'' & Hrtc & Hrest). exists s''. split; [by eapply rtc_l|done].
Qed.

Lemma internal_step `{Families} mac_of s s' : internal mac_of s s' → step mac_of s s'.
Proof. intros (t & k & Hp). by exists t, None, k. Qed.

(** Thread [t] waits, in the end, for a thread which waits for a packet, an answer or a
    command, for one which waits for a mutex it holds itself, or for one of which [P] holds. *)
Definition held_up (s : state) (P : thread → Prop) (t : thread) : Prop :=
  ∃ t', rtc (waits_for s) t t' ∧ (waits_outside s t' ∨ waits_for s t' t' ∨ P t').
Definition faulty `{Families} (mac_of : nat → list Z) (s : state) (t : thread) : Prop :=
  ∃ f, perform mac_of t None s = Some (Faulty f).

(** C9: nobody waits in a circle, and left alone the threads come to rest.  In every
    reachable state a thread which has something left to do waits, in the end, for a
    thread which can go on, or which waits for a packet, for an answer of the neighbours
    or for a firewall command, or for a mutex which it holds itself (a signal handler
    which has interrupted a holder of [pcaps_mutex]).  There is no endless run without
    something from outside (a packet, an error or a timeout of a capture, an answer, the
    end of a command, a signal).  Where such a run
    ends nobody can go on, unless into a fault. *)
Theorem comes_to_rest `{Families} mac_of hosts s :
  rtc (step mac_of) (initial hosts) s →
  (∀ t x k, running s !! t = Some (x :: k) → held_up s (moves mac_of s) t)
  ∧ Acc (flip (internal mac_of)) s
  ∧ ∃ s', rtc (internal mac_of) s s'
    ∧ ∀ t x k, running s' !! t = Some (x :: k) → held_up s' (faulty mac_of s') t.
Proof.
  intros Hs. split_and!; [|apply internal_ends|].
  { intros t x k Ht. destruct (waiting_ends mac_of s (reachable_orderly _ _ _ Hs) (S (depth t)) t x k)
      as (t' & Hw & Hend); [lia|done|]. exists t'. tauto. }
  destruct (rest mac_of s) as (s' & Hrtc & Hrest). exists s'. split; [done|]. intros t x k Ht.
  assert (orderly s') as Hs'.
  { eapply reachable_orderly. etrans; [exact Hs|]. eapply rtc_subrel; [|exact Hrtc]. apply internal_step. }
  destruct (waiting_ends mac_of s' Hs' (S (depth t)) t x k) as (t' & Hw & [(r & Hp & Hr)|[?|?]]); [lia|done|..];
    exists t'; (split; [done|]); auto.
  right. right. specialize (Hrest t'). unfold goes_on in Hrest. rewrite Hp in Hrest.
  destruct r; try done. by eexists.
Qed.

#[local] Existing Instance some_families.

Theorem comes_to_rest_witness :
  (∀ t x k, running (after starting_run) !! t = Some (x :: k) →
     held_up (after starting_run) (moves some_mac (after starting_run)) t)
  ∧ Acc (flip (internal some_mac)) (after starting_run)
  ∧ ∃ s', rtc (internal some_mac) (after starting_run) s'
    ∧ ∀ t x k, running s' !! t = Some (x :: k) → held_up s' (faulty some_mac s') t.
Proof. apply (comes_to_rest some_mac {[ 0 := [(1, Loops)] ]}). by apply after_reachable; vm_compute. Defined.
