(* ===== verification/Breaking.v ===== *)
(** * Breaking a capture

    [pcap_breakloop] only sets a flag, which [pcap_loop] looks at before it waits for
    a packet; a thread which waits already is ended with [pthread_cancel], by way of
    the member [loop_thread].  Shown here for the machine of [Session.v]: where no
    thread looks at that member between the start of the thread and its assignment, a
    thread which waits for a packet on a broken capture has been cancelled, or the
    [break_loop] which broke the capture is still at it. *)
From S2P Require Import Prelude ContainerUtils IntUtils NetText System Pcap WolWatcher Session Discipline Lifetimes Settling.

(** ** Within a call of [break_loop]

    What a thread owes a capture: it has set the flag, and is yet to look at
    [loop_thread] or to cancel the thread. *)
Definition owes (c : capture) (x : instr) : Z :=
  match x with
  | Breakloop c' => if decide (c' = c) then -1 else 0
  | Joinable c' | Cancel c' => if decide (c' = c) then 1 else 0
  | _ => 0
  end.
Fixpoint debt (c : capture) (k : code) : Z :=
  match k with [] => 0 | x :: k => owes c x + debt c k end.

(** The instructions at which a thread waits for something which is not the mutex, and
    those which lead to one *)
Definition pauses (x : instr) : bool :=
  takes_happening x
  || match x with Wait _ | Join_if_joinable _ | Pcap_loop _ _ | Load _ _ => true | _ => false end.

(** Calls of [break_loop] are whole: what is left of a code looks at [loop_thread] at
    least as often as it sets the flag, and just as often where the thread may wait. *)
Fixpoint whole (c : capture) (k : code) : Prop :=
  match k with
  | [] => True
  | x :: k => (0 ≤ debt c (x :: k))%Z ∧ (pauses x = true → debt c k = 0%Z) ∧ whole c k
  end.

Lemma debt_app c k1 k2 : debt c (k1 ++ k2) = (debt c k1 + debt c k2)%Z.
Proof. induction k1; cbn; lia. Qed.
Lemma whole_debt c k : whole c k → (0 ≤ debt c k)%Z.
Proof. destruct k; [done|]. by intros []. Qed.
Lemma pauses_owes c x : pauses x = true → owes c x = 0%Z.
Proof. by destruct x. Qed.

Lemma owes_positive c x : (owes c x ≤ 0)%Z ∨ x = Cancel c ∨ x = Joinable c.
Proof. destruct x; cbn; try case_decide; subst; auto; left; lia. Qed.

(** Code which is whole may be put before code to which nothing is owed, and code
    which does not wait before any other. *)
Lemma whole_app c k1 k2 :
  whole c k1 → whole c k2 → (debt c k2 = 0%Z ∨ Forall (λ x, pauses x = false) k1) → whole c (k1 ++ k2).
Proof.
  intros H1 H2 Hor. pose proof (whole_debt _ _ H2). induction k1 as [|x k1 IH]; [done|].
  destruct H1 as (Hd & Hp & H1). cbn [app whole]. split_and!.
  - change (0 ≤ debt c ((x :: k1) ++ k2))%Z. rewrite debt_app. lia.
  - intros Hx. rewrite debt_app, Hp by done. destruct Hor as [->|Hall]; [done|].
    apply Forall_cons in Hall as [Hno _]. congruence.
  - apply IH; [done|]. destruct Hor as [?|Hall]; [by left|right]. by apply Forall_cons in Hall as [_ ?].
Qed.

(** Code at whose ends nothing is owed *)
Definition tidy (k : code) : Prop := ∀ c, whole c k ∧ debt c k = 0%Z.
Lemma tidy_nil : tidy [].
Proof. done. Qed.
Lemma tidy_app k1 k2 : tidy k1 → tidy k2 → tidy (k1 ++ k2).
Proof.
  intros H1 H2 c. destruct (H1 c) as [W1 D1], (H2 c) as [W2 D2]. split; [|rewrite debt_app; lia].
  apply whole_app; auto.
Qed.
Lemma tidy_cons x k : (∀ c, owes c x = 0%Z) → tidy k → tidy (x :: k).
Proof.
  intros Hx Hk c. destruct (Hk c) as [W D]. cbn. rewrite Hx, D. by split_and!.
Qed.
Lemma tidy_break_loop c ler : tidy (break_loop_steps c ler).
Proof. intros c'. cbn. destruct (decide (c = c')); by split_and!. Qed.
Lemma tidy_break_loop_cons c ler k : tidy k → tidy (Set_reason c ler :: Breakloop c :: Joinable c :: k).
Proof. apply (tidy_app (break_loop_steps c ler)), tidy_break_loop. Qed.
Lemma tidy_bind {A} (f : A → code) l : (∀ a, tidy (f a)) → tidy (l ≫= f).
Proof. intros Hf. induction l as [|a l IH]; [apply tidy_nil|]. by apply tidy_app. Qed.
Create HintDb tidy.
#[export] Hint Resolve tidy_nil tidy_app tidy_cons tidy_break_loop tidy_break_loop_cons tidy_bind : tidy.
#[export] Hint Extern 1 (∀ c, owes c _ = 0%Z) => done : tidy.

(** The codes of the threads *)
Lemma tidy_loop c : tidy (loop_steps c).
Proof. repeat apply tidy_cons; auto with tidy. Qed.
Lemma tidy_body `{Families} t : tidy (thread_body t).
Proof.
  destruct t as [| |h i|[]]; cbn [thread_body]; [apply tidy_nil|apply tidy_loop| | |];
    [destruct (is_ipv6 h i)|..]; repeat apply tidy_cons; auto with tidy.
Qed.
Lemma tidy_take h g : tidy (guard_take h g).
Proof. destruct g; repeat apply tidy_cons; auto with tidy. Qed.
Lemma tidy_release h g : tidy (guard_release h g).
Proof.
  destruct g; cbn [guard_release]; unfold wol_stop_steps, stop_watcher_steps;
    repeat first [apply tidy_app | apply tidy_break_loop | apply tidy_cons]; auto with tidy.
Qed.
#[export] Hint Resolve tidy_loop tidy_body tidy_take tidy_release : tidy.
Lemma tidy_session h n how : tidy (session h n how).
Proof.
  unfold session. apply tidy_app; [by apply tidy_cons|]. apply tidy_app; [by auto with tidy|].
  apply tidy_app; [destruct how as [[]| |]; cbn [throwing]; auto with tidy; repeat apply tidy_cons; auto with tidy|].
  apply tidy_app; [destruct how; cbn [looping]; auto with tidy|].
  apply tidy_app; [by auto with tidy|by apply tidy_cons].
Qed.

(** *** Steps *)
Abbreviation prompt := (Forall (λ x, pauses x = false)).

Section steps.
Context `{Families}.

Lemma perform_cases mac_of t e s s' k0 :
  perform mac_of t e s = Some (Next s' k0) →
  ∃ x k s1 k' kr, running s !! t = Some (x :: k) ∧ s' = continue t (k' ++ kr) s1
    ∧ ((e = None ∧ exec t x s = Next s1 k' ∧ kr = k)
       ∨ ∃ ev, e = Some ev ∧ happen mac_of ev (x :: k) s = Some (Next s1 k', kr)).
Proof.
  intros Hp. unfold perform in Hp. destruct (running s !! t) as [k|] eqn:Hk; [|done]. cbn in Hp. destruct e as [ev|].
  - destruct (happen mac_of ev k s) as [[r kr]|] eqn:He; [|done]. destruct k as [|x k]; [by destruct ev as [| | |[[]|]|[]|]|].
    destruct r as [s1 k'| |f]; try done. injection Hp as <- _. exists x, k, s1, k', kr. split_and!; eauto.
  - destruct k as [|x k]; [done|]. cbn in Hp. destruct (exec t x s) as [s1 k'| |f] eqn:He; try done.
    injection Hp as <- _. exists x, k, s1, k', k. split_and!; auto.
Qed.

(** What instructions push *)
Lemma exec_tidy t x s s' k' :
  exec t x s = Next s' k' →
  (tidy k' ∧ (pauses x = true ∨ prompt k')) ∨ ∃ c, x = Joinable c ∧ k' = [Cancel c].
Proof.
  destruct x as [| |t'|t'|t1|t'|t'| | | | | | | | |c| | | | | |[]| | | | |];
    cbn [exec]; unfold access_member, access, end_loop; intros He;
    repeat (case_match; simplify_eq); simplify_eq; eauto with tidy.
  all: left; unfold after_loop; repeat case_match; split.
  all: first [by auto with tidy | by left | right; by repeat constructor].
Qed.

Lemma exec_whole c t x s s' k' k :
  exec t x s = Next s' k' → whole c (x :: k) →
  whole c (k' ++ k)
  ∧ (debt c (k' ++ k) = (debt c (x :: k) - owes c x)%Z ∨ ∃ c', x = Joinable c' ∧ k' = [Cancel c'] ∧ debt c (k' ++ k) = debt c (x :: k)).
Proof.
  intros He (Hd & Hp & Hk). destruct (exec_tidy _ _ _ _ _ He) as [[Ht Hor]|(c' & -> & ->)].
  - destruct (Ht c) as [W D]. split; [|left; rewrite debt_app, D; cbn; lia].
    apply whole_app; [done..|]. destruct Hor; auto.
  - split; [by split_and!|]. right. by exists c'.
Qed.

(** Packets and answers come where the thread waits. *)
Lemma callback_tidy mac_of c data : tidy (callback mac_of c data).
Proof. destruct c; cbn; [apply tidy_nil|]. case_match; auto with tidy. Qed.
Lemma happen_whole mac_of c e x k s s1 k' kr :
  happen mac_of e (x :: k) s = Some (Next s1 k', kr) → whole c (x :: k) →
  whole c (k' ++ kr) ∧ debt c (k' ++ kr) = debt c (x :: k).
Proof.
  intros He (Hd & Hp & Hk). destruct (decide (e = Signal)) as [->|Hns].
  { injection He as <- <- <-. by split_and!. }
  destruct (happen_head mac_of s e (x :: k) _ Hns He) as (? & ? & [= <- <-] & Hx).
  assert (debt c k = 0%Z) as D0 by (apply Hp; unfold pauses; by rewrite Hx).
  assert (debt c (x :: k) = 0%Z) as -> by (cbn; rewrite D0, pauses_owes; [done|unfold pauses; by rewrite Hx]).
  enough (tidy k' ∧ whole c kr ∧ debt c kr = 0%Z) as (Ht & Wr & Dr).
  { destruct (Ht c) as [W D]. split; [apply whole_app; auto|rewrite debt_app; lia]. }
  destruct x; try done; destruct e as [data| | |[[]|]|[]|]; cbn [happen] in He; unfold access in He; try done;
    repeat (case_match; simplify_eq/=); simplify_eq/=; (split_and!; [|try tauto..]).
  all: repeat first [apply callback_tidy | apply tidy_nil | apply tidy_break_loop_cons | apply tidy_app | apply tidy_cons; [done|]].
Qed.
End steps.

(** ** The window of [loop]

    [loop] has started its thread and has not assigned [loop_thread] yet. *)
Definition in_window (s : state) (c : capture) : Prop :=
  Loop_of c ∈ dom (running s) ∧ Loop_of c ∉ members s.
#[export] Instance in_window_dec s c : Decision (in_window s c).
Proof. unfold in_window. apply _. Defined.

(** [break_loop] looks at [loop_thread] in the window. *)
Definition hasty (s : state) (t : thread) (e : option happening) : bool :=
  match e, running s !! t with
  | None, Some (Joinable c :: _) => bool_decide (in_window s c)
  | _, _ => false
  end.
Definition timely_step `{Families} (mac_of : nat → list Z) (s s' : state) : Prop :=
  ∃ t e k, perform mac_of t e s = Some (Next s' k) ∧ hasty s t e = false.
(** Every step of a schedule is timely. *)
Fixpoint timely `{Families} (mac_of : nat → list Z) (schedule : list (thread * option happening)) (s : state) : bool :=
  match schedule with
  | [] => true
  | (t, e) :: schedule =>
      negb (hasty s t e)
      && match perform mac_of t e s with Some (Next s' _) => timely mac_of schedule s' | _ => true end
  end.

Lemma timely_is_step `{Families} mac_of s s' : timely_step mac_of s s' → step mac_of s s'.
Proof. intros (t & e & k & Hp & _). by exists t, e, k. Qed.
Lemma timely_steps `{Families} mac_of schedule s s' :
  run mac_of schedule s = Some s' → timely mac_of schedule s = true → rtc (timely_step mac_of) s s'.
Proof.
  revert s. induction schedule as [|[t e] schedule IH]; intros s; cbn; [by intros [= ->]|].
  destruct (perform mac_of t e s) as [[s1 k| |]|] eqn:Hp; try done.
  intros Hrun [Hh Ht]%andb_true_iff. apply negb_true_iff in Hh.
  eapply rtc_l; [by exists t, e, k|by apply IH].
Qed.

(** ** A broken capture is not waited for *)
Definition waits_in_capture (s : state) (c : capture) : Prop :=
  ∃ n k, running s !! Loop_of c = Some k ∧ Capturing c n ∈ k.
Definition broken (s : state) (c : capture) : Prop := ∃ p, wrappers s !! c = Some p ∧ break_flag p = true.
(** A thread is within a call of [break_loop] on the capture. *)
Definition breaks (s : state) (c : capture) (t : thread) : Prop :=
  ∃ k, running s !! t = Some k ∧ (0 < debt c k)%Z.

Record breaks_right (s : state) : Prop := {
  codes_whole t k c : running s !! t = Some k → whole c k;
  broken_ends c : waits_in_capture s c → broken s c → Loop_of c ∈ cancelled s ∨ ∃ t, breaks s c t
}.

(** *** What instructions do to a capture and its thread *)
Section changes.
Context `{Families}.

Lemma exec_broken t x s s' k' c :
  exec t x s = Next s' k' → broken s' c → x = Breakloop c ∨ broken s c.
Proof.
  intros He (p & Hp & Hf). assert (∀ c' p0 p1, wrappers s !! c' = Some p0 → break_flag p1 = break_flag p0 →
    <[c' := p1]> (wrappers s) !! c = Some p → broken s c) as Hkept.
  { intros c' p0 p1 H0 H1 [[-> ->]|[_ Hin]]%lookup_insert_Some; [exists p0|exists p]; split; congruence. }
  assert (wrappers s !! c = Some p → broken s c) as Hsame by (intros H1; by exists p).
  revert Hp.
  destruct x as [| |t'|t'|t1|t'|t'| | | | | | | | |c'| | | | | |[]| | | | |];
    cbn [exec] in He; unfold access_member, access, end_loop in He;
    repeat (case_match; simplify_eq); simplify_eq; cbn [wrappers with_wrapper without_wrapper with_cancelled
      with_members with_running with_lock with_registry with_watching continue]; auto.
  all: intros Hin; try (right; eapply Hkept; [| |exact Hin]; [eassumption|reflexivity]).
  - apply lookup_insert_Some in Hin as [[_ <-]|[_ Hin]]; [discriminate Hf|by right; apply Hsame].
  - apply lookup_delete_Some in Hin as [_ Hin]. by right; apply Hsame.
  - apply lookup_insert_Some in Hin as [[-> _]|[_ Hin]]; [by left|by right; apply Hsame].
  - apply lookup_insert_Some in Hin as [[_ <-]|[_ Hin]]; [discriminate Hf|by right; apply Hsame].
Qed.

Lemma exec_cancelled t x s s' k' c :
  exec t x s = Next s' k' → x ≠ Start (Loop_of c) → Loop_of c ∈ cancelled s → Loop_of c ∈ cancelled s'.
Proof.
  intros He Hne Hc.
  destruct x as [| |t'|t'|t1|t'|t'| | | | | | | | |c'| | | | | |[]| | | | |];
    cbn [exec] in He; unfold access_member, access, end_loop in He;
    repeat (case_match; simplify_eq); simplify_eq; cbn; try done.
  all: set_solver.
Qed.

(** Waiting in a capture starts where the flag is not set. *)
Lemma exec_capturing t x s s' k' c n :
  exec t x s = Next s' k' → Capturing c n ∈ k' → s' = s ∧ ¬ broken s c.
Proof.
  intros He Hin. assert (∀ c' ler, Capturing c n ∉ after_loop c' ler) as Hafter
    by (intros c' ler; unfold after_loop; repeat case_match; set_solver).
  destruct x as [| |t'|t'|t1|t'|t'| | | | | | | | |c'| | | | | |[]| | | | |];
    cbn [exec] in He; unfold access_member, access, end_loop in He;
    repeat (case_match; simplify_eq); simplify_eq; try (by set_solver); try (by destruct (Hafter _ _ Hin)).
  apply list_elem_of_singleton in Hin as [= -> ->]. split; [done|]. intros (p & Hp & Hf). congruence.
Qed.

(** What comes from outside does not start one, and changes no capture. *)
Lemma happen_capturing mac_of e x k s s1 k' kr c n :
  happen mac_of e (x :: k) s = Some (Next s1 k', kr) →
  s1 = s ∧ (Capturing c n ∈ k' ++ kr → Capturing c n ∈ x :: k).
Proof.
  intros He. assert (∀ c' data, Capturing c n ∉ callback mac_of c' data) as Hcall
    by (intros c' data; destruct c'; cbn; repeat case_match; set_solver).
  destruct e as [data| | |[[]|]|[]|], x; cbn [happen] in He; try done; unfold access in He;
    repeat (case_match; simplify_eq); simplify_eq; (split; [done|]).
  all: rewrite ?elem_of_app; specialize (Hcall c0 data) || idtac; set_solver.
Qed.

(** Who runs what afterwards *)
Lemma exec_others t x k s s1 k' t1 k1 :
  running s !! t = Some (x :: k) → exec t x s = Next s1 k' → running s1 !! t1 = Some k1 →
  running s !! t1 = Some k1 ∨ k1 = thread_body t1.
Proof.
  intros Hk He. destruct (exec_running t x k s s1 k' Hk He) as [[-> _]|[(t' & _ & _ & -> & _)|(t' & _ & _ & -> & _)]]; [auto|..].
  - intros [[-> <-]|[_ ?]]%lookup_insert_Some; auto.
  - intros [_ ?]%lookup_delete_Some; auto.
Qed.
Lemma exec_others_stay t x k s s1 k' t1 y k1 :
  running s !! t = Some (x :: k) → exec t x s = Next s1 k' →
  running s !! t1 = Some (y :: k1) → running s1 !! t1 = Some (y :: k1).
Proof.
  intros Hk He Ht. destruct (exec_running t x k s s1 k' Hk He) as [[-> _]|[(t' & _ & Hnone & -> & _)|(t' & _ & Hnil & -> & _)]]; [done|..].
  - rewrite lookup_insert_ne; [done|congruence].
  - rewrite lookup_delete_ne; [done|congruence].
Qed.
End changes.

(** *** Every timely step *)
Section step.
Context `{Families} (mac_of : nat → list Z) (t : thread) (e : option happening) (s s' : state).
Context (x : instr) (k : code) (s1 : state) (k' kr : code).
Context (Hk : running s !! t = Some (x :: k)) (Heq : s' = continue t (k' ++ kr) s1).
Context (Hcase : (e = None ∧ exec t x s = Next s1 k' ∧ kr = k)
  ∨ ∃ ev, e = Some ev ∧ happen mac_of ev (x :: k) s = Some (Next s1 k', kr)).

Lemma running_after t1 : running s' !! t1 = if decide (t1 = t) then Some (k' ++ kr) else running s1 !! t1.
Proof. rewrite Heq. cbn. case_decide as Ht; [by rewrite Ht, lookup_insert_eq|by rewrite lookup_insert_ne]. Qed.

(** The other threads: only a thread which is started changes its code. *)
Lemma others t1 k1 : t1 ≠ t → running s' !! t1 = Some k1 → running s !! t1 = Some k1 ∨ k1 = thread_body t1.
Proof.
  intros Hne. rewrite running_after, decide_False by done.
  destruct Hcase as [(_ & He & _)|(ev & _ & He)]; [exact (exec_others t x k s s1 k' t1 k1 Hk He)|].
  destruct (happen_capturing mac_of ev x k s s1 k' kr (Syn 0) 0 He) as [-> _]. auto.
Qed.
Lemma others_stay t1 y k1 : t1 ≠ t → running s !! t1 = Some (y :: k1) → running s' !! t1 = Some (y :: k1).
Proof.
  intros Hne Ht1. rewrite running_after, decide_False by done.
  destruct Hcase as [(_ & He & _)|(ev & _ & He)]; [exact (exec_others_stay t x k s s1 k' t1 y k1 Hk He Ht1)|].
  by destruct (happen_capturing mac_of ev x k s s1 k' kr (Syn 0) 0 He) as [-> _].
Qed.
Lemma broken_after c : broken s' c → broken s1 c.
Proof. by rewrite Heq. Qed.

Lemma whole_after c : whole c (x :: k) → whole c (k' ++ kr).
Proof.
  intros Hw. destruct Hcase as [(_ & He & ->)|(ev & _ & He)].
  - by destruct (exec_whole c t x s s1 k' k He Hw).
  - by destruct (happen_whole mac_of c ev x k s s1 k' kr He Hw).
Qed.

Lemma waits_after c : waits_in_capture s' c → waits_in_capture s c ∨ ¬ broken s' c.
Proof.
  intros (n & k1 & Hrun & Hin). destruct (decide (Loop_of c = t)) as [Ht|Hne].
  - rewrite running_after, decide_True in Hrun by done. injection Hrun as <-.
    destruct Hcase as [(_ & He & Hkr)|(ev & _ & He)].
    + apply elem_of_app in Hin as [Hin|Hin].
      * right. destruct (exec_capturing t x s s1 k' c n He Hin) as [Hs1 Hno]. intros Hb%broken_after. by rewrite Hs1 in Hb.
      * left. exists n, (x :: k). rewrite Ht. split; [done|]. apply list_elem_of_further. by rewrite <- Hkr.
    + left. exists n, (x :: k). rewrite Ht. split; [done|].
      by apply (happen_capturing mac_of ev x k s s1 k' kr c n He).
  - left. destruct (others (Loop_of c) k1) as [Hold|Hnew]; [done..| |].
    + by exists n, k1.
    + rewrite Hnew in Hin. by destruct c; apply list_elem_of_singleton in Hin.
Qed.

(** A thread within [break_loop] stays there, until it has cancelled the thread or has
    found no thread to cancel. *)
Lemma breaks_after c t1 :
  whole c (x :: k) → breaks s c t1 →
  breaks s' c t1 ∨ (t1 = t ∧ e = None ∧ (x = Cancel c ∨ (x = Joinable c ∧ k' = []))).
Proof.
  intros Hw (k1 & Ht1 & Hd). destruct (decide (t1 = t)) as [->|Hne].
  - rewrite Hk in Ht1. injection Ht1 as <-. unfold breaks. setoid_rewrite running_after. rewrite decide_True by done.
    destruct Hcase as [(He & Hx & ->)|(ev & _ & He)].
    + destruct (exec_whole c t x s s1 k' k Hx Hw) as [_ [Hd'|(c' & _ & _ & Hd')]]; [|left; eexists; split; [done|lia]].
      destruct (owes_positive c x) as [?|[Hx'|Hx']]; [left; eexists; split; [done|lia]|by right; auto|].
      assert (k' = [] ∨ k' = [Cancel c]) as [Hnil|Hcancel]; [|by right; auto|].
      { rewrite Hx' in Hx. cbn in Hx. unfold access in Hx. repeat case_match; try done; injection Hx as _ <-; auto. }
      left. eexists. split; [done|]. rewrite Hcancel. by rewrite Hx' in Hd.
    + left. eexists. split; [done|]. by rewrite (proj2 (happen_whole mac_of c ev x k s s1 k' kr He Hw)).
  - left. destruct k1 as [|y k1]; [done|]. eexists. split; [by apply others_stay|done].
Qed.
End step.

Lemma exec_cancel `{Families} t c s s' k' : exec t (Cancel c) s = Next s' k' → Loop_of c ∈ cancelled s'.
Proof. cbn. unfold access. repeat case_match; try done. intros [= <- _]. cbn. set_solver. Qed.
Lemma exec_joinable_nil `{Families} t c s s' : exec t (Joinable c) s = Next s' [] → Loop_of c ∉ members s.
Proof. cbn. unfold access. repeat case_match; try done; by intros [= _]. Qed.

Section invariant.
Context `{Families} (mac_of : nat → list Z).

Lemma timely_breaks_right t e s s' k0 :
  breaks_right s → perform mac_of t e s = Some (Next s' k0) → hasty s t e = false → breaks_right s'.
Proof.
  intros [Hwhole Hends] (x & k & s1 & k' & kr & Hk & Heq & Hcase)%perform_cases Hh. split.
  - intros t1 k1 c Ht1. destruct (decide (t1 = t)) as [->|Hne].
    + rewrite Heq in Ht1. cbn in Ht1. rewrite lookup_insert_eq in Ht1. injection Ht1 as <-.
      by eapply whole_after; [..|by eapply Hwhole].
    + assert (running s !! t1 = Some k1 ∨ k1 = thread_body t1) as [?| ->] by (by eapply others); [by eapply Hwhole|].
      apply tidy_body.
  - intros c Hwait Hbroken.
    assert (waits_in_capture s c ∨ ¬ broken s' c) as [Hwait0|[]] by (by eapply waits_after); [|done].
    pose proof (Hwhole t (x :: k) c Hk) as Hw.
    assert (e = None → x ≠ Start (Loop_of c)) as Hstart.
    { intros -> ->. destruct Hcase as [(_ & He & _)|(ev & [=] & _)]. destruct Hwait0 as (n & k1 & Hrun & _).
      cbn in He. by rewrite Hrun in He. }
    assert (broken s c ∨ (e = None ∧ x = Breakloop c)) as [Hbroken0|[He Hx]].
    { destruct Hcase as [(-> & He & _)|(ev & -> & He)].
      - destruct (exec_broken t x s s1 k' c He) as [?|?]; [by rewrite Heq in Hbroken|auto..].
      - destruct (happen_capturing mac_of ev x k s s1 k' kr c 0 He) as [-> _]. left. by rewrite Heq in Hbroken. }
    + destruct (Hends c Hwait0 Hbroken0) as [Hc|[t1 Ht1]].
      * left. rewrite Heq. destruct Hcase as [(-> & He & _)|(ev & -> & He)].
        -- exact (exec_cancelled t x s s1 k' c He (Hstart eq_refl) Hc).
        -- by destruct (happen_capturing mac_of ev x k s s1 k' kr c 0 He) as [-> _].
      * assert (breaks s' c t1 ∨ (t1 = t ∧ e = None ∧ (x = Cancel c ∨ (x = Joinable c ∧ k' = [])))) as [?|(-> & -> & Hx)]
          by (by eapply breaks_after); [by right; exists t1|].
        destruct Hcase as [(_ & He & _)|(ev & [=] & _)]. left. rewrite Heq.
        destruct Hx as [->|[-> ->]]; [exact (exec_cancel t c s s1 k' He)|].
        exfalso. apply exec_joinable_nil in He. cbn in Hh. rewrite Hk in Hh. apply bool_decide_eq_false in Hh.
        destruct Hwait0 as (n & k1 & Hrun & _). apply Hh. split; [by eapply elem_of_dom_2|done].
    + right. exists t. destruct Hcase as [(_ & Hexec & ->)|(ev & Hev & _)]; [|congruence].
      exists (k' ++ k). rewrite Heq. split; [apply lookup_insert_eq|].
      destruct (exec_whole c t x s s1 k' k Hexec Hw) as [_ [Hd|(c' & Hj & _)]]; [|congruence].
      rewrite Hx in Hw, Hd. pose proof (whole_debt _ _ Hw). assert (owes c (Breakloop c) = -1)%Z by (cbn; by case_decide). lia.
Qed.

Lemma initial_breaks_right hosts : breaks_right (initial hosts).
Proof.
  split.
  - intros t k c (h & l & -> & _ & ->)%running_initial. apply tidy_bind. intros []. apply tidy_session.
  - by intros c (n & k & (h & l & [=] & _)%running_initial & _).
Qed.

Lemma reachable_breaks_right hosts s : rtc (timely_step mac_of) (initial hosts) s → breaks_right s.
Proof.
  revert s. apply (rtc_ind_r breaks_right (initial hosts)); [apply initial_breaks_right|].
  intros s s' _ (t & e & k & Hp & Hh) Hs. by eapply timely_breaks_right.
Qed.
End invariant.
