(* ===== verification/Stopping.v ===== *)
(** * What a host waits for while it takes its guards down

    [Wol_watcher::stop] and [Duplicate_address_watcher::stop_watcher] tell a thread to
    end and join it.  Shown here: the join does not wait for a packet, unless a
    [break_loop] has looked at [loop_thread] too early.  Whoever is joined has been told,
    and what it has been told stays in force until it has ended: the flag of
    [pcap_breakloop] is only used up by the loop it is meant for, and the flag of a
    watcher is not raised again; what the flag does not end, the cancellation does
    ([Breaking]).  And two runs in which a [break_loop] is too early, and is lost. *)
From S2P Require Import Prelude ContainerUtils IntUtils NetText System Pcap WolWatcher Session Discipline Lifetimes Settling Breaking.

(** ** Telling a thread to end

    The instruction of its host which tells a thread to end, the one after which it has
    to be told again, and those which join it *)
Definition tells (t : thread) (x : instr) : bool :=
  match t, x with
  | Listener h, Breakloop c => bool_decide (c = Wol h)
  | Watcher h i, Store h' i' b => bool_decide (h' = h ∧ i' = i) && negb b
  | _, _ => false
  end.
Definition arms (t : thread) (x : instr) : bool :=
  match t, x with
  | Listener h, Start t' => bool_decide (t' = Listener h)
  | Watcher h i, Store h' i' b => bool_decide (h' = h ∧ i' = i) && b
  | _, _ => false
  end.
Definition joins (t : thread) (x : instr) : bool :=
  match x with Wait t' | Join_if_joinable t' => bool_decide (t' = t) | _ => false end.

(** [k] joins [t] without telling it to end first. *)
Fixpoint awaits (t : thread) (k : code) : bool :=
  match k with
  | [] => false
  | x :: k => negb (tells t x || arms t x) && (joins t x || awaits t k)
  end.
(** Every thread is told before it is joined. *)
Fixpoint tells_first (t : thread) (k : code) : bool :=
  match k with
  | [] => true
  | x :: k => negb (arms t x && awaits t k) && tells_first t k
  end.

(** ** Having been told

    How often the listener of [h] can still come to [pcap_loop] *)
Definition is_loop (x : instr) : nat := match x with Pcap_loop _ _ | Capturing _ _ => 1 | _ => 0 end.
Definition is_start (h : nat) (x : instr) : nat :=
  match x with Start t => if decide (t = Loop_of (Wol h)) then 1 else 0 | _ => 0 end.
Definition code_of (s : state) (t : thread) : code := default [] (running s !! t).
Definition to_loop (h : nat) (s : state) : nat :=
  sum_list_with is_loop (code_of s (Loop_of (Wol h))) + sum_list_with (is_start h) (code_of s (Listener h)).

Definition told (t : thread) (s : state) : Prop :=
  match t with
  | Listener h => (0 < to_loop h s)%nat → ∀ p, wrappers s !! Wol h = Some p → break_flag p = true
  | Watcher h i => (h, i) ∉ watching s
  | _ => True
  end.

(** The host which tells a thread *)
Definition teller (t : thread) : option nat :=
  match t with Listener h | Watcher h _ => Some h | _ => None end.

(** Whom a host is about to join has been told, and a listener loops once. *)
Definition telling (s : state) : Prop :=
  (∀ t h k, teller t = Some h → running s !! Main h = Some k →
     tells_first t k = true ∧ (awaits t k = true → told t s))
  ∧ ∀ h, (to_loop h s ≤ 1)%nat.

(** *** What instructions leave behind *)
Definition mild (x : instr) : bool :=
  match x with
  | Start _ | Pcap_loop _ _ | Capturing _ _ | Wait _ | Join_if_joinable _ => false
  | Store _ _ b => negb b
  | _ => true
  end.

Lemma exec_pushes `{Families} t x s s' k' :
  exec t x s = Next s' k' →
  Forall mild k' ∨ (∃ t', x = Join_if_joinable t' ∧ k' = [Wait t'; Clear t'])
  ∨ (∃ c n, x = Pcap_loop c n ∧ k' = [Capturing c n]).
Proof.
  destruct x as [| |t'|t'|t1|t'|t'| | | | | | | | |c| | | | | |[]| | | | |];
    cbn [exec]; unfold access_member, access, end_loop; intros He;
    repeat (case_match; simplify_eq); simplify_eq; eauto 7.
  all: left; repeat constructor; unfold after_loop; repeat case_match; repeat constructor.
Qed.

Lemma exec_watching `{Families} t x s s' k' h i :
  exec t x s = Next s' k' → (h, i) ∈ watching s' →
  x = Store h i true ∨ ((h, i) ∈ watching s ∧ x ≠ Store h i false).
Proof.
  destruct x as [| |t'|t'|t1|t'|t'| | | | | | | | |c| | | | | |[]|h' i' []| | | |];
    cbn [exec]; unfold access_member, access, end_loop; intros He Hin;
    repeat (case_match; simplify_eq); simplify_eq/=; auto.
  - apply elem_of_union in Hin as [[= <- <-]%elem_of_singleton|Hin]; auto.
  - apply elem_of_difference in Hin as [Hin Hne]. right. split; [done|]. intros [= -> ->]. set_solver.
Qed.

(** A flag which is not raised was not raised before, or it was used up or is new. *)
Definition flag_kept (s : state) (x : instr) (k' : code) (c : capture) (p' : wrapper) : Prop :=
  break_flag p' = true ∨ x = Construct c ∨ (∃ n, x = Pcap_loop c n ∧ k' = [])
  ∨ ∃ p, wrappers s !! c = Some p ∧ break_flag p' = break_flag p.
Lemma exec_flag `{Families} t x s s' k' c p' :
  exec t x s = Next s' k' → wrappers s' !! c = Some p' → flag_kept s x k' c p'.
Proof.
  intros He. assert (∀ c' p0, flag_kept s x k' c' p0 →
    <[c' := p0]> (wrappers s) !! c = Some p' → flag_kept s x k' c p') as Hinsert.
  { intros c' p0 H0 [[<- <-]|[_ Hp]]%lookup_insert_Some; [done|]. right. right. right. by exists p'. }
  assert (wrappers s !! c = Some p' → flag_kept s x k' c p') as Hsame
    by (intros Hp; right; right; right; by exists p').
  assert (∀ c' p0 p, wrappers s !! c' = Some p → break_flag p0 = break_flag p → flag_kept s x k' c' p0) as Hkept
    by (intros c' p0 p Hp Hf; right; right; right; by exists p).
  revert Hinsert Hsame Hkept He.
  destruct x as [| |t'|t'|t1|t'|t'| | | | | | | | |c'| | | | | |[]|h' i' []| | | |];
    cbn [exec]; unfold access_member, access, end_loop; intros Hinsert Hsame Hkept He;
    repeat (case_match; simplify_eq); simplify_eq/=; try exact Hsame.
  all: try (apply Hinsert; by eapply Hkept).
  - apply Hinsert. right. by left.
  - intros [_ Hp]%lookup_delete_Some. by apply Hsame.
  - apply Hinsert. by left.
  - apply Hinsert. right. right. left. by eexists.
Qed.
Lemma exec_breakloop `{Families} t c s s' k' p' :
  exec t (Breakloop c) s = Next s' k' → wrappers s' !! c = Some p' → break_flag p' = true.
Proof.
  cbn. unfold access. destruct (wrappers s !! c); [|done]. intros [= <- <-]. cbn.
  rewrite lookup_insert_eq. by intros [= <-].
Qed.

(** *** Codes which go on *)
Lemma mild_neutral t x : mild x = true → arms t x = false ∧ joins t x = false.
Proof. destruct t, x as [| | | | | | | | | | | | | | | | | | | | | |? ? []| | | |]; cbn; try done; by rewrite andb_false_r. Qed.

Lemma awaits_mild t k' k : Forall mild k' → awaits t (k' ++ k) = true → awaits t k = true.
Proof.
  induction 1 as [|x k' Hx _ IH]; [done|]. apply Is_true_true, (mild_neutral t) in Hx as [_ Hj].
  cbn [app awaits]. rewrite Hj. intros [_ ?]%andb_true_iff. by apply IH.
Qed.
Lemma tells_first_mild t k' k : Forall mild k' → tells_first t (k' ++ k) = tells_first t k.
Proof.
  induction 1 as [|x k' Hx _ IH]; [done|]. apply Is_true_true, (mild_neutral t) in Hx as [Ha _].
  cbn [app tells_first]. by rewrite Ha, IH.
Qed.

(** After an instruction a thread is awaited which was awaited before, or it has just
    been told. *)
Lemma awaits_exec `{Families} t0 t x s s' k' k :
  exec t x s = Next s' k' → tells_first t0 (x :: k) = true →
  tells_first t0 (k' ++ k) = true
  ∧ (awaits t0 (k' ++ k) = true → arms t0 x = false ∧ (awaits t0 (x :: k) = true ∨ tells t0 x = true)).
Proof.
  intros He Hk. cbn [tells_first] in Hk. apply andb_true_iff in Hk as [Harm Hk].
  destruct (exec_pushes _ _ _ _ _ He) as [Hm|[(t' & -> & ->)|(c & n & -> & ->)]].
  - rewrite tells_first_mild by done. split; [done|]. intros Haw%awaits_mild; [|done].
    rewrite Haw in *. destruct (arms t0 x) eqn:Hx; [done|]. split; [done|]. cbn [awaits].
    rewrite Hx, Haw, orb_true_r. destruct (tells t0 x); auto.
  - cbn. rewrite !andb_true_iff. destruct t0; cbn in *; rewrite ?andb_true_r; auto.
  - cbn. destruct t0; cbn in *; auto.
Qed.

(** *** Steps *)
(** What happens from outside changes nothing but the code, and adds neither loops nor
    starts to it. *)
Lemma callback_mild mac_of c data : Forall mild (callback mac_of c data).
Proof. destruct c; cbn; [constructor|]. case_match; repeat constructor. Qed.
Definition outside_code (x : instr) (k k' kr : code) : Prop :=
  (Forall mild k' ∧ (kr = x :: k ∨ kr = k ∨ ∃ y z, k = y :: z :: kr))
  ∨ ∃ c n m k1, x = Capturing c n ∧ k' = k1 ++ [Pcap_loop c m] ∧ Forall mild k1 ∧ kr = k.
Lemma happen_code `{Families} mac_of ev x k s s1 k' kr :
  happen mac_of ev (x :: k) s = Some (Next s1 k', kr) →
  s1 = s ∧ outside_code x k k' kr ∧ (kr = x :: k ∨ takes_happening x = true).
Proof.
  intros He. destruct (decide (ev = Signal)) as [->|Hns].
  { injection He as <- <- <-. split_and!; [done| |auto]. left. split; [repeat constructor|auto]. }
  destruct (happen_head mac_of s ev (x :: k) _ Hns He) as (? & ? & [= <- <-] & Hx). unfold outside_code.
  destruct ev as [data| | |[[]|]|[]|], x; try done; cbn [happen] in He; unfold access in He;
    repeat (case_match; simplify_eq); simplify_eq; (split_and!; [done| |auto]).
  all: try by (left; split; [repeat constructor|eauto]).
  - left. split; [|auto]. apply Forall_app. split; [apply callback_mild|repeat constructor].
  - right. eexists _, _, _, _. split_and!; [done|done|apply callback_mild|done].
  - right. eexists _, _, _, []. by split_and!.
Qed.

(** Who runs what afterwards *)
Lemma code_of_continue t k s t0 :
  code_of (continue t k s) t0 = if decide (t0 = t) then k else code_of s t0.
Proof.
  unfold code_of. cbn. case_decide as Ht; [by rewrite Ht, lookup_insert_eq|by rewrite lookup_insert_ne].
Qed.
Lemma exec_code `{Families} t x k s s1 k' t0 :
  running s !! t = Some (x :: k) → exec t x s = Next s1 k' →
  code_of s1 t0 = code_of s t0
  ∨ (x = Start t0 ∧ k' = [] ∧ running s !! t0 = None ∧ code_of s1 t0 = thread_body t0).
Proof.
  intros Ht He. unfold code_of.
  destruct (exec_running t x k s s1 k' Ht He) as [[-> _]|[(t' & -> & Hnone & -> & ->)|(t' & -> & Hnil & -> & ->)]].
  - by left.
  - destruct (decide (t0 = t')) as [->|Hne]; [right; by rewrite lookup_insert_eq|left; by rewrite lookup_insert_ne].
  - left. destruct (decide (t0 = t')) as [->|Hne]; [by rewrite lookup_delete_eq, Hnil|by rewrite lookup_delete_ne].
Qed.

(** *** A listener loops once *)
Lemma sum_mild h k : Forall mild k → sum_list_with is_loop k = 0%nat ∧ sum_list_with (is_start h) k = 0%nat.
Proof. induction 1 as [|x k Hx _ [IH1 IH2]]; [done|]. cbn. rewrite IH1, IH2. by destruct x. Qed.
Lemma sum_pushed `{Families} h t x s s' k' :
  exec t x s = Next s' k' →
  (sum_list_with is_loop k' ≤ (if decide (k' = []) then 0 else is_loop x) ∧ sum_list_with (is_start h) k' = 0)%nat.
Proof.
  intros He. destruct (exec_pushes _ _ _ _ _ He) as [Hm|[(t' & -> & ->)|(c & n & -> & ->)]]; [|done..].
  destruct (sum_mild h k' Hm) as [-> ->]. split; [lia|done].
Qed.
Lemma sum_outside h x k k' kr :
  outside_code x k k' kr →
  (sum_list_with is_loop (k' ++ kr) ≤ sum_list_with is_loop (x :: k)
   ∧ sum_list_with (is_start h) (k' ++ kr) ≤ sum_list_with (is_start h) (x :: k))%nat.
Proof.
  rewrite !sum_list_with_app. intros [[Hm Hkr]|(c & n & m & k1 & -> & -> & Hm & ->)].
  - destruct (sum_mild h k' Hm) as [-> ->].
    destruct Hkr as [->|[->|(y & z & ->)]]; cbn; lia.
  - rewrite !sum_list_with_app. destruct (sum_mild h k1 Hm) as [-> ->]. cbn. lia.
Qed.

Lemma code_of_running s t k : running s !! t = Some k → code_of s t = k.
Proof. unfold code_of. by intros ->. Qed.

Lemma to_loop_uses s h : orderly s → (0 < to_loop h s)%nat → Wol h ∈ dom (wrappers s).
Proof.
  intros Hs Hpos. assert (Loop_of (Wol h) ∈ dom (running s) ∨ Listener h ∈ dom (running s)) as Hrun.
  { rewrite !elem_of_dom. unfold to_loop, code_of in Hpos.
    destruct (running s !! Loop_of (Wol h)); [left; by eexists|].
    destruct (running s !! Listener h); [right; by eexists|]. cbn in Hpos. lia. }
  destruct Hrun as [Hrun|Hrun]; apply (wf_uses s (proj1 Hs)) in Hrun; apply Hrun; cbn; set_solver.
Qed.

Section step.
Context `{Families} (mac_of : nat → list Z) (s s' : state) (t : thread) (Hs : orderly s).

(** An instruction which starts no thread only uses up what its thread has. *)
Lemma to_loop_exec h x k s1 k' :
  running s !! t = Some (x :: k) → exec t x s = Next s1 k' → (∀ t', x ≠ Start t') →
  (to_loop h (continue t (k' ++ k) s1)
   + (if decide (t = Loop_of (Wol h) ∧ k' = []) then is_loop x else 0) ≤ to_loop h s)%nat.
Proof.
  intros Hk He Hx. unfold to_loop. rewrite !code_of_continue.
  assert (∀ t0, code_of s1 t0 = code_of s t0) as Hcode.
  { intros t0. destruct (exec_code t x k s s1 k' t0 Hk He) as [|(-> & _)]; [done|]. by destruct (Hx t0). }
  rewrite !Hcode. destruct (sum_pushed h t x s s1 k' He) as [H1 H2].
  pose proof (code_of_running s t _ Hk) as Hcur.
  repeat case_decide; subst; try (destruct_and?; congruence); rewrite ?sum_list_with_app, ?H2, ?Hcur; cbn; lia.
Qed.

Lemma to_loop_start h t' k :
  running s !! t = Some (Start t' :: k) → owner t' = Some t → running s !! t' = None →
  let s1 := continue t k (continue t' (thread_body t') s) in
  (to_loop h s1 ≤ to_loop h s)%nat ∨ (t' = Listener h ∧ to_loop h s1 ≤ 1)%nat.
Proof.
  intros Hk Ho Hnone s1. unfold s1, to_loop. rewrite !code_of_continue.
  pose proof (code_of_running s t _ Hk) as Hcur.
  assert (code_of s t' = []) as Hfresh by (unfold code_of; by rewrite Hnone).
  assert (t' ≠ t) as Hne by (intros ->; by apply owner_irrefl in Ho).
  destruct t' as [h'|h'|h' i|[h'|h']]; cbn in Ho; [done| | | |]; injection Ho as <-.
  - destruct (decide (h' = h)) as [->|Hh]; [right; split; [done|]|left].
    + assert (code_of s (Loop_of (Wol h)) = []) as Hloop.
      { unfold code_of. destruct (running s !! Loop_of (Wol h)) eqn:Hl; [|done].
        apply elem_of_dom_2, (wf_owner s (proj1 Hs) _ (Listener h)) in Hl; [|done].
        by apply not_elem_of_dom in Hnone. }
      repeat case_decide; try congruence. rewrite Hloop. cbn. rewrite decide_True by done. lia.
    + repeat case_decide; try congruence; lia.
  - left. repeat case_decide; try congruence; lia.
  - left. repeat case_decide; try congruence; lia.
  - left. destruct (decide (h' = h)) as [->|Hh].
    + rewrite Hcur, Hfresh. repeat case_decide; try congruence. cbn. rewrite decide_True by done. lia.
    + repeat case_decide; try congruence; rewrite ?Hcur, ?Hfresh; cbn; lia.
Qed.

Lemma start_or_not x : (∃ t', x = Start t') ∨ ∀ t', x ≠ Start t'.
Proof. destruct x; eauto. Qed.

(** The count does not grow, unless the listener is started. *)
Lemma to_loop_perform h e k0 :
  perform mac_of t e s = Some (Next s' k0) →
  (to_loop h s' ≤ to_loop h s)%nat
  ∨ (∃ k, running s !! t = Some (Start (Listener h) :: k)) ∧ t = Main h ∧ e = None ∧ (to_loop h s' ≤ 1)%nat.
Proof.
  intros (x & k & s1 & k' & kr & Hk & -> & Hcase)%perform_cases.
  destruct Hcase as [(-> & He & ->)|(ev & -> & He)].
  - destruct (start_or_not x) as [[t' ->]|Hx].
    + destruct (proj2 Hs _ _ Hk) as [(Ho & _) _].
      destruct (exec_running t _ k s s1 k' Hk He) as [[_ []%(λ f, f t' eq_refl)]|[(? & [= <-] & Hnone & Hr & ->)|(? & [=] & _)]].
      destruct (to_loop_start h t' k Hk Ho Hnone) as [Hle|[-> Hle]].
      * left. unfold to_loop, code_of in *. cbn in *. by rewrite Hr.
      * right. split_and!; [by eexists|by injection Ho as <-|done|].
        unfold to_loop, code_of in *. cbn in *. by rewrite Hr.
    + left. pose proof (to_loop_exec h x k s1 k' Hk He Hx). lia.
  - left. apply happen_code in He as (-> & Hout & _). destruct (sum_outside h x k k' kr Hout) as [H1 H2].
    unfold to_loop. rewrite !code_of_continue. pose proof (code_of_running s t _ Hk) as Hcur.
    repeat case_decide; subst; try done; rewrite ?Hcur; lia.
Qed.

(** What a thread has been told stays in force. *)
Lemma told_kept t0 h x k e k0 :
  teller t0 = Some h → running s !! t = Some (x :: k) → (∀ h, (to_loop h s ≤ 1)%nat) →
  perform mac_of t e s = Some (Next s' k0) →
  (t = Main h → e = None → arms t0 x = false) → told t0 s ∨ (e = None ∧ tells t0 x = true) → told t0 s'.
Proof.
  intros Ho Hk Honce Hp Harm Htold. pose proof Hp as (x' & k1 & s1 & k' & kr & Hk' & Heq & Hcase)%perform_cases.
  rewrite Hk in Hk'. injection Hk' as <- <-.
  assert (wrappers s' = wrappers s1 ∧ watching s' = watching s1) as [Hw Hwt] by by rewrite Heq.
  destruct t0 as [h'|h'|h' i|c]; cbn in Ho; try discriminate Ho; injection Ho as Ho; subst h'; cbn [told].
  - rewrite Hw. intros Hpos p' Hp'.
    assert (0 < to_loop h s)%nat as Hpos0.
    { destruct (to_loop_perform h e k0 Hp) as [?|([k2 Hk2] & Hmain & He & _)]; [lia|].
      rewrite Hk in Hk2. injection Hk2 as -> ->. specialize (Harm Hmain He). cbn in Harm.
      by rewrite bool_decide_true in Harm. }
    pose proof (to_loop_uses s h Hs Hpos0) as Hthere.
    destruct Hcase as [(-> & He & ->)|(ev & -> & [-> _]%happen_code)]; [|destruct Htold as [Htold|[[=] _]]; by apply (Htold Hpos0)].
    destruct (exec_flag t x s s1 k' (Wol h) p' He Hp') as [?|[->|[(n & -> & ->)|(p & Hpw & Hf)]]]; [done|..].
    + exfalso. destruct (proj2 Hs _ _ Hk) as [[Hmain Hnot] _]. rewrite Hmain in Hnot. apply Hnot. set_solver.
    + exfalso. destruct (proj2 Hs _ _ Hk) as [(Hloop & _) _].
      pose proof (to_loop_exec h _ k s1 [] Hk He ltac:(by intros)) as Hless. rewrite <- Heq in Hless.
      rewrite decide_True in Hless by done. cbn in Hless. specialize (Honce h). lia.
    + destruct Htold as [Htold|[_ Htells]]; [rewrite Hf; by apply (Htold Hpos0)|].
      destruct x; cbn in Htells; try done. apply bool_decide_eq_true in Htells as ->.
      by eapply exec_breakloop.
  - rewrite Hwt. intros Hin. destruct Hcase as [(-> & He & ->)|(ev & -> & [-> _]%happen_code)]; [|destruct Htold as [Htold|[[=] _]]; by apply Htold].
    destruct (exec_watching t x s s1 k' h i He Hin) as [->|[Hin0 Hne]].
    + destruct (proj2 Hs _ _ Hk) as [[Hmain|[_ [=]]] _]. specialize (Harm Hmain eq_refl). cbn in Harm.
      by rewrite bool_decide_true in Harm.
    + destruct Htold as [Htold|[_ Htells]]; [by apply Htold|].
      destruct x as [| | | | | | | | | | | | | | | | | | | | | |h' i' []| | | |]; cbn in Htells; try done.
      * by rewrite andb_false_r in Htells.
      * rewrite andb_true_r in Htells. by apply bool_decide_eq_true in Htells as [-> ->].
Qed.
End step.

(** The code of a host only changes by its own steps. *)
Lemma main_code `{Families} s t x k s1 k' h k2 :
  orderly s → running s !! t = Some (x :: k) → exec t x s = Next s1 k' →
  running s1 !! Main h = Some k2 → running s !! Main h = Some k2.
Proof.
  intros Hs Ht He.
  destruct (exec_running t x k s s1 k' Ht He) as [[-> _]|[(t' & -> & Hnone & -> & _)|(t' & -> & Hnil & -> & _)]]; [done|..].
  - destruct (proj2 Hs _ _ Ht) as [(Ho & _) _]. intros [[-> _]|[_ ?]]%lookup_insert_Some; done.
  - by intros [_ ?]%lookup_delete_Some.
Qed.

Lemma telling_perform `{Families} mac_of s t e s' k0 :
  orderly s → telling s → perform mac_of t e s = Some (Next s' k0) → telling s'.
Proof.
  intros Hs [Htell Honce] Hp. split; cycle 1.
  { intros h. specialize (Honce h). destruct (to_loop_perform mac_of s s' t Hs h e k0 Hp) as [?|(_ & _ & _ & ?)]; lia. }
  pose proof Hp as (x & k & s1 & k' & kr & Hk & Heq & Hcase)%perform_cases.
  intros t0 h k2 Ho Hmain. rewrite Heq in Hmain. cbn in Hmain.
  pose proof (λ e0 He, told_kept mac_of s s' t Hs t0 h x k e0 k0 Ho Hk Honce He) as Hkept.
  apply lookup_insert_Some in Hmain as [[-> <-]|[Hne Hmain]].
  - destruct (Htell t0 h (x :: k) Ho Hk) as [Hfirst Htold].
    destruct Hcase as [(-> & He & ->)|(ev & -> & He)].
    + destruct (awaits_exec t0 _ x s s1 k' k He Hfirst) as [Hfirst' Haw]. split; [done|].
      intros [Harm Hor]%Haw. apply (Hkept None Hp); [done|]. destruct Hor; auto.
    + apply happen_code in He as (-> & Hout & Hx).
      assert (Forall mild k' ∧ kr = x :: k) as [Hm ->].
      { pose proof (proj2 Hs _ _ Hk) as Ht.
        destruct Hx as [->|Hx]; [|by destruct x; try done; destruct Ht as [[? _] _]].
        destruct Hout as [[? _]|(c & n & m & k1 & -> & _)]; [done|by destruct Ht as [[? _] _]]. }
      rewrite tells_first_mild by done. split; [done|]. intros Haw%awaits_mild; [|done].
      apply (Hkept (Some ev) Hp); [by intros _ [=]|auto].
  - assert (running s !! Main h = Some k2) as Hold.
    { destruct Hcase as [(-> & He & ->)|(ev & -> & [-> _]%happen_code)]; [by eapply main_code|done]. }
    destruct (Htell t0 h k2 Ho Hold) as [Hfirst Htold]. split; [done|]. intros Haw.
    apply (Hkept e Hp); [by intros ->|]. auto.
Qed.

(** *** The code of a host *)
Definition well_told (t : thread) (k : code) : Prop := tells_first t k = true ∧ awaits t k = false.
Lemma awaits_app t k1 k2 : awaits t k1 = false → awaits t k2 = false → awaits t (k1 ++ k2) = false.
Proof.
  intros H1 H2. induction k1 as [|x k1 IH]; [done|]. revert H1. cbn.
  destruct (negb _); [|done]. destruct (joins t x); [done|]. apply IH.
Qed.
Lemma well_told_app t k1 k2 : well_told t k1 → well_told t k2 → well_told t (k1 ++ k2).
Proof.
  intros [H1 A1] [H2 A2]. split; [|by apply awaits_app]. clear A1. revert H1.
  induction k1 as [|x k1 IH]; [done|]. cbn. rewrite !andb_true_iff. intros [Harm Hk]. split; [|by apply IH].
  destruct (arms t x); [|done]. cbn in *. rewrite awaits_app; [done| |done]. by destruct (awaits t k1).
Qed.
Lemma well_told_bind {A} t (f : A → code) l : (∀ a, a ∈ l → well_told t (f a)) → well_told t (l ≫= f).
Proof.
  induction l as [|a l IH]; intros Hf; [done|]. apply well_told_app; [|apply IH]; set_solver.
Qed.

(** Code which does not join [t] *)
Lemma well_told_joins t k : Forall (λ x, joins t x = false) k → well_told t k.
Proof.
  induction 1 as [|x k Hx _ [IH1 IH2]]; [done|]. split; cbn; rewrite ?Hx, ?IH1, ?IH2; by rewrite ?andb_false_r.
Qed.

Lemma take_told t h g : well_told t (guard_take h g).
Proof. apply well_told_joins. destruct g; repeat constructor. Qed.
Lemma release_told t h0 h g : teller t = Some h0 → well_told t (guard_release h g).
Proof.
  intros Ht. destruct t as [h'|h'|h' i|c]; try done.
  - destruct g as [| |j]; [|apply well_told_joins; repeat constructor..].
    destruct (decide (h' = h)) as [->|Hne].
    + cbn. split; cbn; by rewrite ?bool_decide_true by done.
    + apply well_told_joins. repeat constructor; cbn; apply bool_decide_false; congruence.
  - destruct g as [| |j]; [apply well_told_joins; repeat constructor..|].
    destruct (decide (h' = h ∧ i = j)) as [[-> ->]|Hne].
    + split; cbn; by rewrite ?bool_decide_true by done.
    + apply well_told_joins. repeat constructor; cbn; apply bool_decide_false; intros [= -> ->]; by destruct Hne.
Qed.

Lemma session_told t h0 h n how : teller t = Some h0 → well_told t (session h n how).
Proof.
  intros Ht. unfold session. repeat apply well_told_app.
  - apply well_told_joins. repeat constructor.
  - apply well_told_bind. intros g _. apply take_told.
  - destruct how as [[]| |]; apply well_told_joins; repeat constructor.
  - destruct how as [| |]; apply well_told_joins; repeat constructor; cbn; by destruct t.
  - apply well_told_bind. intros g _. by eapply release_told.
  - apply well_told_joins. repeat constructor.
Qed.

Lemma initial_telling hosts : telling (initial hosts).
Proof.
  assert (∀ h, to_loop h (initial hosts) = 0%nat) as Hno.
  { intros h. unfold to_loop, code_of.
    destruct (running (initial hosts) !! Loop_of (Wol h)) eqn:H1; [by apply running_initial in H1 as (? & ? & [=] & _)|].
    destruct (running (initial hosts) !! Listener h) eqn:H2; [by apply running_initial in H2 as (? & ? & [=] & _)|done]. }
  split; [|intros h; rewrite Hno; lia]. intros t h k Ht (? & l & [= <-] & _ & ->)%running_initial. split.
  - apply well_told_bind. intros [n how] _. by eapply session_told.
  - intros _. destruct t as [| | |]; [done| |done..]. cbn. rewrite Hno. lia.
Qed.

Lemma reachable_telling `{Families} mac_of hosts s : rtc (step mac_of) (initial hosts) s → telling s.
Proof.
  intros Hs. assert (orderly s ∧ telling s) as [_ ?]; [|done]. revert s Hs.
  apply (rtc_ind_r (λ s, orderly s ∧ telling s) (initial hosts)); [split; [apply initial_orderly|apply initial_telling]|].
  intros s s' _ Hstep [Ho Ht]. split; [by eapply step_orderly|].
  destruct Hstep as (t & e & k & Hp). by eapply telling_perform.
Qed.

(** ** At rest *)
Definition at_rest `{Families} (mac_of : nat → list Z) (s : state) : Prop := ∀ t, goes_on mac_of s t = false.
(** [t] waits for a thread which holds the mutex it waits for, or whose next step is a fault. *)
Definition held `{Families} (mac_of : nat → list Z) (s : state) (t : thread) : Prop :=
  ∃ t', rtc (waits_for s) t t' ∧ (waits_for s t' t' ∨ faulty mac_of s t').

Lemma perform_own `{Families} mac_of s t x k :
  running s !! t = Some (x :: k) →
  perform mac_of t None s =
    Some (match exec t x s with Next s' k' => Next (continue t (k' ++ k) s') [] | r => r end).
Proof. intros Hk. unfold perform. rewrite Hk. cbn [mbind option_bind]. by destruct (exec t x s). Qed.

(** The loop thread of a capture waits for a packet, and has not been cancelled. *)
Definition waits_for_packet (s : state) (c : capture) : Prop :=
  (∃ n k, running s !! Loop_of c = Some (Capturing c n :: k)) ∧ Loop_of c ∉ cancelled s.
(** A thread is held up within a call of [break_loop] on the capture. *)
Definition break_held `{Families} (mac_of : nat → list Z) (s : state) (c : capture) : Prop :=
  ∃ t, breaks s c t ∧ held mac_of s t.

Section rest.
Context `{Families} (mac_of : nat → list Z) (s : state) (Hs : orderly s) (Hrest : at_rest mac_of s).

Lemma rest_moves t : moves mac_of s t → faulty mac_of s t.
Proof.
  intros (r & Hp & Hr). specialize (Hrest t). unfold goes_on in Hrest. rewrite Hp in Hrest.
  destruct r; try done. by eexists.
Qed.

(** What a thread with something left to do is about to do *)
Definition rest_head (t : thread) (x : instr) : Prop :=
  match x with
  | Wait t' => owner t' = Some t ∧ ∃ y k, running s !! t' = Some (y :: k)
  | Capturing c _ => t = Loop_of c ∧ Loop_of c ∉ cancelled s
  | Is_ip_occupied h i | Block_solicitation h i | Unblock_solicitation h i => t = Watcher h i
  | _ => False
  end.
Lemma rest_thread t x k : running s !! t = Some (x :: k) → held mac_of s t ∨ rest_head t x.
Proof.
  intros Hk. destruct (moves_or_waits mac_of s t x k Hk) as [Hm|[Hw|[t' Hw]]].
  - left. exists t. split; [done|]. right. by apply rest_moves.
  - destruct Hw as (x' & k' & Hk' & Hx). rewrite Hk in Hk'. injection Hk' as <- <-.
    pose proof (proj2 Hs _ _ Hk) as Ht. destruct x; try done; destruct Ht as [(Ha & Hb & _) _]; [|by right..].
    right. split; [done|]. intros Hc. specialize (Hrest t). unfold goes_on in Hrest.
    rewrite (perform_own _ _ _ _ _ Hk) in Hrest. rewrite <- Ha in Hc.
    pose proof (may_use_there s t (proj1 Hs) (elem_of_dom_2 _ _ _ Hk) _ Hb) as [p Hp]%elem_of_dom.
    cbn in Hrest. unfold access in Hrest. by rewrite Hp, decide_True in Hrest.
  - pose proof Hw as (x' & k' & Hk' & Hcase). rewrite Hk in Hk'. injection Hk' as <- <-.
    destruct Hcase as [[-> Ht']|[-> Ho]].
    + right. destruct (proj2 Hs _ _ Hk) as [(Ho & _) _]. done.
    + left. exists t'. split; [by apply rtc_once|].
      destruct (owner_moves mac_of s Hs t' Ho) as [?%rest_moves|?]; auto.
Qed.

Lemma held_by t t' : waits_for s t t' → held mac_of s t' → held mac_of s t.
Proof. intros Hw (t'' & Hrtc & Hend). exists t''. split; [by eapply rtc_l|done]. Qed.

(** A thread does not wait for anyone else within [break_loop]. *)
Lemma breaks_held c t : breaks_right s → breaks s c t → held mac_of s t.
Proof.
  intros Hright (k & Hk & Hd). destruct k as [|x k]; [done|].
  destruct (rest_thread t x k Hk) as [?|Hhead]; [done|exfalso].
  destruct (codes_whole s Hright t (x :: k) c Hk) as (_ & Hp & _).
  assert (pauses x = true) as Hx by by destruct x.
  cbn in Hd. rewrite (pauses_owes c x Hx), (Hp Hx) in Hd. lia.
Qed.

(** Whoever waits for a packet at rest does so on a capture which is not broken. *)
Lemma rest_capture c n k :
  breaks_right s → running s !! Loop_of c = Some (Capturing c n :: k) →
  held mac_of s (Loop_of c) ∨ (waits_for_packet s c ∧ ¬ broken s c) ∨ break_held mac_of s c.
Proof.
  intros Hright Hk. destruct (rest_thread _ _ _ Hk) as [?|[_ Hc]]; [by left|right].
  assert (broken s c ∨ ¬ broken s c) as [Hbroken|Hno].
  { unfold broken. destruct (wrappers s !! c) as [p|]; [|right; by intros (p & [=] & _)].
    destruct (break_flag p) eqn:Hf; [left; by exists p|right; intros (p' & [= <-] & ?); congruence]. }
  - right. destruct (broken_ends s Hright c) as [?|[t Ht]]; [|done|done|].
    + exists n, (Capturing c n :: k). split; [done|constructor].
    + exists t. split; [done|]. by eapply breaks_held.
  - left. split; [|done]. split; [by eexists _, _|done].
Qed.

(** A listener which has been told does not wait for packets. *)
Lemma listener_held h y k :
  breaks_right s → telling s → told (Listener h) s → running s !! Listener h = Some (y :: k) →
  held mac_of s (Listener h) ∨ break_held mac_of s (Wol h).
Proof.
  intros Hright [_ Honce] Htold Hk. destruct (rest_thread _ _ _ Hk) as [?|Hhead]; [by left|].
  destruct y; cbn in Hhead; try done; [|by destruct Hhead].
  destruct Hhead as (Ho & z & k' & Hk'). destruct t as [| | |[h'|h']]; try done. injection Ho as ->.
  assert (waits_for s (Listener h) (Loop_of (Wol h))) as Hw
    by (exists (Wait (Loop_of (Wol h))), k; split; [done|left; eauto]).
  destruct (rest_thread _ _ _ Hk') as [?|Hhead]; [left; by eapply held_by|].
  destruct z; cbn in Hhead; try done; [by destruct Hhead as [?%not_owned_by_loop _]|].
  destruct Hhead as [[= <-] _].
  destruct (rest_capture _ _ _ Hright Hk') as [?|[[_ Hno]|?]]; [left; by eapply held_by| |by right].
  exfalso. apply Hno. assert (0 < to_loop h s)%nat as Hpos by (unfold to_loop; rewrite (code_of_running _ _ _ Hk'); cbn; lia).
  pose proof (to_loop_uses s h Hs Hpos) as [p Hp]%elem_of_dom. exists p. split; [done|]. by apply Htold.
Qed.
End rest.

(** The loop of [h] waits for a connection, and nobody has broken its capture. *)
Definition waits_for_connection (s : state) (h : nat) : Prop := waits_for_packet s (Syn h) ∧ ¬ broken s (Syn h).
(** The watcher waits for an answer of the neighbours or for a command of its guard,
    and has been told to end. *)
Definition checks_once_more (s : state) (h i : nat) : Prop :=
  (∃ x k, running s !! Watcher h i = Some (x :: k)
     ∧ (x = Is_ip_occupied h i ∨ x = Block_solicitation h i ∨ x = Unblock_solicitation h i))
  ∧ (h, i) ∉ watching s.

(** C10: [break_loop] ends the loop it is meant for, and taking the guards down does not
    wait for packets, as long as no [break_loop] looks at [loop_thread] between the start
    of the thread of [loop] and its assignment to that member.  In every state which is
    reached by such steps and in which nobody can go on, a host which is not done is
    waiting in its own [loop], whose capture nobody has broken, for a connection; or for a
    watcher which has been told to end, for whose command (a check of the neighbours or a
    firewall command) it waits; or it is held up, by a mutex whose holder waits for it (a
    signal handler which has interrupted the holder) or by a fault; or a thread which is
    breaking one of its captures is held up like that before it has cancelled the loop.
    Without the condition this is false ([break_in_window_is_lost]). *)
Theorem stopping_waits_for_checks `{Families} mac_of hosts s h x k :
  rtc (timely_step mac_of) (initial hosts) s → at_rest mac_of s → running s !! Main h = Some (x :: k) →
  (x = Wait (Loop_of (Syn h)) ∧ waits_for_connection s h)
  ∨ (∃ i, x = Wait (Watcher h i) ∧ checks_once_more s h i)
  ∨ held mac_of s (Main h)
  ∨ ∃ c, host_of c = h ∧ break_held mac_of s c.
Proof.
  intros Htimely Hrest Hk. assert (rtc (step mac_of) (initial hosts) s) as Hreach
    by (eapply rtc_subrel; [apply timely_is_step|exact Htimely]).
  pose proof (reachable_orderly _ _ _ Hreach) as Hs. pose proof (reachable_telling _ _ _ Hreach) as Htelling.
  pose proof (reachable_breaks_right _ _ _ Htimely) as Hright.
  destruct (rest_thread mac_of s Hs Hrest _ _ _ Hk) as [?|Hhead]; [by right; right; left|].
  destruct x; cbn in Hhead; try done; [|by destruct Hhead].
  destruct Hhead as (Ho & y & k' & Hk').
  assert (waits_for s (Main h) t) as Hw by (exists (Wait t), k; split; [done|left; eauto]).
  assert (teller t = Some h → told t s) as Htold.
  { intros Ht. destruct (proj1 Htelling t h _ Ht Hk) as [_ Haw]. apply Haw. cbn.
    rewrite bool_decide_true by done. destruct t; cbn in *; done. }
  destruct t as [h'|h'|h' i|[h'|h']]; cbn in Ho; try discriminate Ho; injection Ho as ->.
  - right. right. destruct (listener_held mac_of s Hs Hrest h y k') as [?|?]; [by auto..|left; by eapply held_by|].
    right. by exists (Wol h).
  - destruct (rest_thread mac_of s Hs Hrest _ _ _ Hk') as [Hheld|Hhead]; [right; right; left; by eapply held_by|].
    destruct y; cbn in Hhead; try done.
    1: by destruct Hhead as [Ho _]; destruct t as [| | |[]].
    1: by destruct Hhead.
    all: injection Hhead as <- <-; right; left; exists i; (split; [done|]); (split; [eauto 6|by apply Htold]).
  - destruct (rest_thread mac_of s Hs Hrest _ _ _ Hk') as [Hheld|Hhead]; [right; right; left; by eapply held_by|].
    destruct y; cbn [rest_head] in Hhead; try done.
    + by destruct Hhead as [?%not_owned_by_loop _].
    + destruct Hhead as [[= <-] _].
      destruct (rest_capture mac_of s Hs Hrest _ _ _ Hright Hk') as [?|[?|?]].
      * right. right. left. by eapply held_by.
      * by left.
      * right. right. right. by exists (Syn h).
Qed.

Lemma at_rest_check `{Families} mac_of s :
  forallb (λ t, negb (goes_on mac_of s t)) (elements (dom (running s))) = true → at_rest mac_of s.
Proof.
  rewrite forallb_forall. intros Hall t. destruct (running s !! t) as [k|] eqn:Hk.
  - apply negb_true_iff, Hall, list_elem_of_In, elem_of_elements. by eapply elem_of_dom_2.
  - unfold goes_on, perform. by rewrite Hk.
Qed.

(** ** In the window *)
#[local] Existing Instance some_families.
Lemma after_timely schedule :
  bool_decide (is_Some (run some_mac schedule one_host)) && timely some_mac schedule one_host = true →
  rtc (timely_step some_mac) one_host (after schedule).
Proof.
  intros [[s Hs]%bool_decide_eq_true Ht]%andb_true_iff. unfold after. rewrite Hs. by eapply timely_steps.
Qed.

(** The listener has started its loop, which waits for a packet; a connection comes, and
    the host stops the listener before that has assigned [loop_thread]. *)
Definition lost_stop_run : list (thread * option happening) :=
  goes 11 (Main 0) ++ watcher_asks ++ goes 1 (Listener 0) ++ goes 1 (Loop_of (Wol 0)) ++ goes 2 (Main 0)
  ++ goes 1 (Loop_of (Syn 0)) ++ [(Loop_of (Syn 0), Some (Packet []))] ++ goes 1 (Loop_of (Syn 0))
  ++ goes 7 (Main 0) ++ goes 1 (Listener 0).
(** The host has started its loop, which waits for a packet; the watcher finds the
    address occupied before the host has assigned [loop_thread]. *)
Definition lost_answer_run : list (thread * option happening) :=
  goes 12 (Main 0) ++ goes 1 (Loop_of (Syn 0)) ++ watcher_asks ++ [(Watcher 0 0, Some (Answer (Some true)))]
  ++ goes 5 (Watcher 0 0) ++ [(Watcher 0 0, Some (Commanded true))]
  ++ goes 1 (Main 0) ++ goes 2 (Listener 0) ++ goes 1 (Loop_of (Wol 0)).

(** Nobody can go on, [c] is broken, and its loop waits for a packet; no thread is
    within [break_loop]. *)
Definition break_lost (s : state) (c : capture) : Prop :=
  at_rest some_mac s ∧ waits_for_packet s c ∧ broken s c
  ∧ ∀ t k, running s !! t = Some k → debt c k = 0%Z.

Lemma break_lost_check s c :
  forallb (λ t, negb (goes_on some_mac s t)) (elements (dom (running s)))
  && match running s !! Loop_of c with Some (Capturing c' _ :: _) => bool_decide (c' = c) | _ => false end
  && bool_decide (Loop_of c ∉ cancelled s)
  && match wrappers s !! c with Some p => break_flag p | None => false end
  && forallb (λ tk, bool_decide (debt c tk.2 = 0%Z)) (map_to_list (running s)) = true →
  break_lost s c.
Proof.
  intros [[[[Hrest Hloop]%andb_true_iff Hc%bool_decide_eq_true]%andb_true_iff Hf]%andb_true_iff Hd]%andb_true_iff.
  split_and!; [by apply at_rest_check| | |].
  - split; [|done]. destruct (running s !! Loop_of c) as [[|[] k]|]; try done.
    apply bool_decide_eq_true in Hloop as ->. by eexists _, _.
  - unfold broken. destruct (wrappers s !! c) as [p|]; [by exists p|done].
  - intros t k Hk. rewrite forallb_forall in Hd.
    assert (In (t, k) (map_to_list (running s))) as Hin%Hd by by apply list_elem_of_In, elem_of_map_to_list.
    by apply bool_decide_eq_true in Hin.
Qed.

(** A [break_loop] which looks at [loop_thread] between the start of the thread and its
    assignment is lost when the thread waits for a packet already: the flag does not
    wake it, and it is not cancelled.  So the host which stops its listener waits for
    the next packet of that capture; and an address which has been found occupied is
    kept until the next packet comes, with its watcher gone. *)
Theorem break_in_window_is_lost :
  (∃ s, rtc (step some_mac) one_host s ∧ break_lost s (Wol 0)
     ∧ running s !! Main 0 ≫= head = Some (Wait (Listener 0))
     ∧ running s !! Listener 0 ≫= head = Some (Wait (Loop_of (Wol 0))))
  ∧ (∃ s, rtc (step some_mac) one_host s ∧ break_lost s (Syn 0)
     ∧ running s !! Main 0 ≫= head = Some (Wait (Loop_of (Syn 0)))
     ∧ running s !! Watcher 0 0 = Some []
     ∧ loop_end_reason <$> wrappers s !! Syn 0 = Some duplicate_address).
Proof.
  split; [exists (after lost_stop_run)|exists (after lost_answer_run)];
    (split_and!; [by apply after_reachable; vm_compute|by apply break_lost_check; vm_compute|by vm_compute..]).
Qed.

Theorem stopping_waits_for_checks_witness :
  at_rest some_mac (after stopping_run)
  ∧ ∃ x k, running (after stopping_run) !! Main 0 = Some (x :: k)
    ∧ ((x = Wait (Loop_of (Syn 0)) ∧ waits_for_connection (after stopping_run) 0)
       ∨ (∃ i, x = Wait (Watcher 0 i) ∧ checks_once_more (after stopping_run) 0 i)
       ∨ held some_mac (after stopping_run) (Main 0)
       ∨ ∃ c, host_of c = 0 ∧ break_held some_mac (after stopping_run) c).
Proof.
  assert (at_rest some_mac (after stopping_run)) as Hrest.
  { apply at_rest_check. vm_compute. reflexivity. }
  split; [exact Hrest|].
  destruct (running (after stopping_run) !! Main 0) as [[|x k]|] eqn:Hk; [by vm_compute in Hk| |by vm_compute in Hk].
  exists x, k. split; [reflexivity|].
  apply (stopping_waits_for_checks some_mac {[ 0 := [(1, Loops)] ]} (after stopping_run) 0 x k);
    [by apply after_timely; vm_compute|exact Hrest|exact Hk].
Defined.
