(* ===== verification/DuplicateAddressWatcher.v ===== *)
(** * Watching for duplicate addresses: [duplicate_address_watcher.h],
    [duplicate_address_watcher.cpp]

    A thread per address asks the network once a second whether another machine
    uses the address, and breaks the capture when one does or when asking fails.
    Shown: when it notices, that it always ends without an exception, and that
    the firewall rule which the IPv6 variant needs is gone when it ends. *)
From S2P Require Import Prelude ContainerUtils IntUtils NetText NetTextRef System IpAddress Pcap FileDescriptor SpawnProcess ScopeGuard.
Local Open Scope Z_scope.

Definition get_cmd_ipv4 : list string := ["arping"; "-q"; "-D"; "-c"; "1"; "-I"].
Definition get_cmd_ipv6 : list string := ["ndisc6"; "-q"; "-n"; "-m"].

(** [::toupper] in the C locale *)
Definition toupper (c : ascii) : ascii :=
  let n := Ascii.N_of_ascii c in
  if decide (97 ≤ n ∧ n ≤ 122)%N then Ascii.ascii_of_N (n - 32) else c.
Definition transform_to_upper (s : string) : string := of_chars (toupper <$> chars s).

Definition contains_mac_different_from_given (mac : string) (lines : list string) : bool :=
  let macs_are_not_equal mac line := bool_decide (transform_to_upper line ≠ mac) in
  let mac := transform_to_upper mac in
  existsb (macs_are_not_equal mac) lines.

Definition mac_row : nat := 1.
Definition mac_column : nat := 5.
Definition check_intervall : Z := 1000.

(** [Is_ip_occupied] *)
Abbreviation Is_ip_occupied := (string → IP_address → M bool).

Section watcher.
Context `{System} `{Fuel} `{Net_text} `{Host}.

(** A block with the two ends of a pipe, which are closed when it is left *)
Definition with_self_pipes {A} (body : File_descriptor → File_descriptor → M A) : M A :=
  out_in ← get_self_pipes false;
  finally (body out_in.1 out_in.2) (_ ← fd_destroy out_in.2; fd_destroy out_in.1).

Definition get_mac (iface : string) : M string :=
  let cmd := ["ip"; "a"; "show"; "dev"; iface] in
  with_self_pipes (λ out inp,
    status ← spawn_io cmd fd_default inp;
    if decide (status ≠ 0)
    then raise_exn runtime_error ("get_mac(): ip a show dev " +:+ iface +:+ " did not succeed") else
    lines ← fd_read fuel out;
    line ← lift (vec_at lines mac_row);
    let splitted_line := split_string line " " in
    lift (vec_at splitted_line mac_column)).

(** [Ip_neigh_checker] *)
Definition is_ipv4_present (iface : string) (ip : IP_address) : M bool :=
  let cmd_ipv4_tmp := get_cmd_ipv4 ++ [iface; pure ip] in
  status ← spawn cmd_ipv4_tmp;
  mret (bool_decide (status = 1)).

Definition is_ipv6_present (this_nodes_mac iface : string) (ip : IP_address) : M bool :=
  let cmd_ipv6_tmp := get_cmd_ipv6 ++ [pure ip; iface] in
  with_self_pipes (λ out inp,
    _ ← spawn_io cmd_ipv6_tmp fd_default inp;
    lines ← fd_read fuel out;
    mret (contains_mac_different_from_given this_nodes_mac lines)).

Definition Ip_neigh_checker (this_nodes_mac iface : string) (ip : IP_address) : M bool :=
  if decide (family ip = AF_INET) then is_ipv4_present iface ip
  else is_ipv6_present this_nodes_mac iface ip.

(** [while (loop)]; the flag [loop] belongs to the object [owner]. *)
Fixpoint daw_loop (fuel : nat) (iface : string) (ip : IP_address)
    (is_ip_occupied : Is_ip_occupied) (owner pc : nat) : M unit :=
  match fuel with
  | O => end_process Out_of_fuel
  | S fuel =>
      loop ← call (Atomic_load owner);
      if (loop : bool) then
        occupied ← is_ip_occupied iface ip;
        _ ← (if (occupied : bool)
             then _ ← call (Atomic_store owner false); break_loop pc duplicate_address
             else call (Sleep_ms check_intervall));
        daw_loop fuel iface ip is_ip_occupied owner pc
      else mret tt
  end.

Definition daw_thread_main_non_root (iface : string) (ip : IP_address)
    (is_ip_occupied : Is_ip_occupied) (owner pc : nat) : M unit :=
  catch (daw_loop fuel iface ip is_ip_occupied owner pc)
    (λ _, _ ← call (Atomic_store owner false); break_loop pc signal).

Definition daw_thread_main_ipv6 (iface : string) (ip : IP_address)
    (is_ip_occupied : Is_ip_occupied) (owner pc : nat) : M unit :=
  catch
    (bipv6ns ← guard_new (command (Block_ipv6_neighbor_solicitation ip));
     finally (daw_thread_main_non_root iface ip is_ip_occupied owner pc)
       (guard_destroy bipv6ns))
    (λ _, _ ← call (Atomic_store owner false); break_loop pc signal).

(** ** [Duplicate_address_watcher]; [daw_id] names the object. *)
Record Duplicate_address_watcher := {
  daw_iface : string;
  daw_ip : IP_address;
  daw_pcap : nat;
  daw_is_ip_occupied : Is_ip_occupied;
  daw_id : nat;
}.

Definition daw_new (ifacee : string) (ipp : IP_address) (pc : nat) : M Duplicate_address_watcher :=
  mac ← get_mac ifacee;
  w ← get;
  _ ← modify with_object;
  _ ← call (Atomic_store (objects w) false);
  mret {| daw_iface := ifacee; daw_ip := ipp; daw_pcap := pc;
          daw_is_ip_occupied := Ip_neigh_checker mac; daw_id := objects w |}.

(** What the thread runs *)
Definition daw_main_function (d : Duplicate_address_watcher) : M unit :=
  let main_function :=
    if decide (family (daw_ip d) = AF_INET) then daw_thread_main_non_root else daw_thread_main_ipv6 in
  noexcept (main_function (daw_iface d) (daw_ip d) (daw_is_ip_occupied d) (daw_id d) (daw_pcap d)).

Definition stop_watcher (d : Duplicate_address_watcher) : M unit :=
  _ ← call (Atomic_store (daw_id d) false);
  thread_join_if_joinable (daw_id d).

Definition daw_apply (d : Duplicate_address_watcher) (action : Action) : M string :=
  _ ← (if decide (action = add)
       then _ ← call (Atomic_store (daw_id d) true); thread_assign (daw_id d)
       else mret tt);
  _ ← (if decide (action = del) then stop_watcher d else mret tt);
  mret "".

(** [make_copyable<Duplicate_address_watcher>(iface, ip, pc)] *)
Definition make_duplicate_address_watcher (iface : string) (ip : IP_address) (pc : nat) : M Aquire_release :=
  d ← daw_new iface ip pc;
  mret {| apply := daw_apply d; dispose := stop_watcher d |}.
End watcher.

(** ** Frames *)
Section frames.
Context `{System} `{Fuel} `{Net_text} `{Host}.

Lemma with_self_pipes_keeps {A} (body : File_descriptor → File_descriptor → M A) :
  (∀ a b, keeps_balance (body a b)) → keeps_balance (with_self_pipes body).
Proof.
  intros Hb. unfold with_self_pipes. apply keeps_bind.
  - keeps_io.
  - intros [a b]. apply keeps_finally; [apply Hb|].
    keeps_io.
Qed.

Lemma with_self_pipes_registry {A} (body : File_descriptor → File_descriptor → M A) :
  (∀ a b, steps same_registry (body a b)) → steps same_registry (with_self_pipes body).
Proof.
  intros Hb. unfold with_self_pipes. steps_tac; auto using get_self_pipes_registry, fd_destroy_registry.
Qed.

Lemma get_mac_keeps iface : keeps_balance (get_mac iface).
Proof.
  apply with_self_pipes_keeps. intros a b. apply keeps_bind; [by apply keeps_spawn_io|].
  intros status. keeps_io.
Qed.

Lemma get_mac_registry iface : steps same_registry (get_mac iface).
Proof.
  apply with_self_pipes_registry. intros a b. steps_tac; auto using spawn_io_registry, fd_read_registry.
Qed.

Lemma Ip_neigh_checker_keeps mac iface ip : keeps_balance (Ip_neigh_checker mac iface ip).
Proof.
  unfold Ip_neigh_checker, is_ipv4_present, is_ipv6_present, spawn. case_decide.
  - apply keeps_bind; [by apply keeps_spawn_io|]. intros st. keeps_io.
  - apply with_self_pipes_keeps. intros a b. apply keeps_bind; [by apply keeps_spawn_io|].
    intros status. keeps_io.
Qed.

(** ** The threads *)
Lemma daw_loop_keeps n iface ip occ owner pc :
  (∀ iface ip, keeps_balance (occ iface ip)) → keeps_balance (daw_loop n iface ip occ owner pc).
Proof.
  intros Hocc. induction n as [|n IH]; cbn [daw_loop].
  { keeps_io. }
  apply keeps_bind; [keeps_io|]. intros [|];
    [|keeps_io].
  apply keeps_bind; [apply Hocc|]. intros o. apply keeps_bind; [|intros _; apply IH].
  keeps_io.
Qed.

Lemma handler_keeps owner pc :
  keeps_balance (_ ← call (Atomic_store owner false); break_loop pc signal).
Proof. keeps_io. Qed.

Lemma daw_non_root_keeps iface ip occ owner pc :
  (∀ iface ip, keeps_balance (occ iface ip)) →
  keeps_balance (daw_thread_main_non_root iface ip occ owner pc).
Proof. intros. apply keeps_catch; [by apply daw_loop_keeps|intros _; apply handler_keeps]. Qed.

(** The rule against neighbour solicitations does not outlive the thread. *)
Lemma daw_ipv6_keeps iface ip occ owner pc :
  (∀ iface ip, keeps_balance (occ iface ip)) → family ip = AF_INET6 →
  keeps_balance (daw_thread_main_ipv6 iface ip occ owner pc).
Proof.
  intros Hocc Hip. apply keeps_catch; [|intros _; apply handler_keeps].
  destruct (Block_ns_names ip Hip) as [k Hk].
  pose proof (take_command_balance _ _ Hk) as Hacc. intros w. wp_step.
  eapply wp_mono; [by apply guard_new_balance|..]; [|done].
  intros g w1 (Hg & Hfr & Hb). wp_step.
  assert (∀ w', wp (guard_destroy g)
    (λ _ w'', ∀ k', balance w'' k' = balance w' k' - contribution (Some (Command_key k)) k') (λ _ _, False) w') as Hd.
  { intros w'. eapply wp_mono; [apply (guard_destroy_balance g (Some (Command_key k))); by rewrite Hg|..]; [|done].
    intros ? w'' Hb'' k'. rewrite Hb'', Hfr. done. }
  eapply wp_mono; [by apply (daw_non_root_keeps iface ip occ owner pc)|..].
  all: intros ? w2 Hb2; eapply wp_mono; [apply Hd|..]; [|done].
  all: intros ? w3 Hb3 k'; cbn; rewrite Hb3, Hb2, Hb; lia.
Qed.

(** Nothing leaves the threads. *)
Definition no_throw {A} (m : M A) : Prop := ∀ w, wp m (λ _ _, True) (λ _ _, False) w.

Lemma handler_no_throw owner pc :
  no_throw (_ ← call (Atomic_store owner false); break_loop pc signal).
Proof.
  intros w. wp_run. unfold wp. destruct (break_loop_run pc signal (add_event (Event (Atomic_store owner false) r) w))
    as (w' & -> & _). done.
Qed.

Lemma catch_no_throw {A} (m : M A) h : (∀ e, no_throw (h e)) → no_throw (catch m h).
Proof.
  intros Hh w. wp_step. apply (wp_of_steps (λ _ _, True)); [done|done|]. intros e w' _. apply Hh.
Qed.
End frames.

(** ** When a duplicate is noticed *)

(** The last value stored, and how often the thread has slept *)
Definition stored (h : history) (owner : nat) : bool :=
  foldl (λ b e, let '(Event c _) := e in
    match c with Atomic_store o v => if decide (o = owner) then v else b | _ => b end) false h.
Definition sleeps (h : history) : nat :=
  list_sum ((λ e, let '(Event c _) := e in match c with Sleep_ms _ => 1%nat | _ => 0%nat end) <$> h).

Lemma stored_snoc {A} h (c : syscall A) r owner :
  stored (h ++ [Event c r]) owner =
  match c with Atomic_store o v => if decide (o = owner) then v else stored h owner | _ => stored h owner end.
Proof. unfold stored. by rewrite foldl_app. Qed.
Lemma sleeps_snoc {A} h (c : syscall A) r :
  sleeps (h ++ [Event c r]) = (sleeps h + match c with Sleep_ms _ => 1 | _ => 0 end)%nat.
Proof. unfold sleeps. rewrite fmap_app, list_sum_app. cbn. lia. Qed.

(** Capturing neither stores flags nor sleeps. *)
Lemma captures_flags w w' owner :
  extends (of_kind captures) w w' →
  stored (trace w') owner = stored (trace w) owner ∧ sleeps (trace w') = sleeps (trace w).
Proof.
  intros (h & -> & Hh). revert w. induction Hh as [|[A c r] h He _ IH]; intros w.
  { by rewrite app_nil_r. }
  destruct (IH (add_event (Event c r) w)) as [Hs Hl]. cbn [trace add_event] in Hs, Hl.
  rewrite <-(assoc_L (++)) in Hs, Hl. cbn [app] in Hs, Hl. rewrite Hs, Hl, stored_snoc, sleeps_snoc.
  destruct c; try done; split; lia || done.
Qed.

Section noticing.
Context `{System}.
Context (iface : string) (ip : IP_address) (occ : Is_ip_occupied) (owner pc : nat).

(** Nobody else writes the flag. *)
Context (Hflag : ∀ h, reply h (Atomic_load owner) = stored h owner).

(** The first [n] checks find nothing, then the address is occupied ([None]) or
    the check throws. *)
Definition checks (from n : nat) (answer : option exn) : Prop := ∀ w,
  (from ≤ sleeps (trace w) < from + n → occ iface ip w = (Val false, w))%nat
  ∧ (sleeps (trace w) = from + n →
     occ iface ip w = (match answer with None => Val true | Some e => Raised e end, w))%nat.

Lemma daw_loop_run n fuel answer w :
  stored (trace w) owner = true → checks (sleeps (trace w)) n answer → (n + 2 ≤ fuel)%nat →
  ∃ w', daw_loop fuel iface ip occ owner pc w
        = (match answer with None => Val tt | Some e => Raised e end, w')
    ∧ sleeps (trace w') = (sleeps (trace w) + n)%nat
    ∧ (answer = None → reason_of w' pc = duplicate_address).
Proof using Hflag.
  revert fuel w. induction n as [|n IH]; intros [|fuel] w Hs Hc Hf; try lia; cbn [daw_loop].
  all: unfold mbind at 1, M_bind, call at 1; rewrite Hflag, Hs.
  all: set (w1 := add_event (Event (Atomic_load owner) true) w).
  all: assert (sleeps (trace w1) = sleeps (trace w)) as Hw1
         by (unfold w1; cbn [trace add_event]; rewrite sleeps_snoc; lia).
  all: assert (stored (trace w1) owner = true) as Hs1
         by (unfold w1; cbn [trace add_event]; by rewrite stored_snoc).
  - unfold mbind at 1, M_bind. rewrite (proj2 (Hc w1)) by lia.
    destruct answer as [e|]; [exists w1; split_and!; [done|lia|done]|].
    unfold mbind at 1, M_bind. unfold mbind at 1, M_bind, call at 1.
    set (w2 := add_event (Event (Atomic_store owner false) _) w1).
    assert (stored (trace w2) owner = false ∧ sleeps (trace w2) = sleeps (trace w1)) as [Hs2 Hl2].
    { unfold w2. cbn [trace add_event]. rewrite stored_snoc, sleeps_snoc, decide_True by done. auto. }
    destruct (break_loop_run pc duplicate_address w2) as (w3 & Hw3 & Hr & _).
    pose proof (break_loop_emits captures eq_refl pc duplicate_address w2) as Ht.
    rewrite Hw3 in Ht |- *. apply (captures_flags _ _ owner) in Ht as [Hs3 Hl3]. cbn [snd] in Hs3, Hl3.
    destruct fuel as [|fuel]; [lia|]. cbn [daw_loop].
    unfold mbind, M_bind, call. rewrite Hflag, Hs3, Hs2. eexists. split; [done|]. split.
    + cbn [trace add_event]. rewrite sleeps_snoc. lia.
    + intros _. unfold reason_of. cbn. by rewrite Hr, lookup_insert_eq.
  - unfold mbind at 1, M_bind. rewrite (proj1 (Hc w1)) by lia.
    unfold mbind at 1, M_bind, call at 1.
    set (w2 := add_event (Event (Sleep_ms check_intervall) _) w1).
    assert (sleeps (trace w2) = S (sleeps (trace w))) as Hw2
      by (unfold w2; cbn [trace add_event]; rewrite sleeps_snoc; lia).
    destruct (IH fuel w2) as (w' & Hw' & Hsl & Hr).
    + unfold w2. cbn [trace add_event]. by rewrite stored_snoc.
    + rewrite Hw2. intros w'. specialize (Hc w') as [Hc1 Hc2]. split; intros; [apply Hc1|apply Hc2]; lia.
    + lia.
    + exists w'. split_and!; [exact Hw'|lia|done].
Qed.
End noticing.

(** ** Properties *)

(** An IPv6 address counts as used by another machine exactly when some line of
    the answer differs from the own address other than by the case of its letters. *)
Lemma contains_mac_correct mac lines :
  (contains_mac_different_from_given mac lines = true ↔
   ∃ line, line ∈ lines ∧ transform_to_upper line ≠ transform_to_upper mac)
  ∧ transform_to_upper (transform_to_upper mac) = transform_to_upper mac.
Proof.
  split.
  - unfold contains_mac_different_from_given. rewrite existsb_exists. split.
    + intros (line & Hin%list_elem_of_In & Hne%bool_decide_eq_true). by exists line.
    + intros (line & Hin%list_elem_of_In & Hne). exists line. by rewrite bool_decide_true.
  - unfold transform_to_upper. rewrite chars_of_chars. f_equal. rewrite <-list_fmap_compose.
    apply list_fmap_ext. intros i c _. cbn. ascii_check c.
Qed.

(** No exception leaves the threads, and when one ends every firewall rule it
    has added is deleted again, however the checks end. *)
Theorem daw_threads_clean `{System} `{Fuel} `{Net_text} `{Host} iface ip mac owner pc w :
  family ip = AF_INET ∨ family ip = AF_INET6 →
  let main := if decide (family ip = AF_INET) then daw_thread_main_non_root else daw_thread_main_ipv6 in
  match main iface ip (Ip_neigh_checker mac) owner pc w with
  | (Val _, w') => ∀ k, balance w' k = balance w k
  | (Raised _, _) => False
  | (Ended _, _) => True
  end.
Proof.
  intros Hip main.
  assert (keeps_balance (main iface ip (Ip_neigh_checker mac) owner pc)) as Hk.
  { unfold main. case_decide.
    - apply daw_non_root_keeps. intros. apply Ip_neigh_checker_keeps.
    - apply daw_ipv6_keeps; [intros; apply Ip_neigh_checker_keeps|tauto]. }
  assert (no_throw (main iface ip (Ip_neigh_checker mac) owner pc)) as Hn.
  { unfold main. case_decide; apply catch_no_throw; intros _; apply handler_no_throw. }
  specialize (Hk w). specialize (Hn w). unfold wp in *.
  by destruct (main iface ip (Ip_neigh_checker mac) owner pc w) as [[|?|?] ?].
Qed.

(** When the address is free for [n] checks and then found occupied, the thread
    ends after [n] pauses and has given the capture the reason [duplicate_address];
    when the check throws instead, the reason is [signal]. *)
Theorem daw_notices `{System} `{Fuel} iface ip occ owner pc n answer w :
  (∀ h, reply h (Atomic_load owner) = stored h owner) →
  stored (trace w) owner = true → checks iface ip occ (sleeps (trace w)) n answer →
  (n + 2 ≤ fuel)%nat →
  ∃ w', daw_thread_main_non_root iface ip occ owner pc w = (Val tt, w')
    ∧ sleeps (trace w') = (sleeps (trace w) + n)%nat
    ∧ reason_of w' pc = match answer with None => duplicate_address | Some _ => signal end.
Proof.
  intros Hflag Hs Hc Hf.
  destruct (daw_loop_run iface ip occ owner pc Hflag n fuel answer w Hs Hc Hf) as (w1 & Hw1 & Hl & Hr).
  unfold daw_thread_main_non_root, catch. rewrite Hw1.
  destruct answer as [e|]; [|exists w1; split_and!; auto].
  unfold mbind, M_bind, call. set (w2 := add_event (Event (Atomic_store owner false) _) w1).
  destruct (break_loop_run pc signal w2) as (w3 & Hw3 & Hr3 & _).
  pose proof (break_loop_emits captures eq_refl pc signal w2) as Ht.
  rewrite Hw3 in Ht. apply (captures_flags _ _ owner) in Ht as [_ Hl3]. cbn [snd] in Hl3.
  exists w3. split; [exact Hw3|]. split.
  - rewrite Hl3. unfold w2. cbn [trace add_event]. rewrite sleeps_snoc. lia.
  - unfold reason_of. by rewrite Hr3, lookup_insert_eq.
Qed.

(** ** Witnesses *)

(** Flags have the value which was stored last. *)
Definition flag_system : System :=
  {| reply := λ A h c,
       match c in syscall A return A with
       | Atomic_load o => stored h o
       | c => default_reply c
       end;
     strerror_errno := λ _, "error" |}.

Lemma daw_threads_clean_witness :
  family guard_ip = AF_INET6 ∧
  let '(r, w') := @daw_thread_main_ipv6 flag_system 3%nat Little "wlan0" guard_ip
       (@Ip_neigh_checker flag_system 3%nat ref_net "aa:bb:cc:dd:ee:ff") 0 1 world_init in
  r = Val tt ∧ (length (commands w') = 2)%nat ∧ ∀ k, balance w' k = balance world_init k.
Proof.
  split; [done|].
  pose proof (@daw_threads_clean flag_system 3%nat ref_net Little "wlan0" guard_ip
    "aa:bb:cc:dd:ee:ff" 0 1 world_init (or_intror eq_refl)) as Hw.
  cbv zeta in Hw. rewrite decide_False in Hw by done.
  destruct (daw_thread_main_ipv6 _ _ _ _ _ _) as [r w'] eqn:E. vm_compute in E.
  injection E as <- <-. split; [done|]. split; [done|exact Hw].
Defined.

Lemma daw_notices_witness :
  let w := add_event (Event (Atomic_store 7 true) tt) world_init in
  let occ := λ (_ : string) (_ : IP_address) w, (Val (bool_decide (sleeps (trace w) = 2%nat)), w) in
  ∃ w', @daw_thread_main_non_root flag_system 4%nat "wlan0" guard_ip occ 7 1 w = (Val tt, w')
    ∧ sleeps (trace w') = (sleeps (trace w) + 2)%nat ∧ reason_of w' 1 = duplicate_address.
Proof.
  intros w occ.
  apply (@daw_notices flag_system 4%nat "wlan0" guard_ip occ 7 1 2 None w); try done.
  intros w'. split; intros Hl; unfold occ; change (sleeps (trace w)) with 0%nat in Hl.
  - by rewrite bool_decide_false by lia.
  - by rewrite bool_decide_true by lia.
Defined.
