(* ===== verification/Args.v ===== *)
(** * Configuration: [args.h], [args.cpp], [ip_utils.h], [ip_utils.cpp]

    Configuration files hold sections which start with a line [host...]; the
    lines of a section are pairs of a name and a value.  Shown: there is one
    [Args] per section, it holds exactly what a section says (missing values are
    the defaults), and exactly which sections make an [Args].  Nothing bounds the
    length of the interface name, and a long one makes the wake-up crash. *)
From S2P Require Import Prelude ContainerUtils IntUtils NetText NetTextRef System IpAddress Ethernet Socket Wol.
Local Open Scope Z_scope.

(** ** [ip_utils] *)
Definition iface_chars : string := "qwertzuiopasdfghjklyxcvbnm.-0123456789".

Definition validate_iface (iface : string) : outcome string :=
  _ ← test_characters iface iface_chars ("iface contains invalid characters: " +:+ iface);
  Ret iface.

(** [parse_items]: from front to back *)
Fixpoint parse_items {A} (items : list string) (parser : string → outcome A) : outcome (list A) :=
  match items with
  | [] => Ret []
  | item :: items => x ← parser item; xs ← parse_items items parser; Ret (x :: xs)
  end.

(** ** [struct Args].  [syslog] is a reference to the global [to_syslog]. *)
Record Args := {
  interface : string;
  addresses : list IP_address;
  ports : list Z;
  mac : ether_addr;
  hostname : string;
  ping_tries : Z;
  wol_method : Wol_method;
}.
#[export] Instance Args_eq_dec : EqDecision Args.
Proof. solve_decision. Defined.

Definition args_syslog : M bool := w ← get; mret (to_syslog w).

Definition with_syslog (b : bool) (w : world) : world :=
  {| trace := trace w; signaled := signaled w; pcaps := pcaps w; handled := handled w;
     end_reasons := end_reasons w; objects := objects w; to_syslog := b |}.
Definition reset : M unit := modify (with_syslog false).

(** The strings the constructor gets *)
Record Section_values := {
  s_interface : string;
  s_address : list string;
  s_ports : list string;
  s_mac : string;
  s_hostname : string;
  s_ping_tries : string;
  s_wol_method : string;
}.
#[export] Instance Section_values_eq_dec : EqDecision Section_values.
Proof. solve_decision. Defined.

Definition def_iface : string := "lo".
Definition def_address_ipv4 : string := "10.0.0.1/16".
Definition def_address_ipv6 : string := "fe80::123/64".
Definition def_ports0 : string := "12345".
Definition def_ports1 : string := "23456".
Definition def_mac : string := "01:12:34:45:67:89".
Definition def_hostname : string := "".
Definition def_ping_tries : string := "5".
Definition def_wol_method : string := "ethernet".

Section args.
Context `{Net_text} `{Libc}.

(** The default constructor; [wol_method{}] is the first enumerator. *)
Definition args_default : Args :=
  {| interface := ""; addresses := []; ports := []; mac := replicate 6 0; hostname := "";
     ping_tries := 0; wol_method := wol_method_ethernet |}.

(** The members are initialised in the order of their declaration. *)
Definition args_new (s : Section_values) : outcome Args :=
  interface ← validate_iface (s_interface s);
  address ← parse_items (s_address s) parse_ip;
  ports ← parse_items (s_ports s) (str_to_integral uint16_t);
  mac ← mac_to_binary (s_mac s);
  hostname ← test_characters (s_hostname s) (iface_chars +:+ "-")
               ("invalid token in hostname: " +:+ s_hostname s);
  ping_tries ← str_to_integral unsigned_int (s_ping_tries s);
  wol_method ← parse_wol_method (s_wol_method s);
  if decide (address = []) then throw runtime_error "no ip address given" else
  if decide (ports = []) then throw runtime_error "no port given" else
  Ret {| interface := interface; addresses := address; ports := ports; mac := mac;
         hostname := hostname; ping_tries := ping_tries; wol_method := wol_method |}.

(** ** Reading a file

    The stream is the list of the lines which have not been read; [getline]
    fails, and with it the stream, when there is none. *)
Definition starts_host (line : string) : bool := bool_decide (String.substring 0 4 line = "host").

(** The variables of [read_args] before the loop *)
Definition section_start : Section_values :=
  {| s_interface := def_iface; s_address := []; s_ports := []; s_mac := def_mac;
     s_hostname := def_hostname; s_ping_tries := def_ping_tries; s_wol_method := def_wol_method |}.

(** One line of a section *)
Definition read_line (line : string) (s : Section_values) : Section_values :=
  if decide (line = "") then s else
  match split_string line " " with
  | [name; value] =>
      let '{| s_interface := i; s_address := a; s_ports := p; s_mac := m; s_hostname := h;
              s_ping_tries := t; s_wol_method := wm |} := s in
      if decide (name = "interface") then
        {| s_interface := value; s_address := a; s_ports := p; s_mac := m; s_hostname := h;
           s_ping_tries := t; s_wol_method := wm |}
      else if decide (name = "address") then
        {| s_interface := i; s_address := a ++ [value]; s_ports := p; s_mac := m; s_hostname := h;
           s_ping_tries := t; s_wol_method := wm |}
      else if decide (name = "port") then
        {| s_interface := i; s_address := a; s_ports := p ++ [value]; s_mac := m; s_hostname := h;
           s_ping_tries := t; s_wol_method := wm |}
      else if decide (name = "mac") then
        {| s_interface := i; s_address := a; s_ports := p; s_mac := value; s_hostname := h;
           s_ping_tries := t; s_wol_method := wm |}
      else if decide (name = "name") then
        {| s_interface := i; s_address := a; s_ports := p; s_mac := m; s_hostname := value;
           s_ping_tries := t; s_wol_method := wm |}
      else if decide (name = "ping_tries") then
        {| s_interface := i; s_address := a; s_ports := p; s_mac := m; s_hostname := h;
           s_ping_tries := value; s_wol_method := wm |}
      else if decide (name = "wol_method") then
        {| s_interface := i; s_address := a; s_ports := p; s_mac := m; s_hostname := h;
           s_ping_tries := t; s_wol_method := value |}
      else s
  | _ => s
  end.

(** The loop of [read_args]: the values, the lines left, and whether the stream
    is still good *)
Fixpoint read_section (lines : list string) (s : Section_values) : Section_values * (list string * bool) :=
  match lines with
  | [] => (s, ([], false))
  | line :: lines =>
      if starts_host line then (s, (lines, true)) else read_section lines (read_line line s)
  end.

(** The defaults for addresses and ports *)
Definition section_defaults (s : Section_values) : Section_values :=
  {| s_interface := s_interface s;
     s_address := if decide (s_address s = []) then [def_address_ipv4; def_address_ipv6] else s_address s;
     s_ports := if decide (s_ports s = []) then [def_ports0; def_ports1] else s_ports s;
     s_mac := s_mac s; s_hostname := s_hostname s; s_ping_tries := s_ping_tries s;
     s_wol_method := s_wol_method s |}.

Definition read_args (lines : list string) : outcome (Args * (list string * bool)) :=
  let '(s, rest) := read_section lines section_start in
  args ← args_new (section_defaults s);
  Ret (args, rest).

(** The loop which looks for the first section *)
Fixpoint skip_to_host (lines : list string) : list string * bool :=
  match lines with
  | [] => ([], false)
  | line :: lines => if starts_host line then (lines, true) else skip_to_host lines
  end.

(** [while (file)]; every round reads at least one line or ends the stream. *)
Fixpoint read_sections (fuel : nat) (lines : list string) (good : bool) : outcome (list Args) :=
  match fuel, good with
  | _, false => Ret []
  | O, true => Ret []
  | S fuel, true =>
      r ← read_args lines;
      let '(args, (lines, good)) := (r : Args * (list string * bool)) in
      rest ← read_sections fuel lines good;
      Ret (args :: rest)
  end.

(** [read_file]; [None]: the file cannot be opened *)
Definition read_contents (contents : option string) : outcome (list Args) :=
  match contents with
  | None => Ret []
  | Some contents =>
      let '(lines, good) := skip_to_host (split_string contents "010") in
      read_sections (S (length lines)) lines good
  end.

Definition read_file `{System} (filename : string) : M (list Args) :=
  contents ← call (Open_file filename);
  lift (read_contents contents).

(** ** [read_commandline]; the options are what [getopt_long] returns. *)
Inductive option_found := Opt_help | Opt_config (optarg : string) | Opt_syslog | Opt_unknown (optopt : Z) | Opt_other (c : Z).

Fixpoint read_options `{System} (opts : list option_found) (ret_val : list Args) : M (list Args) :=
  match opts with
  | [] => mret ret_val
  | Opt_help :: _ => end_process (Exit 0)
  | Opt_config optarg :: opts => args ← read_file optarg; read_options opts args
  | Opt_syslog :: opts => _ ← modify (with_syslog true); read_options opts ret_val
  | Opt_unknown _ :: opts | Opt_other _ :: opts => read_options opts ret_val
  end.
Definition read_commandline `{System} (opts : list option_found) : M (list Args) := read_options opts [].

(** [operator<<(std::ostream &, Args)] *)
Definition print_args (args : Args) (syslog : bool) : string :=
  "Args(interface = " +:+ interface args +:+ ", address = " +:+ print_vector print_ip (addresses args)
  +:+ ", ports = " +:+ print_vector (to_string uint16_t) (ports args)
  +:+ ", mac = " +:+ binary_to_mac (mac args) +:+ ", hostname = " +:+ hostname args
  +:+ ", print_tries = " +:+ to_string unsigned_int (ping_tries args)
  +:+ ", wol_method = " +:+ print_wol_method (wol_method args)
  +:+ ", syslog = " +:+ (if syslog then "1" else "0") +:+ ")".
End args.

(** ** Which sections make which [Args]

    Names are made of the accepted characters and may have any length; the addresses and
    the ports are those written, at least one of each; numbers are the numbers written
    and fit their types; the MAC address and the method are known. *)
Record args_made `{Net_text} `{Libc} (s : Section_values) (a : Args) : Prop := {
  made_interface : interface a = s_interface s ∧ Forall (λ c, c ∈ chars iface_chars) (chars (interface a));
  made_addresses : Forall2 (λ item ip, parse_ip item = Ret ip) (s_address s) (addresses a) ∧ addresses a ≠ [];
  made_ports : Forall2 (number_read uint16_t) (s_ports s) (ports a) ∧ ports a ≠ [];
  made_mac : ether_aton (s_mac s) = Some (mac a);
  made_hostname : hostname a = s_hostname s ∧ Forall (λ c, c ∈ chars (iface_chars +:+ "-")) (chars (hostname a));
  made_ping_tries : number_read unsigned_int (s_ping_tries s) (ping_tries a);
  made_wol_method : (s_wol_method s, wol_method a) ∈ [("ethernet", wol_method_ethernet); ("udp", wol_method_udp)];
}.

Lemma parse_items_Ret {A} items (parser : string → outcome A) xs :
  parse_items items parser = Ret xs ↔ Forall2 (λ item x, parser item = Ret x) items xs.
Proof.
  revert xs. induction items as [|item items IH]; intros xs; cbn.
  - split; [by intros [= <-]|by inversion 1].
  - split.
    + intros Hxs. outcome_inv. constructor; [done|by apply IH].
    + inversion 1 as [|? x ? xs' Hx Hxs]; subst. rewrite Hx. cbn. apply IH in Hxs as ->. done.
Qed.
Lemma Forall2_same {A B} (P Q : A → B → Prop) l k :
  (∀ x y, P x y ↔ Q x y) → Forall2 P l k ↔ Forall2 Q l k.
Proof. intros HPQ. split; intros Hl; (eapply Forall2_impl; [exact Hl|]); intros; by apply HPQ. Qed.

Lemma parse_wol_method_Ret name m :
  parse_wol_method name = Ret m ↔ (name, m) ∈ [("ethernet", wol_method_ethernet); ("udp", wol_method_udp)].
Proof.
  rewrite !elem_of_cons, elem_of_nil. split; [|by intros [[= -> ->]|[[= -> ->]|[]]]].
  unfold parse_wol_method. repeat case_decide; subst; [..|done]; intros [= <-]; auto.
Qed.
Lemma mac_to_binary_Ret `{Net_text} s m : mac_to_binary s = Ret m ↔ ether_aton s = Some m.
Proof. unfold mac_to_binary. destruct (ether_aton s); split; by intros [= ->]. Qed.

Section soundness.
Context `{Net_text} `{Libc}.

Lemma args_new_Ret s a : args_new s = Ret a ↔ args_made s a.
Proof.
  assert (∀ ss ps, Forall2 (λ item p, str_to_integral uint16_t item = Ret p) ss ps ↔ Forall2 (number_read uint16_t) ss ps) as Hports.
  { intros ss ps. apply Forall2_same. intros. by apply str_to_integral_Ret. }
  split.
  - unfold args_new, validate_iface. intros Ha.
    repeat (apply bind_Ret in Ha as (? & ? & Ha)). repeat case_decide; try done. injection Ha as <-. outcome_inv.
    repeat match goal with H : test_characters _ _ _ = Ret _ |- _ => apply test_characters_Ret in H as [-> H] end.
    split; cbn [interface addresses ports mac hostname ping_tries wol_method].
    + split; [done|]. by apply contains_only_valid_spec.
    + split; [|done]. by apply parse_items_Ret.
    + split; [|done]. by apply Hports, parse_items_Ret.
    + by apply mac_to_binary_Ret.
    + split; [done|]. by apply contains_only_valid_spec.
    + by apply str_to_integral_Ret.
    + by apply parse_wol_method_Ret.
  - destruct a as [i ads ps m hn pt wm]. intros [[Hi Hic] [Ha Hane] [Hp Hpne] Hm [Hh Hhc] Hpt Hwm].
    cbn [interface addresses ports mac hostname ping_tries wol_method] in *.
    apply contains_only_valid_spec in Hic, Hhc. apply parse_items_Ret in Ha. apply Hports, parse_items_Ret in Hp.
    apply mac_to_binary_Ret in Hm. apply str_to_integral_Ret in Hpt; [|done]. apply parse_wol_method_Ret in Hwm.
    unfold args_new, validate_iface, test_characters. rewrite <-Hi, <-Hh, Hic, Hhc. cbn [mbind outcome_bind].
    rewrite Ha, Hp, Hm. cbn [mbind outcome_bind]. rewrite Hpt. cbn [mbind outcome_bind]. rewrite Hwm. cbn [mbind outcome_bind].
    by rewrite !decide_False by done.
Qed.
End soundness.

(** ** Sections *)

(** The lines in front of the first line [host...] and the bodies of the
    sections *)
Fixpoint bodies (lines : list string) : list string * list (list string) :=
  match lines with
  | [] => ([], [])
  | line :: lines =>
      let '(body, rest) := bodies lines in
      if starts_host line then ([], body :: rest) else (line :: body, rest)
  end.
Definition section_bodies (lines : list string) : list (list string) := (bodies lines).2.

Section reading.
Context `{Net_text} `{Libc}.

Definition section_args (body : list string) : outcome Args :=
  args_new (section_defaults (foldl (λ s line, read_line line s) section_start body)).

Lemma read_section_bodies lines s :
  read_section lines s =
    (foldl (λ s line, read_line line s) s (bodies lines).1, skip_to_host lines).
Proof.
  revert s. induction lines as [|line lines IH]; intros s; cbn; [done|].
  destruct (bodies lines) as [body rest]. destruct (starts_host line); [done|]. apply IH.
Qed.

Lemma skip_to_host_bodies lines :
  match skip_to_host lines with
  | (rest, true) => section_bodies lines = (bodies rest).1 :: section_bodies rest
                    ∧ (length rest < length lines)%nat
  | (_, false) => section_bodies lines = []
  end.
Proof.
  induction lines as [|line lines IH]; cbn; [done|]. unfold section_bodies in *. cbn.
  destruct (starts_host line).
  - destruct (bodies lines) as [body rest]. split; [done|lia].
  - destruct (skip_to_host lines) as [rest [|]], (bodies lines) as [body bs]; cbn in *; [|done].
    split; [tauto|lia].
Qed.

Lemma read_sections_bodies n lines :
  (length lines < n)%nat →
  read_sections n lines true = mapM section_args ((bodies lines).1 :: section_bodies lines).
Proof.
  revert lines. induction n as [|n IH]; intros lines Hn; [lia|].
  change (mapM section_args (?body :: ?rest))
    with (y ← section_args body; k ← mapM section_args rest; mret (y :: k)).
  cbn [read_sections]. unfold read_args. rewrite read_section_bodies. fold (section_args (bodies lines).1).
  destruct (section_args _) as [args|e|u]; cbn [mbind outcome_bind]; [|done..].
  pose proof (skip_to_host_bodies lines) as Hs. destruct (skip_to_host lines) as [rest [|]].
  - destruct Hs as [-> Hl]. by rewrite IH by lia.
  - rewrite Hs. by destruct n.
Qed.

Lemma read_contents_sections contents :
  read_contents (Some contents) = mapM section_args (section_bodies (split_string contents "010")).
Proof.
  unfold read_contents. generalize (split_string contents "010") as lines. intros lines.
  pose proof (skip_to_host_bodies lines) as Hs. destruct (skip_to_host lines) as [rest [|]].
  - destruct Hs as [-> _]. apply read_sections_bodies. lia.
  - by rewrite Hs.
Qed.

Lemma length_section_bodies lines : length (section_bodies lines) = length (filter starts_host lines).
Proof.
  unfold section_bodies. induction lines as [|line lines IH]; [done|].
  rewrite filter_cons. cbn [bodies]. destruct (bodies lines) as [body rest]. cbn in IH.
  destruct (decide (starts_host line)) as [E|E].
  - rewrite (Is_true_true_1 _ E). cbn. by rewrite IH.
  - destruct (starts_host line); [by destruct E|]. exact IH.
Qed.
End reading.

(** ** Writing sections *)

(** A value which can stand in a file *)
Definition value_ok (v : string) : Prop :=
  v ≠ "" ∧ (" "%char ∉ chars v) ∧ ("010"%char ∉ chars v).
#[export] Instance value_ok_dec v : Decision (value_ok v).
Proof. unfold value_ok. apply _. Defined.

Definition setting (name value : string) : string := name +:+ " " +:+ value.

Definition render (s : Section_values) : list string :=
  [setting "name" (s_hostname s); setting "interface" (s_interface s)]
  ++ (setting "address" <$> s_address s) ++ (setting "port" <$> s_ports s)
  ++ [setting "mac" (s_mac s); setting "ping_tries" (s_ping_tries s);
      setting "wol_method" (s_wol_method s)].

Definition renderable (s : Section_values) : Prop :=
  value_ok (s_interface s) ∧ Forall value_ok (s_address s) ∧ Forall value_ok (s_ports s)
  ∧ value_ok (s_mac s) ∧ value_ok (s_hostname s) ∧ value_ok (s_ping_tries s)
  ∧ value_ok (s_wol_method s).
#[export] Instance renderable_dec s : Decision (renderable s).
Proof. unfold renderable. apply _. Defined.

(** A file with these sections *)
Definition unlines (lines : list string) : string :=
  foldr (λ line s, line +:+ String "010" s) "" lines.
Definition render_file (ss : list Section_values) : string :=
  unlines (ss ≫= λ s, "host" :: render s).

Lemma split_setting (name value : string) :
  " "%char ∉ chars name → value_ok value → split_string (setting name value) " " = [name; value].
Proof.
  intros Hn (Hne & Hsp & _). unfold split_string, setting. rewrite !chars_app.
  change (chars " " ++ chars value) with (" "%char :: chars value).
  rewrite split_delim by done. rewrite split_nodelim; [cbn; by rewrite !of_chars_chars| |done].
  by rewrite chars_nil.
Qed.

(** What one setting changes *)
Definition set_value (name value : string) (s : Section_values) : Section_values :=
  let '{| s_interface := i; s_address := a; s_ports := p; s_mac := m; s_hostname := h;
          s_ping_tries := t; s_wol_method := wm |} := s in
  match name with
  | "interface" => {| s_interface := value; s_address := a; s_ports := p; s_mac := m;
                      s_hostname := h; s_ping_tries := t; s_wol_method := wm |}
  | "address" => {| s_interface := i; s_address := a ++ [value]; s_ports := p; s_mac := m;
                    s_hostname := h; s_ping_tries := t; s_wol_method := wm |}
  | "port" => {| s_interface := i; s_address := a; s_ports := p ++ [value]; s_mac := m;
                 s_hostname := h; s_ping_tries := t; s_wol_method := wm |}
  | "mac" => {| s_interface := i; s_address := a; s_ports := p; s_mac := value;
                s_hostname := h; s_ping_tries := t; s_wol_method := wm |}
  | "name" => {| s_interface := i; s_address := a; s_ports := p; s_mac := m;
                 s_hostname := value; s_ping_tries := t; s_wol_method := wm |}
  | "ping_tries" => {| s_interface := i; s_address := a; s_ports := p; s_mac := m;
                       s_hostname := h; s_ping_tries := value; s_wol_method := wm |}
  | "wol_method" => {| s_interface := i; s_address := a; s_ports := p; s_mac := m;
                       s_hostname := h; s_ping_tries := t; s_wol_method := value |}
  | _ => s
  end.

Definition setting_names : list string :=
  ["interface"; "address"; "port"; "mac"; "name"; "ping_tries"; "wol_method"].

Lemma read_setting name value s :
  name ∈ setting_names → value_ok value → read_line (setting name value) s = set_value name value s.
Proof.
  intros Hn Hv. unfold read_line.
  assert ((" "%char ∉ chars name) ∧ setting name value ≠ "") as [Hsp Hne].
  { assert (Forall (λ n, (" "%char ∉ chars n) ∧ n ≠ "") setting_names) as Hall by by_decide.
    rewrite Forall_forall in Hall. destruct (Hall _ Hn) as [? Hne]. split; [done|].
    by destruct name. }
  rewrite decide_False, split_setting by done.
  unfold setting_names in Hn. rewrite !elem_of_cons, elem_of_nil in Hn.
  destruct s. by destruct_or! Hn; subst name.
Qed.

(** Lines of the same name are appended. *)
Lemma read_addresses vs s :
  Forall value_ok vs →
  foldl (λ s line, read_line line s) s (setting "address" <$> vs) =
  {| s_interface := s_interface s; s_address := s_address s ++ vs; s_ports := s_ports s;
     s_mac := s_mac s; s_hostname := s_hostname s; s_ping_tries := s_ping_tries s;
     s_wol_method := s_wol_method s |}.
Proof.
  intros Hvs. revert s. induction Hvs as [|v vs Hv _ IH]; intros s.
  { cbn. rewrite app_nil_r. by destruct s. }
  cbn [fmap list_fmap foldl]. rewrite IH. rewrite read_setting by (done || by_decide).
  destruct s. cbn. by rewrite <-(assoc_L (++)).
Qed.

Lemma read_ports vs s :
  Forall value_ok vs →
  foldl (λ s line, read_line line s) s (setting "port" <$> vs) =
  {| s_interface := s_interface s; s_address := s_address s; s_ports := s_ports s ++ vs;
     s_mac := s_mac s; s_hostname := s_hostname s; s_ping_tries := s_ping_tries s;
     s_wol_method := s_wol_method s |}.
Proof.
  intros Hvs. revert s. induction Hvs as [|v vs Hv _ IH]; intros s.
  { cbn. rewrite app_nil_r. by destruct s. }
  cbn [fmap list_fmap foldl]. rewrite IH. rewrite read_setting by (done || by_decide).
  destruct s. cbn. by rewrite <-(assoc_L (++)).
Qed.

Lemma read_render s :
  renderable s → foldl (λ s line, read_line line s) section_start (render s) = s.
Proof.
  intros (Hi & Ha & Hp & Hm & Hh & Ht & Hw). unfold render. rewrite !foldl_app.
  rewrite read_ports, read_addresses by done. cbn [foldl].
  rewrite !read_setting by (done || by_decide). by destruct s.
Qed.

(** ** The file *)
Lemma split_unlines lines :
  Forall (λ line, "010"%char ∉ chars line) lines → split_string (unlines lines) "010" = lines.
Proof.
  unfold split_string. induction 1 as [|line lines Hl _ IH]; [done|].
  change (unlines (line :: lines)) with (line +:+ String "010" (unlines lines)).
  rewrite chars_app. change (chars (String "010" ?s)) with ("010"%char :: chars s).
  rewrite split_delim by done. by rewrite fmap_cons, of_chars_chars, IH.
Qed.

Lemma setting_line name value :
  "010"%char ∉ chars name → value_ok value → "010"%char ∉ chars (setting name value).
Proof.
  intros Hn (_ & _ & Hv). unfold setting. rewrite !chars_app, !not_elem_of_app.
  split_and!; [done|by_decide|done].
Qed.

Lemma render_lines s : renderable s → Forall (λ line, "010"%char ∉ chars line) (render s).
Proof.
  intros (Hi & Ha & Hp & Hm & Hh & Ht & Hw). unfold render. rewrite !Forall_app, !Forall_fmap.
  split_and!; repeat (apply Forall_cons; split); try apply Forall_nil_2;
    try (apply setting_line; [by_decide|done]).
  - eapply Forall_impl; [exact Ha|]. intros v ?. apply setting_line; [by_decide|done].
  - eapply Forall_impl; [exact Hp|]. intros v ?. apply setting_line; [by_decide|done].
Qed.

Lemma bodies_app lines rest :
  Forall (λ line, starts_host line = false) lines →
  bodies (lines ++ rest) = (lines ++ (bodies rest).1, (bodies rest).2).
Proof.
  induction 1 as [|line lines Hl _ IH]; cbn; [by destruct (bodies rest)|].
  by rewrite IH, Hl.
Qed.

Lemma render_no_host s : Forall (λ line, starts_host line = false) (render s).
Proof.
  unfold render. rewrite !Forall_app, !Forall_fmap.
  split_and!; repeat (apply Forall_cons; split); try apply Forall_nil_2; try done.
  all: apply Forall_forall; intros v _; done.
Qed.

Lemma bodies_render ss :
  bodies (ss ≫= λ s, "host" :: render s) = ([], render <$> ss).
Proof.
  induction ss as [|s ss IH]; [done|]. rewrite bind_cons.
  change (("host" :: render s) ++ ?l) with ("host" :: (render s ++ l)). cbn [bodies].
  rewrite (bodies_app _ _ (render_no_host s)), IH. cbn. by rewrite app_nil_r.
Qed.

(** ** Properties *)

(** C25: the constructor makes an [Args] exactly of the sections whose interface and host
    name have only accepted characters, with at least one address and one port, whose
    addresses and MAC address can be parsed, whose ports and number of tries are
    accepted numbers within the bounds of their types, and whose method is known; and it holds what the
    section says: the names as they are, every address and every port in its order,
    the numbers which are written.  Then the addresses are well-formed and the MAC
    address has six bytes.  The length of the names is not bounded. *)
Theorem args_new_exact `{Net_text_ok} `{Libc} s a :
  (args_new s = Ret a ↔ args_made s a)
  ∧ (args_made s a → Forall ip_wf (addresses a) ∧ mac_wf (mac a)).
Proof.
  split; [apply args_new_Ret|]. intros [_ [Ha _] _ Hm _ _ _]. split; [|by eapply aton_wf].
  eapply Forall2_Forall_r; [exact Ha|]. apply Forall_true. intros item ip. apply parse_ip_wf.
Qed.

(** C24: reading a file gives one [Args] per line which starts with [host], made
    from the lines up to the next one; the first section which cannot be made
    decides the exception. *)
Theorem read_contents_by_section `{Net_text} `{Libc} contents :
  read_contents (Some contents) = mapM section_args (section_bodies (split_string contents "010"))
  ∧ length (section_bodies (split_string contents "010"))
    = length (filter starts_host (split_string contents "010")).
Proof. split; [apply read_contents_sections|apply length_section_bodies]. Qed.

(** C23: writing sections to a file and reading the file gives the [Args] of these
    sections, in their order. *)
Theorem config_roundtrip `{Net_text} `{Libc} ss :
  Forall renderable ss →
  read_contents (Some (render_file ss)) = mapM (λ s, args_new (section_defaults s)) ss.
Proof.
  intros Hss. rewrite read_contents_sections. unfold render_file. rewrite split_unlines.
  - unfold section_bodies. rewrite bodies_render. cbn [snd].
    induction Hss as [|s ss Hs _ IH]; [done|].
    change (mapM ?f (?g <$> s :: ss)) with (y ← f (g s); k ← mapM f (g <$> ss); mret (y :: k)).
    rewrite IH. unfold section_args. by rewrite read_render.
  - induction Hss as [|s ss Hs _ IH]; [constructor|]. rewrite bind_cons, Forall_app. split; [|done].
    constructor; [by_decide|by apply render_lines].
Qed.

(** ** Witnesses *)
Definition example_section : Section_values :=
  {| s_interface := "enx00155d5b8d2c.100"; s_address := ["10.0.0.1/16"]; s_ports := ["12345"; "22"];
     s_mac := "01:12:34:45:67:89"; s_hostname := "vserver2"; s_ping_tries := "5";
     s_wol_method := "ethernet" |}.

(** An interface name of nineteen characters is accepted, and the wake-up writes past the
    end of the field for it. *)
Lemma args_new_exact_witness :
  ∃ a, @args_new ref_net glibc example_section = Ret a ∧ @args_made ref_net glibc example_section a
       ∧ Forall ip_wf (addresses a) ∧ mac_wf (mac a)
       ∧ (IFNAMSIZ < String.length (interface a))%nat
       ∧ (@wol_ethernet wol_system (interface a) (mac a) world_init).1 = Ended (Crash write_past_end).
Proof.
  destruct (@args_new ref_net glibc example_section) as [a| |] eqn:Ha; [|by vm_compute in Ha..].
  destruct (@args_new_exact ref_net ref_net_ok glibc example_section a) as [[Hmade _] Hwf].
  specialize (Hmade Ha). destruct (Hwf Hmade) as [Hads Hmac]. exists a.
  split; [reflexivity|]. split; [exact Hmade|]. split; [exact Hads|]. split; [exact Hmac|].
  vm_compute in Ha. injection Ha as <-. split; [unfold IFNAMSIZ; cbn; lia|by vm_compute].
Defined.

Lemma config_roundtrip_witness :
  let ss := [example_section; example_section] in
  Forall renderable ss ∧
  @read_contents ref_net glibc (Some (render_file ss))
  = mapM (λ s, @args_new ref_net glibc (section_defaults s)) ss.
Proof.
  intros ss. assert (Forall renderable ss) as Hss by by_decide. split; [done|].
  by apply (@config_roundtrip ref_net glibc ss).
Defined.
