(* ===== verification/SleepProxy.v ===== *)
(** * The sleep proxy: [libsleep_proxy.h], [libsleep_proxy.cpp]

    [emulate_host] takes the place of a sleeping machine: it adds the addresses
    and firewall rules, waits for a connection, gives everything back, wakes the
    machine, waits until it answers and replays the packet.  Shown: whatever
    happens, addresses, rules and the registry of captures are as before; the
    magic packet is sent and the captured packet replayed only after the addresses
    and rules are gone and while ICMP errors are blocked; how [ping_and_wait]
    decides; what [replay_data] sends. *)
From S2P Require Import Prelude ContainerUtils IntUtils NetText NetTextRef System IpAddress Ethernet Ip PacketParser Pcap FileDescriptor SpawnProcess ScopeGuard Socket Wol WolWatcher DuplicateAddressWatcher Args.
Local Open Scope Z_scope.

Inductive Emulate_host_status :=
  | success | wake_failure | signal_received | host_duplicate_address | undefined_error.
#[export] Instance Emulate_host_status_eq_dec : EqDecision Emulate_host_status.
Proof. solve_decision. Defined.

Section sleep_proxy.
Context `{System} `{Fuel} `{Net_text} `{Libc} `{Host}.

(** ** Waiting for a connection *)

(** What is constructed for one address, in this order *)
Definition address_functors (args : Args) (ip : IP_address) : list Aquire_release :=
  [command (Reject_tp ip TP_TCP); command (Reject_tp ip TP_UDP)]
  ++ ((λ port, command (Drop_port ip port)) <$> ports args)
  ++ [command (Temp_ip (interface args) ip)].

Definition setup_firewall_and_ips (args : Args) : M (list Scope_guard) :=
  emplace_all (mret <$> (addresses args ≫= address_functors args)) [].

Definition rule_to_listen_on_ips_and_ports (ips : list IP_address) (ports : list Z) : string :=
  let bpf := "tcp[tcpflags] == tcp-syn" in
  let bpf := bpf +:+ " and dst host (" +:+ join ips get_pure_ip " or " +:+ ")" in
  bpf +:+ " and dst port (" +:+ join ports (λ port, to_string uint16_t (identity port)) " or " +:+ ")".

(** The body of [wait_and_listen] behind the guards *)
Definition listen (args : Args) (pc : nat)
    : M (Loop_end_reason * list Z * IP_address * IP_address) :=
  let bpf := rule_to_listen_on_ips_and_ports (addresses args) (ports args) in
  _ ← set_filter pc bpf;
  datalink ← get_datalink pc;
  r ← loop pc 1 (λ catcher header packet, lift (catch_packet catcher header packet)) (catch_new datalink);
  let '(ler, catcher) := (r : Loop_end_reason * Catch_incoming_connection) in
  match (headers catcher).2 with
  | None =>
      if decide (packets_captured = ler)
      then raise_exn runtime_error "received some data but parsing headers did not succeed"
      else mret (ler, data catcher, IP_address_default, IP_address_default)
  | Some ipp => mret (ler, data catcher, m_source ipp, m_destination ipp)
  end.

(** The guards of [wait_and_listen] *)
Definition watchers (args : Args) (pc : nat) : list (M Aquire_release) :=
  [make_wol_watcher (interface args) (mac args) pc; mret (ptr_guard pc)]
  ++ ((λ ip, make_duplicate_address_watcher (interface args) ip pc) <$> addresses args).

Definition wait_and_listen (args : Args) : M (Loop_end_reason * list Z * IP_address * IP_address) :=
  pc ← pcap_open "any";
  finally
    (guards ← emplace_all (watchers args pc) [];
     finally (listen args pc) (guards_destroy guards))
    (pcap_destroy pc).

(** ** Waking the host *)

Definition get_ping_cmd (ip : IP_address) : string :=
  if decide (family ip = AF_INET) then "ping" else "ping6".

Definition get_bindable_ip (iface ip : string) : string :=
  if String.prefix "fe80" ip then ip +:+ "%" +:+ iface else ip.

(** The loop of [ping_and_wait]; [n] is the number of tries left. *)
Fixpoint ping_loop (n : nat) (cmd : string) (ret_val : Z) : M Z :=
  match n with
  | O => mret ret_val
  | S n =>
      signaled ← is_signaled;
      if negb signaled && bool_decide (ret_val ≠ 0)
      then ret_val ← spawn (split_string cmd " "); ping_loop n cmd ret_val
      else mret ret_val
  end.

Definition ping_and_wait (iface : string) (ip : IP_address) (tries : Z) : M bool :=
  let ipcmd := get_ping_cmd ip in
  let cmd := ipcmd +:+ " -c 1 " +:+ get_bindable_ip iface (pure ip) in
  ret_val ← ping_loop (Z.to_nat tries) cmd 1;
  mret (bool_decide (ret_val = 0)).

Definition replay_data (iface : string) (type : Z) (data : list Z) (target_mac : ether_addr) : M unit :=
  headers ← lift (get_headers type data);
  match headers.1 with
  | None => mret tt
  | Some ll =>
      payload_type ← lift (match headers.2 with
                           | Some i => Ret (version_code (m_version i))
                           | None => Undef null_dereference
                           end);
      data_iter ← lift (advance (ll_header_length ll) data);
      let payload := vec_append (create_ethernet_header target_mac (ll_source ll) payload_type) data_iter in
      pc ← pcap_open iface;
      finally (_ ← inject pc payload; mret tt) (pcap_destroy pc)
  end.

(** Waking, waiting and replaying *)
Definition wake (args : Args) (data : list Z) (destination : IP_address) : M Emulate_host_status :=
  _ ← (if decide (wol_method args = wol_method_udp) then wol_udp (mac args)
       else wol_ethernet (interface args) (mac args));
  wake_success ← ping_and_wait (interface args) destination (ping_tries args);
  _ ← replay_data (interface args) DLT_LINUX_SLL data (mac args);
  mret (if (wake_success : bool) then success else wake_failure).

(** The vector [locks] is destroyed on every way out; [clear] empties it before
    the machine is woken. *)
Definition emulate_host (args : Args) : M Emulate_host_status :=
  locks ← setup_firewall_and_ips args;
  r ← on_raise (wait_and_listen args) (guards_destroy locks);
  let '(ler, data, source, destination) := (r : Loop_end_reason * list Z * IP_address * IP_address) in
  let leave status := _ ← guards_destroy locks; mret status in
  match ler with
  | duplicate_address => leave host_duplicate_address
  | signal => leave signal_received
  | unset => leave undefined_error
  | error => leave undefined_error
  | packets_captured =>
      block_icmp ← on_raise (guard_new (command (Block_icmp source))) (guards_destroy locks);
      finally
        (_ ← guards_destroy locks; wake args data destination)
        (guard_destroy block_icmp)
  end.
End sleep_proxy.

(** ** Everything is given back *)
Section restoring.
Context `{System} `{Fuel} `{Net_text} `{Libc} `{Host}.

Lemma functors_take_all (fs : list (M Aquire_release)) :
  Forall (λ f, ∃ ok, makes f ok) fs → ∃ δ, functors_take fs δ.
Proof.
  induction 1 as [|f fs [ok Hf] _ [δ Hδ]]; [exists (λ _, 0); by apply take_nil|].
  eexists. eapply take_cons; [done..|]. by intros k.
Qed.

Lemma makes_command (f : Action → outcome string) :
  (∃ k, names_resource f k) → ∃ ok, makes (mret (command f)) ok.
Proof. intros [k Hk]. eexists. by apply makes_ret, take_command_balance. Qed.

Lemma address_functors_make args ip :
  Forall (λ f, ∃ ok, makes (mret f) ok) (address_functors args ip).
Proof.
  unfold address_functors. rewrite !Forall_app, Forall_fmap. split_and!.
  - repeat (apply Forall_cons; split); [apply makes_command, Reject_tp_names..|apply Forall_nil_2].
  - apply Forall_forall. intros port _. apply makes_command, Drop_port_names.
  - apply Forall_singleton, makes_command. eexists. apply Temp_ip_names.
Qed.

Lemma setup_functors_take args :
  ∃ δ, functors_take (mret <$> (addresses args ≫= address_functors args)) δ.
Proof.
  apply functors_take_all. rewrite Forall_fmap. induction (addresses args) as [|ip ips IH]; [constructor|].
  rewrite bind_cons, Forall_app. split; [apply address_functors_make|exact IH].
Qed.

(** The watchers neither add rules nor addresses. *)
Lemma thread_join_emits ks o : ks Threads = true → emits (of_kind ks) (thread_join_if_joinable o).
Proof. intros Hk. unfold thread_join_if_joinable. steps_tac. Qed.
Lemma thread_join_registry o : steps same_registry (thread_join_if_joinable o).
Proof. unfold thread_join_if_joinable. steps_tac. Qed.

Lemma wol_watcher_stop_accounts s : steps same_accounts (wol_watcher_stop s).
Proof.
  apply steps_same_accounts; unfold wol_watcher_stop; steps_tac;
    auto using break_loop_emits, break_loop_registry, thread_join_emits, thread_join_registry.
Qed.

Lemma pcap_destroy_accounts pc : steps same_accounts (pcap_destroy pc).
Proof. apply steps_same_accounts; [by apply pcap_destroy_emits|apply pcap_destroy_registry]. Qed.

Lemma stop_watcher_accounts d : steps same_accounts (stop_watcher d).
Proof.
  apply steps_same_accounts; unfold stop_watcher; steps_tac;
    auto using thread_join_emits, thread_join_registry.
Qed.

Lemma thread_assign_accounts o : steps same_accounts (thread_assign o).
Proof. apply steps_same_accounts; unfold thread_assign; steps_tac. Qed.

Lemma make_wol_watcher_makes iface mac pc : makes (make_wol_watcher iface mac pc) None.
Proof.
  intros w. unfold make_wol_watcher. wp_step.
  assert (keeps_balance (wol_watcher_new iface mac pc)) as Hk by (unfold wol_watcher_new; keeps_io).
  eapply wp_mono; [apply Hk|..]; [|done]. intros s w' Hb. wp_step. split; [|exact Hb].
  apply accounted_silent; cbn [apply dispose].
  - intros a. unfold wol_watcher_apply. steps_tac; auto using wol_watcher_stop_accounts, thread_assign_accounts.
  - intros a w1. unfold wol_watcher_apply. wp_step. apply (wp_of_steps (λ _ _, True)); [done| |done].
    intros _ w2 _. wp_step. apply (wp_of_steps (λ _ _, True)); [done| |done]. intros _ w3 _. by wp_step.
  - unfold wol_watcher_destroy. steps_tac; auto using wol_watcher_stop_accounts, pcap_destroy_accounts.
Qed.

Lemma make_daw_makes iface ip pc : makes (make_duplicate_address_watcher iface ip pc) None.
Proof.
  intros w. unfold make_duplicate_address_watcher. wp_step.
  assert (keeps_balance (daw_new iface ip pc)) as Hk.
  { unfold daw_new. apply keeps_bind; [apply get_mac_keeps|]. intros m. keeps_io. }
  eapply wp_mono; [apply Hk|..]; [|done]. intros d w' Hb. wp_step. split; [|exact Hb].
  apply accounted_silent; cbn [apply dispose]; [| |apply stop_watcher_accounts].
  - intros a. unfold daw_apply. steps_tac; auto using stop_watcher_accounts, thread_assign_accounts.
    split; [unfold same_commands; cbn; by rewrite command_states_snoc|by split].
  - intros a w1. unfold daw_apply. wp_step. apply (wp_of_steps (λ _ _, True)); [done| |done].
    intros _ w2 _. wp_step. apply (wp_of_steps (λ _ _, True)); [done| |done]. intros _ w3 _. by wp_step.
Qed.

Lemma watchers_take args pc : ∃ δ, functors_take (watchers args pc) δ.
Proof.
  apply functors_take_all. unfold watchers. rewrite Forall_app, Forall_fmap. split.
  - repeat (apply Forall_cons; split); try apply Forall_nil_2.
    + eexists. apply make_wol_watcher_makes.
    + eexists. apply makes_ret, ptr_guard_accounted.
  - apply Forall_forall. intros ip _. eexists. apply make_daw_makes.
Qed.

(** A block with a vector of guards *)
Lemma keeps_guarded {A} fs (body : M A) :
  (∃ δ, functors_take fs δ) → keeps_balance body →
  keeps_balance (guards ← emplace_all fs []; finally body (guards_destroy guards)).
Proof.
  intros [δ Hfs] Hbody w. wp_step. eapply wp_mono; [by apply (emplace_all_balance fs δ [] (λ _, 0)), hold_nil|..].
  2:{ intros e w' Hb k. cbn. rewrite Hb. lia. }
  intros gs w1 [Hg Hb]. wp_step. eapply wp_mono; [apply Hbody|..].
  all: intros ? w2 Hb2; (eapply wp_mono; [by apply guards_destroy_balance|..]; [|done]);
    intros ? w3 Hb3 k; cbn; rewrite Hb3, Hb2, Hb; lia.
Qed.

Lemma listen_keeps args pc : keeps_balance (listen args pc).
Proof.
  apply keeps_balance_emits; unfold listen; steps_tac;
    auto using set_filter_emits, set_filter_registry, get_datalink_emits, get_datalink_registry.
  - apply loop_emits; [done|]. intros. steps_tac.
  - apply loop_registry. intros. steps_tac.
Qed.

Lemma wait_and_listen_keeps args : keeps_balance (wait_and_listen args).
Proof.
  unfold wait_and_listen. apply keeps_bind; [keeps_io|]. intros pc.
  apply keeps_finally; [|by apply keeps_balance_same, pcap_destroy_accounts].
  apply keeps_guarded; [apply watchers_take|apply listen_keeps].
Qed.
Lemma inject_emits ks id data :
  ks Injection = true → ks Capture = true → emits (of_kind ks) (inject id data).
Proof. intros Hi Hc. unfold inject. steps_tac. Qed.
Lemma inject_registry id data : steps same_registry (inject id data).
Proof. unfold inject. steps_tac. Qed.

Definition replays (k : kind) : bool := match k with Injection | Capture => true | _ => false end.
Lemma replay_data_emits iface type data m ks :
  ks Injection = true → ks Capture = true → emits (of_kind ks) (replay_data iface type data m).
Proof.
  intros Hi Hc. unfold replay_data. steps_tac; auto using pcap_open_emits, pcap_destroy_emits, inject_emits.
Qed.
Lemma replay_data_registry iface type data m : steps same_registry (replay_data iface type data m).
Proof.
  unfold replay_data. steps_tac; auto using pcap_open_registry, pcap_destroy_registry, inject_registry.
Qed.

(** The command which pings *)
Definition ping_cmd (iface : string) (ip : IP_address) : string :=
  get_ping_cmd ip +:+ " -c 1 " +:+ get_bindable_ip iface (pure ip).
Definition ping_argv (iface : string) (ip : IP_address) : list string :=
  c_cut <$> split_string (ping_cmd iface ip) " ".

Lemma ping_argv_polarity iface ip : polarity (ping_argv iface ip) = None.
Proof.
  unfold ping_argv, ping_cmd, get_ping_cmd. case_decide.
  - change ("ping" +:+ _) with ("ping -c 1" +:+ String " " (get_bindable_ip iface (pure ip))).
    by rewrite split_string_prefix, fmap_app.
  - change ("ping6" +:+ _) with ("ping6 -c 1" +:+ String " " (get_bindable_ip iface (pure ip))).
    by rewrite split_string_prefix, fmap_app.
Qed.

Lemma is_signaled_accounts : steps same_accounts is_signaled.
Proof. apply steps_same_accounts; [by apply is_signaled_emits|apply is_signaled_registry]. Qed.

Lemma ping_loop_keeps n iface ip r : keeps_balance (ping_loop n (ping_cmd iface ip) r).
Proof.
  revert r. induction n as [|n IH]; intros r; cbn [ping_loop]; [keeps_io|].
  apply keeps_bind; [apply keeps_balance_same, is_signaled_accounts|]. intros sg.
  destruct (negb sg && _); [|keeps_io].
  apply keeps_bind; [|intros; apply IH]. apply keeps_spawn_io, ping_argv_polarity.
Qed.

Lemma wake_keeps args data dst : keeps_balance (wake args data dst).
Proof.
  assert (∀ e, of_kind sockets_only e → of_kind not_processes e) as Hsock.
  { intros e. unfold of_kind. by destruct (event_kind e). }
  unfold wake. apply keeps_bind; [|intros _; apply keeps_bind].
  - case_decide; apply keeps_balance_emits; auto using wol_udp_registry, wol_ethernet_registry.
    + eapply steps_mono; [apply wol_udp_emits|]. intros w w' ?. by eapply extends_mono.
    + eapply steps_mono; [apply wol_ethernet_emits|]. intros w w' ?. by eapply extends_mono.
  - unfold ping_and_wait. apply keeps_bind; [apply ping_loop_keeps|intros; keeps_io].
  - intros b. apply keeps_bind; [|intros; keeps_io].
    apply keeps_balance_emits; [by apply replay_data_emits|apply replay_data_registry].
Qed.
End restoring.

(** ** The order of waking *)

(** Nothing is sent. *)
Definition quiet (k : kind) : bool := match k with Sockets | Injection => false | _ => true end.

Section order.
Context `{System} `{Fuel} `{Net_text} `{Libc} `{Host}.
Abbreviation R := (extends (of_kind quiet)).

Lemma spawn_quiet cmd : steps R (spawn cmd).
Proof. by apply spawn_io_emits. Qed.

Lemma address_functors_quiet args :
  Forall (λ f, steps_post R f (functor_steps R)) (mret <$> (addresses args ≫= address_functors args)).
Proof.
  rewrite Forall_fmap, Forall_forall. intros f Hf. apply post_ret; [apply _|].
  apply list_elem_of_bind in Hf as (ip & Hf & _). unfold address_functors in Hf.
  rewrite !elem_of_app, !elem_of_cons, elem_of_nil, list_elem_of_fmap in Hf.
  destruct Hf as [[->|[->|[]]]|[(port & -> & _)|[->|[]]]]; apply command_steps; apply _.
Qed.

Lemma setup_quiet args :
  steps_post R (setup_firewall_and_ips args) (Forall (λ g, functor_steps R (aquire_release g))).
Proof.
  apply emplace_all_steps; [apply _|apply spawn_quiet|apply address_functors_quiet|constructor].
Qed.

Lemma wol_watcher_quiet iface m pc :
  steps_post R (make_wol_watcher iface m pc) (functor_steps R).
Proof.
  unfold make_wol_watcher, wol_watcher_new. eapply (post_bind _ _ _ (λ _, True)).
  - apply post_steps. steps_tac; auto using pcap_open_emits, set_filter_emits, pcap_destroy_emits.
  - intros s _. apply post_ret; [apply _|].
    split; [intros a|]; cbn [apply dispose]; unfold wol_watcher_apply, wol_watcher_destroy,
      wol_watcher_stop, thread_assign, thread_join_if_joinable; steps_tac;
      auto using break_loop_emits, pcap_destroy_emits.
Qed.

Lemma daw_quiet iface ip pc :
  steps_post R (make_duplicate_address_watcher iface ip pc) (functor_steps R).
Proof.
  unfold make_duplicate_address_watcher, daw_new. eapply (post_bind _ _ _ (λ _, True)).
  - apply post_steps. unfold get_mac, with_self_pipes. steps_tac;
      auto using get_self_pipes_emits, fd_destroy_emits, spawn_io_emits, fd_read_emits.
  - intros d _. apply post_ret; [apply _|].
    split; [intros a|]; cbn [apply dispose]; unfold daw_apply, stop_watcher, thread_assign,
      thread_join_if_joinable; steps_tac.
Qed.

Lemma ptr_guard_quiet pc : functor_steps R (ptr_guard pc).
Proof.
  split; [intros a|]; cbn [apply dispose ptr_guard]; unfold ptr_guard_apply; steps_tac.
Qed.

Lemma watchers_quiet args pc :
  steps_post R (emplace_all (watchers args pc) []) (Forall (λ g, functor_steps R (aquire_release g))).
Proof.
  apply emplace_all_steps; [apply _|apply spawn_quiet| |constructor].
  unfold watchers. apply Forall_app. split.
  - repeat (apply Forall_cons; split); [apply wol_watcher_quiet| |apply Forall_nil_2].
    apply post_ret; [apply _|apply ptr_guard_quiet].
  - apply Forall_fmap, Forall_forall. intros ip _. apply daw_quiet.
Qed.

Lemma listen_quiet args pc : steps R (listen args pc).
Proof.
  unfold listen. steps_tac; auto using set_filter_emits, get_datalink_emits.
  apply loop_emits; [done|]. intros. steps_tac.
Qed.

Lemma wait_quiet args : steps R (wait_and_listen args).
Proof.
  unfold wait_and_listen. apply steps_bind; [apply _|by apply pcap_open_emits|]. intros pc.
  apply steps_finally; [apply _| |by apply pcap_destroy_emits].
  apply (post_bind R _ _ _ (λ _, True) (watchers_quiet args pc)). intros gs Hgs.
  apply post_steps, steps_finally; [apply _|apply listen_quiet|].
  by apply guards_destroy_steps; [apply _|apply spawn_quiet|].
Qed.

Lemma ping_and_wait_quiet iface ip tries : steps R (ping_and_wait iface ip tries).
Proof.
  assert (∀ n cmd r, steps R (ping_loop n cmd r)) as Hping.
  { induction n as [|n IH]; intros cmd r; cbn [ping_loop]; steps_tac;
      auto using spawn_quiet, is_signaled_emits. }
  unfold ping_and_wait. steps_tac.
Qed.

Lemma after_waking_anything args data dst :
  steps anything (b ← ping_and_wait (interface args) dst (ping_tries args);
    _ ← replay_data (interface args) DLT_LINUX_SLL data (mac args);
    mret (if (b : bool) then success else wake_failure)).
Proof.
  apply steps_bind; [apply _|eapply to_anything, ping_and_wait_quiet|intros b].
  apply steps_bind; [apply _|by eapply to_anything, (replay_data_emits _ _ _ _ replays)|intros _].
  apply steps_ret, _.
Qed.
Lemma wake_anything args data dst : steps anything (wake args data dst).
Proof.
  unfold wake. apply steps_bind; [apply _| |intros _; apply after_waking_anything].
  case_decide; eapply to_anything; [apply wol_udp_emits|apply wol_ethernet_emits].
Qed.

(** From [w1], where the last commands before the magic packet have run, to [w']:
    first the magic packet is sent, then the host is pinged, which changes no
    address and no rule, and then the packet is replayed. *)
Definition sends_between (w1 w' : world) : Prop :=
  ∃ hW hP hI hB, trace w' = trace w1 ++ hW ++ hP ++ hI ++ hB
    ∧ Forall (of_kind sockets_only) hW ∧ Forall (of_kind quiet) hP
    ∧ (∀ k, command_balance (command_states (trace w1 ++ hW ++ hP)).2 k = command_balance (commands w1) k)
    ∧ Forall (of_kind replays) hI ∧ Forall (of_kind quiet) hB.

Lemma sends_between_trans w1 w2 w' : sends_between w1 w2 → R w2 w' → sends_between w1 w'.
Proof.
  intros (hW & hP & hI & hB & Ht & HW & HP & Hb & HI & HB) (h & Ht' & Hh). exists hW, hP, hI, (hB ++ h).
  rewrite Ht', Ht, <-!(assoc_L (++)). split_and!; [done..|by apply Forall_app].
Qed.

Lemma wake_order args data dst w :
  wp (wake args data dst) (λ _, sends_between w) (λ _, sends_between w) w.
Proof.
  assert (∀ e, of_kind sockets_only e → of_kind not_processes e) as Hsock.
  { intros e. unfold of_kind. by destruct (event_kind e). }
  assert (∀ w1 w2 w3, extends (of_kind sockets_only) w w1 → extends (of_kind quiet) w1 w2 →
    (∀ k, balance w2 k = balance w1 k) → extends (of_kind replays) w2 w3 → sends_between w w3) as Hall.
  { intros w1 w2 w3 (hW & Ht1 & HW) (hP & Ht2 & HP) Hb (hI & Ht3 & HI). exists hW, hP, hI, [].
    rewrite Ht3, Ht2, Ht1, app_nil_r, <-!(assoc_L (++)). split_and!; try done. intros k.
    specialize (Hb (Command_key k)). cbn in Hb. unfold commands in *. rewrite (assoc_L (++)), <-Ht1, <-Ht2, Hb.
    rewrite (command_states_extend w w1); [done|]. exists hW. eauto using Forall_impl. }
  unfold wake. wp_step. apply (wp_of_steps (extends (of_kind sockets_only))).
  - case_decide; [apply wol_udp_emits|apply wol_ethernet_emits].
  - intros _ w1 Hw1. wp_step.
    assert (keeps_balance (ping_and_wait (interface args) dst (ping_tries args))) as Hk.
    { apply keeps_bind; [apply ping_loop_keeps|intros; keeps_io]. }
    eapply wp_mono; [apply (wp_and_steps R); [apply Hk|apply ping_and_wait_quiet]|..].
    + intros b w2 [Hb2 HR2]. wp_step.
      apply (wp_of_steps (extends (of_kind replays))); [by apply replay_data_emits|..].
      * intros _ w3 Hw3. wp_step. by apply (Hall w1 w2).
      * intros e w3 Hw3. by apply (Hall w1 w2).
    + intros e w2 [Hb2 HR2]. by apply (Hall w1 w2).
  - intros e w1 Hw1. by apply (Hall w1 w1).
Qed.

(** Everything which is sent is sent at a point where the commands have left
    exactly the rule against ICMP errors of [source] in effect. *)
Definition sends_while_blocking (w w' : world) : Prop :=
  R w w' ∨
  ∃ source bk w1, names_resource (Block_icmp source) bk ∧ R w w1 ∧ sends_between w1 w'
    ∧ ∀ k, balance w1 k = balance w k + contribution (Some (Command_key bk)) k.

(** Accounts are balanced and the order was kept. *)
Definition restored (w w' : world) : Prop :=
  (∀ k, balance w' k = balance w k) ∧ sends_while_blocking w w'.

(** A vector of guards which holds [δ] and sends nothing *)
Definition holds (gs : list Scope_guard) (δ : key → Z) : Prop :=
  guards_hold gs δ ∧ Forall (λ g, functor_steps R (aquire_release g)) gs.

Lemma destroy_holds gs δ w :
  holds gs δ →
  wp (guards_destroy gs) (λ _ w', (∀ k, balance w' k = balance w k - δ k) ∧ R w w') (λ _ _, False) w.
Proof.
  intros [Hg Hs].
  eapply wp_mono; [apply (wp_and_steps R); [by apply guards_destroy_balance|]|done|by intros ?? []].
  by apply guards_destroy_steps; [apply _|apply spawn_quiet|].
Qed.

(** Leaving with an exception or a status gives the guards back. *)
Lemma destroy_restores gs δ w w1 :
  holds gs δ → R w w1 → (∀ k, balance w1 k = balance w k + δ k) →
  wp (guards_destroy gs) (λ _, restored w) (λ _ _, False) w1.
Proof.
  intros Hg HR Hb. eapply wp_mono; [by apply destroy_holds|..]; [|done].
  intros ? w' [Hb' HR']. split; [intros k; rewrite Hb', Hb; lia|]. left. by etrans.
Qed.

Lemma block_icmp_new source bk w :
  names_resource (Block_icmp source) bk →
  wp (guard_new (command (Block_icmp source)))
    (λ g w', holds [g] (contribution (Some (Command_key bk)))
       ∧ (∀ k, balance w' k = balance w k + contribution (Some (Command_key bk)) k) ∧ R w w')
    (λ _ w', (∀ k, balance w' k = balance w k) ∧ R w w') w.
Proof.
  intros Hbk. pose proof (take_command_balance _ _ Hbk) as Hacc.
  pose proof (guard_new_steps R spawn_quiet _ (command_steps R (Block_icmp source))) as [HR Hpost].
  pose proof (wp_and_steps R _ _ _ w (guard_new_balance _ _ w Hacc) HR) as Hw. specialize (Hpost w).
  unfold wp in *. destruct (guard_new _ w) as [[g|e|u] w']; [|done..].
  destruct Hw as [(Hf & Hfr & Hb) HRw]. split_and!; [|done..]. split.
  - eapply (hold_cons g (Some (Command_key bk)) [] (λ _, 0)); [by rewrite Hf|by apply hold_nil|].
    intros k. rewrite Hfr. lia.
  - apply Forall_singleton. by eapply Hpost.
Qed.

Lemma guard_destroy_singleton g w (Q : unit → world → Prop) E :
  wp (guards_destroy [g]) Q E w → wp (guard_destroy g) Q E w.
Proof.
  unfold wp, guards_destroy, mapM_, mbind, M_bind. by destruct (guard_destroy g w) as [[[]|?|?] ?].
Qed.

Lemma wake_restores args data source dst locks δ w w2 :
  holds locks δ → R w w2 → (∀ k, balance w2 k = balance w k + δ k) →
  wp (block_icmp ← on_raise (guard_new (command (Block_icmp source))) (guards_destroy locks);
      finally (_ ← guards_destroy locks; wake args data dst) (guard_destroy block_icmp))
    (λ _, restored w) (λ _, restored w) w2.
Proof.
  intros Hl HR2 Hb2. destruct (Block_icmp_names source) as [bk Hbk].
  wp_step. wp_step. eapply wp_mono; [by apply block_icmp_new|..].
  2:{ intros e w3 [Hb3 HR3]. eapply wp_mono; [apply (destroy_restores locks δ w); [done|by etrans|]|done|done].
      intros k. by rewrite Hb3, Hb2. }
  intros g w3 (Hg & Hb3 & HR3). wp_step. wp_step.
  eapply wp_mono; [by apply destroy_holds|..]; [|done]. intros ? w4 [Hb4 HR4].
  assert (R w w4) as HRw4 by (etrans; [exact HR2|]; etrans; [exact HR3|exact HR4]).
  assert (∀ k, balance w4 k = balance w k + contribution (Some (Command_key bk)) k) as Hbw4
    by (intros k; rewrite Hb4, Hb3, Hb2; lia).
  assert (∀ w5, (∀ k, balance w5 k = balance w4 k) → sends_between w4 w5 →
    wp (guard_destroy g) (λ _, restored w) (λ _ _, False) w5) as Hend.
  { intros w5 Hb5 Hs5. apply guard_destroy_singleton.
    eapply wp_mono; [by apply destroy_holds|..]; [|done]. intros ? w6 [Hb6 HR6].
    split; [intros k; rewrite Hb6, Hb5, Hbw4; lia|]. right. exists source, bk, w4.
    split_and!; [done..| |done]. by eapply sends_between_trans. }
  pose proof (wake_keeps args data dst w4) as Hk. pose proof (wake_order args data dst w4) as Ho.
  unfold wp at 1. unfold wp at 1 in Hk. unfold wp at 1 in Ho.
  destruct (wake args data dst w4) as [[x|e|u] w5]; [| |done].
  all: eapply wp_mono; [by apply Hend|done|done].
Qed.

Lemma emulate_host_spec args w :
  wp (emulate_host args) (λ _, restored w) (λ _, restored w) w.
Proof.
  destruct (setup_functors_take args) as [δ Hδ].
  assert (wp (setup_firewall_and_ips args)
    (λ gs w', holds gs δ ∧ (∀ k, balance w' k = balance w k + δ k) ∧ R w w') (λ _, restored w) w) as Hsetup.
  { pose proof (emplace_all_balance _ δ [] (λ _, 0) w Hδ (hold_nil (λ _, 0) ltac:(done))) as Hw.
    destruct (setup_quiet args) as [HR Hpost]. specialize (HR w). specialize (Hpost w).
    unfold setup_firewall_and_ips, wp in *.
    destruct (emplace_all _ [] w) as [[gs|e|u] w']; [| |done]; cbn in HR.
    - destruct Hw as [Hg Hb]. split_and!; [split; [|by eapply Hpost]|done..].
      rewrite <-(app_nil_r gs). apply (guards_hold_app _ [] (λ k, 0 + δ k) (λ _, 0)); [done|by apply hold_nil|].
      intros k. lia.
    - split; [intros k; rewrite Hw; lia|by left]. }
  unfold emulate_host. wp_step. eapply wp_mono; [exact Hsetup|..]; [|done].
  intros locks w1 (Hg & Hb1 & HR1). wp_step. wp_step.
  eapply wp_mono; [apply (wp_and_steps R); [apply wait_and_listen_keeps|apply wait_quiet]|..].
  2:{ intros e w2 [Hb2 HR2]. eapply wp_mono; [apply (destroy_restores locks δ w); [done|by etrans|]|done|done].
      intros k. by rewrite Hb2, Hb1. }
  intros [[[ler data] source] dst] w2 [Hb2 HR2]. cbv beta in Hb2.
  assert (R w w2) as HRw2 by by etrans.
  assert (∀ k, balance w2 k = balance w k + δ k) as Hbw2 by (intros k; by rewrite Hb2, Hb1).
  assert (∀ status : Emulate_host_status, wp (_ ← guards_destroy locks; mret status)
    (λ _, restored w) (λ _, restored w) w2) as Hleave.
  { intros status. wp_step. eapply wp_mono; [by apply (destroy_restores locks δ w)|done|done]. }
  destruct ler; try apply Hleave. by apply (wake_restores args data source dst locks δ).
Qed.
End order.

(** ** Waiting for the host to answer *)
Section pinging.
Context `{System} `{Fuel} `{Net_text}.

Lemma is_signaled_wp w :
  wp is_signaled (λ b w', commands w' = commands w ∧ signaled w' = b) (λ _ _, False) w.
Proof.
  assert (∀ w', extends (of_kind not_processes) w w' → commands w' = commands w) as Hc.
  { intros w' Hw'. unfold commands. by rewrite (command_states_extend _ _ Hw'). }
  unfold is_signaled. wp_run; [|by split; [apply Hc; by apply extends_event|]].
  apply (wp_signal_handler (extends (of_kind not_processes))); [by apply signal_handler_emits|].
  intros w' Hw'. wp_run. split; [|done]. apply Hc. etrans; [|exact Hw']. by apply extends_event.
Qed.

(** The command failed with these statuses, one run after the other. *)
Definition pinged (iface : string) (ip : IP_address) (statuses : list Z) (w w' : world) : Prop :=
  commands w' = commands w ++ ((ping_argv iface ip,.) <$> statuses).

Lemma pinged_snoc iface ip code statuses w w1 w' :
  commands w1 = commands w ++ [(ping_argv iface ip, code)] →
  pinged iface ip statuses w1 w' → pinged iface ip (code :: statuses) w w'.
Proof. unfold pinged. intros -> ->. by rewrite <-(assoc_L (++)). Qed.

Lemma ping_loop_spec n iface ip r w :
  r ≠ 0 →
  wp (ping_loop n (ping_cmd iface ip) r)
    (λ r' w', ∃ failures, Forall (.≠ 0) failures ∧
       if decide (r' = 0) then pinged iface ip (failures ++ [0]) w w' ∧ (length failures < n)%nat
       else pinged iface ip failures w w' ∧ (length failures = n ∨ (length failures < n)%nat ∧ signaled w' = true))
    (λ _ w', ∃ failures, Forall (.≠ 0) failures ∧ pinged iface ip failures w w') w.
Proof.
  assert (∀ w w', commands w' = commands w → pinged iface ip [] w w') as Hnil
    by (intros w1 w2 E; unfold pinged; by rewrite E, app_nil_r).
  revert r w. induction n as [|n IH]; intros r w Hr; cbn [ping_loop].
  { wp_step. exists []. rewrite decide_False by done. split_and!; [done|by apply Hnil|by left]. }
  wp_step. eapply wp_mono; [apply is_signaled_wp| |done]. intros sg w1 [Hc1 Hs1].
  rewrite bool_decide_true, andb_true_r by done. destruct sg; cbn [negb].
  { wp_step. exists []. rewrite decide_False by done. split_and!; [done|by apply Hnil|right].
    split; [cbn; lia|done]. }
  wp_step. eapply wp_mono; [apply spawn_io_commands|..]; cbv beta.
  - intros code w2 [Hc2 _]. fold (ping_argv iface ip) in Hc2. rewrite Hc1 in Hc2.
    destruct (decide (code = 0)) as [->|Hcode].
    + assert (∀ n w', wp (ping_loop n (ping_cmd iface ip) 0)
        (λ r' w'', r' = 0 ∧ commands w'' = commands w') (λ _ _, False) w') as Hzero.
      { intros [|m] w'; cbn [ping_loop]; [by wp_run|]. wp_step.
        eapply wp_mono; [apply is_signaled_wp| |done]. intros sg w3 [Hc3 _].
        rewrite bool_decide_false, andb_false_r by tauto. by wp_run. }
      eapply wp_mono; [apply Hzero| |done]. intros r' w3 [-> Hc3]. exists [].
      rewrite decide_True by done. split_and!; [done| |cbn; lia].
      unfold pinged. by rewrite Hc3, Hc2.
    + eapply wp_mono; [by apply IH|..].
      * intros r' w3 (fs & Hfs & Hp). exists (code :: fs). split; [by constructor|].
        destruct (decide (r' = 0)); destruct Hp as [Hp Hl]; (split; [by eapply pinged_snoc|cbn; lia || (cbn; intuition lia)]).
      * intros e w3 (fs & Hfs & Hp). exists (code :: fs). split; [by constructor|by eapply pinged_snoc].
  - intros e w2 [Hc2|Hc2]; rewrite Hc1 in Hc2.
    + exists []. split; [done|by apply Hnil].
    + exists [spawn_failure]. split; [by constructor|]. exact Hc2.
Qed.
End pinging.

(** ** Replaying the packet *)
Section replaying.
Context `{System} `{Fuel} `{Net_text} `{Host}.

(** [frame] was injected once, between calls which open and close the capture. *)
Definition replayed (frame : list Z) (w w' : world) : Prop :=
  ∃ pc r h1 h2, trace w' = trace w ++ h1 ++ [Event (Pcap_inject pc frame) r] ++ h2
    ∧ Forall (of_kind captures) (h1 ++ h2).

Lemma pcap_open_runs iface : ends (λ _, False) (pcap_open iface).
Proof. unfold pcap_open, pcap_new, pcap_configure, get_verbose_datalink, get_datalink, pcap_destroy. ends_tac. Qed.

Lemma replayed_extend frame w w1 w' :
  extends (of_kind captures) w w1 → replayed frame w1 w' → replayed frame w w'.
Proof.
  intros (h & Ht & Hh) (pc & r & h1 & h2 & Ht' & Hh'). exists pc, r, (h ++ h1), h2.
  rewrite Ht', Ht, <-!(assoc_L (++)). split; [done|by apply Forall_app].
Qed.

Lemma replayed_snoc frame w w1 w' :
  replayed frame w w1 → extends (of_kind captures) w1 w' → replayed frame w w'.
Proof.
  intros (pc & r & h1 & h2 & Ht & Hh) (h & Ht' & Hh'). exists pc, r, h1, (h2 ++ h).
  rewrite Ht', Ht, <-!(assoc_L (++)). split; [done|]. rewrite (assoc_L (++)). by apply Forall_app.
Qed.

(** What is sent in place of the packet [data] with headers of length [n] *)
Definition replay_frame (mac src : ether_addr) (type : Z) (n : nat) (data : list Z) : list Z :=
  create_ethernet_header mac src type ++ drop n data.

Lemma inject_and_close pc frame w :
  match finally (_ ← inject pc frame; mret tt) (pcap_destroy pc) w with
  | (Val _, w') | (Raised _, w') => replayed frame w w'
  | (Ended _, _) => False
  end.
Proof.
  assert (∀ r w', extends (of_kind captures) (add_event (Event (Pcap_inject pc frame) r) w) w' →
    replayed frame w w') as Hr.
  { intros r w' (h & Ht & Hh). exists pc, r, [], h. split; [|done].
    rewrite Ht. cbn [trace add_event]. by rewrite <-!(assoc_L (++)). }
  unfold finally, inject, pcap_destroy, mbind, M_bind, call.
  case_decide; cbn; eapply Hr.
  - etrans; [|by apply extends_event]. by apply extends_event.
  - by apply extends_event.
Qed.

Lemma replay_data_spec iface type data mac ll ipp w :
  get_headers type data = Ret (Some ll, Some ipp) →
  (ll_header_length ll ≤ length data)%nat →
  let frame := replay_frame mac (ll_source ll) (version_code (m_version ipp)) (ll_header_length ll) data in
  match replay_data iface type data mac w with
  | (Val _, w') => replayed frame w w'
  | (Raised _, w') => extends (of_kind captures) w w' ∨ replayed frame w w'
  | (Ended _, _) => False
  end.
Proof.
  intros Hg Hl frame. unfold replay_data. rewrite Hg, lift_Ret_bind. cbn [fst snd].
  rewrite lift_Ret_bind, advance_Ret, lift_Ret_bind by done.
  cbv zeta. unfold vec_append. fold (replay_frame mac (ll_source ll) (version_code (m_version ipp)) (ll_header_length ll) data).
  fold frame. rewrite bind_run.
  pose proof (pcap_open_emits captures eq_refl iface w) as Ho.
  pose proof (pcap_open_runs iface w) as He.
  destruct (pcap_open iface w) as [[pc|e|u] w1]; cbn [snd] in Ho; [|by left|by eapply He].
  pose proof (inject_and_close pc frame w1) as Hi.
  destruct (finally _ _ w1) as [[x|e|u] w2]; [|right|done]; by eapply replayed_extend.
Qed.
End replaying.

(** ** The commands which set everything up *)

(** The arguments of the command which adds or deletes what [f] stands for *)
Definition action_argv (a : Action) (f : Action → outcome string) : list string :=
  match f a with Ret cmd => c_cut <$> split_string cmd " " | _ => [] end.
(** The guard of [f] while it holds what [f] stands for *)
Definition holding (f : Action → outcome string) : Scope_guard :=
  {| freed := false; aquire_release := command f |}.

(** The functors of one address *)
Definition address_actions `{Net_text} (args : Args) (ip : IP_address) : list (Action → outcome string) :=
  [Reject_tp ip TP_TCP; Reject_tp ip TP_UDP] ++ (Drop_port ip <$> ports args)
  ++ [Temp_ip (interface args) ip].

Section setup.
Context `{System} `{Fuel} `{Net_text} `{Host}.

Lemma address_functors_actions args ip : address_functors args ip = command <$> address_actions args ip.
Proof.
  unfold address_functors, address_actions. rewrite !fmap_app, <-list_fmap_compose. reflexivity.
Qed.

Lemma setup_functors_actions args :
  @mret M _ _ <$> (addresses args ≫= address_functors args)
  = (λ f, @mret M _ _ (command f)) <$> (addresses args ≫= address_actions args).
Proof.
  induction (addresses args) as [|ip ips IH]; [done|].
  by rewrite !bind_cons, !fmap_app, IH, address_functors_actions, <-list_fmap_compose.
Qed.

Lemma address_actions_name args ip :
  Forall (λ f, ∃ k, names_resource f k) (address_actions args ip).
Proof.
  unfold address_actions. rewrite !Forall_app, Forall_fmap. split_and!.
  - repeat (apply Forall_cons; split); [apply Reject_tp_names..|apply Forall_nil_2].
  - apply Forall_forall. intros port _. apply Drop_port_names.
  - apply Forall_singleton. eexists. apply Temp_ip_names.
Qed.
Lemma setup_actions_name args :
  Forall (λ f, ∃ k, names_resource f k) (addresses args ≫= address_actions args).
Proof.
  induction (addresses args) as [|ip ips IH]; [constructor|]. rewrite bind_cons. apply Forall_app.
  split; [apply address_actions_name|exact IH].
Qed.

(** A command which succeeded is the one entry which is added. *)
Lemma take_action_commands a f w :
  (∃ k, names_resource f k) →
  wp (take_action (command f) a) (λ _ w', commands w' = commands w ++ [(action_argv a f, 0)]) (λ _ _, True) w.
Proof.
  intros [k Hf]. destruct (Hf a) as (cmd & Hcmd & Hne & _).
  unfold take_action, command, action_argv. cbn [apply]. rewrite Hcmd, lift_Ret_bind, decide_False by done.
  wp_step. eapply wp_mono; [apply spawn_io_commands| |done]; cbv beta.
  intros code w2 [Hc _]. case_decide; wp_run; try done. rewrite Hc. repeat f_equal. lia.
Qed.

(** Constructing the guards runs exactly their commands, in their order. *)
Lemma emplace_all_commands fs gs w :
  Forall (λ f, ∃ k, names_resource f k) fs →
  wp (emplace_all ((λ f, @mret M _ _ (command f)) <$> fs) gs)
    (λ gs' w', gs' = gs ++ (holding <$> fs) ∧ commands w' = commands w ++ ((λ f, (action_argv add f, 0)) <$> fs))
    (λ _ _, True) w.
Proof.
  intros Hfs. revert gs w. induction Hfs as [|f fs Hf _ IH]; intros gs w; cbn [fmap list_fmap emplace_all].
  { wp_step. by rewrite !app_nil_r. }
  assert (∀ w, wp (guard_new (command f))
    (λ g w', g = holding f ∧ commands w' = commands w ++ [(action_argv add f, 0)]) (λ _ _, True) w) as Hnew.
  { intros w1. unfold guard_new. do 2 wp_step. eapply wp_mono; [by apply take_action_commands|..]; cbv beta.
    - intros _ w2 Hc. by wp_step.
    - intros e w2 _. wp_step. apply (wp_of_steps (λ _ _, True)); done. }
  wp_step. wp_step. apply (wp_bind (mret (command f)) guard_new). wp_step.
  eapply wp_mono; [apply Hnew|..].
  - intros g w1 [-> Hc1]. eapply wp_mono; [apply IH| |done]. intros gs' w2 [-> Hc2]. rewrite Hc2, Hc1.
    by rewrite <-!(assoc_L (++)).
  - intros e w1 _. by apply (wp_of_steps (λ _ _, True)).
Qed.

(** Destroying them runs the commands which delete, in the same order. *)
Lemma guards_destroy_commands fs w :
  Forall (λ f, ∃ k, names_resource f k) fs →
  wp (guards_destroy (holding <$> fs))
    (λ _ w', commands w' = commands w ++ ((λ f, (action_argv del f, 0)) <$> fs)) (λ _ _, False) w.
Proof.
  unfold guards_destroy. intros Hfs. revert w. induction Hfs as [|f fs Hf _ IH]; intros w; cbn [fmap list_fmap mapM_].
  { wp_step. by rewrite app_nil_r. }
  unfold guard_destroy, guard_free. cbn [freed holding aquire_release].
  do 4 wp_step. eapply wp_mono; [by apply take_action_commands| |done].
  intros ? w1 Hc1. cbv beta. wp_step. wp_step. cbn [dispose command]. wp_step. eapply wp_mono; [apply IH| |done].
  intros ? w2 Hc2. cbv beta in Hc2. by rewrite Hc2, Hc1, <-(assoc_L (++)).
Qed.
End setup.

(** ** Properties *)

Lemma quiet_absent (e : event) h :
  quiet (event_kind e) = false → Forall (of_kind quiet) h → e ∉ h.
Proof.
  intros He Hh Hin. rewrite Forall_forall in Hh. specialize (Hh e Hin).
  unfold of_kind in Hh. by rewrite He in Hh.
Qed.

Lemma split_quiet h0 h h1 (e : event) h2 :
  h1 ++ e :: h2 = h0 ++ h → quiet (event_kind e) = false → Forall (of_kind quiet) h0 →
  ∃ k, h1 = h0 ++ k ∧ h = k ++ e :: h2.
Proof.
  intros Heq He H0. destruct (app_eq_inv _ _ _ _ Heq) as [(k & -> & Hk)|(k & -> & Hk)]; [by exists k|].
  destruct k as [|x k]; [exists []; by rewrite !app_nil_r|].
  injection Hk as <- Hk. exfalso. apply (quiet_absent e _ He H0), elem_of_app. right. constructor.
Qed.

(** Calls which are not about processes leave the commands alone. *)
Lemma other_commands h h' :
  Forall (of_kind not_processes) h' → command_states (h ++ h') = command_states h.
Proof.
  intros Hh. unfold command_states. rewrite foldl_app.
  generalize (foldl command_step (None, []) h) as st.
  induction Hh as [|e h' He _ IH]; intros st; [done|]. cbn. by rewrite command_step_other.
Qed.
Lemma sockets_commands h h' :
  Forall (of_kind sockets_only) h' → command_states (h ++ h') = command_states h.
Proof.
  intros Hh. apply other_commands. eapply Forall_impl; [exact Hh|].
  intros e'. unfold of_kind. by destruct (event_kind e').
Qed.

(** What is sent is sent while waking the host or while replaying the packet. *)
Lemma split_at_sending h0 hW hP hI hB h1 (e : event) h2 :
  h1 ++ e :: h2 = h0 ++ hW ++ hP ++ hI ++ hB → quiet (event_kind e) = false →
  Forall (of_kind quiet) h0 → Forall (of_kind quiet) hP → Forall (of_kind quiet) hB →
  (∃ k k', h1 = h0 ++ k ∧ hW = k ++ e :: k')
  ∨ ∃ k k', h1 = h0 ++ hW ++ hP ++ k ∧ hI = k ++ e :: k' ∧ h2 = k' ++ hB.
Proof.
  intros Heq He H0 HP HB. destruct (split_quiet _ _ _ _ _ Heq He H0) as (k & -> & Hk).
  destruct (app_eq_inv _ _ _ _ (eq_sym Hk)) as [(k2 & -> & Hk2)|(k2 & -> & Hk2)].
  - destruct (split_quiet _ _ _ _ _ (eq_sym Hk2) He HP) as (k3 & -> & Hk3).
    destruct (app_eq_inv _ _ _ _ (eq_sym Hk3)) as [(k4 & -> & Hk4)|(k4 & -> & Hk4)].
    + exfalso. apply (quiet_absent e _ He HB). rewrite Hk4. apply elem_of_app. right. constructor.
    + destruct k4 as [|x k4].
      * exfalso. apply (quiet_absent e _ He HB). cbn in Hk4. rewrite <-Hk4. constructor.
      * injection Hk4 as <- ->. right. by exists k3, k4.
  - destruct k2 as [|x k2].
    + cbn in Hk2. destruct (split_quiet hP (hI ++ hB) [] e h2 Hk2 He HP) as (k3 & Hnil & Hk3).
      symmetry in Hnil. apply app_nil in Hnil as [-> ->]. cbn in Hk3.
      destruct hI as [|x hI]; [exfalso; apply (quiet_absent e _ He HB); cbn in Hk3; rewrite Hk3; constructor|].
      injection Hk3 as -> <-. right. exists [], hI.
      by rewrite !app_nil_r.
    + injection Hk2 as <- Hk2. left. by exists k, k2.
Qed.

(** C1: [emulate_host] gives back everything it takes.  Whatever the environment
    does -- commands which fail, captures which break, signals, exceptions in any
    place -- when it returns or throws, every address and firewall rule is in
    effect exactly as often as before, and so is every entry of the registry the
    signal handler uses. *)
Theorem emulate_host_restores `{System} `{Fuel} `{Net_text} `{Host} args w :
  match emulate_host args w with
  | (Val _, w') | (Raised _, w') => ∀ k, balance w' k = balance w k
  | (Ended _, _) => True
  end.
Proof.
  pose proof (emulate_host_spec args w) as Hw. unfold wp in Hw.
  destruct (emulate_host args w) as [[a|e|u] w']; [apply Hw|apply Hw|done].
Qed.

(** C2: nothing is sent before the addresses and the firewall rules for them are
    gone, and everything while ICMP errors are kept from the client: at every call
    on a socket (the magic packet) and at the injection of the captured packet, the
    commands so far have left exactly one rule more than there was at the
    beginning, one of [Block_icmp].  The magic packet goes first. *)
Theorem emulate_host_wakes_released `{System} `{Fuel} `{Net_text} `{Host} args w r w' h1 e h2 :
  emulate_host args w = (r, w') → (∀ how, r ≠ Ended how) →
  trace w' = trace w ++ h1 ++ e :: h2 → event_kind e = Sockets ∨ event_kind e = Injection →
  (∃ source bk, names_resource (Block_icmp source) bk ∧
    ∀ k, command_balance (command_states (trace w ++ h1)).2 k
         = command_balance (commands w) k + if decide (bk = k) then 1 else 0)
  ∧ (event_kind e = Injection → Forall (λ e', event_kind e' ≠ Sockets) h2).
Proof.
  intros Hrun Hr Ht He. pose proof (emulate_host_spec args w) as Hw. unfold wp in Hw. rewrite Hrun in Hw.
  assert (quiet (event_kind e) = false) as Hq by by destruct He as [-> | ->].
  assert (sends_while_blocking w w') as [(h & Ht' & Hh)|Hs].
  { destruct r as [a|x|how]; [apply Hw|apply Hw|by destruct (Hr how)]. }
  { rewrite Ht in Ht'. apply app_inv_head in Ht'. subst h.
    exfalso. apply (quiet_absent e _ Hq Hh), elem_of_app. right. constructor. }
  destruct Hs as (source & bk & w1 & Hbk & (h0 & Ht0 & Hh0) & Hsend & Hb).
  destruct Hsend as (hW & hP & hI & hB & Htw & HW & HP & Hping & HI & HB).
  rewrite Htw, Ht0, <-(assoc_L (++)) in Ht. apply app_inv_head in Ht. symmetry in Ht.
  assert (∀ k, command_balance (commands w1) k
    = command_balance (commands w) k + if decide (bk = k) then 1 else 0) as Hb1.
  { intros k. specialize (Hb (Command_key k)). cbn in Hb. rewrite Hb.
    by rewrite (decide_ext (Command_key bk = Command_key k) (bk = k)) by (split; congruence). }
  destruct (split_at_sending h0 hW hP hI hB h1 e h2) as [(k & k' & -> & ->)|(k & k' & -> & -> & ->)]; [done..| |].
  - apply Forall_app in HW as [HW HW']. apply Forall_cons in HW' as [HWe _]. split.
    + exists source, bk. split; [done|]. intros key. rewrite (assoc_L (++)), <-Ht0, <-Hb1. unfold commands.
      by rewrite (sockets_commands (trace w1) k).
    + unfold of_kind in HWe. intros Hi. by rewrite Hi in HWe.
  - apply Forall_app in HI as [HI HI']. apply Forall_cons in HI' as [_ HI']. split.
    + exists source, bk. split; [done|]. intros key. rewrite <-Hb1, <-Hping, (assoc_L (++)), <-Ht0.
      rewrite !(assoc_L (++)). rewrite (other_commands _ k); [by rewrite <-!(assoc_L (++))|].
      eapply Forall_impl; [exact HI|]. intros e'. unfold of_kind. by destruct (event_kind e').
    + intros _. apply Forall_app. split; (eapply Forall_impl; [eassumption|]); intros e' He';
        unfold of_kind in He'; by destruct (event_kind e').
Qed.

Lemma setup_commands `{System} `{Fuel} `{Net_text} `{Host} args w :
  wp (setup_firewall_and_ips args)
    (λ gs w', gs = holding <$> (addresses args ≫= address_actions args)
       ∧ commands w' = commands w
           ++ ((λ f, (action_argv add f, 0)) <$> (addresses args ≫= address_actions args)))
    (λ _ _, True) w.
Proof.
  unfold setup_firewall_and_ips. rewrite setup_functors_actions.
  apply (emplace_all_commands (addresses args ≫= address_actions args) []), setup_actions_name.
Qed.

(** C20: setting up runs exactly these commands, each of which succeeds, in this
    order: for each address in turn the rules which refuse its connections, then
    those for the ports which are watched, and the address itself last.  The
    guards are destroyed in the same order: the rules of an address are gone before
    the address is. *)
Theorem setup_order `{System} `{Fuel} `{Net_text} `{Host} args w :
  let resources := addresses args ≫= address_actions args in
  match setup_firewall_and_ips args w with
  | (Val locks, w') =>
      commands w' = commands w ++ ((λ f, (action_argv add f, 0)) <$> resources)
      ∧ ∀ w1, match guards_destroy locks w1 with
              | (Val _, w2) => commands w2 = commands w1 ++ ((λ f, (action_argv del f, 0)) <$> resources)
              | (Raised _, _) => False
              | (Ended _, _) => True
              end
  | _ => True
  end.
Proof.
  intros resources. pose proof (setup_commands args w) as Hw. unfold wp in Hw.
  destruct (setup_firewall_and_ips args w) as [[gs|e|u] w']; try done.
  destruct Hw as [-> Hc]. split; [exact Hc|]. intros w1.
  exact (guards_destroy_commands resources w1 (setup_actions_name args)).
Qed.

Lemma ping_and_wait_spec `{System} `{Fuel} `{Net_text} iface ip tries w :
  match ping_and_wait iface ip tries w with
  | (Val true, w') => ∃ failures, Forall (.≠ 0) failures
      ∧ pinged iface ip (failures ++ [0]) w w' ∧ (length failures < Z.to_nat tries)%nat
  | (Val false, w') => ∃ failures, Forall (.≠ 0) failures ∧ pinged iface ip failures w w'
      ∧ (length failures = Z.to_nat tries
         ∨ (length failures < Z.to_nat tries)%nat ∧ signaled w' = true)
  | (Raised _, w') => ∃ failures, Forall (.≠ 0) failures ∧ pinged iface ip failures w w'
  | (Ended _, _) => True
  end.
Proof.
  unfold ping_and_wait. fold (ping_cmd iface ip).
  pose proof (ping_loop_spec (Z.to_nat tries) iface ip 1 w ltac:(done)) as Hw. unfold wp in Hw.
  rewrite bind_run. destruct (ping_loop _ _ 1 w) as [[r|e|u] w']; [|exact Hw|done].
  destruct Hw as (fs & Hfs & Hp). cbn. case_bool_decide as Hr.
  - rewrite decide_True in Hp by done. by exists fs.
  - rewrite decide_False in Hp by done. by exists fs.
Qed.

(** [ping_and_wait] answers [true] as soon as a run of its command succeeds,
    and [false] only after [tries] runs which failed or once a signal has arrived;
    it runs nothing else. *)
Theorem ping_and_wait_decides `{System} `{Fuel} `{Net_text} iface ip tries w :
  match ping_and_wait iface ip tries w with
  | (Val true, w') => ∃ failures, Forall (.≠ 0) failures
      ∧ pinged iface ip (failures ++ [0]) w w' ∧ (length failures < Z.to_nat tries)%nat
  | (Val false, w') => ∃ failures, Forall (.≠ 0) failures ∧ pinged iface ip failures w w'
      ∧ (length failures = Z.to_nat tries
         ∨ (length failures < Z.to_nat tries)%nat ∧ signaled w' = true)
  | (Raised _, w') => ∃ failures, Forall (.≠ 0) failures ∧ pinged iface ip failures w w'
  | (Ended _, _) => True
  end.
Proof. exact (ping_and_wait_spec iface ip tries w). Qed.

(** C21: a packet which was captured in cooked mode, and has no VLAN tag, is sent again
    as an Ethernet frame to the woken machine: source, network layer header and payload are
    unchanged, and [get_headers] reads the same headers from it. *)
Theorem replay_data_retargets `{System} `{Fuel} `{Net_text} `{Host} iface l n payload mac w :
  link_dlt l = DLT_LINUX_SLL → link_wf l → network_wf n → bytes_wf payload → mac_wf mac →
  let frame := encode_frame (Ether_link mac (link_src l)) None n ++ payload in
  match replay_data iface DLT_LINUX_SLL (encode_frame l None n ++ payload) mac w with
  | (Val _, w') => replayed frame w w'
  | (Raised _, w') => extends (of_kind captures) w w' ∨ replayed frame w w'
  | (Ended _, _) => False
  end
  ∧ ∃ ll, get_headers DLT_EN10MB frame = Ret (Some ll, Some (network_header n))
          ∧ ll_source ll = link_src l.
Proof.
  intros Hdlt Hl Hn Hp Hm frame.
  assert (mac_wf (link_src l)) as Hsrc by (destruct l; cbn in *; tauto).
  split.
  - destruct (get_headers_encode l None n payload Hl I Hn Hp) as [info Hg]. rewrite Hdlt in Hg.
    pose proof (replay_data_spec iface _ _ mac _ _ w Hg) as Hw. cbn [ll_header_length ll_source] in Hw.
    destruct (encode_link_wf l (network_type n) Hl (network_type_range n)) as [_ Hlen].
    assert (replay_frame mac (link_src l) (version_code (m_version (network_header n))) (link_size l)
      (encode_frame l None n ++ payload) = frame) as Hf.
    { unfold replay_frame, frame, encode_frame. rewrite <-!(assoc_L (++)).
      rewrite <-Hlen, drop_app_length.
      assert (version_code (m_version (network_header n)) = network_type n) as -> by by destruct n.
      by rewrite create_ethernet_header_spec by apply network_type_range. }
    rewrite Hf in Hw. apply Hw. unfold encode_frame. rewrite !length_app. lia.
  - destruct (get_headers_encode (Ether_link mac (link_src l)) None n payload) as [info Hg]; [by split|done..|].
    by eexists.
Qed.

(** A captured packet with a VLAN tag is sent again with the type of the network
    layer in the Ethernet header but with the tag still in front of that layer: the
    receiver finds the two bytes of the tag where the IP header should start. *)
Lemma replay_data_vlan `{System} `{Fuel} `{Net_text} `{Host} iface l tci n payload mac w :
  link_dlt l = DLT_LINUX_SLL → link_wf l → bytes_of 2 tci → network_wf n → bytes_wf payload →
  let frame := encode_link (Ether_link mac (link_src l)) (network_type n)
               ++ tci ++ be16 (network_type n) ++ encode_network n ++ payload in
  match replay_data iface DLT_LINUX_SLL (encode_frame l (Some tci) n ++ payload) mac w with
  | (Val _, w') => replayed frame w w'
  | (Raised _, w') => extends (of_kind captures) w w' ∨ replayed frame w w'
  | (Ended _, _) => False
  end.
Proof.
  intros Hdlt Hl Htci Hn Hp frame.
  destruct (get_headers_encode l (Some tci) n payload Hl Htci Hn Hp) as [info Hg]. rewrite Hdlt in Hg.
  pose proof (replay_data_spec iface _ _ mac _ _ w Hg) as Hw. cbn [ll_header_length ll_source] in Hw.
  destruct (encode_link_wf l ETHERTYPE_VLAN Hl ltac:(by vm_compute)) as [_ Hlen].
  assert (replay_frame mac (link_src l) (version_code (m_version (network_header n))) (link_size l)
    (encode_frame l (Some tci) n ++ payload) = frame) as Hf.
  { unfold replay_frame, frame, encode_frame. rewrite <-!(assoc_L (++)).
    rewrite <-Hlen, drop_app_length.
    assert (version_code (m_version (network_header n)) = network_type n) as -> by by destruct n.
    by rewrite create_ethernet_header_spec by apply network_type_range. }
  rewrite Hf in Hw. apply Hw. unfold encode_frame. rewrite !length_app. lia.
Qed.

(** ** Witnesses *)

(** An environment in which everything succeeds and one packet is captured *)
Definition is_read (e : event) : bool :=
  let '(Event c _) := e in match c with Read _ _ => true | _ => false end.
Definition ip_output : list Z := string_bytes
  ("2: eth0: <UP>" +:+ String "010"%char
   ("    link/ether aa:bb:cc:dd:ee:ff brd ff:ff:ff:ff:ff:ff" +:+ String "010"%char "")).
Definition syn_frame : list Z := encode_frame sll_link None ipv4_localhost ++ [0; 1; 2; 3].
Definition sleep_system : System :=
  {| reply := λ A h c,
       match c in syscall A return A with
       | Poll_in _ => 1
       | Read _ _ => if decide (length (List.filter is_read h) = 0)%nat then Some ip_output else Some []
       | Pcap_loop _ _ =>
           {| happenings :=
                [Packet (Some {| ts_sec := 0; ts_usec := 0; caplen := length syn_frame;
                                 len := length syn_frame |}) (Some syn_frame)];
              loop_ret := Some 0 |}
       | c => default_reply c
       end;
     strerror_errno := λ _, "error" |}.
Definition sleep_args : Args :=
  {| interface := "eth0"; addresses := [{| family := AF_INET; address := [10; 0; 0; 1]; subnet := 16 |}];
     ports := [22; 80]; mac := [1; 2; 3; 4; 5; 6]; hostname := "host"; ping_tries := 5;
     wol_method := wol_method_ethernet |}.

(** The frames which were injected *)
Definition injections (h : history) : list (list Z) :=
  omap (λ e, let '(Event c _) := e in match c with Pcap_inject _ data => Some data | _ => None end) h.

(** The whole way: fourteen commands run, the machine answers, and the packet
    which was captured is injected for it. *)
Example emulate_host_succeeds :
  let '(r, w') := @emulate_host sleep_system 3%nat ref_net Little sleep_args world_init in
  r = Val success ∧ (length (commands w') = 14)%nat
  ∧ injections (trace w') =
      [encode_frame (Ether_link (mac sleep_args) (link_src sll_link)) None ipv4_localhost ++ [0; 1; 2; 3]].
Proof. by vm_compute. Qed.

(** At the injection of the packet *)
Lemma emulate_host_wakes_released_witness :
  ∃ w' h1 e h2,
    @emulate_host sleep_system 3%nat ref_net Little sleep_args world_init = (Val success, w')
    ∧ trace w' = trace world_init ++ h1 ++ e :: h2 ∧ event_kind e = Injection
    ∧ (∃ source bk, names_resource (@Block_icmp ref_net source) bk ∧
      ∀ k, command_balance (command_states (trace world_init ++ h1)).2 k
           = command_balance (commands world_init) k + if decide (bk = k) then 1 else 0)
    ∧ Forall (λ e', event_kind e' ≠ Sockets) h2.
Proof.
  destruct (@emulate_host sleep_system 3%nat ref_net Little sleep_args world_init) as [r w'] eqn:E.
  pose proof (λ h1 e h2, @emulate_host_wakes_released sleep_system 3%nat ref_net Little sleep_args
    world_init r w' h1 e h2 E) as Hw.
  vm_compute in E. injection E as <- <-.
  set (w' := World _ _ _ _ _ _ _) in *.
  destruct (list_find (λ e, event_kind e = Injection) (trace w')) as [[i e]|] eqn:Hf; [|by vm_compute in Hf].
  exists w', (take i (trace w')), e, (drop (S i) (trace w')).
  apply list_find_Some in Hf as (Hi & He & _).
  assert (trace w' = trace world_init ++ take i (trace w') ++ e :: drop (S i) (trace w')) as Ht
    by (symmetry; by apply take_drop_middle).
  split; [done|]. split; [exact Ht|]. split; [exact He|].
  destruct (Hw (take i (trace w')) e (drop (S i) (trace w'))) as [Hb Ho]; [done|exact Ht|by right|].
  split; [exact Hb|by apply Ho].
Defined.

Lemma sll_localhost_wf : link_wf sll_link ∧ network_wf ipv4_localhost.
Proof.
  unfold link_wf, network_wf, bytes_of, mac_wf. cbn.
  refine (bool_decide_eq_true_1 _ _). by vm_compute.
Qed.

Lemma replay_data_retargets_witness :
  let frame := encode_frame (Ether_link (mac sleep_args) (link_src sll_link)) None ipv4_localhost ++ [7] in
  ∃ w', @replay_data sleep_system ref_net Big "eth0" DLT_LINUX_SLL
      (encode_frame sll_link None ipv4_localhost ++ [7]) (mac sleep_args) world_init = (Val tt, w')
    ∧ replayed frame world_init w'
    ∧ ∃ ll, @get_headers ref_net Big DLT_EN10MB frame = Ret (Some ll, Some (network_header ipv4_localhost))
            ∧ ll_source ll = link_src sll_link.
Proof.
  intros frame. destruct sll_localhost_wf as [Hl Hn].
  destruct (@replay_data_retargets sleep_system 1%nat ref_net Big "eth0" sll_link ipv4_localhost [7]
    (mac sleep_args) world_init eq_refl Hl Hn) as [Hw Hg]; [by_decide|split; [done|by_decide]|].
  destruct (replay_data _ _ _ _ _) as [r w'] eqn:E. vm_compute in E. injection E as <- <-.
  eexists. split; [done|]. split; [exact Hw|exact Hg].
Defined.

Lemma replay_data_vlan_witness :
  ∃ w', @replay_data sleep_system ref_net Little "eth0" DLT_LINUX_SLL
      (encode_frame sll_link (Some [0; 1]) ipv4_localhost ++ [7]) (mac sleep_args) world_init = (Val tt, w')
    ∧ replayed (encode_link (Ether_link (mac sleep_args) (link_src sll_link)) ETHERTYPE_IP
                ++ [0; 1] ++ [8; 0] ++ encode_network ipv4_localhost ++ [7]) world_init w'.
Proof.
  destruct sll_localhost_wf as [Hl Hn].
  pose proof (@replay_data_vlan sleep_system 1%nat ref_net Little "eth0" sll_link [0; 1] ipv4_localhost [7]
    (mac sleep_args) world_init eq_refl Hl ltac:(split; [done|by_decide]) Hn ltac:(by_decide)) as Hw.
  cbv zeta in Hw.
  destruct (replay_data _ _ _ _ _) as [r w'] eqn:E. vm_compute in E. injection E as <- <-.
  eexists. split; [done|exact Hw].
Defined.
