(* ===== verification/Conformance.v ===== *)
(** * The threads of [wait_and_listen] are those of [Session]

    [SleepProxy.wait_and_listen] is a computation with effects; [Session.session] is the
    code which the machine of [Session] runs for the same function.  Here they are
    compared: the threads which are started and joined, the flags of the watchers, the
    registry and the call of [pcap_loop], in their order, with the objects numbered as
    they are constructed.  However a call goes, exceptions included, it does what the
    code of a session does. *)
From S2P Require Import Prelude ContainerUtils IntUtils NetText NetTextRef System IpAddress Ethernet Ip PacketParser Pcap FileDescriptor SpawnProcess ScopeGuard Socket Wol WolWatcher DuplicateAddressWatcher Args SleepProxy.
From S2P Require Session.
Local Open Scope Z_scope.

(** ** What both leave on a tape *)
Inductive mark :=
  | Started (owner : nat)
  | Joined (owner : nat)
  | Stored (owner : nat) (b : bool)
  | Looped (pc : nat).
(** The marks so far, and the registry *)
Record tape := Tape { marks : list mark; registered : list nat }.

(** Calls which leave a mark *)
Definition mark_of (e : event) : option mark :=
  let '(Event c _) := e in
  match c with
  | Thread_start owner => Some (Started owner)
  | Thread_join owner => Some (Joined owner)
  | Atomic_store owner b => Some (Stored owner b)
  | Pcap_loop pc _ => Some (Looped pc)
  | _ => None
  end.
Definition tape_of (w : world) : tape := Tape (omap mark_of (trace w)) (pcaps w).

Definition alive_step (owner : nat) (running : bool) (m : mark) : bool :=
  match m with
  | Started o => if decide (o = owner) then true else running
  | Joined o => if decide (o = owner) then false else running
  | _ => running
  end.
Definition alive (owner : nat) (ms : list mark) : bool := foldl (alive_step owner) false ms.

(** A member is joinable when the marks say so. *)
Lemma thread_joinable_marks h owner : thread_joinable h owner = alive owner (omap mark_of h).
Proof.
  unfold thread_joinable, alive. generalize false. induction h as [|[A c r] h IH]; intros b; [done|].
  cbn. destruct c; apply IH.
Qed.

(** The objects of a session are numbered in the order in which they are constructed,
    from [n]: the capture for connections, the listener with its capture, the watchers. *)
Definition capture_id (n : nat) (c : Session.capture) : nat :=
  match c with Session.Syn _ => n | Session.Wol _ => S n end.
Definition thread_id (n : nat) (t : Session.thread) : nat :=
  match t with
  | Session.Main _ => n
  | Session.Listener _ => S n
  | Session.Watcher _ i => S (S n) + i
  | Session.Loop_of c => capture_id n c
  end.

Definition add_mark (m : mark) (s : tape) : tape := Tape (marks s ++ [m]) (registered s).
(** What an instruction of a host leaves there *)
Definition play (n : nat) (s : tape) (x : Session.instr) : tape :=
  match x with
  | Session.Start (Session.Loop_of c) => add_mark (Looped (capture_id n c)) s
  | Session.Start t => add_mark (Started (thread_id n t)) s
  | Session.Join_if_joinable t =>
      if alive (thread_id n t) (marks s) then add_mark (Joined (thread_id n t)) s else s
  | Session.Store h i b => add_mark (Stored (thread_id n (Session.Watcher h i)) b) s
  | Session.Register c => Tape (marks s) (registered s ++ [capture_id n c])
  | Session.Unregister c => Tape (marks s) (default (registered s) (erase_first (capture_id n c) (registered s)))
  | _ => s
  end.
Definition played (n : nat) (k : Session.code) (w w' : world) : Prop :=
  tape_of w' = foldl (play n) (tape_of w) k.

Lemma played_app n k1 k2 w w1 w' : played n k1 w w1 → played n k2 w1 w' → played n (k1 ++ k2) w w'.
Proof. unfold played. rewrite foldl_app. by intros <-. Qed.

(** ** Computations which leave nothing *)
Definition unmoved (w w' : world) : Prop := tape_of w' = tape_of w ∧ objects w' = objects w.
#[export] Instance unmoved_preorder : PreOrder unmoved.
Proof.
  split; [by intros w|]. intros w1 w2 w3 [Ht1 Ho1] [Ht2 Ho2]. unfold unmoved. by rewrite Ht2, Ho2.
Qed.
Lemma tape_event {A} (c : syscall A) r w :
  tape_of (add_event (Event c r) w) =
  match mark_of (Event c r) with Some m => add_mark m (tape_of w) | None => tape_of w end.
Proof.
  unfold tape_of, add_mark. cbn [trace pcaps add_event marks registered]. rewrite omap_app. cbn [omap list_omap].
  destruct (mark_of _); [done|by rewrite app_nil_r].
Qed.
Lemma unmoved_event {A} (c : syscall A) r w : mark_of (Event c r) = None → unmoved w (add_event (Event c r) w).
Proof. intros Hc. split; [by rewrite tape_event, Hc|done]. Qed.
#[export] Hint Extern 1 (unmoved _ (add_event _ _)) => apply unmoved_event; reflexivity : proxy.
Ltac unmoved_tac := steps_tac; eauto with proxy.

Section unmoved.
Context `{System} `{Fuel} `{Net_text} `{Host}.
Hint Resolve raise_system_error_steps : proxy.
Lemma break_loop_unmoved id ler : steps unmoved (break_loop id ler).
Proof. unfold break_loop. unmoved_tac. Qed.
Hint Resolve break_loop_unmoved : proxy.
Lemma signal_handler_unmoved : steps unmoved signal_handler.
Proof. unfold signal_handler. unmoved_tac. Qed.
Hint Resolve signal_handler_unmoved : proxy.
Lemma get_fd_from_stream_unmoved s : steps unmoved (get_fd_from_stream s).
Proof. unfold get_fd_from_stream. unmoved_tac. Qed.
Hint Resolve get_fd_from_stream_unmoved : proxy.
Lemma wait_loop_unmoved n pid : steps unmoved (wait_loop n pid).
Proof. induction n as [|n IH]; cbn; unmoved_tac. Qed.
Hint Resolve wait_loop_unmoved : proxy.
Lemma spawn_io_unmoved cmd inp out : steps unmoved (spawn_io cmd inp out).
Proof.
  unfold spawn_io, spawn_wrapper, file_actions_new, wait_until_pid_exits, add_dup2, raise_signal. unmoved_tac.
Qed.
Hint Resolve spawn_io_unmoved : proxy.
Lemma fd_close_unmoved f : steps unmoved (fd_close f).
Proof. unfold fd_close, keeps_open. unmoved_tac. Qed.
Hint Resolve fd_close_unmoved : proxy.
Lemma fd_destroy_unmoved f : steps unmoved (fd_destroy f).
Proof. unfold fd_destroy. unmoved_tac. Qed.
Hint Resolve fd_destroy_unmoved : proxy.
Lemma read_loop_unmoved fuel n r d : steps unmoved (read_loop fuel n r d).
Proof.
  revert r d. induction fuel as [|fuel IH]; intros r d; cbn; unfold is_data_ready_to_read; unmoved_tac.
Qed.
Hint Resolve read_loop_unmoved : proxy.
Lemma fd_read_unmoved fuel f : steps unmoved (fd_read fuel f).
Proof. unfold fd_read. unmoved_tac. Qed.
Hint Resolve fd_read_unmoved : proxy.
Lemma get_self_pipes_unmoved b : steps unmoved (get_self_pipes b).
Proof. unfold get_self_pipes, fd_new. unmoved_tac. Qed.
Hint Resolve get_self_pipes_unmoved : proxy.
Lemma get_mac_unmoved iface : steps unmoved (get_mac iface).
Proof. unfold get_mac, with_self_pipes. unmoved_tac. Qed.
Lemma get_datalink_unmoved id : steps unmoved (get_datalink id).
Proof. unfold get_datalink. unmoved_tac. Qed.
Hint Resolve get_datalink_unmoved : proxy.
Lemma pcap_destroy_unmoved id : steps unmoved (pcap_destroy id).
Proof. unfold pcap_destroy. unmoved_tac. Qed.
Hint Resolve pcap_destroy_unmoved : proxy.
Lemma pcap_configure_unmoved id iface snaplen promisc timeout :
  steps unmoved (pcap_configure id iface snaplen promisc timeout).
Proof. unfold pcap_configure, get_verbose_datalink. unmoved_tac. Qed.
Hint Resolve pcap_configure_unmoved : proxy.
Lemma set_filter_unmoved id filter : steps unmoved (set_filter id filter).
Proof. unfold set_filter, bpf_new. unmoved_tac. Qed.
Hint Resolve set_filter_unmoved : proxy.
Lemma interrupted_unmoved id i : steps unmoved (interrupted id i).
Proof. destruct i; cbn; unmoved_tac. Qed.
Hint Resolve interrupted_unmoved : proxy.
Lemma during_unmoved {S} id (cb : S → _ → _ → M S) s hs :
  (∀ s h p, steps unmoved (cb s h p)) → steps unmoved (during id cb s hs).
Proof.
  intros Hcb. revert s. induction hs as [|[h p|i] hs IH]; intros s; cbn [during]; unmoved_tac.
Qed.

(** A capture is the next object. *)
Lemma pcap_open_next iface w :
  wp (pcap_open iface)
    (λ pc w', pc = objects w ∧ tape_of w' = tape_of w ∧ objects w' = S (objects w))
    (λ _ w', tape_of w' = tape_of w) w.
Proof.
  unfold pcap_open, pcap_new. do 6 wp_step.
  match goal with |- wp _ _ _ ?w1 =>
    assert (tape_of w1 = tape_of w ∧ objects w1 = S (objects w)) as [Ht Ho] by by rewrite tape_event end.
  case_match; [by wp_step|]. wp_step. wp_step.
  eapply (wp_of_steps unmoved); [auto with proxy|..].
  - intros _ w' [Ht' Ho']. wp_step. split_and!; congruence.
  - intros e w' [Ht' _]. cbv beta. eapply (wp_of_steps unmoved); [auto with proxy|..];
      intros ? w2 [Ht2 _]; cbv beta; congruence.
Qed.
End unmoved.

(** ** The functors of the guards

    What constructing a functor, calling it and destroying it are in the code *)
Section functors.
Context `{System} `{Fuel} `{Net_text} `{Libc} `{Host}.
Context (n h : nat).

Definition construct_part (g : Session.guard) : Session.code :=
  match g with
  | Session.Guard_wol => [Session.Construct (Session.Wol h)]
  | Session.Guard_registered => []
  | Session.Guard_address i => [Session.Store h i false]
  end.
Definition add_part (g : Session.guard) : Session.code :=
  match g with
  | Session.Guard_wol => [Session.Start (Session.Listener h); Session.Assign (Session.Listener h)]
  | Session.Guard_registered => [Session.Lock; Session.Register (Session.Syn h); Session.Unlock]
  | Session.Guard_address i =>
      [Session.Store h i true; Session.Start (Session.Watcher h i); Session.Assign (Session.Watcher h i)]
  end.
Definition del_part (g : Session.guard) : Session.code :=
  match g with
  | Session.Guard_wol => Session.wol_stop_steps h
  | Session.Guard_registered => [Session.Lock; Session.Unregister (Session.Syn h); Session.Unlock]
  | Session.Guard_address i => Session.stop_watcher_steps h i
  end.
Definition dispose_part (g : Session.guard) : Session.code :=
  match g with
  | Session.Guard_wol =>
      Session.wol_stop_steps h ++ [Session.Drop (Session.Listener h); Session.Destroy (Session.Wol h)]
  | Session.Guard_registered => []
  | Session.Guard_address i => Session.stop_watcher_steps h i ++ [Session.Drop (Session.Watcher h i)]
  end.
Lemma take_parts g : Session.guard_take h g = construct_part g ++ add_part g.
Proof. by destruct g. Qed.
Lemma release_parts g : Session.guard_release h g = del_part g ++ dispose_part g.
Proof. by destruct g. Qed.

Definition functor_plays (g : Session.guard) (fn : Aquire_release) : Prop :=
  (∀ w, wp (apply fn add)
     (λ s w', s = "" ∧ played n (add_part g) w w' ∧ objects w' = objects w) (λ _ _, False) w)
  ∧ (∀ w, wp (apply fn del) (λ s w', s = "" ∧ played n (del_part g) w w') (λ _ _, True) w)
  ∧ (∀ w, wp (dispose fn) (λ _ w', played n (dispose_part g) w w') (λ _ _, True) w).

(** *** Threads *)
Lemma thread_assign_plays t w :
  (∀ c, t ≠ Session.Loop_of c) →
  wp (thread_assign (thread_id n t))
    (λ _ w', played n [Session.Start t] w w' ∧ objects w' = objects w) (λ _ _, False) w.
Proof.
  intros Ht. unfold thread_assign. do 2 wp_step. case_match; wp_step.
  split; [|done]. unfold played. rewrite tape_event. by destruct t as [| | |c]; [..|destruct (Ht c)].
Qed.
Lemma thread_join_plays t w :
  wp (thread_join_if_joinable (thread_id n t)) (λ _ w', played n [Session.Join_if_joinable t] w w') (λ _ _, False) w.
Proof.
  unfold thread_join_if_joinable. do 2 wp_step. rewrite thread_joinable_marks.
  unfold played. cbn [foldl play]. change (marks (tape_of w)) with (omap mark_of (trace w)).
  destruct (alive _ _); wp_step; [by rewrite tape_event|done].
Qed.

(** *** The listener for magic packets *)
Lemma wol_stop_plays mac syn w :
  wp (wol_watcher_stop {| wol_mac := mac; waiting_for_syn := syn; waiting_for_wol := S n |})
    (λ _ w', played n (Session.wol_stop_steps h) w w') (λ _ _, True) w.
Proof.
  unfold wol_watcher_stop. wp_step. eapply (wp_of_steps unmoved); [apply break_loop_unmoved| |done].
  intros _ w1 [Ht _]. cbn [waiting_for_wol].
  wp_use (thread_join_plays (Session.Listener h)); [|done].
  intros _ w2 Hj. unfold played in *. by rewrite Hj, Ht.
Qed.

Lemma wol_plays mac syn :
  functor_plays Session.Guard_wol
    (let s := {| wol_mac := mac; waiting_for_syn := syn; waiting_for_wol := S n |} in
     {| apply := wol_watcher_apply s; dispose := wol_watcher_destroy s |}).
Proof.
  split_and!; intros w; cbn [apply dispose].
  - unfold wol_watcher_apply. destruct (decide (add = add)) as [_|]; [|done]. destruct (decide (add = del)) as [|_]; [done|]. wp_step.
    wp_use (thread_assign_plays (Session.Listener h)); [done| |done].
    intros _ w1 Hp. cbv beta. do 2 wp_step. wp_step. by split.
  - unfold wol_watcher_apply. destruct (decide (del = add)) as [|_]; [done|]. destruct (decide (del = del)) as [_|]; [|done]. do 3 wp_step.
    wp_use wol_stop_plays; [|done]. intros _ w1 Hp. cbv beta. by wp_step.
  - unfold wol_watcher_destroy. wp_step. wp_use wol_stop_plays; [|done].
    intros _ w1 Hp. cbv beta. eapply (wp_of_steps unmoved); [apply pcap_destroy_unmoved| |done].
    intros _ w2 [Ht _]. cbn [dispose_part]. eapply played_app; [exact Hp|]. exact Ht.
Qed.

(** *** The registration *)
Lemma ptr_guard_plays : functor_plays Session.Guard_registered (ptr_guard n).
Proof.
  split_and!; intros w; cbn [apply dispose ptr_guard].
  - unfold ptr_guard_apply. do 2 wp_step. wp_step. wp_step. wp_step. by split_and!.
  - unfold ptr_guard_apply. do 2 wp_step. case_match; [|by wp_step]. wp_step. wp_step. wp_step.
    split; [done|]. unfold played. cbn [del_part foldl play capture_id registered tape_of].
    by match goal with E : erase_first _ _ = _ |- _ => rewrite E end.
  - by wp_step.
Qed.

(** *** The watchers of the addresses *)
Lemma stop_watcher_plays d i w :
  daw_id d = thread_id n (Session.Watcher h i) →
  wp (stop_watcher d) (λ _ w', played n (Session.stop_watcher_steps h i) w w') (λ _ _, True) w.
Proof.
  intros Hd. unfold stop_watcher. rewrite Hd. wp_step. wp_step.
  wp_use (thread_join_plays (Session.Watcher h i)); [|done].
  intros _ w2 Hj. unfold played in *. by rewrite Hj, tape_event.
Qed.
Lemma daw_plays d i :
  daw_id d = thread_id n (Session.Watcher h i) →
  functor_plays (Session.Guard_address i) {| apply := daw_apply d; dispose := stop_watcher d |}.
Proof.
  intros Hd. split_and!; intros w; cbn [apply dispose].
  - unfold daw_apply. destruct (decide (add = add)) as [_|]; [|done]. destruct (decide (add = del)) as [|_]; [done|]. rewrite Hd. do 3 wp_step.
    wp_use (thread_assign_plays (Session.Watcher h i)); [done| |done].
    intros _ w1 [Hp Ho]. cbv beta. do 3 wp_step. split_and!; [done| |done].
    unfold played in *. by rewrite Hp, tape_event.
  - unfold daw_apply. destruct (decide (del = add)) as [|_]; [done|]. destruct (decide (del = del)) as [_|]; [|done]. do 3 wp_step.
    wp_use (stop_watcher_plays d i); [done| |done]. intros _ w1 Hp. cbv beta. by wp_step.
  - wp_use (stop_watcher_plays d i); [done| |done]. intros _ w1 Hp.
    cbn [dispose_part]. by eapply played_app.
Qed.

(** *** Constructing them

    [f] constructs the functor of [g] when [o] is the next object, and [o'] is the next
    object then. *)
Definition maker_plays (o : nat) (g : Session.guard) (f : M Aquire_release) (o' : nat) : Prop :=
  ∀ w, objects w = o →
    wp f (λ fn w', functor_plays g fn ∧ played n (construct_part g) w w' ∧ objects w' = o')
      (λ _ w', tape_of w' = tape_of w) w.

Lemma make_wol_watcher_plays iface mac :
  maker_plays (S n) Session.Guard_wol (make_wol_watcher iface mac n) (S (S n)).
Proof.
  intros w Ho. unfold make_wol_watcher, wol_watcher_new. do 2 wp_step.
  wp_use pcap_open_next; [|done]. intros pc w1 (-> & Ht & Ho1). do 2 wp_step. rewrite Ho in *.
  eapply (wp_of_steps unmoved); [auto using set_filter_unmoved|..].
  - intros _ w2 [Ht2 Ho2]. do 2 wp_step. split_and!; [apply wol_plays| |congruence].
    unfold played. cbn. congruence.
  - intros e w2 [Ht2 _]. cbv beta. eapply (wp_of_steps unmoved); [apply pcap_destroy_unmoved|..];
      intros ? w3 [Ht3 _]; cbv beta; congruence.
Qed.
Lemma ptr_guard_maker_plays o : maker_plays o Session.Guard_registered (mret (ptr_guard n)) o.
Proof. intros w Ho. wp_step. split_and!; [apply ptr_guard_plays|done|done]. Qed.
Lemma make_daw_plays iface ip i :
  maker_plays (S (S n) + i) (Session.Guard_address i) (make_duplicate_address_watcher iface ip n) (S (S n) + S i).
Proof.
  intros w Ho. unfold make_duplicate_address_watcher, daw_new. do 2 wp_step.
  eapply (wp_of_steps unmoved); [apply get_mac_unmoved| |by intros e w1 [Ht _]].
  intros m w1 [Ht1 Ho1]. do 7 wp_step. rewrite Ho1, Ho. split_and!; [by apply daw_plays| |cbn; lia].
  unfold played. rewrite tape_event. cbn. by rewrite <- Ht1.
Qed.

(** The constructors of the guards of a session, in turn *)
Inductive makers_play : nat → list Session.guard → list (M Aquire_release) → Prop :=
  | makers_nil o : makers_play o [] []
  | makers_cons o o' g f gs fs :
      maker_plays o g f o' → makers_play o' gs fs → makers_play o (g :: gs) (f :: fs).

Lemma watchers_play args :
  makers_play (S n) (Session.session_guards (length (addresses args))) (watchers args n).
Proof.
  unfold watchers, Session.session_guards. cbn [app].
  eapply makers_cons; [apply make_wol_watcher_plays|]. eapply makers_cons; [apply ptr_guard_maker_plays|].
  assert (∀ i, makers_play (S (S n) + i) (Session.Guard_address <$> seq i (length (addresses args)))
    ((λ ip, make_duplicate_address_watcher (interface args) ip n) <$> addresses args)) as Hall.
  { induction (addresses args) as [|ip ips IH]; intros i; [constructor|].
    eapply makers_cons; [apply make_daw_plays|apply IH]. }
  specialize (Hall 0%nat). by rewrite Nat.add_0_r in Hall.
Qed.

(** *** The guards *)
Definition guard_plays (g : Session.guard) (s : Scope_guard) : Prop :=
  freed s = false ∧ functor_plays g (aquire_release s).

Lemma guard_new_plays g fn w :
  functor_plays g fn →
  wp (guard_new fn)
    (λ s w', guard_plays g s ∧ played n (add_part g) w w' ∧ objects w' = objects w) (λ _ _, False) w.
Proof.
  intros Hfn. pose proof Hfn as (Hadd & _ & _). unfold guard_new, take_action. do 3 wp_step.
  wp_use Hadd; [|done]. intros s w1 (-> & Hp & Ho). rewrite decide_True by done. do 2 wp_step.
  split_and!; [by split|done..].
Qed.
Lemma guard_destroy_plays g s w :
  guard_plays g s → wp (guard_destroy s) (λ _ w', played n (Session.guard_release h g) w w') (λ _ _, False) w.
Proof.
  intros [Hf (_ & Hdel & Hdispose)]. unfold guard_destroy, guard_free, take_action. rewrite Hf, release_parts.
  do 4 wp_step. wp_use Hdel; [|done]. intros c w1 [-> Hp]. rewrite decide_True by done. do 3 wp_step.
  wp_use Hdispose; [|done]. intros _ w2 Hp2. by eapply played_app.
Qed.
Lemma guards_destroy_plays gs ss w :
  Forall2 guard_plays gs ss →
  wp (guards_destroy ss) (λ _ w', played n (gs ≫= Session.guard_release h) w w') (λ _ _, False) w.
Proof.
  intros Hall. revert w. induction Hall as [|g s gs ss Hg _ IH]; intros w; unfold guards_destroy; cbn [mapM_].
  - by wp_step.
  - wp_step. wp_use (guard_destroy_plays g s); [done| |done]. intros _ w1 Hp. fold (guards_destroy ss).
    wp_use IH; [|done]. intros _ w2 Hp2. cbn [mbind list_bind]. by eapply played_app.
Qed.

(** The guards [done] are there, those of [gs] are constructed. *)
Lemma emplace_all_plays o gs fs held ss w :
  makers_play o gs fs → objects w = o → Forall2 guard_plays held ss →
  wp (emplace_all fs ss)
    (λ ss' w', Forall2 guard_plays (held ++ gs) ss' ∧ played n (gs ≫= Session.guard_take h) w w')
    (λ _ w', ∃ m, played n ((take m gs ≫= Session.guard_take h)
                            ++ ((held ++ take m gs) ≫= Session.guard_release h)) w w') w.
Proof.
  intros Hfs. revert held ss w. induction Hfs as [o|o o' g f gs fs Hf _ IH]; intros held ss w Ho Hheld; cbn [emplace_all].
  { wp_step. by rewrite app_nil_r. }
  wp_step. wp_step. wp_step. wp_use Hf; [done|..].
  - intros fn w1 (Hfn & Hp1 & Ho1). wp_use (guard_new_plays g fn); [done| |done].
    intros s w2 (Hs & Hp2 & Ho2).
    assert (played n (Session.guard_take h g) w w2) as Htake by (rewrite take_parts; by eapply played_app).
    wp_use (IH (held ++ [g]) (ss ++ [s])); [congruence|by apply Forall2_app; [|constructor]|..].
    + intros ss' w3 [Hall Hp3]. rewrite <- app_assoc in Hall. split; [done|].
      cbn [mbind list_bind]. by eapply played_app.
    + intros e w3 [m Hp3]. exists (S m). cbn [take mbind list_bind]. rewrite <- app_assoc in *.
      by eapply played_app.
  - intros e w1 Ht. wp_use (guards_destroy_plays held ss); [done| |done].
    intros _ w2 Hp. exists 0%nat. cbn [take mbind list_bind app]. rewrite app_nil_r.
    unfold played in *. by rewrite Hp, Ht.
Qed.

(** *** The loop *)
Lemma loop_plays {S} count (cb : S → _ → _ → M S) c w :
  (∀ c h p, steps unmoved (cb c h p)) →
  wp (loop n count cb c)
    (λ _ w', played n (Session.looping h Session.Loops) w w')
    (λ _ w', played n (Session.looping h Session.Loops) w w') w.
Proof.
  intros Hcb. unfold loop. do 2 wp_step.
  match goal with |- wp _ _ _ ?w1 =>
    assert (played n (Session.looping h Session.Loops) w w1) as Hp by (unfold played; by rewrite tape_event);
    generalize dependent w1 end.
  intros w1 Hp. eapply (wp_of_steps unmoved).
  - pose proof (during_unmoved n cb) as Hduring. unfold loop_end, get_end_reason. unmoved_tac; by split.
  - intros ? w2 [Ht _]. unfold played in *. congruence.
  - intros ? w2 [Ht _]. unfold played in *. congruence.
Qed.
Lemma listen_plays args w :
  wp (listen args n)
    (λ _ w', played n (Session.looping h Session.Loops) w w')
    (λ _ w', ∃ how, (how = Session.Filter_throws ∨ how = Session.Loops) ∧ played n (Session.looping h how) w w') w.
Proof.
  unfold listen. wp_step. eapply (wp_of_steps unmoved); [apply set_filter_unmoved|..].
  2:{ intros e w1 [Ht _]. exists Session.Filter_throws. auto. }
  intros _ w1 [Ht1 _]. wp_step. eapply (wp_of_steps unmoved); [apply get_datalink_unmoved|..].
  2:{ intros e w2 [Ht2 _]. exists Session.Filter_throws. split; [auto|]. unfold played. cbn. congruence. }
  intros datalink w2 [Ht2 _]. wp_step. wp_use loop_plays; [intros; unmoved_tac|..].
  - intros [ler catcher] w3 Hp.
    assert (played n (Session.looping h Session.Loops) w w3) by (unfold played in *; congruence).
    repeat case_match; wp_step; eauto.
  - intros e w3 Hp. exists Session.Loops. split; [auto|]. unfold played in *. congruence.
Qed.
End functors.

(** ** The whole function *)
Section conformance.
Context `{System} `{Fuel} `{Net_text} `{Libc} `{Host}.

Lemma wait_and_listen_plays h n args w :
  objects w = n →
  wp (wait_and_listen args)
    (λ _ w', played n (Session.session h (length (addresses args)) Session.Loops) w w')
    (λ _ w', tape_of w' = tape_of w
             ∨ ∃ how, played n (Session.session h (length (addresses args)) how) w w') w.
Proof.
  intros Hn. unfold wait_and_listen. wp_step. wp_use pcap_open_next; [|by left].
  intros pc w1 (-> & Ht1 & Ho1). rewrite Hn in *.
  set (len := length (addresses args)) in *.
  assert (∀ how w2, played n ((Session.taken len how ≫= Session.guard_take h) ++ Session.looping h how
                              ++ (Session.taken len how ≫= Session.guard_release h)) w1 w2 →
    wp (pcap_destroy n) (λ _ w', played n (Session.session h len how) w w') (λ _ _, False) w2) as Hend.
  { intros how w2 Hp. unfold pcap_destroy. wp_step. unfold Session.session, played in *.
    rewrite tape_event. cbn [mark_of]. rewrite Hp, <- Ht1, !foldl_app. cbn [foldl play].
    do 2 f_equal. by destruct how as [[]| |]. }
  wp_step. wp_step. wp_use (emplace_all_plays n h (S n)); [apply watchers_play|done|constructor|..].
  - intros guards w2 [Hgs Hp2]. wp_step.
    assert (∀ how w3, how = Session.Filter_throws ∨ how = Session.Loops → played n (Session.looping h how) w2 w3 →
      wp (guards_destroy guards) (λ _ w4, wp (pcap_destroy n)
        (λ _ w', played n (Session.session h len how) w w') (λ _ _, False) w4) (λ _ _, False) w3) as Hrelease.
    { intros how w3 Hhow Hp3. wp_use (guards_destroy_plays n h); [done| |done]. intros _ w4 Hp4. apply Hend.
      destruct Hhow as [-> | ->]; (eapply played_app; [exact Hp2|]; eapply played_app; [exact Hp3|exact Hp4]). }
    wp_use (listen_plays n h).
    + intros res w3 Hp3. wp_use (Hrelease Session.Loops); [by right|done| |done]. intros _ w4 Hw4.
      by wp_use Hw4.
    + intros e w3 (how & Hhow & Hp3). wp_use (Hrelease how); [done..| |done]. intros _ w4 Hw4.
      wp_use Hw4; [|done]. eauto.
  - intros e w2 [m Hp2]. wp_use (Hend (Session.Guard_throws m)); [done| |done]. eauto.
Qed.

(** C11: what [wait_and_listen] does to threads, flags, the registry and [pcap_loop] is what
    the code of a session in [Session] does.  When it returns, it has constructed every
    guard, run its loop once and destroyed the guards in their order: the listener has
    been started, then the capture registered, then for each address in turn the flag
    lowered and raised and the watcher started; then the listener is joined, the capture
    taken off, and each watcher told to end, joined, and told once more.  When it throws
    it has not begun, or it has done this for the guards before the one which could not
    be constructed, or for all of them without or with the loop. *)
Theorem wait_and_listen_is_session h args w :
  let '(r, w') := wait_and_listen args w in
  match r with
  | Val _ => played (objects w) (Session.session h (length (addresses args)) Session.Loops) w w'
  | Raised _ => tape_of w' = tape_of w
                ∨ ∃ how, played (objects w) (Session.session h (length (addresses args)) how) w w'
  | Ended _ => True
  end.
Proof.
  pose proof (wait_and_listen_plays h (objects w) args w eq_refl) as Hw. unfold wp in Hw.
  by destruct (wait_and_listen args w) as [[] w'].
Qed.
End conformance.
