(* ===== verification/Serving.v ===== *)
(** * Serving a client, from its packet to the packet which is sent for it

    What [emulate_host] does for the client whose packet it has captured, from one
    end to the other: every command it runs, everything it sends, and how both
    depend on that packet.  The rule against ICMP errors is for the address the
    packet came from, the pings are for the address it went to, and the frame which
    is injected is the packet itself under a new Ethernet header. *)
From S2P Require Import Prelude ContainerUtils IntUtils NetText NetTextRef System IpAddress Ethernet Ip PacketParser Pcap FileDescriptor SpawnProcess ScopeGuard Socket Wol WolWatcher DuplicateAddressWatcher Args SleepProxy.
Local Open Scope Z_scope.

(** ** What is done: commands and frames *)

(** The bytes which were given to the network *)
Definition sent (h : history) : list (list Z) :=
  omap (λ e, let '(Event c _) := e in
    match c with Sendto _ buf _ _ => Some buf | Pcap_inject _ data => Some data | _ => None end) h.

(** From [w] to [w'] the commands [cs] have ended and the frames [fs] were sent. *)
Definition does (cs : list (list string * Z)) (fs : list (list Z)) (w w' : world) : Prop :=
  commands w' = commands w ++ cs ∧ sent (trace w') = sent (trace w) ++ fs.
Abbreviation idle := (does [] []).

Lemma does_trans cs1 fs1 cs2 fs2 w w1 w' :
  does cs1 fs1 w w1 → does cs2 fs2 w1 w' → does (cs1 ++ cs2) (fs1 ++ fs2) w w'.
Proof. intros [Hc1 Hf1] [Hc2 Hf2]. split; [rewrite Hc2, Hc1|rewrite Hf2, Hf1]; by rewrite (assoc_L (++)). Qed.
Lemma does_idle cs fs w w1 w' : does cs fs w w1 → idle w1 w' → does cs fs w w'.
Proof. intros H1 H2. rewrite <-(app_nil_r cs), <-(app_nil_r fs). by eapply does_trans. Qed.
Lemma idle_does cs fs w w1 w' : idle w w1 → does cs fs w1 w' → does cs fs w w'.
Proof. intros H1 H2. exact (does_trans _ _ _ _ _ _ _ H1 H2). Qed.
#[export] Instance idle_preorder : PreOrder idle.
Proof.
  split; [intros w; split; by rewrite app_nil_r|]. intros w1 w2 w3. apply does_idle.
Qed.

(** Kinds of calls which neither run a command nor send anything *)
Definition idle_kind (k : kind) : bool := not_processes k && quiet k.

Lemma sent_quiet h : Forall (of_kind quiet) h → sent h = [].
Proof.
  induction 1 as [|[A c r] h He _ IH]; [done|]. unfold sent. cbn. fold (sent h). rewrite IH.
  by destruct c.
Qed.
Lemma extends_sent w w' : extends (of_kind quiet) w w' → sent (trace w') = sent (trace w).
Proof.
  intros (h & -> & Hh). unfold sent. rewrite omap_app. fold (sent h). by rewrite (sent_quiet h), app_nil_r.
Qed.
Lemma extends_idle w w' : extends (of_kind idle_kind) w w' → idle w w'.
Proof.
  intros Hw. split.
  - rewrite app_nil_r. unfold commands. rewrite (command_states_extend w w'); [done|].
    eapply extends_mono; [exact Hw|]. intros e. unfold of_kind, idle_kind. by intros [? _]%andb_prop.
  - rewrite app_nil_r. apply extends_sent. eapply extends_mono; [exact Hw|].
    intros e. unfold of_kind, idle_kind. by intros [_ ?]%andb_prop.
Qed.
Lemma emits_idle {A} (m : M A) : emits (of_kind idle_kind) m → steps idle m.
Proof. intros Hm. eapply steps_mono; [exact Hm|apply extends_idle]. Qed.

(** Partial correctness: what a computation has done when it returns *)
Abbreviation returning m Q w := (wp m Q (λ _ _, True) w).

Lemma returning_steps {A} R (m : M A) (Q : A → world → Prop) w :
  steps R m → (∀ a w', R w w' → Q a w') → returning m Q w.
Proof. intros Hm HQ. by apply (wp_of_steps R). Qed.

Section running.
Context `{System} `{Fuel}.

Lemma spawn_does cmd inp out w :
  returning (spawn_io cmd inp out) (λ code, does [(c_cut <$> cmd, code)] [] w) w.
Proof.
  pose proof (spawn_io_commands cmd inp out w) as Hw.
  pose proof (spawn_io_emits quiet eq_refl eq_refl eq_refl cmd inp out w) as Hq.
  unfold wp in *. destruct (spawn_io cmd inp out w) as [[code|e|u] w']; [|done..].
  split; [apply Hw|]. rewrite app_nil_r. by apply extends_sent.
Qed.

(** A guard of a functor which names a resource: its commands *)
Lemma take_action_does a f w :
  (∃ k, names_resource f k) →
  returning (take_action (command f) a) (λ _, does [(action_argv a f, 0)] [] w) w.
Proof.
  intros [k Hf]. destruct (Hf a) as (cmd & Hcmd & Hne & _).
  unfold take_action, command, action_argv. cbn [apply]. rewrite Hcmd, lift_Ret_bind, decide_False by done.
  wp_step. eapply wp_mono; [apply spawn_does| |done]. intros code w1 Hd.
  case_decide; wp_run; [done|]. by replace code with 0 in Hd by lia.
Qed.
Lemma guard_new_does f w :
  (∃ k, names_resource f k) →
  returning (guard_new (command f)) (λ g w', g = holding f ∧ does [(action_argv add f, 0)] [] w w') w.
Proof.
  intros Hf. unfold guard_new. do 2 wp_step. eapply wp_mono; [by apply take_action_does|..]; cbv beta.
  - intros _ w1 Hd. by wp_step.
  - intros e w1 _. by apply (returning_steps (λ _ _, True)).
Qed.
Lemma guard_destroy_does f w :
  (∃ k, names_resource f k) →
  returning (guard_destroy (holding f)) (λ _, does [(action_argv del f, 0)] [] w) w.
Proof.
  intros Hf. unfold guard_destroy, guard_free. cbn [freed holding aquire_release].
  do 3 wp_step. eapply wp_mono; [by apply take_action_does| |done].
  intros ? w1 Hd. cbv beta. wp_step. wp_step. cbn [dispose command]. by wp_step.
Qed.
End running.

(** ** The parts of [emulate_host] *)
Section parts.
Context `{System} `{Fuel} `{Net_text} `{Libc} `{Host}.

Abbreviation added fs := ((λ f, (action_argv add f, 0)) <$> fs).
Abbreviation deleted fs := ((λ f, (action_argv del f, 0)) <$> fs).
Abbreviation resources args := (addresses args ≫= address_actions args).

Lemma setup_does args w :
  returning (setup_firewall_and_ips args)
    (λ gs w', gs = holding <$> resources args ∧ does (added (resources args)) [] w w') w.
Proof.
  destruct (setup_quiet args) as [Hq _].
  eapply wp_mono; [apply (wp_and_steps (extends (of_kind quiet)));
    [apply setup_commands|exact Hq]| |done].
  intros gs w' [[Hgs Hc] Hs]. split; [done|]. split; [exact Hc|]. rewrite app_nil_r. by apply extends_sent.
Qed.

Lemma release_does args w :
  returning (guards_destroy (holding <$> resources args)) (λ _, does (deleted (resources args)) [] w) w.
Proof.
  assert (steps (extends (of_kind quiet)) (guards_destroy (holding <$> resources args))) as Hq.
  { apply guards_destroy_steps; [apply _|apply spawn_quiet|].
    apply Forall_fmap, Forall_true. intros f. apply command_steps. apply _. }
  eapply wp_mono; [apply (wp_and_steps (extends (of_kind quiet)));
    [apply guards_destroy_commands, setup_actions_name|exact Hq]| |done].
  intros ? w' [Hc Hs]. split; [exact Hc|]. rewrite app_nil_r. by apply extends_sent.
Qed.

(** *** The watchers *)

(** Constructing [f] runs the commands [cs]; the functor runs none. *)
Definition makes_idle (f : M Aquire_release) (cs : list (list string * Z)) : Prop :=
  ∀ w, returning f (λ fn w', takes idle fn ∧ does cs [] w w') w.

Lemma emplace_all_does fcs gs w :
  Forall (λ fc, makes_idle fc.1 fc.2) fcs → Forall (λ g, takes idle (aquire_release g)) gs →
  returning (emplace_all fcs.*1 gs)
    (λ gs' w', Forall (λ g, takes idle (aquire_release g)) gs' ∧ does (mjoin fcs.*2) [] w w') w.
Proof.
  intros Hfs. revert gs w. induction Hfs as [|[f cs] fcs Hf _ IH]; intros gs w Hgs; cbn [fmap list_fmap emplace_all fst snd].
  { by wp_step. }
  do 3 wp_step. eapply wp_mono; [apply Hf|..]; cbv beta.
  2:{ intros e w1 _. by apply (returning_steps (λ _ _, True)). }
  intros fn w1 [Hfn Hd1]. destruct (guard_new_takes idle fn Hfn) as [Hs Hg]. specialize (Hs w1). specialize (Hg w1).
  unfold wp at 1. destruct (guard_new fn w1) as [[g|e|u] w2]; [|by apply (returning_steps (λ _ _, True))|done].
  cbn in Hs. eapply wp_mono; [apply (IH (gs ++ [g]))| |done].
  - apply Forall_app. split; [done|]. apply Forall_singleton. by eapply Hg.
  - intros gs' w3 [Hgs' Hd3]. split; [done|]. cbn [mjoin list_join].
    eapply (does_trans cs [] _ []); [by eapply does_idle|exact Hd3].
Qed.

Definition mac_command (iface : string) : list string * Z :=
  (c_cut <$> ["ip"; "a"; "show"; "dev"; iface], 0).

Lemma with_self_pipes_does {A} cs (body : File_descriptor → File_descriptor → M A) w :
  (∀ a b w, returning (body a b) (λ _, does cs [] w) w) →
  returning (with_self_pipes body) (λ _, does cs [] w) w.
Proof.
  intros Hb. unfold with_self_pipes. wp_step.
  apply (returning_steps idle); [by apply emits_idle, get_self_pipes_emits|]. intros ab w1 Hp1. wp_step.
  assert (steps idle (_ ← fd_destroy ab.2; fd_destroy ab.1)) as Hd
    by (apply emits_idle; steps_tac; by apply fd_destroy_emits).
  eapply wp_mono; [apply Hb|..]; cbv beta.
  - intros a w2 Hp2. apply (returning_steps idle); [exact Hd|]. intros ? w3 Hp3.
    eapply idle_does; [exact Hp1|]. by eapply does_idle.
  - intros e w2 _. by apply (returning_steps (λ _ _, True)).
Qed.

Lemma get_mac_does iface w : returning (get_mac iface) (λ _, does [mac_command iface] [] w) w.
Proof.
  apply with_self_pipes_does. intros a b w1. wp_step. eapply wp_mono; [apply spawn_does| |done].
  intros status w2 Hd. case_decide as Hst; [by wp_step|]. replace status with 0 in Hd by lia.
  wp_step. apply (returning_steps idle); [by apply emits_idle, fd_read_emits|]. intros lines w3 Hp3.
  wp_step. wp_step; [|done]. cbv zeta. wp_step; [|done]. by eapply does_idle.
Qed.

Lemma make_daw_idle iface ip pc :
  makes_idle (make_duplicate_address_watcher iface ip pc) [mac_command iface].
Proof.
  intros w. unfold make_duplicate_address_watcher, daw_new. do 2 wp_step.
  eapply wp_mono; [apply get_mac_does| |done]. intros m w1 Hd. cbv beta in Hd |- *.
  assert (steps idle (w ← get; _ ← modify with_object; _ ← call (Atomic_store (objects w) false);
    mret {| daw_iface := iface; daw_ip := ip; daw_pcap := pc;
            daw_is_ip_occupied := Ip_neigh_checker m; daw_id := objects w |})) as Hs
    by (apply emits_idle; steps_tac).
  apply (returning_steps idle _ _ _ Hs). intros d w2 Hp2. wp_step. split; [|by eapply does_idle].
  apply silent_takes; [apply _|..]; cbn [apply dispose].
  - intros a. apply emits_idle. unfold daw_apply, stop_watcher, thread_assign, thread_join_if_joinable. steps_tac.
  - intros a w3. unfold daw_apply. wp_step. apply (returning_steps (λ _ _, True)); [done|]. intros _ w4 _.
    wp_step. apply (returning_steps (λ _ _, True)); [done|]. intros _ w5 _. by wp_step.
  - apply emits_idle. unfold stop_watcher, thread_join_if_joinable. steps_tac.
Qed.

Lemma make_wol_watcher_idle iface m pc : makes_idle (make_wol_watcher iface m pc) [].
Proof.
  intros w. unfold make_wol_watcher. wp_step. apply (returning_steps idle).
  { apply emits_idle. unfold wol_watcher_new. steps_tac; auto using pcap_open_emits, set_filter_emits, pcap_destroy_emits. }
  intros s w1 Hp1. wp_step. split; [|exact Hp1]. apply silent_takes; [apply _|..]; cbn [apply dispose].
  - intros a. apply emits_idle. unfold wol_watcher_apply, wol_watcher_stop, thread_assign,
      thread_join_if_joinable. steps_tac; auto using break_loop_emits.
  - intros a w3. unfold wol_watcher_apply. wp_step. apply (returning_steps (λ _ _, True)); [done|]. intros _ w4 _.
    wp_step. apply (returning_steps (λ _ _, True)); [done|]. intros _ w5 _. by wp_step.
  - apply emits_idle. unfold wol_watcher_destroy, wol_watcher_stop, thread_join_if_joinable.
    steps_tac; auto using break_loop_emits, pcap_destroy_emits.
Qed.

Lemma ptr_guard_idle pc : takes idle (ptr_guard pc).
Proof.
  apply silent_takes; [apply _|..]; cbn [apply dispose ptr_guard].
  - intros a. apply emits_idle. unfold ptr_guard_apply. steps_tac.
  - intros a w. unfold ptr_guard_apply. by wp_run.
  - apply steps_ret. apply _.
Qed.

Definition watcher_commands (args : Args) : list (list string * Z) :=
  replicate (length (addresses args)) (mac_command (interface args)).

Lemma watchers_does args pc w :
  returning (emplace_all (watchers args pc) [])
    (λ gs w', Forall (λ g, takes idle (aquire_release g)) gs ∧ does (watcher_commands args) [] w w') w.
Proof.
  set (fcs := [(make_wol_watcher (interface args) (mac args) pc, []); (mret (ptr_guard pc), [])]
    ++ ((λ ip, (make_duplicate_address_watcher (interface args) ip pc, [mac_command (interface args)]))
          <$> addresses args)).
  assert (watchers args pc = fcs.*1 ∧ watcher_commands args = mjoin fcs.*2) as [-> ->].
  { unfold watchers, watcher_commands, fcs. rewrite !fmap_app, <-!list_fmap_compose. split; [done|].
    cbn. induction (addresses args) as [|ip ips IH]; [done|]. cbn. by rewrite IH. }
  apply emplace_all_does; [|constructor]. unfold fcs. apply Forall_app. split.
  - repeat (apply Forall_cons; split); try apply Forall_nil_2; [apply make_wol_watcher_idle|].
    intros w1. cbn [fst snd]. wp_step. split; [apply ptr_guard_idle|reflexivity].
  - apply Forall_fmap, Forall_true. intros ip. apply make_daw_idle.
Qed.

(** *** The packet *)

(** The client's packet [data] came in by [run] and was understood: its network
    layer header is [ipp]. *)
Definition captured (run : loop_run) (datalink : Z) (data : list Z) (ipp : ip) : Prop :=
  ∃ header packet ll, (Some header, Some packet) ∈ deliveries run
    ∧ data = take (len header) packet ∧ get_headers datalink data = Ret (ll, Some ipp).

(** What the catcher holds comes from one packet of [hps]. *)
Definition caught_from (hps : list (option pcap_pkthdr * option (list Z))) (datalink : Z)
    (c : Catch_incoming_connection) : Prop :=
  link_layer_type c = datalink
  ∧ ∀ ipp, (headers c).2 = Some ipp →
    ∃ header packet ll, (Some header, Some packet) ∈ hps
      ∧ data c = take (len header) packet ∧ get_headers datalink (data c) = Ret (ll, Some ipp).

Lemma catch_packet_caught hps datalink c header packet c' :
  caught_from hps datalink c → (header, packet) ∈ hps → catch_packet c header packet = Ret c' →
  caught_from hps datalink c'.
Proof.
  intros [<- Hc] Hin. destruct header as [header|], packet as [packet|]; cbn [catch_packet];
    try (intros [= <-]; by split).
  unfold copy_n. case_decide; cbn; [|done].
  destruct (get_headers (link_layer_type c) (take (len header) packet)) as [[ll ippo]|e|u] eqn:Hg; cbn;
    [intros [= <-]|intros [= <-]|done].
  - split; [done|]. cbn. intros ipp ->. by exists header, packet, ll.
  - split; [done|]. by intros ipp.
Qed.

Lemma during_caught id hps hs datalink c w :
  caught_from hps datalink c → (∀ h p, Packet h p ∈ hs → (h, p) ∈ hps) →
  returning (during id (λ c h p, lift (catch_packet c h p)) c hs) (λ c' _, caught_from hps datalink c') w.
Proof.
  revert c w. induction hs as [|[h p|i] hs IH]; intros c w Hc Hin; cbn [during].
  - by wp_step.
  - wp_step. apply wp_noexcept. wp_step; [|done]. apply IH.
    + eapply catch_packet_caught; [done| |done]. apply Hin. constructor.
    + intros h' p' Hp. apply Hin. by constructor.
  - wp_step. apply (returning_steps (λ _ _, True)); [done|]. intros _ w1 _. apply IH; [done|].
    intros h' p' Hp. apply Hin. by constructor.
Qed.

Lemma elem_of_deliveries h p run : Packet h p ∈ happenings run → (h, p) ∈ deliveries run.
Proof. intros Hin. apply list_elem_of_omap. by eexists. Qed.

(** The capture [pc] has said that its packets are of the type [datalink], and then
    a run of it has ended. *)
Definition looped (pc : nat) (datalink : Z) (run : loop_run) (w w' : world) : Prop :=
  ∃ h1 h2 h3, trace w' = trace w ++ h1 ++ Event (Pcap_datalink pc) datalink :: h2
                         ++ Event (Pcap_loop pc 1) run :: h3.

Lemma looped_extend {P Q} pc datalink run w0 w1 w2 w3 :
  extends P w0 w1 → looped pc datalink run w1 w2 → extends Q w2 w3 → looped pc datalink run w0 w3.
Proof.
  intros (h0 & E0 & _) (h1 & h2 & h3 & E) (h & E3 & _). exists (h0 ++ h1), h2, (h3 ++ h).
  rewrite E3, E, E0, <-!(assoc_L (++)). cbn. by rewrite <-!(assoc_L (++)).
Qed.

Lemma get_datalink_asks pc w :
  returning (get_datalink pc) (λ datalink w', ∃ h, trace w' = trace w ++ h ++ [Event (Pcap_datalink pc) datalink]) w.
Proof. unfold get_datalink. wp_run; [done|]. by exists []. Qed.

Lemma loop_caught pc datalink w :
  returning (loop pc 1 (λ c h p, lift (catch_packet c h p)) (catch_new datalink))
    (λ r w', ∃ run h, trace w' = trace w ++ Event (Pcap_loop pc 1) run :: h
       ∧ caught_from (deliveries run) datalink r.2) w.
Proof.
  unfold loop. wp_step. wp_step. set (w1 := add_event _ w). wp_step.
  assert (∀ w', anything w1 w' → ∃ h, trace w' = trace w ++ Event (Pcap_loop pc 1) r :: h) as Hl.
  { intros w' (h & Ht & _). exists h. rewrite Ht. unfold w1. cbn. by rewrite <-(assoc_L (++)). }
  assert (steps anything (during pc (λ c h p, lift (catch_packet c h p)) (catch_new datalink) (happenings r))) as He
    by (apply (to_anything (of_kind (λ _, true))), during_emits; [done|intros; steps_tac]).
  eapply wp_mono; [apply (wp_and_steps anything); [|exact He]| |done].
  { apply (during_caught pc (deliveries r) _ datalink); [split; [done|by intros ipp]|].
    intros h p. apply elem_of_deliveries. }
  intros c w2 [Hc Hw2]. unfold loop_end, get_end_reason. wp_step. case_decide; [|case_decide]; wp_run; try done; exists r;
    (edestruct Hl as [h Ht]; [|by exists h]); done.
Qed.

Lemma listen_spec args pc w :
  returning (listen args pc)
    (λ r w', let '(ler, data, source, destination) := (r : Loop_end_reason * list Z * IP_address * IP_address) in
       ler = packets_captured → ∃ run datalink ipp, looped pc datalink run w w'
       ∧ captured run datalink data ipp ∧ source = m_source ipp ∧ destination = m_destination ipp) w.
Proof.
  unfold listen. wp_step. apply (returning_steps (extends (of_kind captures))); [by apply set_filter_emits|].
  intros _ w1 (h1 & Hw1 & _). wp_step. eapply wp_mono; [apply get_datalink_asks| |done].
  intros datalink w2 (h2 & Hw2). wp_step. eapply wp_mono; [apply loop_caught| |done].
  intros [ler c] w3 (run & h3 & Hw3 & _ & Hc). cbn [snd] in Hc. cbv zeta iota beta.
  destruct ((headers c).2) as [ipp|] eqn:Hi.
  - wp_step. intros _. destruct (Hc ipp eq_refl) as (header & packet & ll & Hin & Hd & Hg).
    exists run, datalink, ipp. split_and!; try done.
    + exists (h1 ++ h2), [], h3. rewrite Hw3, Hw2, Hw1. by rewrite <-!(assoc_L (++)).
    + by exists header, packet, ll.
  - case_decide; wp_step; [done|]. intros Hler. cbn in Hler. congruence.
Qed.

(** *** Waiting *)
Definition waited (args : Args) (w : world)
    (r : Loop_end_reason * list Z * IP_address * IP_address) (w' : world) : Prop :=
  let '(ler, data, source, destination) := r in
  does (watcher_commands args) [] w w'
  ∧ (ler = packets_captured → ∃ pc run datalink ipp, looped pc datalink run w w'
       ∧ captured run datalink data ipp ∧ source = m_source ipp ∧ destination = m_destination ipp).

Lemma wait_does args w : returning (wait_and_listen args) (waited args w) w.
Proof.
  unfold wait_and_listen. wp_step.
  apply (returning_steps (extends (of_kind captures))); [by apply pcap_open_emits|]. intros pc w1 Hw1.
  assert (idle w w1) as Hi1.
  { apply extends_idle. eapply extends_mono; [exact Hw1|]. intros e. unfold of_kind. by destruct (event_kind e). }
  wp_step. wp_step. pose proof (watchers_does args pc w1) as Hd. destruct (watchers_quiet args pc) as [Hq Hg].
  specialize (Hq w1). specialize (Hg w1). unfold wp at 1. unfold wp in Hd.
  assert (∀ w', returning (pcap_destroy pc) (λ _ _, True) w') as Htrue by (intros; by apply (returning_steps (λ _ _, True))).
  destruct (emplace_all _ _ w1) as [[gs|e|u] w2]; [|apply Htrue|done]. cbn in Hq.
  destruct Hd as [Hidle Hd2]. specialize (Hg _ _ eq_refl).
  assert (steps idle (guards_destroy gs)) as Hgi by (by apply guards_destroy_takes; [apply _|]).
  assert (steps (extends (of_kind quiet)) (guards_destroy gs)) as Hgq
    by (apply guards_destroy_steps; [apply _|apply spawn_quiet|done]).
  wp_step. assert (steps idle (listen args pc)) as Hli.
  { apply emits_idle. unfold listen. steps_tac; auto using set_filter_emits, get_datalink_emits.
    apply loop_emits; [done|]. intros. steps_tac. }
  eapply wp_mono; [apply (wp_and_steps idle); [apply listen_spec|exact Hli]|..]; cbv beta.
  2:{ intros e w3 _. apply (returning_steps (λ _ _, True)); [done|]. intros; apply Htrue. }
  intros [[[ler data] source] dst] w3 [Hl Hi3].
  apply (returning_steps (λ w w', idle w w' ∧ extends (of_kind quiet) w w')); [by apply steps_and|].
  intros ? w4 [Hi4 Hq4].
  apply (returning_steps (extends (of_kind captures))); [by apply pcap_destroy_emits|]. intros _ w5 Hw5.
  assert (idle w4 w5) as Hi5.
  { apply extends_idle. eapply extends_mono; [exact Hw5|]. intros e. unfold of_kind. by destruct (event_kind e). }
  split.
  - eapply idle_does; [exact Hi1|]. eapply does_idle; [|exact Hi5]. eapply does_idle; [|exact Hi4].
    by eapply does_idle.
  - intros ->. destruct (Hl eq_refl) as (run & datalink & ipp & Hloop & Hcap & -> & ->).
    exists pc, run, datalink, ipp. split_and!; try done.
    eapply (looped_extend (P := λ _, True) (Q := λ _, True)); [|exact Hloop|].
    + etrans; [by eapply extends_mono|by eapply extends_mono].
    + etrans; [by eapply extends_mono|by eapply extends_mono].
Qed.

(** *** Waking *)

(** The frame which wakes the machine *)
Definition wake_frame (args : Args) (frame : list Z) : Prop :=
  if decide (wol_method args = wol_method_udp) then frame = create_wol_payload (mac args)
  else ∃ hw, length hw = 6%nat ∧ frame = wol_frame hw (mac args).

Lemma sockets_commands_same w w' : extends (of_kind sockets_only) w w' → commands w' = commands w.
Proof.
  intros Hw. unfold commands. rewrite (command_states_extend w w'); [done|].
  eapply extends_mono; [exact Hw|]. intros e. unfold of_kind. by destruct (event_kind e).
Qed.

Lemma wake_up_does args w :
  returning (if decide (wol_method args = wol_method_udp) then wol_udp (mac args)
             else wol_ethernet (interface args) (mac args))
    (λ _ w', ∃ frame, wake_frame args frame ∧ does [] [frame] w w') w.
Proof.
  assert (∀ w1 h, extends (of_kind sockets_only) w w1 → trace w1 = trace w ++ h →
    does [] (sent h) w w1) as Hdoes.
  { intros w1 h Hw1 Ht. split; [by rewrite app_nil_r; apply sockets_commands_same|].
    unfold sent. by rewrite Ht, omap_app. }
  unfold wake_frame. case_decide.
  - pose proof (wol_udp_emits (mac args) w) as He.
    assert (returning (wol_udp (mac args)) (λ _ w', ∃ h, trace w' = trace w ++ h
      ∧ sent h = [create_wol_payload (mac args)]) w) as Hw.
    { unfold wol_udp, with_socket, socket_new, set_sock_opt, send_to, socket_destroy. wp_run; try done.
      eexists. cbn [trace add_event]. rewrite <-!(assoc_L (++)). split; reflexivity. }
    unfold wp in *. destruct (wol_udp (mac args) w) as [[x|e|u] w']; [|done..].
    destruct Hw as (h & Ht & Hs). eexists. split; [done|]. rewrite <-Hs. by apply Hdoes.
  - pose proof (wol_ethernet_emits (interface args) (mac args) w) as He.
    pose proof (wol_ethernet_spec (interface args) (mac args) w) as Hw.
    unfold wp in *. destruct (wol_ethernet (interface args) (mac args) w) as [[x|e|u] w']; [|done..].
    destruct Hw as (sock & ifr & ifr1 & ifr2 & hw & n & b & _ & Hhw & _ & Ht).
    exists (wol_frame hw (mac args)). split; [by exists hw|]. exact (Hdoes _ _ He Ht).
Qed.

Lemma ping_does iface ip tries w :
  returning (ping_and_wait iface ip tries)
    (λ b w', ∃ statuses, does ((ping_argv iface ip,.) <$> statuses) [] w w'
       ∧ (b = true ↔ last statuses = Some 0)) w.
Proof.
  pose proof (ping_and_wait_spec iface ip tries w) as Hw.
  pose proof (ping_and_wait_quiet iface ip tries w) as Hq. unfold wp.
  destruct (ping_and_wait iface ip tries w) as [[[]|e|u] w']; [| |done..]; cbn in Hq.
  - destruct Hw as (fs & _ & Hp & _). exists (fs ++ [0]). split; [|by rewrite last_snoc].
    split; [exact Hp|]. rewrite app_nil_r. by apply extends_sent.
  - destruct Hw as (fs & Hfs & Hp & _). exists fs. split.
    + split; [exact Hp|]. rewrite app_nil_r. by apply extends_sent.
    + split; [done|]. intros Hl. exfalso. apply last_Some in Hl as [l ->].
      by apply Forall_app in Hfs as [_ [? _]%Forall_cons].
Qed.

(** The headers of a cooked packet always start with a link layer header. *)
Lemma get_headers_cooked data ll ippo :
  get_headers DLT_LINUX_SLL data = Ret (ll, ippo) → is_Some ll.
Proof.
  unfold get_headers. rewrite bind_Ret. intros (ll' & Hll & Hrest).
  unfold parse_link_layer in Hll. rewrite decide_True in Hll by done.
  destruct (parse_linux_cooked_capture data) as [l|e|u]; cbn in Hll; [|done..]. injection Hll as <-.
  apply bind_Ret in Hrest as (d1 & _ & Hrest). apply bind_Ret in Hrest as ([t d2] & _ & Hrest).
  apply bind_Ret in Hrest as (i & _ & Hrest). destruct i as [i|]; [|injection Hrest as <- _; by eexists].
  apply bind_Ret in Hrest as (? & _ & Hrest). injection Hrest as <- _. by eexists.
Qed.

(** [frame] is the packet [data] with a new Ethernet header for [mac]. *)
Definition retargeted (mac : ether_addr) (data frame : list Z) : Prop :=
  ∃ ll ipp, get_headers DLT_LINUX_SLL data = Ret (Some ll, Some ipp)
    ∧ frame = replay_frame mac (ll_source ll) (version_code (m_version ipp)) (ll_header_length ll) data.

Lemma replay_does iface data mac w :
  returning (replay_data iface DLT_LINUX_SLL data mac)
    (λ _ w', ∃ frame, retargeted mac data frame ∧ does [] [frame] w w') w.
Proof.
  unfold wp. destruct (replay_data iface DLT_LINUX_SLL data mac w) as [[x|e|u] w'] eqn:E; [|done..].
  assert (∃ ll ipp, get_headers DLT_LINUX_SLL data = Ret (Some ll, Some ipp)
    ∧ (ll_header_length ll ≤ length data)%nat) as (ll & ipp & Hg & Hl).
  { unfold replay_data in E. rewrite bind_run in E.
    destruct (get_headers DLT_LINUX_SLL data) as [[ll ippo]|e|u] eqn:Hg; cbn in E; [|done..].
    destruct (get_headers_cooked _ _ _ Hg) as [ll' ->]. destruct ippo as [ipp|]; cbn in E; [|done].
    unfold mbind, M_bind in E. cbn in E.
    exists ll', ipp. split; [done|]. unfold advance in E. by case_decide. }
  exists (replay_frame mac (ll_source ll) (version_code (m_version ipp)) (ll_header_length ll) data).
  split; [by exists ll, ipp|].
  pose proof (replay_data_spec iface DLT_LINUX_SLL data mac ll ipp w Hg Hl) as Hr. cbv zeta in Hr.
  rewrite E in Hr. destruct Hr as (pc & r & h1 & h2 & Ht & Hh). apply Forall_app in Hh as [Hh1 Hh2].
  assert (∀ h, Forall (of_kind captures) h → sent h = []) as Hs.
  { intros h Hh. apply sent_quiet. eapply Forall_impl; [exact Hh|]. intros e. unfold of_kind. by destruct (event_kind e). }
  split.
  - rewrite app_nil_r. unfold commands. f_equal. apply command_states_extend. eexists. split; [exact Ht|].
    apply Forall_app. split; [|apply Forall_app; split; [by apply Forall_singleton|]];
      (eapply Forall_impl; [eassumption|]); intros e; unfold of_kind; by destruct (event_kind e).
  - rewrite Ht. unfold sent. rewrite !omap_app. fold (sent (trace w)) (sent h1) (sent h2).
    rewrite (Hs h1), (Hs h2) by done. done.
Qed.

Lemma wake_does args data dst w :
  returning (wake args data dst)
    (λ status w', ∃ woken replayed statuses, wake_frame args woken ∧ retargeted (mac args) data replayed
       ∧ does ((ping_argv (interface args) dst,.) <$> statuses) [woken; replayed] w w'
       ∧ status = if decide (last statuses = Some 0) then success else wake_failure) w.
Proof.
  unfold wake. wp_step. eapply wp_mono; [apply wake_up_does| |done]. intros _ w1 (woken & Hwoken & Hd1).
  wp_step. eapply wp_mono; [apply ping_does| |done]. intros b w2 (statuses & Hd2 & Hb).
  wp_step. eapply wp_mono; [apply replay_does| |done]. intros _ w3 (frame & Hframe & Hd3).
  wp_step. exists woken, frame, statuses. split_and!; [done..| |].
  - rewrite <-(app_nil_r (fmap _ _)). change [woken; frame] with ([woken] ++ [frame]).
    eapply does_trans; [|exact Hd3]. rewrite <-(app_nil_l (fmap _ _)), <-(app_nil_r [woken]).
    by eapply does_trans.
  - case_decide as Hl; destruct b; try done; [|exfalso]; [by apply Hb in Hl|by apply Hl, Hb].
Qed.

(** *** All of it *)
Definition block_commands (a : Action) (client : IP_address) : list (list string * Z) :=
  [(action_argv a (Block_icmp client), 0)].

(** The client whose packet [data] with the network layer header [ipp] came in by
    [run] was served from [w] to [w'], with this status. *)
Definition served (args : Args) (w : world) (status : Emulate_host_status) (w' : world) : Prop :=
  ∃ pc run datalink data ipp woken replayed statuses,
    looped pc datalink run w w' ∧ captured run datalink data ipp
    ∧ wake_frame args woken ∧ retargeted (mac args) data replayed
    ∧ does (added (resources args) ++ watcher_commands args
            ++ block_commands add (m_source ipp) ++ deleted (resources args)
            ++ ((ping_argv (interface args) (m_destination ipp),.) <$> statuses)
            ++ block_commands del (m_source ipp)) [woken; replayed] w w'
    ∧ status = if decide (last statuses = Some 0) then success else wake_failure.

Lemma block_icmp_names source : ∃ k, names_resource (Block_icmp source) k.
Proof. apply Block_icmp_names. Qed.

(** From blocking ICMP errors to lifting the rule again *)
Lemma serve_does args data source dst w :
  returning
    (block_icmp ← on_raise (guard_new (command (Block_icmp source))) (guards_destroy (holding <$> resources args));
     finally (_ ← guards_destroy (holding <$> resources args); wake args data dst) (guard_destroy block_icmp))
    (λ status w', anything w w' ∧ ∃ woken replayed statuses, wake_frame args woken ∧ retargeted (mac args) data replayed
       ∧ does (block_commands add source ++ deleted (resources args)
               ++ ((ping_argv (interface args) dst,.) <$> statuses) ++ block_commands del source)
              [woken; replayed] w w'
       ∧ status = if decide (last statuses = Some 0) then success else wake_failure) w.
Proof.
  assert (∀ A (m : M A) w, returning m (λ _ _, True) w) as Htrue by (intros; by apply (returning_steps (λ _ _, True))).
  assert (steps (extends (of_kind quiet)) (guard_new (command (Block_icmp source)))) as Hnq
    by apply (guard_new_steps _ spawn_quiet _ (command_steps (extends (of_kind quiet)) (Block_icmp source))).
  assert (steps (extends (of_kind quiet)) (guard_destroy (holding (Block_icmp source)))) as Hdq.
  { apply guard_destroy_steps; [apply _|apply spawn_quiet|]. apply command_steps. apply _. }
  assert (steps (extends (of_kind quiet)) (guards_destroy (holding <$> resources args))) as Hrq.
  { apply guards_destroy_steps; [apply _|apply spawn_quiet|].
    apply Forall_fmap, Forall_true. intros f. apply command_steps. apply _. }
  wp_step. wp_step. eapply wp_mono; [apply (wp_and_steps anything); [by apply guard_new_does, block_icmp_names|by eapply to_anything]|..];
    [|intros; apply Htrue]. cbv beta.
  intros g w1 [[-> Hd1] Ha1]. wp_step. wp_step.
  eapply wp_mono; [apply (wp_and_steps anything); [apply release_does|by eapply to_anything]|..]; [|intros; apply Htrue].
  intros ? w2 [Hd2 Ha2]. cbv beta in Hd2.
  eapply wp_mono; [apply (wp_and_steps anything); [apply wake_does|apply wake_anything]|..]; [|intros; apply Htrue].
  intros status w3 [(woken & frame & statuses & Hwoken & Hframe & Hd3 & ->) Ha3].
  eapply wp_mono; [apply (wp_and_steps anything); [by apply guard_destroy_does, block_icmp_names|by eapply to_anything]| |done].
  intros ? w4 [Hd4 Ha4]. cbv beta in Hd4. split; [by (etrans; [exact Ha1|]; etrans; [exact Ha2|]; etrans)|].
  exists woken, frame, statuses. split_and!; [done..| |done].
  change [woken; frame] with ([] ++ [] ++ [woken; frame] ++ []).
  eapply does_trans; [exact Hd1|]. eapply does_trans; [exact Hd2|]. by eapply does_trans.
Qed.

Lemma emulate_host_serves args w :
  returning (emulate_host args)
    (λ status w', status ∈ [success; wake_failure] → served args w status w') w.
Proof.
  assert (∀ A (m : M A) w, returning m (λ _ _, True) w) as Htrue by (intros; by apply (returning_steps (λ _ _, True))).
  unfold emulate_host. wp_step.
  eapply wp_mono; [apply (wp_and_steps anything); [apply setup_does|eapply to_anything, setup_quiet]| |done].
  intros locks w1 [[-> Hd1] Ha1]. wp_step. wp_step.
  eapply wp_mono; [apply (wp_and_steps anything); [apply wait_does|eapply to_anything, wait_quiet]|..]; [|intros; apply Htrue].
  intros [[[ler data] source] dst] w2 [[Hd2 Hpkt] Ha2].
  assert (∀ status, status ∉ [success; wake_failure] → returning (_ ← guards_destroy (holding <$> resources args); mret status)
    (λ status w', status ∈ [success; wake_failure] → served args w status w') w2) as Hleave.
  { intros status Hs. wp_step. apply (returning_steps (λ _ _, True)); [done|]. intros. by wp_step. }
  destruct ler; try (apply Hleave; set_solver). clear Hleave.
  destruct (Hpkt eq_refl) as (pc & run & datalink & ipp & Hloop & Hcap & -> & ->).
  eapply wp_mono; [apply serve_does| |done]. intros status w3 [Ha3 (woken & frame & statuses & Hwoken & Hframe & Hd3 & ->)] _.
  exists pc, run, datalink, data, ipp, woken, frame, statuses. split_and!; try done.
  - by eapply looped_extend.
  - change [woken; frame] with ([] ++ [] ++ [woken; frame]).
    eapply does_trans; [exact Hd1|]. by eapply does_trans.
Qed.
End parts.

(** ** Properties *)

(** C3: the service a client gets.  When [emulate_host] returns that it has woken
    the host, or that it has failed to, a packet was captured in between, and all
    that was done follows from it: the commands are exactly those which set up the
    addresses and rules, those of the watchers, the rule against ICMP errors for the
    address the packet came from, the commands which give everything back, pings of
    the address the packet went to, and the one which lifts the rule again; two
    frames were sent, first the one which wakes the machine and then the packet
    under a new Ethernet header; and the status says whether the last ping was
    answered. *)
Theorem emulate_host_serves_client `{System} `{Fuel} `{Net_text} `{Host} args w status w' :
  emulate_host args w = (Val status, w') → status ∈ [success; wake_failure] →
  served args w status w'.
Proof.
  intros E. pose proof (emulate_host_serves args w) as Hw. unfold wp in Hw. by rewrite E in Hw.
Qed.

(** ** A witness *)
Lemma emulate_host_serves_client_witness :
  success ∈ [success; wake_failure]
  ∧ ∃ w', @emulate_host sleep_system 3%nat ref_net Little sleep_args world_init = (Val success, w')
    ∧ @served ref_net Little sleep_args world_init success w'
    ∧ (length (commands w') = 14)%nat ∧ (length (sent (trace w')) = 2)%nat.
Proof.
  assert (success ∈ [success; wake_failure]) as Hs by constructor. split; [exact Hs|].
  pose proof (λ w', @emulate_host_serves_client sleep_system 3%nat ref_net Little sleep_args world_init success w') as Hw.
  destruct (@emulate_host sleep_system 3%nat ref_net Little sleep_args world_init) as [r w'] eqn:E.
  assert (r = Val success ∧ (length (commands w') = 14)%nat ∧ (length (sent (trace w')) = 2)%nat) as (-> & Hc & Hf)
    by by (vm_compute in E; injection E as <- <-).
  exists w'. split; [reflexivity|]. split; [exact (Hw w' eq_refl Hs)|]. by split.
Defined.
