(* ===== verification/Progress.v ===== *)
(** * The sleep proxy runs to its end

    An environment in which the commands succeed, libpcap and the sockets work
    ([Cooperative]) is enough for [emulate_host] to return: with [success] when
    the capture delivers a packet -- for every configuration, any number of
    addresses and ports, and every well-formed packet -- and with the status which
    says why when the capture is broken.  [total I R m P]: from every world in [I], [m]
    returns a value in [P] and leaves a world in [I] related by [R]. *)
From S2P Require Import Prelude ContainerUtils IntUtils NetText NetTextRef System IpAddress Ethernet Ip PacketParser Pcap FileDescriptor SpawnProcess ScopeGuard Socket Wol WolWatcher DuplicateAddressWatcher Args SleepProxy.
Local Open Scope Z_scope.

(** ** Total correctness *)
Definition total {A} (I : world → Prop) (R : relation world) (m : M A) (P : A → Prop) : Prop :=
  ∀ w, I w → ∃ a w', m w = (Val a, w') ∧ P a ∧ I w' ∧ R w w'.

Section total.
Context (I : world → Prop) (R : relation world) `{!PreOrder R}.

Lemma total_ret {A} (a : A) (P : A → Prop) : P a → total I R (mret a) P.
Proof. intros Ha w Hw. by exists a, w. Qed.
Lemma total_bind {A B} (m : M A) (f : A → M B) P Q :
  total I R m P → (∀ a, P a → total I R (f a) Q) → total I R (m ≫= f) Q.
Proof.
  intros Hm Hf w Hw. destruct (Hm w Hw) as (a & w1 & E1 & Ha & Hw1 & H1).
  destruct (Hf a Ha w1 Hw1) as (b & w2 & E2 & Hb & Hw2 & H2). exists b, w2.
  rewrite bind_run, E1. split_and!; [done..|by etrans].
Qed.
Lemma total_lift {A} (o : outcome A) a (P : A → Prop) : o = Ret a → P a → total I R (lift o) P.
Proof. intros -> Ha w Hw. by exists a, w. Qed.
Lemma total_finally {A} (m : M A) cleanup P :
  total I R m P → total I R cleanup (λ _, True) → total I R (finally m cleanup) P.
Proof.
  intros Hm Hc w Hw. destruct (Hm w Hw) as (a & w1 & E1 & Ha & Hw1 & H1).
  destruct (Hc w1 Hw1) as (? & w2 & E2 & _ & Hw2 & H2). exists a, w2.
  unfold finally. rewrite E1, bind_run, E2. split_and!; [done..|by etrans].
Qed.
Lemma total_on_raise {A} (m : M A) cleanup P : total I R m P → total I R (on_raise m cleanup) P.
Proof using.
  intros Hm w Hw. destruct (Hm w Hw) as (a & w1 & E1 & ?). exists a, w1. unfold on_raise. by rewrite E1.
Qed.
Lemma total_noexcept {A} (m : M A) P : total I R m P → total I R (noexcept m) P.
Proof using.
  intros Hm w Hw. destruct (Hm w Hw) as (a & w1 & E1 & ?). exists a, w1. unfold noexcept. by rewrite E1.
Qed.
Lemma total_attempt {A} (m : M A) P :
  total I R m P → total I R (attempt m) (λ r, ∃ a, r = Ret a ∧ P a).
Proof using.
  intros Hm w Hw. destruct (Hm w Hw) as (a & w1 & E1 & Ha & ?). exists (Ret a), w1. unfold attempt. rewrite E1.
  split_and!; [done|by exists a|tauto..].
Qed.
Lemma total_mapM_ {A} (f : A → M unit) l :
  Forall (λ x, total I R (f x) (λ _, True)) l → total I R (mapM_ f l) (λ _, True).
Proof.
  induction 1 as [|x l Hx _ IH]; cbn [mapM_]; [by apply total_ret|]. eapply total_bind; [exact Hx|done].
Qed.
Lemma total_post {A} (m : M A) (P P' : A → Prop) :
  total I R m P → (∀ a, P a → P' a) → total I R m P'.
Proof using. intros Hm HP w Hw. destruct (Hm w Hw) as (a & w1 & ? & ? & ?). exists a, w1. auto. Qed.
End total.

(** No thread is started or joined, nothing is registered. *)
Definition calm (w w' : world) : Prop :=
  signaled w' = signaled w ∧ pcaps w' = pcaps w ∧ (objects w ≤ objects w')%nat
  ∧ ∀ o, thread_joinable (trace w') o = thread_joinable (trace w) o.
#[export] Instance calm_preorder : PreOrder calm.
Proof.
  split; [by intros w|]. intros w1 w2 w3 (?&?&?&Ht) (?&?&?&Ht'). split_and!; [congruence..|lia|].
  intros o. by rewrite Ht', Ht.
Qed.

(** Objects which have not been created have no thread. *)
Definition fresh (w : world) : Prop := ∀ o, (objects w ≤ o)%nat → thread_joinable (trace w) o = false.
Definition later (w w' : world) : Prop :=
  signaled w' = signaled w ∧ pcaps w' = pcaps w ∧ (fresh w → fresh w').
#[export] Instance later_preorder : PreOrder later.
Proof. split; [by intros w|]. intros w1 w2 w3 (?&?&?) (?&?&?). split_and!; [congruence..|tauto]. Qed.

Lemma calm_later w w' : calm w w' → later w w'.
Proof. intros (? & ? & Ho & Ht). split_and!; [done..|]. intros Hf o Hle. rewrite Ht. apply Hf. lia. Qed.

Lemma thread_joinable_snoc h e o : thread_joinable (h ++ [e]) o = thread_step o (thread_joinable h o) e.
Proof. unfold thread_joinable. by rewrite foldl_app. Qed.

Definition no_threads (k : kind) : bool := match k with Threads => false | _ => true end.
Lemma calm_event {A} (c : syscall A) r w :
  no_threads (syscall_kind c) = true → calm w (add_event (Event c r) w).
Proof. intros Hc. split_and!; [done..|]. intros o. cbn [trace add_event]. rewrite thread_joinable_snoc. by destruct c. Qed.

(** Computations which always return and leave threads and registry alone *)
Abbreviation calmly := (total (λ _, True) calm).
(** The same for those which start and join the threads of new objects *)
Abbreviation orderly := (total fresh later).

Lemma calmly_orderly {A} (m : M A) P : calmly m P → orderly m P.
Proof.
  intros Hm w Hw. destruct (Hm w I) as (a & w1 & ? & ? & _ & Hc%calm_later). exists a, w1.
  split_and!; [done..|by apply Hc|done].
Qed.

Lemma calm_call `{System} {A} (c : syscall A) (P : A → Prop) :
  no_threads (syscall_kind c) = true → (∀ h, P (reply h c)) → calmly (call c) P.
Proof. intros Hc HP w _. eexists _, _. split; [done|]. split; [done|]. split; [done|by apply calm_event]. Qed.

Lemma calm_with_reason id ler : calmly (modify (with_reason id ler)) (λ _, True).
Proof. intros w _. by eexists _, _. Qed.

(** ** The environment *)

(** [interface]'s own MAC address is in line [mac_row], column [mac_column] of
    what [ip a show] writes into the pipe. *)
Class Cooperative `{System} (iface : string) (run : loop_run) (out inp : Z)
    (remaining : history → list Z) (lines : list string) : Prop := {
  coop_init h : reply h File_actions_init = 0;
  coop_dup2 h src dest : reply h (File_actions_adddup2 src dest) = 0;
  coop_spawn h argv i o : (reply h (Posix_spawnp argv i o)).1 = 0;
  coop_wait h pid : reply h (Waitpid pid) = Some 0;
  coop_no_signal h : reply h Signal_arrived = false;
  coop_fileno h s : 0 ≤ reply h (Fileno s);
  coop_pipe h : reply h Pipe = Some (out, inp);
  coop_pipe_fds : 0 ≤ out ∧ 0 ≤ inp;
  coop_reader : pipe_reader out remaining;
  coop_written h i o p s :
    remaining (h ++ [Event (Posix_spawnp (c_cut <$> ["ip"; "a"; "show"; "dev"; iface]) i o) p;
                     Event (Waitpid p.2) s])
    = lines ≫= λ l, string_bytes l ++ [newline];
  coop_lines : Forall (λ l, newline ∉ string_bytes l) lines;
  coop_mac : ∃ line, lines !! mac_row = Some line ∧ is_Some (split_string line " " !! mac_column);
  coop_create h id i : reply h (Pcap_create id i) = None;
  coop_snaplen h id n : reply h (Pcap_set_snaplen id n) = 0;
  coop_promisc h id n : reply h (Pcap_set_promisc id n) = 0;
  coop_timeout h id n : reply h (Pcap_set_timeout id n) = 0;
  coop_activate h id : reply h (Pcap_activate id) = 0;
  coop_datalink h id : reply h (Pcap_datalink id) = DLT_LINUX_SLL;
  coop_compile h id f : reply h (Pcap_compile id f) = 0;
  coop_setfilter h id : reply h (Pcap_setfilter id) = 0;
  coop_loop h id : reply h (Pcap_loop id 1) = run;
  coop_inject h id d : reply h (Pcap_inject id d) = Z.of_nat (length d);
  coop_socket h d t p : 0 ≤ reply h (Socket_open d t p);
  coop_setsockopt h fd l o v : reply h (Setsockopt fd l o v) = true;
  coop_ioctl h fd q ifr : ∃ ifr', reply h (Ioctl fd q ifr) = Some ifr'
                                 ∧ length (ifr_hwaddr_sa_data ifr') = 14%nat;
  coop_sendto h fd b f a : is_Some (reply h (Sendto fd b f a));
}.

Lemma calm_call_eq `{System} {A} (c : syscall A) v :
  no_threads (syscall_kind c) = true → (∀ h, reply h c = v) → calmly (call c) (λ r, r = v).
Proof. intros Hc Hv. by apply calm_call. Qed.

(** A call whose answer plays no role *)
Lemma calm_call_any `{System} {A} (c : syscall A) :
  no_threads (syscall_kind c) = true → calmly (call c) (λ _, True).
Proof. intros Hc. by apply calm_call. Qed.

(** One call whose answer the environment fixes, and one whose answer plays no
    role *)
Ltac answer H := eapply (total_bind _ calm); [apply calm_call_eq; [done|exact H]|intros ? ->].
Ltac ask := eapply (total_bind _ calm); [by apply calm_call_any|intros ? _].

Section operations.
Context `{System} {iface : string} {run : loop_run} {out inp : Z}.
Context {remaining : history → list Z} {lines : list string}.
Context `{C : !Cooperative iface run out inp remaining lines}.

Lemma get_datalink_total id : calmly (get_datalink id) (λ d, d = DLT_LINUX_SLL).
Proof using C.
  unfold get_datalink. answer (λ h, coop_datalink h id). rewrite decide_False by done.
  by apply (total_ret _ calm).
Qed.

Lemma pcap_configure_total id i : calmly (pcap_configure id i default_snaplen false default_timeout) (λ _, True).
Proof using C.
  unfold pcap_configure, get_verbose_datalink.
  answer (λ h, coop_snaplen h id default_snaplen). rewrite decide_False by done.
  answer (λ h, coop_promisc h id 0). rewrite decide_False by tauto.
  answer (λ h, coop_timeout h id default_timeout). rewrite decide_False by tauto.
  answer (λ h, coop_activate h id). rewrite decide_False by done.
  apply (total_bind _ calm _ _ (λ _, True)); [|intros; by apply (total_ret _ calm)].
  eapply (total_bind _ calm); [apply get_datalink_total|intros; by apply (total_ret _ calm)].
Qed.

(** The new object is created here; it has no thread. *)
Lemma pcap_open_run i w :
  ∃ w', pcap_open i w = (Val (objects w), w') ∧ calm w w' ∧ (objects w < objects w')%nat.
Proof using C.
  unfold pcap_open, pcap_new. rewrite bind_run. cbn [get]. rewrite bind_run. cbn [modify].
  rewrite bind_run. cbn [call]. rewrite coop_create.
  set (w1 := add_event _ (with_object w)).
  destruct (total_on_raise _ calm _ (pcap_destroy (objects w)) _ (pcap_configure_total (objects w) i) w1 I)
    as (? & w2 & E & _ & _ & Hc).
  exists w2. rewrite bind_run, E. split; [done|].
  assert (calm w w1 ∧ objects w1 = S (objects w)) as [Hc1 Ho1].
  { split; [|done]. trans (with_object w); [split_and!; cbn; try done; lia|by apply calm_event]. }
  split; [by etrans|]. destruct Hc as (_ & _ & Ho & _). lia.
Qed.

Lemma set_filter_total id f : calmly (set_filter id f) (λ _, True).
Proof using C.
  unfold set_filter, bpf_new. eapply (total_bind _ calm _ _ (λ _, True)).
  - answer (λ h, coop_compile h id f). rewrite decide_False by done. by apply (total_ret _ calm).
  - intros _ _. answer (λ h, coop_setfilter h id). rewrite decide_False by done. by apply (total_ret _ calm).
Qed.

Lemma pcap_destroy_total id : calmly (pcap_destroy id) (λ _, True).
Proof using. by apply calm_call_any. Qed.

Lemma break_loop_total id ler : calmly (break_loop id ler) (λ _, True).
Proof using.
  unfold break_loop. eapply (total_bind _ calm); [apply calm_with_reason|intros _ _].
  ask. eapply (total_bind _ calm); [by apply calm_call_any|]. intros [|] _.
  - by apply calm_call_any.
  - by apply (total_ret _ calm).
Qed.

Lemma inject_total id d : calmly (inject id d) (λ _, True).
Proof using C.
  unfold inject. answer (λ h, coop_inject h id d). rewrite decide_False by lia. by apply (total_ret _ calm).
Qed.

Lemma get_fd_from_stream_total s : calmly (get_fd_from_stream (Some s)) (λ n, 0 ≤ n).
Proof using C.
  unfold get_fd_from_stream. eapply (total_bind _ calm); [apply calm_call; [done|intros h; apply (coop_fileno h s)]|].
  intros n Hn. rewrite decide_False by lia. by apply (total_ret _ calm).
Qed.

Lemma fd_destroy_total f : calmly (fd_destroy f) (λ _, True).
Proof using C.
  assert (calmly (keeps_open f) (λ _, True)) as Hk.
  { unfold keeps_open. case_decide; [by apply (total_ret _ calm)|].
    do 3 (eapply (total_bind _ calm); [apply get_fd_from_stream_total|intros ? _];
      try case_decide; try by apply (total_ret _ calm)). }
  unfold fd_destroy, fd_close. eapply (total_bind _ calm _ _ (λ _, True)); [|intros; by apply (total_ret _ calm)].
  eapply (total_bind _ calm); [apply (total_attempt _ calm), Hk|]. intros ? ([|] & -> & _); [by apply (total_ret _ calm)|].
  eapply (total_bind _ calm); [by apply calm_call_any|]. intros [|] _; [by apply (total_ret _ calm)|].
  intros w _. by eexists _, w.
Qed.

Lemma file_actions_total : calmly file_actions_new (λ _, True).
Proof using C.
  unfold file_actions_new. answer coop_init. rewrite decide_False by tauto. by apply (total_ret _ calm).
Qed.

Lemma add_dup2_total src dest : calmly (add_dup2 src dest) (λ _, True).
Proof using C.
  unfold add_dup2. case_decide; [by apply (total_ret _ calm)|].
  eapply (total_bind _ calm); [apply get_fd_from_stream_total|]. intros old _.
  answer (λ h, coop_dup2 h (fd src) old). rewrite decide_False by tauto. by apply (total_ret _ calm).
Qed.

Context `{Fuel} (Hfuel : (0 < fuel)%nat).

(** A command runs, and its end is the last thing which happens. *)
Lemma spawn_io_run cmd i o w :
  cmd ≠ [] → ∃ w' h p s, spawn_io cmd i o w = (Val 0, w') ∧ calm w w'
    ∧ trace w' = h ++ [Event (Posix_spawnp (c_cut <$> cmd) (fd i) (fd o)) p; Event (Waitpid p.2) s].
Proof using C Hfuel.
  intros Hcmd. unfold spawn_io, spawn_wrapper.
  destruct cmd as [|c0 cmd]; [done|].
  change (vec_at (get_c_string_array (to_vector_strings (c0 :: cmd))) 0)
    with (Ret (Some (chars c0 ++ [NUL]))).
  rewrite lift_Ret_bind. cbn [c_argument]. rewrite c_string_terminated, lift_Ret_bind.
  destruct (file_actions_total w I) as ([] & w1 & E1 & _ & _ & H1).
  destruct (add_dup2_total i std_in w1 I) as ([] & w2 & E2 & _ & _ & H2).
  destruct (add_dup2_total o std_out w2 I) as ([] & w3 & E3 & _ & _ & H3).
  rewrite bind_run, E1, bind_run, E2, bind_run, E3, c_arguments_array, lift_Ret_bind, bind_run. cbn [call].
  pose proof (coop_spawn (trace w3) (c_cut <$> c0 :: cmd) (fd i) (fd o)) as Hp.
  destruct (reply _ _) as [rc pid]. cbn in Hp. subst rc.
  rewrite decide_False by tauto. rewrite bind_run. unfold wait_until_pid_exits. rewrite bind_run.
  destruct fuel as [|n]; [lia|]. cbn [wait_loop]. rewrite bind_run. cbn [call]. rewrite coop_wait.
  change (has_ended 0) with true. cbn [mret M_ret].
  change (WIFSIGNALED 0) with false. rewrite bind_run. cbn [mret M_ret].
  change (exit_code 0) with 0. rewrite decide_False by done.
  eexists _, (trace w3), (0, pid), _. split; [reflexivity|]. split.
  - etrans; [exact H1|]. etrans; [exact H2|]. etrans; [exact H3|].
    etrans; [by apply (calm_event (Posix_spawnp (c_cut <$> c0 :: cmd) (fd i) (fd o)) (0, pid))|].
    by apply (calm_event (Waitpid pid) (Some 0)).
  - cbn [trace add_event fst snd]. by rewrite <-(assoc_L (++)).
Qed.

Lemma spawn_total cmd : cmd ≠ [] → calmly (spawn cmd) (λ code, code = 0).
Proof using C Hfuel.
  intros Hcmd w _. destruct (spawn_io_run cmd fd_default fd_default w Hcmd) as (w' & _ & _ & _ & E & Hc & _).
  by exists 0, w'.
Qed.

(** ** Watchers *)
Context (Hread : (length (lines ≫= λ l, string_bytes l ++ [newline]) + buffer_size ≤ fuel * buffer_size)%nat).

Lemma steps_calm {A} (m : M A) w a w' : steps calm m → m w = (Val a, w') → calm w w'.
Proof using. intros Hm E. specialize (Hm w). by rewrite E in Hm. Qed.

Lemma fd_read_calm n f : steps calm (fd_read n f).
Proof using.
  assert (∀ r d, steps calm (read_loop n (fd f) r d)) as Hr.
  { induction n as [|n' IH]; intros r d; cbn; unfold is_data_ready_to_read; steps_tac; by apply calm_event. }
  unfold fd_read. steps_tac.
Qed.

Lemma get_self_pipes_total :
  calmly (get_self_pipes false) (λ p, p = (mkfd out, mkfd inp)).
Proof using C Hfuel Hread.
  unfold get_self_pipes. answer coop_pipe. pose proof coop_pipe_fds as [Ho Hi]. unfold fd_new.
  rewrite !decide_False by lia. intros w _. by eexists _, w.
Qed.

Lemma get_mac_total : calmly (get_mac iface) (λ _, True).
Proof using C Hfuel Hread.
  unfold get_mac, with_self_pipes. eapply (total_bind _ calm); [apply get_self_pipes_total|].
  intros ? ->. cbn [fst snd]. apply (total_finally _ calm).
  2:{ eapply (total_bind _ calm); [apply fd_destroy_total|intros _ _; apply fd_destroy_total]. }
  intros w _. rewrite bind_run.
  destruct (spawn_io_run ["ip"; "a"; "show"; "dev"; iface] fd_default (mkfd inp) w ltac:(done))
    as (w1 & h & p & s & E1 & H1 & Ht). rewrite E1. cbn [decide].
  rewrite decide_False by tauto. rewrite bind_run.
  assert (remaining (trace w1) = lines ≫= λ l, string_bytes l ++ [newline]) as Hrem.
  { rewrite Ht. apply coop_written. }
  destruct (read_loop_pipe out remaining coop_reader fuel (-1) [] w1 ltac:(done)) as (w2 & E2 & _);
    [by rewrite Hrem|].
  assert (fd_read fuel (mkfd out) w1 = (Val lines, w2)) as E3.
  { unfold fd_read. rewrite bind_run. cbn [fd]. rewrite E2. cbn [app]. rewrite Hrem.
    pose proof (split_lines lines "") as Hs. rewrite decide_True, !app_nil_r in Hs by done.
    rewrite Hs; [done|]. apply Forall_app. split; [apply coop_lines|]. repeat constructor. apply not_elem_of_nil. }
  rewrite E3. destruct coop_mac as (line & Hline & [m Hm]).
  unfold vec_at. rewrite Hline, lift_Ret_bind, Hm. eexists m, w2. split; [done|]. split; [done|]. split; [done|].
  etrans; [exact H1|]. by apply (steps_calm _ _ _ _ (fd_read_calm fuel (mkfd out)) E3).
Qed.

(** ** Guards *)

(** [f] makes a command for both actions. *)
Definition makes_commands (f : Action → outcome string) : Prop :=
  ∀ a, ∃ cmd, f a = Ret cmd ∧ cmd ≠ "".
Lemma names_commands f k : names_resource f k → makes_commands f.
Proof using. intros Hf a. destruct (Hf a) as (cmd & ? & ? & _). by exists cmd. Qed.

Lemma take_command_total f a : makes_commands f → calmly (take_action (command f) a) (λ _, True).
Proof using C Hfuel.
  intros Hf. destruct (Hf a) as (cmd & Hcmd & Hne). unfold take_action, command. cbn [apply].
  rewrite Hcmd, lift_Ret_bind, decide_False by done.
  eapply (total_bind _ calm); [by apply spawn_total, split_string_not_nil|]. intros ? ->.
  rewrite decide_False by tauto. by apply (total_ret _ calm).
Qed.

Definition ends_calmly (g : Scope_guard) : Prop := calmly (guard_destroy g) (λ _, True).
Definition ends_orderly (g : Scope_guard) : Prop := orderly (guard_destroy g) (λ _, True).

Lemma command_guard_total f : makes_commands f → calmly (guard_new (command f)) ends_calmly.
Proof using C Hfuel.
  intros Hf. unfold guard_new. eapply (total_bind _ calm).
  { by apply (total_on_raise _ calm), take_command_total. }
  intros _ _. apply (total_ret _ calm). unfold ends_calmly, guard_destroy, guard_free. cbn [freed aquire_release].
  eapply (total_bind _ calm _ _ (λ _, True)); [|intros _ _; apply total_noexcept; by apply (total_ret _ calm)].
  apply total_noexcept. eapply (total_bind _ calm); [by apply take_command_total|]. intros; by apply (total_ret _ calm).
Qed.

Lemma emplace_all_total I R `{!PreOrder R} fs gs P :
  Forall (λ f, total I R (f ≫= guard_new) P) fs →
  total I R (emplace_all fs gs) (λ r, ∃ gs', r = gs ++ gs' ∧ Forall P gs').
Proof using.
  intros Hfs. revert gs. induction Hfs as [|f fs Hf _ IH]; intros gs; cbn [emplace_all].
  { apply (total_ret _ R). exists []. by rewrite app_nil_r. }
  eapply (total_bind _ R); [by apply total_on_raise|]. intros g Hg.
  eapply total_post; [apply IH|]. intros r (gs' & -> & Hgs'). exists (g :: gs').
  rewrite <-(assoc_L (++)). split; [done|by constructor].
Qed.

Lemma setup_total `{Net_text} args : calmly (setup_firewall_and_ips args) (Forall ends_calmly).
Proof using C Hfuel.
  unfold setup_firewall_and_ips. rewrite setup_functors_actions.
  eapply total_post; [apply (emplace_all_total _ calm) with (P := ends_calmly)|by intros ? (? & -> & ?)].
  apply Forall_fmap, Forall_forall. intros f Hf. unfold compose.
  rewrite ret_bind. apply command_guard_total.
  apply list_elem_of_bind in Hf as (ip & Hf & _). unfold address_actions in Hf.
  rewrite !elem_of_app, !elem_of_cons, elem_of_nil, list_elem_of_fmap in Hf.
  destruct Hf as [[->|[->|[]]]|[(port & -> & _)|[->|[]]]].
  - destruct (Reject_tp_names ip TP_TCP) as [k Hk]. by eapply names_commands.
  - destruct (Reject_tp_names ip TP_UDP) as [k Hk]. by eapply names_commands.
  - destruct (Drop_port_names ip port) as [k Hk]. by eapply names_commands.
  - by eapply names_commands, Temp_ip_names.
Qed.

Lemma guards_destroy_total gs : Forall ends_calmly gs → calmly (guards_destroy gs) (λ _, True).
Proof using. intros Hgs. by apply (total_mapM_ _ calm). Qed.

(** ** The threads of the watchers *)
Lemma thread_join_total o : orderly (thread_join_if_joinable o) (λ _, True).
Proof using.
  intros w Hw. unfold thread_join_if_joinable. rewrite bind_run. cbn [get].
  destruct (thread_joinable (trace w) o); [|by exists tt, w].
  assert (fresh (add_event (Event (Thread_join o) (reply (trace w) (Thread_join o))) w)) as Hf.
  { intros o' Ho'. cbn [trace add_event]. rewrite thread_joinable_snoc. cbn.
    case_decide; [done|]. by apply Hw. }
  eexists _, _. split; [done|]. by split_and!.
Qed.

Lemma calm_store o b r w : calm w (add_event (Event (Atomic_store o b) r) w).
Proof using. split_and!; [done..|]. intros o'. cbn [trace add_event]. by rewrite thread_joinable_snoc. Qed.
Lemma store_total o b : calmly (call (Atomic_store o b)) (λ _, True).
Proof using. intros w _. eexists _, _. split; [done|]. split; [done|]. split; [done|apply calm_store]. Qed.

(** Starting the thread of an object which has none *)
Lemma thread_assign_run o w :
  fresh w → (o < objects w)%nat → thread_joinable (trace w) o = false →
  ∃ w', thread_assign o w = (Val tt, w') ∧ fresh w' ∧ later w w'.
Proof using.
  intros Hf Ho Hj. unfold thread_assign. rewrite bind_run. cbn [get]. rewrite Hj.
  unfold call. destruct (reply (trace w) (Thread_start o)).
  assert (fresh (add_event (Event (Thread_start o) tt) w)) as Hf'.
  { intros o' Ho'. cbn [trace add_event objects] in *. rewrite thread_joinable_snoc. cbn.
    rewrite decide_False by (clear -Ho Ho'; lia). by apply Hf. }
  eexists. split; [done|]. split; [done|]. by split_and!.
Qed.

Lemma wol_watcher_stop_total s : orderly (wol_watcher_stop s) (λ _, True).
Proof using.
  unfold wol_watcher_stop. eapply (total_bind _ later); [apply calmly_orderly, break_loop_total|].
  intros _ _. apply thread_join_total.
Qed.
Lemma stop_watcher_total d : orderly (stop_watcher d) (λ _, True).
Proof using.
  unfold stop_watcher. eapply (total_bind _ later); [apply calmly_orderly, store_total|].
  intros _ _. apply thread_join_total.
Qed.

(** A guard whose functor issues no commands *)
Lemma silent_guard_ends f :
  orderly (apply f del) (λ cmd, cmd = "") → orderly (dispose f) (λ _, True) →
  ends_orderly {| freed := false; aquire_release := f |}.
Proof using.
  intros Ha Hd. unfold ends_orderly, guard_destroy, guard_free, take_action. cbn [freed aquire_release].
  eapply (total_bind _ later _ _ (λ _, True)); [|intros _ _; by apply total_noexcept].
  apply total_noexcept. eapply (total_bind _ later _ _ (λ _, True)); [|intros; by apply (total_ret _ later)].
  eapply (total_bind _ later); [exact Ha|]. intros ? ->. rewrite decide_True by done. by apply (total_ret _ later).
Qed.

Lemma silent_guard_new f w w' :
  apply f add w = (Val "", w') →
  guard_new f w = (Val {| freed := false; aquire_release := f |}, w').
Proof using.
  intros Ha. unfold guard_new, on_raise. rewrite bind_run. unfold take_action. by rewrite bind_run, Ha.
Qed.

Lemma wol_guard_total m pc : orderly (make_wol_watcher iface m pc ≫= guard_new) ends_orderly.
Proof using C Hfuel Hread.
  intros w Hw. unfold make_wol_watcher, wol_watcher_new.
  destruct (pcap_open_run iface w) as (w1 & E1 & H1 & Ho1).
  destruct (set_filter_total (objects w) wol_filter w1 I) as ([] & w2 & E2 & _ & _ & H2).
  assert (calm w w2) as H02 by by etrans. pose proof (calm_later _ _ H02) as (Hs2 & Hp2 & Hf2).
  destruct H02 as (_ & _ & _ & Ht2). destruct H2 as (_ & _ & Ho2 & _).
  destruct (thread_assign_run (objects w) w2) as (w3 & E3 & Hf3 & Hs3 & Hp3 & _);
    [by apply Hf2|lia|rewrite Ht2; by apply Hw|].
  set (s := {| wol_mac := m; waiting_for_syn := pc; waiting_for_wol := objects w |}).
  set (f := {| apply := wol_watcher_apply s; dispose := wol_watcher_destroy s |}).
  exists {| freed := false; aquire_release := f |}, w3. split; [|split; [|split]].
  - rewrite bind_run, bind_run, bind_run, E1, bind_run. unfold on_raise. rewrite E2. cbn [mret M_ret].
    apply silent_guard_new. cbn [apply f]. unfold wol_watcher_apply. rewrite bind_run.
    rewrite decide_True by done. cbn [waiting_for_wol s]. by rewrite E3.
  - apply silent_guard_ends; cbn [apply dispose f].
    + unfold wol_watcher_apply. eapply (total_bind _ later); [by apply (total_ret _ later _ (λ _, True))|].
      intros _ _. eapply (total_bind _ later); [rewrite decide_True by done; apply wol_watcher_stop_total|].
      intros _ _. by apply (total_ret _ later).
    + unfold wol_watcher_destroy. eapply (total_bind _ later); [apply wol_watcher_stop_total|].
      intros _ _. apply calmly_orderly, pcap_destroy_total.
  - exact Hf3.
  - split_and!; [congruence..|done].
Qed.

Lemma daw_guard_total `{NT : Net_text} `{HO : Host} ip pc :
  orderly (make_duplicate_address_watcher iface ip pc ≫= guard_new) ends_orderly.
Proof using C Hfuel Hread.
  intros w Hw. unfold make_duplicate_address_watcher, daw_new.
  destruct (get_mac_total w I) as (m & w1 & E1 & _ & _ & H1).
  pose proof (calm_later _ _ H1) as (Hs1 & Hp1 & Hf1).
  set (w2 := add_event (Event (Atomic_store (objects w1) false)
    (reply (trace w1) (Atomic_store (objects w1) false))) (with_object w1)).
  assert (calm w1 w2 ∧ objects w2 = S (objects w1)) as [H2 Ho2].
  { split; [|done]. trans (with_object w1); [split_and!; cbn; try done; lia|apply calm_store]. }
  set (d := {| daw_iface := iface; daw_ip := ip; daw_pcap := pc; daw_is_ip_occupied := Ip_neigh_checker m;
               daw_id := objects w1 |}).
  set (f := {| apply := daw_apply d; dispose := stop_watcher d |}).
  destruct (store_total (objects w1) true w2 I) as ([] & w3 & E3 & _ & _ & H3).
  assert (calm w1 w3) as H13 by by etrans.
  pose proof (calm_later _ _ H13) as (Hs3 & Hp3 & Hf3). destruct H13 as (_ & _ & _ & Ht3).
  destruct (thread_assign_run (objects w1) w3) as (w4 & E4 & Hf4 & Hs4 & Hp4 & _);
    [by apply Hf3, Hf1|destruct H3 as (_ & _ & ? & _); lia|rewrite Ht3; by apply Hf1|].
  exists {| freed := false; aquire_release := f |}, w4. split; [|split; [|split]].
  - rewrite bind_run, bind_run, bind_run, E1, bind_run. cbn [get].
    change ((guard_new f) w2 = (Val {| freed := false; aquire_release := f |}, w4)).
    apply silent_guard_new. cbn [apply f]. unfold daw_apply. rewrite bind_run, decide_True by done.
    cbn [daw_id d]. by rewrite bind_run, E3, E4.
  - apply silent_guard_ends; cbn [apply dispose f]; [|apply stop_watcher_total].
    unfold daw_apply. eapply (total_bind _ later); [by apply (total_ret _ later _ (λ _, True))|].
    intros _ _. eapply (total_bind _ later); [rewrite decide_True by done; apply stop_watcher_total|].
    intros _ _. by apply (total_ret _ later).
  - exact Hf4.
  - split_and!; [congruence..|done].
Qed.

(** Registering a capture, and giving it up while it is registered *)
Lemma ptr_guard_run pc w :
  guard_new (ptr_guard pc) w
  = (Val {| freed := false; aquire_release := ptr_guard pc |}, with_pcaps (pcaps w ++ [pc]) w).
Proof using. by apply silent_guard_new. Qed.

Lemma erase_first_present x l : x ∈ l → is_Some (erase_first x l).
Proof using.
  induction l as [|y l IH]; [by intros ?%elem_of_nil|]. rewrite erase_first_cons.
  intros [->|Hx]%elem_of_cons; [by rewrite decide_True|]. case_decide; [done|]. by apply fmap_is_Some, IH.
Qed.

Lemma ptr_guard_destroy_run pc w :
  pc ∈ pcaps w → ∃ l, guard_destroy {| freed := false; aquire_release := ptr_guard pc |} w
                      = (Val tt, with_pcaps l w).
Proof using.
  intros [l Hl]%erase_first_present. exists l.
  unfold guard_destroy, guard_free, take_action, noexcept. cbn [freed aquire_release apply ptr_guard].
  unfold ptr_guard_apply. rewrite !bind_run. cbn [get]. by rewrite Hl.
Qed.

(** ** Waiting *)
Context `{NT : Net_text} `{HO : Host}.

(** [listen] returns [r] and changes [signaled] by [f]; the guards around it are
    made and given back. *)
Lemma wait_and_listen_run args r (f : bool → bool) w :
  interface args = iface → fresh w →
  (∀ pc w1, pc ∈ pcaps w1 → ∃ w2, listen args pc w1 = (Val r, w2) ∧ pcaps w2 = pcaps w1
     ∧ (fresh w1 → fresh w2) ∧ signaled w2 = f (signaled w1)) →
  ∃ w', wait_and_listen args w = (Val r, w') ∧ signaled w' = f (signaled w).
Proof using C Hfuel Hread.
  intros Hi Hw Hlisten. destruct (pcap_open_run "any" w) as (w1 & E1 & H1 & _). set (pc := objects w) in *.
  apply calm_later in H1 as (Hs1 & Hp1 & Hf1).
  destruct (wol_guard_total (mac args) pc w1 (Hf1 Hw)) as (g1 & w2 & E2 & Hg1 & Hw2 & Hs2 & Hp2 & _).
  pose proof (ptr_guard_run pc w2) as E3. set (w3 := with_pcaps _ w2) in E3.
  assert (fresh w3) as Hw3 by exact Hw2.
  set (g2 := {| freed := false; aquire_release := ptr_guard pc |}) in E3.
  destruct (emplace_all_total fresh later ((λ ip, make_duplicate_address_watcher iface ip pc) <$> addresses args)
    [g1; g2] ends_orderly) with (w := w3) as (gs & w4 & E4 & (gs' & -> & Hgs) & Hw4 & Hs4 & Hp4 & _); [|done|].
  { apply Forall_fmap, Forall_forall. intros ip _. apply daw_guard_total. }
  assert (emplace_all (watchers args pc) [] w1 = (Val ([g1; g2] ++ gs'), w4)) as E5.
  { unfold watchers. rewrite Hi. cbn [emplace_all app]. rewrite bind_run. unfold on_raise at 1. rewrite E2.
    rewrite bind_run. unfold on_raise at 1. rewrite ret_bind, E3. exact E4. }
  destruct (Hlisten pc w4) as (w5 & E6 & Hp5 & Hf5 & Hs5).
  { rewrite Hp4. cbn. apply elem_of_app. right. constructor. }
  destruct (Hg1 w5 (Hf5 Hw4)) as ([] & w6 & E7 & _ & Hw6 & Hs6 & Hp6 & _).
  destruct (ptr_guard_destroy_run pc w6) as [l E8].
  { rewrite Hp6, Hp5, Hp4. cbn. apply elem_of_app. right. constructor. }
  fold g2 in E8. assert (fresh (with_pcaps l w6)) as Hw7 by exact Hw6.
  destruct (total_mapM_ fresh later guard_destroy gs' Hgs (with_pcaps l w6) Hw7)
    as ([] & w8 & E9 & _ & Hw8 & Hs8 & _).
  destruct (pcap_destroy_total pc w8 I) as ([] & w9 & E10 & _ & _ & (Hs9 & _)%calm_later).
  exists w9. split; [|cbn in *; congruence].
  unfold wait_and_listen. rewrite bind_run, E1. unfold finally at 1. rewrite bind_run, E5.
  unfold finally. rewrite E6. unfold guards_destroy. cbn [app mapM_].
  rewrite bind_run, bind_run, E7, bind_run, E8, E9.
  unfold mbind, M_bind, mret, M_ret. by rewrite E10.
Qed.

(** ** When the capture is broken *)

(** The reason an interruption gives to a registered capture *)
Definition reason_given (i : interruption) : Loop_end_reason :=
  match i with By_signal => signal | By_thread ler => ler end.

Lemma last_request_registered pcs pc ints i before :
  pc ∈ pcs → last ints = Some i → last_request pcs pc ints before = reason_given i.
Proof using.
  intros Hpc Hl. unfold last_request.
  assert (omap (requested pcs pc) ints = reason_given <$> ints) as ->.
  { clear Hl. induction ints as [|[|ler] ints IH]; [done|..]; cbn; [|by rewrite IH].
    rewrite bool_decide_true by done. by rewrite IH. }
  by rewrite fmap_last, Hl.
Qed.

Definition same_objects (w w' : world) : Prop := objects w' = objects w.
#[local] Instance same_objects_preorder : PreOrder same_objects.
Proof using. split; [by intros w|]. unfold same_objects. intros w1 w2 w3 ??. congruence. Qed.

Lemma loop_fresh id n c w :
  fresh w → fresh (loop id n (λ c h p, lift (catch_packet c h p)) c w).2.
Proof using.
  intros Hf.
  assert (emits (of_kind no_threads) (loop id n (λ c h p, lift (catch_packet c h p)) c)) as Ht.
  { apply loop_emits; [done|]. intros. steps_tac. }
  assert (steps same_objects (loop id n (λ c h p, lift (catch_packet c h p)) c)) as Ho.
  { assert (∀ i ler, steps same_objects (break_loop i ler)) as Hb by (intros; unfold break_loop; steps_tac; done).
    assert (steps same_objects signal_handler) as Hh by (unfold signal_handler; steps_tac; first [apply Hb|done]).
    assert (∀ hs c, steps same_objects (during id (λ c h p, lift (catch_packet c h p)) c hs)) as Hd.
    { induction hs as [|[h p|[|ler]] hs IH]; intros c'; cbn [during interrupted]; steps_tac;
        first [apply IH|apply Hb|apply Hh]. }
    unfold loop, loop_end, get_end_reason. steps_tac; first [apply Hd|done]. }
  specialize (Ht w) as (h & Ht & Hh). specialize (Ho w). intros o Hle. unfold same_objects in Ho.
  rewrite Ho in Hle. rewrite Ht. unfold thread_joinable. rewrite foldl_app. fold (thread_joinable (trace w) o).
  rewrite (Hf o Hle). clear -Hh. induction Hh as [|[A c' r] h He _ IH]; [done|]. cbn [foldl].
  assert (thread_step o false (Event c' r) = false) as ->; [|exact IH].
  destruct c'; cbn in *; try done. 
Qed.

(** What [wait_and_listen] returns when its capture was broken *)
Definition broken_result (ler : Loop_end_reason) (c : Catch_incoming_connection)
    : Loop_end_reason * list Z * IP_address * IP_address :=
  match (headers c).2 with
  | None => (ler, data c, IP_address_default, IP_address_default)
  | Some ipp => (ler, data c, m_source ipp, m_destination ipp)
  end.

(** The capture ends without its own verdict, and the last one who broke it
    gives the reason. *)
Definition broken_by (i : interruption) (c : Catch_incoming_connection) : Prop :=
  default 1 (loop_ret run) ≠ 0 ∧ default 1 (loop_ret run) ≠ PCAP_ERROR
  ∧ last (interruptions run) = Some i ∧ reason_given i ≠ packets_captured
  ∧ foldl (λ m hp, m ≫= λ c, catch_packet c hp.1 hp.2) (Ret (catch_new DLT_LINUX_SLL)) (deliveries run) = Ret c.

Lemma listen_broken args i c pc w :
  broken_by i c → pc ∈ pcaps w →
  ∃ w', listen args pc w = (Val (broken_result (reason_given i) c), w') ∧ pcaps w' = pcaps w
    ∧ (fresh w → fresh w')
    ∧ signaled w' = (signaled w || bool_decide (By_signal ∈ interruptions run)).
Proof using C.
  intros (Hret0 & Hret1 & Hlast & Hne & Hfold) Hpc.
  destruct (set_filter_total pc (rule_to_listen_on_ips_and_ports (addresses args) (ports args)) w I)
    as ([] & w1 & E1 & _ & _ & (Hs1 & Hp1 & Hf1)%calm_later).
  destruct (get_datalink_total pc w1 I) as (d & w2 & E2 & -> & _ & (Hs2 & Hp2 & Hf2)%calm_later).
  pose proof (loop_run_result pc 1 catch_packet (catch_new DLT_LINUX_SLL) c w2) as Hloop.
  rewrite (coop_loop (trace w2) pc) in Hloop.
  destruct (Hloop Hfold) as (r & w3 & E3 & Hr & Hp3 & Hs3).
  pose proof (loop_fresh pc 1 (catch_new DLT_LINUX_SLL) w2) as Hf3. rewrite E3 in Hf3.
  assert (r = Val (reason_given i, c)) as ->.
  { unfold loop_result in Hr.
    rewrite (last_request_registered _ _ _ i) in Hr by (done || congruence).
    destruct (default 1 (loop_ret run)) as [|q|[q|q|]]; done. }
  exists w3. split; [|split; [congruence|split; [tauto|by rewrite Hs3, Hs2, Hs1]]].
  unfold listen. rewrite bind_run, E1, bind_run, E2, bind_run. rewrite E3. unfold broken_result.
  destruct (headers c).2; [done|]. by rewrite decide_False.
Qed.

(** The status for a broken capture *)
Definition status_of (ler : Loop_end_reason) : Emulate_host_status :=
  match ler with
  | duplicate_address => host_duplicate_address
  | signal => signal_received
  | _ => undefined_error
  end.

Lemma emulate_host_broken_run args i c w :
  interface args = iface → fresh w → broken_by i c →
  ∃ w', emulate_host args w = (Val (status_of (reason_given i)), w') ∧ extends (of_kind quiet) w w'
    ∧ signaled w' = (signaled w || bool_decide (By_signal ∈ interruptions run)).
Proof using C Hfuel Hread.
  intros Hi Hf Hb.
  destruct (setup_total args w I) as (locks & w1 & E1 & Hlocks & _ & (Hs1 & _ & Hf1)%calm_later).
  destruct (wait_and_listen_run args (broken_result (reason_given i) c)
    (λ s, s || bool_decide (By_signal ∈ interruptions run)) w1 Hi (Hf1 Hf)) as (w2 & E2 & Hs2).
  { intros pc w3 Hpc. by apply listen_broken. }
  destruct (guards_destroy_total locks Hlocks w2 I) as ([] & w3 & E3 & _ & _ & (Hs3 & _)).
  exists w3. split; [|split].
  - destruct Hb as (_ & _ & _ & Hne & _). unfold emulate_host. rewrite bind_run, E1, bind_run.
    unfold on_raise at 1. rewrite E2. unfold broken_result.
    destruct (headers c).2; destruct (reason_given i); try done; by rewrite bind_run, E3.
  - destruct (setup_quiet args) as [HR Hpost]. specialize (HR w). rewrite E1 in HR.
    pose proof (wait_quiet args w1) as HR2. rewrite E2 in HR2.
    pose proof (guards_destroy_steps _ spawn_quiet locks (Hpost _ _ _ E1) w2) as HR3. rewrite E3 in HR3.
    etrans; [exact HR|]. by etrans.
  - by rewrite Hs3, Hs2, Hs1.
Qed.

(** ** When a packet is captured *)
Context (header : pcap_pkthdr) (packet : list Z) (Hheader : len header = length packet).
Context (Hrun : run = {| happenings := [Packet (Some header) (Some packet)]; loop_ret := Some 0 |}).
Context (ll : Link_layer) (ipp : ip).
Context (Hheaders : get_headers DLT_LINUX_SLL packet = Ret (Some ll, Some ipp)).

Definition caught : Loop_end_reason * list Z * IP_address * IP_address :=
  (packets_captured, packet, m_source ipp, m_destination ipp).

Lemma loop_total pc :
  calmly (loop pc 1 (λ c h p, lift (catch_packet c h p)) (catch_new DLT_LINUX_SLL))
    (λ r, r = (packets_captured, {| link_layer_type := DLT_LINUX_SLL; headers := (Some ll, Some ipp);
                                    data := packet |})).
Proof using C Hheader Hheaders Hrun.
  unfold loop. answer (λ h, coop_loop h pc). rewrite Hrun. cbn [happenings loop_ret during default].
  set (c := {| link_layer_type := DLT_LINUX_SLL; headers := (Some ll, Some ipp); data := packet |}).
  eapply (total_bind _ calm) with (P := λ c', c' = c).
  - eapply (total_bind _ calm) with (P := λ c', c' = c); [|intros ? ->; by apply (total_ret _ calm)].
    apply total_noexcept. refine (total_lift _ calm _ c _ _ eq_refl). rewrite catch_packet_spec.
    rewrite decide_False by (clear -Hheader; lia). rewrite take_ge by (clear -Hheader; lia).
    cbn [link_layer_type catch_new]. by rewrite Hheaders.
  - intros ? ->. unfold loop_end. rewrite decide_True by done.
    eapply (total_bind _ calm) with (P := λ ler, ler = packets_captured); [|intros ? ->; by apply (total_ret _ calm)].
    eapply (total_bind _ calm); [apply calm_with_reason|]. intros _ _. by apply (total_ret _ calm).
Qed.

Lemma listen_total args pc : calmly (listen args pc) (λ r, r = caught).
Proof using C Hheader Hheaders Hrun.
  unfold listen. eapply (total_bind _ calm); [apply set_filter_total|]. intros _ _.
  eapply (total_bind _ calm); [apply get_datalink_total|]. intros ? ->.
  eapply (total_bind _ calm); [apply loop_total|]. intros ? ->. by apply (total_ret _ calm).
Qed.

(** ** Waking the host *)
Lemma steps_any cmd : steps (extends (λ _, True)) (spawn cmd).
Proof using.
  eapply steps_mono; [by apply (spawn_io_emits (λ _, true))|]. intros w w' He. by eapply extends_mono.
Qed.

Lemma with_socket_total d t p (body : Z → M unit) :
  (∀ s, calmly (body s) (λ _, True)) → calmly (with_socket d t p body) (λ _, True).
Proof using C.
  intros Hb. unfold with_socket, socket_new. eapply (total_bind _ calm) with (P := λ _, True).
  - eapply (total_bind _ calm); [apply calm_call; [done|intros h; apply (coop_socket h d t p)]|].
    intros s Hs. rewrite decide_False by (clear -Hs; lia). by apply (total_ret _ calm).
  - intros s _. apply (total_finally _ calm); [apply Hb|]. unfold socket_destroy. ask. by apply (total_ret _ calm).
Qed.

Lemma set_sock_opt_total s l o v : calmly (set_sock_opt s l o v) (λ _, True).
Proof using C. unfold set_sock_opt. answer (λ h, coop_setsockopt h s l o v). by apply (total_ret _ calm). Qed.
Lemma send_to_total s b f a : calmly (send_to s b f a) (λ _, True).
Proof using C.
  unfold send_to. eapply (total_bind _ calm) with (P := is_Some).
  - apply calm_call; [done|intros h; apply coop_sendto].
  - intros ? [n ->]. by apply (total_ret _ calm).
Qed.

Lemma wol_udp_total m : calmly (wol_udp m) (λ _, True).
Proof using C.
  apply with_socket_total. intros s. eapply (total_bind _ calm); [apply set_sock_opt_total|]. intros _ _.
  eapply (total_bind _ calm); [apply send_to_total|]. intros; by apply (total_ret _ calm).
Qed.

Lemma socket_ioctl_total s q ifr :
  calmly (socket_ioctl s q ifr) (λ ifr', length (ifr_hwaddr_sa_data ifr') = 14%nat).
Proof using C.
  unfold socket_ioctl. eapply (total_bind _ calm) with
    (P := λ r, ∃ ifr', r = Some ifr' ∧ length (ifr_hwaddr_sa_data ifr') = 14%nat).
  - apply calm_call; [done|]. intros h. destruct (coop_ioctl h s q ifr) as (ifr' & ? & ?). by exists ifr'.
  - intros ? (ifr' & -> & ?). by apply (total_ret _ calm).
Qed.

Lemma wol_ethernet_total i m :
  (String.length i ≤ IFNAMSIZ)%nat → calmly (wol_ethernet i m) (λ _, True).
Proof using C.
  intros Hl. destruct (get_ifreq_name i Hl) as (ifr & Hifr & _). apply with_socket_total. intros s.
  eapply (total_bind _ calm); [apply set_sock_opt_total|]. intros _ _. unfold get_ifindex, get_hwaddr.
  eapply (total_bind _ calm) with (P := λ _, True).
  { rewrite Hifr, lift_Ret_bind. eapply (total_bind _ calm); [apply socket_ioctl_total|]. intros; by apply (total_ret _ calm). }
  intros ifindex _. eapply (total_bind _ calm) with (P := λ _, True).
  { rewrite Hifr, lift_Ret_bind. eapply (total_bind _ calm); [apply socket_ioctl_total|]. intros r Hr.
    eapply (total_lift _ calm); [|done]. apply copy_n_Ret. clear -Hr. cbv beta in Hr. lia. }
  intros hw _. eapply (total_bind _ calm); [apply send_to_total|]. intros; by apply (total_ret _ calm).
Qed.

(** While no signal has arrived *)
Abbreviation undisturbed := (λ w, signaled w = false).
Lemma calmly_undisturbed {A} (m : M A) P : calmly m P → total undisturbed calm m P.
Proof using.
  intros Hm w Hw. destruct (Hm w I) as (a & w1 & ? & ? & _ & Hc). exists a, w1.
  split_and!; [done..| |done]. destruct Hc as (Hs & _). cbn in *. congruence.
Qed.

Lemma is_signaled_total : total undisturbed calm is_signaled (λ b, b = false).
Proof using C.
  intros w Hw. unfold is_signaled. rewrite bind_run. cbn [call]. rewrite coop_no_signal.
  eexists false, _. rewrite bind_run. cbn [mret M_ret]. rewrite bind_run. cbn [get].
  split; [unfold mret, M_ret; cbn; by rewrite Hw|]. split; [done|]. split; [done|by apply calm_event].
Qed.

Lemma ping_loop_zero n cmd : total undisturbed calm (ping_loop n cmd 0) (λ r, r = 0).
Proof using C.
  destruct n as [|n]; cbn [ping_loop]; [by apply (total_ret _ calm)|].
  eapply (total_bind _ calm); [apply is_signaled_total|]. intros ? ->.
  rewrite bool_decide_false by tauto. by apply (total_ret _ calm).
Qed.

Lemma ping_and_wait_total i dst tries :
  0 < tries → total undisturbed calm (ping_and_wait i dst tries) (λ b, b = true).
Proof using C Hfuel.
  intros Ht. unfold ping_and_wait. fold (ping_cmd i dst).
  eapply (total_bind _ calm) with (P := λ r, r = 0); [|intros ? ->; by apply (total_ret _ calm)].
  destruct (Z.to_nat tries) as [|n] eqn:E; [clear -Ht E; lia|]. cbn [ping_loop].
  eapply (total_bind _ calm); [apply is_signaled_total|]. intros ? ->. cbn [negb andb].
  rewrite bool_decide_true by done.
  eapply (total_bind _ calm); [apply calmly_undisturbed, spawn_total, split_string_not_nil|].
  - unfold ping_cmd, get_ping_cmd. by case_decide.
  - intros ? ->. apply ping_loop_zero.
Qed.

Context (Hlen : (ll_header_length ll ≤ length packet)%nat).

(** What is injected for the woken host *)
Definition replayed_frame (m : ether_addr) : list Z :=
  replay_frame m (ll_source ll) (version_code (m_version ipp)) (ll_header_length ll) packet.

Lemma replay_data_run i m w :
  ∃ w', replay_data i DLT_LINUX_SLL packet m w = (Val tt, w') ∧ calm w w' ∧ replayed (replayed_frame m) w w'.
Proof using C Hheaders Hlen.
  pose proof (replay_data_spec i DLT_LINUX_SLL packet m ll ipp w Hheaders Hlen) as Hspec.
  assert (∃ w', replay_data i DLT_LINUX_SLL packet m w = (Val tt, w') ∧ calm w w') as (w' & E & Hc).
  { destruct (pcap_open_run i w) as (w1 & E1 & H1 & _).
    unfold replay_data. rewrite Hheaders, lift_Ret_bind. cbn [fst snd].
    rewrite lift_Ret_bind, advance_Ret, lift_Ret_bind by done. cbv zeta. rewrite bind_run, E1.
    match goal with |- ∃ w', finally ?m ?c w1 = _ ∧ _ =>
      assert (calmly (finally m c) (λ _, True)) as Hf end.
    { apply (total_finally _ calm); [|apply pcap_destroy_total].
      eapply (total_bind _ calm); [apply inject_total|]. intros; by apply (total_ret _ calm). }
    destruct (Hf w1 I) as ([] & w2 & -> & _ & _ & H2). exists w2. split; [done|by etrans]. }
  rewrite E in Hspec. by exists w'.
Qed.

(** The frame was injected, whatever came after it. *)
Definition injected (frame : list Z) (w : world) : Prop :=
  ∃ pc r h1 h2, trace w = h1 ++ Event (Pcap_inject pc frame) r :: h2.

Lemma injected_extends frame w w' : injected frame w → extends (λ _, True) w w' → injected frame w'.
Proof using.
  intros (pc & r & h1 & h2 & Ht) (h & Ht' & _). exists pc, r, h1, (h2 ++ h).
  by rewrite Ht', Ht, <-(assoc_L (++)).
Qed.

Lemma wake_run args dst w :
  (String.length (interface args) ≤ IFNAMSIZ)%nat → 0 < ping_tries args → signaled w = false →
  ∃ w', wake args packet dst w = (Val success, w') ∧ injected (replayed_frame (mac args)) w'.
Proof using C Hfuel Hheaders Hlen.
  intros Hl Ht Hs. unfold wake.
  assert (calmly (if decide (wol_method args = wol_method_udp) then wol_udp (mac args)
                  else wol_ethernet (interface args) (mac args)) (λ _, True)) as Hw.
  { case_decide; [apply wol_udp_total|by apply wol_ethernet_total]. }
  destruct (Hw w I) as ([] & w1 & E1 & _ & _ & (Hs1 & _)).
  destruct (ping_and_wait_total (interface args) dst (ping_tries args) Ht w1) as (b & w2 & E2 & -> & _);
    [cbn; congruence|].
  destruct (replay_data_run (interface args) (mac args) w2) as (w3 & E3 & _ & (pc & r & h1 & h2 & Ht3 & _)).
  exists w3. rewrite bind_run, E1, bind_run, E2, bind_run, E3. split; [done|].
  exists pc, r, (trace w2 ++ h1), h2. by rewrite Ht3, <-(assoc_L (++)).
Qed.

Lemma emulate_host_run args w :
  interface args = iface → (String.length iface ≤ IFNAMSIZ)%nat → 0 < ping_tries args →
  fresh w → signaled w = false →
  ∃ w', emulate_host args w = (Val success, w') ∧ injected (replayed_frame (mac args)) w'.
Proof using C Hfuel Hheader Hheaders Hlen Hread Hrun.
  intros Hi Hl Ht Hf Hs.
  destruct (setup_total args w I) as (locks & w1 & E1 & Hlocks & _ & (Hs1 & _ & Hf1)%calm_later).
  destruct (wait_and_listen_run args caught id w1 Hi (Hf1 Hf)) as (w2 & E2 & Hs2).
  { intros pc w2 _. destruct (listen_total args pc w2 I) as (r & w3 & E & -> & _ & (?&?&?)%calm_later).
    by exists w3. }
  destruct (Block_icmp_names (m_source ipp)) as [bk Hbk].
  destruct (command_guard_total (Block_icmp (m_source ipp)) (names_commands _ _ Hbk) w2 I)
    as (g & w3 & E3 & Hg & _ & (Hs3 & _)).
  destruct (guards_destroy_total locks Hlocks w3 I) as ([] & w4 & E4 & _ & _ & (Hs4 & _)).
  destruct (wake_run args (m_destination ipp) w4) as (w5 & E5 & Hinj); [by rewrite Hi|done|unfold id in *; congruence|].
  destruct (Hg w5 I) as ([] & w6 & E6 & _ & _ & _).
  exists w6. split.
  - unfold emulate_host. rewrite bind_run, E1, bind_run. unfold on_raise at 1. rewrite E2. unfold caught.
    rewrite bind_run. unfold on_raise. rewrite E3. unfold finally.
    rewrite bind_run, E4, E5. rewrite bind_run, E6. done.
  - eapply injected_extends; [exact Hinj|].
    assert (functor_steps (extends (λ _, True)) (aquire_release g)) as Hgs.
    { pose proof (guard_new_steps (extends (λ _, True)) ltac:(intros; apply steps_any) _
        (command_steps _ (Block_icmp (m_source ipp)))) as [_ Hp]. by eapply Hp. }
    pose proof (guard_destroy_steps (extends (λ _, True)) ltac:(intros; apply steps_any) g Hgs w5) as He.
    by rewrite E6 in He.
Qed.
End operations.

(** ** Properties *)

(** C4: when the commands succeed, libpcap and the sockets work and no signal
    arrives, [emulate_host] runs to its end for every configuration and every
    well-formed IPv4 or IPv6 packet which the capture delivers: it returns
    [success], has injected the packet for the woken host, and addresses, rules
    and registrations are as before.  It is enough that a loop may ask once more
    than the output of [ip a show] has chunks of 100 bytes. *)
Theorem emulate_host_completes `{System} `{Fuel} `{Net_text} `{Host} l n payload header args out inp remaining lines w :
  let packet := encode_frame l None n ++ payload in
  let run := {| happenings := [Packet (Some header) (Some packet)]; loop_ret := Some 0 |} in
  Cooperative (interface args) run out inp remaining lines → len header = length packet →
  link_dlt l = DLT_LINUX_SLL → link_wf l → network_wf n → bytes_wf payload →
  (length (lines ≫= λ l, string_bytes l ++ [newline]) + buffer_size ≤ fuel * buffer_size)%nat →
  (String.length (interface args) ≤ IFNAMSIZ)%nat → 0 < ping_tries args →
  fresh w → signaled w = false →
  ∃ w', emulate_host args w = (Val success, w')
    ∧ injected (encode_frame (Ether_link (mac args) (link_src l)) None n ++ payload) w'
    ∧ ∀ k, balance w' k = balance w k.
Proof.
  intros packet run C Hheader Hdlt Hl Hn Hp Hread Hi Ht Hf Hs.
  destruct (get_headers_encode l None n payload Hl I Hn Hp) as [info Hg]. rewrite Hdlt in Hg. fold packet in Hg.
  destruct (encode_link_wf l (network_type n) Hl (network_type_range n)) as [_ Hlen].
  assert (0 < fuel)%nat as Hfuel by (destruct fuel; unfold buffer_size in *; lia).
  destruct (emulate_host_run Hfuel Hread header packet Hheader eq_refl _ _ Hg)
    with (args := args) (w := w) as (w' & E & Hinj); try done.
  { cbn [ll_header_length]. unfold packet, encode_frame. rewrite !length_app. lia. }
  exists w'. split; [exact E|]. split.
  - assert (replayed_frame packet {| ll_header_length := link_size l; ll_source := link_src l;
      ll_payload_protocol := network_type n; ll_info := info |} (network_header n) (mac args)
      = encode_frame (Ether_link (mac args) (link_src l)) None n ++ payload) as <-; [|exact Hinj].
    unfold replayed_frame, replay_frame, packet, encode_frame. cbn [ll_source ll_header_length].
    rewrite <-!(assoc_L (++)), <-Hlen, drop_app_length.
    assert (version_code (m_version (network_header n)) = network_type n) as -> by by destruct n.
    by rewrite create_ethernet_header_spec by apply network_type_range.
  - pose proof (emulate_host_spec args w) as Hspec. unfold wp in Hspec. rewrite E in Hspec. apply Hspec.
Qed.

(** C5: when the capture is broken instead, [emulate_host] returns the status which
    belongs to the last one who broke it -- a watcher, another thread or a signal
    -- whatever else happened during the capture; it has sent nothing, everything
    is as before, and [signaled] tells whether a signal arrived. *)
Theorem emulate_host_broken `{System} `{Fuel} `{Net_text} `{Host} args i c run out inp remaining lines w :
  Cooperative (interface args) run out inp remaining lines → broken_by (run := run) i c →
  (length (lines ≫= λ l, string_bytes l ++ [newline]) + buffer_size ≤ fuel * buffer_size)%nat →
  fresh w →
  ∃ w', emulate_host args w = (Val (status_of (reason_given i)), w') ∧ extends (of_kind quiet) w w'
    ∧ (∀ k, balance w' k = balance w k)
    ∧ signaled w' = (signaled w || bool_decide (By_signal ∈ interruptions run)).
Proof.
  intros C Hb Hread Hf.
  assert (0 < fuel)%nat as Hfuel by (destruct fuel; unfold buffer_size in *; lia).
  destruct (emulate_host_broken_run Hfuel Hread args i c w eq_refl Hf Hb) as (w' & E & Hq & Hs).
  exists w'. split_and!; [exact E|exact Hq| |exact Hs].
  pose proof (emulate_host_spec args w) as Hspec. unfold wp in Hspec. rewrite E in Hspec. apply Hspec.
Qed.

(** ** Witnesses *)

(** What [ip a show] has written and nobody has read yet *)
Definition mac_lines : list string :=
  ["2: eth0: <UP>"; "    link/ether aa:bb:cc:dd:ee:ff brd ff:ff:ff:ff:ff:ff"].
Definition unread_step (iface : string) (st : list Z) (e : event) : list Z :=
  let '(Event c _) := e in
  match c with
  | Posix_spawnp argv _ _ =>
      if decide (argv = c_cut <$> ["ip"; "a"; "show"; "dev"; iface])
      then mac_lines ≫= λ l, string_bytes l ++ [newline] else st
  | Read _ n => drop n st
  | _ => st
  end.
Definition unread (iface : string) (h : history) : list Z := foldl (unread_step iface) [] h.

Definition cooperative_system (iface : string) (run : loop_run) : System :=
  {| reply := λ A h c,
       match c in syscall A return A with
       | Poll_in _ => if bool_decide (unread iface h = []) then 0 else 1
       | Read _ n => Some (take n (unread iface h))
       | Pcap_loop _ _ => run
       | Ioctl _ _ ifr => Some {| ifr_name := ifr_name ifr; ifr_ifindex := 3; ifr_hwaddr_sa_data := replicate 14 7 |}
       | c => default_reply c
       end;
     strerror_errno := λ _, "error" |}.

Lemma cooperative_system_ok iface run :
  @Cooperative (cooperative_system iface run) iface run 10 11 (unread iface) mac_lines.
Proof.
  split; try done.
  - by intros h [].
  - split; try done; intros; unfold unread; by rewrite foldl_app.
  - intros h i o p s. unfold unread. rewrite foldl_app. cbn [foldl unread_step]. by rewrite decide_True.
  - by_decide.
  - by eexists.
  - intros h fd q ifr. by eexists.
Qed.

Lemma emulate_host_completes_witness :
  let packet := encode_frame sll_link None ipv4_localhost ++ [1; 2; 3] in
  let header := {| ts_sec := 0; ts_usec := 0; caplen := length packet; len := length packet |} in
  let run := {| happenings := [Packet (Some header) (Some packet)]; loop_ret := Some 0 |} in
  @Cooperative (cooperative_system "eth0" run) "eth0" run 10 11 (unread "eth0") mac_lines
  ∧ ∃ w', @emulate_host (cooperative_system "eth0" run) 3%nat ref_net Little sleep_args world_init = (Val success, w')
    ∧ injected (encode_frame (Ether_link (mac sleep_args) (link_src sll_link)) None ipv4_localhost ++ [1; 2; 3]) w'
    ∧ ∀ k, balance w' k = balance world_init k.
Proof.
  intros packet header run. pose proof (cooperative_system_ok "eth0" run) as C. split; [exact C|].
  destruct sll_localhost_wf as [Hl Hn].
  apply (@emulate_host_completes (cooperative_system "eth0" run) 3%nat ref_net Little sll_link ipv4_localhost
    [1; 2; 3] header sleep_args 10 11 (unread "eth0") mac_lines world_init C); try done; by_decide.
Defined.

(** A watcher finds the address occupied, and a signal arrives after it. *)
Lemma emulate_host_broken_witness :
  let run := {| happenings := [Interruption (By_thread duplicate_address); Interruption By_signal];
                loop_ret := Some PCAP_ERROR_BREAK |} in
  @broken_by run ref_net Little By_signal (catch_new DLT_LINUX_SLL)
  ∧ ∃ w', @emulate_host (cooperative_system "eth0" run) 3%nat ref_net Little sleep_args world_init
          = (Val signal_received, w') ∧ extends (of_kind quiet) world_init w'
    ∧ (∀ k, balance w' k = balance world_init k) ∧ signaled w' = true.
Proof.
  intros run.
  assert (@broken_by run ref_net Little By_signal (catch_new DLT_LINUX_SLL)) as Hb by by split_and!.
  split; [exact Hb|].
  apply (@emulate_host_broken (cooperative_system "eth0" run) 3%nat ref_net Little sleep_args By_signal
    (catch_new DLT_LINUX_SLL) run 10 11 (unread "eth0") mac_lines world_init
    (cooperative_system_ok "eth0" run) Hb); [by_decide|done].
Defined.
