(* ===== verification/Programs.v ===== *)
(** * The programs: [watchHost.cpp], [emulateHost.cpp], [waker.cpp], [sniffer.cpp]

    [watchHost] runs one thread per configured host: it pings the host and takes
    its place whenever it does not answer.  [emulateHost] takes the place of one
    host once, [waker] sends a magic packet, [sniffer] prints packets.  Shown:
    what a thread of [watchHost] leaves behind, that it ends when a signal has
    arrived, and that [waker] has no undefined behaviour. *)
From S2P Require Import Prelude ContainerUtils IntUtils NetText NetTextRef System IpAddress Ethernet Ip PacketParser Pcap FileDescriptor SpawnProcess ScopeGuard Socket Wol WolWatcher DuplicateAddressWatcher Args SleepProxy.
Local Open Scope Z_scope.

Section programs.
Context `{System} `{Fuel} `{Net_text} `{Libc} `{Host}.

(** ** [watchHost] *)

(** [std::any_of] over the futures: [get] returns the value or throws. *)
Fixpoint any_of (results : list (outcome bool)) : outcome bool :=
  match results with
  | [] => Ret false
  | r :: results => b ← r; if (b : bool) then Ret true else any_of results
  end.

(** Every address is pinged in a thread of its own; all of them are joined before
    [ping_ips] is left.  The pings are put one after the other here. *)
Definition ping_ips (iface : string) (ips : list IP_address) : M bool :=
  results ← mapM (λ ip, attempt (ping_and_wait iface ip 1)) ips;
  lift (any_of results).

Definition sleep_time : Z := 500.

(** [while (ping_ips(...) && !is_signaled())] *)
Fixpoint watch_awake (fuel : nat) (args : Args) : M unit :=
  match fuel with
  | O => end_process Out_of_fuel
  | S fuel =>
      awake ← ping_ips (interface args) (addresses args);
      again ← (if (awake : bool) then signaled ← is_signaled; mret (negb signaled) else mret false);
      if (again : bool) then _ ← call (Sleep_ms sleep_time); watch_awake fuel args else mret tt
  end.

(** [while (!is_signaled() && loop)] *)
Fixpoint watch_loop (n : nat) (args : Args) (loop : bool) : M unit :=
  match n with
  | O => end_process Out_of_fuel
  | S n =>
      signaled ← is_signaled;
      if negb signaled && loop then
        _ ← watch_awake fuel args;
        signaled ← is_signaled;
        if (signaled : bool) then mret tt else
        loop ← catch
          (status ← emulate_host args;
           mret (bool_decide (host_duplicate_address = status ∨ success = status)))
          (λ _, _ ← raise_signal SIGTERM; mret loop);
        watch_loop n args loop
      else mret tt
  end.

Definition thread_main (args : Args) : M unit := watch_loop fuel args true.

(** The function a thread runs: an exception which leaves it ends the process. *)
Definition watch_thread (args : Args) : M unit := noexcept (thread_main args).

(** Starting a [std::thread]; the object is named by its number. *)
Definition thread_new : M nat :=
  w ← get;
  let id := objects w in
  _ ← modify with_object;
  _ ← thread_assign id;
  mret id.

Definition watchHost_main (opts : list option_found) : M Z :=
  catch
    (_ ← setup_signals;
     argss ← read_commandline opts;
     if decide (argss = []) then mret 1 else
     threads ← mapM (λ _, thread_new) argss;
     _ ← mapM_ thread_join_if_joinable threads;
     mret 0)
    (λ _, mret 0).

(** ** [emulateHost] *)
Definition emulateHost_main (opts : list option_found) : M Z :=
  noexcept
    (argss ← read_commandline opts;
     if decide (argss = []) then mret 1 else
     args ← lift (vec_at argss 0);
     _ ← setup_signals;
     _ ← catch (_ ← emulate_host args; mret tt) (λ _, mret tt);
     mret 0).

(** ** [waker] *)

(** [argv[i]]; the pointer behind the last argument is null. *)
Definition argument (argv : list string) (i : nat) : M string :=
  lift (match argv !! i with Some s => Ret s | None => Undef null_dereference end).

Definition check_arguments (argc count : nat) : M unit :=
  if decide (argc < count)%nat then end_process (Exit 1) else mret tt.

Definition max_ethernet_name_size : nat := 13.

Definition waker_main (argv : list string) : M Z :=
  noexcept
    (let argc := length argv in
     let count := 2%nat in
     let mac_pos := 1%nat in
     _ ← check_arguments argc count;
     first ← argument argv 1;
     let '(count, mac_pos) :=
       if decide ("-i" = first) then (count + 2, mac_pos + 2)%nat else (count, mac_pos) in
     _ ← check_arguments argc count;
     arg ← argument argv mac_pos;
     mac ← lift (mac_to_binary arg);
     first ← argument argv 1;
     if decide ("-i" ≠ first) then _ ← wol_udp mac; mret 0
     else
       arg ← argument argv 2;
       iface ← lift (validate_iface arg);
       if decide (max_ethernet_name_size < String.length iface)%nat then mret 1
       else _ ← wol_ethernet iface mac; mret 0).

(** ** [sniffer] *)
Definition print_timeval (sec usec : Z) : string :=
  to_string (IntType 64 true) sec +:+ "." +:+ to_string (IntType 64 true) usec +:+ " s".
Definition print_pkthdr (hdr : pcap_pkthdr) : string :=
  "[" +:+ print_timeval (ts_sec hdr) (ts_usec hdr) +:+ "]: length:"
  +:+ to_string unsigned_int (Z.of_nat (len hdr)) +:+ ", supposed length: "
  +:+ to_string unsigned_int (Z.of_nat (caplen hdr)).

(** The functor which prints what it gets: the lines it logs *)
Definition Got_packet (link_layer_type : Z) (logged : list string)
    (header : option pcap_pkthdr) (packet : option (list Z)) : outcome (list string) :=
  match header, packet with
  | Some header, Some packet =>
      let logged := logged ++ [print_pkthdr header] in
      data ← copy_n (len header) packet;
      headers ← get_headers link_layer_type data;
      Ret (logged ++ [print_headers headers])
  | _, _ => Ret (logged ++ ["header or packet are nullptr"])
  end.

Definition sniffer_main (argv : list string) : M (Z * list string) :=
  if decide (length argv ≠ 3%nat) then mret (1, ["usage: iface bpf_filter"]) else
  noexcept
    (iface ← argument argv 1;
     pcap ← pcap_open iface;
     finally
       (filter ← argument argv 2;
        _ ← set_filter pcap filter;
        datalink ← get_datalink pcap;
        r ← loop pcap 0 (λ logged header packet, lift (Got_packet datalink logged header packet)) [];
        mret (0, (r : Loop_end_reason * list string).2))
       (pcap_destroy pcap)).
End programs.

(** ** What a thread of [watchHost] leaves behind *)
Section watching.
Context `{System} `{Fuel} `{Net_text} `{Host}.

Lemma keeps_attempt {A} (m : M A) : keeps_balance m → keeps_balance (attempt m).
Proof. intros Hm w. wp_step. apply Hm. Qed.

Lemma keeps_mapM {A B} (f : A → M B) l : (∀ x, keeps_balance (f x)) → keeps_balance (mapM f l).
Proof.
  intros Hf. induction l as [|x l IH]; cbn [mapM]; [by intros w; wp_step|].
  apply keeps_bind; [done|]. intros y. apply keeps_bind; [done|]. intros ys w. by wp_step.
Qed.

Lemma is_signaled_keeps : keeps_balance is_signaled.
Proof. apply keeps_balance_same, is_signaled_accounts. Qed.

Lemma raise_signal_keeps sig : keeps_balance (raise_signal sig).
Proof. apply keeps_balance_emits; [by apply raise_signal_emits|apply raise_signal_registry]. Qed.

Lemma ping_ips_keeps iface ips : keeps_balance (ping_ips iface ips).
Proof.
  apply keeps_bind; [|intros; keeps_io]. apply keeps_mapM. intros ip. apply keeps_attempt.
  apply keeps_bind; [apply ping_loop_keeps|intros; keeps_io].
Qed.

Lemma emulate_host_keeps args : keeps_balance (emulate_host args).
Proof. intros w. eapply wp_mono; [apply emulate_host_spec|..]; by intros ? ? []. Qed.

Lemma watch_awake_keeps n args : keeps_balance (watch_awake n args).
Proof.
  induction n as [|n IH]; cbn [watch_awake]; [keeps_io|].
  apply keeps_bind; [apply ping_ips_keeps|]. intros awake. apply keeps_bind.
  - destruct awake; [|keeps_io]. apply keeps_bind; [apply is_signaled_keeps|intros; keeps_io].
  - intros [|]; [|keeps_io]. apply keeps_bind; [keeps_io|by intros].
Qed.

Lemma watch_loop_keeps n args b : keeps_balance (watch_loop n args b).
Proof.
  revert b. induction n as [|n IH]; intros b; cbn [watch_loop]; [keeps_io|].
  apply keeps_bind; [apply is_signaled_keeps|]. intros sg. destruct (_ && _); [|keeps_io].
  apply keeps_bind; [apply watch_awake_keeps|]. intros _.
  apply keeps_bind; [apply is_signaled_keeps|]. intros [|]; [keeps_io|].
  apply keeps_bind; [|intros; apply IH]. apply keeps_catch.
  - apply keeps_bind; [apply emulate_host_keeps|intros; keeps_io].
  - intros e. apply keeps_bind; [apply raise_signal_keeps|intros; keeps_io].
Qed.

Lemma is_signaled_when_set w : signaled w = true → ∃ w', is_signaled w = (Val true, w') ∧ signaled w' = true.
Proof.
  intros Hs. unfold is_signaled. rewrite bind_run. cbn [call].
  destruct (reply _ Signal_arrived).
  - destruct (signal_handler_run (add_event (Event Signal_arrived true) w)) as (w' & Hw' & Hs' & _).
    exists w'. rewrite bind_run, Hw'. unfold mbind, M_bind, get. by rewrite Hs'.
  - eexists. unfold mbind, M_bind, get, mret, M_ret. cbn. by rewrite Hs.
Qed.

Lemma watch_loop_signaled n args b w :
  signaled w = true → (0 < n)%nat → ∃ w', watch_loop n args b w = (Val tt, w') ∧ signaled w' = true.
Proof.
  intros Hs Hn. destruct n as [|n]; [lia|]. cbn [watch_loop]. rewrite bind_run.
  destruct (is_signaled_when_set w Hs) as (w' & -> & ?). by exists w'.
Qed.
End watching.

(** ** [waker] *)
Definition no_crash (how : ending) : Prop := match how with Crash _ => False | _ => True end.

(** [sa_data] is an array of fourteen bytes, whatever [ioctl] stores there. *)
Definition ioctl_arrays `{System} : Prop := ∀ h fd request ifr ifr',
  reply h (Ioctl fd request ifr) = Some ifr' → length (ifr_hwaddr_sa_data ifr') = 14%nat.

Section waking.
Context `{System} `{Net_text} `{Host} (Harrays : ioctl_arrays).

Lemma with_socket_ends {A} P d t p (body : Z → M A) :
  (∀ s, ends P (body s)) → ends P (with_socket d t p body).
Proof using. intros Hb. unfold with_socket, socket_new, socket_destroy. ends_tac. apply Hb. Qed.

Lemma wol_udp_ends P mac : ends P (wol_udp mac).
Proof using. apply with_socket_ends. intros s. unfold set_sock_opt, send_to. ends_tac. Qed.

(** The hardware address can be copied out of an answer of [ioctl]. *)
Lemma get_hwaddr_ends iface s :
  (String.length iface ≤ IFNAMSIZ)%nat → ends no_crash (get_hwaddr s iface).
Proof using Harrays.
  intros Hl w how w'. unfold get_hwaddr, get_ifreq. rewrite decide_False, lift_Ret_bind by lia.
  unfold socket_ioctl. rewrite !bind_run. cbn [call].
  destruct (reply _ _) as [ifr|] eqn:Hr; cbn; [|done]. apply Harrays in Hr.
  unfold copy_n. by rewrite decide_True by lia.
Qed.

Lemma wol_ethernet_ends iface mac :
  (String.length iface ≤ IFNAMSIZ)%nat → ends no_crash (wol_ethernet iface mac).
Proof using Harrays.
  intros Hl. apply with_socket_ends. intros s. unfold set_sock_opt, send_to, get_ifindex, socket_ioctl.
  repeat match goal with
  | |- ends _ (get_hwaddr _ _) => by apply get_hwaddr_ends
  | Hu : get_ifreq _ = Undef _ |- _ => exfalso; unfold get_ifreq in Hu; rewrite decide_False in Hu by lia; done
  | _ => ends_step
  end.
Qed.
End waking.

(** ** Properties *)

(** A thread of [watchHost] never leaves anything behind: however often it has
    taken the place of its host, and whether it ends by itself or with an
    exception, all addresses, rules and registrations are as before. *)
Lemma watching_restores `{System} `{Fuel} `{Net_text} `{Host} args w :
  match thread_main args w with
  | (Val _, w') | (Raised _, w') => ∀ k, balance w' k = balance w k
  | (Ended _, _) => True
  end.
Proof.
  pose proof (watch_loop_keeps fuel args true w) as Hw. unfold wp in Hw. fold (thread_main args) in Hw.
  by destruct (thread_main args w) as [[a|e|u] w'].
Qed.

(** C22: the rounds of a thread of [watchHost].  Once its host has stopped to answer
    and no signal has arrived, the thread takes its place.  After success or when
    another machine has the address it goes on watching; every other status ends
    it; an exception ends it too, with the flag set which ends the other threads,
    unless SIGTERM is not handled and ends the process. *)
Theorem watch_round `{System} `{Fuel} `{Net_text} `{Host} n args w w1 w2 w3 :
  (0 < n)%nat → is_signaled w = (Val false, w1) → watch_awake fuel args w1 = (Val tt, w2) →
  is_signaled w2 = (Val false, w3) →
  match emulate_host args w3 with
  | (Val success, w4) | (Val host_duplicate_address, w4) =>
      watch_loop (S n) args true w = watch_loop n args true w4
  | (Val _, _) => ∃ w', watch_loop (S n) args true w = (Val tt, w')
  | (Raised _, w4) =>
      if decide (SIGTERM ∈ handled w4)
      then ∃ w', watch_loop (S n) args true w = (Val tt, w') ∧ signaled w' = true
      else watch_loop (S n) args true w = (Ended (Killed SIGTERM), w4)
  | (Ended how, w4) => watch_loop (S n) args true w = (Ended how, w4)
  end.
Proof.
  intros Hn Hs1 Ha Hs2. cbn [watch_loop]. rewrite bind_run, Hs1. cbn [negb andb].
  rewrite bind_run, Ha, bind_run, Hs2. rewrite bind_run. unfold catch. rewrite bind_run.
  assert (∀ w4, ∃ w', watch_loop n args false w4 = (Val tt, w')) as Hstop.
  { intros w4. destruct n as [|n]; [lia|]. cbn [watch_loop]. rewrite bind_run.
    assert (∃ b w', is_signaled w4 = (Val b, w')) as (b & w' & ->).
    { unfold is_signaled. rewrite bind_run. cbn [call]. destruct (reply _ Signal_arrived); [|by eexists _, _].
      destruct (signal_handler_run (add_event (Event Signal_arrived true) w4)) as (w' & Hw' & _).
      rewrite bind_run, Hw'. by eexists _, _. }
    rewrite andb_false_r. by exists w'. }
  destruct (emulate_host args w3) as [[[]|e|u] w4]; try done; try apply Hstop.
  unfold raise_signal. rewrite !bind_run. cbn [get]. case_decide; [|done].
  destruct (signal_handler_run w4) as (w5 & Hw5 & Hsig & _). rewrite Hw5. by apply watch_loop_signaled.
Qed.

(** [waker] has no undefined behaviour for any command line: its limit of
    thirteen characters keeps the interface name inside [ifr_name] (the limit
    which configuration files do not have). *)
Theorem waker_no_crash `{System} `{Net_text} `{Host} argv u w w' :
  ioctl_arrays → waker_main argv w ≠ (Ended (Crash u), w').
Proof.
  intros Harr E. assert (ends no_crash (waker_main argv)) as He; [|by apply He in E]. clear E.
  unfold waker_main. apply ends_noexcept; [done|].
  destruct argv as [|a0 [|a1 rest]]; [by intros w0 how w1 [= <- <-]..|].
  unfold check_arguments, argument. cbn [length lookup list_lookup].
  rewrite decide_False, ret_bind, lift_Ret_bind by lia.
  assert (∀ a, ends no_crash (lift (mac_to_binary a))) as Hmac.
  { intros a. apply ends_lift. intros u0. unfold mac_to_binary. by case_match. }
  destruct (decide ("-i" = a1)) as [<-|Ha1].
  - destruct rest as [|a2 [|a3 rest]]; cbn [length Nat.add lookup list_lookup];
      [by intros w0 how w1 [= <- <-]..|].
    rewrite decide_False, ret_bind, lift_Ret_bind by lia. apply ends_bind; [apply Hmac|intros mac].
    rewrite !lift_Ret_bind, decide_False by tauto.
    apply ends_bind; [|intros iface; case_decide as Hl; [apply ends_ret|]].
    + apply ends_lift. intros u0. unfold validate_iface. intros Hv.
      apply bind_Undef in Hv as [Hv|(? & _ & Hv)]; [|done]. by apply test_characters_defined in Hv.
    + apply ends_bind; [|intros; apply ends_ret]. apply wol_ethernet_ends; [done|].
      unfold max_ethernet_name_size, IFNAMSIZ in *. lia.
  - cbn [length lookup list_lookup]. rewrite decide_False, ret_bind, lift_Ret_bind by lia.
    apply ends_bind; [apply Hmac|intros mac]. rewrite lift_Ret_bind, decide_True by done.
    apply ends_bind; [apply wol_udp_ends|intros; apply ends_ret].
Qed.

(** ** Witnesses *)

(** The environment of [sleep_system], but 10.0.0.1 does not answer. *)
Definition asleep_system (ping_status : Z) : System :=
  {| reply := λ A h c,
       match c in syscall A return A with
       | Waitpid pid =>
           match command_states h with
           | (Some (_, ["ping"; "-c"; "1"; "10.0.0.1"]), _) => Some ping_status
           | _ => Some 0
           end
       | c => @reply sleep_system _ h c
       end;
     strerror_errno := λ _, "error" |}.

Lemma watch_round_witness :
  let sys := asleep_system 256 in
  let w1 := (@is_signaled sys world_init).2 in
  let w2 := (@watch_awake sys 3%nat ref_net 3 sleep_args w1).2 in
  let w3 := (@is_signaled sys w2).2 in
  @is_signaled sys world_init = (Val false, w1)
  ∧ @watch_awake sys 3%nat ref_net 3 sleep_args w1 = (Val tt, w2)
  ∧ @is_signaled sys w2 = (Val false, w3)
  ∧ ∃ w4, @emulate_host sys 3%nat ref_net Little sleep_args w3 = (Val success, w4)
    ∧ @watch_loop sys 3%nat ref_net Little 2 sleep_args true world_init
      = @watch_loop sys 3%nat ref_net Little 1 sleep_args true w4.
Proof.
  intros sys w1 w2 w3.
  assert (@is_signaled sys world_init = (Val false, w1)) as E1 by by vm_compute.
  assert (@watch_awake sys 3%nat ref_net 3 sleep_args w1 = (Val tt, w2)) as E2 by by vm_compute.
  assert (@is_signaled sys w2 = (Val false, w3)) as E3 by by vm_compute.
  split; [exact E1|]. split; [exact E2|]. split; [exact E3|].
  pose proof (@watch_round sys 3%nat ref_net Little 1 sleep_args world_init w1 w2 w3
    ltac:(lia) E1 E2 E3) as Hw.
  assert ((@emulate_host sys 3%nat ref_net Little sleep_args w3).1 = Val success) as E4 by by vm_compute.
  clearbody w3. revert Hw E4. destruct (emulate_host _ _) as [r w4]. cbn [fst]. intros Hw E4.
  rewrite E4 in Hw |- *. exists w4. split; [reflexivity|exact Hw].
Defined.

(** When [ping] cannot be started (status 127) its exception is not caught by the
    thread, and the process ends. *)
Example watch_thread_terminates :
  (@watch_thread (asleep_system 0x7f00) 3%nat ref_net Little sleep_args world_init).1 = Ended Terminate.
Proof. by vm_compute. Qed.

(** A packet which is too short for its link layer header ends [sniffer]. *)
Definition short_system : System :=
  {| reply := λ A h c,
       match c in syscall A return A with
       | Pcap_loop _ _ =>
           {| happenings := [Packet (Some {| ts_sec := 0; ts_usec := 0; caplen := 1; len := 1 |}) (Some [0])];
              loop_ret := Some 0 |}
       | c => default_reply c
       end;
     strerror_errno := λ _, "error" |}.
Example sniffer_terminates :
  (@sniffer_main short_system ref_net Little ["sniffer"; "any"; "tcp"] world_init).1 = Ended Terminate.
Proof. by vm_compute. Qed.

Lemma waker_no_crash_witness :
  @ioctl_arrays wol_system ∧
  let '(r, w') := @waker_main wol_system ref_net Little
    ["waker"; "-i"; "enp0s31f6.100"; "1:2:3:4:5:6"] world_init in
  r = Val 0 ∧ (length (trace w') = 6)%nat ∧ ∀ u, (r, w') ≠ (Ended (Crash u), w').
Proof.
  assert (@ioctl_arrays wol_system) as Harr by by intros h fd request ifr ifr' [= <-].
  split; [done|].
  pose proof (λ u w', @waker_no_crash wol_system ref_net Little
    ["waker"; "-i"; "enp0s31f6.100"; "1:2:3:4:5:6"] u world_init w' Harr) as Hw.
  destruct (waker_main _ _) as [r w'] eqn:E. vm_compute in E. injection E as <- <-.
  split; [done|]. split; [done|]. intros u. apply Hw.
Defined.
