(* ===== verification/EarlySignal.v ===== *)
(** * Signals which arrive before the capture is registered

    The handler for SIGTERM and SIGINT sets [signaled] and breaks the captures
    which are registered in [pcaps].  [emulate_host] looks at the flag only while
    it pings: a signal which arrives after [thread_main] has looked at it, and
    before [wait_and_listen] has registered its capture, breaks nothing.  Shown:
    two runs which differ in the flag alone are the same until the host is woken,
    so such a signal is lost until somebody connects; and then the host is woken
    but not waited for. *)
From S2P Require Import Prelude ContainerUtils IntUtils NetText NetTextRef System IpAddress Ethernet Ip PacketParser Pcap FileDescriptor SpawnProcess ScopeGuard Socket Wol WolWatcher DuplicateAddressWatcher Args SleepProxy Progress Programs.
Local Open Scope Z_scope.

(** ** Worlds which are equal up to the flag

    [raised w w']: the flag is set in [w'], which is otherwise [w]. *)
Definition raised (w w' : world) : Prop := w' = with_signaled true w.

(** The same end, and the flag is still all that differs *)
Definition same_run {A} : relation (res A * world) := prod_relation (=) raised.

(** A computation which does not look at the flag, and never clears it *)
Abbreviation blind m := (Proper (raised ==> same_run) m).

Lemma blind_run {A} (m : M A) w w' : blind m → raised w w' → same_run (m w) (m w').
Proof. intros Hm Hw. by apply Hm. Qed.

Section blind.
Context `{System}.

Lemma blind_pure {A} (f : world → res A) :
  (∀ w, f (with_signaled true w) = f w) → blind (λ w, (f w, w) : res A * world).
Proof. intros Hf w ? ->. split; cbn; [by rewrite Hf|done]. Qed.
Lemma blind_ret {A} (a : A) : blind (mret a : M A).
Proof. by apply (blind_pure (λ _, Val a)). Qed.
Lemma blind_raise {A} k msg : blind (raise_exn (A:=A) k msg).
Proof. by apply (blind_pure (λ _, Raised _)). Qed.
Lemma blind_raise_errno {A} msg : blind (raise_errno (A:=A) msg).
Proof. by apply (blind_pure (λ w, Raised (Exn runtime_error (msg +:+ strerror_errno (trace w))))). Qed.
Lemma blind_raise_system_error {A} msg : blind (raise_system_error (A:=A) msg).
Proof. by apply (blind_pure (λ w, Raised (Exn system_error (msg +:+ ": " +:+ strerror_errno (trace w))))). Qed.
Lemma blind_rethrow {A} e : blind (rethrow (A:=A) e).
Proof. by apply (blind_pure (λ _, Raised e)). Qed.
Lemma blind_end {A} how : blind (end_process (A:=A) how).
Proof. by apply (blind_pure (λ _, Ended how)). Qed.
Lemma blind_lift {A} (o : outcome A) : blind (lift o).
Proof. by destruct o; [apply blind_ret|apply blind_rethrow|apply blind_end]. Qed.
Lemma blind_call {A} (c : syscall A) : blind (call c).
Proof. by intros w ? ->. Qed.
Lemma blind_modify f : (∀ w, raised (f w) (f (with_signaled true w))) → blind (modify f).
Proof. intros Hf w ? ->. by split; [|apply Hf]. Qed.

Lemma blind_bind {A B} (m : M A) (f : A → M B) : blind m → (∀ a, blind (f a)) → blind (m ≫= f).
Proof.
  intros Hm Hf w w' Hw. destruct (blind_run m w w' Hm Hw) as [Hr Hw1]. rewrite !bind_run.
  destruct (m w) as [r w1], (m w') as [r' w1']. cbn in Hr, Hw1. subst r'.
  destruct r; [by apply Hf|done..].
Qed.
(** Reading the world is fine when the flag makes no difference. *)
Lemma blind_get {B} (f : world → M B) :
  (∀ w, f (with_signaled true w) = f w) → (∀ w, blind (f w)) → blind (get ≫= f).
Proof. intros Hf Hb w ? ->. rewrite !bind_run. cbn. rewrite Hf. by apply Hb. Qed.

Lemma blind_finally {A} (m : M A) cleanup : blind m → blind cleanup → blind (finally m cleanup).
Proof.
  intros Hm Hc w w' Hw. destruct (blind_run m w w' Hm Hw) as [Hr Hw1]. unfold finally.
  destruct (m w) as [r w1], (m w') as [r' w1']. cbn in Hr, Hw1. subst r'.
  destruct r as [a|e|how]; [| |done];
    (apply blind_run; [|done]; apply blind_bind; [done|intros _; auto using blind_ret, blind_rethrow]).
Qed.
Lemma blind_on_raise {A} (m : M A) cleanup : blind m → blind cleanup → blind (on_raise m cleanup).
Proof.
  intros Hm Hc w w' Hw. destruct (blind_run m w w' Hm Hw) as [Hr Hw1]. unfold on_raise.
  destruct (m w) as [r w1], (m w') as [r' w1']. cbn in Hr, Hw1. subst r'.
  destruct r as [a|e|how]; [done| |done].
  apply blind_run; [|done]. apply blind_bind; [done|intros _; apply blind_rethrow].
Qed.
Lemma blind_catch {A} (m : M A) h : blind m → (∀ e, blind (h e)) → blind (catch m h).
Proof.
  intros Hm Hh w w' Hw. destruct (blind_run m w w' Hm Hw) as [Hr Hw1]. unfold catch.
  destruct (m w) as [r w1], (m w') as [r' w1']. cbn in Hr, Hw1. subst r'.
  destruct r; [done|by apply Hh|done].
Qed.
Lemma blind_noexcept {A} (m : M A) : blind m → blind (noexcept m).
Proof.
  intros Hm w w' Hw. destruct (blind_run m w w' Hm Hw) as [Hr Hw1]. unfold noexcept.
  destruct (m w) as [r w1], (m w') as [r' w1']. cbn in Hr, Hw1. subst r'. by destruct r.
Qed.
Lemma blind_attempt {A} (m : M A) : blind m → blind (attempt m).
Proof.
  intros Hm w w' Hw. destruct (blind_run m w w' Hm Hw) as [Hr Hw1]. unfold attempt.
  destruct (m w) as [r w1], (m w') as [r' w1']. cbn in Hr, Hw1. subst r'. by destruct r.
Qed.
Lemma blind_mapM_ {A} (f : A → M unit) l : (∀ x, blind (f x)) → blind (mapM_ f l).
Proof.
  intros Hf. induction l as [|x l IH]; cbn [mapM_]; [apply blind_ret|].
  by apply blind_bind; [|intros _].
Qed.
End blind.

(** Follows the structure of a computation. *)
Ltac blind_step :=
  lazymatch goal with
  | |- Proper _ (mbind _ get) => apply blind_get; [try done|intros ?]
  | |- Proper _ (mbind _ _) => apply blind_bind; [|intros ?]
  | |- Proper _ (mret _) => apply blind_ret
  | |- Proper _ (raise_exn _ _) => apply blind_raise
  | |- Proper _ (raise_errno _) => apply blind_raise_errno
  | |- Proper _ (raise_system_error _) => apply blind_raise_system_error
  | |- Proper _ (rethrow _) => apply blind_rethrow
  | |- Proper _ (end_process _) => apply blind_end
  | |- Proper _ (lift _) => apply blind_lift
  | |- Proper _ (call _) => apply blind_call
  | |- Proper _ (modify _) => apply blind_modify; intros ?; try done
  | |- Proper _ (finally _ _) => apply blind_finally
  | |- Proper _ (on_raise _ _) => apply blind_on_raise
  | |- Proper _ (catch _ _) => apply blind_catch; [|intros ?]
  | |- Proper _ (noexcept _) => apply blind_noexcept
  | |- Proper _ (attempt _) => apply blind_attempt
  | |- Proper _ (mapM_ _ _) => apply blind_mapM_; intros ?
  | |- Proper _ (match ?x with _ => _ end) => destruct x eqn:?
  | |- Proper _ _ => solve [eauto with blind]
  end; cbv beta zeta.
Ltac blind_tac := repeat blind_step.
Create HintDb blind.

(** ** What does not look at the flag *)
Section components.
Context `{System} `{Fuel} `{Net_text} `{Libc} `{Host}.

Lemma break_loop_blind id ler : blind (break_loop id ler).
Proof. unfold break_loop. blind_tac. Qed.
Hint Resolve break_loop_blind : blind.
Lemma signal_handler_blind : blind signal_handler.
Proof. unfold signal_handler. blind_tac. Qed.
Hint Resolve signal_handler_blind : blind.
Lemma raise_signal_blind sig : blind (raise_signal sig).
Proof. unfold raise_signal. blind_tac. Qed.
Hint Resolve raise_signal_blind : blind.
Lemma interrupted_blind id i : blind (interrupted id i).
Proof. destruct i; cbn [interrupted]; blind_tac. Qed.
Hint Resolve interrupted_blind : blind.
Lemma get_datalink_blind id : blind (get_datalink id).
Proof. unfold get_datalink. blind_tac. Qed.
Hint Resolve get_datalink_blind : blind.
Lemma pcap_destroy_blind id : blind (pcap_destroy id).
Proof. unfold pcap_destroy. blind_tac. Qed.
Hint Resolve pcap_destroy_blind : blind.
Lemma pcap_open_blind iface : blind (pcap_open iface).
Proof. unfold pcap_open, pcap_new, pcap_configure, get_verbose_datalink. blind_tac. Qed.
Hint Resolve pcap_open_blind : blind.
Lemma set_filter_blind id filter : blind (set_filter id filter).
Proof. unfold set_filter, bpf_new. blind_tac. Qed.
Hint Resolve set_filter_blind : blind.

Lemma during_blind {S} id (cb : S → _ → _ → M S) s hs :
  (∀ s h p, blind (cb s h p)) → blind (during id cb s hs).
Proof.
  intros Hcb. revert s. induction hs as [|[h p|i] hs IH]; intros s; cbn [during]; blind_tac;
    auto.
Qed.
Lemma loop_blind {S} id count (cb : S → _ → _ → M S) s :
  (∀ s h p, blind (cb s h p)) → blind (loop id count cb s).
Proof.
  intros Hcb. unfold loop, loop_end, get_end_reason. blind_tac. by apply during_blind.
Qed.

(** Running commands *)
Lemma get_fd_from_stream_blind s : blind (get_fd_from_stream s).
Proof. unfold get_fd_from_stream. blind_tac. Qed.
Hint Resolve get_fd_from_stream_blind : blind.
Lemma fd_destroy_blind f : blind (fd_destroy f).
Proof. unfold fd_destroy, fd_close, keeps_open. blind_tac. Qed.
Hint Resolve fd_destroy_blind : blind.
Lemma get_self_pipes_blind b : blind (get_self_pipes b).
Proof. unfold get_self_pipes, fd_new. blind_tac. Qed.
Hint Resolve get_self_pipes_blind : blind.
Lemma fd_read_blind n f : blind (fd_read n f).
Proof.
  assert (∀ fd r d, blind (read_loop n fd r d)) as Hl; [|unfold fd_read; blind_tac; apply Hl].
  induction n as [|n IH]; intros fd r d; cbn [read_loop]; unfold is_data_ready_to_read; blind_tac; apply IH.
Qed.
Hint Resolve fd_read_blind : blind.
Lemma wait_loop_blind n pid : blind (wait_loop n pid).
Proof. induction n as [|n IH]; cbn [wait_loop]; blind_tac; apply IH. Qed.
Hint Resolve wait_loop_blind : blind.
Lemma spawn_io_blind cmd inp out : blind (spawn_io cmd inp out).
Proof.
  unfold spawn_io, spawn_wrapper, file_actions_new, add_dup2, wait_until_pid_exits. blind_tac.
Qed.
Hint Resolve spawn_io_blind : blind.
Lemma spawn_blind cmd : blind (spawn cmd).
Proof. unfold spawn. blind_tac. Qed.
Hint Resolve spawn_blind : blind.

(** Guards whose functors do not look at the flag *)
Definition functor_blind (f : Aquire_release) : Prop := (∀ a, blind (apply f a)) ∧ blind (dispose f).
(** ... which [m] returns *)
Definition makes_blind (m : M Aquire_release) : Prop :=
  blind m ∧ ∀ w f w', m w = (Val f, w') → functor_blind f.
Abbreviation guards_blind gs := (Forall (λ g, functor_blind (aquire_release g)) gs).

Lemma take_action_blind f a : functor_blind f → blind (take_action f a).
Proof. intros [Ha _]. unfold take_action. blind_tac. Qed.
Lemma guard_new_blind f : functor_blind f → blind (guard_new f).
Proof. intros Hf. unfold guard_new. blind_tac; [by apply take_action_blind|apply Hf]. Qed.
Lemma guard_destroy_blind g : functor_blind (aquire_release g) → blind (guard_destroy g).
Proof.
  intros Hg. unfold guard_destroy, guard_free. blind_tac; [by apply take_action_blind|apply Hg].
Qed.
Lemma guards_destroy_blind gs : guards_blind gs → blind (guards_destroy gs).
Proof.
  unfold guards_destroy. induction 1 as [|g gs Hg _ IH]; cbn [mapM_]; [blind_tac|].
  apply blind_bind; [by apply guard_destroy_blind|done].
Qed.

(** The guards which [emplace_all] returns are those it was given and new ones. *)
Lemma guard_new_functor f w g w' : guard_new f w = (Val g, w') → aquire_release g = f.
Proof.
  unfold guard_new. rewrite bind_run. destruct (on_raise _ _ w) as [[[]|?|?] w1]; [|done..].
  by intros [= <- _].
Qed.
Lemma emplace_all_blind fs gs :
  Forall makes_blind fs → guards_blind gs →
  blind (emplace_all fs gs) ∧ ∀ w gs' w', emplace_all fs gs w = (Val gs', w') → guards_blind gs'.
Proof.
  intros Hfs. revert gs. induction Hfs as [|f fs [Hf Hm] _ IH]; intros gs Hgs; cbn [emplace_all].
  { split; [blind_tac|]. by intros w gs' w' [= <- _]. }
  assert (∀ w g w', on_raise (f ≫= guard_new) (guards_destroy gs) w = (Val g, w') →
    functor_blind (aquire_release g)) as Hg.
  { intros w g w'. unfold on_raise. rewrite bind_run. destruct (f w) as [[fn|e|u] w1] eqn:Ef.
    - destruct (guard_new fn w1) as [[g'|e|u] w2] eqn:Eg; [|unfold rethrow, mbind, M_bind; by destruct (guards_destroy gs w2) as [[[]|?|?] ?]|done].
      intros [= <- _]. rewrite (guard_new_functor _ _ _ _ Eg). by eapply Hm.
    - unfold rethrow, mbind, M_bind. by destruct (guards_destroy gs w1) as [[[]|?|?] ?].
    - done. }
  assert (blind (on_raise (f ≫= guard_new) (guards_destroy gs))) as Hb.
  { apply blind_on_raise; [|by apply guards_destroy_blind]. intros w w' Hw. rewrite !bind_run.
    destruct (blind_run f w w' Hf Hw) as [Hr Hw1]. destruct (f w) as [r w1] eqn:Ef, (f w') as [r' w1'].
    cbn in Hr, Hw1. subst r'. destruct r as [fn|e|how]; [|done..].
    apply blind_run; [|done]. apply guard_new_blind. by eapply Hm. }
  split.
  - intros w w' Hw. rewrite !bind_run. destruct (blind_run _ w w' Hb Hw) as [Hr Hw1].
    destruct (on_raise _ _ w) as [r w1] eqn:Ef, (on_raise _ _ w') as [r' w1']. cbn in Hr, Hw1. subst r'.
    destruct r as [g|e|how]; [|done..]. apply (IH (gs ++ [g])); [|done].
    apply Forall_app. split; [done|]. apply Forall_singleton. by eapply Hg.
  - intros w gs' w'. rewrite bind_run. destruct (on_raise _ _ w) as [[g|e|u] w1] eqn:Ef; [|done..].
    apply IH. apply Forall_app. split; [done|]. apply Forall_singleton. by eapply Hg.
Qed.

(** A block with a vector of guards *)
Lemma guarded_blind {A} fs (body : list Scope_guard → M A) :
  Forall makes_blind fs → (∀ gs, guards_blind gs → blind (body gs)) →
  blind (gs ← emplace_all fs []; body gs).
Proof.
  intros Hfs Hbody w w' Hw. destruct (emplace_all_blind fs [] Hfs (Forall_nil_2 _)) as [Hb Hg].
  rewrite !bind_run. destruct (blind_run _ w w' Hb Hw) as [Hr Hw1].
  destruct (emplace_all _ _ w) as [r w1] eqn:E, (emplace_all _ _ w') as [r' w1']. cbn in Hr, Hw1. subst r'.
  destruct r as [gs|e|how]; [|done..]. apply Hbody; [by eapply Hg|done].
Qed.

Lemma command_blind f : functor_blind (command f).
Proof. split; [intros a|]; cbn [apply dispose command]; blind_tac. Qed.
Lemma makes_blind_ret f : functor_blind f → makes_blind (mret f).
Proof. intros Hf. split; [blind_tac|]. by intros w ? w' [= <- _]. Qed.
Lemma makes_blind_bind {A} (m : M A) f :
  blind m → (∀ a, functor_blind (f a)) → makes_blind (a ← m; mret (f a)).
Proof.
  intros Hm Hf. split; [apply blind_bind; [done|intros; blind_tac]|].
  intros w f' w'. rewrite bind_run. destruct (m w) as [[a|?|?] ?]; [|done..]. by intros [= <- _].
Qed.

Lemma ptr_guard_blind pc : functor_blind (ptr_guard pc).
Proof.
  split; [intros a|]; cbn [apply dispose ptr_guard]; [unfold ptr_guard_apply|]; blind_tac.
Qed.
Lemma thread_assign_blind o : blind (thread_assign o).
Proof. unfold thread_assign. blind_tac. Qed.
Lemma thread_join_blind o : blind (thread_join_if_joinable o).
Proof. unfold thread_join_if_joinable. blind_tac. Qed.
Hint Resolve thread_assign_blind thread_join_blind : blind.
Lemma make_wol_watcher_blind iface m pc : makes_blind (make_wol_watcher iface m pc).
Proof.
  apply makes_blind_bind; [unfold wol_watcher_new; blind_tac|]. intros s.
  split; [intros a|]; cbn [apply dispose];
    unfold wol_watcher_apply, wol_watcher_destroy, wol_watcher_stop; blind_tac.
Qed.
Lemma make_daw_blind iface ip pc : makes_blind (make_duplicate_address_watcher iface ip pc).
Proof.
  apply makes_blind_bind; [unfold daw_new, get_mac, with_self_pipes; blind_tac|].
  intros d. split; [intros a|]; cbn [apply dispose]; unfold daw_apply, stop_watcher; blind_tac.
Qed.

Lemma setup_makes_blind args :
  Forall makes_blind (mret <$> (addresses args ≫= address_functors args)).
Proof.
  apply Forall_fmap, Forall_forall. intros f (ip & Hf & _)%list_elem_of_bind.
  apply makes_blind_ret. rewrite address_functors_actions in Hf.
  apply list_elem_of_fmap in Hf as (g & -> & _). apply command_blind.
Qed.
Lemma wait_and_listen_blind args : blind (wait_and_listen args).
Proof.
  unfold wait_and_listen. apply blind_bind; [blind_tac|intros pc].
  apply blind_finally; [|blind_tac]. apply guarded_blind.
  - unfold watchers. apply Forall_app. split.
    + repeat (apply Forall_cons; split); [apply make_wol_watcher_blind| |apply Forall_nil_2].
      apply makes_blind_ret, ptr_guard_blind.
    + apply Forall_fmap, Forall_forall. intros ip _. apply make_daw_blind.
  - intros gs Hgs. apply blind_finally; [|by apply guards_destroy_blind].
    unfold listen. blind_tac. apply loop_blind. intros. blind_tac.
Qed.
End components.

(** ** Until the host is woken *)
Section waiting.
Context `{System} `{Fuel} `{Net_text} `{Libc} `{Host}.

(** Something is sent: the magic packet, or the captured packet. *)
Definition sends (w w' : world) : Prop :=
  ∃ h, trace w' = trace w ++ h ∧ Exists (λ e, quiet (event_kind e) = false) h.

Lemma sends_after P w w1 w' : extends P w w1 → sends w1 w' → sends w w'.
Proof.
  intros (h1 & Ht1 & _) (h & Ht & Hh). exists (h1 ++ h). rewrite Ht, Ht1, (assoc_L (++)).
  split; [done|]. apply Exists_app. by right.
Qed.
Lemma sends_before P w w1 w' : sends w w1 → extends P w1 w' → sends w w'.
Proof.
  intros (h & Ht & Hh) (h1 & Ht1 & _). exists (h ++ h1). rewrite Ht1, Ht, (assoc_L (++)).
  split; [done|]. apply Exists_app. by left.
Qed.
Lemma quiet_sends w w' : extends (of_kind quiet) w w' → ¬ sends w w'.
Proof.
  intros (h & Ht & Hh) (h' & Ht' & [e [He Hq]]%Exists_exists). rewrite Ht in Ht'.
  apply app_inv_head in Ht' as ->. by eapply quiet_absent.
Qed.

Lemma blind_keeps_flag {A} (m : M A) w : blind m → signaled w = true → signaled (m w).2 = true.
Proof.
  intros Hm Hs. assert (raised w w) as Hw by (destruct w; cbn in Hs; by subst).
  destruct (Hm w w Hw) as [_ ->]. done.
Qed.

(** Waking sends something, and with the flag set the host is not waited for. *)
Lemma with_socket_sends {A} d t p (body : Z → M A) w :
  (∀ s, emits (of_kind sockets_only) (body s)) → sends w (with_socket d t p body w).2.
Proof.
  intros Hb. unfold with_socket, socket_new. rewrite !bind_run. cbn [call].
  set (w1 := add_event _ w). assert (sends w w1) as Hw1.
  { eexists. split; [done|]. by apply Exists_cons_hd. }
  case_decide; [exact Hw1|]. apply (sends_before (λ _, True) _ w1); [exact Hw1|].
  pose proof (to_anything _ _ (Hb (reply (trace w) (Socket_open d t p)))) as Hany.
  assert (steps anything (finally (body (reply (trace w) (Socket_open d t p))) (socket_destroy (reply (trace w) (Socket_open d t p))))) as Hf.
  { apply steps_finally; [apply _|exact Hany|]. unfold socket_destroy. steps_tac. }
  apply Hf.
Qed.

Definition wake_up (args : Args) : M unit :=
  if decide (wol_method args = wol_method_udp) then wol_udp (mac args)
  else wol_ethernet (interface args) (mac args).
Lemma wake_up_sends args w : sends w (wake_up args w).2.
Proof.
  unfold wake_up. case_decide; apply with_socket_sends; intros s;
    unfold set_sock_opt, send_to, get_ifindex, get_hwaddr, socket_ioctl; steps_tac.
Qed.
Lemma wake_up_blind args : blind (wake_up args).
Proof.
  unfold wake_up. case_decide; unfold wol_udp, wol_ethernet, with_socket, socket_new, socket_destroy,
    set_sock_opt, send_to, get_ifindex, get_hwaddr, socket_ioctl; blind_tac.
Qed.

Lemma wake_sends args data dst w : sends w (wake args data dst w).2.
Proof.
  unfold wake. fold (wake_up args). rewrite bind_run. pose proof (wake_up_sends args w) as Hs.
  destruct (wake_up args w) as [[x|e|u] w1]; [|exact Hs..].
  eapply sends_before; [exact Hs|]. apply after_waking_anything.
Qed.

Lemma ping_and_wait_signaled iface ip tries w :
  signaled w = true → ∃ w', ping_and_wait iface ip tries w = (Val false, w').
Proof.
  intros Hs. unfold ping_and_wait. rewrite bind_run.
  assert (∃ w', ping_loop (Z.to_nat tries) (get_ping_cmd ip +:+ " -c 1 " +:+ get_bindable_ip iface (pure ip)) 1 w
    = (Val 1, w')) as (w' & ->); [|by exists w'].
  destruct (Z.to_nat tries) as [|n]; cbn [ping_loop]; [by exists w|]. rewrite bind_run.
  destruct (is_signaled_when_set w Hs) as (w' & -> & _). by exists w'.
Qed.

Lemma wake_signaled args data dst w :
  signaled w = true → wp (wake args data dst) (λ status _, status = wake_failure) (λ _ _, True) w.
Proof.
  intros Hs. unfold wake. fold (wake_up args). wp_step.
  pose proof (blind_keeps_flag _ _ (wake_up_blind args) Hs) as Hs1. unfold wp at 1.
  destruct (wake_up args w) as [[x|e|u] w1]; [|done..]. cbn in Hs1. wp_step.
  destruct (ping_and_wait_signaled (interface args) dst (ping_tries args) w1 Hs1) as (w2 & Hp).
  unfold wp at 1. rewrite Hp. wp_step. apply (wp_of_steps (λ _ _, True)); [done| |done].
  intros _ w3 _. by wp_step.
Qed.

(** Whether the flag is set makes no difference before something is sent, and
    where it is set no success is reported. *)
Definition unnoticed (m : M Emulate_host_status) : Prop := ∀ w w', raised w w' →
  (same_run (m w) (m w') ∨ sends w (m w).2) ∧ (m w').1 ≠ Val success.

Lemma unnoticed_bind {A} (m : M A) f :
  blind m → steps anything m → (∀ a, unnoticed (f a)) → unnoticed (m ≫= f).
Proof.
  intros Hm Hany Hf w w' Hw. destruct (blind_run m w w' Hm Hw) as [Hr Hw1]. specialize (Hany w).
  rewrite !bind_run. destruct (m w) as [r w1], (m w') as [r' w1']. cbn in Hr, Hw1, Hany. subst r'.
  destruct r as [a|e|how]; [|split; [by left|done]..].
  destruct (Hf a _ _ Hw1) as [[?|?] ?]; (split; [|done]); [by left|right]. by eapply sends_after.
Qed.
Lemma unnoticed_blind m : blind m → (∀ w, wp m (λ s _, s ≠ success) (λ _ _, True) w) → unnoticed m.
Proof.
  intros Hm Hs w w' Hw. split; [left; by apply blind_run|]. intros Hr. specialize (Hs w').
  unfold wp in Hs. destruct (m w') as [r w1]. cbn in Hr. by subst r.
Qed.
Lemma unnoticed_finally m cleanup :
  unnoticed m → blind cleanup → steps anything cleanup → unnoticed (finally m cleanup).
Proof.
  intros Hm Hc Hany w w' Hw. destruct (Hm w w' Hw) as [Hsame Hs].
  assert ((finally m cleanup w').1 ≠ Val success) as Hs'.
  { unfold finally, rethrow, mbind, M_bind. destruct (m w') as [[a|e|u] w1]; [| |done];
      destruct (cleanup w1) as [[|?|?] ?]; done. }
  split; [|exact Hs']. destruct Hsame as [[Hr Hw1]|Hsend]; [left|right].
  - unfold finally. destruct (m w) as [r w1], (m w') as [r' w1']. cbn in Hr, Hw1. subst r'.
    destruct r as [a|e|how]; [| |done].
    all: apply blind_run; [|done]; apply blind_bind; [done|intros].
    + apply blind_ret.
    + apply blind_rethrow.
  - unfold finally, rethrow, mbind, M_bind. destruct (m w) as [r w1]. cbn in Hsend.
    specialize (Hany w1). destruct r as [a|e|how]; [| |exact Hsend];
      destruct (cleanup w1) as [[|?|?] ?]; cbn in Hany |- *; by eapply sends_before.
Qed.
Lemma unnoticed_on_raise_bind {A} (m : M A) cleanup f :
  blind m → blind cleanup → steps anything m → steps anything cleanup → (∀ a, unnoticed (f a)) →
  unnoticed (on_raise m cleanup ≫= f).
Proof.
  intros. apply unnoticed_bind; [by apply blind_on_raise|by apply steps_on_raise; [apply _|..]|done].
Qed.

Lemma wake_unnoticed args data dst : unnoticed (wake args data dst).
Proof.
  intros w w' ->. split; [right; apply wake_sends|]. intros Hr.
  pose proof (wake_signaled args data dst (with_signaled true w) eq_refl) as Hw.
  unfold wp in Hw. destruct (wake _ _ _ _) as [r w1]. cbn in Hr. by subst r.
Qed.

(** The guards of [setup_firewall_and_ips] *)
Lemma setup_unnoticed args (body : list Scope_guard → M Emulate_host_status) :
  (∀ gs, blind (guards_destroy gs) → steps anything (guards_destroy gs) → unnoticed (body gs)) →
  unnoticed (gs ← setup_firewall_and_ips args; body gs).
Proof.
  intros Hbody w w' Hw. unfold setup_firewall_and_ips.
  destruct (emplace_all_blind _ [] (setup_makes_blind args) (Forall_nil_2 _)) as [Hb Hg].
  destruct (setup_quiet args) as [HR Hq]. unfold setup_firewall_and_ips in HR, Hq. specialize (HR w).
  rewrite !bind_run. destruct (blind_run _ w w' Hb Hw) as [Hr Hw1].
  destruct (emplace_all _ _ w) as [r w1] eqn:E, (emplace_all _ _ w') as [r' w1'].
  cbn in Hr, Hw1, HR. subst r'. destruct r as [gs|e|how]; [|split; [by left|done]..].
  assert (unnoticed (body gs)) as Hu.
  { apply Hbody; [by eapply guards_destroy_blind, Hg|].
    eapply to_anything, guards_destroy_steps; [apply _|apply spawn_quiet|by eapply Hq]. }
  destruct (Hu w1 w1' Hw1) as [[Hs|Hs] Hn]; (split; [|done]); [by left|right]. by eapply sends_after.
Qed.

Lemma block_icmp_steps source :
  steps_post (extends (of_kind quiet)) (guard_new (command (Block_icmp source)))
    (λ g, steps (extends (of_kind quiet)) (guard_destroy g)).
Proof.
  destruct (guard_new_steps _ spawn_quiet _ (command_steps (extends (of_kind quiet)) (Block_icmp source))) as [HR Hq].
  split; [exact HR|]. intros w g w' E. apply guard_destroy_steps; [apply _|apply spawn_quiet|by eapply Hq].
Qed.

(** Blocking, giving up and waking *)
Lemma release_unnoticed args data source dst locks :
  blind (guards_destroy locks) → steps anything (guards_destroy locks) →
  unnoticed (block_icmp ← on_raise (guard_new (command (Block_icmp source))) (guards_destroy locks);
             finally (_ ← guards_destroy locks; wake args data dst) (guard_destroy block_icmp)).
Proof.
  intros Hb Hany. destruct (block_icmp_steps source) as [Hnew Hgd].
  assert (blind (on_raise (guard_new (command (Block_icmp source))) (guards_destroy locks))) as Hbn
    by (apply blind_on_raise; [apply guard_new_blind, command_blind|done]).
  assert (steps anything (on_raise (guard_new (command (Block_icmp source))) (guards_destroy locks))) as Hsn
    by (apply steps_on_raise; [apply _|by eapply to_anything|done]).
  intros w w' Hw. destruct (blind_run _ w w' Hbn Hw) as [Hr Hw1]. specialize (Hsn w).
  rewrite !bind_run. destruct (on_raise _ _ w) as [r w1] eqn:E, (on_raise _ _ w') as [r' w1'].
  cbn in Hr, Hw1, Hsn. subst r'. destruct r as [g|e|how]; [|split; [by left|done]..].
  assert (guard_new (command (Block_icmp source)) w = (Val g, w1)) as Eg.
  { revert E. unfold on_raise, rethrow, mbind, M_bind. destruct (guard_new _ w) as [[?|?|?] w2]; [done| |done].
    by destruct (guards_destroy locks w2) as [[|?|?] ?]. }
  assert (unnoticed (finally (_ ← guards_destroy locks; wake args data dst) (guard_destroy g))) as Hu.
  { apply unnoticed_finally.
    - apply unnoticed_bind; [done..|intros _; apply wake_unnoticed].
    - apply guard_destroy_blind. rewrite (guard_new_functor _ _ _ _ Eg). apply command_blind.
    - eapply to_anything, Hgd, Eg. }
  destruct (Hu w1 w1' Hw1) as [[Hs|Hs] Hn]; (split; [|done]); [by left|right]. by eapply sends_after.
Qed.

Lemma emulate_host_unnoticed args : unnoticed (emulate_host args).
Proof.
  unfold emulate_host. apply setup_unnoticed. intros locks Hb Hany.
  apply unnoticed_on_raise_bind; [apply wait_and_listen_blind|done|eapply to_anything, wait_quiet|done|].
  intros [[[ler data] source] dst].
  destruct ler; [..|by apply release_unnoticed| | |];
    (apply unnoticed_blind; [apply blind_bind; [done|intros; apply blind_ret]|]);
    intros w1; wp_step; (apply (wp_of_steps (λ _ _, True)); [done|intros; by wp_step|done]).
Qed.
End waiting.

(** ** Properties *)

(** C13: a signal which arrives when no capture is registered -- after [thread_main]
    has looked at the flag and before [wait_and_listen] has registered its capture
    -- is lost.  The handler sets the flag, and then [emulate_host] waits exactly as
    if nothing had arrived, with the same calls and the same result, as long as
    nothing is sent; and when a client connects it wakes the host but does not wait
    for it: it never reports success. *)
Theorem early_signal_lost `{System} `{Fuel} `{Net_text} `{Host} args w :
  pcaps w = [] →
  let '(r, w1) := emulate_host args w in
  let '(r', w2) := (signal_handler ≫= λ _, emulate_host args) w in
  (extends (of_kind quiet) w w1 → r' = r ∧ w2 = with_signaled true w1)
  ∧ r' ≠ Val success.
Proof.
  intros Hp. rewrite bind_run.
  assert (signal_handler w = (Val tt, with_signaled true w)) as ->.
  { unfold signal_handler, mbind, M_bind, modify, get. cbn. by rewrite Hp. }
  destruct (emulate_host_unnoticed args w (with_signaled true w) eq_refl) as [Hsame Hs].
  destruct (emulate_host args w) as [r w1], (emulate_host args _) as [r' w2]. cbn in Hs.
  split; [|exact Hs]. intros Hq. destruct Hsame as [[Hr Hw]|Hsend]; [done|].
  by apply quiet_sends in Hsend.
Qed.

(** ** A witness *)

(** The capture waits until another machine has the address. *)
Definition occupied_system : System :=
  {| reply := λ A h c,
       match c in syscall A return A with
       | Pcap_loop _ _ =>
           {| happenings := [Interruption (By_thread duplicate_address)]; loop_ret := Some PCAP_ERROR_BREAK |}
       | c => @reply sleep_system _ h c
       end;
     strerror_errno := λ _, "error" |}.

Lemma early_signal_lost_witness :
  pcaps world_init = []
  ∧ ∃ w1, @emulate_host occupied_system 3%nat ref_net Little sleep_args world_init
            = (Val host_duplicate_address, w1)
    ∧ (@signal_handler occupied_system ≫= λ _, @emulate_host occupied_system 3%nat ref_net Little sleep_args)
        world_init = (Val host_duplicate_address, with_signaled true w1).
Proof.
  split; [done|].
  pose proof (@early_signal_lost occupied_system 3%nat ref_net Little sleep_args world_init eq_refl) as Hw.
  destruct (@emulate_host occupied_system 3%nat ref_net Little sleep_args world_init) as [r w1] eqn:E.
  destruct ((@signal_handler occupied_system ≫= _) world_init) as [r' w2].
  assert (r = Val host_duplicate_address ∧ Forall (of_kind quiet) (trace w1)) as [-> Hq].
  { vm_compute in E. injection E as <- <-. split; [done|].
    repeat (apply Forall_cons; split; [reflexivity|]). apply Forall_nil_2. }
  destruct Hw as [Hw _]. exists w1. split; [reflexivity|].
  destruct (Hw (ex_intro _ (trace w1) (conj eq_refl Hq))) as [-> ->]. reflexivity.
Defined.
