(* ===== verification/Ledger.v ===== *)
(** * The ledger of addresses and firewall rules

    An abstract account book: it knows which addresses and rules are held, a
    resource is added by a command which succeeds, and only what is held can be
    deleted.  [emulate_host] and the threads of [watchHost] refine it: at every
    moment, also when the process dies in the middle, the commands they have run
    are a valid book, and when they return or throw the book is empty.  Books of
    threads which run at the same time can be merged in any way. *)
From stdpp Require Import gmultiset.
From S2P Require Import Prelude ContainerUtils IntUtils NetText NetTextRef System IpAddress Ethernet Ip PacketParser Pcap FileDescriptor SpawnProcess ScopeGuard Socket Wol WolWatcher DuplicateAddressWatcher Args SleepProxy Programs.
Local Open Scope Z_scope.

(** ** The abstract machine *)
Abbreviation book := (gmultiset (list string)).
Abbreviation entry := (list string * Z)%type.

(** One command which has ended, with its status *)
Definition enter (held : book) (c : entry) : option book :=
  if decide (c.2 = 0) then
    match polarity c.1 with
    | Some (k, s) =>
        if decide (0 < s) then Some (held ⊎ {[+ k +]})
        else if decide (k ∈ held) then Some (held ∖ {[+ k +]}) else None
    | None => Some held
    end
  else Some held.
Fixpoint ledger (held : book) (cs : list entry) : option book :=
  match cs with
  | [] => Some held
  | c :: cs => held ← enter held c; ledger held cs
  end.

Lemma ledger_app held cs1 cs2 : ledger held (cs1 ++ cs2) = held ← ledger held cs1; ledger held cs2.
Proof.
  revert held. induction cs1 as [|c cs1 IH]; intros held; [done|]. cbn.
  destruct (enter held c); [apply IH|done].
Qed.

Lemma ledger_prefix held cs1 cs2 cs held' :
  cs1 ++ cs2 = cs → ledger held cs = Some held' → is_Some (ledger held cs1).
Proof. intros <-. rewrite ledger_app. by destruct (ledger held cs1). Qed.

(** What others hold does not matter. *)
Lemma enter_frame held held' other c :
  enter held c = Some held' → enter (held ⊎ other) c = Some (held' ⊎ other).
Proof.
  unfold enter. case_decide; [|by intros [= ->]]. destruct (polarity c.1) as [[k s]|]; [|by intros [= ->]].
  case_decide; [intros [= <-]; f_equal; multiset_solver|].
  destruct (decide (k ∈ held)) as [Hk|]; [|done]. intros [= <-].
  rewrite decide_True by multiset_solver. f_equal. multiset_solver.
Qed.

(** ** Books of computations

    Since [w0] the commands have been a valid book, which holds [held] now. *)
Definition books (w0 : world) (held : book) (w : world) : Prop :=
  ∃ cs, commands w = commands w0 ++ cs ∧ ledger ∅ cs = Some held.
Definition some_book (w0 : world) (w : world) : Prop := ∃ held, books w0 held w.

Lemma books_refl w : books w ∅ w.
Proof. exists []. by rewrite app_nil_r. Qed.
Lemma books_some w0 held w : books w0 held w → some_book w0 w.
Proof. by exists held. Qed.
Lemma books_same w0 held w w' : books w0 held w → commands w' = commands w → books w0 held w'.
Proof. intros (cs & Hc & Hl) E. exists cs. by rewrite E. Qed.
Lemma books_enter w0 held held' w w' c :
  books w0 held w → commands w' = commands w ++ [c] → enter held c = Some held' → books w0 held' w'.
Proof.
  intros (cs & Hc & Hl) E He. exists (cs ++ [c]). split; [by rewrite E, Hc, (assoc_L (++))|].
  rewrite ledger_app, Hl. cbn. by rewrite He.
Qed.

(** Commands which change no address and no rule *)
Definition neutral_entry (c : entry) : Prop := c.2 ≠ 0 ∨ polarity c.1 = None.
Definition neutral (w w' : world) : Prop :=
  ∃ cs, commands w' = commands w ++ cs ∧ Forall neutral_entry cs.
#[export] Instance neutral_preorder : PreOrder neutral.
Proof.
  split; [intros w; exists []; by rewrite app_nil_r|].
  intros w1 w2 w3 (cs1 & E1 & H1) (cs2 & E2 & H2). exists (cs1 ++ cs2).
  rewrite E2, E1, (assoc_L (++)). split; [done|by apply Forall_app].
Qed.
Lemma neutral_same w w' : commands w' = commands w → neutral w w'.
Proof. intros E. exists []. by rewrite E, app_nil_r. Qed.

Lemma enter_neutral held c : neutral_entry c → enter held c = Some held.
Proof. unfold enter. intros [Hc|Hc]; [by rewrite decide_False|]. by rewrite Hc; case_decide. Qed.
Lemma books_neutral w0 held w w' : books w0 held w → neutral w w' → books w0 held w'.
Proof.
  intros (cs & Hc & Hl) (cs' & E & Hn). exists (cs ++ cs'). split; [by rewrite E, Hc, (assoc_L (++))|].
  rewrite ledger_app, Hl. cbn. clear -Hn.
  induction Hn as [|c cs' Hc _ IH]; [done|]. cbn. by rewrite enter_neutral.
Qed.

(** ** Reasoning also about the end of the process

    [wpe F m Q E w]: like [wp], and when [m] ends the process the world is in [F]. *)
Definition wpe {A} (F : world → Prop) (m : M A) (Q : A → world → Prop) (E : exn → world → Prop)
    (w : world) : Prop :=
  match m w with
  | (Val a, w') => Q a w'
  | (Raised e, w') => E e w'
  | (Ended _, w') => F w'
  end.

Section wpe.
Context (F : world → Prop).

Lemma wpe_mono {A} (m : M A) (Q Q' : A → world → Prop) (E E' : exn → world → Prop) w :
  wpe F m Q E w → (∀ a w', Q a w' → Q' a w') → (∀ e w', E e w' → E' e w') → wpe F m Q' E' w.
Proof. unfold wpe. destruct (m w) as [[|?|?] ?]; auto. Qed.
Lemma wpe_ret {A} (a : A) (Q : A → world → Prop) E w : Q a w → wpe F (mret a) Q E w.
Proof. done. Qed.
Lemma wpe_raise {A} k msg (Q : A → world → Prop) (E : exn → world → Prop) w :
  E (Exn k msg) w → wpe F (raise_exn k msg) Q E w.
Proof. done. Qed.
Lemma wpe_bind {A B} (m : M A) (f : A → M B) Q E w :
  wpe F m (λ a, wpe F (f a) Q E) E w → wpe F (m ≫= f) Q E w.
Proof. unfold wpe, mbind, M_bind. by destruct (m w) as [[|?|?] ?]. Qed.
Lemma wpe_finally {A} (m : M A) cleanup (Q : A → world → Prop) E w :
  wpe F m (λ a, wpe F cleanup (λ _, Q a) E) (λ e, wpe F cleanup (λ _, E e) E) w →
  wpe F (finally m cleanup) Q E w.
Proof.
  unfold wpe, finally, rethrow, mbind, M_bind, mret, M_ret.
  destruct (m w) as [[|?|?] w']; try done; by destruct (cleanup w') as [[|?|?] ?].
Qed.
Lemma wpe_on_raise {A} (m : M A) cleanup (Q : A → world → Prop) E w :
  wpe F m Q (λ e, wpe F cleanup (λ _, E e) E) w → wpe F (on_raise m cleanup) Q E w.
Proof.
  unfold wpe, on_raise, rethrow, mbind, M_bind.
  destruct (m w) as [[|?|?] w']; try done; by destruct (cleanup w') as [[|?|?] ?].
Qed.
Lemma wpe_noexcept {A} (m : M A) (Q : A → world → Prop) E w :
  wpe F m Q (λ _, F) w → wpe F (noexcept m) Q E w.
Proof. unfold wpe, noexcept. by destruct (m w) as [[|?|?] w']. Qed.
Lemma wpe_catch {A} (m : M A) h (Q : A → world → Prop) E w :
  wpe F m Q (λ e, wpe F (h e) Q E) w → wpe F (catch m h) Q E w.
Proof. unfold wpe, catch. by destruct (m w) as [[|?|?] w']. Qed.
Lemma wpe_lift {A} (o : outcome A) (Q : A → world → Prop) (E : exn → world → Prop) w :
  (∀ a, o = Ret a → Q a w) → (∀ e, o = Throw e → E e w) → F w → wpe F (lift o) Q E w.
Proof. unfold wpe, lift. destruct o; auto. Qed.

(** A computation whose every outcome is related to its start *)
Lemma wpe_of_steps {A} R (m : M A) (Q : A → world → Prop) (E : exn → world → Prop) w :
  steps R m → (∀ w', R w w' → (∀ a, Q a w') ∧ (∀ e, E e w') ∧ F w') → wpe F m Q E w.
Proof.
  intros Hm HR. specialize (Hm w). unfold wpe. specialize (HR _ Hm).
  destruct (m w) as [[|?|?] w']; cbn in *; naive_solver.
Qed.
Lemma wpe_wp {A} (m : M A) (Q : A → world → Prop) (E : exn → world → Prop) w :
  wp m Q E w → F (m w).2 → wpe F m Q E w.
Proof. unfold wp, wpe. by destruct (m w) as [[|?|?] w']. Qed.
End wpe.

(** ** Commands *)
Section commands.
Context `{System} `{Fuel}.

Lemma wait_loop_entries n pid argv cs w :
  cstate w = (Some (pid, argv), cs) →
  wpe (λ w', commands w' = cs) (wait_loop n pid)
    (λ status w', commands w' = cs ++ [(argv, exit_code status)]) (λ _ w', commands w' = cs) w.
Proof.
  revert w. induction n as [|n IH]; intros w Hw; cbn [wait_loop].
  { unfold wpe, end_process, commands. by rewrite Hw. }
  unfold wpe, mbind, M_bind, call. set (r := reply (trace w) (Waitpid pid)).
  pose proof (wait_step (trace w) pid argv cs r Hw : command_states (trace (add_event (Event (Waitpid pid) r) w)) = _) as Hcs.
  destruct r as [status|]; [|unfold raise_errno, commands; by rewrite Hcs].
  destruct (has_ended status); [|by apply IH].
  unfold mret, M_ret, commands. by rewrite Hcs.
Qed.

(** [spawn] adds at most the entry of its command, however it ends. *)
Definition ran (argv : list string) (w w' : world) : Prop :=
  commands w' = commands w ∨ ∃ st, commands w' = commands w ++ [(argv, st)].

Lemma wait_entries pid argv w0 w :
  cstate w = (Some (pid, argv), commands w0) → ran argv w0 (wait_until_pid_exits pid w).2.
Proof.
  intros Hw. unfold wait_until_pid_exits. rewrite bind_run.
  pose proof (wait_loop_entries fuel pid _ _ _ Hw) as Hl. unfold wpe in Hl.
  destruct (wait_loop fuel pid w) as [[status|e|u] w1]; [|by left..].
  assert (steps same_commands (_ ← (if WIFSIGNALED status then raise_signal (WTERMSIG status) else mret tt);
    mret (exit_code status))) as Hs.
  { apply not_processes_same. steps_tac. by apply raise_signal_emits. }
  right. exists (exit_code status). rewrite <-Hl. unfold commands. f_equal. apply Hs.
Qed.

Lemma bind_entries {A B} argv w0 (m : M A) (f : A → M B) w :
  steps same_commands m → commands w = commands w0 →
  (∀ a w', commands w' = commands w0 → ran argv w0 (f a w').2) → ran argv w0 ((m ≫= f) w).2.
Proof.
  intros Hm Hw Hf. specialize (Hm w). rewrite bind_run.
  assert (commands (m w).2 = commands w0) as Hm' by (unfold commands; rewrite Hm; exact Hw).
  destruct (m w) as [[a|e|u] w1]; [by apply Hf|by left..].
Qed.

Lemma spawn_io_entries cmd inp out w : ran (c_cut <$> cmd) w (spawn_io cmd inp out w).2.
Proof.
  assert (∀ A (o : outcome A), steps same_commands (lift o)) as Hlift by (intros; apply steps_lift; apply _).
  unfold spawn_io, spawn_wrapper.
  apply bind_entries; [apply Hlift|done|intros p w1 Hw1].
  apply bind_entries; [apply Hlift|done|intros command w2 Hw2].
  apply bind_entries; [apply file_actions_same|done|intros _ w3 Hw3].
  apply bind_entries; [apply add_dup2_same|done|intros _ w4 Hw4].
  apply bind_entries; [apply add_dup2_same|done|intros _ w5 Hw5].
  rewrite c_arguments_array, lift_Ret_bind, bind_run. unfold call at 1.
  set (r := reply (trace w5) _). set (w6 := add_event _ w5).
  assert (cstate w6 = if decide (r.1 = 0) then (Some (r.2, c_cut <$> cmd), commands w) else cstate w5) as Hw6.
  { unfold w6. cbn [add_event trace]. by rewrite command_states_snoc, <-Hw5. }
  destruct r as [rc child]. cbn [fst snd] in Hw6. destruct (decide (rc ≠ 0)) as [Hrc|Hrc].
  { left. rewrite decide_False in Hw6 by done. unfold raise_system_error. cbn. unfold commands. by rewrite Hw6. }
  rewrite decide_True in Hw6 by lia. rewrite bind_run.
  pose proof (wait_entries child _ _ _ Hw6) as Hwait.
  destruct (wait_until_pid_exits child w6) as [[code|e|u] w7]; [|done..].
  by case_decide.
Qed.

(** Commands which are not about addresses or rules *)
Lemma spawn_neutral cmd inp out : polarity (c_cut <$> cmd) = None → steps neutral (spawn_io cmd inp out).
Proof.
  intros Hp w. destruct (spawn_io_entries cmd inp out w) as [E|[st E]]; [by apply neutral_same|].
  exists [(c_cut <$> cmd, st)]. split; [done|]. apply Forall_singleton. by right.
Qed.
Lemma emits_neutral {A} (m : M A) : emits (of_kind not_processes) m → steps neutral m.
Proof.
  intros Hm. eapply steps_mono; [by apply not_processes_same|]. intros w w' E. apply neutral_same.
  unfold commands. by rewrite E.
Qed.
End commands.

(** ** Guards *)
Section guards.
Context `{System} `{Fuel}.

Definition after (a : Action) (k : list string) (held : book) : book :=
  match a with add => held ⊎ {[+ k +]} | del => held ∖ {[+ k +]} end.

(** The functor takes and gives back [k] and nothing else. *)
Definition booked (f : Aquire_release) (k : list string) : Prop :=
  (∀ a w0 held w, books w0 held w → (a = del → k ∈ held) →
     wpe (some_book w0) (take_action f a)
       (λ _, books w0 (after a k held)) (λ _, books w0 held) w)
  ∧ steps neutral (dispose f).

Lemma enter_after a k held argv :
  polarity argv = Some (k, sign a) → (a = del → k ∈ held) →
  enter held (argv, 0) = Some (after a k held).
Proof.
  intros Hp Hk. unfold enter. cbn [fst snd]. rewrite decide_True by done. rewrite Hp.
  destruct a; cbn [sign after]; [by rewrite decide_True by lia|].
  by rewrite decide_False, decide_True by (lia || auto).
Qed.
Lemma enter_failed held argv st : st ≠ 0 → enter held (argv, st) = Some held.
Proof. intros. apply enter_neutral. by left. Qed.

Lemma spawn_books cmd argv a k w0 held w :
  c_cut <$> cmd = argv → polarity argv = Some (k, sign a) → (a = del → k ∈ held) →
  books w0 held w →
  wpe (some_book w0) (spawn cmd)
    (λ st, books w0 (if decide (st = 0) then after a k held else held)) (λ _, books w0 held) w.
Proof.
  intros Hargv Hp Hk Hb.
  assert (∀ st w', commands w' = commands w ++ [(argv, st)] →
    books w0 (if decide (st = 0) then after a k held else held) w') as Hst.
  { intros st w' E. eapply books_enter; [done..|]. destruct (decide (st = 0)) as [->|].
    - by apply enter_after.
    - by apply enter_failed. }
  apply wpe_wp.
  - unfold spawn. eapply wp_mono; [apply spawn_io_commands|..]; rewrite Hargv.
    + intros st w' [E _]. by apply Hst.
    + intros e w' [E|E]; [by eapply books_same|]. exact (Hst spawn_failure w' E).
  - unfold spawn. destruct (spawn_io_entries cmd fd_default fd_default w) as [E|[st E]]; rewrite ?Hargv in E.
    + by eapply books_some, books_same.
    + by eapply books_some, Hst.
Qed.

Lemma command_booked (f : Action → outcome string) k : names_resource f k → booked (command f) k.
Proof.
  intros Hf. split; [|by apply steps_ret; apply _]. intros a w0 held w Hb Hk.
  destruct (Hf a) as (cmd & Hcmd & Hne & Hpol).
  unfold take_action, command. cbn [apply]. rewrite Hcmd, lift_Ret_bind, decide_False by done.
  apply wpe_bind. eapply wpe_mono; [by eapply spawn_books|..]; [|done].
  intros st w' Hw'. cbv beta in Hw' |- *. destruct (decide (st ≠ 0)) as [Hst|Hst].
  - apply wpe_raise. by rewrite decide_False in Hw' by done.
  - apply wpe_ret. by rewrite decide_True in Hw' by lia.
Qed.

(** The resources of a list of guards which are not freed *)
Definition keyed (gs : list Scope_guard) (ks : list (list string)) : Prop :=
  Forall2 (λ g k, freed g = false ∧ booked (aquire_release g) k) gs ks.
Abbreviation all ks := (list_to_set_disj ks : book).

Lemma guard_new_books f k w0 held w :
  booked f k → books w0 held w →
  wpe (some_book w0) (guard_new f)
    (λ g w', freed g = false ∧ aquire_release g = f ∧ books w0 (held ⊎ {[+ k +]}) w')
    (λ _, books w0 held) w.
Proof.
  intros [Hf Hd] Hb. unfold guard_new. apply wpe_bind, wpe_on_raise.
  eapply wpe_mono; [by apply (Hf add w0 held)|..]; cbv beta.
  - intros _ w' Hw'. by apply wpe_ret.
  - intros e w' Hw'. apply wpe_noexcept, (wpe_of_steps _ neutral); [done|].
    intros w2 Hn. pose proof (books_neutral _ _ _ _ Hw' Hn). eauto using books_some.
Qed.

Lemma guard_destroy_books g k w0 held w :
  freed g = false → booked (aquire_release g) k → books w0 (held ⊎ {[+ k +]}) w →
  wpe (some_book w0) (guard_destroy g) (λ _, books w0 held) (λ _ _, False) w.
Proof.
  intros Hfr [Hf Hd] Hb. unfold guard_destroy, guard_free. rewrite Hfr.
  apply wpe_bind, wpe_noexcept, wpe_bind.
  eapply wpe_mono; [apply (Hf del); [done|intros; multiset_solver]|..]; cbv beta.
  - intros _ w' Hw'. apply wpe_ret, wpe_noexcept, (wpe_of_steps _ neutral); [done|].
    intros w2 Hn. pose proof (books_neutral _ _ _ _ Hw' Hn) as Hw2.
    replace (after del k (held ⊎ {[+ k +]})) with held in Hw2 by (cbn; multiset_solver).
    eauto using books_some.
  - intros e w' Hw'. by eapply books_some.
Qed.

Lemma guards_destroy_books gs ks w0 held w :
  keyed gs ks → books w0 (all ks ⊎ held) w →
  wpe (some_book w0) (guards_destroy gs) (λ _, books w0 held) (λ _ _, False) w.
Proof.
  intros Hg. unfold guards_destroy. revert w.
  induction Hg as [|g k gs ks [Hfr Hk] _ IH]; intros w Hb; cbn [mapM_].
  - apply wpe_ret. by rewrite list_to_set_disj_nil, (left_id_L ∅ (⊎)) in Hb.
  - apply wpe_bind. eapply wpe_mono; [apply (guard_destroy_books g k _ (all ks ⊎ held)); [done..|]|..]; [|by auto|done].
    rewrite list_to_set_disj_cons in Hb.
    by replace (all ks ⊎ held ⊎ {[+ k +]}) with ({[+ k +]} ⊎ all ks ⊎ held) by multiset_solver.
Qed.

Lemma emplace_all_books (fs : list (Action → outcome string)) gs ks w0 held w :
  Forall (λ f, ∃ k, names_resource f k) fs → keyed gs ks → books w0 (all ks ⊎ held) w →
  wpe (some_book w0) (emplace_all ((λ f, mret (command f)) <$> fs) gs)
    (λ gs' w', ∃ ks', keyed gs' ks' ∧ books w0 (all ks' ⊎ held) w') (λ _, books w0 held) w.
Proof.
  intros Hfs. revert gs ks w. induction Hfs as [|f fs [k Hk] _ IH]; intros gs ks w Hg Hb; cbn [emplace_all fmap list_fmap].
  - apply wpe_ret. by exists ks.
  - apply wpe_bind, wpe_on_raise. rewrite ret_bind. pose proof (command_booked _ _ Hk) as Hf.
    eapply wpe_mono; [by eapply guard_new_books|..]; cbv beta.
    + intros g w' (Hfr & Hgf & Hw'). apply (IH (gs ++ [g]) (ks ++ [k])).
      * apply Forall2_app; [done|]. constructor; [|constructor]. by rewrite Hgf.
      * rewrite list_to_set_disj_app, list_to_set_disj_cons, list_to_set_disj_nil.
        by replace (all ks ⊎ ({[+ k +]} ⊎ ∅) ⊎ held) with (all ks ⊎ held ⊎ {[+ k +]}) by multiset_solver.
    + intros e w' Hw'. eapply wpe_mono; [by eapply guards_destroy_books|done|done].
Qed.
End guards.

(** ** What neither adds nor deletes *)
Section neutrals.
Context `{System} `{Fuel} `{Net_text} `{Libc} `{Host}.

Lemma wol_watcher_neutral iface m pc : steps_post neutral (make_wol_watcher iface m pc) (takes neutral).
Proof.
  unfold make_wol_watcher. eapply (post_bind _ _ _ (λ _, True)).
  - apply post_steps, emits_neutral. unfold wol_watcher_new. steps_tac;
      auto using pcap_open_emits, set_filter_emits, pcap_destroy_emits.
  - intros s _. apply post_ret; [apply _|]. apply silent_takes; [apply _|..]; cbn [apply dispose].
    + intros a. apply emits_neutral. unfold wol_watcher_apply, wol_watcher_stop, thread_assign,
        thread_join_if_joinable. steps_tac; auto using break_loop_emits.
    + intros a w1. unfold wol_watcher_apply. wp_step. apply (wp_of_steps (λ _ _, True)); [done| |done].
      intros _ w2 _. wp_step. apply (wp_of_steps (λ _ _, True)); [done| |done]. intros _ w3 _. by wp_step.
    + apply emits_neutral. unfold wol_watcher_destroy, wol_watcher_stop, thread_join_if_joinable.
      steps_tac; auto using break_loop_emits, pcap_destroy_emits.
Qed.

Lemma get_mac_neutral iface : steps neutral (get_mac iface).
Proof.
  unfold get_mac, with_self_pipes. repeat first
    [ apply spawn_neutral; reflexivity
    | apply emits_neutral; solve [auto using get_self_pipes_emits, fd_destroy_emits, fd_read_emits]
    | steps_step ].
Qed.

Lemma daw_neutral iface ip pc : steps_post neutral (make_duplicate_address_watcher iface ip pc) (takes neutral).
Proof.
  unfold make_duplicate_address_watcher, daw_new. eapply (post_bind _ _ _ (λ _, True)).
  - apply post_steps, steps_bind; [apply _|apply get_mac_neutral|intros m].
    apply emits_neutral. steps_tac.
  - intros d _. apply post_ret; [apply _|]. apply silent_takes; [apply _|..]; cbn [apply dispose].
    + intros a. apply emits_neutral. unfold daw_apply, stop_watcher, thread_assign, thread_join_if_joinable.
      steps_tac.
    + intros a w1. unfold daw_apply. wp_step. apply (wp_of_steps (λ _ _, True)); [done| |done].
      intros _ w2 _. wp_step. apply (wp_of_steps (λ _ _, True)); [done| |done]. intros _ w3 _. by wp_step.
    + apply emits_neutral. unfold stop_watcher, thread_join_if_joinable. steps_tac.
Qed.

Lemma ptr_guard_neutral pc : takes neutral (ptr_guard pc).
Proof.
  apply silent_takes; [apply _|..]; cbn [apply dispose ptr_guard].
  - intros a. apply emits_neutral. unfold ptr_guard_apply. steps_tac.
  - intros a w. unfold ptr_guard_apply. by wp_run.
  - apply steps_ret. apply _.
Qed.

Lemma wait_neutral args : steps neutral (wait_and_listen args).
Proof.
  unfold wait_and_listen. apply steps_bind; [apply _|by apply emits_neutral, pcap_open_emits|]. intros pc.
  apply steps_finally; [apply _| |by apply emits_neutral, pcap_destroy_emits].
  apply (post_bind neutral _ _ (Forall (λ g, takes neutral (aquire_release g))) (λ _, True)).
  - apply emplace_all_takes; [apply _| |constructor]. unfold watchers. apply Forall_app. split.
    + repeat (apply Forall_cons; split); [apply wol_watcher_neutral| |apply Forall_nil_2].
      apply post_ret; [apply _|apply ptr_guard_neutral].
    + apply Forall_fmap, Forall_forall. intros ip _. apply daw_neutral.
  - intros gs Hgs. apply post_steps, steps_finally; [apply _| |by apply guards_destroy_takes; [apply _|]].
    apply emits_neutral. unfold listen. steps_tac; auto using set_filter_emits, get_datalink_emits.
    apply loop_emits; [done|]. intros. steps_tac.
Qed.

Lemma ping_and_wait_neutral iface ip tries : steps neutral (ping_and_wait iface ip tries).
Proof.
  assert (∀ n r, steps neutral (ping_loop n (ping_cmd iface ip) r)) as Hping.
  { induction n as [|n IH]; intros r; cbn [ping_loop]; [apply steps_ret; apply _|].
    apply steps_bind; [apply _|by apply emits_neutral, is_signaled_emits|]. intros sg.
    destruct (_ && _); [|apply steps_ret; apply _].
    apply steps_bind; [apply _| |auto]. apply spawn_neutral, ping_argv_polarity. }
  apply steps_bind; [apply _|apply Hping|]. intros r. apply steps_ret. apply _.
Qed.

Lemma wake_neutral args data dst : steps neutral (wake args data dst).
Proof.
  assert (∀ A (m : M A), emits (of_kind sockets_only) m → steps neutral m) as Hsock.
  { intros A m Hm. apply emits_neutral. eapply steps_mono; [exact Hm|]. intros w w' Hw.
    eapply extends_mono; [exact Hw|]. intros e. unfold of_kind. by destruct (event_kind e). }
  unfold wake. apply steps_bind; [apply _| |intros _].
  { case_decide; apply Hsock; [apply wol_udp_emits|apply wol_ethernet_emits]. }
  apply steps_bind; [apply _|apply ping_and_wait_neutral|intros b].
  apply steps_bind; [apply _|by apply emits_neutral, replay_data_emits|intros _].
  apply steps_ret. apply _.
Qed.
End neutrals.

(** ** The program *)
Section program.
Context `{System} `{Fuel} `{Net_text} `{Libc} `{Host}.

(** What every computation of the program does with the book: nothing in the end *)
Definition keeps_books {A} (m : M A) : Prop := ∀ w0 held w,
  books w0 held w → wpe (some_book w0) m (λ _, books w0 held) (λ _, books w0 held) w.

Lemma keeps_books_neutral {A} (m : M A) : steps neutral m → keeps_books m.
Proof.
  intros Hm w0 held w Hb. apply (wpe_of_steps _ neutral); [done|]. intros w' Hn.
  pose proof (books_neutral _ _ _ _ Hb Hn). eauto using books_some.
Qed.
Lemma keeps_books_bind {A B} (m : M A) (f : A → M B) :
  keeps_books m → (∀ a, keeps_books (f a)) → keeps_books (m ≫= f).
Proof.
  intros Hm Hf w0 held w Hb. apply wpe_bind. eapply wpe_mono; [by apply Hm|..]; [|done].
  intros a w' Hw'. by apply Hf.
Qed.

Lemma emulate_host_keeps_books args : keeps_books (emulate_host args).
Proof.
  intros w0 held w Hb. unfold emulate_host. apply wpe_bind.
  unfold setup_firewall_and_ips. rewrite setup_functors_actions.
  eapply wpe_mono; [apply (emplace_all_books _ [] [] w0 held); [apply setup_actions_name|constructor|]|..];
    [|cbv beta|done].
  { by rewrite list_to_set_disj_nil, (left_id_L ∅ (⊎)). }
  intros locks w1 (ks & Hks & Hb1). apply wpe_bind, wpe_on_raise.
  assert (∀ w2, books w0 (list_to_set_disj ks ⊎ held) w2 →
    wpe (some_book w0) (guards_destroy locks) (λ _, books w0 held) (λ _ _, False) w2) as Hdestroy
    by (intros; by eapply guards_destroy_books).
  eapply wpe_mono; [apply (keeps_books_neutral _ (wait_neutral args)); exact Hb1|..]; cbv beta.
  2:{ intros e w2 Hb2. eapply wpe_mono; [by apply Hdestroy|done|done]. }
  intros [[[ler data] source] dst] w2 Hb2.
  assert (∀ status : Emulate_host_status, wpe (some_book w0) (_ ← guards_destroy locks; mret status)
    (λ _, books w0 held) (λ _, books w0 held) w2) as Hleave.
  { intros status. apply wpe_bind. eapply wpe_mono; [by apply Hdestroy|done|done]. }
  destruct ler; try apply Hleave. clear Hleave.
  destruct (Block_icmp_names source) as [bk Hbk]. apply wpe_bind, wpe_on_raise.
  eapply wpe_mono; [by eapply (guard_new_books _ bk), Hb2; apply command_booked|..]; cbv beta.
  2:{ intros e w3 Hb3. eapply wpe_mono; [by apply Hdestroy|done|done]. }
  intros g w3 (Hfr & Hg & Hb3). apply wpe_finally.
  assert (∀ w4, books w0 (held ⊎ {[+ bk +]}) w4 →
    wpe (some_book w0) (guard_destroy g) (λ _, books w0 held) (λ _ _, False) w4) as Hunblock.
  { intros w4 Hb4. eapply guard_destroy_books; [done|by rewrite Hg; apply command_booked|done]. }
  apply wpe_bind. eapply wpe_mono; [apply (guards_destroy_books locks ks w0 (held ⊎ {[+ bk +]}))|..]; [done| | |done].
  { by rewrite (assoc_L (⊎)). }
  intros ? w4 Hb4. eapply wpe_mono; [apply (keeps_books_neutral _ (wake_neutral args data dst)); exact Hb4|..].
  all: intros ? w5 Hb5; (eapply wpe_mono; [by apply Hunblock|done|done]).
Qed.

(** *** [watchHost] *)
Lemma ping_ips_neutral iface ips : steps neutral (ping_ips iface ips).
Proof.
  unfold ping_ips. apply steps_bind; [apply _| |intros; apply steps_lift; apply _].
  induction ips as [|ip ips IH]; cbn [mapM]; [apply steps_ret; apply _|].
  apply steps_bind; [apply _|apply steps_attempt, ping_and_wait_neutral|intros b].
  apply steps_bind; [apply _|exact IH|intros bs; apply steps_ret; apply _].
Qed.
Lemma watch_awake_neutral n args : steps neutral (watch_awake n args).
Proof.
  induction n as [|n IH]; cbn [watch_awake]; [apply steps_end; apply _|].
  apply steps_bind; [apply _|apply ping_ips_neutral|intros awake].
  apply steps_bind; [apply _| |intros [|]; [|apply steps_ret; apply _]].
  - destruct awake; [|apply steps_ret; apply _].
    apply steps_bind; [apply _|by apply emits_neutral, is_signaled_emits|intros; apply steps_ret; apply _].
  - apply steps_bind; [apply _|apply emits_neutral; steps_tac|intros; exact IH].
Qed.

Lemma watch_loop_keeps_books n args b : keeps_books (watch_loop n args b).
Proof.
  assert (∀ A (a : A), keeps_books (mret a)) as Hret by (intros; apply keeps_books_neutral, steps_ret; apply _).
  assert (keeps_books is_signaled) as Hsig by by apply keeps_books_neutral, emits_neutral, is_signaled_emits.
  revert b. induction n as [|n IH]; intros b; cbn [watch_loop]; [by apply keeps_books_neutral, steps_end; apply _|].
  apply keeps_books_bind; [done|intros sg]. destruct (_ && _); [|done].
  apply keeps_books_bind; [apply keeps_books_neutral, watch_awake_neutral|intros _].
  apply keeps_books_bind; [done|intros [|]; [done|]].
  apply keeps_books_bind; [|intros; apply IH]. intros w0 held w Hb. apply wpe_catch.
  eapply wpe_mono; [apply (keeps_books_bind _ _ (emulate_host_keeps_books args)); [intros; apply Hret|done]|done|].
  intros e w' Hb'. refine (keeps_books_bind _ _ _ _ _ _ _ Hb'); [|intros; apply Hret].
  by apply keeps_books_neutral, emits_neutral, raise_signal_emits.
Qed.

(** *** The watcher threads *)
Lemma with_self_pipes_neutral {A} (body : File_descriptor → File_descriptor → M A) :
  (∀ a b, steps neutral (body a b)) → steps neutral (with_self_pipes body).
Proof.
  intros Hb. unfold with_self_pipes.
  apply steps_bind; [apply _|by apply emits_neutral, get_self_pipes_emits|intros ab].
  apply steps_finally; [apply _|apply Hb|]. apply emits_neutral. steps_tac; by apply fd_destroy_emits.
Qed.
Lemma Ip_neigh_checker_neutral mac iface ip : steps neutral (Ip_neigh_checker mac iface ip).
Proof.
  unfold Ip_neigh_checker, is_ipv4_present, is_ipv6_present. case_decide.
  - apply steps_bind; [apply _|by apply spawn_neutral|intros; apply steps_ret; apply _].
  - apply with_self_pipes_neutral. intros a b.
    apply steps_bind; [apply _|by apply spawn_neutral|intros _].
    apply steps_bind; [apply _|by apply emits_neutral, fd_read_emits|intros; apply steps_ret; apply _].
Qed.

Lemma daw_loop_neutral n iface ip occ owner pc :
  (∀ iface ip, steps neutral (occ iface ip)) → steps neutral (daw_loop n iface ip occ owner pc).
Proof.
  intros Hocc. induction n as [|n IH]; cbn [daw_loop]; [apply steps_end; apply _|].
  apply steps_bind; [apply _|apply emits_neutral; steps_tac|intros [|]; [|apply steps_ret; apply _]].
  apply steps_bind; [apply _|apply Hocc|intros o].
  apply steps_bind; [apply _| |intros _; exact IH].
  apply emits_neutral. steps_tac; by apply break_loop_emits.
Qed.
Lemma daw_handler_neutral owner pc :
  steps neutral (_ ← call (Atomic_store owner false); break_loop pc signal).
Proof. apply emits_neutral. steps_tac; by apply break_loop_emits. Qed.
Lemma daw_non_root_neutral iface ip occ owner pc :
  (∀ iface ip, steps neutral (occ iface ip)) →
  steps neutral (daw_thread_main_non_root iface ip occ owner pc).
Proof.
  intros Hocc. apply steps_catch; [apply _|by apply daw_loop_neutral|intros _; apply daw_handler_neutral].
Qed.

(** The rule against neighbour solicitations is entered and taken out again. *)
Lemma guarded_books {A} f k (m : M A) :
  names_resource f k → steps neutral m →
  keeps_books (g ← guard_new (command f); finally m (guard_destroy g)).
Proof.
  intros Hk Hm w0 held w Hb. apply wpe_bind.
  eapply wpe_mono; [eapply (guard_new_books _ k), Hb; by apply command_booked|..]; cbv beta; [|done].
  intros g w1 (Hfr & Hg & Hb1). apply wpe_finally.
  apply (wpe_of_steps _ neutral); [done|]. intros w2 Hn.
  pose proof (books_neutral _ _ _ _ Hb1 Hn) as Hb2.
  assert (wpe (some_book w0) (guard_destroy g) (λ _, books w0 held) (λ _ _, False) w2) as Hd.
  { eapply guard_destroy_books; [done|by rewrite Hg; apply command_booked|done]. }
  split_and!; [| |by eapply books_some]; intros ?; (eapply wpe_mono; [exact Hd|done|done]).
Qed.

Lemma daw_ipv6_keeps_books iface ip occ owner pc :
  (∀ iface ip, steps neutral (occ iface ip)) →
  keeps_books (daw_thread_main_ipv6 iface ip occ owner pc).
Proof.
  intros Hocc w0 held w Hb. unfold daw_thread_main_ipv6. apply wpe_catch.
  assert (keeps_books (g ← guard_new (command (Block_ipv6_neighbor_solicitation ip));
    finally (daw_thread_main_non_root iface ip occ owner pc) (guard_destroy g))) as Hk.
  { destruct (decide (family ip = AF_INET6)) as [Hip|Hip].
    - destruct (Block_ns_names ip Hip) as [k Hk]. eapply guarded_books; [done|by apply daw_non_root_neutral].
    - apply keeps_books_neutral. intros w1. rewrite bind_run. unfold guard_new, on_raise, take_action, command.
      cbn [apply dispose]. unfold Block_ipv6_neighbor_solicitation, ipv6_to_u32_rule.
      rewrite decide_True by done. by apply neutral_same. }
  eapply wpe_mono; [by apply Hk|done|]. intros e w' Hb'. cbv beta in Hb'.
  by apply (keeps_books_neutral _ (daw_handler_neutral owner pc)).
Qed.

(** ** The threads of the program

    [watchHost] runs a thread per host; while such a thread waits for a connection
    it has one which listens for magic packets and one per address. *)
Inductive proxy_thread :=
  | Watch_host (args : Args)
  | Watch_wol (mac : ether_addr) (waiting_for_wol waiting_for_syn : nat)
  | Watch_address (this_nodes_mac iface : string) (ip : IP_address) (owner pc : nat).

Definition run_thread (t : proxy_thread) : M unit :=
  match t with
  | Watch_host args => thread_main args
  | Watch_wol mac wol syn => wol_listener mac wol syn
  | Watch_address mac iface ip owner pc =>
      daw_main_function {| daw_iface := iface; daw_ip := ip; daw_pcap := pc;
                           daw_is_ip_occupied := Ip_neigh_checker mac; daw_id := owner |}
  end.

Lemma keeps_books_noexcept {A} (m : M A) : keeps_books m → keeps_books (noexcept m).
Proof.
  intros Hm w0 held w Hb. apply wpe_noexcept. eapply wpe_mono; [by apply Hm|done|].
  intros e w' Hb'. cbv beta in Hb'. by eapply books_some.
Qed.

Lemma run_thread_keeps_books t : keeps_books (run_thread t).
Proof.
  destruct t as [args|mac wol syn|mac iface ip owner pc]; cbn [run_thread].
  - apply watch_loop_keeps_books.
  - apply keeps_books_neutral, emits_neutral. unfold wol_listener, wol_watcher_thread_main.
    steps_tac; [|by apply break_loop_emits]. apply loop_emits; [done|]. intros [] h p.
    unfold break_on_magic_packet. steps_tac. by apply break_loop_emits.
  - unfold daw_main_function. cbn [daw_iface daw_ip daw_pcap daw_is_ip_occupied daw_id].
    apply keeps_books_noexcept. case_decide.
    + apply keeps_books_neutral, daw_non_root_neutral. intros. apply Ip_neigh_checker_neutral.
    + apply daw_ipv6_keeps_books. intros. apply Ip_neigh_checker_neutral.
Qed.

(** The commands of a run are a valid book, and an empty one if it comes to an end. *)
Lemma keeps_books_run {A} (m : M A) w :
  keeps_books m →
  let '(r, w') := m w in
  ∃ cs held, commands w' = commands w ++ cs ∧ ledger ∅ cs = Some held
  ∧ match r with Ended _ => True | _ => held = ∅ end.
Proof.
  intros Hm. pose proof (Hm w ∅ w (books_refl w)) as Hw. unfold wpe in Hw.
  destruct (m w) as [[a|e|u] w'].
  - destruct Hw as (cs & ? & ?). by exists cs, ∅.
  - destruct Hw as (cs & ? & ?). by exists cs, ∅.
  - destruct Hw as (held & cs & ? & ?). by exists cs, held.
Qed.
End program.

(** ** Several threads *)

(** The commands of several threads, in the order in which they ended *)
Inductive interleaved {A} : list (list A) → list A → Prop :=
  | interleaved_nil ts : Forall (λ t, t = []) ts → interleaved ts []
  | interleaved_cons ts i c t cs :
      ts !! i = Some (c :: t) → interleaved (<[i := t]> ts) cs → interleaved ts (c :: cs).

Definition total (helds : list book) : book := foldr (⊎) ∅ helds.

Lemma total_insert helds i held held' :
  helds !! i = Some held → total (<[i := held']> helds) ⊎ held = total helds ⊎ held'.
Proof.
  revert i. induction helds as [|h helds IH]; intros [|i]; cbn [lookup list_lookup]; [done..| |].
  - intros [= ->]. change (held' ⊎ total helds ⊎ held = held ⊎ total helds ⊎ held'). multiset_solver.
  - intros Hi. change (h ⊎ total (<[i := held']> helds) ⊎ held = h ⊎ total helds ⊎ held').
    rewrite <-!(assoc_L (⊎)), (IH _ Hi). done.
Qed.

Lemma Forall3_insert_12 {A B C} (P : A → B → C → Prop) l1 l2 l3 i x y z :
  Forall3 P l1 l2 l3 → l3 !! i = Some z → P x y z → Forall3 P (<[i := x]> l1) (<[i := y]> l2) l3.
Proof.
  intros Hall. revert i. induction Hall as [|x' y' z' l1 l2 l3 Hp Hall IH]; intros [|i]; cbn; [done..| |].
  - intros [= ->]. by constructor.
  - intros Hi Hxyz. constructor; [done|]. by apply IH.
Qed.

(** Books which are valid by themselves stay valid when they are merged. *)
Lemma ledger_merge ts cs helds ends :
  interleaved ts cs → Forall3 (λ held t held', ledger held t = Some held') helds ts ends →
  ledger (total helds) cs = Some (total ends).
Proof.
  intros Hi. revert helds. induction Hi as [ts Hts|ts i c t cs Hi _ IH]; intros helds Hall.
  - cbn. f_equal. induction Hall as [|held t held' helds ts ends Hl _ IH]; [done|].
    apply Forall_cons in Hts as [-> Hts]. cbn in Hl. injection Hl as ->. cbn. f_equal. by apply IH.
  - destruct (Forall3_lookup_m _ _ _ _ _ _ Hall Hi) as (held & e & Hh & He & Hl).
    cbn in Hl. destruct (enter held c) as [held1|] eqn:Hent; [|done]. cbn.
    assert (total helds = held ⊎ total (<[i := ∅]> helds)) as Htot.
    { pose proof (total_insert _ _ _ ∅ Hh) as Ht. rewrite (right_id_L ∅ (⊎)) in Ht. multiset_solver. }
    assert (enter (total helds) c = Some (total (<[i := held1]> helds))) as ->.
    { rewrite Htot, (enter_frame _ _ _ _ Hent). f_equal.
      assert (<[i := ∅]> helds !! i = Some ∅) as H0 by (apply list_lookup_insert_eq; by eapply lookup_lt_Some).
      pose proof (total_insert _ _ _ held1 H0) as Ht. rewrite list_insert_insert_eq in Ht.
      rewrite (right_id_L ∅ (⊎)) in Ht. rewrite Ht. multiset_solver. }
    cbn. apply IH. by eapply Forall3_insert_12.
Qed.

(** A thread, run in any environment: the commands it has run so far, and whether
    it has come to an end *)
Definition thread_commands (cs : list entry) (finished : bool) : Prop :=
  ∃ (sys : System) (fu : Fuel) (net : Net_text) (host : Host) t w r w',
    run_thread t w = (r, w') ∧ commands w' = commands w ++ cs
    ∧ if finished then (∀ how, r ≠ Ended how) else True.

Lemma thread_commands_ledger cs finished :
  thread_commands cs finished → ∃ held, ledger ∅ cs = Some held ∧ (finished = true → held = ∅).
Proof.
  intros (sys & fu & net & host & t & w & r & w' & Hrun & Hcs & Hfin).
  pose proof (keeps_books_run (run_thread t) w (run_thread_keeps_books t)) as Hb.
  rewrite Hrun in Hb. destruct Hb as (cs' & held & Hcs' & Hl & Hr).
  rewrite Hcs in Hcs'. apply app_inv_head in Hcs' as ->. exists held. split; [done|]. intros ->.
  destruct r as [a|e|how]; [done..|]. by destruct (Hfin how).
Qed.

(** ** Properties *)

(** C6: [emulate_host] refines the ledger.  The commands it has run are a valid book at
    every moment -- no address or rule is ever deleted which it has not added before --
    also when the process dies in the middle; when it returns or throws, the book
    is empty. *)
Theorem emulate_host_refines_ledger `{System} `{Fuel} `{Net_text} `{Host} args w :
  let '(r, w') := emulate_host args w in
  ∃ cs held, commands w' = commands w ++ cs ∧ ledger ∅ cs = Some held
  ∧ (∀ n, is_Some (ledger ∅ (take n cs)))
  ∧ match r with Ended _ => True | _ => held = ∅ end.
Proof.
  pose proof (keeps_books_run _ w (emulate_host_keeps_books args)) as Hb.
  destruct (emulate_host args w) as [r w']. destruct Hb as (cs & held & Hcs & Hl & Hr).
  exists cs, held. split_and!; [done..| |done]. intros n. eapply ledger_prefix; [apply take_drop|done].
Qed.

(** C7: the threads of [watchHost] -- one per host, and while a host is served its
    listener for magic packets and its address watchers, with their own rules --
    share one machine and do not get into each other's way: however their commands
    interleave, together they are a valid book -- none deletes what another has
    added --, and when all threads have come to an end nothing is held any more. *)
Theorem threads_share_the_ledger runs cs :
  Forall (λ run, thread_commands run.1 run.2) runs → interleaved runs.*1 cs →
  ∃ held, ledger ∅ cs = Some held ∧ (Forall (λ run, run.2 = true) runs → held = ∅).
Proof.
  intros Hruns Hi.
  assert (∃ ends, Forall3 (λ held t held', ledger held t = Some held') (replicate (length runs) ∅) runs.*1 ends
    ∧ (Forall (λ run, run.2 = true) runs → total ends = ∅)) as (ends & Hends & Hfin).
  { clear Hi. induction Hruns as [|[t fin] runs Ht _ (ends & IH & Hfin)]; [exists []; by split; [constructor|]|].
    destruct (thread_commands_ledger _ _ Ht) as (held & Hl & Hh). exists (held :: ends).
    split; [by constructor|]. intros [Hf Hfs]%Forall_cons. cbn. fold (total ends).
    rewrite Hfin, Hh by done. multiset_solver. }
  exists (total ends). split; [|done].
  rewrite <-(ledger_merge _ _ _ _ Hi Hends). f_equal.
  clear. induction (length runs) as [|n IH]; [done|]. cbn. fold (total (replicate n (∅ : book))). by rewrite <-IH.
Qed.

(** ** A witness *)

(** The threads take turns as [order] says. *)
Fixpoint merge_by {A} (order : list nat) (ts : list (list A)) : option (list A) :=
  match order with
  | [] => if decide (Forall (λ t, length t = 0%nat) ts) then Some [] else None
  | i :: order =>
      match ts !! i with
      | Some (c :: t) => (c ::.) <$> merge_by order (<[i := t]> ts)
      | _ => None
      end
  end.
Lemma merge_by_interleaved {A} order (ts : list (list A)) cs :
  merge_by order ts = Some cs → interleaved ts cs.
Proof.
  revert ts cs. induction order as [|i order IH]; intros ts cs; cbn [merge_by].
  - case_decide as Hts; [|done]. intros [= <-]. apply interleaved_nil.
    eapply Forall_impl; [exact Hts|]. by intros [].
  - destruct (ts !! i) as [[|c t]|] eqn:Hi; [done| |done].
    destruct (merge_by order _) as [cs'|] eqn:Hm; [|done]. intros [= <-]. econstructor; [done|by apply IH].
Qed.

(** The environment of [sleep_system], but no ping is ever answered. *)
Definition lost_system : System :=
  {| reply := λ A h c,
       match c in syscall A return A with
       | Waitpid pid => match command_states h with (Some (_, "ping" :: _), _) => Some 256 | _ => Some 0 end
       | c => @reply sleep_system _ h c
       end;
     strerror_errno := λ _, "error" |}.

(** A thread of [watchHost], and one which watches ::1 *)
Definition lost_run (t : proxy_thread) : list entry :=
  commands (@run_thread lost_system 3%nat ref_net Little t world_init).2.
Definition lost_threads : list proxy_thread :=
  [Watch_host sleep_args; Watch_host sleep_args;
   Watch_address "aa:bb:cc:dd:ee:ff" "eth0" {| family := AF_INET6; address := replicate 15 0 ++ [1]; subnet := 128 |} 1 0].
Definition lost_order : list nat :=
  replicate 9 0%nat ++ [2%nat] ++ mjoin (replicate 10 [0; 1]%nat) ++ [2%nat] ++ replicate 9 1%nat.

Lemma lost_run_ends t :
  t ∈ lost_threads → thread_commands (lost_run t) true.
Proof.
  assert (∀ how, (@run_thread lost_system 3%nat ref_net Little t world_init).1 = Ended how → t ∉ lost_threads) as Hr.
  { intros how Hr. unfold lost_threads. rewrite !not_elem_of_cons.
    split_and!; [intros ->; by vm_compute in Hr..|apply not_elem_of_nil]. }
  intros Ht. destruct (@run_thread lost_system 3%nat ref_net Little t world_init) as [r w'] eqn:E.
  exists lost_system, 3%nat, ref_net, Little, t, world_init, r, w'.
  split; [done|]. unfold lost_run. rewrite E. split; [done|].
  intros how ->. by apply (Hr how).
Qed.

Lemma threads_share_the_ledger_witness :
  Forall (λ run, thread_commands run.1 run.2) ((λ t, (lost_run t, true)) <$> lost_threads)
  ∧ ∃ cs, interleaved (lost_run <$> lost_threads) cs ∧ ledger ∅ cs = Some ∅ ∧ length cs = 40%nat.
Proof.
  assert (Forall (λ run, thread_commands run.1 run.2) ((λ t, (lost_run t, true)) <$> lost_threads)) as Hruns.
  { apply Forall_fmap, Forall_forall. intros t Ht. by apply lost_run_ends. }
  split; [done|].
  destruct (merge_by lost_order (lost_run <$> lost_threads)) as [cs|] eqn:Hm; [|by vm_compute in Hm].
  pose proof (merge_by_interleaved _ _ _ Hm) as Hi. exists cs. split; [done|].
  destruct (threads_share_the_ledger _ _ Hruns Hi) as (held & Hl & Hfin).
  rewrite Hl, Hfin by (by repeat constructor). split; [done|]. vm_compute in Hm. by injection Hm as <-.
Defined.
